(* ===== verification/_CoqProject ===== *)
-Q . S2P
Prelude.v
Double.v
Metadata.v
Protocol.v
StatSlot.v
FlatIndex.v
Fifo.v
SeqnoIndex.v
DocCache.v
S3Fifo.v
S3FifoInv.v
S3FifoOps.v
Cache.v
CacheLaws.v
S3FifoBudget.v
Eff.v
Request.v
WriteBatch.v
Magma.v
Persist.v
PersistExamples.v
Dispatch.v
ReadPath.v
ReadExamples.v
Durable.v
DurableExamples.v
VBQueue.v
ConnState.v
Connection.v
ConnInv.v
ConnIO.v
ConnSpec.v
ConnParse.v
ConnExamples.v
ConnLoop.v
ConnErr.v
ConnMigrate.v
Combining.v
ConnDirect.v
Consistency.v
ConsistencyExamples.v
ElasticPool.v
PoolThreads.v
PoolSpec.v
IOPool.v
IOLevel.v
IOThreads.v
IOAcct.v
IOEvents.v
IOTune.v
IOExamples.v
Tuner.v
TunerInv.v
TunerExamples.v
Rounding.v
Governor.v
GovernorSpec.v
Options.v
OptionsSpec.v
ClientKeys.v
LatencyHist.v
ClientWire.v
ClientRun.v
