(* ===== verification/Prelude.v ===== *)
(** * A verification of fluxkv

    fluxkv is a key-value server that speaks the memcached binary protocol in front of
    the magma storage engine, with a load generator beside it.  This library models it as
    functions and step relations, and proves that the parts do what they promise each other.

    ** The program and its parts

    A client connection lives on an IO thread (an event loop).  [Connection] parses its
    stream, answers from the document cache when it can, and otherwise hands a request to the
    engine: a GET to a reader of the key's shard, a SET or DELETE, after it has been put in
    the cache and pinned there, through a per-vbucket queue to a writer.  Writers persist a
    vbucket's queue as one magma batch and unpin the entries; readers fetch from magma and
    fill the cache.  Both hand requests back to the connection's loop, or (with
    [--direct-send]) write the socket themselves.  A tuner changes the number of IO threads,
    readers and writers while the server runs, and governors hold memory and disk use to
    their budgets.

    ** Where each part is modelled

    - [Prelude] (this file): integers of a fixed width, byte strings, list lemmas, tactics
      and the hint database [fluxkv].  [Double]: IEEE doubles as the Standard Library's
      [SpecFloat]; [Rounding]: what rounding keeps.  [Eff]: a state and failure monad with
      weakest preconditions, in which the handlers and the write path are written.
    - Wire and disk formats: [Protocol] (server/protocol.h, protocol.cc), [Metadata]
      (server/metadata.h), [StatSlot] (server/statslot.h, statslot.cc).
    - The cache (server/cache): [FlatIndex], [Fifo], [SeqnoIndex] are the index, the
      queues and the seqno index of s3fifo_cache.cc; [S3Fifo] is one shard and [Cache] the
      sharded cache.  [DocCache] is the contract of doccache.h as a class with laws;
      [S3FifoInv], [S3FifoOps], [CacheLaws] and [S3FifoBudget] prove that the implementation
      keeps it and how far a shard can be over budget.
    - The engine (server/engine.h, engine.cc): [Request] has requests on an explicit heap
      with their intrusive stacks, staging and pools; [WriteBatch] and [Persist] are
      [WriterPool::executePersist]; [ReadPath] and [Dispatch] are [ReaderPool::executeRead] and
      [DispatchAccum]; [VBQueue] has the atomic steps by which threads own a vbucket's queue;
      [PoolThreads] and [PoolSpec] the pools' threads, task queues and [Shutdown];
      [Durable] the [DurableNotifier].  [Magma] is what the engine relies on in the storage
      engine, as a class with laws and an instance.
    - Connections (server/connection.h, connection.cc): [ConnState] (state, pools, socket),
      [Connection] (parsing, handlers, responses, migration), [ConnInv] (who owns a request),
      [ConnIO], [ConnSpec], [ConnParse], [ConnLoop], [ConnMigrate], [ConnErr]; [ConnDirect] and
      [Combining] are direct sends, alone and by several threads at once.
    - [Consistency]: cache, write queues, writers, readers and store as one system.
    - Threads: [ElasticPool] (tuner.h's interface as a class with laws, the reader and
      writer pools, the group of all shards), [Tuner] and [TunerInv] (tuner.h, tuner.cc),
      [IOPool], [IOLevel] (server.cc's pool of IO threads), [IOThreads], [IOAcct],
      [IOEvents], [IOTune] (loops, connections, mailboxes and reservations together).
    - [Options] and [OptionsSpec]: main.cc's [parseArgs] with [getopt_long].  [Governor] and
      [GovernorSpec]: the governor threads of main.cc, and engine.h's write tokens.
    - The client (client/fluxbench.cc): [ClientKeys], [LatencyHist], [ClientWire], [ClientRun].
    - The files named [...Examples] hold concrete runs: that the theorems' hypotheses can be
      met, and the runs that show where the code does not do what it means to.

    State is a [Record] with the source's members, an operation a function named as in the
    source; what a function may not do in C++ (a bad index, a freed request, a conversion out of
    range) is a failure of the monad or [None], and theorems show that it does not happen.

    ** What the theorems show

    - Clients see their writes: [Consistency.reads_see_newest_write] says what a GET may
      return whatever the threads do; it uses the cache only through its contract, which
      [CacheLaws.s3fifo_keeps_contract] proves of the S3-FIFO cache.
    - Writes reach the store: a batch stores the newest write of each key and settles every
      request ([Persist]), a vbucket's writes are persisted in order by one writer at a
      time ([VBQueue.WriteOwner]), the writers get on with what is queued and a shutdown runs
      all of it ([PoolSpec]), durable writes are answered when the log covers them
      ([Durable]).  Reads are served once each and never stranded ([ReadPath],
      [VBQueue.ReadOwner], [Dispatch]).
    - A connection serves its stream: [ConnParse.wake_serves_stream] refines a wake-up to the
      frames of the stream; the parse loop ends on any input; a migration is never stuck;
      responses leave the socket in order and once.
    - Data structures refine finite maps and lists; encodings round-trip; a shard comes back
      to its budget.
    - The tuner keeps every pool within its bounds and its trials end; open connections are
      never lost while loops come and go, and a stopped loop is out of use; levelling levels.
    - The command line gives every option a value of its type and means its options in
      order; the memory governor's quota stays within its limits and falls to its floor under
      pressure; the space governor limits writes exactly while it has a rate.
    - The client's keys are distinct, its load covers the key space, its percentiles are within
      a bucket.

    ** Bounds and fuel

    Loops that are not structural have fuel that is proved enough: the parse loop and the run
    of cached GETs use the bytes buffered (every round consumes some); probing an index
    its number of slots; eviction and the clock hand the entries a shard has; levelling the sum of
    squares of the loads (each move lowers it); the tuner's search for a step the step itself;
    a trial 24 windows with the default configuration.  Integers are wrapped where the source's
    can wrap; counts of threads, windows and ticks, which stay far below their width, are not.

    ** What a step is

    A critical section is one step, and so is a wake-up of a connection with respect to other
    threads, except in [Combining], [VBQueue], [PoolThreads] and [Durable], whose steps are the single
    atomic or queue operations.  The tuner's operation on the IO pool is one step of [IOThreads].  Atomics are
    sequentially consistent.  [std::sort] keeps the order of equals.

    ** Not modelled

    - magma, folly and the operating system, which are not part of the sources: parameters,
      or classes with the laws the code relies on.  [strtod] and [sscanf] of doubles are parameters.
    - What does not change what is served: statistics counters, trace timers, log lines,
      prefetching ([prefetchAhead]), the hints of [SeqnoHint] and [learnValuePtr] in
      the read path, JSON for the stats endpoint, [printUsage].
    - server/alloc.cc (jemalloc set-up), the sockets of [Server::Start] and the HTTP stats
      endpoint, the wiring of options into magma's configuration and the order of start-up and
      shutdown in [main]: sequences of calls into libraries with nothing to prove about their
      results.
    - The shard's own completion thread ([durableLoop]), asynchronous and multi-vbucket reads
      ([submitReadsAsync], [executeReadMulti]), and the client's window mode, sockets and
      pacing.
*)
From stdpp Require Import prelude gmap list strings pretty.
From Stdlib Require Import ZArith Lia.
Open Scope Z_scope.

(** ** Fixed-width unsigned integers

    A [w]-bit C++ unsigned integer is a [Z] in [[0, 2^w)]; arithmetic that the
    source performs at that width is followed by the wrap-around written out
    with [uwrap]. *)
Definition uwrap (w x : Z) : Z := x mod 2 ^ w.
Definition u8 (x : Z) : Z := uwrap 8 x.
Definition u16 (x : Z) : Z := uwrap 16 x.
Definition u32 (x : Z) : Z := uwrap 32 x.
Definition u64 (x : Z) : Z := uwrap 64 x.
Definition is_uint (w x : Z) : Prop := 0 <= x < 2 ^ w.

(** A 32-bit value read back as the signed [int] / [int64_t] of the source. *)
Definition swrap (w x : Z) : Z := (x + 2 ^ (w - 1)) mod 2 ^ w - 2 ^ (w - 1).

Declare Scope machine_scope.
Delimit Scope machine_scope with machine.
Notation "x +64 y" := (u64 (x + y)) (at level 50, left associativity) : machine_scope.
Notation "x -64 y" := (u64 (x - y)) (at level 50, left associativity) : machine_scope.
Notation "x *64 y" := (u64 (x * y)) (at level 40, left associativity) : machine_scope.
Notation "x <<64 n" := (u64 (Z.shiftl x n)) (at level 40, left associativity) : machine_scope.
Notation "x -32 y" := (u32 (x - y)) (at level 50, left associativity) : machine_scope.
Notation "x +32 y" := (u32 (x + y)) (at level 50, left associativity) : machine_scope.

(** ** Byte strings

    A byte is a [Z] in [[0, 256)] and a buffer is a list of bytes. *)
Definition byte_ok (b : Z) : Prop := 0 <= b < 256.
Definition bytes_ok (l : list Z) : Prop := Forall byte_ok l.

(** The bytes of an [n]-byte integer as a little-endian host stores them
    ([memcpy] of the object), and the integer a [memcpy] reads back. *)
Fixpoint le_bytes (n : nat) (v : Z) : list Z :=
  match n with
  | O => []
  | S n' => v mod 256 :: le_bytes n' (v / 256)
  end.

Fixpoint le_value (l : list Z) : Z :=
  match l with
  | [] => 0
  | b :: l' => b + 256 * le_value l'
  end.

(** [htons]/[htonl]/[folly::Endian::big] on a little-endian host: reverse the
    object's bytes. *)
Definition bswap (n : nat) (v : Z) : Z := le_value (rev (le_bytes n v)).

(** The bytes of a string literal, and [std::to_string]. *)
Definition chars (s : string) : list Z := (fun c => Z.of_N (Ascii.N_of_ascii c)) <$> String.list_ascii_of_string s.
Definition to_string (n : Z) : list Z := chars (pretty (Z.to_N n)).

(** A [Slice] / [std::string_view]: the [n] bytes at offset [off]. *)
Definition slice (off n : nat) (l : list Z) : list Z := take n (drop off l).

(** ** Automation *)
Create HintDb fluxkv.

(** Case analysis on the outermost [match]/[if] of the goal or a hypothesis,
    keeping the equation. *)
Ltac case_on t := let E := fresh "E" in destruct t eqn:E; simplify_eq/=.
Ltac break_if :=
  match goal with
  | |- context [if ?b then _ else _] => case_on b
  | H : context [if ?b then _ else _] |- _ => case_on b
  end.
Ltac break_match :=
  match goal with
  | |- context [match ?b with _ => _ end] => case_on b
  | H : context [match ?b with _ => _ end] |- _ => case_on b
  end.

(** Boolean comparisons as propositions. *)
Ltac b2p :=
  repeat match goal with
  | H : (_ =? _) = true |- _ => apply Z.eqb_eq in H
  | H : (_ =? _) = false |- _ => apply Z.eqb_neq in H
  | H : (_ <? _) = true |- _ => apply Z.ltb_lt in H
  | H : (_ <? _) = false |- _ => apply Z.ltb_ge in H
  | H : (_ <=? _) = true |- _ => apply Z.leb_le in H
  | H : (_ <=? _) = false |- _ => apply Z.leb_gt in H
  | H : (_ =? _)%nat = true |- _ => apply Nat.eqb_eq in H
  | H : (_ =? _)%nat = false |- _ => apply Nat.eqb_neq in H
  | H : (_ <? _)%nat = true |- _ => apply Nat.ltb_lt in H
  | H : (_ <? _)%nat = false |- _ => apply Nat.ltb_ge in H
  | H : (_ <=? _)%nat = true |- _ => apply Nat.leb_le in H
  | H : (_ <=? _)%nat = false |- _ => apply Nat.leb_gt in H
  | H : _ && _ = true |- _ => apply andb_true_iff in H; destruct H
  | H : _ || _ = false |- _ => apply orb_false_iff in H; destruct H
  | H : negb _ = true |- _ => apply negb_true_iff in H
  | H : negb _ = false |- _ => apply negb_false_iff in H
  | H : bool_decide _ = true |- _ => apply bool_decide_eq_true_1 in H
  | H : bool_decide _ = false |- _ => apply bool_decide_eq_false_1 in H
  end.

(** ** Integer lemmas *)
Lemma uwrap_small w x : is_uint w x -> uwrap w x = x.
Proof. intros; unfold uwrap; apply Z.mod_small; done. Qed.

Lemma uwrap_range w x : 0 <= w -> is_uint w (uwrap w x).
Proof. intros; apply Z.mod_pos_bound; lia. Qed.

Lemma u8_small x : 0 <= x < 256 -> u8 x = x.
Proof. intros; apply uwrap_small; done. Qed.
Lemma u16_small x : 0 <= x < 65536 -> u16 x = x.
Proof. intros; apply uwrap_small; done. Qed.
Lemma u32_small x : 0 <= x < 4294967296 -> u32 x = x.
Proof. intros; apply uwrap_small; done. Qed.
Lemma u64_small x : 0 <= x < 18446744073709551616 -> u64 x = x.
Proof. intros; apply uwrap_small; done. Qed.

Lemma u8_range x : 0 <= u8 x < 256.
Proof. apply (uwrap_range 8); lia. Qed.
Lemma u16_range x : 0 <= u16 x < 65536.
Proof. apply (uwrap_range 16); lia. Qed.
Lemma u32_range x : 0 <= u32 x < 4294967296.
Proof. apply (uwrap_range 32); lia. Qed.
Lemma u64_range x : 0 <= u64 x < 18446744073709551616.
Proof. apply (uwrap_range 64); lia. Qed.

#[export] Hint Resolve u8_range u16_range u32_range u64_range : fluxkv.

Lemma u64_add_idemp_l x y : u64 (u64 x + y) = u64 (x + y).
Proof. unfold u64, uwrap. rewrite Zplus_mod_idemp_l. done. Qed.
Lemma u64_sub_idemp_l x y : u64 (u64 x - y) = u64 (x - y).
Proof. unfold u64, uwrap. rewrite Zminus_mod_idemp_l. done. Qed.
Lemma u64_u64 x : u64 (u64 x) = u64 x.
Proof. apply u64_small, u64_range. Qed.

(** ** Byte-string lemmas *)
Lemma length_le_bytes n v : length (le_bytes n v) = n.
Proof. revert v; induction n; intros; simpl; auto. Qed.

Lemma le_bytes_ok n v : bytes_ok (le_bytes n v).
Proof.
  revert v; induction n; intros; simpl; constructor; [|apply IHn].
  apply Z.mod_pos_bound; lia.
Qed.

Lemma le_value_range l : bytes_ok l -> 0 <= le_value l < 256 ^ Z.of_nat (length l).
Proof.
  induction 1 as [|b l Hb _ IH]; simpl; [lia|].
  unfold byte_ok in *. rewrite Nat2Z.inj_succ, Z.pow_succ_r by lia. lia.
Qed.

Lemma le_value_bytes n v : le_value (le_bytes n v) = v mod 256 ^ Z.of_nat n.
Proof.
  revert v; induction n; intros; simpl.
  - rewrite Z.mod_1_r; done.
  - rewrite IHn, Nat2Z.inj_succ, Z.pow_succ_r by lia.
    rewrite Z.rem_mul_r by lia. done.
Qed.

Lemma le_bytes_value l : bytes_ok l -> le_bytes (length l) (le_value l) = l.
Proof.
  induction 1 as [|b l Hb _ IH]; simpl; [done|].
  unfold byte_ok in Hb.
  replace ((b + 256 * le_value l) mod 256) with b by (symmetry; Z.to_euclidean_division_equations; lia).
  replace ((b + 256 * le_value l) / 256) with (le_value l) by (Z.to_euclidean_division_equations; lia).
  rewrite IH; done.
Qed.

Lemma le_value_bytes_small n v :
  0 <= v < 256 ^ Z.of_nat n -> le_value (le_bytes n v) = v.
Proof. intros; rewrite le_value_bytes; apply Z.mod_small; done. Qed.

Lemma bytes_ok_app l k : bytes_ok (l ++ k) <-> bytes_ok l /\ bytes_ok k.
Proof. apply Forall_app. Qed.
Lemma bytes_ok_rev l : bytes_ok l -> bytes_ok (rev l).
Proof. apply Forall_rev. Qed.
Lemma bytes_ok_take n l : bytes_ok l -> bytes_ok (take n l).
Proof. apply Forall_take. Qed.
Lemma bytes_ok_drop n l : bytes_ok l -> bytes_ok (drop n l).
Proof. apply Forall_drop. Qed.
#[export] Hint Resolve le_bytes_ok bytes_ok_rev bytes_ok_take bytes_ok_drop : fluxkv.

Lemma le_bytes_bswap n v : le_bytes n (bswap n v) = rev (le_bytes n v).
Proof.
  unfold bswap.
  rewrite <- (le_bytes_value (rev (le_bytes n v))) at 2 by auto with fluxkv.
  rewrite length_rev, length_le_bytes; done.
Qed.

Lemma bswap_range n v : 0 <= bswap n v < 256 ^ Z.of_nat n.
Proof.
  unfold bswap.
  pose proof (le_value_range (rev (le_bytes n v)) (bytes_ok_rev _ (le_bytes_ok _ _))) as H.
  rewrite length_rev, length_le_bytes in H. done.
Qed.

Lemma bswap_involutive n v : 0 <= v < 256 ^ Z.of_nat n -> bswap n (bswap n v) = v.
Proof.
  intros. unfold bswap at 1. rewrite le_bytes_bswap, rev_involutive.
  apply le_value_bytes_small; done.
Qed.

(** ** List lemmas *)
Lemma take_app_exact {A} n (l k : list A) : length l = n -> take n (l ++ k) = l.
Proof. intros <-. apply take_app_length. Qed.
Lemma drop_app_exact {A} n (l k : list A) : length l = n -> drop n (l ++ k) = k.
Proof. intros <-. apply drop_app_length. Qed.

Lemma filter_iff_in {A} (P Q : A -> Prop) `{!forall x, Decision (P x), !forall x, Decision (Q x)} (l : list A) :
  (forall x, x ∈ l -> P x <-> Q x) -> filter P l = filter Q l.
Proof.
  induction l as [|x l IH]; intros Hx; [done|]. rewrite !filter_cons, IH by (intros; apply Hx; by right).
  destruct (Hx x); [left|]. by destruct (decide (P x)), (decide (Q x)); try tauto.
Qed.

(** Fields of a serialized struct: skip the fields before the offset, then take
    the field that starts there. *)
Lemma slice_skip x off n rest :
  (length x <= off)%nat -> slice off n (x ++ rest) = slice (off - length x) n rest.
Proof. intros. unfold slice. rewrite drop_app, (drop_ge x) by lia. done. Qed.
Lemma slice_here x n rest : length x = n -> slice 0 n (x ++ rest) = x.
Proof. intros. unfold slice. rewrite drop_0. by apply take_app_exact. Qed.
Lemma slice_all x n : length x = n -> slice 0 n x = x.
Proof. intros <-. unfold slice. rewrite drop_0. apply firstn_all. Qed.
Lemma length_slice off n l : (off + n <= length l)%nat -> length (slice off n l) = n.
Proof. intros. unfold slice. rewrite length_take, length_drop. lia. Qed.
Lemma bytes_ok_slice off n l : bytes_ok l -> bytes_ok (slice off n l).
Proof. intros. unfold slice. auto with fluxkv. Qed.
#[export] Hint Resolve bytes_ok_slice : fluxkv.

(** Evaluate [slice] on a concatenation of [le_bytes] fields. *)
Ltac slice_fields :=
  repeat (rewrite slice_skip by (rewrite ?length_le_bytes; simpl; lia);
          rewrite ?length_le_bytes; cbn [Nat.sub]);
  first [ rewrite slice_here by (rewrite ?length_le_bytes; done)
        | rewrite slice_all by (rewrite ?length_le_bytes; done) ].

(** ** Pointers: the addresses of heap objects *)
Abbreviation ptr := positive (only parsing).

(** ** Cyclic arithmetic *)
Lemma mod_zero_window c a : 0 < c -> - c < a < c -> a mod c = 0 -> a = 0.
Proof.
  intros Hc Ha Hm. apply Z.mod_divide in Hm as [q ->]; [|lia].
  assert (q = 0) by nia. lia.
Qed.

Lemma mod_zero_window2 c a : 0 < c -> - c < a < 2 * c -> a mod c = 0 -> a = 0 \/ a = c.
Proof.
  intros Hc Ha Hm. apply Z.mod_divide in Hm as [q ->]; [|lia].
  assert (q = 0 \/ q = 1) as [-> | ->] by nia; lia.
Qed.

Lemma mod_eq_sub c x i : 0 < c -> 0 <= i < c -> x mod c = i <-> (x - i) mod c = 0.
Proof.
  intros Hc Hi. rewrite Zminus_mod, (Z.mod_small i c) by lia.
  pose proof (Z.mod_pos_bound x c Hc). split; intros Hx.
  - rewrite Hx, Z.sub_diag. apply Z.mod_0_l. lia.
  - apply mod_zero_window in Hx; lia.
Qed.

Lemma mod_add_period c x : 0 < c -> (x + c) mod c = x mod c.
Proof. intros. rewrite <- (Z.mul_1_l c) at 1. apply Z.mod_add. lia. Qed.

Lemma mod_sub_shift c x y d : 0 < c -> (x - y) mod c = d -> exists q, x = y + d + q * c.
Proof.
  intros Hc H. exists ((x - y) / c). pose proof (Z.div_mod (x - y) c ltac:(lia)). nia.
Qed.

(** ** The last element that satisfies a predicate *)
Lemma last_filter_Some {A} (P : A -> Prop) `{!forall x, Decision (P x)} (l : list A) r :
  list.last (filter P l) = Some r <->
  P r /\ exists i, l !! i = Some r /\ forall j r', (i < j)%nat -> l !! j = Some r' -> ~ P r'.
Proof.
  induction l as [|x l IH] using rev_ind; [simpl; split; [done|intros (_ & i & Hi & _); by rewrite lookup_nil in Hi]|].
  rewrite filter_app. destruct (decide (P x)) as [Hx|Hx].
  - rewrite filter_cons_True, filter_nil, last_snoc by done. split.
    + intros [= <-]. split; [done|]. exists (length l). rewrite lookup_app_r, Nat.sub_diag by lia. split; [done|].
      intros j r' Hj Hr. apply lookup_lt_Some in Hr. rewrite length_app in Hr. simpl in Hr. lia.
    + intros (Hr & i & Hi & Hn). destruct (decide (i < length l)%nat) as [Hlt|Hge].
      * destruct (Hn (length l) x); [done| |done]. by rewrite lookup_app_r, Nat.sub_diag by lia.
      * apply lookup_lt_Some in Hi as Hl. rewrite length_app in Hl. simpl in Hl.
        rewrite lookup_app_r in Hi by lia. replace (i - length l)%nat with 0%nat in Hi by lia. done.
  - rewrite filter_cons_False, filter_nil, app_nil_r by done. rewrite IH. split.
    + intros (Hr & i & Hi & Hn). split; [done|]. exists i. rewrite lookup_app_l by (by eapply lookup_lt_Some).
      split; [done|]. intros j r' Hj Hrj. apply lookup_app_Some in Hrj as [Hrj|[_ Hrj]]; [by eapply Hn|].
      apply list_lookup_singleton_Some in Hrj as [_ ->]. done.
    + intros (Hr & i & Hi & Hn). apply lookup_app_Some in Hi as [Hi|[_ Hi]].
      * split; [done|]. exists i. split; [done|]. intros j r' Hj Hrj. apply (Hn j r' Hj). by apply lookup_app_l_Some.
      * apply list_lookup_singleton_Some in Hi as [_ ->]. done.
Qed.

Lemma last_filter_None {A} (P : A -> Prop) `{!forall x, Decision (P x)} (l : list A) :
  list.last (filter P l) = None <-> forall x, x ∈ l -> ~ P x.
Proof.
  rewrite last_None. split.
  - intros He x Hx HP. assert (Hf : x ∈ filter P l) by by apply list_elem_of_filter. rewrite He in Hf.
    by apply not_elem_of_nil in Hf.
  - intros Hn. destruct (filter P l) as [|y k] eqn:He; [done|]. assert (Hy : y ∈ filter P l) by (rewrite He; left).
    apply list_elem_of_filter in Hy as [Hp Hy]. by destruct (Hn y).
Qed.

(** ** Sums and collections over a list with one entry replaced *)
Definition sumOf {A} (f : A -> Z) (l : list A) : Z := foldr Z.add 0 (f <$> l).
#[global] Arguments sumOf : simpl never.
Lemma sumOf_app {A} (f : A -> Z) l k : sumOf f (l ++ k) = sumOf f l + sumOf f k.
Proof. unfold sumOf. induction l as [|x l IH]; cbn; [done|]. rewrite IH. lia. Qed.
Lemma sumOf_0 {A} (f : A -> Z) l : Forall (fun x => f x = 0) l -> sumOf f l = 0.
Proof. unfold sumOf. induction 1 as [|x l Hx _ IH]; cbn; [done|]. lia. Qed.
Lemma sumOf_insert {A} (f : A -> Z) l i x y : l !! i = Some x -> sumOf f (<[i := y]> l) = sumOf f l - f x + f y.
Proof.
  intros Hi. rewrite <- (take_drop_middle _ _ _ Hi) at 2. rewrite (insert_take_drop l i y) by by eapply lookup_lt_Some.
  rewrite !sumOf_app. unfold sumOf. cbn. lia.
Qed.
Lemma concat_insert {A B} (f : A -> list B) l i x y : l !! i = Some x ->
  concat (f <$> <[i := y]> l) ++ f x ≡ₚ concat (f <$> l) ++ f y.
Proof.
  intros Hi. rewrite <- (take_drop_middle _ _ _ Hi) at 2. rewrite (insert_take_drop l i y) by by eapply lookup_lt_Some.
  rewrite !fmap_app, !concat_app. cbn. solve_Permutation.
Qed.
Lemma sumOf_filter_split {A} (P : A -> Prop) `{!forall x, Decision (P x)} (f : A -> Z) (l : list A) :
  sumOf f (filter P l) + sumOf f (filter (fun x => ~ P x) l) = sumOf f l.
Proof.
  induction l as [|x l IH]; [done|]. rewrite !filter_cons. unfold sumOf in *. cbn. destruct (decide (P x)), (decide (~ P x)); try done; cbn; lia.
Qed.
Lemma length_filter_split {A} (P : A -> Prop) `{!forall x, Decision (P x)} (l : list A) :
  (length (filter P l) + length (filter (fun x => ~ P x) l) = length l)%nat.
Proof. rewrite <- length_app. apply Permutation_length, filter_app_complement. Qed.

(** A sum over a list of distinct indices when one of them changes. *)
Lemma sumOf_ext {A} (f g : A -> Z) l : (forall x, x ∈ l -> f x = g x) -> sumOf f l = sumOf g l.
Proof. intros H. unfold sumOf. f_equal. apply list_fmap_ext. intros i x Hx. by eapply H, list_elem_of_lookup_2. Qed.
Lemma sumOf_change {A} `{EqDecision A} (f g : A -> Z) l x : NoDup l -> (forall y, y <> x -> f y = g y) -> (x ∈ l \/ f x = g x) ->
  sumOf g l = sumOf f l - f x + g x.
Proof.
  intros Hnd Hy Hx. destruct (decide (x ∈ l)) as [Hin|Hn].
  - clear Hx. induction Hnd as [|z l Hz Hnd IH]; [by apply not_elem_of_nil in Hin|]. unfold sumOf. cbn. fold (sumOf f l) (sumOf g l).
    apply elem_of_cons in Hin as [<-|Hin].
    + rewrite (sumOf_ext g f l); [lia|]. intros y Hyl. symmetry. apply Hy. by intros ->.
    + rewrite IH by done. rewrite (Hy z); [lia|]. by intros ->.
  - destruct Hx as [?|Hx]; [done|]. rewrite (sumOf_ext g f l); [lia|]. intros y Hyl. symmetry. apply Hy. by intros ->.
Qed.

(** How often [x] occurs, to compare lists up to order by arithmetic. *)
Definition occ `{EqDecision A} (x : A) (l : list A) : Z := Z.of_nat (length (filter (fun y => y = x) l)).
#[global] Arguments occ : simpl never.
Lemma occ_nil `{EqDecision A} (x : A) : occ x [] = 0.
Proof. done. Qed.
Lemma occ_app `{EqDecision A} (x : A) l k : occ x (l ++ k) = occ x l + occ x k.
Proof. unfold occ. rewrite filter_app, length_app. lia. Qed.
Lemma occ_perm `{EqDecision A} (l k : list A) : l ≡ₚ k <-> forall x, occ x l = occ x k.
Proof.
  split; [intros H x; unfold occ; by rewrite H|]. revert k. induction l as [|x l IH]; intros k H.
  - destruct k as [|y k]; [done|]. specialize (H y). unfold occ in H. rewrite filter_cons_True in H by done. cbn in H. lia.
  - assert (Hin : x ∈ k). { specialize (H x). unfold occ in H. rewrite filter_cons_True in H by done. cbn in H.
      destruct (filter (fun y => y = x) k) as [|y k'] eqn:E; [cbn in H; lia|]. assert (Hy : y ∈ filter (fun y => y = x) k) by (rewrite E; left).
      by apply list_elem_of_filter in Hy as [-> ?]. }
    apply list_elem_of_split in Hin as (k1 & k2 & ->). rewrite <- Permutation_middle. constructor. apply IH. intros y. specialize (H y).
    change (x :: l) with ([x] ++ l) in H. change (x :: k2) with ([x] ++ k2) in H. rewrite !occ_app in *. lia.
Qed.
Lemma occ_concat `{EqDecision A} {B} (x : A) (f : B -> list A) l : occ x (concat (f <$> l)) = sumOf (fun y => occ x (f y)) l.
Proof. unfold sumOf. induction l as [|y l IH]; cbn; [done|]. by rewrite occ_app, IH. Qed.
(** A proposition as 0 or 1. *)
Definition b2z (P : Prop) `{Decision P} : Z := if decide P then 1 else 0.
Lemma occ_cons `{EqDecision A} (x y : A) l : occ x (y :: l) = b2z (y = x) + occ x l.
Proof. unfold occ, b2z. rewrite filter_cons. destruct (decide (y = x)); cbn [length]; lia. Qed.
Lemma occ_pos `{EqDecision A} (x : A) l : 0 <= occ x l.
Proof. unfold occ. lia. Qed.
Lemma occ_elem `{EqDecision A} (x : A) l : x ∈ l <-> 0 < occ x l.
Proof.
  induction l as [|y l IH]; [unfold occ; cbn; split; [by intros ?%elem_of_nil|lia]|]. rewrite elem_of_cons, occ_cons, IH. unfold b2z.
  pose proof (occ_pos x l). destruct (decide (y = x)); split; intros Hx; (lia || auto).
  - destruct Hx as [->|]; [done|lia].
Qed.
Lemma b2z_true (P : Prop) `{Decision P} : P -> b2z P = 1.
Proof. intros. unfold b2z. by rewrite decide_True. Qed.
Lemma b2z_false (P : Prop) `{Decision P} : ~ P -> b2z P = 0.
Proof. intros. unfold b2z. by rewrite decide_False. Qed.
Lemma b2z_pos (P : Prop) `{Decision P} : 0 <= b2z P.
Proof. unfold b2z. destruct (decide P); lia. Qed.
Lemma sumOf_pos {A} (f : A -> Z) l : (forall x, 0 <= f x) -> 0 <= sumOf f l.
Proof. intros Hf. unfold sumOf. induction l as [|x l IH]; cbn; [lia|]. specialize (Hf x). lia. Qed.
Lemma sumOf_cons {A} (f : A -> Z) x l : sumOf f (x :: l) = f x + sumOf f l.
Proof. done. Qed.
Lemma sumOf_const {A} (f : A -> Z) l k : Forall (fun x => f x = k) l -> sumOf f l = k * Z.of_nat (length l).
Proof. unfold sumOf. induction 1 as [|x l Hx _ IH]; cbn -[Z.mul Z.of_nat]; [lia|]. rewrite IH, Hx. lia. Qed.
Lemma sumOf_fmap {A B} (f : B -> Z) (g : A -> B) l : sumOf f (g <$> l) = sumOf (fun x => f (g x)) l.
Proof. unfold sumOf. by rewrite <- list_fmap_compose. Qed.
Lemma fmap_tag {A B} (b : B) (l : list A) : ((fun a => (a, b)) <$> l).*1 = l.
Proof. rewrite <- list_fmap_compose. apply list_fmap_id. Qed.
