(* ===== verification/Double.v ===== *)
(** * Doubles

    The source's [double] is IEEE binary64.  Its values and operations are those
    of the Standard Library's [SpecFloat], which compute; C++ conversions and the
    [std] functions the tuner and the governors use are written on top. *)
From stdpp Require Import prelude list sorting.
From Stdlib Require Import ZArith Lia SpecFloat.
From S2P Require Import Prelude.
Open Scope Z_scope.

Abbreviation double := spec_float.
Declare Scope double_scope.
Delimit Scope double_scope with D.
Bind Scope double_scope with spec_float.

Definition d_add : double -> double -> double := SFadd 53 1024.
Definition d_sub : double -> double -> double := SFsub 53 1024.
Definition d_mul : double -> double -> double := SFmul 53 1024.
Definition d_div : double -> double -> double := SFdiv 53 1024.
Definition d_sqrt : double -> double := SFsqrt 53 1024.
Definition d_abs : double -> double := SFabs.
Definition d_lt : double -> double -> bool := SFltb.
Definition d_le : double -> double -> bool := SFleb.
Definition d_eq : double -> double -> bool := SFeqb.

Notation "x + y" := (d_add x y) : double_scope.
Notation "x - y" := (d_sub x y) : double_scope.
Notation "x * y" := (d_mul x y) : double_scope.
Notation "x / y" := (d_div x y) : double_scope.
Notation "x <? y" := (d_lt x y) : double_scope.
Notation "x <=? y" := (d_le x y) : double_scope.
Notation "x >? y" := (d_lt y x) (at level 70, no associativity) : double_scope.
Notation "x >=? y" := (d_le y x) (at level 70, no associativity) : double_scope.
Notation "x =? y" := (d_eq x y) : double_scope.

(** An integer converted to [double], and a decimal literal [m / 10^k] (both
    parts are exact, so the division rounds the literal correctly). *)
Definition dZ (z : Z) : double := binary_normalize 53 1024 z 0 false.
Definition lit (m : Z) (k : nat) : double := d_div (dZ m) (dZ (10 ^ Z.of_nat k)).
Definition d0 : double := dZ 0.
Definition d1 : double := dZ 1.

(** [std::max], [std::min] and [std::clamp]. *)
Definition d_max (x y : double) : double := if d_lt x y then y else x.
Definition d_min (x y : double) : double := if d_lt y x then y else x.
Definition d_clamp (v lo hi : double) : double := if d_lt v lo then lo else if d_lt hi v then hi else v.

(** Towards zero, as a conversion to an integer goes; no integer for NaN and
    infinities. *)
Definition d_trunc (x : double) : option Z :=
  match x with
  | S754_zero _ => Some 0
  | S754_finite s m e => let a := Z.shiftl (Z.pos m) e in Some (if s then - a else a)
  | S754_infinity _ | S754_nan => None
  end.
(** [std::ceil] of a finite double, as the integer it is. *)
Definition d_ceil (x : double) : option Z :=
  match x with
  | S754_zero _ => Some 0
  | S754_finite s m e => Some (if s then - Z.shiftl (Z.pos m) e else - Z.shiftl (Z.neg m) e)
  | S754_infinity _ | S754_nan => None
  end.

(** A conversion to an integer type with values in [[lo, hi]]; outside the C++
    standard gives no value, and [junk] is whatever comes out. *)
Definition castTo (lo hi : Z) (junk : Z) (z : option Z) : Z :=
  match z with Some v => if (lo <=? v) && (v <=? hi) then v else junk | None => junk end.

(** [std::sort] and the element in the middle. *)
Definition d_leP (x y : double) : Prop := d_le x y = true.
#[global] Instance d_leP_dec x y : Decision (d_leP x y).
Proof. unfold d_leP. apply _. Defined.
Definition median (w : list double) : double := nth (Nat.div (length w) 2) (merge_sort d_leP w) d0.

Definition d_sum (l : list double) : double := foldl d_add d0 l.
