(* ===== verification/Metadata.v ===== *)
(** * Metadata: document metadata and its two on-disk forms (server/metadata.h)

    [DocMeta] is the packed struct of the source.  [encode] is the legacy form
    (the struct's 30 bytes), [encodeCompact] the compact form, and [decode]
    reads either, telling them apart by length.  Theorems: the compact form
    round-trips and is never mistaken for the legacy one, its size is bounded
    by the buffer the writer allocates, readers ignore bytes after the fields
    they know, and whatever [decode] accepts is a value the struct can hold. *)
From stdpp Require Import prelude list.
From Stdlib Require Import ZArith Lia.
From S2P Require Import Prelude.
Open Scope Z_scope.

Record DocMeta := mkDocMeta {
  seqno : Z;
  cas : Z;
  valueSize : Z;
  flags : Z;
  expiry : Z;
  deleted : Z;
  datatype : Z;
}.

Definition DocMeta_zero : DocMeta := mkDocMeta 0 0 0 0 0 0 0.

(** The values the packed struct's fields can hold. *)
Definition DocMeta_wf (m : DocMeta) : Prop :=
  is_uint 64 (seqno m) /\ is_uint 64 (cas m) /\ is_uint 32 (valueSize m) /\
  is_uint 32 (flags m) /\ is_uint 32 (expiry m) /\ is_uint 8 (deleted m) /\
  is_uint 8 (datatype m).

Definition kLegacySize : nat := 30.
Definition kMaxCompactSize : nat := 1 + 10 + 8 + 10 + 4 + 4 + 1 + 1.

(** The struct's bytes: packed, little-endian fields in declaration order. *)
Definition encode (m : DocMeta) : list Z :=
  le_bytes 8 (seqno m) ++ le_bytes 8 (cas m) ++ le_bytes 4 (valueSize m) ++
  le_bytes 4 (flags m) ++ le_bytes 4 (expiry m) ++
  le_bytes 1 (deleted m) ++ le_bytes 1 (datatype m).

Definition kMetaHasFlags : Z := Z.shiftl 1 0.
Definition kMetaHasExpiry : Z := Z.shiftl 1 1.
Definition kMetaDeleted : Z := Z.shiftl 1 2.
Definition kMetaHasDatatype : Z := Z.shiftl 1 3.
Definition kMetaVersionShift : Z := 5.
Definition kMetaVersion : Z := 1.

(** [while (v >= 0x80) { p[n++] = v | 0x80; v >>= 7; } p[n++] = v;]  A 64-bit
    value is exhausted within ten bytes, so ten rounds of fuel are enough
    ([getVarint_putVarint] would fail otherwise). *)
Fixpoint putVarint_loop (fuel : nat) (v : Z) : list Z :=
  match fuel with
  | O => []
  | S f => if 0x80 <=? v
           then u8 (Z.lor v 0x80) :: putVarint_loop f (Z.shiftr v 7)
           else [u8 v]
  end.

Definition putVarint (v : Z) : list Z := putVarint_loop 10 v.

(** The cursor [p] is the list of bytes up to [end]. *)
Fixpoint getVarint_loop (fuel : nat) (r shift : Z) (p : list Z) : option (Z * list Z) :=
  match fuel with
  | O => None
  | S f =>
      if shift <? 64 then
        match p with
        | [] => None
        | b :: p' =>
            let r' := Z.lor r (u64 (Z.shiftl (Z.land b 0x7f) shift)) in
            if Z.land b 0x80 =? 0 then Some (r', p')
            else getVarint_loop f r' (shift + 7) p'
        end
      else None
  end.

(** Shifts 0, 7, ..., 63 are ten rounds; the eleventh finds [shift >= 64]. *)
Definition getVarint (p : list Z) : option (Z * list Z) := getVarint_loop 11 0 0 p.

Definition getFixed (n : nat) (p : list Z) : option (Z * list Z) :=
  if (length p <? n)%nat then None
  else Some (le_value (take n p), drop n p).

(** The header byte of the compact form. *)
Definition compactHdr (m : DocMeta) : Z :=
  let hdr := u8 (Z.shiftl kMetaVersion kMetaVersionShift) in
  let hdr := Z.lor hdr (if flags m =? 0 then 0 else kMetaHasFlags) in
  let hdr := Z.lor hdr (if expiry m =? 0 then 0 else kMetaHasExpiry) in
  let hdr := Z.lor hdr (if deleted m =? 0 then 0 else kMetaDeleted) in
  Z.lor hdr (if datatype m =? 0 then 0 else kMetaHasDatatype).

Definition encodeCompact (m : DocMeta) : list Z :=
  let out := [compactHdr m] in
  let out := out ++ putVarint (seqno m) in
  let out := out ++ le_bytes 8 (cas m) in
  let out := out ++ putVarint (valueSize m) in
  let out := out ++ (if flags m =? 0 then [] else le_bytes 4 (flags m)) in
  let out := out ++ (if expiry m =? 0 then [] else le_bytes 4 (expiry m)) in
  let out := out ++ (if datatype m =? 0 then [] else [u8 (datatype m)]) in
  if (length out =? kLegacySize)%nat then out ++ [0] else out.

(** A field read only when its header bit is set; zero otherwise. *)
Definition getOptional (present : bool) (n : nat) (p : list Z) : option (Z * list Z) :=
  if present then getFixed n p else Some (0, p).

(** [memcpy] of the packed struct. *)
Definition decodeLegacy (s : list Z) : DocMeta :=
  mkDocMeta (le_value (slice 0 8 s)) (le_value (slice 8 8 s))
    (le_value (slice 16 4 s)) (le_value (slice 20 4 s))
    (le_value (slice 24 4 s)) (le_value (slice 28 1 s)) (le_value (slice 29 1 s)).

(** The two-argument [decode] of the source: [None] is a [false] return. *)
Definition decode (s : list Z) : option DocMeta :=
  if (length s =? kLegacySize)%nat then Some (decodeLegacy s)
  else match s with
  | [] => None
  | hdr :: p =>
      if negb (Z.shiftr hdr kMetaVersionShift =? kMetaVersion) then None else
      '(seq, p) ← getVarint p;
      '(c, p) ← getFixed 8 p;
      '(size, p) ← getVarint p;
      if 4294967295 <? size then None else
      '(f, p) ← getOptional (negb (Z.land hdr kMetaHasFlags =? 0)) 4 p;
      '(e, p) ← getOptional (negb (Z.land hdr kMetaHasExpiry =? 0)) 4 p;
      '(dt, p) ← getOptional (negb (Z.land hdr kMetaHasDatatype =? 0)) 1 p;
      Some (mkDocMeta seq c (u32 size) f e
              (if Z.land hdr kMetaDeleted =? 0 then 0 else 1) dt)
  end.

(** [static DocMeta decode(const Slice&)]: an undecodable meta reads as zeros. *)
Definition decodeOrZero (s : list Z) : DocMeta := default DocMeta_zero (decode s).

(** The callbacks magma is configured with. *)
Definition MetaGetSeqNum (meta : list Z) : Z := seqno (decodeOrZero meta).
Definition MetaGetValueSize (meta : list Z) : Z := valueSize (decodeOrZero meta).
Definition MetaIsTombstone (meta : list Z) : bool := negb (deleted (decodeOrZero meta) =? 0).
Definition MetaGetHistoryTimestamp (meta : list Z) : Z := cas (decodeOrZero meta).

(** What the compact form keeps: [deleted] becomes a bit. *)
Definition normalized (m : DocMeta) : DocMeta :=
  mkDocMeta (seqno m) (cas m) (valueSize m) (flags m) (expiry m)
    (if deleted m =? 0 then 0 else 1) (datatype m).

(** ** Varints *)
Lemma u8_lor_128 v : Z.land (u8 (Z.lor v 0x80)) 0x7f = v mod 2 ^ 7 /\
                     Z.land (u8 (Z.lor v 0x80)) 0x80 = 0x80.
Proof.
  unfold u8, uwrap. rewrite <- !Z.land_ones by lia.
  split; apply Z.bits_inj'; intros i Hi;
    rewrite !Z.land_spec, Z.lor_spec, ?Z.testbit_ones_nonneg by lia.
  - change 0x7f with (Z.ones 7). change 0x80 with (2 ^ 7).
    rewrite !Z.testbit_ones_nonneg, Z.pow2_bits_eqb by lia.
    destruct (Z.ltb_spec i 7), (Z.ltb_spec i 8), (Z.eqb_spec 7 i), (Z.testbit v i);
      try done; lia.
  - change 0x80 with (2 ^ 7). rewrite !Z.pow2_bits_eqb by lia.
    destruct (Z.eqb_spec 7 i); [subst; rewrite !orb_true_r; done|].
    rewrite andb_false_r; done.
Qed.

Lemma u8_small_bits v : 0 <= v < 0x80 ->
  Z.land (u8 v) 0x7f = v /\ Z.land (u8 v) 0x80 = 0.
Proof.
  intros. rewrite u8_small by lia. split.
  - change 0x7f with (Z.ones 7). rewrite Z.land_ones by lia. apply Z.mod_small; lia.
  - apply Z.bits_inj'; intros i Hi. rewrite Z.land_spec, Z.bits_0.
    change 0x80 with (2 ^ 7). rewrite Z.pow2_bits_eqb by lia.
    destruct (Z.eqb_spec 7 i) as [<-|]; [|apply andb_false_r].
    rewrite andb_true_r, <- (Z.mod_small v (2 ^ 7)) by lia.
    apply Z.mod_pow2_bits_high; lia.
Qed.

(** Splitting off the low seven bits and putting them back at [s]. *)
Lemma lor_split7 r v s : 0 <= s ->
  Z.lor (Z.lor r (Z.shiftl (v mod 2 ^ 7) s)) (Z.shiftl (Z.shiftr v 7) (s + 7)) =
  Z.lor r (Z.shiftl v s).
Proof.
  intros. apply Z.bits_inj'; intros i Hi.
  rewrite !Z.lor_spec, !Z.shiftl_spec, <- Z.land_ones, <- orb_assoc by lia. f_equal.
  destruct (Z.ltb_spec i s).
  - rewrite !(Z.testbit_neg_r _ (i - _)) by lia. done.
  - rewrite Z.land_spec, Z.testbit_ones_nonneg by lia.
    destruct (Z.ltb_spec (i - s) 7).
    + rewrite (Z.testbit_neg_r _ (i - (s + 7))) by lia. by rewrite andb_true_r, orb_false_r.
    + rewrite andb_false_r, Z.shiftr_spec by lia. cbn [orb]. f_equal; lia.
Qed.

Lemma getVarint_loop_put f g r s v rest :
  0 <= v < 2 ^ (7 * Z.of_nat f) -> (0 < f <= g)%nat -> 0 <= s < 64 ->
  v * 2 ^ s < 2 ^ 64 ->
  getVarint_loop g r s (putVarint_loop f v ++ rest) = Some (Z.lor r (Z.shiftl v s), rest).
Proof.
  revert g r s v. induction f as [|f IH]; intros g r s v Hv Hg Hs Hvs; [lia|].
  destruct g as [|g]; [lia|]. cbn [putVarint_loop].
  destruct (Z.leb_spec 0x80 v) as [Hge|Hlt]; cbn [getVarint_loop app];
    destruct (Z.ltb_spec s 64); try lia; cbv zeta.
  - destruct (u8_lor_128 v) as [-> ->]. cbn [Z.eqb].
    assert (Hs7 : 2 ^ (s + 7) < 2 ^ 64).
    { rewrite Z.pow_add_r by lia. change (2 ^ 7) with 128. nia. }
    apply Z.pow_lt_mono_r_iff in Hs7; [|lia..].
    assert (Hm : 0 <= v mod 2 ^ 7 < 2 ^ 7) by (apply Z.mod_pos_bound; lia).
    assert (v mod 2 ^ 7 <= v) by (apply Z.mod_le; lia).
    rewrite (u64_small (Z.shiftl (v mod 2 ^ 7) s)).
    2:{ rewrite Z.shiftl_mul_pow2 by lia. change 18446744073709551616 with (2 ^ 64). nia. }
    assert (Hp : 2 ^ (7 * Z.of_nat (S f)) = 2 ^ 7 * 2 ^ (7 * Z.of_nat f)).
    { rewrite <- Z.pow_add_r by lia. f_equal; lia. }
    rewrite IH; rewrite ?Z.shiftr_div_pow2 by lia; try lia.
    + rewrite <- Z.shiftr_div_pow2, lor_split7 by lia. done.
    + split; [apply Z.div_pos; lia|]. apply Z.div_lt_upper_bound; lia.
    + split; [|lia]. destruct f; [|lia]. change (2 ^ (7 * Z.of_nat 1)) with 128 in Hv. lia.
    + rewrite Z.pow_add_r by lia.
      pose proof (Z.mul_div_le v (2 ^ 7)). nia.
  - destruct (u8_small_bits v) as [-> ->]; [lia|]. cbn [Z.eqb].
    rewrite u64_small; [done|].
    rewrite Z.shiftl_mul_pow2 by lia. change 18446744073709551616 with (2 ^ 64). nia.
Qed.

(** Reading back a written varint gives the value and the bytes that follow. *)
Lemma getVarint_putVarint v rest :
  is_uint 64 v -> getVarint (putVarint v ++ rest) = Some (v, rest).
Proof.
  intros Hv. unfold is_uint in Hv. unfold getVarint, putVarint.
  rewrite getVarint_loop_put; [by rewrite Z.shiftl_0_r| |lia..].
  split; [lia|]. etransitivity; [apply Hv|]. reflexivity.
Qed.

Lemma length_putVarint_loop f v : (length (putVarint_loop f v) <= f)%nat.
Proof. revert v; induction f; intros; simpl; [lia|]. break_if; simpl; [pose proof (IHf (Z.shiftr v 7))|]; lia. Qed.

Lemma putVarint_loop_short n f v :
  0 <= v < 2 ^ (7 * Z.of_nat n) -> (0 < n)%nat -> (length (putVarint_loop f v) <= n)%nat.
Proof.
  revert f v; induction n as [|n IH]; intros f v Hv Hn; [lia|].
  destruct f; simpl; [lia|]. break_if; simpl; [|lia]. b2p.
  destruct n as [|n]; [change (2 ^ (7 * Z.of_nat 1)) with 128 in Hv; lia|].
  assert (Hp : 2 ^ (7 * Z.of_nat (S (S n))) = 2 ^ 7 * 2 ^ (7 * Z.of_nat (S n))).
  { rewrite <- Z.pow_add_r by lia. f_equal; lia. }
  apply le_n_S, IH; [|lia]. rewrite Z.shiftr_div_pow2 by lia.
  split; [apply Z.div_pos; lia|apply Z.div_lt_upper_bound; lia].
Qed.

Lemma getVarint_loop_prefix f g r s v n :
  (n < length (putVarint_loop f v))%nat -> 0 <= v ->
  getVarint_loop g r s (take n (putVarint_loop f v)) = None.
Proof.
  revert g r s v n. induction f as [|f IH]; intros g r s v n Hn Hv; [simpl in Hn; lia|].
  cbn [putVarint_loop] in *. destruct (Z.leb_spec 0x80 v).
  - destruct n as [|n], g as [|g]; cbn [take getVarint_loop]; try done; break_if; try done.
    destruct (u8_lor_128 v) as [_ ->]. cbn [Z.eqb].
    apply IH; [simpl in Hn; lia|]. apply Z.shiftr_nonneg; lia.
  - destruct n, g; simpl in *; try lia; try break_if; done.
Qed.

(** ** Readers

    [reads R e v]: the reader [R] consumes exactly the encoding [e], gives [v],
    and rejects every input that ends inside [e]. *)
Definition reads (R : list Z -> option (Z * list Z)) (e : list Z) (v : Z) : Prop :=
  (forall rest, R (e ++ rest) = Some (v, rest)) /\
  (forall n, (n < length e)%nat -> R (take n e) = None).

Lemma reads_app R e v rest : reads R e v -> R (e ++ rest) = Some (v, rest).
Proof. intros [H _]. apply H. Qed.

Lemma reads_take R e v rest n : reads R e v ->
  R (take n (e ++ rest)) =
  if (n <? length e)%nat then None else Some (v, take (n - length e) rest).
Proof.
  intros [Hall Hcut]. rewrite take_app. destruct (Nat.ltb_spec n (length e)).
  - replace (n - length e)%nat with 0%nat by lia. rewrite take_0, app_nil_r. auto.
  - rewrite (take_ge e) by lia. apply Hall.
Qed.

Lemma reads_varint v : is_uint 64 v -> reads getVarint (putVarint v) v.
Proof.
  intros Hv. split; intros; [by apply getVarint_putVarint|].
  apply getVarint_loop_prefix; [done|]. unfold is_uint in Hv; lia.
Qed.

Lemma reads_fixed n v : 0 <= v < 256 ^ Z.of_nat n -> reads (getFixed n) (le_bytes n v) v.
Proof.
  intros Hv. unfold getFixed. split.
  - intros rest. rewrite length_app, length_le_bytes.
    destruct (Nat.ltb_spec (n + length rest) n); [lia|].
    rewrite take_app_exact, drop_app_exact, le_value_bytes_small by (done || apply length_le_bytes).
    done.
  - intros k Hk. rewrite length_le_bytes in Hk. rewrite length_take, length_le_bytes.
    destruct (Nat.ltb_spec (k `min` n) n); [done|lia].
Qed.

(** An optional field: absent exactly when its value is zero. *)
Lemma reads_optional n v : 0 <= v < 256 ^ Z.of_nat n ->
  reads (getOptional (negb (v =? 0)) n) (if v =? 0 then [] else le_bytes n v) v.
Proof.
  intros Hv. unfold getOptional. destruct (Z.eqb_spec v 0) as [->|]; simpl; [|by apply reads_fixed].
  split; [done|]. simpl; lia.
Qed.

#[export] Hint Resolve reads_varint reads_fixed reads_optional : fluxkv.

(** ** The compact form *)

(** The compact form without the pad byte. *)
Definition compactBody (m : DocMeta) : list Z :=
  compactHdr m :: putVarint (seqno m) ++ le_bytes 8 (cas m) ++ putVarint (valueSize m) ++
  (if flags m =? 0 then [] else le_bytes 4 (flags m)) ++
  (if expiry m =? 0 then [] else le_bytes 4 (expiry m)) ++
  (if datatype m =? 0 then [] else le_bytes 1 (datatype m)).

Lemma encodeCompact_body m : encodeCompact m =
  compactBody m ++ (if (length (compactBody m) =? kLegacySize)%nat then [0] else []).
Proof.
  unfold encodeCompact, compactBody. change [u8 (datatype m)] with (le_bytes 1 (datatype m)).
  cbv zeta. cbn [app]. rewrite <- !app_assoc. cbn [app].
  destruct (length _ =? kLegacySize)%nat; cbn [app]; rewrite <- ?app_assoc, ?app_nil_r; done.
Qed.

Lemma compactHdr_bits m :
  Z.shiftr (compactHdr m) kMetaVersionShift = kMetaVersion /\
  negb (Z.land (compactHdr m) kMetaHasFlags =? 0) = negb (flags m =? 0) /\
  negb (Z.land (compactHdr m) kMetaHasExpiry =? 0) = negb (expiry m =? 0) /\
  (Z.land (compactHdr m) kMetaDeleted =? 0) = (deleted m =? 0) /\
  negb (Z.land (compactHdr m) kMetaHasDatatype =? 0) = negb (datatype m =? 0).
Proof.
  unfold compactHdr.
  destruct (flags m =? 0), (expiry m =? 0), (deleted m =? 0), (datatype m =? 0); done.
Qed.

Lemma DocMeta_wf_reads m : DocMeta_wf m ->
  reads getVarint (putVarint (seqno m)) (seqno m) /\
  reads (getFixed 8) (le_bytes 8 (cas m)) (cas m) /\
  reads getVarint (putVarint (valueSize m)) (valueSize m) /\
  reads (getOptional (negb (flags m =? 0)) 4)
    (if flags m =? 0 then [] else le_bytes 4 (flags m)) (flags m) /\
  reads (getOptional (negb (expiry m =? 0)) 4)
    (if expiry m =? 0 then [] else le_bytes 4 (expiry m)) (expiry m) /\
  reads (getOptional (negb (datatype m =? 0)) 1)
    (if datatype m =? 0 then [] else le_bytes 1 (datatype m)) (datatype m).
Proof.
  unfold DocMeta_wf, is_uint. intros. split_and!; auto with fluxkv.
  - apply reads_varint; unfold is_uint; lia.
  - apply reads_fixed; simpl; lia.
  - apply reads_varint; unfold is_uint; lia.
  - apply reads_optional; simpl; lia.
  - apply reads_optional; simpl; lia.
  - apply reads_optional; simpl; lia.
Qed.

(** Whatever follows the fields is not looked at, unless the total length makes
    the bytes a legacy struct. *)
Lemma decode_body_app m tail : DocMeta_wf m ->
  length (compactBody m ++ tail) <> kLegacySize ->
  decode (compactBody m ++ tail) = Some (normalized m).
Proof.
  intros Hwf Hlen. unfold decode. apply Nat.eqb_neq in Hlen. rewrite Hlen. clear Hlen.
  unfold compactBody. cbn [app].
  destruct (compactHdr_bits m) as (-> & -> & -> & -> & ->).
  destruct (DocMeta_wf_reads m Hwf) as (R1 & R2 & R3 & R4 & R5 & R6).
  cbn [Z.eqb negb]. unfold kMetaVersion. cbn [Z.eqb Pos.eqb negb]. rewrite <- !app_assoc.
  rewrite (reads_app _ _ _ _ R1); cbn [mbind option_bind].
  rewrite (reads_app _ _ _ _ R2); cbn [mbind option_bind].
  rewrite (reads_app _ _ _ _ R3); cbn [mbind option_bind].
  unfold DocMeta_wf, is_uint in Hwf. destruct (Z.ltb_spec 4294967295 (valueSize m)); [lia|].
  rewrite (reads_app _ _ _ _ R4); cbn [mbind option_bind].
  rewrite (reads_app _ _ _ _ R5); cbn [mbind option_bind].
  rewrite (reads_app _ _ _ _ R6); cbn [mbind option_bind].
  rewrite u32_small by lia. done.
Qed.

(** Step over one reader of a truncated input: the input ends inside the
    encoding, and the goal is closed, or the next reader is reached. *)
Ltac cut_reads R :=
  rewrite (reads_take _ _ _ _ _ R);
  match goal with
  | |- context [if (?a <? ?b)%nat then None else _] =>
      destruct (Nat.ltb_spec a b); [done|cbn [mbind option_bind]]
  end.

(** A compact form cut anywhere inside its fields is rejected. *)
Lemma decode_body_take m n : DocMeta_wf m -> (n < length (compactBody m))%nat ->
  n <> kLegacySize -> decode (take n (compactBody m)) = None.
Proof.
  intros Hwf Hn Hlen. unfold decode. rewrite length_take, Nat.min_l by lia.
  apply Nat.eqb_neq in Hlen. rewrite Hlen. clear Hlen.
  unfold compactBody in *. destruct n as [|n]; [done|]. cbn [take].
  destruct (compactHdr_bits m) as (-> & -> & -> & -> & ->).
  destruct (DocMeta_wf_reads m Hwf) as (R1 & R2 & R3 & R4 & R5 & R6).
  cbn [Z.eqb negb]. unfold kMetaVersion. cbn [Z.eqb Pos.eqb negb].
  cbn [length] in Hn. rewrite !length_app in Hn.
  cut_reads R1. cut_reads R2. cut_reads R3.
  destruct (4294967295 <? valueSize m); [done|].
  cut_reads R4. cut_reads R5.
  rewrite (proj2 R6); [done|]. lia.
Qed.

Lemma length_optional n v : (length (if (v =? 0)%Z then [] else le_bytes n v) <= n)%nat.
Proof. break_if; rewrite ?length_le_bytes; simpl; lia. Qed.

Lemma length_compactBody m : DocMeta_wf m -> (length (compactBody m) <= 33)%nat.
Proof.
  intros Hwf. unfold DocMeta_wf, is_uint in Hwf. unfold compactBody. cbn [length].
  rewrite !length_app, length_le_bytes.
  pose proof (length_putVarint_loop 10 (seqno m)).
  pose proof (putVarint_loop_short 5 10 (valueSize m)) as H5.
  assert (length (putVarint_loop 10 (valueSize m)) <= 5)%nat.
  { apply H5; [|lia]. split; [lia|]. eapply Z.lt_trans; [apply Hwf|]. done. }
  pose proof (length_optional 4 (flags m)). pose proof (length_optional 4 (expiry m)).
  pose proof (length_optional 1 (datatype m)). unfold putVarint. lia.
Qed.

Lemma encodeCompact_length m : DocMeta_wf m ->
  length (encodeCompact m) <> kLegacySize /\ (length (encodeCompact m) <= 33)%nat.
Proof.
  intros Hwf. pose proof (length_compactBody m Hwf). rewrite encodeCompact_body, length_app.
  destruct (Nat.eqb_spec (length (compactBody m)) kLegacySize); unfold kLegacySize in *;
    cbn [length]; lia.
Qed.

Lemma decode_compact m : DocMeta_wf m -> decode (encodeCompact m) = Some (normalized m).
Proof.
  intros Hwf. pose proof (encodeCompact_length m Hwf) as [Hne _].
  rewrite encodeCompact_body in *. by apply decode_body_app.
Qed.

(** ** The legacy form *)
Lemma length_encode m : length (encode m) = kLegacySize.
Proof. unfold encode. rewrite !length_app, !length_le_bytes. done. Qed.

Lemma decode_legacy m : DocMeta_wf m -> decode (encode m) = Some m.
Proof.
  intros Hwf. unfold decode. rewrite length_encode. cbn [Nat.eqb kLegacySize]. f_equal.
  destruct m as [a b c d e f g]. unfold DocMeta_wf, is_uint in Hwf. simpl in Hwf.
  unfold decodeLegacy, encode; cbn [seqno cas valueSize flags expiry deleted datatype].
  f_equal; slice_fields; apply le_value_bytes_small; simpl; lia.
Qed.

(** ** Decoded values fit the struct *)
Lemma lor_uint w x y : 0 <= w -> is_uint w x -> is_uint w y -> is_uint w (Z.lor x y).
Proof.
  unfold is_uint. intros Hw Hx Hy.
  rewrite <- (Z.mod_small x (2 ^ w)), <- (Z.mod_small y (2 ^ w)) by lia.
  rewrite <- !Z.land_ones, <- Z.land_lor_distr_l, Z.land_ones by lia.
  apply Z.mod_pos_bound. lia.
Qed.

Lemma getVarint_loop_uint g r s p v p' : is_uint 64 r ->
  getVarint_loop g r s p = Some (v, p') -> is_uint 64 v.
Proof.
  revert r s p. induction g as [|g IH]; intros r s p Hr Hg; [done|]. cbn [getVarint_loop] in Hg.
  assert (Hstep : forall b, is_uint 64 (Z.lor r (u64 (Z.shiftl (Z.land b 0x7f) s)))).
  { intros b. apply lor_uint; [lia|done|]. apply u64_range. }
  destruct (s <? 64); [|done]. destruct p as [|b p]; [done|].
  destruct (Z.land b 0x80 =? 0); [by simplify_eq|]. by eapply IH, Hg.
Qed.

Lemma getVarint_uint p v p' : getVarint p = Some (v, p') -> is_uint 64 v.
Proof. apply getVarint_loop_uint. by split. Qed.

Lemma getVarint_loop_ok g r s p v p' : bytes_ok p ->
  getVarint_loop g r s p = Some (v, p') -> bytes_ok p'.
Proof.
  revert r s p. induction g as [|g IH]; intros r s p Hp Hg; [done|]. cbn [getVarint_loop] in Hg.
  destruct (s <? 64); [|done]. destruct Hp as [|b p]; [done|].
  destruct (Z.land b 0x80 =? 0); [by simplify_eq|]. by eapply IH.
Qed.

Lemma getFixed_ok n p v p' : bytes_ok p -> getFixed n p = Some (v, p') ->
  0 <= v < 256 ^ Z.of_nat n /\ bytes_ok p'.
Proof.
  unfold getFixed. intros Hp Hg. case_match; simplify_eq. b2p. split; [|auto with fluxkv].
  pose proof (le_value_range (take n p) (bytes_ok_take _ _ Hp)) as Hr.
  rewrite length_take, Nat.min_l in Hr by lia. done.
Qed.

Lemma getOptional_ok b n p v p' : bytes_ok p -> getOptional b n p = Some (v, p') ->
  0 <= v < 256 ^ Z.of_nat n /\ bytes_ok p'.
Proof.
  unfold getOptional. destruct b; [apply getFixed_ok|]. intros; simplify_eq.
  split; [|done]. split; [done|]. apply Z.pow_pos_nonneg; lia.
Qed.

Lemma decodeLegacy_wf s : bytes_ok s -> length s = kLegacySize -> DocMeta_wf (decodeLegacy s).
Proof.
  intros Hs Hl. assert (Hf : forall off n, (off + n <= 30)%nat ->
    0 <= le_value (slice off n s) < 256 ^ Z.of_nat n).
  { intros off n Hn. rewrite <- (length_slice off n s) at 3 by (rewrite Hl; done).
    apply le_value_range. auto with fluxkv. }
  unfold DocMeta_wf, is_uint, decodeLegacy; cbn [seqno cas valueSize flags expiry deleted datatype].
  split_and!; match goal with
    | |- _ <= le_value (slice ?o ?n s) => pose proof (Hf o n)
    | |- le_value (slice ?o ?n s) < _ => pose proof (Hf o n) end; simpl in *; lia.
Qed.

Lemma decode_wf s m : bytes_ok s -> decode s = Some m -> DocMeta_wf m.
Proof.
  intros Hs Hd. unfold decode in Hd.
  destruct (Nat.eqb_spec (length s) kLegacySize); [simplify_eq; by apply decodeLegacy_wf|].
  destruct s as [|hdr p]; [done|]. apply Forall_cons_1 in Hs as [_ Hp].
  destruct (negb _); [done|].
  destruct (getVarint p) as [[seq p1]|] eqn:E1; [|done]; cbn [mbind option_bind] in Hd.
  pose proof (getVarint_uint _ _ _ E1). apply getVarint_loop_ok in E1; [|done].
  destruct (getFixed 8 p1) as [[c p2]|] eqn:E2; [|done]; cbn [mbind option_bind] in Hd.
  apply getFixed_ok in E2 as [? ?]; [|done].
  destruct (getVarint p2) as [[size p3]|] eqn:E3; [|done]; cbn [mbind option_bind] in Hd.
  pose proof (getVarint_uint _ _ _ E3). apply getVarint_loop_ok in E3; [|done].
  destruct (Z.ltb_spec 4294967295 size); [done|].
  destruct (getOptional _ 4 p3) as [[f p4]|] eqn:E4; [|done]; cbn [mbind option_bind] in Hd.
  apply getOptional_ok in E4 as [? ?]; [|done].
  destruct (getOptional _ 4 p4) as [[e p5]|] eqn:E5; [|done]; cbn [mbind option_bind] in Hd.
  apply getOptional_ok in E5 as [? ?]; [|done].
  destruct (getOptional _ 1 p5) as [[d p6]|] eqn:E6; [|done]; cbn [mbind option_bind] in Hd.
  apply getOptional_ok in E6 as [? ?]; [|done].
  simplify_eq. unfold DocMeta_wf, is_uint in *; simpl in *. pose proof (u32_range size).
  split_and!; try lia; destruct (Z.land hdr kMetaDeleted =? 0); lia.
Qed.

(** ** Properties *)

(** C29: the metadata a compact write stores is the metadata every reader gets
    back, [deleted] as a flag; the legacy struct reads back exactly; and bytes a
    later version appends are ignored as long as they do not bring the total to
    the legacy length. *)
Theorem metadata_roundtrip m : DocMeta_wf m ->
  decode (encodeCompact m) = Some (normalized m) /\
  decode (encode m) = Some m /\
  forall tail, length (encodeCompact m ++ tail) <> kLegacySize ->
    decode (encodeCompact m ++ tail) = Some (normalized m).
Proof.
  intros Hwf. split_and!; [by apply decode_compact|by apply decode_legacy|].
  intros tail. rewrite encodeCompact_body, <- app_assoc. by apply decode_body_app.
Qed.

Definition sample_meta : DocMeta := mkDocMeta 1234567 (2 ^ 63 + 5) 100 0xdeadbeef 7 1 1.

Lemma metadata_roundtrip_witness :
  DocMeta_wf sample_meta /\ decode (encodeCompact sample_meta) = Some sample_meta /\
  length (encodeCompact sample_meta) = 22%nat.
Proof.
  assert (Hwf : DocMeta_wf sample_meta) by (vm_compute; intuition congruence).
  split; [exact Hwf|]. split; [|reflexivity].
  destruct (metadata_roundtrip sample_meta Hwf) as [H _]. exact H.
Defined.

(** The compact form fits the buffer [executePersist] reserves for it, is
    never as long as the legacy struct, and a copy of it that lost bytes at the
    end is rejected, never misread (a cut to exactly the legacy length apart). *)
Theorem metadata_compact_bounds m n : DocMeta_wf m ->
  (length (encodeCompact m) <= 33 < kMaxCompactSize)%nat /\
  length (encodeCompact m) <> kLegacySize /\
  ((n < length (compactBody m))%nat -> n <> kLegacySize ->
   decode (take n (encodeCompact m)) = None).
Proof.
  intros Hwf. destruct (encodeCompact_length m Hwf). split_and!; [done|unfold kMaxCompactSize; lia|done|].
  intros Hn Hne. rewrite encodeCompact_body, take_app_le by lia. by apply decode_body_take.
Qed.

Lemma metadata_compact_bounds_witness :
  decode (take 17 (encodeCompact sample_meta)) = None.
Proof.
  apply (metadata_compact_bounds sample_meta 17).
  - vm_compute; intuition congruence.
  - vm_compute. lia.
  - discriminate.
Defined.

(** Whatever bytes [decode] accepts, the fields fit the struct's widths, so
    a reader never sees a value a writer could not have meant, and re-encoding
    what was read preserves it. *)
Theorem metadata_decode_wf s m : bytes_ok s -> decode s = Some m ->
  DocMeta_wf m /\ decode (encodeCompact m) = Some (normalized m).
Proof. intros Hs Hd. pose proof (decode_wf s m Hs Hd). split; [done|by apply decode_compact]. Qed.

Lemma metadata_decode_wf_witness :
  decode [0x20; 5; 1; 0; 0; 0; 0; 0; 0; 0; 9] = Some (mkDocMeta 5 1 9 0 0 0 0) /\
  DocMeta_wf (mkDocMeta 5 1 9 0 0 0 0).
Proof.
  split; [reflexivity|].
  apply (metadata_decode_wf [0x20; 5; 1; 0; 0; 0; 0; 0; 0; 0; 9]); [|reflexivity].
  repeat constructor; done.
Defined.
