(* ===== verification/Protocol.v ===== *)
(** * Protocol: the memcached binary protocol (server/protocol.h, protocol.cc)

    The packed header with its byte-order conversions, the two families of
    response builders ([buildResponse] writes into a fresh, uninitialised
    buffer; [appendResponse] grows a vector), and the two JSON documents the
    server hands to clients.  Theorems: both families produce the same bytes, a
    response is framed so that a reader recovers header and body and the
    position of the next message, and [ntoh] undoes [hton]. *)
From stdpp Require Import prelude list strings pretty.
From Stdlib Require Import ZArith Lia.
From S2P Require Import Prelude.
Open Scope Z_scope.

Inductive Opcode :=
  | OpGet | OpSet | OpDelete | OpNoop | OpHello | OpSaslListMechs | OpSaslAuth
  | OpSaslStep | OpSelectBucket | OpGetClusterConfig | OpGetErrorMap.

Definition opcode_value (o : Opcode) : Z :=
  match o with
  | OpGet => 0x00 | OpSet => 0x01 | OpDelete => 0x04 | OpNoop => 0x0a
  | OpHello => 0x1f | OpSaslListMechs => 0x20 | OpSaslAuth => 0x21
  | OpSaslStep => 0x22 | OpSelectBucket => 0x89 | OpGetClusterConfig => 0xb5
  | OpGetErrorMap => 0xfe
  end.

Inductive McbpStatus :=
  | StSuccess | StKeyNotFound | StKeyExists | StNotMyVbucket | StAuthError
  | StAuthContinue | StUnknownCommand | StInternalError | StTmpFail.

Definition status_value (s : McbpStatus) : Z :=
  match s with
  | StSuccess => 0x0000 | StKeyNotFound => 0x0001 | StKeyExists => 0x0002
  | StNotMyVbucket => 0x0007 | StAuthError => 0x0020 | StAuthContinue => 0x0021
  | StUnknownCommand => 0x0081 | StInternalError => 0x0084 | StTmpFail => 0x0086
  end.

#[export] Instance Opcode_eq_dec : EqDecision Opcode.
Proof. solve_decision. Defined.
#[export] Instance McbpStatus_eq_dec : EqDecision McbpStatus.
Proof. solve_decision. Defined.

Definition kRequestMagic : Z := 0x80.
Definition kResponseMagic : Z := 0x81.
Definition kHeaderSize : nat := 24.

Record McbpHeader := mkMcbpHeader {
  magic : Z;
  opcode : Z;
  keyLen : Z;
  extrasLen : Z;
  hdatatype : Z;
  specific : Z;
  bodyLen : Z;
  opaque : Z;
  hcas : Z;
}.

Definition McbpHeader_wf (h : McbpHeader) : Prop :=
  is_uint 8 (magic h) /\ is_uint 8 (opcode h) /\ is_uint 16 (keyLen h) /\
  is_uint 8 (extrasLen h) /\ is_uint 8 (hdatatype h) /\ is_uint 16 (specific h) /\
  is_uint 32 (bodyLen h) /\ is_uint 32 (opaque h) /\ is_uint 64 (hcas h).

(** [opaque] stays in the sender's byte order: it is only echoed. *)
Definition ntoh (h : McbpHeader) : McbpHeader :=
  mkMcbpHeader (magic h) (opcode h) (bswap 2 (keyLen h)) (extrasLen h) (hdatatype h)
    (bswap 2 (specific h)) (bswap 4 (bodyLen h)) (opaque h) (bswap 8 (hcas h)).

Definition hton (h : McbpHeader) : McbpHeader :=
  mkMcbpHeader (magic h) (opcode h) (bswap 2 (keyLen h)) (extrasLen h) (hdatatype h)
    (bswap 2 (specific h)) (bswap 4 (bodyLen h)) (opaque h) (bswap 8 (hcas h)).

(** The packed struct's memory and back. *)
Definition hdr_bytes (h : McbpHeader) : list Z :=
  le_bytes 1 (magic h) ++ le_bytes 1 (opcode h) ++ le_bytes 2 (keyLen h) ++
  le_bytes 1 (extrasLen h) ++ le_bytes 1 (hdatatype h) ++ le_bytes 2 (specific h) ++
  le_bytes 4 (bodyLen h) ++ le_bytes 4 (opaque h) ++ le_bytes 8 (hcas h).

Definition hdr_of_bytes (s : list Z) : McbpHeader :=
  mkMcbpHeader (le_value (slice 0 1 s)) (le_value (slice 1 1 s)) (le_value (slice 2 2 s))
    (le_value (slice 4 1 s)) (le_value (slice 5 1 s)) (le_value (slice 6 2 s))
    (le_value (slice 8 4 s)) (le_value (slice 12 4 s)) (le_value (slice 16 8 s)).

(** The header every builder fills in, in network order. *)
Definition responseHeader (op : Z) (status : McbpStatus) (opq cas : Z)
    (extrasLen keyLen bodyLen : nat) : McbpHeader :=
  hton (mkMcbpHeader kResponseMagic op (u16 (Z.of_nat keyLen)) (u8 (Z.of_nat extrasLen)) 0
          (status_value status) (u32 (Z.of_nat bodyLen)) opq cas).

(** A [const void*] of the builders: null, or the memory it points at. *)
Definition cptr := option (list Z).

(** [memcpy(p, src, n)] into [buf] with [p] at offset [off]. *)
Definition memcpy (buf : list Z) (off : nat) (src : list Z) : list Z :=
  take off buf ++ src ++ drop (off + length src) buf.

(** [if (n > 0 && src) { memcpy(p, src, n); p += n; }] *)
Definition copyPart (st : list Z * nat) (src : cptr) (n : nat) : list Z * nat :=
  let '(buf, p) := st in
  match src with
  | Some b => if (0 <? n)%nat then (memcpy buf p (take n b), (p + n)%nat) else (buf, p)
  | None => (buf, p)
  end.

(** [junk] is the uninitialised memory [IOBuf::create] returns. *)
Definition buildResponse (junk : list Z) (op : Z) (status : McbpStatus) (opq cas : Z)
    (extras : cptr) (extrasLen : nat) (key : cptr) (keyLen : nat)
    (value : cptr) (valueLen : nat) : list Z :=
  let bodyLen := (extrasLen + keyLen + valueLen)%nat in
  let buf := take (kHeaderSize + bodyLen) junk in
  let hdr := responseHeader op status opq cas extrasLen keyLen bodyLen in
  let st := (memcpy buf 0 (hdr_bytes hdr), kHeaderSize) in
  let st := copyPart st extras extrasLen in
  let st := copyPart st key keyLen in
  fst (copyPart st value valueLen).

Definition buildEmptyResponse (junk : list Z) (op : Z) (status : McbpStatus) (opq cas : Z)
    : list Z :=
  buildResponse junk op status opq cas None 0 None 0 None 0.

Definition buildGetResponse (junk : list Z) (opq cas flags : Z) (value : cptr) (valueLen : nat)
    : list Z :=
  let flagsNBO := le_bytes 4 (bswap 4 flags) in
  buildResponse junk (opcode_value OpGet) StSuccess opq cas (Some flagsNBO) 4 None 0
    value valueLen.

(** The [put] lambda: a null source grows the vector by zero bytes. *)
Definition put (out : list Z) (src : cptr) (n : nat) : list Z :=
  match src with
  | Some b => out ++ take n b
  | None => out ++ replicate n 0
  end.

Definition appendResponse (out : list Z) (op : Z) (status : McbpStatus) (opq cas : Z)
    (extras : cptr) (extrasLen : nat) (key : cptr) (keyLen : nat)
    (value : cptr) (valueLen : nat) : list Z :=
  let bodyLen := (extrasLen + keyLen + valueLen)%nat in
  let hdr := responseHeader op status opq cas extrasLen keyLen bodyLen in
  let out := put out (Some (hdr_bytes hdr)) kHeaderSize in
  let out := put out extras extrasLen in
  let out := put out key keyLen in
  put out value valueLen.

Definition appendEmptyResponse (out : list Z) (op : Z) (status : McbpStatus) (opq cas : Z)
    : list Z :=
  appendResponse out op status opq cas None 0 None 0 None 0.

Definition appendGetResponse (out : list Z) (opq cas flags : Z) (value : cptr) (valueLen : nat)
    (dt : Z) : list Z :=
  let flagsNBO := le_bytes 4 (bswap 4 flags) in
  let hdrOff := length out in
  let out := appendResponse out (opcode_value OpGet) StSuccess opq cas (Some flagsNBO) 4
               None 0 value valueLen in
  <[(hdrOff + 5)%nat := dt]> out.

(** ** JSON documents

    [json] writes a C++ literal with apostrophes for its quotes. *)
Definition quote : Ascii.ascii := Ascii.ascii_of_nat 34.

Fixpoint json (s : string) : string :=
  match s with
  | EmptyString => EmptyString
  | String c s' => String (if Ascii.eqb c (Ascii.ascii_of_nat 39) then quote else c) (json s')
  end.

Definition num (n : Z) : string := pretty n.

(** The loop over vbuckets: all of them on server 0. *)
Fixpoint vBucketMap (i : nat) (todo : nat) : string :=
  match todo with
  | O => EmptyString
  | S k => (if (0 <? i)%nat then "," else EmptyString) +:+ "[0]" +:+ vBucketMap (S i) k
  end.

Definition buildClusterConfigJson (hostname : string) (port : Z) (bucketName : string)
    (numVBuckets : Z) (mgmtPort : Z) : string :=
  let mgmtPort := if mgmtPort =? 0 then port else mgmtPort in
  json "{" +:+
  json "'rev':1," +:+
  json "'revEpoch':1," +:+
  json "'name':'" +:+ bucketName +:+ json "'," +:+
  json "'uri':'/pools/default/buckets/" +:+ bucketName +:+ json "'," +:+
  json "'streamingUri':'/pools/default/bucketsStreaming/" +:+ bucketName +:+ json "'," +:+
  json "'nodeLocator':'vbucket'," +:+
  json "'bucketType':'membase'," +:+
  json "'uuid':'00000000000000000000000000000000'," +:+
  json "'nodes':[{" +:+
  json "'hostname':'" +:+ hostname +:+ ":" +:+ num port +:+ json "'," +:+
  json "'ports':{'direct':" +:+ num port +:+ "}," +:+
  json "'status':'healthy'," +:+
  json "'version':'0.0.0'" +:+
  "}]," +:+
  json "'nodesExt':[{" +:+
  json "'services':{'kv':" +:+ num port +:+ json ",'mgmt':" +:+ num mgmtPort +:+ "}," +:+
  json "'thisNode':true," +:+
  json "'hostname':'" +:+ hostname +:+ json "'" +:+
  "}]," +:+
  json "'vBucketServerMap':{" +:+
  json "'hashAlgorithm':'CRC'," +:+
  json "'numReplicas':0," +:+
  json "'serverList':['" +:+ hostname +:+ ":" +:+ num port +:+ json "']," +:+
  json "'vBucketMap':[" +:+
  vBucketMap 0 (Z.to_nat numVBuckets) +:+
  "]}" +:+
  json ",'bucketCapabilities':[]" +:+
  "}".

Definition buildErrorMapJson : string := json "{'version':1,'revision':1,'errors':{}}".

(** ** Reference framing *)

(** What a response is on the wire: the header followed by extras, key, value. *)
Definition frame (op : Z) (status : McbpStatus) (opq cas dt : Z)
    (extras key value : list Z) : list Z :=
  hdr_bytes (hton (mkMcbpHeader kResponseMagic op (Z.of_nat (length key))
    (Z.of_nat (length extras)) dt (status_value status)
    (Z.of_nat (length extras + length key + length value)) opq cas)) ++
  extras ++ key ++ value.

(** A reader of the stream: a complete header, then the body it announces. *)
Definition readFrame (s : list Z) : option (McbpHeader * list Z * list Z) :=
  if (length s <? kHeaderSize)%nat then None else
  let h := ntoh (hdr_of_bytes (take kHeaderSize s)) in
  let n := Z.to_nat (bodyLen h) in
  if (length s <? kHeaderSize + n)%nat then None else
  Some (h, slice kHeaderSize n s, drop (kHeaderSize + n) s).

(** A source pointer the builders may be given: memory of at least [n] bytes, or
    null with nothing to copy. *)
Definition src_ok (src : cptr) (n : nat) : Prop :=
  match src with Some b => (n <= length b)%nat | None => n = 0%nat end.
Definition src_bytes (src : cptr) (n : nat) : list Z :=
  match src with Some b => take n b | None => [] end.

Lemma length_src_bytes src n : src_ok src n -> length (src_bytes src n) = n.
Proof. destruct src; simpl; intros; [rewrite length_take; lia|done]. Qed.

Lemma length_hdr_bytes h : length (hdr_bytes h) = kHeaderSize.
Proof. unfold hdr_bytes. rewrite !length_app, !length_le_bytes. done. Qed.

Lemma ntoh_hton h : McbpHeader_wf h -> ntoh (hton h) = h.
Proof.
  unfold McbpHeader_wf, is_uint. intros Hwf. destruct h as [a b c d e f g i j].
  unfold ntoh, hton; simpl in *. f_equal; apply bswap_involutive; simpl; lia.
Qed.

Lemma hton_wf h : McbpHeader_wf h -> McbpHeader_wf (hton h).
Proof.
  unfold McbpHeader_wf, is_uint, hton; intros Hwf; simpl.
  pose proof (bswap_range 2 (keyLen h)). pose proof (bswap_range 2 (specific h)).
  pose proof (bswap_range 4 (bodyLen h)). pose proof (bswap_range 8 (hcas h)).
  simpl in *. lia.
Qed.

Lemma hdr_of_hdr_bytes h : McbpHeader_wf h -> hdr_of_bytes (hdr_bytes h) = h.
Proof.
  unfold McbpHeader_wf, is_uint. intros Hwf. destruct h as [a b c d e f g i j]. simpl in Hwf.
  unfold hdr_of_bytes, hdr_bytes; cbn [magic opcode keyLen extrasLen hdatatype specific bodyLen opaque hcas].
  f_equal; slice_fields; apply le_value_bytes_small; simpl; lia.
Qed.

(** ** Both builders produce the frame *)
Lemma put_ok out src n : src_ok src n -> put out src n = out ++ src_bytes src n.
Proof. destruct src; simpl; [done|]. intros ->. done. Qed.

Lemma take_app_more {A} (l k : list A) n : (length l <= n)%nat ->
  take n (l ++ k) = l ++ take (n - length l) k.
Proof. intros. rewrite take_app, take_ge by lia. done. Qed.

Lemma memcpy_next pre b junk : (length b <= length junk)%nat ->
  memcpy (pre ++ junk) (length pre) b = (pre ++ b) ++ drop (length b) junk.
Proof.
  intros. unfold memcpy. rewrite take_app_length, drop_app, (drop_ge pre) by lia.
  replace (length pre + length b - length pre)%nat with (length b) by lia.
  rewrite <- app_assoc. done.
Qed.

Lemma copyPart_ok pre junk src n : src_ok src n -> (n <= length junk)%nat ->
  copyPart (pre ++ junk, length pre) src n =
  ((pre ++ src_bytes src n) ++ drop n junk, length (pre ++ src_bytes src n)).
Proof.
  intros Hok Hn. unfold copyPart. pose proof (length_src_bytes src n Hok) as Hl.
  rewrite length_app, Hl. destruct src as [b|]; simpl in *.
  - destruct (Nat.ltb_spec 0 n).
    + rewrite memcpy_next by (rewrite Hl; done). rewrite Hl. done.
    + replace n with 0%nat by lia. rewrite take_0, drop_0, app_nil_r, Nat.add_0_r. done.
  - rewrite Hok, drop_0, app_nil_r, Nat.add_0_r. done.
Qed.

Lemma responseHeader_frame op status opq cas e k v :
  Z.of_nat e < 256 -> Z.of_nat k < 65536 -> Z.of_nat (e + k + v) < 2 ^ 32 ->
  responseHeader op status opq cas e k (e + k + v) =
  hton (mkMcbpHeader kResponseMagic op (Z.of_nat k) (Z.of_nat e) 0 (status_value status)
          (Z.of_nat (e + k + v)) opq cas).
Proof.
  intros. unfold responseHeader. rewrite u16_small, u8_small, u32_small by lia. done.
Qed.

Section builders.
Context (op : Z) (status : McbpStatus) (opq cas : Z).
Context (extras : cptr) (extrasLen : nat) (key : cptr) (keyLen : nat).
Context (value : cptr) (valueLen : nat).
Hypothesis Hextras : src_ok extras extrasLen.
Hypothesis Hkey : src_ok key keyLen.
Hypothesis Hvalue : src_ok value valueLen.

Definition bodyBytes : list Z :=
  src_bytes extras extrasLen ++ src_bytes key keyLen ++ src_bytes value valueLen.

Lemma appendResponse_eq out :
  appendResponse out op status opq cas extras extrasLen key keyLen value valueLen =
  out ++ hdr_bytes (responseHeader op status opq cas extrasLen keyLen
                      (extrasLen + keyLen + valueLen)) ++ bodyBytes.
Proof using Hextras Hkey Hvalue.
  unfold appendResponse, bodyBytes. rewrite !put_ok by (done || (unfold src_ok; rewrite length_hdr_bytes; lia)).
  cbn [src_bytes]. rewrite (take_ge (hdr_bytes _)) by (rewrite length_hdr_bytes; lia).
  rewrite <- !app_assoc. done.
Qed.

Lemma buildResponse_eq junk :
  length junk = (kHeaderSize + (extrasLen + keyLen + valueLen))%nat ->
  buildResponse junk op status opq cas extras extrasLen key keyLen value valueLen =
  hdr_bytes (responseHeader op status opq cas extrasLen keyLen
               (extrasLen + keyLen + valueLen)) ++ bodyBytes.
Proof using Hextras Hkey Hvalue.
  intros Hj. unfold buildResponse, bodyBytes. rewrite take_ge by lia.
  set (h := hdr_bytes _). assert (Hh : length h = kHeaderSize) by apply length_hdr_bytes.
  pose proof (memcpy_next [] h junk) as Hm. cbn [app length] in Hm.
  rewrite Hm by (rewrite Hh; lia). rewrite <- Hh at 1.
  rewrite copyPart_ok by (try done; rewrite length_drop; lia).
  rewrite copyPart_ok by (try done; rewrite !length_drop; lia).
  rewrite copyPart_ok by (try done; rewrite !length_drop; lia).
  cbn [fst]. rewrite !drop_drop, drop_ge, app_nil_r by lia.
  rewrite <- !app_assoc. done.
Qed.

Lemma response_frame out :
  Z.of_nat extrasLen < 256 -> Z.of_nat keyLen < 65536 ->
  Z.of_nat (extrasLen + keyLen + valueLen) < 2 ^ 32 ->
  appendResponse out op status opq cas extras extrasLen key keyLen value valueLen =
  out ++ frame op status opq cas 0 (src_bytes extras extrasLen) (src_bytes key keyLen)
           (src_bytes value valueLen).
Proof using Hextras Hkey Hvalue.
  intros. rewrite appendResponse_eq, responseHeader_frame by done.
  unfold frame, bodyBytes. rewrite !length_src_bytes by done. done.
Qed.
End builders.

(** Patching the datatype byte of the last frame in the buffer. *)
Lemma frame_set_datatype op status opq cas dt extras key value :
  is_uint 8 dt ->
  <[5%nat := dt]> (frame op status opq cas 0 extras key value) =
  frame op status opq cas dt extras key value.
Proof.
  intros Hdt. unfold frame, hdr_bytes, hton. cbn [magic opcode keyLen extrasLen hdatatype specific bodyLen opaque hcas].
  cbn [le_bytes app insert list_insert]. unfold is_uint in Hdt.
  rewrite !(Z.mod_small dt) by lia. done.
Qed.

Lemma appendGetResponse_frame out opq cas flags value dt :
  is_uint 8 dt -> Z.of_nat (4 + length value) < 2 ^ 32 ->
  appendGetResponse out opq cas flags (Some value) (length value) dt =
  out ++ frame (opcode_value OpGet) StSuccess opq cas dt (le_bytes 4 (bswap 4 flags)) [] value.
Proof.
  intros Hdt Hlen. unfold appendGetResponse.
  rewrite response_frame by (simpl; rewrite ?length_le_bytes; lia).
  cbn [src_bytes]. rewrite (take_ge value), (take_ge (le_bytes _ _)) by (rewrite ?length_le_bytes; lia).
  rewrite insert_app_r_alt by lia.
  replace (length out + 5 - length out)%nat with 5%nat by lia.
  rewrite frame_set_datatype by done. done.
Qed.

Lemma status_value_range s : 0 <= status_value s < 65536.
Proof. destruct s; simpl; lia. Qed.

Lemma readFrame_frame op status opq cas dt extras key value rest :
  is_uint 8 op -> is_uint 32 opq -> is_uint 64 cas -> is_uint 8 dt ->
  Z.of_nat (length extras) < 256 -> Z.of_nat (length key) < 65536 ->
  Z.of_nat (length extras + length key + length value) < 2 ^ 32 ->
  readFrame (frame op status opq cas dt extras key value ++ rest) =
  Some (mkMcbpHeader kResponseMagic op (Z.of_nat (length key)) (Z.of_nat (length extras)) dt
          (status_value status) (Z.of_nat (length extras + length key + length value)) opq cas,
        extras ++ key ++ value, rest).
Proof.
  intros Hop Hopq Hcas Hdt He Hk Hb. unfold frame. set (h := mkMcbpHeader _ _ _ _ _ _ _ _ _).
  set (body := extras ++ key ++ value).
  assert (Hbody : length body = Z.to_nat (bodyLen h)).
  { unfold body. rewrite !length_app. simpl. lia. }
  assert (Hwf : McbpHeader_wf h).
  { pose proof (status_value_range status). unfold h, McbpHeader_wf, is_uint, kResponseMagic in *.
    cbn [magic opcode keyLen extrasLen hdatatype specific bodyLen opaque hcas].
    split_and!; lia. }
  unfold readFrame. rewrite <- !app_assoc.
  rewrite (take_app_exact kHeaderSize), hdr_of_hdr_bytes, ntoh_hton
    by (done || apply length_hdr_bytes || by apply hton_wf).
  rewrite <- Hbody, !length_app, length_hdr_bytes.
  destruct (Nat.ltb_spec (kHeaderSize + (length body + length rest)) kHeaderSize); [lia|].
  destruct (Nat.ltb_spec (kHeaderSize + (length body + length rest)) (kHeaderSize + length body)); [lia|].
  unfold slice. rewrite <- drop_drop, !(drop_app_exact kHeaderSize), take_app_length, drop_app_length
    by apply length_hdr_bytes. done.
Qed.

(** ** Properties *)

(** The response written into a fresh buffer and the response appended to a
    connection's write buffer are the same bytes, whatever the fresh buffer held
    before; appending leaves the earlier responses alone. *)
Theorem builders_agree junk out op status opq cas extras e key k value v :
  src_ok extras e -> src_ok key k -> src_ok value v ->
  length junk = (kHeaderSize + (e + k + v))%nat ->
  appendResponse out op status opq cas extras e key k value v =
  out ++ buildResponse junk op status opq cas extras e key k value v.
Proof. intros. rewrite appendResponse_eq, buildResponse_eq by done. done. Qed.

Lemma builders_agree_witness :
  appendResponse [1; 2] 0x20 StSuccess 7 0 None 0 None 0 (Some [80; 76; 65; 73; 78]) 5 =
  [1; 2] ++ buildResponse (replicate 29 0xcc) 0x20 StSuccess 7 0 None 0 None 0
              (Some [80; 76; 65; 73; 78]) 5.
Proof.
  apply (builders_agree (replicate 29 0xcc)); simpl; reflexivity || lia.
Defined.

(** The responses the data path appends. *)
Inductive reply :=
  | GetReply (opq cas flags dt : Z) (value : list Z)
  | EmptyReply (op : Z) (status : McbpStatus) (opq cas : Z).

Definition appendReply (out : list Z) (r : reply) : list Z :=
  match r with
  | GetReply opq cas flags dt value =>
      appendGetResponse out opq cas flags (Some value) (length value) dt
  | EmptyReply op status opq cas => appendEmptyResponse out op status opq cas
  end.

Definition reply_ok (r : reply) : Prop :=
  match r with
  | GetReply opq cas flags dt value =>
      is_uint 32 opq /\ is_uint 64 cas /\ is_uint 8 dt /\ Z.of_nat (4 + length value) < 2 ^ 32
  | EmptyReply op _ opq cas => is_uint 8 op /\ is_uint 32 opq /\ is_uint 64 cas
  end.

(** What a client should see of a reply. *)
Definition reply_seen (r : reply) : McbpHeader * list Z :=
  match r with
  | GetReply opq cas flags dt value =>
      (mkMcbpHeader kResponseMagic (opcode_value OpGet) 0 4 dt (status_value StSuccess)
         (Z.of_nat (4 + length value)) opq cas, le_bytes 4 (bswap 4 flags) ++ value)
  | EmptyReply op status opq cas =>
      (mkMcbpHeader kResponseMagic op 0 0 0 (status_value status) 0 opq cas, [])
  end.

Fixpoint readFrames (n : nat) (s : list Z) : list (McbpHeader * list Z) * list Z :=
  match n with
  | O => ([], s)
  | S n' => match readFrame s with
            | Some (h, body, s') =>
                let '(l, s'') := readFrames n' s' in ((h, body) :: l, s'')
            | None => ([], s)
            end
  end.

Definition replyBytes (r : reply) : list Z :=
  match r with
  | GetReply opq cas flags dt value =>
      frame (opcode_value OpGet) StSuccess opq cas dt (le_bytes 4 (bswap 4 flags)) [] value
  | EmptyReply op status opq cas => frame op status opq cas 0 [] [] []
  end.

Lemma appendReply_eq out r : reply_ok r -> appendReply out r = out ++ replyBytes r.
Proof.
  destruct r as [opq cas flags dt value|op status opq cas]; simpl.
  - intros (? & ? & ? & ?). by apply appendGetResponse_frame.
  - intros _. unfold appendEmptyResponse. rewrite response_frame by (simpl; lia). done.
Qed.

Lemma readFrame_reply r rest : reply_ok r ->
  readFrame (replyBytes r ++ rest) = Some (reply_seen r, rest).
Proof.
  destruct r as [opq cas flags dt value|op status opq cas]; cbn [reply_ok replyBytes reply_seen].
  - intros (? & ? & ? & ?). rewrite readFrame_frame; try done; by rewrite length_le_bytes.
  - intros (? & ? & ?). rewrite readFrame_frame; done.
Qed.

Lemma foldl_appendReply rs out : Forall reply_ok rs ->
  foldl appendReply out rs = out ++ concat (map replyBytes rs).
Proof.
  intros H. revert out. induction H as [|r rs Hr _ IH]; intros out; simpl; [by rewrite app_nil_r|].
  rewrite IH, appendReply_eq, <- app_assoc by done. done.
Qed.

(** C30: responses coalesced into one write buffer stay separable: a reader of
    the stream recovers every header and body in order and nothing is left over
    or taken from what follows. *)
Theorem coalesced_responses_readable rs rest : Forall reply_ok rs ->
  readFrames (length rs) (foldl appendReply [] rs ++ rest) = (map reply_seen rs, rest).
Proof.
  intros H. rewrite foldl_appendReply by done. cbn [app].
  induction H as [|r rs Hr _ IH]; [done|].
  cbn [map concat length readFrames]. rewrite <- app_assoc, readFrame_reply by done.
  destruct (reply_seen r) as [h b]. rewrite IH. done.
Qed.

Lemma coalesced_responses_readable_witness :
  readFrames 2 (foldl appendReply [] [GetReply 1 2 3 0 [9; 9]; EmptyReply 1 StSuccess 5 6] ++ [4]) =
  (map reply_seen [GetReply 1 2 3 0 [9; 9]; EmptyReply 1 StSuccess 5 6], [4]).
Proof.
  apply (coalesced_responses_readable [GetReply 1 2 3 0 [9; 9]; EmptyReply 1 StSuccess 5 6] [4]).
  repeat constructor; done.
Defined.
