(* ===== verification/StatSlot.v ===== *)
(** * StatSlot: per-thread slots of the sharded counters (server/statslot.h, statslot.cc)

    A thread leases a slot for its life.  [gSlotUsers] counts the leases of each
    slot; both operations run under [gSlotMu], so each is one atomic step.
    Theorem: while no more than [kStatSlots] threads are alive at once, no two
    of them share a slot, whatever the order in which threads come and go. *)
From stdpp Require Import prelude list.
From Stdlib Require Import ZArith Lia.
From S2P Require Import Prelude.
Open Scope Z_scope.

Definition kStatSlots : nat := 128.

(** [gSlotUsers]; [leases] are the slots of the threads alive. *)
Record SlotState := mkSlotState {
  slotUsers : list Z;
  leases : list nat;
}.

Definition initSlots : SlotState := mkSlotState (replicate kStatSlots 0) [].

Definition usersOf (users : list Z) (i : nat) : Z := default 0 (users !! i).

(** The scan of the constructor: the first slot with the fewest users. *)
Definition pickSlot (users : list Z) : nat :=
  foldl (fun slot i => if usersOf users i <? usersOf users slot then i else slot)
    0%nat (seq 1 (kStatSlots - 1)).

Definition SlotLease (st : SlotState) : SlotState * nat :=
  let slot := pickSlot (slotUsers st) in
  (mkSlotState (<[slot := u32 (usersOf (slotUsers st) slot + 1)]> (slotUsers st))
     (slot :: leases st), slot).

(** The destructor of the [k]-th live lease. *)
Definition SlotRelease (st : SlotState) (k : nat) : SlotState :=
  match leases st !! k with
  | Some slot =>
      mkSlotState (<[slot := u32 (usersOf (slotUsers st) slot - 1)]> (slotUsers st))
        (delete k (leases st))
  | None => st
  end.

Inductive slot_step : SlotState -> SlotState -> Prop :=
  | step_lease st : slot_step st (fst (SlotLease st))
  | step_release st k : slot_step st (SlotRelease st k).

(** Runs that keep at most [kStatSlots] threads alive. *)
Inductive slot_run : SlotState -> Prop :=
  | run_init : slot_run initSlots
  | run_step st st' : slot_run st -> slot_step st st' ->
      (length (leases st') <= kStatSlots)%nat -> slot_run st'.

(** ** The scan finds a minimum *)
Lemma pick_min users l s0 :
  let s := foldl (fun slot i => if usersOf users i <? usersOf users slot then i else slot) s0 l in
  usersOf users s <= usersOf users s0 /\
  (forall i, i ∈ l -> usersOf users s <= usersOf users i) /\ (s = s0 \/ s ∈ l).
Proof.
  revert s0. induction l as [|x l IH]; intros s0; simpl; [split_and!; [lia|set_solver|by left]|].
  specialize (IH (if usersOf users x <? usersOf users s0 then x else s0)).
  destruct IH as (H1 & H2 & H3).
  destruct (Z.ltb_spec (usersOf users x) (usersOf users s0)); split_and!; try lia;
    try (intros i [->|Hi]%elem_of_cons; [lia|auto]);
    destruct H3 as [->|]; rewrite ?elem_of_cons; auto.
Qed.

Lemma pickSlot_min users : (pickSlot users < kStatSlots)%nat /\
  forall i, (i < kStatSlots)%nat -> usersOf users (pickSlot users) <= usersOf users i.
Proof.
  pose proof (pick_min users (seq 1 (kStatSlots - 1)) 0) as H. cbv zeta in H.
  unfold pickSlot. revert H. generalize (foldl
    (fun slot i => if usersOf users i <? usersOf users slot then i else slot)
    0%nat (seq 1 (kStatSlots - 1))).
  intros p (H1 & H2 & H3). split.
  - destruct H3 as [->|H3%elem_of_seq]; unfold kStatSlots in *; lia.
  - intros [|i] Hi; [exact H1|]. apply H2, elem_of_seq. unfold kStatSlots in *. lia.
Qed.

(** ** Counts agree with the leases, and leases are distinct *)
Definition slot_inv (st : SlotState) : Prop :=
  length (slotUsers st) = kStatSlots /\
  NoDup (leases st) /\ Forall (fun s => s < kStatSlots)%nat (leases st) /\
  forall i, (i < kStatSlots)%nat ->
    usersOf (slotUsers st) i = (if bool_decide (i ∈ leases st) then 1 else 0).

(** Pigeonhole: with a slot to spare, some slot is free. *)
Lemma free_slot l : (length l < kStatSlots)%nat -> exists i, (i < kStatSlots)%nat /\ i ∉ l.
Proof.
  intros Hl. destruct (decide (Forall (fun i => i ∈ l) (seq 0 kStatSlots))) as [Hall|Hno].
  - assert (Hsub : (length (seq 0 kStatSlots) <= length l)%nat).
    { apply submseteq_length, NoDup_submseteq; [apply NoDup_seq|].
      intros x Hx. rewrite Forall_forall in Hall. by apply Hall. }
    rewrite length_seq in Hsub. lia.
  - apply not_Forall_Exists in Hno; [|apply _]. apply Exists_exists in Hno as (i & Hi & Hn).
    exists i. split; [|done]. apply elem_of_seq in Hi. lia.
Qed.

Lemma usersOf_insert users i j v : (i < length users)%nat ->
  usersOf (<[i := v]> users) j = if decide (i = j) then v else usersOf users j.
Proof.
  intros Hi. unfold usersOf. destruct (decide (i = j)) as [<-|Hne].
  - rewrite list_lookup_insert_eq by done. done.
  - rewrite list_lookup_insert_ne by done. done.
Qed.

Lemma elem_of_delete_NoDup (l : list nat) k s i : NoDup l -> l !! k = Some s ->
  i ∈ delete k l <-> i ∈ l /\ i <> s.
Proof.
  intros Hnd Hk. rewrite <- (take_drop_middle l k s Hk) in Hnd.
  rewrite <- (take_drop_middle l k s Hk) at 2. rewrite delete_take_drop.
  apply NoDup_app in Hnd as (_ & H1 & [H2 _]%NoDup_cons).
  rewrite !elem_of_app, elem_of_cons. split.
  - intros [Hi|Hi]; (split; [tauto|]); intros ->; [by eapply H1; [|left]|done].
  - tauto.
Qed.

Lemma SlotLease_inv st : slot_inv st -> (length (leases st) < kStatSlots)%nat ->
  slot_inv (fst (SlotLease st)).
Proof.
  intros (Hlen & Hnd & Hb & Hu) Hl. destruct (pickSlot_min (slotUsers st)) as [Hp Hmin].
  unfold SlotLease, slot_inv. cbn [fst slotUsers leases].
  generalize dependent (pickSlot (slotUsers st)). intros p Hp Hmin.
  destruct (free_slot (leases st) Hl) as (f & Hf & Hfree).
  assert (Hnin : p ∉ leases st).
  { intros Hin. specialize (Hmin f Hf). rewrite !Hu in Hmin by done.
    rewrite bool_decide_true, bool_decide_false in Hmin by done. lia. }
  split_and!; [by rewrite length_insert|by constructor|by constructor|].
  intros i Hi. rewrite usersOf_insert by lia. rewrite Hu by done.
  rewrite bool_decide_false by done. destruct (decide (p = i)) as [->|Hne].
  - rewrite bool_decide_true by set_solver. done.
  - rewrite Hu by done. rewrite (bool_decide_ext (i ∈ leases st) (i ∈ p :: leases st)) by (rewrite elem_of_cons; naive_solver). done.
Qed.

Lemma SlotRelease_inv st k : slot_inv st -> slot_inv (SlotRelease st k).
Proof.
  intros (Hlen & Hnd & Hb & Hu). unfold SlotRelease.
  destruct (leases st !! k) as [s|] eqn:Hk; [|done].
  assert (Hs : s ∈ leases st) by (by eapply list_elem_of_lookup_2).
  assert (Hsb : (s < kStatSlots)%nat) by (rewrite Forall_forall in Hb; auto).
  unfold slot_inv; cbn [slotUsers leases]. split_and!.
  - by rewrite length_insert.
  - eapply sublist_NoDup; [done|apply sublist_delete].
  - by apply Forall_delete.
  - intros i Hi. rewrite usersOf_insert by lia. rewrite Hu by done.
    rewrite bool_decide_true by done. destruct (decide (s = i)) as [->|Hne].
    + rewrite bool_decide_false; [done|]. rewrite (elem_of_delete_NoDup _ _ i) by done. tauto.
    + rewrite Hu by done. rewrite (bool_decide_ext (i ∈ leases st) (i ∈ delete k (leases st))); [done|].
      rewrite (elem_of_delete_NoDup _ _ s) by done. naive_solver.
Qed.

Lemma slot_run_inv st : slot_run st -> slot_inv st.
Proof.
  induction 1 as [|st st' _ IH Hstep Hl].
  - unfold slot_inv, initSlots; cbn [slotUsers leases].
    split_and!; [apply length_replicate|constructor|constructor|].
    intros i Hi. unfold usersOf. rewrite lookup_replicate_2 by done. done.
  - destruct Hstep as [st|st k]; [|by apply SlotRelease_inv].
    apply SlotLease_inv; [done|]. cbn in Hl. lia.
Qed.

(** As long as at most [kStatSlots] threads are alive at any time, the
    threads alive hold distinct slots, and the count of a slot is exactly the
    number of threads using it, so a counter's slot has a single writer. *)
Theorem statslot_exclusive st : slot_run st ->
  NoDup (leases st) /\
  forall i, (i < kStatSlots)%nat ->
    usersOf (slotUsers st) i = Z.of_nat (length (filter (eq i) (leases st))).
Proof.
  intros Hr. destruct (slot_run_inv st Hr) as (_ & Hnd & _ & Hu). split; [done|].
  intros i Hi. rewrite Hu by done. clear -Hnd. induction Hnd as [|x l Hx Hnd IH]; [done|].
  rewrite filter_cons. destruct (decide (i = x)) as [->|Hne].
  - rewrite bool_decide_true by set_solver. simpl. rewrite bool_decide_false in IH by done.
    destruct (filter (eq x) l); simpl in *; lia.
  - rewrite <- IH. rewrite (bool_decide_ext (i ∈ x :: l) (i ∈ l)) by set_solver. done.
Qed.

Definition three_leases : SlotState :=
  fst (SlotLease (fst (SlotLease (SlotRelease (fst (SlotLease (fst (SlotLease initSlots)))) 1)))).

Lemma statslot_exclusive_witness : leases three_leases = [2; 0; 1]%nat /\ NoDup (leases three_leases).
Proof.
  split; [vm_compute; reflexivity|]. apply (statslot_exclusive three_leases).
  apply (run_step (fst (SlotLease (SlotRelease (fst (SlotLease (fst (SlotLease initSlots)))) 1))));
    [|apply step_lease|apply Nat.leb_le; vm_compute; reflexivity].
  apply (run_step (SlotRelease (fst (SlotLease (fst (SlotLease initSlots)))) 1));
    [|apply step_lease|apply Nat.leb_le; vm_compute; reflexivity].
  apply (run_step (fst (SlotLease (fst (SlotLease initSlots)))));
    [|apply step_release|apply Nat.leb_le; vm_compute; reflexivity].
  apply (run_step (fst (SlotLease initSlots)));
    [|apply step_lease|apply Nat.leb_le; vm_compute; reflexivity].
  apply (run_step initSlots); [apply run_init|apply step_lease|].
  apply Nat.leb_le; vm_compute; reflexivity.
Defined.
