(* ===== verification/FlatIndex.v ===== *)
(** * FlatIndex: the cache's open-addressing index (server/cache/s3fifo_cache.cc)

    Linear probing over a power-of-two table with backward-shift deletion.  The
    loops of the source have no bound of their own: each is a fuelled Fixpoint
    whose [None] means "still looping", and the refinement theorems show that
    on every reachable index the fuel (one round per slot) is enough, i.e. the
    loops end because an empty slot exists.

    The abstract view of an index is a finite map from entry pointers to their
    hash; [find], [insert], [erase] and [grow] refine lookup by hash, insertion,
    deletion and the identity on it. *)
From stdpp Require Import prelude gmap list.
From Stdlib Require Import ZArith Lia.
From S2P Require Import Prelude.
Open Scope Z_scope.

(** A slot keeps the hash of its last occupant when it is emptied. *)
Record Slot := mkSlot {
  s_hash : Z;
  s_e : option ptr;
}.

Record Table := mkTable {
  mask : Z;
  slots : list Slot;
}.

(** [tables_] newest first: [t_] points at the head, or is null when there is
    none; the others are retired and only unlocked prefetches still see them. *)
Record FlatIndex := mkFlatIndex {
  tables : list Table;
  count : Z;
}.

Definition emptyIndex : FlatIndex := mkFlatIndex [] 0.
Definition emptySlot : Slot := mkSlot 0 None.

Definition slot_at (t : Table) (i : Z) : Slot := default emptySlot (slots t !! Z.to_nat i).
Definition set_slot (t : Table) (i : Z) (s : Slot) : Table :=
  mkTable (mask t) (<[Z.to_nat i := s]> (slots t)).
Definition home (t : Table) (h : Z) : Z := Z.land h (mask t).
Definition next (t : Table) (i : Z) : Z := Z.land (i + 1) (mask t).

(** One round per slot. *)
Definition probe_fuel (t : Table) : nat := length (slots t).

Fixpoint find_loop (fuel : nat) (t : Table) (h : Z) (eq : ptr -> bool) (i : Z)
    : option (option ptr) :=
  match fuel with
  | O => None
  | S f => match s_e (slot_at t i) with
           | None => Some None
           | Some e => if (s_hash (slot_at t i) =? h) && eq e then Some (Some e)
                       else find_loop f t h eq (next t i)
           end
  end.

Definition find (fi : FlatIndex) (h : Z) (eq : ptr -> bool) : option (option ptr) :=
  match tables fi with
  | [] => Some None
  | t :: _ => find_loop (probe_fuel t) t h eq (home t h)
  end.

Fixpoint place_loop (fuel : nat) (t : Table) (h : Z) (e : ptr) (i : Z) : option Table :=
  match fuel with
  | O => None
  | S f => match s_e (slot_at t i) with
           | None => Some (set_slot t i (mkSlot h (Some e)))
           | Some _ => place_loop f t h e (next t i)
           end
  end.

Definition place (t : Table) (h : Z) (e : ptr) : option Table :=
  place_loop (probe_fuel t) t h e (home t h).

(** The copy loop of [grow]: the old slots in index order. *)
Fixpoint rehash (old : list Slot) (fresh : Table) : option Table :=
  match old with
  | [] => Some fresh
  | s :: old' => match s_e s with
                 | Some e => fresh' ← place fresh (s_hash s) e; rehash old' fresh'
                 | None => rehash old' fresh
                 end
  end.

Definition kFirstCap : Z := 1024.

Definition emptyTable (cap : Z) : Table := mkTable (cap - 1) (replicate (Z.to_nat cap) emptySlot).

Definition grow (fi : FlatIndex) : option FlatIndex :=
  match tables fi with
  | [] => Some (mkFlatIndex [emptyTable kFirstCap] (count fi))
  | old :: _ =>
      fresh ← rehash (slots old) (emptyTable ((mask old + 1) * 2));
      Some (mkFlatIndex (fresh :: tables fi) (count fi))
  end.

(** [t == nullptr || (count_ + 1) * 10 > (t->mask + 1) * 7] *)
Definition needs_grow (fi : FlatIndex) : bool :=
  match tables fi with
  | [] => true
  | t :: _ => (mask t + 1) * 7 <? (count fi + 1) * 10
  end.

Definition insert (fi : FlatIndex) (h : Z) (e : ptr) : option FlatIndex :=
  fi' ← (if needs_grow fi then grow fi else Some fi);
  match tables fi' with
  | [] => None
  | t :: old => t' ← place t h e; Some (mkFlatIndex (t' :: old) (count fi' + 1))
  end.

(** First loop of [erase]: the slot holding [e], or [None] inside when the probe
    reaches an empty slot. *)
Fixpoint erase_find (fuel : nat) (t : Table) (e : ptr) (i : Z) : option (option Z) :=
  match fuel with
  | O => None
  | S f => match s_e (slot_at t i) with
           | None => Some None
           | Some e' => if decide (e' = e) then Some (Some i) else erase_find f t e (next t i)
           end
  end.

(** Second loop: [i] is the hole, [j] the slot examined. *)
Fixpoint erase_shift (fuel : nat) (t : Table) (i j : Z) : option Table :=
  match fuel with
  | O => None
  | S f =>
      match s_e (slot_at t j) with
      | None => Some (set_slot t i (mkSlot (s_hash (slot_at t i)) None))
      | Some ej =>
          let hj := s_hash (slot_at t j) in
          let home := home t hj in
          let inRange := if i <=? j then (i <? home) && (home <=? j)
                         else (i <? home) || (home <=? j) in
          if inRange then erase_shift f t i (next t j)
          else erase_shift f (set_slot t i (mkSlot hj (Some ej))) j (next t j)
      end
  end.

Definition erase (fi : FlatIndex) (h : Z) (e : ptr) : option FlatIndex :=
  match tables fi with
  | [] => Some fi
  | t :: old =>
      found ← erase_find (probe_fuel t) t e (home t h);
      match found with
      | None => Some fi
      | Some i => t' ← erase_shift (probe_fuel t) t i (next t i);
                  Some (mkFlatIndex (t' :: old) (count fi - 1))
      end
  end.

Definition clear (fi : FlatIndex) : FlatIndex := emptyIndex.

(** ** The table as a periodic function

    [view t x] is the content of slot [x mod cap]: indices are unreduced
    integers, so probe sequences are intervals. *)
Definition view (t : Table) (x : Z) : option (Z * ptr) :=
  let s := slot_at t (x mod (mask t + 1)) in
  match s_e s with Some e => Some (s_hash s, e) | None => None end.

Definition cap (t : Table) : Z := mask t + 1.

(** A table of [2^k] slots. *)
Definition table_wf (t : Table) : Prop :=
  exists k, 1 <= k /\ cap t = 2 ^ k /\ Z.of_nat (length (slots t)) = cap t.

(** No probe crosses a hole: from an entry's home up to its slot every slot is
    occupied. *)
Definition paths (c : Z) (f : Z -> option (Z * ptr)) : Prop :=
  forall x h p y, f x = Some (h, p) -> x - (x - h) mod c <= y < x -> f y <> None.

(** The entries of [f] are exactly those of [m], each in one slot. *)
Definition holds (c : Z) (f : Z -> option (Z * ptr)) (m : gmap ptr Z) : Prop :=
  (forall p h, m !! p = Some h <-> exists x, f x = Some (h, p)) /\
  (forall x y h h' p, f x = Some (h, p) -> f y = Some (h', p) -> (x - y) mod c = 0).

Definition table_rep (t : Table) (m : gmap ptr Z) : Prop :=
  table_wf t /\ paths (cap t) (view t) /\ holds (cap t) (view t) m.

Definition index_rep (fi : FlatIndex) (m : gmap ptr Z) : Prop :=
  count fi = Z.of_nat (size m) /\
  match tables fi with
  | [] => m = ∅
  | t :: old => table_rep t m /\ count fi * 10 <= cap t * 7 /\ 10 < cap t /\
                foldr (fun t s => cap t + s) 0 old < cap t
  end.

Lemma cap_pos t : table_wf t -> 2 <= cap t.
Proof.
  intros (k & Hk & -> & _). change 2 with (2 ^ 1) at 1. apply Z.pow_le_mono_r; lia.
Qed.

Lemma land_mask t x : table_wf t -> Z.land x (mask t) = x mod cap t.
Proof.
  intros (k & Hk & Hc & _). unfold cap in Hc.
  replace (mask t) with (Z.ones k) by (rewrite Z.ones_equiv; lia).
  rewrite Z.land_ones by lia. unfold cap. rewrite Hc. done.
Qed.

Lemma next_mod t x : table_wf t -> next t (x mod cap t) = (x + 1) mod cap t.
Proof. intros. unfold next. rewrite land_mask by done. apply Zplus_mod_idemp_l. Qed.

Lemma view_period t x : table_wf t -> view t (x + cap t) = view t x.
Proof.
  intros Hwf. pose proof (cap_pos t Hwf). unfold view. fold (cap t).
  rewrite mod_add_period by lia. done.
Qed.

Lemma view_mod t x y : table_wf t -> (x - y) mod cap t = 0 -> view t x = view t y.
Proof.
  intros Hwf Hm. pose proof (cap_pos t Hwf). unfold view. fold (cap t).
  replace (x mod cap t) with (y mod cap t); [done|]. symmetry.
  apply mod_sub_shift in Hm as [q ->]; [|lia]. rewrite Z.add_0_r, Z.mod_add by lia. done.
Qed.

Lemma view_slot t x : table_wf t ->
  view t x = match s_e (slot_at t (x mod cap t)) with
             | Some e => Some (s_hash (slot_at t (x mod cap t)), e) | None => None end.
Proof. done. Qed.

Lemma set_slot_wf t i s : table_wf t -> table_wf (set_slot t i s).
Proof. intros (k & ? & ? & ?). exists k. unfold cap in *; simpl. rewrite length_insert. done. Qed.

Lemma view_set_slot t i s x : table_wf t ->
  view (set_slot t (i mod cap t) s) x =
  if decide ((x - i) mod cap t = 0)
  then match s_e s with Some e => Some (s_hash s, e) | None => None end
  else view t x.
Proof.
  intros Hwf. pose proof (cap_pos t Hwf). unfold view. cbn [set_slot mask]. fold (cap t).
  assert (Hi : 0 <= i mod cap t < cap t) by (apply Z.mod_pos_bound; lia).
  assert (Hx : 0 <= x mod cap t < cap t) by (apply Z.mod_pos_bound; lia).
  assert (Hlen : Z.of_nat (length (slots t)) = cap t) by (by destruct Hwf as (? & _ & _ & ?)).
  assert (Heq : (x - i) mod cap t = 0 <-> x mod cap t = i mod cap t).
  { rewrite (mod_eq_sub (cap t) x (i mod cap t)) by lia. rewrite Zminus_mod_idemp_r. done. }
  unfold slot_at, set_slot; cbn [slots]. destruct (decide _) as [H0|H0].
  - rewrite (proj1 Heq H0), list_lookup_insert_eq by lia. done.
  - rewrite list_lookup_insert_ne; [done|]. intros Hne. apply H0, Heq. lia.
Qed.

(** ** Probing *)
Lemma find_loop_spec t h eq fuel x z : table_wf t -> view t z = None ->
  x <= z < x + Z.of_nat fuel ->
  exists r, find_loop fuel t h eq (x mod cap t) = Some r /\
  match r with
  | Some e => exists y, x <= y < z /\ view t y = Some (h, e) /\ eq e = true
  | None => exists y, x <= y <= z /\ view t y = None /\
      forall w, x <= w < y -> forall e, view t w = Some (h, e) -> eq e = false
  end.
Proof.
  intros Hwf Hz. revert x. induction fuel as [|fuel IH]; intros x Hx; [lia|]. cbn [find_loop].
  pose proof (view_slot t x Hwf) as Hv.
  destruct (s_e (slot_at t (x mod cap t))) as [e|].
  - assert (x <> z) by congruence. rewrite next_mod by done.
    destruct ((s_hash (slot_at t (x mod cap t)) =? h) && eq e) eqn:Hm.
    + b2p. subst h. exists (Some e). split; [done|]. exists x. split_and!; [lia..| |]; done.
    + destruct (IH (x + 1)) as (r & -> & Hr); [lia|]. exists r. split; [done|].
      destruct r as [e'|].
      * destruct Hr as (y & ? & ? & ?). exists y. split_and!; try done; lia.
      * destruct Hr as (y & ? & ? & Hr). exists y. split_and!; try done; try lia.
        intros w Hw e' He'. destruct (decide (w = x)) as [->|]; [|apply (Hr w); [lia|done]].
        rewrite Hv in He'. simplify_eq. rewrite Z.eqb_refl in Hm. done.
  - exists None. split; [done|]. exists x. split_and!; [lia..|done|]. lia.
Qed.

Lemma place_loop_spec t h e fuel x z : table_wf t -> view t z = None ->
  x <= z < x + Z.of_nat fuel ->
  exists y, x <= y <= z /\ view t y = None /\ (forall w, x <= w < y -> view t w <> None) /\
    place_loop fuel t h e (x mod cap t) = Some (set_slot t (y mod cap t) (mkSlot h (Some e))).
Proof.
  intros Hwf Hz. revert x. induction fuel as [|fuel IH]; intros x Hx; [lia|]. cbn [place_loop].
  pose proof (view_slot t x Hwf) as Hv.
  destruct (s_e (slot_at t (x mod cap t))) as [e0|].
  - assert (x <> z) by congruence. rewrite next_mod by done.
    destruct (IH (x + 1)) as (y & ? & ? & Hb & Hr); [lia|]. exists y. split_and!; try done; try lia.
    intros w Hw. destruct (decide (w = x)) as [->|]; [congruence|]. apply Hb. lia.
  - exists x. split_and!; [lia..|done| |done]. lia.
Qed.

Lemma erase_find_spec t e fuel x y h : table_wf t -> view t y = Some (h, e) ->
  (forall w, x <= w < y -> view t w <> None) ->
  x <= y < x + Z.of_nat fuel ->
  exists y' h', x <= y' <= y /\ view t y' = Some (h', e) /\
    erase_find fuel t e (x mod cap t) = Some (Some (y' mod cap t)).
Proof.
  intros Hwf Hy. revert x. induction fuel as [|fuel IH]; intros x Hocc Hx; [lia|].
  cbn [erase_find]. pose proof (view_slot t x Hwf) as Hv.
  destruct (s_e (slot_at t (x mod cap t))) as [e0|].
  - destruct (decide (e0 = e)) as [->|Hne]; [eexists x, _; split_and!; [lia..|exact Hv|done]|].
    assert (x <> y) by congruence. rewrite next_mod by done.
    destruct (IH (x + 1)) as (y' & h' & ? & ? & ?); [intros; apply Hocc; lia|lia|].
    exists y', h'. split_and!; try done; lia.
  - destruct (decide (x = y)) as [->|]; [congruence|]. exfalso. apply (Hocc x); [lia|done].
Qed.

Lemma erase_find_absent t e fuel x z : table_wf t -> view t z = None ->
  (forall w h, view t w <> Some (h, e)) -> x <= z < x + Z.of_nat fuel ->
  erase_find fuel t e (x mod cap t) = Some None.
Proof.
  intros Hwf Hz Hno. revert x. induction fuel as [|fuel IH]; intros x Hx; [lia|].
  cbn [erase_find]. pose proof (view_slot t x Hwf) as Hv.
  destruct (s_e (slot_at t (x mod cap t))) as [e0|]; [|done].
  destruct (decide (e0 = e)) as [->|Hne]; [by destruct (Hno _ _ Hv)|].
  assert (x <> z) by congruence. rewrite next_mod by done. apply IH. lia.
Qed.

(** ** An index under its load limit has an empty slot *)
Lemma table_has_hole t m : table_wf t -> holds (cap t) (view t) m ->
  Z.of_nat (size m) < cap t -> forall x, exists z, x <= z < x + cap t /\ view t z = None.
Proof.
  intros Hwf [Hm Hinj] Hsz x. pose proof (cap_pos t Hwf).
  set (l := seqZ x (cap t)).
  destruct (decide (Forall (fun y => is_Some (view t y)) l)) as [Hall|Hno].
  2:{ apply not_Forall_Exists in Hno; [|apply _]. apply Exists_exists in Hno as (z & Hz & Hn).
      apply elem_of_seqZ in Hz. exists z. split; [lia|]. by apply eq_None_not_Some. }
  exfalso. rewrite Forall_forall in Hall.
  set (g := fun y => match view t y with Some (_, p) => p | None => 1%positive end).
  assert (Hnd : NoDup (g <$> l)).
  { apply NoDup_fmap_2_strong; [|apply NoDup_seqZ]. intros a b Ha Hb Hg.
    destruct (Hall a Ha) as [[ha pa] Ea], (Hall b Hb) as [[hb pb] Eb].
    unfold g in Hg. rewrite Ea, Eb in Hg. subst pb. apply elem_of_seqZ in Ha, Hb.
    pose proof (Hinj a b _ _ _ Ea Eb) as H0. apply mod_zero_window in H0; lia. }
  assert (Hsub : list_to_set (g <$> l) ⊆ dom m).
  { intros p Hp. apply elem_of_list_to_set, list_elem_of_fmap in Hp as (y & -> & Hy).
    destruct (Hall y Hy) as [[h p] E]. unfold g. rewrite E. apply elem_of_dom.
    exists h. apply Hm. by exists y. }
  apply subseteq_size in Hsub. rewrite size_list_to_set, length_fmap in Hsub by done.
  unfold l in Hsub. rewrite length_seqZ, size_dom in Hsub. lia.
Qed.

(** The representative of a slot's index in the probe sequence of [h]. *)
Lemma view_rep t x h : table_wf t -> let w := h + (x - h) mod cap t in
  view t w = view t x /\ h <= w < h + cap t /\ w - (w - h) mod cap t = h.
Proof.
  intros Hwf w. pose proof (cap_pos t Hwf).
  assert (0 <= (x - h) mod cap t < cap t) by (apply Z.mod_pos_bound; lia). subst w. split_and!.
  - apply view_mod; [done|]. replace (h + (x - h) mod cap t - x) with ((x - h) mod cap t - (x - h)) by lia.
    rewrite Zminus_mod_idemp_l, Z.sub_diag. apply Z.mod_0_l. lia.
  - lia.
  - lia.
  - replace (h + (x - h) mod cap t - h) with ((x - h) mod cap t) by lia. rewrite Z.mod_mod by lia. lia.
Qed.

Lemma probe_fuel_cap t : table_wf t -> Z.of_nat (probe_fuel t) = cap t.
Proof. by intros (k & _ & _ & ?). Qed.

Lemma find_refines t m h eq : table_rep t m -> Z.of_nat (size m) < cap t ->
  exists r, find_loop (probe_fuel t) t h eq (home t h) = Some r /\
  match r with
  | Some e => m !! e = Some h /\ eq e = true
  | None => forall e, m !! e = Some h -> eq e = false
  end.
Proof.
  intros (Hwf & Hp & Hh) Hsz. destruct (table_has_hole t m Hwf Hh Hsz h) as (z & Hz & Hnone).
  unfold home. rewrite land_mask by done.
  destruct (find_loop_spec t h eq (probe_fuel t) h z) as (r & -> & Hr);
    [done..|rewrite probe_fuel_cap by done; lia|].
  exists r. split; [done|]. destruct r as [e|].
  - destruct Hr as (y & _ & Hy & ?). split; [|done]. apply Hh. by exists y.
  - destruct Hr as (y & Hyz & Hy & Hr). intros e He. apply Hh in He as [x Hx].
    destruct (view_rep t x h Hwf) as (Hv & Hw & Hd). set (w := h + (x - h) mod cap t) in *.
    destruct (Z.lt_trichotomy w y) as [Hlt|[Heq|Hgt]]; [|rewrite Heq in Hv; congruence|].
    + apply (Hr w); [lia|congruence].
    + exfalso. eapply (Hp w h e y); [congruence| |done]. lia.
Qed.

Lemma place_refines t m h e : table_rep t m -> Z.of_nat (size m) < cap t -> m !! e = None ->
  exists t', place t h e = Some t' /\ table_rep t' (<[e := h]> m) /\ cap t' = cap t.
Proof.
  intros (Hwf & Hp & Hh) Hsz Hfresh. pose proof (cap_pos t Hwf).
  destruct (table_has_hole t m Hwf Hh Hsz h) as (z & Hz & Hnone).
  unfold place, home. rewrite land_mask by done.
  destruct (place_loop_spec t h e (probe_fuel t) h z) as (y & Hyz & Hy & Hocc & ->);
    [done..|rewrite probe_fuel_cap by done; lia|].
  eexists. split; [done|]. split; [|done].
  assert (Hv : forall x, view (set_slot t (y mod cap t) (mkSlot h (Some e))) x =
                         if decide ((x - y) mod cap t = 0) then Some (h, e) else view t x).
  { intros x. rewrite view_set_slot by done. done. }
  assert (Hfree : forall x h', view t x <> Some (h', e)).
  { intros x h' Hx. assert (m !! e = Some h') by (apply Hh; by exists x). congruence. }
  split; [by apply set_slot_wf|]. change (cap (set_slot _ _ _)) with (cap t). split.
  - intros x h' p w. rewrite !Hv. intros Hx Hw.
    destruct (decide ((w - y) mod cap t = 0)) as [|_]; [done|].
    destruct (decide ((x - y) mod cap t = 0)) as [Hc|_]; [|by eapply Hp].
    simplify_eq. apply mod_sub_shift in Hc as [q ->]; [|lia].
    replace (y + 0 + q * cap t - h') with (y - h' + q * cap t) in Hw by lia.
    rewrite Z.mod_add, Z.mod_small in Hw by lia.
    rewrite (view_mod t w (w - q * cap t)); [|done|].
    + apply Hocc. lia.
    + replace (w - (w - q * cap t)) with (q * cap t) by lia. apply Z.mod_mul. lia.
  - split.
    + intros p h'. destruct (decide (p = e)) as [->|Hne].
      * rewrite lookup_insert_eq. split.
        -- intros [= <-]. exists y. rewrite Hv, Z.sub_diag, Z.mod_0_l by lia. done.
        -- intros [x Hx]. rewrite Hv in Hx. case_decide; [congruence|]. by destruct (Hfree x h').
      * rewrite lookup_insert_ne by done. rewrite (proj1 Hh). split.
        -- intros [x Hx]. exists x. rewrite Hv. case_decide as Hc; [|done].
           rewrite (view_mod t x y) in Hx by done. congruence.
        -- intros [x Hx]. exists x. rewrite Hv in Hx. case_decide; congruence.
    + intros x x' h1 h2 p Hx Hx'. rewrite Hv in Hx, Hx'.
      destruct (decide ((x - y) mod cap t = 0)) as [Hc|Hc],
        (decide ((x' - y) mod cap t = 0)) as [Hc'|Hc']; simplify_eq.
      * replace (x - x') with ((x - y) - (x' - y)) by lia.
        rewrite Zminus_mod, Hc, Hc'. apply Z.mod_0_l. lia.
      * by destruct (Hfree x' h2).
      * by destruct (Hfree x h1).
      * by eapply Hh.
Qed.

(** ** Growing *)
Lemma view_emptyTable c x : view (emptyTable c) x = None.
Proof.
  unfold view, slot_at, emptyTable; cbn [slots mask].
  destruct (replicate _ _ !! _) as [s|] eqn:E; [|done].
  apply lookup_replicate_1 in E as [-> _]. done.
Qed.

Lemma emptyTable_rep k : 1 <= k -> table_rep (emptyTable (2 ^ k)) ∅ /\ cap (emptyTable (2 ^ k)) = 2 ^ k.
Proof.
  intros Hk. assert (Hpos : 0 < 2 ^ k) by (apply Z.pow_pos_nonneg; lia).
  assert (Hc : cap (emptyTable (2 ^ k)) = 2 ^ k) by (unfold cap, emptyTable; simpl; lia).
  split; [|done]. split.
  - exists k. rewrite Hc. split_and!; [done..|]. simpl. rewrite length_replicate. lia.
  - split; [intros x h p y Hx; by rewrite view_emptyTable in Hx|]. split.
    + intros p h. rewrite lookup_empty. split; [done|]. intros [x Hx]. by rewrite view_emptyTable in Hx.
    + intros x y h h' p Hx. by rewrite view_emptyTable in Hx.
Qed.

Lemma view_lookup t i s : table_wf t -> slots t !! i = Some s ->
  view t (Z.of_nat i) = match s_e s with Some e => Some (s_hash s, e) | None => None end.
Proof.
  intros Hwf Hs. pose proof (lookup_lt_Some _ _ _ Hs). destruct Hwf as (k & _ & _ & Hl).
  unfold view, slot_at. fold (cap t). rewrite Z.mod_small, Nat2Z.id, Hs by lia. done.
Qed.

Lemma rehash_refines t m l i fresh mi : table_rep t m -> drop i (slots t) = l ->
  table_rep fresh mi ->
  (forall p h, mi !! p = Some h <-> exists x, 0 <= x < Z.of_nat i /\ view t x = Some (h, p)) ->
  (i <= length (slots t))%nat ->
  Z.of_nat (size m) < cap fresh ->
  exists t', rehash l fresh = Some t' /\ table_rep t' m /\ cap t' = cap fresh.
Proof.
  intros (Hwf & Hp & Hh). revert i fresh mi.
  induction l as [|s l IH]; intros i fresh mi Hl Hf Hmi Hi Hsz.
  - exists fresh. split_and!; [done| |done]. replace m with mi; [done|].
    apply map_eq. intros p. apply option_eq. intros h. rewrite Hmi, (proj1 Hh). split.
    + intros (x & _ & ?). by exists x.
    + intros [x Hx]. exists (x mod cap t). pose proof (cap_pos t Hwf).
      pose proof (Z.mod_pos_bound x (cap t) ltac:(lia)).
      assert (length (slots t) = i) by (apply (f_equal length) in Hl; rewrite length_drop in Hl; simpl in Hl; lia).
      assert (Z.of_nat (length (slots t)) = cap t) by (by destruct Hwf as (? & _ & _ & ?)).
      split; [lia|]. rewrite (view_mod t _ x); [done..|].
      rewrite Zminus_mod_idemp_l, Z.sub_diag. apply Z.mod_0_l. lia.
  - assert (Hs : slots t !! i = Some s).
    { rewrite <- (Nat.add_0_r i), <- lookup_drop, Hl. done. }
    assert (Hl' : drop (S i) (slots t) = l) by (by rewrite <- Nat.add_1_r, <- drop_drop, Hl).
    pose proof (lookup_lt_Some _ _ _ Hs). pose proof (view_lookup t i s Hwf Hs) as Hv.
    assert (Hsub : mi ⊆ m).
    { apply map_subseteq_spec. intros p h (x & _ & Hx)%Hmi. apply Hh. by exists x. }
    apply map_subseteq_size in Hsub. cbn [rehash].
    destruct (s_e s) as [e|].
    + assert (Hnew : mi !! e = None).
      { apply eq_None_not_Some. intros [h (x & Hx & Hxe)%Hmi].
        pose proof (proj2 Hh _ _ _ _ _ Hxe Hv) as H0.
        apply mod_zero_window in H0; destruct Hwf as (? & _ & _ & ?); lia. }
      destruct (place_refines fresh mi (s_hash s) e Hf) as (f' & -> & Hf' & Hc); [lia|done|].
      cbn [mbind option_bind]. rewrite <- Hc. eapply (IH (S i)); [done|exact Hf'| |lia|lia].
      intros p h. destruct (decide (p = e)) as [->|Hne].
      * rewrite lookup_insert_eq. split.
        -- intros [= <-]. exists (Z.of_nat i). split; [lia|done].
        -- intros (x & Hx & Hxe). pose proof (proj2 Hh _ _ _ _ _ Hxe Hv) as H0.
           apply mod_zero_window in H0; [|destruct Hwf as (? & _ & _ & ?); lia..].
           assert (x = Z.of_nat i) as -> by lia. congruence.
      * rewrite lookup_insert_ne, Hmi by done. split; intros (x & Hx & Hxe); exists x; (split; [|done]).
        -- lia.
        -- destruct (decide (x = Z.of_nat i)) as [->|]; [congruence|lia].
    + eapply (IH (S i)); [done|exact Hf| |lia|lia].
      intros p h. rewrite Hmi. split; intros (x & Hx & Hxe); exists x; (split; [|done]).
      * lia.
      * destruct (decide (x = Z.of_nat i)) as [->|]; [congruence|lia].
Qed.

(** ** Backward-shift deletion

    While [erase] shifts, slot [i] still holds a stale copy of an entry: the
    table's meaning is its view with a hole at [i]. *)
Definition hview (t : Table) (i x : Z) : option (Z * ptr) :=
  if decide ((x - i) mod cap t = 0) then None else view t x.

(** Probes of the window after the hole cross nothing empty but the hole, and
    those that do cross the hole belong to slots not examined yet. *)
Definition hole_ok (c : Z) (f : Z -> option (Z * ptr)) (i j : Z) : Prop :=
  forall x h p, i < x < i + c -> f x = Some (h, p) ->
    (forall y, x - (x - h) mod c <= y < x -> y <> i -> f y <> None) /\
    (x - (x - h) mod c <= i -> j <= x).

(** The source's [inRange] says whether the probe of [j]'s entry stays clear of
    the hole. *)
Lemma inRange_spec c i j hj : 0 < c -> i < j < i + c ->
  (if i mod c <=? j mod c then (i mod c <? hj mod c) && (hj mod c <=? j mod c)
   else (i mod c <? hj mod c) || (hj mod c <=? j mod c)) = ((j - hj) mod c <? j - i).
Proof.
  intros Hc Hij.
  pose proof (Z.mod_pos_bound i c Hc) as Hi. pose proof (Z.mod_pos_bound j c Hc) as Hj.
  pose proof (Z.mod_pos_bound hj c Hc) as Hh.
  assert (Hd : forall a b, (a - b) mod c = if b mod c <=? a mod c then a mod c - b mod c
                                           else a mod c - b mod c + c).
  { intros a b. pose proof (Z.mod_pos_bound a c Hc). pose proof (Z.mod_pos_bound b c Hc).
    rewrite Zminus_mod. destruct (Z.leb_spec (b mod c) (a mod c)).
    - apply Z.mod_small. lia.
    - rewrite <- (mod_add_period c) by lia. apply Z.mod_small. lia. }
  assert (Hji : j - i = (j - i) mod c) by (symmetry; apply Z.mod_small; lia).
  rewrite Hji, !Hd. rewrite Hd in Hji.
  destruct (Z.leb_spec (i mod c) (j mod c)), (Z.leb_spec (hj mod c) (j mod c)),
    (Z.ltb_spec (i mod c) (hj mod c)); cbn [andb orb]; symmetry;
    first [apply Z.ltb_lt; lia | apply Z.ltb_ge; lia].
Qed.

Lemma hview_period t i x : table_wf t -> hview t i (x + cap t) = hview t i x.
Proof.
  intros Hwf. pose proof (cap_pos t Hwf). unfold hview. rewrite view_period by done.
  replace (x + cap t - i) with (x - i + cap t) by lia. rewrite mod_add_period by lia. done.
Qed.

Lemma hview_far t i x : table_wf t -> i < x < i + cap t -> hview t i x = view t x.
Proof.
  intros Hwf Hx. unfold hview. case_decide as H0; [|done].
  apply mod_zero_window in H0; lia.
Qed.

Lemma hview_shift t i x q : table_wf t -> hview t i (x + q * cap t) = hview t i x.
Proof.
  intros Hwf. pose proof (cap_pos t Hwf). unfold hview.
  replace (x + q * cap t - i) with (x - i + q * cap t) by lia. rewrite Z.mod_add by lia.
  rewrite (view_mod t (x + q * cap t) x); [done..|].
  replace (x + q * cap t - x) with (q * cap t) by lia. apply Z.mod_mul. lia.
Qed.

(** When the scan reaches an empty slot no probe crosses the hole any more. *)
Lemma hole_closed t i j : table_wf t -> i < j < i + cap t -> view t j = None ->
  hole_ok (cap t) (hview t i) i j -> paths (cap t) (hview t i).
Proof.
  intros Hwf Hij Hj Hok x h p y Hx Hy. pose proof (cap_pos t Hwf).
  set (x0 := i + (x - i) mod cap t).
  assert (Hx0 : exists q, x = x0 + q * cap t).
  { destruct (mod_sub_shift (cap t) x i _ ltac:(lia) eq_refl) as [q Hq]. by exists q. }
  destruct Hx0 as [q Hq]. pose proof (Z.mod_pos_bound (x - i) (cap t) ltac:(lia)).
  rewrite Hq, hview_shift in Hx by done.
  assert (x0 <> i) by (intros E; rewrite E in Hx; unfold hview in Hx; rewrite Z.sub_diag, Z.mod_0_l in Hx by lia; done).
  destruct (Hok x0 h p) as [Hpath Hcross]; [lia|done|].
  replace ((x - h) mod cap t) with ((x0 - h) mod cap t) in Hy.
  2:{ rewrite Hq. replace (x0 + q * cap t - h) with (x0 - h + q * cap t) by lia.
      rewrite Z.mod_add by lia. done. }
  rewrite <- (Z.sub_add (q * cap t) y), hview_shift by done.
  assert (Hno : i < x0 - (x0 - h) mod cap t).
  { destruct (Z.lt_ge_cases i (x0 - (x0 - h) mod cap t)) as [|Hle]; [done|exfalso].
    assert (x0 <> j) by (intros ->; rewrite hview_far in Hx by done; congruence).
    eapply (Hpath j); [|lia|rewrite hview_far by done; done]. specialize (Hcross Hle). lia. }
  apply Hpath; lia.
Qed.

Section move.
Context (t : Table) (i j : Z) (hj : Z) (ej : ptr).
Hypothesis Hwf : table_wf t.
Hypothesis Hij : i < j < i + cap t.
Hypothesis Hj : view t j = Some (hj, ej).

Definition moved : Table := set_slot t (i mod cap t) (mkSlot hj (Some ej)).

Lemma hview_moved x : hview moved j x =
  if decide ((x - j) mod cap t = 0) then None
  else if decide ((x - i) mod cap t = 0) then Some (hj, ej) else hview t i x.
Proof using Hwf.
  unfold hview, moved. change (cap (set_slot _ _ _)) with (cap t).
  rewrite view_set_slot by done. repeat case_decide; done.
Qed.

(** The three regions of the window after the new hole [j]: slots after [j] up
    to the old hole's next period, the moved entry, and slots examined before. *)
Lemma hview_moved_window y : j - cap t < y < j + cap t -> y <> j ->
  hview moved j y = if decide (y = i \/ y = i + cap t) then Some (hj, ej) else hview t i y.
Proof using Hwf Hij.
  intros Hy Hne. rewrite hview_moved. rewrite (decide_False (P := (y - j) mod cap t = 0)).
  2:{ intros H0. apply mod_zero_window in H0; lia. }
  destruct (decide (y = i \/ y = i + cap t)) as [Hd|Hd].
  - rewrite decide_True; [done|]. pose proof (cap_pos t Hwf). destruct Hd as [-> | ->].
    + rewrite Z.sub_diag. apply Z.mod_0_l. lia.
    + replace (i + cap t - i) with (0 + cap t) by lia. rewrite mod_add_period by lia. apply Z.mod_0_l. lia.
  - rewrite decide_False; [done|]. intros H0. apply Hd. apply mod_zero_window2 in H0; lia.
Qed.

Lemma hole_ok_moved : hole_ok (cap t) (hview t i) i j -> j - i <= (j - hj) mod cap t ->
  hole_ok (cap t) (hview moved j) j (j + 1).
Proof using Hwf Hij Hj.
  intros Hok Hcr x h p Hx Hf. split; [|lia]. intros y Hy Hne. pose proof (cap_pos t Hwf).
  pose proof (Z.mod_pos_bound (x - h) (cap t) ltac:(lia)).
  rewrite hview_moved_window in Hf by lia. rewrite hview_moved_window by lia.
  destruct (decide (y = i \/ y = i + cap t)) as [|Hny]; [done|].
  destruct (Z.lt_trichotomy x (i + cap t)) as [Hlt|[->|Hgt]].
  - rewrite decide_False in Hf by lia. apply (Hok x h p); [lia|done|lia|lia].
  - rewrite decide_True in Hf by lia. simplify_eq.
    assert (Hd : (i + cap t - h) mod cap t = (j - h) mod cap t - (j - i)).
    { pose proof (Z.mod_pos_bound (j - h) (cap t) ltac:(lia)).
      replace (i + cap t - h) with (i - h + cap t) by lia. rewrite mod_add_period by lia.
      replace (i - h) with ((j - h) - (j - i)) by lia. rewrite <- Zminus_mod_idemp_l.
      apply Z.mod_small. lia. }
    rewrite <- (Z.sub_add (cap t) y), hview_period by done.
    apply (Hok j h p); [lia|by rewrite hview_far|lia|lia].
  - rewrite decide_False in Hf by lia. rewrite <- (Z.sub_add (cap t) x), hview_period in Hf by done.
    replace ((x - h) mod cap t) with ((x - cap t - h) mod cap t) in Hy.
    2:{ rewrite <- (mod_add_period (cap t) (x - cap t - h)) by lia. f_equal. lia. }
    destruct (Hok (x - cap t) h p) as [Hpath Hcross]; [lia|done|].
    rewrite <- (Z.sub_add (cap t) y), hview_period by done. apply Hpath; lia.
Qed.

Lemma holds_moved m : holds (cap t) (hview t i) m -> holds (cap t) (hview moved j) m.
Proof using Hwf Hij Hj.
  intros [Hm Hinj]. pose proof (cap_pos t Hwf).
  assert (Hji : hview t i j = Some (hj, ej)) by (by rewrite hview_far).
  assert (Hback : forall x h p, hview moved j x = Some (h, p) ->
            exists x0, hview t i x0 = Some (h, p) /\
              ((x - i) mod cap t = 0 /\ x0 = j \/ (x - i) mod cap t <> 0 /\ x0 = x)).
  { intros x h p. rewrite hview_moved. repeat case_decide; intros; simplify_eq; eauto 6. }
  split.
  - intros p h. rewrite Hm. split; intros [x Hx].
    + destruct (decide ((x - j) mod cap t = 0)) as [H0|H0].
      * exists i. rewrite hview_moved.
        rewrite decide_False by (intros Hz; apply mod_zero_window in Hz; lia).
        rewrite decide_True by (rewrite Z.sub_diag; apply Z.mod_0_l; lia).
        destruct (mod_sub_shift (cap t) x j 0 ltac:(lia) H0) as [q ->].
        rewrite Z.add_0_r, hview_shift in Hx by done. congruence.
      * exists x. rewrite hview_moved, decide_False by done.
        destruct (decide ((x - i) mod cap t = 0)) as [H1|]; [|done].
        unfold hview in Hx. rewrite decide_True in Hx by done. done.
    + destruct (Hback x h p Hx) as (x0 & ? & _). by exists x0.
  - intros x y h h' p Hx Hy. destruct (Hback _ _ _ Hx) as (x0 & Hx0 & Hcx).
    destruct (Hback _ _ _ Hy) as (y0 & Hy0 & Hcy). pose proof (Hinj _ _ _ _ _ Hx0 Hy0) as H0.
    rewrite hview_moved in Hx, Hy.
    destruct Hcx as [[Hxi ->]|[Hxi ->]], Hcy as [[Hyi ->]|[Hyi ->]]; [|..|done].
    + replace (x - y) with ((x - i) - (y - i)) by lia. rewrite Zminus_mod, Hxi, Hyi. apply Z.mod_0_l. lia.
    + destruct (decide ((y - j) mod cap t = 0)) as [|Hn]; [done|]. exfalso; apply Hn.
      replace (y - j) with (- (j - y)) by lia. apply Z.mod_opp_l_z; lia.
    + destruct (decide ((x - j) mod cap t = 0)); [done|]. done.
Qed.
End move.

Lemma erase_shift_refines fuel t i j z m : table_wf t -> i < j <= z -> z < i + cap t ->
  view t z = None -> z - j < Z.of_nat fuel ->
  hole_ok (cap t) (hview t i) i j -> holds (cap t) (hview t i) m ->
  exists t', erase_shift fuel t (i mod cap t) (j mod cap t) = Some t' /\
    table_rep t' m /\ cap t' = cap t.
Proof.
  revert t i j. induction fuel as [|fuel IH]; intros t i j Hwf Hij Hzi Hz Hfuel Hok Hh; [lia|].
  pose proof (cap_pos t Hwf). cbn [erase_shift]. pose proof (view_slot t j Hwf) as Hv.
  destruct (s_e (slot_at t (j mod cap t))) as [ej|].
  - set (hj := s_hash _) in *. assert (j <> z) by congruence.
    unfold home. rewrite land_mask, inRange_spec, next_mod by (done || lia).
    destruct (Z.ltb_spec ((j - hj) mod cap t) (j - i)) as [Hin|Hout].
    + apply IH; try done; try lia. intros x h p Hx Hf. destruct (Hok x h p Hx Hf) as [H1 H2].
      split; [done|]. intros Hle. specialize (H2 Hle).
      enough (x <> j) by lia. intros ->. rewrite hview_far, Hv in Hf by (done || lia). simplify_eq. lia.
    + change (cap t) with (cap (moved t i hj ej)).
      apply (IH (moved t i hj ej)); try done; try lia.
      * by apply set_slot_wf.
      * change (cap (moved t i hj ej)) with (cap t). lia.
      * unfold moved. rewrite view_set_slot by done. rewrite decide_False; [done|].
        intros Hz0. apply mod_zero_window in Hz0; lia.
      * change (cap (moved t i hj ej)) with (cap t). apply hole_ok_moved; [done|lia|done..|lia].
      * change (cap (moved t i hj ej)) with (cap t). apply holds_moved; [done|lia|done..].
  - eexists. split; [done|]. split; [|done].
    set (t' := set_slot _ _ _). assert (Hv' : forall x, view t' x = hview t i x).
    { intros x. unfold t', hview. rewrite view_set_slot by done. done. }
    split; [by apply set_slot_wf|]. change (cap t') with (cap t).
    pose proof (hole_closed t i j Hwf ltac:(lia) Hv Hok) as Hp. split.
    + intros x h p y. rewrite !Hv'. apply Hp.
    + destruct Hh as [H1 H2]. split.
      * intros p h. rewrite H1. split; intros [x Hx]; exists x; [by rewrite Hv'|by rewrite <- Hv'].
      * intros x y h h' p. rewrite !Hv'. apply H2.
Qed.

(** The slot of an entry becomes the hole: what is left is the map without it. *)
Lemma hole_start t m i h e : table_rep t m -> view t i = Some (h, e) ->
  hole_ok (cap t) (hview t i) i (i + 1) /\ holds (cap t) (hview t i) (delete e m).
Proof.
  intros (Hwf & Hp & Hm & Hinj) Hi. pose proof (cap_pos t Hwf). split.
  - intros x h' p Hx Hf. split; [|lia]. intros y Hy Hne.
    pose proof (Z.mod_pos_bound (x - h') (cap t) ltac:(lia)).
    rewrite hview_far in Hf by done. unfold hview. rewrite decide_False; [by eapply Hp|].
    intros Hz. apply mod_zero_window in Hz; lia.
  - split.
    + intros p h'. rewrite lookup_delete_Some, Hm. split.
      * intros [Hne [x Hx]]. exists x. unfold hview. rewrite decide_False; [done|].
        intros Hz. rewrite (view_mod t x i) in Hx by done. congruence.
      * intros [x Hx]. unfold hview in Hx. case_decide as Hz; [done|]. split; [|by exists x].
        intros ->. apply Hz. by eapply Hinj.
    + intros x y h1 h2 p Hx Hy. unfold hview in *. repeat case_decide; simplify_eq. by eapply Hinj.
Qed.

Lemma erase_refines t m h e : table_rep t m -> Z.of_nat (size m) < cap t -> m !! e = Some h ->
  exists i t', erase_find (probe_fuel t) t e (home t h) = Some (Some i) /\
    erase_shift (probe_fuel t) t i (next t i) = Some t' /\
    table_rep t' (delete e m) /\ cap t' = cap t.
Proof.
  intros Hrep Hsz He. pose proof Hrep as (Hwf & Hp & Hh). pose proof (cap_pos t Hwf).
  pose proof (probe_fuel_cap t Hwf) as Hfuel. apply Hh in He as [x Hx].
  destruct (view_rep t x h Hwf) as (Hv & Hw & Hd). set (w := h + (x - h) mod cap t) in *.
  rewrite Hx in Hv. unfold home. rewrite land_mask by done.
  destruct (erase_find_spec t e (probe_fuel t) h w h Hwf Hv) as (y & h' & Hy & Hye & ->); [|lia|].
  { intros v Hvw. eapply Hp; [exact Hv|]. lia. }
  destruct (hole_start t m y h' e Hrep Hye) as [Hok Hhold].
  destruct (table_has_hole t m Hwf Hh Hsz y) as (z & Hz & Hzn).
  assert (z <> y) by congruence.
  destruct (erase_shift_refines (probe_fuel t) t y (y + 1) z (delete e m)) as (t' & Hs & Hrep' & Hc);
    [done|lia|lia|done|lia|done|done|].
  exists (y mod cap t), t'. rewrite next_mod by done. done.
Qed.

(** ** The index *)
Lemma index_room fi m t old : index_rep fi m -> tables fi = t :: old ->
  Z.of_nat (size m) < cap t.
Proof. intros [Hc Hrep] Ht. rewrite Ht in Hrep. lia. Qed.

Lemma empty_rep : index_rep emptyIndex ∅.
Proof. done. Qed.

Lemma grow_refines fi m : index_rep fi m ->
  exists t old, grow fi = Some (mkFlatIndex (t :: old) (count fi)) /\ table_rep t m /\
    10 < cap t /\ (count fi + 1) * 10 <= cap t * 7 /\ foldr (fun t s => cap t + s) 0 old < cap t.
Proof.
  intros [Hc Hrep]. unfold grow. destruct (tables fi) as [|t0 old] eqn:Ht.
  - subst m. destruct (emptyTable_rep 10) as [He Hcap]; [lia|]. change (2 ^ 10) with kFirstCap in *.
    eexists _, []. split; [done|]. unfold kFirstCap in *. rewrite Hcap, Hc, map_size_empty. simpl.
    split_and!; [done|lia..].
  - destruct Hrep as (Ht0 & Hload & H10 & Hret). pose proof Ht0 as ((k & Hk & Hk2 & Hl) & _).
    replace ((mask t0 + 1) * 2) with (2 ^ (k + 1)) by (rewrite Z.pow_add_r, <- Hk2 by lia; done).
    destruct (emptyTable_rep (k + 1)) as [He Hcap]; [lia|].
    assert (H2k : 2 ^ (k + 1) = 2 * cap t0) by (rewrite Z.pow_add_r, Hk2 by lia; lia).
    destruct (rehash_refines t0 m (slots t0) 0 (emptyTable (2 ^ (k + 1))) ∅) as (t' & -> & Hr & Hcap');
      [done..| |lia|lia|].
    { intros p h. rewrite lookup_empty. split; [done|]. intros (x & Hx & _). lia. }
    cbn [mbind option_bind]. eexists _, _. split; [done|]. split; [done|]. simpl. lia.
Qed.

Lemma insert_refines fi m h e : index_rep fi m -> m !! e = None ->
  exists fi', insert fi h e = Some fi' /\ index_rep fi' (<[e := h]> m).
Proof.
  intros Hrep Hfresh. unfold insert.
  assert (Hpre : exists t old, (if needs_grow fi then grow fi else Some fi) =
      Some (mkFlatIndex (t :: old) (count fi)) /\ table_rep t m /\ 10 < cap t /\
      (count fi + 1) * 10 <= cap t * 7 /\ foldr (fun t s => cap t + s) 0 old < cap t).
  { destruct (needs_grow fi) eqn:Hg; [by apply grow_refines|].
    unfold needs_grow in Hg. destruct Hrep as [Hc Hrep]. destruct fi as [[|t old] n]; [done|].
    simpl in *. b2p. exists t, old. unfold cap in *. split_and!; [done|tauto|lia..]. }
  destruct Hpre as (t & old & -> & Ht & H10 & Hload & Hret). cbn [mbind option_bind tables count].
  destruct Hrep as [Hc _].
  destruct (place_refines t m h e Ht) as (t' & -> & Ht' & Hcap); [lia|done|].
  cbn [mbind option_bind]. eexists. split; [done|].
  unfold index_rep; cbn [tables count]. rewrite map_size_insert_None by done.
  rewrite Hcap. split_and!; [lia|done|lia..].
Qed.

Lemma erase_index_refines fi m h e : index_rep fi m -> m !! e = Some h ->
  exists fi', erase fi h e = Some fi' /\ index_rep fi' (delete e m).
Proof.
  intros Hrep He. unfold erase. destruct (tables fi) as [|t old] eqn:Ht.
  - destruct Hrep as [_ Hrep]. rewrite Ht in Hrep. subst m. by rewrite lookup_empty in He.
  - pose proof (index_room fi m t old Hrep Ht) as Hsz. destruct Hrep as [Hc Hrep].
    rewrite Ht in Hrep. destruct Hrep as (Hrep & Hload & H10 & Hret).
    destruct (erase_refines t m h e Hrep Hsz He) as (i & t' & -> & Hs & Hr & Hcap).
    cbn [mbind option_bind]. rewrite Hs. cbn [mbind option_bind]. eexists. split; [done|].
    unfold index_rep; cbn [tables count]. rewrite map_size_delete_Some by eauto.
    assert (0 < size m)%nat. { apply Nat.neq_0_lt_0. intros H0%map_size_empty_iff. subst. by rewrite lookup_empty in He. }
    rewrite Hcap. split_and!; [lia|done|lia..].
Qed.

Lemma find_index_refines fi m h eq : index_rep fi m ->
  exists r, find fi h eq = Some r /\
  match r with
  | Some e => m !! e = Some h /\ eq e = true
  | None => forall e, m !! e = Some h -> eq e = false
  end.
Proof.
  intros Hrep. unfold find. destruct (tables fi) as [|t old] eqn:Ht.
  - exists None. split; [done|]. intros e He. destruct Hrep as [_ Hrep]. rewrite Ht in Hrep.
    subst m. by rewrite lookup_empty in He.
  - apply find_refines; [|by eapply index_room].
    destruct Hrep as [_ Hrep]. rewrite Ht in Hrep. tauto.
Qed.

Lemma erase_index_absent fi m h e : index_rep fi m -> m !! e = None -> erase fi h e = Some fi.
Proof.
  intros Hrep He. unfold erase. destruct (tables fi) as [|t old] eqn:Ht; [done|].
  pose proof (index_room fi m t old Hrep Ht) as Hsz. destruct Hrep as [_ Hrep].
  rewrite Ht in Hrep. destruct Hrep as ((Hwf & Hp & Hh) & _).
  destruct (table_has_hole t m Hwf Hh Hsz h) as (z & Hz & Hzn).
  unfold home. rewrite land_mask by done.
  rewrite (erase_find_absent t e (probe_fuel t) h z); [done..| |rewrite probe_fuel_cap by done; lia].
  intros w h' Hw. assert (m !! e = Some h') by (apply Hh; by exists w). congruence.
Qed.

(** ** Whole runs *)
Inductive index_op :=
  | IdxInsert (h : Z) (e : ptr)
  | IdxErase (h : Z) (e : ptr).

Definition run_op (fi : FlatIndex) (op : index_op) : option FlatIndex :=
  match op with
  | IdxInsert h e => insert fi h e
  | IdxErase h e => erase fi h e
  end.

(** The map an operation leaves; [None] when the caller breaks the contract
    (inserting a pointer twice, erasing under another hash). *)
Definition spec_op (m : gmap ptr Z) (op : index_op) : option (gmap ptr Z) :=
  match op with
  | IdxInsert h e => match m !! e with None => Some (<[e := h]> m) | Some _ => None end
  | IdxErase h e =>
      match m !! e with
      | Some h' => if h =? h' then Some (delete e m) else None
      | None => Some m
      end
  end.

Fixpoint run_ops (fi : FlatIndex) (ops : list index_op) : option FlatIndex :=
  match ops with [] => Some fi | op :: ops' => fi' ← run_op fi op; run_ops fi' ops' end.
Fixpoint spec_ops (m : gmap ptr Z) (ops : list index_op) : option (gmap ptr Z) :=
  match ops with [] => Some m | op :: ops' => m' ← spec_op m op; spec_ops m' ops' end.

Lemma run_op_refines fi m op m' : index_rep fi m -> spec_op m op = Some m' ->
  exists fi', run_op fi op = Some fi' /\ index_rep fi' m'.
Proof.
  intros Hrep. destruct op as [h e|h e]; simpl; intros Hs.
  - destruct (m !! e) eqn:He; simplify_eq. by apply insert_refines.
  - destruct (m !! e) as [h'|] eqn:He; simplify_eq.
    + destruct (Z.eqb_spec h h'); simplify_eq. by apply erase_index_refines.
    + exists fi. split; [by eapply erase_index_absent|done].
Qed.

Lemma run_ops_refines ops fi m m' : index_rep fi m -> spec_ops m ops = Some m' ->
  exists fi', run_ops fi ops = Some fi' /\ index_rep fi' m'.
Proof.
  revert fi m. induction ops as [|op ops IH]; intros fi m Hrep Hs; simpl in *; [simplify_eq; eauto|].
  destruct (spec_op m op) as [m1|] eqn:Hop; [|done].
  destruct (run_op_refines fi m op m1 Hrep Hop) as (fi1 & -> & Hrep1). by eapply IH.
Qed.

(** C20: whatever sequence of insertions and erasures the cache performs, every
    probe loop ends, the index holds exactly the entries the map of those
    operations holds, a lookup finds an entry of that hash the caller accepts
    if there is one and reports absence only if there is none, and the tables
    retired by growing together hold fewer slots than the live one. *)
Theorem flat_index_refines_map ops m : spec_ops ∅ ops = Some m ->
  exists fi, run_ops emptyIndex ops = Some fi /\
    count fi = Z.of_nat (size m) /\
    (forall h eq, exists r, find fi h eq = Some r /\
      match r with
      | Some e => m !! e = Some h /\ eq e = true
      | None => forall e, m !! e = Some h -> eq e = false
      end) /\
    foldr (fun t s => cap t + s) 0 (tail (tables fi)) <
      match tables fi with t :: _ => cap t | [] => 1 end.
Proof.
  intros Hs. destruct (run_ops_refines ops emptyIndex ∅ m empty_rep Hs) as (fi & Hr & Hrep).
  exists fi. split; [done|]. split; [apply Hrep|]. split.
  - intros h eq. by apply find_index_refines.
  - destruct Hrep as [_ Hrep]. destruct (tables fi) as [|t old]; simpl; [lia|tauto].
Qed.

(** Three entries in one cluster that wraps around the table's end, the first
    erased: the others are pulled back across the wrap. *)
Definition wrap_ops : list index_op :=
  [IdxInsert 1023 1%positive; IdxInsert 2047 2%positive; IdxInsert 1023 3%positive;
   IdxErase 1023 1%positive].
Definition wrap_map : gmap ptr Z := <[3%positive := 1023]> {[2%positive := 2047]}.

Lemma flat_index_refines_map_witness :
  exists fi, run_ops emptyIndex wrap_ops = Some fi /\ count fi = 2 /\
    exists r, find fi 1023 (fun e => Pos.eqb e 3) = Some r /\
      match r with
      | Some e => wrap_map !! e = Some 1023 /\ Pos.eqb e 3 = true
      | None => forall e, wrap_map !! e = Some 1023 -> Pos.eqb e 3 = false
      end.
Proof.
  destruct (flat_index_refines_map wrap_ops wrap_map eq_refl) as (fi & H1 & H2 & H3 & _).
  exists fi. split; [exact H1|]. split; [exact H2|]. apply H3.
Defined.

(** The same run evaluated. *)
Example erase_pulls_back :
  (fi ← run_ops emptyIndex wrap_ops; find fi 1023 (fun e => Pos.eqb e 3)) =
  Some (Some 3%positive).
Proof. vm_compute. reflexivity. Qed.
