(* ===== verification/Fifo.v ===== *)
(** * Fifo: cache entries and the intrusive queues (server/cache/s3fifo_cache.cc)

    [Entry] is the heap object of the cache and [Fifo] the doubly linked queue
    threaded through its [prev]/[next] fields.  The heap maps addresses to
    entries; a dereference of an address that is not in the heap (null, freed)
    is [None], so a theorem that an operation returns [Some] is also a theorem
    that it touches only live entries.

    [fifo_rep h q l]: in heap [h] the queue [q] is the list [l], head first.
    [pushHead], [remove] and [popTail] refine cons, deletion and removal of the
    last element. *)
From stdpp Require Import prelude gmap list.
From Stdlib Require Import ZArith Lia.
From S2P Require Import Prelude.
Open Scope Z_scope.

Inductive Queue := kSmall | kMain.
#[export] Instance Queue_eq_dec : EqDecision Queue.
Proof. solve_decision. Defined.

Definition kMapSlotOverhead : Z := 24.
Definition kSmallPercent : Z := 10.
Definition kMaxFreq : Z := 3.
(** [sizeof(Entry)], asserted by the source, and [sizeof(Ext)]. *)
Definition kSizeofEntry : Z := 56.
Definition kSizeofExt : Z := 16.

(** [e_shared] is the capacity of the shared request buffer, for an entry whose
    value stays in one ([shared], [ext()->buf->capacity()]).  Key and value
    lengths come from a 32-bit body length, so the [uint32_t] casts of
    [keyLen]/[valLen] are exact and the lengths are those of the byte lists. *)
Record Entry := mkEntry {
  e_prev : option ptr;
  e_next : option ptr;
  e_seqno : Z;
  e_flags : Z;
  e_expiry : Z;
  e_pending : Z;
  e_vbid : Z;
  e_datatype : Z;
  e_deleted : bool;
  e_freq : Z;
  e_queue : Queue;
  e_shared : option Z;
  e_key : list Z;
  e_value : list Z;
}.

Definition set_prev (v : option ptr) (e : Entry) : Entry :=
  mkEntry v (e_next e) (e_seqno e) (e_flags e) (e_expiry e) (e_pending e) (e_vbid e)
    (e_datatype e) (e_deleted e) (e_freq e) (e_queue e) (e_shared e) (e_key e) (e_value e).
Definition set_next (v : option ptr) (e : Entry) : Entry :=
  mkEntry (e_prev e) v (e_seqno e) (e_flags e) (e_expiry e) (e_pending e) (e_vbid e)
    (e_datatype e) (e_deleted e) (e_freq e) (e_queue e) (e_shared e) (e_key e) (e_value e).
Definition set_seqno (v : Z) (e : Entry) : Entry :=
  mkEntry (e_prev e) (e_next e) v (e_flags e) (e_expiry e) (e_pending e) (e_vbid e)
    (e_datatype e) (e_deleted e) (e_freq e) (e_queue e) (e_shared e) (e_key e) (e_value e).
Definition set_pending (v : Z) (e : Entry) : Entry :=
  mkEntry (e_prev e) (e_next e) (e_seqno e) (e_flags e) (e_expiry e) v (e_vbid e)
    (e_datatype e) (e_deleted e) (e_freq e) (e_queue e) (e_shared e) (e_key e) (e_value e).
Definition set_freq (v : Z) (e : Entry) : Entry :=
  mkEntry (e_prev e) (e_next e) (e_seqno e) (e_flags e) (e_expiry e) (e_pending e) (e_vbid e)
    (e_datatype e) (e_deleted e) v (e_queue e) (e_shared e) (e_key e) (e_value e).
Definition set_queue (v : Queue) (e : Entry) : Entry :=
  mkEntry (e_prev e) (e_next e) (e_seqno e) (e_flags e) (e_expiry e) (e_pending e) (e_vbid e)
    (e_datatype e) (e_deleted e) (e_freq e) v (e_shared e) (e_key e) (e_value e).

(** vbid || key, as the entry stores it and as [MapKeyBuf] builds it. *)
Definition MapKeyBuf (vbid : Z) (key : list Z) : list Z := le_bytes 2 vbid ++ key.
Definition mapKey (e : Entry) : list Z := MapKeyBuf (e_vbid e) (e_key e).

Definition charge (e : Entry) : Z :=
  kSizeofEntry + 2 + Z.of_nat (length (e_key e)) +
  match e_shared e with
  | Some capacity => kSizeofExt + capacity
  | None => Z.of_nat (length (e_value e))
  end + kMapSlotOverhead.

Definition create (vbid : Z) (key value : list Z) (seqno flags expiry datatype : Z)
    (deleted : bool) : Entry :=
  mkEntry None None seqno flags expiry 0 vbid datatype deleted 0 kSmall None key value.

(** [capacity] is that of [owner]'s buffer, in which [value] lies. *)
Definition createShared (vbid : Z) (key value : list Z) (capacity flags expiry datatype : Z)
    (deleted : bool) : Entry :=
  mkEntry None None 0 flags expiry 0 vbid datatype deleted 0 kSmall (Some capacity) key value.

(** Where a shared entry's [Ext] record sits after the key. *)
Definition extOffset (keyLen : Z) : Z :=
  let end_ := 2 + keyLen in Z.land (end_ + 8 - 1) (Z.lnot (8 - 1)).

Abbreviation heap := (gmap ptr Entry).

Record Fifo := mkFifo {
  head : option ptr;
  tail : option ptr;
  bytes : Z;
  fcount : Z;
}.

Definition emptyFifo : Fifo := mkFifo None None 0 0.

Definition pushHead (h : heap) (q : Fifo) (p : ptr) : option (heap * Fifo) :=
  e ← h !! p;
  let h := <[p := set_next (head q) (set_prev None e)]> h in
  '(h, tail') ← match head q with
                | Some hd => ehd ← h !! hd; Some (<[hd := set_prev (Some p) ehd]> h, tail q)
                | None => Some (h, Some p)
                end;
  Some (h, mkFifo (Some p) tail' (bytes q + charge e) (fcount q + 1)).

Definition remove (h : heap) (q : Fifo) (p : ptr) : option (heap * Fifo) :=
  e ← h !! p;
  '(h, head') ← match e_prev e with
                | Some pp => ep ← h !! pp; Some (<[pp := set_next (e_next e) ep]> h, head q)
                | None => Some (h, e_next e)
                end;
  '(h, tail') ← match e_next e with
                | Some nn => en ← h !! nn; Some (<[nn := set_prev (e_prev e) en]> h, tail q)
                | None => Some (h, e_prev e)
                end;
  e' ← h !! p;
  Some (<[p := set_next None (set_prev None e')]> h,
        mkFifo head' tail' (bytes q - charge e) (fcount q - 1)).

(** [None] inside when the queue is empty. *)
Definition popTail (h : heap) (q : Fifo) : option (heap * Fifo * option ptr) :=
  match tail q with
  | Some p => '(h, q) ← remove h q p; Some (h, q, Some p)
  | None => Some (h, q, None)
  end.

(** ** Representation *)

(** An entry without its links: what the queues do not change. *)
Definition strip (e : Entry) : Entry := set_prev None (set_next None e).

(** Element [i] of the list is linked to elements [i-1] and [i+1]. *)
Definition prev_of (l : list ptr) (i : nat) : option ptr :=
  match i with O => None | S j => l !! j end.

Definition linked (h : heap) (l : list ptr) : Prop :=
  forall i p, l !! i = Some p ->
    exists e, h !! p = Some e /\ e_prev e = prev_of l i /\ e_next e = l !! S i.

Definition chargeOf (h : heap) (p : ptr) : Z :=
  match h !! p with Some e => charge e | None => 0 end.
Definition sumZ (l : list Z) : Z := foldr Z.add 0 l.

Definition fifo_rep (h : heap) (q : Fifo) (l : list ptr) : Prop :=
  NoDup l /\ linked h l /\ head q = list.head l /\ tail q = last l /\
  fcount q = Z.of_nat (length l) /\ bytes q = sumZ (chargeOf h <$> l).

(** Only links changed, and no address appeared or disappeared. *)
Definition links_only (h h' : heap) : Prop := strip <$> h' = strip <$> h.

#[export] Instance links_only_refl : Reflexive links_only.
Proof. done. Qed.
#[export] Instance links_only_trans : Transitive links_only.
Proof. unfold links_only. congruence. Qed.

Lemma links_only_insert h p e e' : h !! p = Some e -> strip e' = strip e ->
  links_only h (<[p := e']> h).
Proof.
  intros Hp He. unfold links_only. rewrite fmap_insert, He, <- fmap_insert, insert_id by done. done.
Qed.

Lemma links_only_set h0 h p e e' : links_only h0 h -> h !! p = Some e -> strip e' = strip e ->
  links_only h0 (<[p := e']> h).
Proof. intros ? Hp He. etransitivity; [done|]. by apply (links_only_insert h p e). Qed.

Lemma links_only_lookup h h' p e : links_only h h' -> h !! p = Some e ->
  exists e', h' !! p = Some e' /\ strip e' = strip e.
Proof.
  intros Hl Hp. assert (Hs : (strip <$> h') !! p = Some (strip e)).
  { rewrite Hl, lookup_fmap, Hp. done. }
  rewrite lookup_fmap in Hs. destruct (h' !! p) as [e'|]; [|done].
  exists e'. split; [done|]. by apply (inj Some) in Hs.
Qed.

Lemma strip_charge e e' : strip e' = strip e -> charge e' = charge e.
Proof. destruct e, e'; unfold strip, charge; simpl; intros [=]; subst; done. Qed.

Lemma chargeOf_Some h p e : h !! p = Some e -> chargeOf h p = charge e.
Proof. unfold chargeOf. intros ->. done. Qed.

Lemma chargeOf_links h h' p : links_only h h' -> chargeOf h' p = chargeOf h p.
Proof.
  intros Hl. unfold chargeOf.
  assert (Hs : (strip <$> h') !! p = (strip <$> h) !! p) by (by rewrite Hl).
  rewrite !lookup_fmap in Hs. destruct (h' !! p), (h !! p); try done.
  apply strip_charge. by apply (inj Some) in Hs.
Qed.

Lemma sum_links h h' l : links_only h h' -> sumZ (chargeOf h' <$> l) = sumZ (chargeOf h <$> l).
Proof.
  intros Hl. f_equal. apply list_fmap_ext. intros i p _. by apply chargeOf_links.
Qed.

Lemma sumZ_app l k : sumZ (l ++ k) = sumZ l + sumZ k.
Proof. induction l as [|x l IH]; simpl; [lia|]. unfold sumZ in *. simpl. lia. Qed.

(** A queue is not affected by changes outside it. *)
Lemma fifo_frame h h' q l : fifo_rep h q l -> (forall p, p ∈ l -> h' !! p = h !! p) ->
  fifo_rep h' q l.
Proof.
  intros (Hnd & Hl & Hhd & Htl & Hc & Hb) Hf.
  assert (Hs : chargeOf h' <$> l = chargeOf h <$> l).
  { apply list_fmap_ext. intros i p Hi. unfold chargeOf. rewrite Hf; [done|].
    by eapply list_elem_of_lookup_2. }
  split_and!; try done; [|by rewrite Hs].
  intros i p Hi. rewrite Hf by (by eapply list_elem_of_lookup_2). by apply Hl.
Qed.

Lemma NoDup_lookup_ne {A} (l : list A) i j x y : NoDup l -> l !! i = Some x -> l !! j = Some y ->
  i <> j -> x <> y.
Proof. intros Hnd Hi Hj Hne ->. apply Hne. by eapply NoDup_lookup. Qed.

Lemma linked_push h l p e : linked h l -> NoDup (p :: l) ->
  let h1 := <[p := set_next (list.head l) (set_prev None e)]> h in
  linked (match l with
          | [] => h1
          | hd :: _ => match h !! hd with
                       | Some ehd => <[hd := set_prev (Some p) ehd]> h1
                       | None => h1
                       end
          end) (p :: l).
Proof.
  intros Hl Hnd h1 i r Hi. inversion Hnd as [|? ? Hp Hnd']; subst.
  destruct i as [|i]; simplify_eq/=.
  - destruct l as [|hd l]; simpl.
    + exists (set_next None (set_prev None e)). subst h1. rewrite lookup_insert_eq. done.
    + destruct (Hl 0%nat hd eq_refl) as (ehd & Hh & _). rewrite Hh.
      rewrite lookup_insert_ne by set_solver. subst h1. rewrite lookup_insert_eq. eauto.
  - destruct (Hl i r Hi) as (er & Hr & Hprev & Hnext).
    assert (Hrp : r <> p) by (intros ->; apply Hp; by eapply list_elem_of_lookup_2).
    destruct l as [|hd l]; [done|].
    destruct (Hl 0%nat hd eq_refl) as (ehd & Hh & _). rewrite Hh.
    destruct (decide (hd = r)) as [->|Hne].
    + assert (i = 0%nat) as -> by (eapply (NoDup_lookup (r :: l)); [done..|]; done).
      rewrite lookup_insert_eq. simplify_eq. eauto.
    + rewrite lookup_insert_ne by done. subst h1. rewrite lookup_insert_ne by done.
      exists er. split_and!; [done| |done].
      destruct i; [simpl in Hi; congruence|]. done.
Qed.

Lemma pushHead_spec h q l p e : fifo_rep h q l -> p ∉ l -> h !! p = Some e ->
  exists h' q', pushHead h q p = Some (h', q') /\ fifo_rep h' q' (p :: l) /\
    links_only h h' /\ (forall r, r ∉ p :: l -> h' !! r = h !! r).
Proof.
  intros (Hnd & Hl & Hhd & Htl & Hc & Hb) Hp He.
  assert (Hnd' : NoDup (p :: l)) by (by constructor).
  pose proof (linked_push h l p e Hl Hnd') as Hl'. cbv zeta in Hl'.
  unfold pushHead. rewrite He. cbn [mbind option_bind]. rewrite Hhd.
  assert (L1 : links_only h (<[p := set_next (list.head l) (set_prev None e)]> h))
    by (eapply links_only_insert; done).
  destruct l as [|hd l]; cbn [list.head] in *.
  - eexists _, _. cbn [mbind option_bind]. split; [done|]. split_and!; try done.
    + unfold fifo_rep; cbn [head tail fcount bytes length]. split_and!; try done.
      * rewrite Hc. done.
      * rewrite Hb. unfold sumZ; simpl. rewrite (chargeOf_links _ _ p L1), (chargeOf_Some h p e) by done. lia.
    + intros r Hr. rewrite lookup_insert_ne by set_solver. done.
  - destruct (Hl 0%nat hd eq_refl) as (ehd & Hh & Hph & Hnh). rewrite Hh in Hl'.
    assert (hd <> p) by set_solver.
    rewrite lookup_insert_ne, Hh by done. cbn [mbind option_bind]. eexists _, _. split; [done|].
    assert (L2 : links_only h (<[hd := set_prev (Some p) ehd]>
                   (<[p := set_next (Some hd) (set_prev None e)]> h))).
    { etransitivity; [exact L1|]. apply (links_only_insert _ _ ehd); [|done].
      rewrite lookup_insert_ne by done. done. }
    split_and!; [|done|].
    + unfold fifo_rep; cbn [head tail fcount bytes]. split_and!; try done.
      * rewrite Hc. cbn [length]. lia.
      * rewrite Hb, (sum_links _ _ _ L2). cbn [fmap list_fmap]. unfold sumZ; simpl.
        rewrite (chargeOf_Some h p e) by done. lia.
    + intros r Hr. rewrite !lookup_insert_ne by set_solver. done.
Qed.

(** The heap after unlinking [p]: its neighbours skip it, its own links are cleared. *)
Definition unlinked (h : heap) (p : ptr) (e : Entry) (r : ptr) : option Entry :=
  if decide (r = p) then Some (set_next None (set_prev None e)) else
  if decide (e_prev e = Some r) then set_next (e_next e) <$> h !! r else
  if decide (e_next e = Some r) then set_prev (e_prev e) <$> h !! r else
  h !! r.

Lemma remove_heap h q p e : h !! p = Some e ->
  (forall pp, e_prev e = Some pp -> is_Some (h !! pp) /\ pp <> p /\ e_next e <> Some pp) ->
  (forall nn, e_next e = Some nn -> is_Some (h !! nn) /\ nn <> p) ->
  exists h', remove h q p = Some (h', mkFifo
      (match e_prev e with Some _ => head q | None => e_next e end)
      (match e_next e with Some _ => tail q | None => e_prev e end)
      (bytes q - charge e) (fcount q - 1)) /\
    links_only h h' /\ forall r, h' !! r = unlinked h p e r.
Proof.
  intros Hp Hprev Hnext. unfold remove, unlinked. rewrite Hp. cbn [mbind option_bind].
  destruct (e_prev e) as [pp|]; [destruct (Hprev pp eq_refl) as ([ep Hpp] & Hppp & Hnp)|];
    (destruct (e_next e) as [nn|]; [destruct (Hnext nn eq_refl) as ([en Hnn] & Hnnp)|]);
    rewrite ?Hpp; cbn [mbind option_bind].
  - assert (pp <> nn) by congruence.
    rewrite lookup_insert_ne, Hnn by done. cbn [mbind option_bind].
    rewrite !lookup_insert_ne, Hp by done. cbn [mbind option_bind]. eexists. split; [done|]. split.
    + apply (links_only_set _ _ p e); [|by rewrite !lookup_insert_ne|done].
      apply (links_only_set _ _ nn en); [|by rewrite lookup_insert_ne|done].
      by apply (links_only_set _ _ pp ep).
    + intros r. rewrite !lookup_insert. repeat case_decide; simplify_eq; rewrite ?Hpp, ?Hnn; done.
  - rewrite lookup_insert_ne, Hp by done. cbn [mbind option_bind]. eexists. split; [done|]. split.
    + apply (links_only_set _ _ p e); [|by rewrite lookup_insert_ne|done].
      by apply (links_only_set _ _ pp ep).
    + intros r. rewrite !lookup_insert. repeat case_decide; simplify_eq; rewrite ?Hpp; done.
  - rewrite Hnn. cbn [mbind option_bind].
    rewrite lookup_insert_ne, Hp by done. cbn [mbind option_bind]. eexists. split; [done|]. split.
    + apply (links_only_set _ _ p e); [|by rewrite lookup_insert_ne|done].
      by apply (links_only_set _ _ nn en).
    + intros r. rewrite !lookup_insert. repeat case_decide; simplify_eq; rewrite ?Hnn; done.
  - rewrite Hp. cbn [mbind option_bind]. eexists. split; [done|]. split.
    + apply (links_only_insert _ p e); [done|reflexivity].
    + intros r. rewrite !lookup_insert. repeat case_decide; simplify_eq; done.
Qed.

Lemma prev_of_app_lt l1 l2 i : (i <= length l1)%nat -> prev_of (l1 ++ l2) i = prev_of l1 i.
Proof. destruct i; [done|]. simpl. intros. apply lookup_app_l. lia. Qed.

Lemma prev_of_last l : prev_of l (length l) = last l.
Proof. rewrite last_lookup. destruct l; done. Qed.

(** The neighbours of the element between [l1] and [l2]. *)
Lemma linked_middle h l1 p l2 : linked h (l1 ++ p :: l2) ->
  exists e, h !! p = Some e /\ e_prev e = last l1 /\ e_next e = list.head l2.
Proof.
  intros Hl. destruct (Hl (length l1) p) as (e & He & Hp & Hn); [by rewrite list_lookup_middle|].
  exists e. rewrite prev_of_app_lt, prev_of_last in Hp by lia.
  rewrite lookup_app_r in Hn by lia. replace (S (length l1) - length l1)%nat with 1%nat in Hn by lia.
  split_and!; [done..|]. rewrite Hn. destruct l2; done.
Qed.

Lemma linked_remove h h' l1 p l2 e : linked h (l1 ++ p :: l2) -> NoDup (l1 ++ p :: l2) ->
  h !! p = Some e -> e_prev e = last l1 -> e_next e = list.head l2 ->
  (forall r, h' !! r = unlinked h p e r) -> linked h' (l1 ++ l2).
Proof.
  intros Hl Hnd He Hprev Hnext Hh' i r Hi.
  assert (Hidx : forall j x, (l1 ++ p :: l2) !! j = Some x -> j <> length l1 -> x <> p).
  { intros j x Hj Hne ->. apply Hne. eapply (NoDup_lookup _ _ _ _ Hnd Hj). by rewrite list_lookup_middle. }
  assert (Hold : forall j x, (l1 ++ p :: l2) !! j = Some x -> (e_prev e = Some x <-> S j = length l1) /\
                   (e_next e = Some x <-> j = S (length l1))).
  { intros j x Hj. rewrite Hprev, Hnext. split; split.
    - rewrite last_lookup. intros Hx. destruct l1 as [|a l1]; [done|]. cbn [length] in *.
      f_equal. eapply (NoDup_lookup _ _ _ _ Hnd Hj). rewrite lookup_app_l by (simpl; lia). done.
    - intros Hlen. rewrite lookup_app_l in Hj by lia. rewrite last_lookup, <- Hlen. done.
    - intros Hx. destruct l2 as [|b l2]; [done|]. simpl in Hx. simplify_eq.
      eapply (NoDup_lookup _ _ _ _ Hnd Hj). rewrite lookup_app_r by lia.
      by replace (S (length l1) - length l1)%nat with 1%nat by lia.
    - intros ->. rewrite lookup_app_r in Hj by lia.
      replace (S (length l1) - length l1)%nat with 1%nat in Hj by lia. by destruct l2. }
  rewrite Hh'. unfold unlinked. destruct (decide (i < length l1)%nat) as [Hlt|Hge].
  - rewrite lookup_app_l in Hi by lia.
    assert (Hi' : (l1 ++ p :: l2) !! i = Some r) by (rewrite lookup_app_l by lia; done).
    destruct (Hl i r Hi') as (er & Her & Hep & Hen). destruct (Hold i r Hi') as [Ho1 Ho2].
    rewrite decide_False by (eapply Hidx; [done|lia]).
    rewrite prev_of_app_lt in Hep |- * by lia. rewrite Her. cbn [fmap option_fmap option_map].
    destruct (decide (e_prev e = Some r)) as [Hr|Hr].
    + apply Ho1 in Hr. eexists. split_and!; [done|done|]. simpl.
      rewrite Hnext, lookup_app_r, Hr, Nat.sub_diag by lia. by destruct l2.
    + rewrite decide_False by (rewrite Ho2; lia). exists er. split_and!; [done..|].
      assert (S i <> length l1) by tauto. rewrite Hen, !lookup_app_l by lia. done.
  - rewrite lookup_app_r in Hi by lia.
    assert (Hi' : (l1 ++ p :: l2) !! S i = Some r).
    { rewrite lookup_app_r by lia. by replace (S i - length l1)%nat with (S (i - length l1)) by lia. }
    destruct (Hl (S i) r Hi') as (er & Her & Hep & Hen). destruct (Hold (S i) r Hi') as [Ho1 Ho2].
    rewrite decide_False by (eapply Hidx; [done|lia]). rewrite decide_False by (rewrite Ho1; lia).
    assert (Hen' : e_next er = (l1 ++ l2) !! S i).
    { rewrite Hen, !lookup_app_r by lia. by replace (S (S i) - length l1)%nat with (S (S i - length l1)) by lia. }
    rewrite Her. cbn [fmap option_fmap option_map].
    destruct (decide (e_next e = Some r)) as [Hr|Hr].
    + apply Ho2 in Hr. assert (i = length l1) as -> by lia. eexists. split_and!; [done| |done].
      simpl. rewrite Hprev, prev_of_app_lt, prev_of_last by lia. done.
    + exists er. split_and!; [done| |done]. assert (i <> length l1) by (intros ->; tauto).
      rewrite Hep. destruct i as [|i]; [lia|]. simpl.
      rewrite !lookup_app_r by lia. by replace (S i - length l1)%nat with (S (i - length l1)) by lia.
Qed.

Lemma last_In {A} (l : list A) x : last l = Some x -> x ∈ l.
Proof. intros H. rewrite last_lookup in H. by eapply list_elem_of_lookup_2. Qed.

Lemma head_In {A} (l : list A) x : list.head l = Some x -> x ∈ l.
Proof. destruct l; [done|]. intros [= ->]. by left. Qed.

Lemma remove_spec h q l1 p l2 : fifo_rep h q (l1 ++ p :: l2) ->
  exists h' q', remove h q p = Some (h', q') /\ fifo_rep h' q' (l1 ++ l2) /\
    links_only h h' /\ (forall r, r ∉ l1 ++ p :: l2 -> h' !! r = h !! r).
Proof.
  intros (Hnd & Hl & Hhd & Htl & Hc & Hb).
  destruct (linked_middle h l1 p l2 Hl) as (e & He & Hprev & Hnext).
  assert (Hlive : forall r, r ∈ l1 ++ p :: l2 -> is_Some (h !! r)).
  { intros r [i Hi]%list_elem_of_lookup. destruct (Hl i r Hi) as (er & ? & _). eauto. }
  assert (Hnd3 := Hnd). apply NoDup_app in Hnd3 as (_ & Hd & [Hp2 _]%NoDup_cons).
  destruct (remove_heap h q p e He) as (h' & Hr & Hlo & Hh').
  { intros pp Hpp. rewrite Hprev in Hpp. apply last_In in Hpp as Hin.
    split_and!; [apply Hlive; set_solver|intros ->; by eapply Hd; [exact Hin|left]|].
    rewrite Hnext. intros Hn%head_In. eapply Hd; [exact Hin|by right]. }
  { intros nn Hnn. rewrite Hnext in Hnn. apply head_In in Hnn.
    split; [apply Hlive; set_solver|by intros ->]. }
  eexists h', _. split; [exact Hr|]. split_and!; [|done|].
  - unfold fifo_rep; cbn [head tail fcount bytes]. split_and!.
    + eapply sublist_NoDup; [exact Hnd|]. apply sublist_app; [done|]. by apply sublist_cons.
    + by eapply linked_remove.
    + rewrite Hprev, Hhd, Hnext. destruct l1 as [|a l1]; [done|].
      destruct (last (a :: l1)) eqn:E; [done|]. by apply last_None in E.
    + rewrite Hnext, Htl, Hprev. destruct l2 as [|b l2]; simpl.
      * by rewrite app_nil_r.
      * rewrite !last_app. simpl. destruct (last (b :: l2)) eqn:E; [by destruct l2|].
        by apply last_None in E.
    + rewrite Hc, !length_app. cbn [length]. lia.
    + rewrite Hb, (sum_links h h') by done. rewrite !fmap_app, !sumZ_app. cbn [fmap list_fmap].
      unfold sumZ at 2; simpl. fold (sumZ (chargeOf h <$> l2)).
      rewrite (chargeOf_Some h p e) by done. unfold fmap. lia.
  - intros r Hr'. rewrite Hh'. unfold unlinked.
    rewrite decide_False by set_solver.
    rewrite decide_False by (rewrite Hprev; intros Hin%last_In; set_solver).
    rewrite decide_False by (rewrite Hnext; intros Hin%head_In; set_solver). done.
Qed.

Lemma popTail_spec h q l p : fifo_rep h q (l ++ [p]) ->
  exists h' q', popTail h q = Some (h', q', Some p) /\ fifo_rep h' q' l /\
    links_only h h' /\ (forall r, r ∉ l ++ [p] -> h' !! r = h !! r).
Proof.
  intros Hq. pose proof (remove_spec h q l p [] Hq) as (h' & q' & Hr & Hq' & Hlo & Hf).
  exists h', q'. rewrite app_nil_r in Hq'. unfold popTail.
  destruct Hq as (_ & _ & _ & Ht & _). rewrite Ht, last_snoc, Hr. done.
Qed.

Lemma popTail_empty h q : fifo_rep h q [] -> popTail h q = Some (h, q, None).
Proof. intros (_ & _ & _ & Ht & _). unfold popTail. rewrite Ht. done. Qed.
