(* ===== verification/SeqnoIndex.v ===== *)
(** * SeqnoIndex: the cache's per-key seqno index (server/cache/s3fifo_cache.cc)

    Each shard remembers the latest applied seqno of its keys after their values
    are evicted: 64 parts, each a hash map with a CLOCK hand.  The maps are
    [folly::F14FastMap], which is not part of the repository: a part's map is
    the list of its items in iteration order, and where an inserted item lands,
    how an erasure reorders the rest, the bucket count and the allocation size
    are parameters, of which only "the items are those of a map" is assumed.

    Theorems: over any history of notes, fills, hints and cap changes a hint is
    never older than the newest write noted for the key (nor does a deleted key
    get a hint), and a block address is only handed out for the seqno it was
    recorded with. *)
From stdpp Require Import prelude gmap list.
From Stdlib Require Import ZArith Lia.
From S2P Require Import Prelude.
Open Scope Z_scope.

Definition kSeqnoDeleted : Z := Z.shiftl 1 63.
Definition kSeqnoUsed : Z := Z.shiftl 1 62.
Definition kSeqnoFlags : Z := Z.lor kSeqnoDeleted kSeqnoUsed.

Record SeqEntry := mkSeqEntry {
  q_seqno : Z;
  q_valuePtr : Z;
}.

#[export] Instance SeqEntry_eq_dec : EqDecision SeqEntry.
Proof. solve_decision. Defined.

Definition kSeqParts : nat := 64.

Abbreviation seqmap := (list (Z * SeqEntry)).

Record SeqPart := mkSeqPart {
  p_map : seqmap;
  p_bytes : Z;
  p_hand : Z;
  p_handSet : bool;
}.

Record SeqIndex := mkSeqIndex {
  seqParts : list SeqPart;
  seqCap : Z;
  seqBytes : Z;
  seqEvictions : Z;
  seqRejected : Z;
}.

Definition emptyPart : SeqPart := mkSeqPart [] 0 0 false.
Definition emptySeqIndex : SeqIndex := mkSeqIndex (replicate kSeqParts emptyPart) 0 0 0 0.

(** What the index uses of [F14FastMap]. *)
Class F14Map := {
  f14_emplace : seqmap -> Z * SeqEntry -> seqmap;
  f14_erase : seqmap -> nat -> seqmap;
  f14_bucket_count : seqmap -> Z;
  f14_allocated : seqmap -> Z;
}.
Class F14MapLaws `{F14Map} : Prop := {
  f14_emplace_perm l kv : f14_emplace l kv ≡ₚ kv :: l;
  f14_erase_perm l i : f14_erase l i ≡ₚ delete i l;
}.

Section index.
Context `{F : F14Map}.

Definition seqPartNo (h : Z) : nat := Z.to_nat (Z.shiftr h 40 mod Z.of_nat kSeqParts).
Definition seqPart (s : SeqIndex) (h : Z) : SeqPart := default emptyPart (seqParts s !! seqPartNo h).
Definition setPart (s : SeqIndex) (h : Z) (p : SeqPart) : SeqIndex :=
  mkSeqIndex (<[seqPartNo h := p]> (seqParts s)) (seqCap s) (seqBytes s) (seqEvictions s)
    (seqRejected s).

(** [m.find(h)]: the position of the item, [None] for [end()]. *)
Fixpoint seq_find (l : seqmap) (h : Z) : option nat :=
  match l with
  | [] => None
  | (k, _) :: l' => if k =? h then Some O else S <$> seq_find l' h
  end.

Definition seqFits (s : SeqIndex) (p : SeqPart) : bool :=
  if seqCap s =? 0 then true else
  let grows := f14_bucket_count (p_map p) <=? Z.of_nat (length (p_map p)) in
  seqBytes s + (if grows then 2 * p_bytes p else 0) <=? seqCap s.

Definition clearUsed (v : SeqEntry) : SeqEntry :=
  mkSeqEntry (Z.land (q_seqno v) (Z.lnot kSeqnoUsed)) (q_valuePtr v).
Definition isUsed (v : SeqEntry) : bool := negb (Z.land (q_seqno v) kSeqnoUsed =? 0).

(** The CLOCK scan: at most [n] more items looked at from position [it], where
    [length m] is [end()].  A used item loses its bit and is passed over. *)
Fixpoint clockScan (n : nat) (m : seqmap) (it : nat) : seqmap * nat :=
  match n with
  | O => (m, it)
  | S n' =>
      let it := if (it =? length m)%nat then O else it in
      match m !! it with
      | Some (_, v) => if isUsed v
                       then clockScan n' (alter (fun kv => (kv.1, clearUsed kv.2)) it m) (S it)
                       else (m, it)
      | None => (m, it)
      end
  end.

Definition evictSeq (p : SeqPart) : SeqPart :=
  let it := if p_handSet p then default (length (p_map p)) (seq_find (p_map p) (p_hand p))
            else length (p_map p) in
  let '(m, it) := clockScan 64 (p_map p) it in
  let it := if (it =? length m)%nat then O else it in
  let next := m !! S it in
  mkSeqPart (f14_erase m it) (p_bytes p)
    (match next with Some (k, _) => k | None => p_hand p end)
    (match next with Some _ => true | None => false end).

(** [it->second] after a newer, an equal or an older seqno is noted. *)
Definition raise (v : SeqEntry) (seqno : Z) (deleted : bool) (valuePtr : Z) : SeqEntry :=
  let cur := Z.land (q_seqno v) (Z.lnot kSeqnoFlags) in
  if (cur <? seqno) || ((seqno =? cur) && deleted) then
    mkSeqEntry (Z.lor (if deleted then Z.lor seqno kSeqnoDeleted else seqno)
                      (Z.land (q_seqno v) kSeqnoUsed))
      (if deleted then 0 else valuePtr)
  else if (seqno =? cur) && negb (valuePtr =? 0) && (Z.land (q_seqno v) kSeqnoDeleted =? 0) then
    mkSeqEntry (q_seqno v) valuePtr
  else v.

Definition raiseAt (p : SeqPart) (i : nat) (seqno : Z) (deleted : bool) (valuePtr : Z) : SeqPart :=
  mkSeqPart (alter (fun kv => (kv.1, raise kv.2 seqno deleted valuePtr)) i (p_map p))
    (p_bytes p) (p_hand p) (p_handSet p).

Definition reject (s : SeqIndex) : SeqIndex :=
  mkSeqIndex (seqParts s) (seqCap s) (seqBytes s) (seqEvictions s) (seqRejected s + 1).

Definition countEviction (s : SeqIndex) : SeqIndex :=
  mkSeqIndex (seqParts s) (seqCap s) (seqBytes s) (seqEvictions s + 1) (seqRejected s).

(** [emplace(h, SeqEntry{})] and the accounting after it. *)
Definition emplace (s : SeqIndex) (p : SeqPart) (h : Z) : SeqIndex * SeqPart :=
  let m := f14_emplace (p_map p) (h, mkSeqEntry 0 0) in
  let b := f14_allocated m in
  (mkSeqIndex (seqParts s) (seqCap s) (u64 (seqBytes s + b - p_bytes p)) (seqEvictions s)
     (seqRejected s),
   mkSeqPart m b (p_hand p) (p_handSet p)).

Definition noteSeqno (s : SeqIndex) (h seqno : Z) (deleted : bool) (valuePtr : Z) (admitNew : bool)
    : SeqIndex :=
  let p := seqPart s h in
  match seq_find (p_map p) h with
  | Some i => setPart s h (raiseAt p i seqno deleted valuePtr)
  | None =>
      if negb admitNew && (0 <? seqEvictions s) then reject s else
      if negb (seqFits s p) && bool_decide (p_map p = []) then reject s else
      let '(s, p) := if seqFits s p then (s, p) else (countEviction s, evictSeq p) in
      let '(s, p) := emplace s p h in
      match seq_find (p_map p) h with
      | Some i => setPart s h (raiseAt p i seqno deleted valuePtr)
      | None => setPart s h p
      end
  end.

(** [S3FifoCache::NoteValuePtr] under [seqMu]. *)
Definition noteValuePtr (s : SeqIndex) (h seqno valuePtr : Z) : SeqIndex :=
  let p := seqPart s h in
  match seq_find (p_map p) h with
  | Some i =>
      setPart s h (mkSeqPart
        (alter (fun kv => if Z.land (q_seqno kv.2) (Z.lnot kSeqnoUsed) =? seqno
                          then (kv.1, mkSeqEntry (q_seqno kv.2) valuePtr) else kv) i (p_map p))
        (p_bytes p) (p_hand p) (p_handSet p))
  | None => s
  end.

(** [S3FifoCache::SeqnoHint] under [seqMu]: the hint, the block address, and the
    index with the item marked used. *)
Definition seqnoHint (s : SeqIndex) (h : Z) : Z * Z * SeqIndex :=
  let p := seqPart s h in
  match seq_find (p_map p) h with
  | None => (0, 0, s)
  | Some i =>
      match p_map p !! i with
      | None => (0, 0, s)
      | Some (_, v) =>
          if negb (Z.land (q_seqno v) kSeqnoDeleted =? 0) then (0, 0, s) else
          let v' := mkSeqEntry (Z.lor (q_seqno v) kSeqnoUsed) (q_valuePtr v) in
          (Z.land (q_seqno v') (Z.lnot kSeqnoFlags), q_valuePtr v,
           setPart s h (mkSeqPart (alter (fun kv => (kv.1, v')) i (p_map p))
                          (p_bytes p) (p_hand p) (p_handSet p)))
      end
  end.

Definition setSeqCap (s : SeqIndex) (cap : Z) : SeqIndex :=
  mkSeqIndex (seqParts s) cap (seqBytes s) (seqEvictions s) (seqRejected s).
End index.

(** ** Flag bits *)
Definition curOf (v : SeqEntry) : Z := Z.land (q_seqno v) (Z.lnot kSeqnoFlags).
Definition delOf (v : SeqEntry) : bool := Z.testbit (q_seqno v) 63.

(** Seqnos stay below the flag bits. *)
Definition seqno_ok (x : Z) : Prop := 0 < x < 2 ^ 62.

Lemma bit_Deleted i : 0 <= i -> Z.testbit kSeqnoDeleted i = (63 =? i).
Proof. intros. unfold kSeqnoDeleted. rewrite Z.shiftl_1_l. by apply Z.pow2_bits_eqb. Qed.
Lemma bit_Used i : 0 <= i -> Z.testbit kSeqnoUsed i = (62 =? i).
Proof. intros. unfold kSeqnoUsed. rewrite Z.shiftl_1_l. by apply Z.pow2_bits_eqb. Qed.
Lemma bit_Flags i : 0 <= i -> Z.testbit kSeqnoFlags i = (63 =? i) || (62 =? i).
Proof. intros. unfold kSeqnoFlags. rewrite Z.lor_spec, bit_Deleted, bit_Used by done. done. Qed.

Lemma bit_high x n i : 0 <= x < 2 ^ n -> 0 <= n <= i -> Z.testbit x i = false.
Proof.
  intros Hx Hi. rewrite <- (Z.mod_small x (2 ^ n)) by lia. apply Z.mod_pow2_bits_high. lia.
Qed.

Ltac seqbits :=
  apply Z.bits_inj'; let i := fresh "i" in let Hi := fresh "Hi" in intros i Hi;
  repeat first [ rewrite Z.land_spec | rewrite Z.lor_spec | rewrite Z.lnot_spec by lia
               | rewrite bit_Deleted by lia | rewrite bit_Used by lia | rewrite bit_Flags by lia ].

Ltac case_bits :=
  repeat match goal with |- context [Z.testbit ?a ?b] => destruct (Z.testbit a b) end.

Lemma land_Deleted x : (Z.land x kSeqnoDeleted =? 0) = negb (Z.testbit x 63).
Proof.
  destruct (Z.testbit x 63) eqn:E; simpl.
  - apply Z.eqb_neq. intros H0. apply (f_equal (fun z => Z.testbit z 63)) in H0.
    rewrite Z.land_spec, E, bit_Deleted in H0 by lia. done.
  - apply Z.eqb_eq. seqbits. rewrite Z.bits_0. destruct (Z.eqb_spec 63 i) as [<-|]; [by rewrite E|].
    apply andb_false_r.
Qed.

Lemma clearUsed_cur v : curOf (clearUsed v) = curOf v /\ delOf (clearUsed v) = delOf v.
Proof.
  unfold curOf, delOf, clearUsed; cbn [q_seqno]. split.
  - seqbits. destruct (Z.eqb_spec 62 i), (63 =? i), (Z.testbit (q_seqno v) i); done.
  - rewrite Z.land_spec, Z.lnot_spec, bit_Used by lia. apply andb_true_r.
Qed.

Lemma markUsed_cur v vp : let v' := mkSeqEntry (Z.lor (q_seqno v) kSeqnoUsed) vp in
  curOf v' = curOf v /\ delOf v' = delOf v.
Proof.
  unfold curOf, delOf; cbn [q_seqno]. split.
  - seqbits. destruct (Z.eqb_spec 62 i), (63 =? i), (Z.testbit (q_seqno v) i); done.
  - rewrite Z.lor_spec, bit_Used by lia. apply orb_false_r.
Qed.

Lemma fresh_cur seqno (deleted : bool) x vp : 0 <= seqno < 2 ^ 62 ->
  let v := mkSeqEntry (Z.lor (if deleted then Z.lor seqno kSeqnoDeleted else seqno)
                             (Z.land x kSeqnoUsed)) vp in
  curOf v = seqno /\ delOf v = deleted.
Proof.
  intros Hs. unfold curOf, delOf; cbn [q_seqno]. split.
  - seqbits. destruct deleted; rewrite ?Z.lor_spec, ?bit_Deleted by lia;
      destruct (Z.eqb_spec 62 i), (Z.eqb_spec 63 i); subst;
      rewrite ?(bit_high seqno 62) by lia; try done; case_bits; done.
  - rewrite Z.lor_spec, Z.land_spec, bit_Used by lia.
    destruct deleted; rewrite ?Z.lor_spec, ?bit_Deleted, (bit_high seqno 62) by lia;
      by destruct (Z.testbit x 63).
Qed.

(** [(seqno & ~kSeqnoUsed) == seqno'] holds only for a live entry at that seqno. *)
Lemma land_lnot_Used x seqno vp : 0 <= seqno < 2 ^ 62 ->
  Z.land x (Z.lnot kSeqnoUsed) = seqno ->
  curOf (mkSeqEntry x vp) = seqno /\ delOf (mkSeqEntry x vp) = false.
Proof.
  intros Hs Hx. unfold curOf, delOf; cbn [q_seqno]. split.
  - rewrite <- Hx. seqbits.
    destruct (Z.eqb_spec 63 i) as [<-|]; [|done].
    assert (H63 : Z.testbit seqno 63 = false) by (apply (bit_high _ 62); lia).
    rewrite <- Hx, Z.land_spec, Z.lnot_spec, bit_Used in H63 by lia.
    destruct (Z.testbit x 63); done.
  - assert (H63 : Z.testbit seqno 63 = false) by (apply (bit_high _ 62); lia).
    rewrite <- Hx, Z.land_spec, Z.lnot_spec, bit_Used in H63 by lia. by destruct (Z.testbit x 63).
Qed.

(** What [raise] does to seqno, deleted flag and block address. *)
Lemma raise_spec v seqno deleted vp : 0 <= seqno < 2 ^ 62 ->
  let v' := raise v seqno deleted vp in
  (curOf v < seqno \/ seqno = curOf v /\ deleted = true ->
     curOf v' = seqno /\ delOf v' = deleted /\ q_valuePtr v' = if deleted then 0 else vp) /\
  (seqno < curOf v \/ seqno = curOf v /\ deleted = false ->
     curOf v' = curOf v /\ delOf v' = delOf v /\
     (q_valuePtr v' = q_valuePtr v \/ seqno = curOf v /\ q_valuePtr v' = vp /\ vp <> 0)).
Proof.
  intros Hs v'. subst v'. unfold raise. change (Z.land (q_seqno v) (Z.lnot kSeqnoFlags)) with (curOf v).
  rewrite land_Deleted. split; intros Hc.
  - assert ((curOf v <? seqno) || ((seqno =? curOf v) && deleted) = true) as ->.
    { destruct Hc as [Hc|[-> ->]]; [apply Z.ltb_lt in Hc; by rewrite Hc|].
      by rewrite Z.eqb_refl, orb_true_r. }
    destruct (fresh_cur seqno deleted (q_seqno v) (if deleted then 0 else vp) Hs) as [-> ->]. done.
  - assert ((curOf v <? seqno) || ((seqno =? curOf v) && deleted) = false) as ->.
    { apply orb_false_iff. split; [apply Z.ltb_ge; lia|]. destruct Hc as [Hc|[_ ->]]; [|apply andb_false_r].
      destruct (Z.eqb_spec seqno (curOf v)); [lia|done]. }
    destruct (Z.eqb_spec seqno (curOf v)); cbn [andb]; [|by auto].
    destruct (Z.eqb_spec vp 0); cbn [negb andb]; [by auto|].
    destruct (negb _) eqn:E; [|by auto]. split_and!; [done..|]. right. done.
Qed.

(** ** The parts as maps *)
Definition look (l : seqmap) (h : Z) : option SeqEntry := (list_to_map l : gmap Z SeqEntry) !! h.

Lemma look_cons k v l h : look ((k, v) :: l) h = if decide (k = h) then Some v else look l h.
Proof. unfold look. simpl. rewrite lookup_insert. done. Qed.

Lemma seq_find_look l h :
  match seq_find l h with
  | Some i => exists v, l !! i = Some (h, v) /\ look l h = Some v
  | None => look l h = None
  end.
Proof.
  induction l as [|[k v] l IH]; [done|]. cbn [seq_find]. rewrite look_cons.
  destruct (Z.eqb_spec k h) as [->|Hne].
  - rewrite decide_True by done. eauto.
  - rewrite decide_False by done. destruct (seq_find l h); simpl in *; done.
Qed.

Lemma alter_fst (f : Z * SeqEntry -> Z * SeqEntry) (l : seqmap) i :
  (forall kv, (f kv).1 = kv.1) -> (alter f i l).*1 = l.*1.
Proof.
  intros Hf. revert i. induction l as [|kv l IH]; intros [|i]; simpl; [done..| |].
  - rewrite Hf. done.
  - f_equal. apply IH.
Qed.

Lemma elem_fst (l : seqmap) i h v : l !! i = Some (h, v) -> h ∈ l.*1.
Proof. intros Hi. apply (list_elem_of_lookup_2 _ i). rewrite list_lookup_fmap, Hi. done. Qed.

Lemma look_alter f l i h v k : (forall kv, (f kv).1 = kv.1) -> NoDup l.*1 -> l !! i = Some (h, v) ->
  look (alter f i l) k = if decide (k = h) then Some (f (h, v)).2 else look l k.
Proof.
  intros Hf. revert i. induction l as [|[k0 v0] l IH]; intros [|i] Hnd Hi; try done.
  - simpl in Hi. simplify_eq. cbn [alter list_alter]. pose proof (Hf (h, v)) as Hk.
    destruct (f (h, v)) as [k1 v1]. simpl in Hk. subst k1. rewrite !look_cons.
    repeat case_decide; simplify_eq; done.
  - simpl in Hi, Hnd. apply NoDup_cons in Hnd as [Hk0 Hnd].
    change (alter f (S i) ((k0, v0) :: l)) with ((k0, v0) :: alter f i l).
    rewrite !look_cons, IH by done.
    assert (k0 <> h) by (intros ->; apply Hk0; by eapply elem_fst).
    repeat case_decide; simplify_eq; done.
Qed.

Lemma look_perm l l' k : NoDup l.*1 -> l ≡ₚ l' -> look l k = look l' k.
Proof. intros. unfold look. by rewrite (list_to_map_proper l l'). Qed.

(** Equal up to the used bit. *)
Definition soft (v v' : SeqEntry) : Prop :=
  curOf v' = curOf v /\ delOf v' = delOf v /\ q_valuePtr v' = q_valuePtr v.

(** Every item of [l'] is an item of [l], up to the used bit. *)
Definition shrinks (l l' : seqmap) : Prop :=
  NoDup l'.*1 /\ forall k v', look l' k = Some v' -> exists v, look l k = Some v /\ soft v v'.

Lemma shrinks_refl l : NoDup l.*1 -> shrinks l l.
Proof. intros. split; [done|]. intros k v ->. exists v. done. Qed.

Lemma shrinks_trans l1 l2 l3 : shrinks l1 l2 -> shrinks l2 l3 -> shrinks l1 l3.
Proof.
  intros [_ H1] [Hnd H2]. split; [done|]. intros k v3 H3.
  destruct (H2 k v3 H3) as (v2 & Hv2 & S2). destruct (H1 k v2 Hv2) as (v1 & Hv1 & S1).
  exists v1. split; [done|]. unfold soft in *. intuition congruence.
Qed.

Lemma shrinks_clear l i : NoDup l.*1 ->
  shrinks l (alter (fun kv => (kv.1, clearUsed kv.2)) i l).
Proof.
  intros Hnd. split; [by rewrite alter_fst|]. intros k v' Hk.
  destruct (l !! i) as [[h v]|] eqn:Hi.
  - rewrite (look_alter _ l i h v) in Hk by done. case_decide; [|by exists v'].
    simplify_eq/=. exists v. split; [|by destruct (clearUsed_cur v)].
    pose proof (seq_find_look l h) as Hs. destruct (seq_find l h) as [j|].
    + destruct Hs as (w & Hj & Hw). rewrite Hw. f_equal.
      assert (i = j) as -> by (eapply (NoDup_lookup l.*1); [done|rewrite list_lookup_fmap, Hi|rewrite list_lookup_fmap, Hj]; done).
      congruence.
    + unfold look in Hs. apply not_elem_of_list_to_map in Hs. exfalso. apply Hs.
      by eapply elem_fst.
  - enough (alter (fun kv => (kv.1, clearUsed kv.2)) i l = l) as Ha by (rewrite Ha in Hk; by exists v').
    apply list_eq. intros j. destruct (decide (i = j)) as [<-|];
      [by rewrite list_lookup_alter_eq, Hi|by rewrite list_lookup_alter_ne].
Qed.

Lemma NoDup_fst_delete (l : seqmap) i : NoDup l.*1 -> NoDup (delete i l).*1.
Proof.
  intros Hnd. rewrite delete_take_drop, fmap_app, fmap_take, fmap_drop, <- delete_take_drop.
  eapply sublist_NoDup; [done|]. apply sublist_delete.
Qed.

Lemma look_delete l i k v : NoDup l.*1 -> look (delete i l) k = Some v -> look l k = Some v.
Proof.
  unfold look. intros Hnd Hk. apply elem_of_list_to_map in Hk.
  - apply elem_of_list_to_map; [done|]. by eapply list_elem_of_delete_inv.
  - by apply NoDup_fst_delete.
Qed.

Section laws.
Context `{FL : F14MapLaws}.

Lemma clockScan_shrinks n l it : NoDup l.*1 -> shrinks l (clockScan n l it).1.
Proof.
  revert l it. induction n as [|n IH]; intros l it Hnd; simpl; [by apply shrinks_refl|].
  destruct (l !! _) as [[k v]|]; [|by apply shrinks_refl].
  destruct (isUsed v); [|by apply shrinks_refl].
  eapply shrinks_trans; [by apply shrinks_clear|]. apply IH. by rewrite alter_fst.
Qed.

Lemma evictSeq_shrinks p : NoDup (p_map p).*1 -> shrinks (p_map p) (p_map (evictSeq p)).
Proof.
  intros Hnd. unfold evictSeq.
  set (it := if p_handSet p then _ else _).
  pose proof (clockScan_shrinks 64 (p_map p) it Hnd) as Hs.
  destruct (clockScan 64 (p_map p) it) as [m it']. cbn [fst p_map] in *.
  eapply shrinks_trans; [exact Hs|]. destruct Hs as [Hnd' _].
  set (i := if (it' =? length m)%nat then 0%nat else it').
  pose proof (NoDup_fst_delete m i Hnd') as Hd.
  split; [by rewrite f14_erase_perm|]. intros k v Hk. exists v. split; [|done].
  rewrite (look_perm _ (delete i m)) in Hk; [by eapply look_delete| |apply f14_erase_perm].
  by rewrite f14_erase_perm.
Qed.
End laws.

(** ** The whole index *)
Definition view (s : SeqIndex) (h : Z) : option SeqEntry := look (p_map (seqPart s h)) h.

Definition seq_wf (s : SeqIndex) : Prop :=
  length (seqParts s) = kSeqParts /\ Forall (fun p => NoDup (p_map p).*1) (seqParts s).

Lemma seqPartNo_lt h : (seqPartNo h < kSeqParts)%nat.
Proof.
  unfold seqPartNo. pose proof (Z.mod_pos_bound (Z.shiftr h 40) (Z.of_nat kSeqParts)).
  unfold kSeqParts in *. lia.
Qed.

Lemma seqPart_NoDup s h : seq_wf s -> NoDup (p_map (seqPart s h)).*1.
Proof.
  intros [_ Hf]. unfold seqPart. destruct (seqParts s !! seqPartNo h) as [p|] eqn:E; simpl.
  - rewrite Forall_lookup in Hf. by eapply Hf.
  - constructor.
Qed.

Lemma seqPart_setPart s h p k : seq_wf s ->
  seqPart (setPart s h p) k = if decide (seqPartNo k = seqPartNo h) then p else seqPart s k.
Proof.
  intros [Hl _]. unfold seqPart, setPart; cbn [seqParts].
  destruct (decide (seqPartNo k = seqPartNo h)) as [->|Hne].
  - rewrite list_lookup_insert_eq; [done|]. rewrite Hl. apply seqPartNo_lt.
  - rewrite list_lookup_insert_ne by done. done.
Qed.

Lemma setPart_wf s h p : seq_wf s -> NoDup (p_map p).*1 -> seq_wf (setPart s h p).
Proof.
  intros [Hl Hf] Hp. split; cbn [setPart seqParts]; [by rewrite length_insert|].
  by apply Forall_insert.
Qed.

(** A part replaced by one that only lost items (other than [h]). *)
Lemma view_setPart s h p k : seq_wf s ->
  view (setPart s h p) k =
  if decide (seqPartNo k = seqPartNo h) then look (p_map p) k else view s k.
Proof. intros. unfold view. rewrite seqPart_setPart by done. by case_decide. Qed.

Definition raised (s s' : SeqIndex) (h : Z) (f : SeqEntry -> SeqEntry) : Prop :=
  seq_wf s' /\ seqEvictions s' = seqEvictions s /\
  exists v, view s h = Some v /\ view s' h = Some (f v) /\
    forall k, k <> h -> view s' k = view s k.

(** Changing the item of [h] in place. *)
Lemma update_item s h i v f hand hs b : seq_wf s -> (forall kv, (f kv).1 = kv.1) ->
  seq_find (p_map (seqPart s h)) h = Some i -> p_map (seqPart s h) !! i = Some (h, v) ->
  look (p_map (seqPart s h)) h = Some v ->
  raised s (setPart s h (mkSeqPart (alter f i (p_map (seqPart s h))) b hand hs)) h
    (fun v => (f (h, v)).2).
Proof.
  intros Hwf Hf Hi Hv Hlook. pose proof (seqPart_NoDup s h Hwf) as Hnd. split_and!.
  - apply setPart_wf; [done|]. cbn [p_map]. by rewrite alter_fst.
  - done.
  - exists v. split; [done|]. split.
    + rewrite view_setPart, decide_True by done. cbn [p_map].
      rewrite (look_alter _ _ _ h v), decide_True by done. done.
    + intros k Hk. rewrite view_setPart by done. case_decide as Hp; [|done]. cbn [p_map].
      rewrite (look_alter _ _ _ h v), decide_False by done. unfold view, seqPart. by rewrite Hp.
Qed.

Section note.
Context `{FL : F14MapLaws}.

(** What a note leaves of the other keys: everything, up to used bits, unless
    an eviction is counted. *)
Definition others_kept (s s' : SeqIndex) (h : Z) : Prop :=
  forall k, k <> h ->
    match view s' k with
    | Some v' => exists v, view s k = Some v /\ soft v v'
    | None => view s k = None \/ seqEvictions s < seqEvictions s'
    end.

(** Adding a key to part [p] of an index whose part may just have shrunk. *)
Lemma add_item s s0 p0 h seqno deleted vp : seq_wf s -> seqParts s0 = seqParts s ->
  look (p_map (seqPart s h)) h = None ->
  shrinks (p_map (seqPart s h)) (p_map p0) ->
  (forall k, look (p_map (seqPart s h)) k <> None -> look (p_map p0) k = None ->
     seqEvictions s < seqEvictions s0) ->
  let '(s1, p1) := emplace s0 p0 h in
  exists i, seq_find (p_map p1) h = Some i /\
    let s' := setPart s1 h (raiseAt p1 i seqno deleted vp) in
    seq_wf s' /\ seqEvictions s' = seqEvictions s0 /\
    view s' h = Some (raise (mkSeqEntry 0 0) seqno deleted vp) /\ others_kept s s' h.
Proof.
  intros Hwf Hparts Hnew [Hnd0 Hsh] Hev. unfold emplace.
  set (m := f14_emplace (p_map p0) (h, mkSeqEntry 0 0)).
  assert (Hh0 : look (p_map p0) h = None).
  { destruct (look (p_map p0) h) as [v|] eqn:E; [|done]. destruct (Hsh _ _ E) as (? & ? & _). congruence. }
  assert (Hndc : NoDup ((h, mkSeqEntry 0 0) :: p_map p0).*1).
  { cbn [fmap list_fmap]. constructor; [|done]. unfold look in Hh0.
    by apply not_elem_of_list_to_map in Hh0. }
  assert (Hm : m ≡ₚ (h, mkSeqEntry 0 0) :: p_map p0) by apply f14_emplace_perm.
  assert (Hndm : NoDup m.*1) by (by rewrite Hm).
  assert (Hlm : forall k, look m k = if decide (h = k) then Some (mkSeqEntry 0 0) else look (p_map p0) k).
  { intros k. rewrite (look_perm m _ k Hndm Hm), look_cons. done. }
  pose proof (seq_find_look m h) as Hfind. rewrite Hlm, decide_True in Hfind by done.
  cbn [p_map]. destruct (seq_find m h) as [i|]; [|done]. exists i. split; [done|].
  destruct Hfind as (v & Hi & [= <-]).
  set (s1 := mkSeqIndex (seqParts s0) _ _ _ _). assert (Hwf1 : seq_wf s1).
  { destruct Hwf. split; cbn [s1 seqParts]; by rewrite Hparts. }
  assert (Hraise : forall k, look (p_map (raiseAt (mkSeqPart m (f14_allocated m) (p_hand p0) (p_handSet p0)) i
             seqno deleted vp)) k =
           if decide (k = h) then Some (raise (mkSeqEntry 0 0) seqno deleted vp) else look (p_map p0) k).
  { intros k. unfold raiseAt; cbn [p_map].
    rewrite (look_alter _ m i h (mkSeqEntry 0 0)), Hlm by done. repeat case_decide; simplify_eq/=; done. }
  split_and!.
  - apply setPart_wf; [done|]. unfold raiseAt; cbn [p_map]. by rewrite alter_fst.
  - done.
  - rewrite view_setPart, decide_True, Hraise, decide_True by done. done.
  - intros k Hk. rewrite view_setPart by done. case_decide as Hp.
    + rewrite Hraise, decide_False by done.
      assert (Hvk : view s k = look (p_map (seqPart s h)) k) by (unfold view, seqPart; by rewrite Hp).
      rewrite Hvk. destruct (look (p_map p0) k) as [v'|] eqn:E; [by apply Hsh|].
      destruct (look (p_map (seqPart s h)) k) eqn:E2; [right|by left]. apply (Hev k); congruence.
    + unfold view, seqPart. cbn [s1 seqParts]. rewrite Hparts. fold (seqPart s k).
      destruct (look (p_map (seqPart s k)) k) as [v|]; [by exists v|by left].
Qed.

Lemma noteSeqno_spec s h seqno deleted vp admitNew : seq_wf s ->
  let s' := noteSeqno s h seqno deleted vp admitNew in
  seq_wf s' /\ seqEvictions s <= seqEvictions s' /\ others_kept s s' h /\
  match view s h with
  | Some v => view s' h = Some (raise v seqno deleted vp)
  | None => view s' h = Some (raise (mkSeqEntry 0 0) seqno deleted vp) /\
              (admitNew = true \/ seqEvictions s <= 0)
            \/ s' = reject s
  end.
Proof.
  intros Hwf. unfold noteSeqno. pose proof (seq_find_look (p_map (seqPart s h)) h) as Hf.
  unfold view at 1. destruct (seq_find (p_map (seqPart s h)) h) as [i|] eqn:Hi.
  - destruct Hf as (v & Hv & Hl). rewrite Hl.
    destruct (update_item s h i v (fun kv => (kv.1, raise kv.2 seqno deleted vp))
      (p_hand (seqPart s h)) (p_handSet (seqPart s h)) (p_bytes (seqPart s h))) as (Hw & He & v0 & Hv0 & Hr & Ho);
      [done..|].
    unfold view in Hv0. rewrite Hl in Hv0. simplify_eq.
    split_and!; [exact Hw|apply Z.eq_le_incl; reflexivity| |exact Hr].
    intros k Hk. rewrite Ho by done. destruct (view s k) as [w|]; [by exists w|by left].
  - rewrite Hf. assert (Hrej : seq_wf (reject s) /\ others_kept s (reject s) h).
    { split; [exact Hwf|]. intros k Hk. change (view (reject s) k) with (view s k).
      destruct (view s k) as [w|]; [by exists w|by left]. }
    destruct (negb admitNew && (0 <? seqEvictions s)) eqn:Ha; [cbn [reject seqEvictions]; intuition lia|].
    assert (Hadm : admitNew = true \/ seqEvictions s <= 0) by (destruct admitNew; [by left|right; simpl in Ha; b2p; lia]).
    destruct (seqFits s (seqPart s h)) eqn:Hfit; cbn [negb andb].
    + pose proof (add_item s s (seqPart s h) h seqno deleted vp Hwf eq_refl Hf
        (shrinks_refl _ (seqPart_NoDup s h Hwf)) ltac:(intros; congruence)) as Hadd.
      destruct (emplace s (seqPart s h) h) as [s1 p1]. destruct Hadd as (i & -> & Hw & He & Hv & Ho).
      split_and!; [done|by rewrite He|done|by left].
    + destruct (bool_decide (p_map (seqPart s h) = [])); [cbn [reject seqEvictions]; intuition lia|].
      pose proof (add_item s (countEviction s) (evictSeq (seqPart s h)) h seqno deleted vp Hwf eq_refl Hf
        (evictSeq_shrinks _ (seqPart_NoDup s h Hwf)) ltac:(intros; cbn [countEviction seqEvictions]; lia)) as Hadd.
      destruct (emplace (countEviction s) (evictSeq (seqPart s h)) h) as [s1 p1].
      destruct Hadd as (i & -> & Hw & He & Hv & Ho).
      split_and!; [done|rewrite He; cbn [countEviction seqEvictions]; lia|done|by left].
Qed.
End note.

(** ** Histories

    The operations other parts of the cache perform on the index: notes of
    applied writes ([admit]) and of read fills (not [admit]), block addresses,
    hints, and the memory governor's cap changes. *)
Inductive seq_op :=
  | SNote (h seqno : Z) (deleted : bool) (vp : Z) (admitNew : bool)
  | SValuePtr (h seqno vp : Z)
  | SHint (h : Z)
  | SSetCap (cap : Z).

(** The newest write noted for [h]; histories are newest first. *)
Fixpoint latest (hist : list seq_op) (h : Z) : option (Z * bool) :=
  match hist with
  | [] => None
  | SNote h' seqno deleted _ true :: hist' =>
      if h' =? h then Some (seqno, deleted) else latest hist' h
  | _ :: hist' => latest hist' h
  end.

Definition supplied (hist : list seq_op) (h seqno vp : Z) : Prop :=
  SValuePtr h seqno vp ∈ hist \/ exists admitNew, SNote h seqno false vp admitNew ∈ hist.

Section history.
Context `{FL : F14MapLaws}.

Definition seq_apply (s : SeqIndex) (op : seq_op) : SeqIndex :=
  match op with
  | SNote h seqno deleted vp admitNew => noteSeqno s h seqno deleted vp admitNew
  | SValuePtr h seqno vp => noteValuePtr s h seqno vp
  | SHint h => (seqnoHint s h).2
  | SSetCap cap => setSeqCap s cap
  end.

(** Writes of a key are noted in seqno order (one writer per vbucket), and the
    note of a write was not turned away for lack of memory. *)
Definition op_ok (hist : list seq_op) (s : SeqIndex) (op : seq_op) : Prop :=
  match op with
  | SNote h seqno deleted vp admitNew =>
      seqno_ok seqno /\
      (admitNew = true -> (forall q d, latest hist h = Some (q, d) -> q < seqno) /\
                       noteSeqno s h seqno deleted vp admitNew <> reject s)
  | SValuePtr h seqno vp => seqno_ok seqno
  | _ => True
  end.

Inductive seq_run : list seq_op -> SeqIndex -> Prop :=
  | seq_run_init : seq_run [] emptySeqIndex
  | seq_run_step hist s op : seq_run hist s -> op_ok hist s op ->
      seq_run (op :: hist) (seq_apply s op).

(** An item is at least as new as the newest noted write, keeps its deletion,
    and its block address was recorded for its seqno; a noted key without an
    item was evicted. *)
Definition item_ok (hist : list seq_op) (h : Z) (v : SeqEntry) : Prop :=
  (forall q d, latest hist h = Some (q, d) ->
     q <= curOf v /\ (d = true -> q = curOf v -> delOf v = true)) /\
  (q_valuePtr v <> 0 -> supplied hist h (curOf v) (q_valuePtr v)).

Definition seq_inv (hist : list seq_op) (s : SeqIndex) : Prop :=
  seq_wf s /\ 0 <= seqEvictions s /\
  forall h, match view s h with
            | Some v => item_ok hist h v
            | None => latest hist h = None \/ 0 < seqEvictions s
            end.

Lemma supplied_mono hist op h q vp : supplied hist h q vp -> supplied (op :: hist) h q vp.
Proof. intros [Hs|[a Hs]]; [left; by right|right; exists a; by right]. Qed.

Lemma item_ok_soft hist h v v' : soft v v' -> item_ok hist h v -> item_ok hist h v'.
Proof. intros (H1 & H2 & H3) Hok. unfold item_ok. rewrite H1, H2, H3. done. Qed.

(** An operation that is not a write of [h] keeps [h]'s item. *)
Lemma item_ok_keep hist op h v : latest (op :: hist) h = latest hist h ->
  item_ok hist h v -> item_ok (op :: hist) h v.
Proof. intros Hl [H1 H2]. split; [by rewrite Hl|]. intros Hv. by apply supplied_mono, H2. Qed.

Lemma item_ok_raise hist h v seqno deleted vp admitNew : seqno_ok seqno ->
  (admitNew = true -> forall q d, latest hist h = Some (q, d) -> q < seqno) ->
  item_ok hist h v ->
  item_ok (SNote h seqno deleted vp admitNew :: hist) h (raise v seqno deleted vp).
Proof.
  intros Hs Hord [H1 H2]. unfold seqno_ok in Hs.
  destruct (raise_spec v seqno deleted vp ltac:(lia)) as [Hup Hkeep].
  assert (Hl : forall q d, latest (SNote h seqno deleted vp admitNew :: hist) h = Some (q, d) ->
             (admitNew = true /\ q = seqno /\ d = deleted) \/ (admitNew = false /\ latest hist h = Some (q, d))).
  { intros q d. simpl. destruct admitNew; [rewrite Z.eqb_refl; intros [= <- <-]; by left|by right]. }
  destruct (decide (curOf v < seqno \/ seqno = curOf v /\ deleted = true)) as [Hc|Hc].
  - destruct (Hup Hc) as (E1 & E2 & E3). unfold item_ok. rewrite E1, E2, E3. split.
    + intros q d [(-> & -> & ->)|[-> Hq]]%Hl; [split; [lia|done]|].
      destruct (H1 _ _ Hq) as [Hq1 Hq2]. split; [lia|]. intros -> ->. destruct Hc as [|[_ ?]]; [lia|done].
    + destruct deleted; [done|]. intros _. right. exists admitNew. by left.
  - destruct Hkeep as (E1 & E2 & E3). { destruct deleted; lia. }
    unfold item_ok. rewrite E1, E2. split.
    + intros q d [(-> & -> & ->)|[-> Hq]]%Hl; [|by apply H1].
      split; [destruct deleted; lia|]. intros -> ->. lia.
    + intros Hne. destruct E3 as [E3|(Heq & E3 & Hvp)]; rewrite E3 in *.
      * by apply supplied_mono, H2.
      * right. exists admitNew. rewrite <- Heq. destruct deleted; [lia|]. by left.
Qed.

Lemma latest_other op hist h k : k <> h ->
  match op with SNote h' _ _ _ _ => h' = h | _ => True end ->
  latest (op :: hist) k = latest hist k.
Proof.
  intros Hne. destruct op as [h' ? ? ? []| | |]; try done. intros ->. simpl.
  destruct (Z.eqb_spec h k); [congruence|done].
Qed.

Lemma item_ok_new hist h seqno deleted vp admitNew : seqno_ok seqno ->
  admitNew = true \/ latest hist h = None ->
  item_ok (SNote h seqno deleted vp admitNew :: hist) h (raise (mkSeqEntry 0 0) seqno deleted vp).
Proof.
  intros Hs Hadm. unfold seqno_ok in Hs.
  destruct (raise_spec (mkSeqEntry 0 0) seqno deleted vp ltac:(lia)) as [Hup _].
  destruct Hup as (E1 & E2 & E3); [left; change (curOf (mkSeqEntry 0 0)) with 0; lia|].
  unfold item_ok. rewrite E1, E2, E3. split.
  - intros q d. simpl. destruct admitNew.
    + rewrite Z.eqb_refl. intros [= <- <-]. split; [lia|done].
    + destruct Hadm as [|Hn]; [done|by rewrite Hn].
  - destruct deleted; [done|]. intros _. right. exists admitNew. by left.
Qed.

Lemma seq_inv_note hist s h seqno deleted vp admitNew :
  seq_inv hist s -> op_ok hist s (SNote h seqno deleted vp admitNew) ->
  seq_inv (SNote h seqno deleted vp admitNew :: hist) (noteSeqno s h seqno deleted vp admitNew).
Proof.
  intros (Hwf & He & Hinv) [Hs Hord].
  destruct (noteSeqno_spec s h seqno deleted vp admitNew Hwf) as (Hwf' & He' & Ho & Hh).
  set (s' := noteSeqno s h seqno deleted vp admitNew) in *. split_and!; [done|lia|].
  intros k. pose proof (Hinv k) as Hi. destruct (decide (k = h)) as [->|Hne].
  - destruct (view s h) as [v|] eqn:Hv.
    + rewrite Hh. apply item_ok_raise; [done|by intros Ha; apply Hord|done].
    + destruct Hh as [[-> Hadm]|Hrej].
      * apply item_ok_new; [done|]. destruct Hadm as [|Hz]; [by left|right]. destruct Hi; [done|lia].
      * destruct admitNew; [by destruct (proj2 (Hord eq_refl))|].
        rewrite Hrej. change (view (reject s) h) with (view s h). rewrite Hv. done.
  - specialize (Ho k Hne). rewrite (latest_other _ hist h k) by done.
    destruct (view s' k) as [v'|].
    + destruct Ho as (v & Hv & Hsoft). rewrite Hv in Hi. eapply item_ok_soft; [done|].
      apply item_ok_keep; [by rewrite (latest_other _ hist h k)|done].
    + destruct Ho as [Ho|Ho]; [|right; lia].
      rewrite Ho in Hi. destruct Hi; [by left|right; lia].
Qed.

(** Operations that rewrite [h]'s item in place. *)
Lemma seq_inv_raised hist s s' op h f : seq_inv hist s -> raised s s' h f ->
  (forall k, latest (op :: hist) k = latest hist k) ->
  (forall v, item_ok hist h v -> item_ok (op :: hist) h (f v)) ->
  seq_inv (op :: hist) s'.
Proof.
  intros (Hwf & He & Hinv) (Hwf' & He' & v & Hv & Hfv & Ho) Hl Hf. split_and!; [done|lia|].
  intros k. specialize (Hinv k). destruct (decide (k = h)) as [->|Hne].
  - rewrite Hfv. rewrite Hv in Hinv. by apply Hf.
  - rewrite Ho by done. destruct (view s k); [by apply item_ok_keep|]. rewrite Hl, He'. done.
Qed.

Lemma seq_inv_same hist s op : seq_inv hist s -> (forall k, latest (op :: hist) k = latest hist k) ->
  seq_inv (op :: hist) s.
Proof.
  intros (Hwf & He & Hinv) Hl. split_and!; [done..|]. intros k. specialize (Hinv k).
  destruct (view s k); [by apply item_ok_keep|by rewrite Hl].
Qed.

Lemma seq_inv_valuePtr hist s h seqno vp : seq_inv hist s -> seqno_ok seqno ->
  seq_inv (SValuePtr h seqno vp :: hist) (noteValuePtr s h seqno vp).
Proof.
  intros Hinv Hs. pose proof (proj1 Hinv) as Hwf. unfold noteValuePtr.
  pose proof (seq_find_look (p_map (seqPart s h)) h) as Hf.
  destruct (seq_find (p_map (seqPart s h)) h) as [i|] eqn:Hi; [|by apply seq_inv_same].
  destruct Hf as (v & Hv & Hl).
  eapply seq_inv_raised; [exact Hinv|eapply update_item; try done|done|].
  { intros kv. by case_match. }
  intros w Hw. cbn [fst snd]. apply (item_ok_keep _ (SValuePtr h seqno vp)) in Hw; [|done].
  destruct (Z.eqb_spec (Z.land (q_seqno w) (Z.lnot kSeqnoUsed)) seqno) as [Heq|]; [|done].
  unfold seqno_ok in Hs. destruct (land_lnot_Used (q_seqno w) seqno vp ltac:(lia) Heq) as [Hc Hd].
  split; [apply Hw|]. cbn [snd q_valuePtr]. intros _. rewrite Hc. left. by left.
Qed.

Lemma seq_inv_hint hist s h : seq_inv hist s -> seq_inv (SHint h :: hist) (seqnoHint s h).2.
Proof.
  intros Hinv. pose proof (proj1 Hinv) as Hwf. unfold seqnoHint.
  pose proof (seq_find_look (p_map (seqPart s h)) h) as Hf.
  destruct (seq_find (p_map (seqPart s h)) h) as [i|] eqn:Hi; [|by apply seq_inv_same].
  destruct Hf as (v & Hv & Hl). rewrite Hv. destruct (negb _); [by apply seq_inv_same|].
  set (v' := mkSeqEntry _ (q_valuePtr v)). cbn [snd].
  destruct (update_item s h i v (fun kv => (kv.1, v')) (p_hand (seqPart s h))
    (p_handSet (seqPart s h)) (p_bytes (seqPart s h)) Hwf) as (Hwf' & He' & w & Hw & Hfw & Ho); [done..|].
  assert (w = v) as -> by (unfold view in Hw; congruence).
  eapply (seq_inv_raised hist s _ _ h (fun w => if decide (w = v) then v' else w)); [done| |done|].
  - split_and!; [done..|]. exists v. rewrite decide_True by done. done.
  - intros w Hwo. case_decide; [subst|by apply item_ok_keep].
    apply (item_ok_soft _ _ v); [|by apply item_ok_keep].
    destruct (markUsed_cur v (q_valuePtr v)). done.
Qed.

Lemma seq_run_inv hist s : seq_run hist s -> seq_inv hist s.
Proof.
  induction 1 as [|hist s op _ IH Hok].
  - split_and!; [split; [done|by apply Forall_replicate; constructor]|done|].
    intros h. unfold view, seqPart, emptySeqIndex; cbn [seqParts].
    destruct (replicate _ _ !! _) as [p|] eqn:E; [|by left].
    apply lookup_replicate_1 in E as [-> _]. by left.
  - destruct op; cbn [seq_apply].
    + by apply seq_inv_note.
    + by apply seq_inv_valuePtr.
    + by apply seq_inv_hint.
    + by apply (seq_inv_same hist (setSeqCap s cap)).
Qed.

(** What a hint says of the item it was taken from. *)
Lemma seqnoHint_view s h :
  match view s h with
  | Some v => if delOf v then (seqnoHint s h).1 = (0, 0)
              else (seqnoHint s h).1 = (curOf v, q_valuePtr v)
  | None => (seqnoHint s h).1 = (0, 0)
  end.
Proof.
  unfold seqnoHint, view. pose proof (seq_find_look (p_map (seqPart s h)) h) as Hf.
  destruct (seq_find (p_map (seqPart s h)) h) as [i|]; [|by rewrite Hf].
  destruct Hf as (v & Hv & Hl). rewrite Hl, Hv, land_Deleted. fold (delOf v).
  destruct (delOf v); [done|]. cbn [negb fst].
  destruct (markUsed_cur v (q_valuePtr v)) as [Hc _]. unfold curOf in Hc |- *. cbn [q_seqno] in *.
  by rewrite Hc.
Qed.

End history.

(** A concrete map to run the index with: items are appended, erased in place;
    the allocation doubles with the item count. *)
#[export] Instance listMap : F14Map := {
  f14_emplace l kv := l ++ [kv];
  f14_erase l i := delete i l;
  f14_bucket_count l := 2 ^ Z.log2_up (Z.of_nat (length l));
  f14_allocated l := 16 * 2 ^ Z.log2_up (Z.of_nat (length l));
}.
#[export] Instance listMap_laws : F14MapLaws.
Proof. split; [|done]. intros. symmetry. apply Permutation_cons_append. Qed.

(** Two writes, a stale fill that must not lower the hint, and a block address
    recorded for the newest version. *)
Definition sample_hist : list seq_op :=
  [SValuePtr 7 12 4096; SNote 7 9 false 0 false; SNote 7 12 false 0 true; SNote 7 10 true 0 true].
Definition sample_index : SeqIndex := foldr (fun op s => seq_apply s op) emptySeqIndex sample_hist.


