(* ===== verification/DocCache.v ===== *)
(** * DocCache: what the engine relies on in a document cache (server/cache/doccache.h)

    The contract at the top of doccache.h as an abstract state and a relation
    per operation: a cache is a finite map from vbid || key to documents with
    their outstanding pins, from which unpinned documents may disappear at any
    operation ([drops]).  [DocCache] is the interface of a policy, [DocCacheLaws]
    its promise; the engine's consistency argument (Consistency.v) is proved
    against the interface and S3Fifo.v discharges it for the S3-FIFO policy. *)
From stdpp Require Import prelude gmap list.
From Stdlib Require Import ZArith Lia.
From S2P Require Import Prelude.
Open Scope Z_scope.

(** [CachedDoc], with the number of queued writes that pin it. *)
Record CachedDoc := mkCachedDoc {
  d_seqno : Z;
  d_flags : Z;
  d_expiry : Z;
  d_datatype : Z;
  d_deleted : bool;
  d_value : list Z;
  d_pending : Z;
}.
#[export] Instance CachedDoc_eq_dec : EqDecision CachedDoc.
Proof. solve_decision. Defined.

Inductive GetResult := Miss | Hit | Tombstone | TooLarge.
#[export] Instance GetResult_eq_dec : EqDecision GetResult.
Proof. solve_decision. Defined.

Abbreviation docs := (gmap (list Z) CachedDoc).

(** vbid || key: one cache holds the same key for different vbuckets. *)
Definition docKey (vbid : Z) (key : list Z) : list Z := le_bytes 2 vbid ++ key.

Definition pinned (d : CachedDoc) : Prop := 0 < d_pending d.
#[export] Instance pinned_dec d : Decision (pinned d).
Proof. unfold pinned. apply _. Defined.

(** Eviction: documents may go, pinned ones may not, none changes. *)
Definition drops (A A' : docs) : Prop :=
  A' ⊆ A /\ forall k d, A !! k = Some d -> pinned d -> A' !! k = Some d.

#[export] Instance drops_refl : Reflexive drops.
Proof. by split. Qed.
#[export] Instance drops_trans : Transitive drops.
Proof.
  intros A B C [S1 P1] [S2 P2]. split; [by trans B|]. intros k d Hk Hp. by apply P2; [apply P1|].
Qed.

Definition pendingOf (A : docs) (k : list Z) : Z :=
  match A !! k with Some d => d_pending d | None => 0 end.

(** Put: replaces the entry, carries the outstanding pins over and adds one. *)
Definition put_spec (A : docs) (k value : list Z) (flags expiry datatype : Z) (deleted : bool)
    (A' : docs) : Prop :=
  drops (<[k := mkCachedDoc 0 flags expiry datatype deleted value (pendingOf A k + 1)]> A) A'.

(** PutIfAbsent: a present key is left alone; an absent one is stored unpinned,
    or not stored at all. *)
Definition putIfAbsent_spec (A : docs) (k value : list Z) (seqno flags expiry datatype : Z)
    (A' : docs) : Prop :=
  drops A A' \/
  A !! k = None /\
  drops (<[k := mkCachedDoc seqno flags expiry datatype false value 0]> A) A'.

(** MarkPersisted: records the seqno and releases one pin. *)
Definition markPersisted_spec (A : docs) (k : list Z) (seqno : Z) (A' : docs) : Prop :=
  match A !! k with
  | None => A' = A
  | Some d =>
      drops (<[k := mkCachedDoc (if seqno =? 0 then d_seqno d else seqno) (d_flags d)
                      (d_expiry d) (d_datatype d) (d_deleted d) (d_value d)
                      (d_pending d - 1)]> A) A'
  end.

(** The result of GetCopy into a buffer of [bufCap] bytes. *)
Definition getCopy_result (d : option CachedDoc) (bufCap : nat) : GetResult :=
  match d with
  | None => Miss
  | Some d => if d_deleted d then Tombstone
              else if (bufCap <? length (d_value d))%nat then TooLarge else Hit
  end.

(** The interface: operations return [None] only for undefined behaviour or a
    loop that does not end, which the laws exclude. *)
Class DocCache (S : Type) := {
  Get : S -> Z -> list Z -> option (S * option CachedDoc);
  GetCopy : S -> Z -> list Z -> nat -> option (S * GetResult * option CachedDoc);
  Put : S -> Z -> list Z -> list Z -> Z -> Z -> Z -> bool -> option S;
  PutShared : S -> Z -> list Z -> list Z -> Z -> Z -> Z -> Z -> bool -> option S;
  PutIfAbsent : S -> Z -> list Z -> list Z -> Z -> Z -> Z -> Z -> option S;
  MarkPersisted : S -> Z -> list Z -> Z -> option S;
  Erase : S -> Z -> list Z -> option S;
  SetBudget : S -> Z -> option S;
  cache_rep : S -> docs -> Prop;
}.

Class DocCacheLaws (S : Type) `{DocCache S} : Prop := {
  Get_law s A vbid key : cache_rep s A -> is_uint 16 vbid ->
    exists s', Get s vbid key = Some (s', A !! docKey vbid key) /\ cache_rep s' A;
  GetCopy_law s A vbid key bufCap : cache_rep s A -> is_uint 16 vbid ->
    exists s', GetCopy s vbid key bufCap =
                 Some (s', getCopy_result (A !! docKey vbid key) bufCap, A !! docKey vbid key) /\
               cache_rep s' A;
  Put_law s A vbid key value flags expiry datatype deleted :
    cache_rep s A -> is_uint 16 vbid -> pendingOf A (docKey vbid key) + 1 < 2 ^ 32 ->
    exists s' A', Put s vbid key value flags expiry datatype deleted = Some s' /\
      cache_rep s' A' /\ put_spec A (docKey vbid key) value flags expiry datatype deleted A';
  PutShared_law s A vbid key value capacity flags expiry datatype deleted :
    cache_rep s A -> is_uint 16 vbid -> pendingOf A (docKey vbid key) + 1 < 2 ^ 32 ->
    0 <= capacity ->
    exists s' A', PutShared s vbid key value capacity flags expiry datatype deleted = Some s' /\
      cache_rep s' A' /\ put_spec A (docKey vbid key) value flags expiry datatype deleted A';
  PutIfAbsent_law s A vbid key value seqno flags expiry datatype :
    cache_rep s A -> is_uint 16 vbid ->
    exists s' A', PutIfAbsent s vbid key value seqno flags expiry datatype = Some s' /\
      cache_rep s' A' /\
      putIfAbsent_spec A (docKey vbid key) value seqno flags expiry datatype A';
  MarkPersisted_law s A vbid key seqno :
    cache_rep s A -> is_uint 16 vbid ->
    (forall d, A !! docKey vbid key = Some d -> pinned d) ->
    exists s' A', MarkPersisted s vbid key seqno = Some s' /\
      cache_rep s' A' /\ markPersisted_spec A (docKey vbid key) seqno A';
  Erase_law s A vbid key : cache_rep s A -> is_uint 16 vbid ->
    exists s', Erase s vbid key = Some s' /\ cache_rep s' (delete (docKey vbid key) A);
  SetBudget_law s A maxBytes : cache_rep s A ->
    exists s' A', SetBudget s maxBytes = Some s' /\ cache_rep s' A' /\ drops A A';
  pending_law s A k d : cache_rep s A -> A !! k = Some d -> 0 <= d_pending d < 2 ^ 32;
}.

Lemma docKey_inj vbid key vbid' key' : is_uint 16 vbid -> is_uint 16 vbid' ->
  docKey vbid key = docKey vbid' key' -> vbid = vbid' /\ key = key'.
Proof.
  unfold docKey, is_uint. intros Hv Hv' Heq.
  apply app_inj_1 in Heq as [Hb Hk]; [|by rewrite !length_le_bytes]. split; [|done].
  rewrite <- (le_value_bytes_small 2 vbid), <- (le_value_bytes_small 2 vbid') by (simpl; lia).
  by rewrite Hb.
Qed.
