(* ===== verification/S3Fifo.v ===== *)
(** * S3Fifo: a shard of the S3-FIFO cache (server/cache/s3fifo_cache.cc)

    [Shard] holds the heap of its entries, the hash index, the small and main
    queues, the ghost queue, the byte budgets and the counters.  Operations that
    run under the shard's exclusive lock are single steps of the model; [None]
    stands for undefined behaviour (an access to a freed entry) or a probe loop
    that does not end.  The index is used only through [EntryIndex], the
    interface FlatIndex.v implements; the hash function (SpookyHashV2, a folly
    routine) is a parameter.

    [shard_inv] is the representation invariant; every operation preserves it,
    and [docs_of] gives the documents a shard holds. *)
From stdpp Require Import prelude gmap list.
From Stdlib Require Import ZArith Lia.
From S2P Require Import Prelude FlatIndex Fifo SeqnoIndex DocCache.
Open Scope Z_scope.

(** ** The index interface *)
Class EntryIndex (I : Type) := {
  ix_empty : I;
  ix_find : I -> Z -> (ptr -> bool) -> option (option ptr);
  ix_insert : I -> Z -> ptr -> option I;
  ix_erase : I -> Z -> ptr -> option I;
  ix_rep : I -> gmap ptr Z -> Prop;
}.

Class EntryIndexLaws (I : Type) `{EntryIndex I} : Prop := {
  ix_empty_law : ix_rep ix_empty ∅;
  ix_find_law ix m h eq : ix_rep ix m ->
    exists r, ix_find ix h eq = Some r /\
      match r with
      | Some e => m !! e = Some h /\ eq e = true
      | None => forall e, m !! e = Some h -> eq e = false
      end;
  ix_insert_law ix m h e : ix_rep ix m -> m !! e = None ->
    exists ix', ix_insert ix h e = Some ix' /\ ix_rep ix' (<[e := h]> m);
  ix_erase_law ix m h e : ix_rep ix m -> m !! e = Some h ->
    exists ix', ix_erase ix h e = Some ix' /\ ix_rep ix' (delete e m);
}.

#[export] Instance flat_index : EntryIndex FlatIndex := {
  ix_empty := emptyIndex;
  ix_find := FlatIndex.find;
  ix_insert := FlatIndex.insert;
  ix_erase := FlatIndex.erase;
  ix_rep := index_rep;
}.
#[export] Instance flat_index_laws : EntryIndexLaws FlatIndex.
Proof.
  split; [apply empty_rep|apply find_index_refines|apply insert_refines|apply erase_index_refines].
Qed.

Section shard.
Context {I : Type} `{IX : EntryIndex I}.
(** [S3FifoCache::hashKey]. *)
Context (hashKey : Z -> list Z -> Z).

Record Shard := mkShard {
  sh_heap : heap;
  sh_index : I;
  sh_small : Fifo;
  sh_main : Fifo;
  sh_ghost : list Z;
  sh_ghostSet : gset Z;
  sh_budget : Z;
  sh_smallBudget : Z;
  sh_puts : Z;
  sh_fills : Z;
  sh_evictions : Z;
  sh_ghostHits : Z;
  sh_fillsDeferred : Z;
  sh_pendingItems : Z;
}.

Definition emptyShard : Shard :=
  mkShard ∅ ix_empty emptyFifo emptyFifo [] ∅ 0 0 0 0 0 0 0 0.

(** The queues, heap and index of a shard replaced. *)
Definition with_queues (s : Shard) (h : heap) (small main : Fifo) : Shard :=
  mkShard h (sh_index s) small main (sh_ghost s) (sh_ghostSet s) (sh_budget s) (sh_smallBudget s)
    (sh_puts s) (sh_fills s) (sh_evictions s) (sh_ghostHits s) (sh_fillsDeferred s) (sh_pendingItems s).
Definition with_index (s : Shard) (h : heap) (ix : I) (pendingItems : Z) : Shard :=
  mkShard h ix (sh_small s) (sh_main s) (sh_ghost s) (sh_ghostSet s) (sh_budget s) (sh_smallBudget s)
    (sh_puts s) (sh_fills s) (sh_evictions s) (sh_ghostHits s) (sh_fillsDeferred s) pendingItems.
Definition with_ghost (s : Shard) (ghost : list Z) (ghostSet : gset Z) : Shard :=
  mkShard (sh_heap s) (sh_index s) (sh_small s) (sh_main s) ghost ghostSet (sh_budget s)
    (sh_smallBudget s) (sh_puts s) (sh_fills s) (sh_evictions s) (sh_ghostHits s)
    (sh_fillsDeferred s) (sh_pendingItems s).
Definition with_counters (s : Shard) (puts fills evictions ghostHits fillsDeferred : Z) : Shard :=
  mkShard (sh_heap s) (sh_index s) (sh_small s) (sh_main s) (sh_ghost s) (sh_ghostSet s)
    (sh_budget s) (sh_smallBudget s) puts fills evictions ghostHits fillsDeferred (sh_pendingItems s).
Definition with_budget (s : Shard) (budget smallBudget : Z) : Shard :=
  mkShard (sh_heap s) (sh_index s) (sh_small s) (sh_main s) (sh_ghost s) (sh_ghostSet s)
    budget smallBudget (sh_puts s) (sh_fills s) (sh_evictions s) (sh_ghostHits s)
    (sh_fillsDeferred s) (sh_pendingItems s).

Definition ehash (e : Entry) : Z := hashKey (e_vbid e) (e_key e).

Definition sh_bytes (s : Shard) : Z := bytes (sh_small s) + bytes (sh_main s).

(** [Shard::find]: the index with the key comparison on the entries. *)
Definition find (s : Shard) (h : Z) (mk : list Z) : option (option ptr) :=
  ix_find (sh_index s) h
    (fun p => match sh_heap s !! p with Some e => bool_decide (mapKey e = mk) | None => false end).

(** The trimming loop of [ghostAdd]. *)
Fixpoint ghostTrim (fuel : nat) (cap : Z) (ghost : list Z) (ghostSet : gset Z)
    : list Z * gset Z :=
  match fuel, ghost with
  | S f, g :: ghost' =>
      if cap <? Z.of_nat (length ghost) then ghostTrim f cap ghost' (ghostSet ∖ {[g]})
      else (ghost, ghostSet)
  | _, _ => (ghost, ghostSet)
  end.

Definition ghostAdd (s : Shard) (h : Z) : Shard :=
  if bool_decide (h ∈ sh_ghostSet s) then s else
  let ghost := sh_ghost s ++ [h] in
  let ghostSet := sh_ghostSet s ∪ {[h]} in
  let cap := Z.max 1024 (fcount (sh_main s)) in
  let '(ghost, ghostSet) := ghostTrim (length ghost) cap ghost ghostSet in
  with_ghost s ghost ghostSet.

Definition unlink (s : Shard) (p : ptr) : option Shard :=
  e ← sh_heap s !! p;
  match e_queue e with
  | kSmall => '(h, q) ← remove (sh_heap s) (sh_small s) p; Some (with_queues s h q (sh_main s))
  | kMain => '(h, q) ← remove (sh_heap s) (sh_main s) p; Some (with_queues s h (sh_small s) q)
  end.

(** [e] is in the heap already. *)
Definition insert (s : Shard) (p : ptr) (hash : Z) : option Shard :=
  e ← sh_heap s !! p;
  s ← (if bool_decide (hash ∈ sh_ghostSet s) then
         '(h, q) ← pushHead (<[p := set_queue kMain e]> (sh_heap s)) (sh_main s) p;
         let s := with_queues s h (sh_small s) q in
         Some (with_counters s (sh_puts s) (sh_fills s) (sh_evictions s) (sh_ghostHits s + 1)
                 (sh_fillsDeferred s))
       else
         '(h, q) ← pushHead (<[p := set_queue kSmall e]> (sh_heap s)) (sh_small s) p;
         Some (with_queues s h q (sh_main s)));
  ix ← ix_insert (sh_index s) hash p;
  Some (with_index s (sh_heap s) ix (sh_pendingItems s)).

Definition free (s : Shard) (p : ptr) : option Shard :=
  e ← sh_heap s !! p;
  ix ← ix_erase (sh_index s) (ehash e) p;
  Some (with_index s (delete p (sh_heap s)) ix
          (if 0 <? e_pending e then u64 (sh_pendingItems s - 1) else sh_pendingItems s)).

Definition evictSmall (s : Shard) : option Shard :=
  '(h, q, op) ← popTail (sh_heap s) (sh_small s);
  p ← op;
  e ← h !! p;
  if (0 <? e_pending e) || (1 <? e_freq e) then
    '(h, qm) ← pushHead (<[p := set_queue kMain (set_freq 0 e)]> h) (sh_main s) p;
    Some (with_queues s h q qm)
  else
    let s := with_queues s h q (sh_main s) in
    let s := ghostAdd s (ehash e) in
    let s := with_counters s (sh_puts s) (sh_fills s) (sh_evictions s + 1) (sh_ghostHits s)
               (sh_fillsDeferred s) in
    free s p.

Definition evictMain (s : Shard) : option Shard :=
  '(h, q, op) ← popTail (sh_heap s) (sh_main s);
  p ← op;
  e ← h !! p;
  let f := e_freq e in
  if (0 <? e_pending e) || (0 <? f) then
    '(h, q) ← pushHead (<[p := if 0 <? f then set_freq (f - 1) e else e]> h) q p;
    Some (with_queues s h (sh_small s) q)
  else
    let s := with_queues s h (sh_small s) q in
    let s := with_counters s (sh_puts s) (sh_fills s) (sh_evictions s + 1) (sh_ghostHits s)
               (sh_fillsDeferred s) in
    free s p.

(** [while (bytes() > budget && guard-- > 0)]: [guard] is the fuel the source
    itself keeps. *)
Fixpoint evictLoop (guard : nat) (s : Shard) : option Shard :=
  match guard with
  | O => Some s
  | S g =>
      if sh_budget s <? sh_bytes s then
        if (sh_smallBudget s <? bytes (sh_small s)) && bool_decide (tail (sh_small s) <> None) then
          s ← evictSmall s; evictLoop g s
        else if bool_decide (tail (sh_main s) <> None) then
          s ← evictMain s; evictLoop g s
        else if bool_decide (tail (sh_small s) <> None) then
          s ← evictSmall s; evictLoop g s
        else Some s
      else Some s
  end.

Definition evictGuard (s : Shard) : nat :=
  Z.to_nat ((kMaxFreq + 1) * (fcount (sh_small s) + fcount (sh_main s)) + 1).

Definition evict (s : Shard) : option Shard := evictLoop (evictGuard s) s.

(** ** Cache operations on the key's shard

    [MapKeyBuf vbid key] is the probe key and [hashKey vbid key] the hash. *)

(** The hit path of Get and GetCopy: raise the frequency, read the entry. *)
Definition doc_of (e : Entry) : CachedDoc :=
  mkCachedDoc (e_seqno e) (e_flags e) (e_expiry e) (e_datatype e) (e_deleted e) (e_value e)
    (e_pending e).

Definition touch (s : Shard) (p : ptr) : option (Shard * Entry) :=
  e ← sh_heap s !! p;
  let f := e_freq e in
  let e := if f <? kMaxFreq then set_freq (f + 1) e else e in
  Some (with_queues s (<[p := e]> (sh_heap s)) (sh_small s) (sh_main s), e).

Definition getShard (s : Shard) (vbid : Z) (key : list Z) : option (Shard * option CachedDoc) :=
  op ← find s (hashKey vbid key) (MapKeyBuf vbid key);
  match op with
  | None => Some (s, None)
  | Some p => '(s, e) ← touch s p; Some (s, Some (doc_of e))
  end.

(** The old version of a written key leaves the shard; its outstanding pins are
    carried over. *)
Definition displace (s : Shard) (hash : Z) (mk : list Z) : option (Shard * Z) :=
  op ← find s hash mk;
  match op with
  | Some old =>
      eo ← sh_heap s !! old;
      s ← unlink s old;
      ix ← ix_erase (sh_index s) hash old;
      Some (with_index s (delete old (sh_heap s)) ix (sh_pendingItems s), e_pending eo)
  | None => Some (s, 0)
  end.

(** [putEntry]: [e] is the entry [Put]/[PutShared] created. *)
Definition putEntry (s : Shard) (hash : Z) (e : Entry) : option Shard :=
  '(s, carry) ← displace s hash (mapKey e);
  let e := set_pending (u32 (carry + 1)) e in
  let p := fresh (dom (sh_heap s)) in
  let s := with_index s (<[p := e]> (sh_heap s)) (sh_index s)
             (if carry =? 0 then u64 (sh_pendingItems s + 1) else sh_pendingItems s) in
  s ← insert s p hash;
  let s := with_counters s (sh_puts s + 1) (sh_fills s) (sh_evictions s) (sh_ghostHits s)
             (sh_fillsDeferred s) in
  evict s.

(** The last critical section of [PutIfAbsent]: look again, then store. *)
Definition fillInsert (s : Shard) (hash : Z) (e : Entry) : option (Shard * bool) :=
  op ← find s hash (mapKey e);
  match op with
  | Some _ => Some (s, false)
  | None =>
      let p := fresh (dom (sh_heap s)) in
      let s := with_index s (<[p := e]> (sh_heap s)) (sh_index s) (sh_pendingItems s) in
      s ← insert s p hash;
      let s := with_counters s (sh_puts s) (sh_fills s + 1) (sh_evictions s) (sh_ghostHits s)
                 (sh_fillsDeferred s) in
      s ← evict s;
      Some (s, true)
  end.

(** The doorkeeper's critical section: [true] when the fill may go on. *)
Definition fillDoor (s : Shard) (hash : Z) : Shard * bool :=
  if bool_decide (hash ∈ sh_ghostSet s) then (s, true) else
  let s := ghostAdd s hash in
  (with_counters s (sh_puts s) (sh_fills s) (sh_evictions s) (sh_ghostHits s)
     (sh_fillsDeferred s + 1), false).

(** [MarkPersisted]'s shared-lock section: store the seqno, release one pin;
    [true] when the shard must be trimmed. *)
Definition markShard (s : Shard) (vbid : Z) (key : list Z) (seqno : Z)
    : option (Shard * option bool * bool) :=
  op ← find s (hashKey vbid key) (MapKeyBuf vbid key);
  match op with
  | None => Some (s, None, false)
  | Some p =>
      e ← sh_heap s !! p;
      let e1 := if seqno =? 0 then e else set_seqno seqno e in
      let old := e_pending e1 in
      let s1 := with_queues s (<[p := set_pending (u32 (old - 1)) e1]> (sh_heap s))
                  (sh_small s) (sh_main s) in
      if old =? 1 then
        let s1 := with_index s1 (sh_heap s1) (sh_index s1) (u64 (sh_pendingItems s1 - 1)) in
        Some (s1, Some (e_deleted e), sh_budget s1 <? sh_bytes s1)
      else Some (s1, Some (e_deleted e), false)
  end.

Definition eraseShard (s : Shard) (vbid : Z) (key : list Z) : option Shard :=
  op ← find s (hashKey vbid key) (MapKeyBuf vbid key);
  match op with
  | None => Some s
  | Some p => s ← unlink s p; free s p
  end.

Definition setBudgetShard (s : Shard) (perShard : Z) : option Shard :=
  evict (with_budget s perShard (perShard * kSmallPercent / 100)).
End shard.
