(* ===== verification/S3FifoInv.v ===== *)
(** * S3FifoInv: the representation invariant of a cache shard

    The invariant splits into the queues ([qrep]: both FIFOs are well linked,
    partition the heap and agree with each entry's [queue] field), the index
    and counters ([core_inv]) and the ghost queue ([ghost_ok]).  Each primitive
    step of the shard (link, unlink, free, in-place update) has a lemma here;
    S3FifoOps.v composes them into the cache operations. *)
From stdpp Require Import prelude gmap list.
From Stdlib Require Import ZArith Lia.
From S2P Require Import Prelude FlatIndex Fifo SeqnoIndex DocCache S3Fifo.
Open Scope Z_scope.

(** ** Queues *)
Definition upd {A} (f : Queue -> A) (k : Queue) (v : A) : Queue -> A :=
  fun k' => if decide (k' = k) then v else f k'.

Lemma upd_eq {A} (f : Queue -> A) k v : upd f k v k = v.
Proof. unfold upd. by rewrite decide_True. Qed.
Lemma upd_ne {A} (f : Queue -> A) k k' v : k' <> k -> upd f k v k' = f k'.
Proof. intros. unfold upd. by rewrite decide_False. Qed.

(** [xs]: entries in the heap that are in neither queue at the moment. *)
Record qrep (h : heap) (qs : Queue -> Fifo) (ls : Queue -> list ptr) (xs : list ptr) : Prop := {
  q_fifo k : fifo_rep h (qs k) (ls k);
  q_dom p : is_Some (h !! p) <-> (exists k, p ∈ ls k) \/ p ∈ xs;
  q_out p k : p ∈ xs -> p ∉ ls k;
  q_queue k p e : p ∈ ls k -> h !! p = Some e -> e_queue e = k;
}.

Lemma qrep_ext h qs qs' ls ls' xs : (forall k, qs k = qs' k) -> (forall k, ls k = ls' k) ->
  qrep h qs ls xs -> qrep h qs' ls' xs.
Proof.
  intros Hq Hl [F D X Q]. split.
  - intros k. rewrite <- Hq, <- Hl. apply F.
  - intros p. rewrite D. by setoid_rewrite Hl.
  - intros p k. rewrite <- Hl. apply X.
  - intros k p e. rewrite <- Hl. apply Q.
Qed.

Lemma q_live h qs ls xs k p : qrep h qs ls xs -> p ∈ ls k -> exists e, h !! p = Some e /\ e_queue e = k.
Proof.
  intros R Hp. assert (is_Some (h !! p)) as [e He] by (apply (q_dom _ _ _ _ R); eauto).
  exists e. split; [done|]. by eapply (q_queue _ _ _ _ R).
Qed.

Lemma q_disjoint h qs ls xs k k' p : qrep h qs ls xs -> p ∈ ls k -> p ∈ ls k' -> k = k'.
Proof.
  intros R Hp Hp'. destruct (q_live _ _ _ _ _ _ R Hp) as (e & He & <-).
  by eapply (q_queue _ _ _ _ R).
Qed.

Lemma strip_queue e e' : strip e' = strip e -> e_queue e' = e_queue e.
Proof. destruct e, e'; unfold strip; simpl; intros [=]; subst; done. Qed.

(** The parts of the invariant that links do not touch. *)
Lemma links_queue h h' p e' : links_only h h' -> h' !! p = Some e' ->
  exists e, h !! p = Some e /\ strip e' = strip e.
Proof.
  intros Hl Hp. destruct (links_only_lookup h' h p e') as (e & He & Hs); [by symmetry|done|].
  exists e. split; [done|by symmetry].
Qed.

Lemma links_dom h h' p : links_only h h' -> is_Some (h' !! p) <-> is_Some (h !! p).
Proof.
  intros Hl. split; intros [e He].
  - destruct (links_queue _ _ _ _ Hl He) as (e' & ? & _). eauto.
  - destruct (links_only_lookup _ _ _ _ Hl He) as (e' & ? & _). eauto.
Qed.

Lemma q_remove h qs ls k l1 p l2 : qrep h qs ls [] -> ls k = l1 ++ p :: l2 ->
  exists h' q', remove h (qs k) p = Some (h', q') /\
    qrep h' (upd qs k q') (upd ls k (l1 ++ l2)) [p] /\ links_only h h'.
Proof.
  intros R Hk. pose proof (q_fifo _ _ _ _ R k) as Hf. rewrite Hk in Hf.
  destruct (remove_spec h (qs k) l1 p l2 Hf) as (h' & q' & Hr & Hf' & Hlo & Hfr).
  exists h', q'. split_and!; [done| |done].
  assert (Hnp : p ∉ l1 ++ l2).
  { destruct Hf as [Hnd _]. apply NoDup_app in Hnd as (_ & Hd & [? _]%NoDup_cons).
    rewrite elem_of_app. intros [Hin|?]; [|done]. by apply (Hd p Hin); left. }
  assert (Hin : forall x k', x ∈ upd ls k (l1 ++ l2) k' -> x ∈ ls k').
  { intros x k'. unfold upd. case_decide; [subst; rewrite Hk|done]. set_solver. }
  split.
  - intros k'. unfold upd. case_decide as Hd; [done|].
    eapply fifo_frame; [apply R|]. intros x Hx. apply Hfr. rewrite <- Hk. intros Hx'.
    apply Hd. by eapply (q_disjoint h qs ls []).
  - intros x. rewrite (links_dom _ _ _ Hlo), (q_dom _ _ _ _ R), list_elem_of_singleton. split.
    + intros [[k' Hx]|Hx]; [|by apply elem_of_nil in Hx].
      destruct (decide (k' = k)) as [->|Hne].
      * rewrite Hk in Hx. destruct (decide (x = p)) as [->|]; [by right|]. left. exists k.
        rewrite upd_eq. set_solver.
      * left. exists k'. by rewrite upd_ne.
    + intros [[k' Hx]| ->]; left; [by eauto|]. exists k. rewrite Hk. set_solver.
  - intros x k'. rewrite list_elem_of_singleton. intros ->.
    destruct (decide (k' = k)) as [->|Hne]; [by rewrite upd_eq|]. rewrite upd_ne by done. intros Hx.
    apply Hne. eapply (q_disjoint h qs ls []); [done..|]. rewrite Hk. set_solver.
  - intros k' x e' Hx He'. destruct (links_queue _ _ _ _ Hlo He') as (e & He & Hs).
    rewrite (strip_queue _ _ Hs). eapply (q_queue _ _ _ _ R); [by apply Hin|done].
Qed.

Lemma q_push h qs ls k p e e' : qrep h qs ls [p] -> h !! p = Some e -> e_queue e' = k ->
  exists h' q', pushHead (<[p := e']> h) (qs k) p = Some (h', q') /\
    qrep h' (upd qs k q') (upd ls k (p :: ls k)) [] /\ links_only (<[p := e']> h) h'.
Proof.
  intros R He Hq. assert (Hout : forall k', p ∉ ls k') by (intros; apply (q_out _ _ _ _ R); by left).
  assert (Hf : forall k', fifo_rep (<[p := e']> h) (qs k') (ls k')).
  { intros k'. eapply fifo_frame; [apply R|]. intros x Hx. rewrite lookup_insert_ne; [done|].
    intros ->. by apply (Hout k'). }
  destruct (pushHead_spec (<[p := e']> h) (qs k) (ls k) p e') as (h' & q' & Hp & Hf' & Hlo & Hfr);
    [done..|by rewrite lookup_insert_eq|].
  exists h', q'. split_and!; [done| |done]. split.
  - intros k'. unfold upd. case_decide as Hd; [done|]. eapply fifo_frame; [apply Hf|].
    intros x Hx. apply Hfr. rewrite elem_of_cons. intros [->|Hx']; [by apply (Hout k')|].
    apply Hd. by eapply (q_disjoint h qs ls [p]).
  - intros x. rewrite (links_dom _ _ _ Hlo). rewrite lookup_insert_is_Some', (q_dom _ _ _ _ R), list_elem_of_singleton. split.
    + intros [->|[[k' Hx]| ->]]; left; [exists k; rewrite upd_eq; by left| |exists k; rewrite upd_eq; by left].
      exists k'. unfold upd. case_decide; [subst; by right|done].
    + intros [[k' Hx]|Hx]; [|by apply elem_of_nil in Hx]. unfold upd in Hx. case_decide; [|by eauto].
      apply elem_of_cons in Hx as [->|Hx]; [by left|subst; eauto].
  - intros x k' Hx. by apply elem_of_nil in Hx.
  - intros k' x ex Hx Hex. destruct (links_queue _ _ _ _ Hlo Hex) as (e0 & He0 & Hs).
    rewrite (strip_queue _ _ Hs). rewrite lookup_insert in He0. case_decide as Hd.
    + simplify_eq. destruct (decide (k' = e_queue e0)) as [|Hne]; [done|].
      rewrite upd_ne in Hx by done. by destruct (Hout k').
    + eapply (q_queue _ _ _ _ R); [|done]. unfold upd in Hx. case_decide; [|done].
      subst. apply elem_of_cons in Hx as [->|]; done.
Qed.

Lemma q_delete h qs ls p : qrep h qs ls [p] -> qrep (delete p h) qs ls [].
Proof.
  intros R. assert (Hout : forall k', p ∉ ls k') by (intros; apply (q_out _ _ _ _ R); by left). split.
  - intros k. eapply fifo_frame; [apply R|]. intros x Hx. rewrite lookup_delete_ne; [done|].
    intros ->. by apply (Hout k).
  - intros x. rewrite lookup_delete_is_Some, (q_dom _ _ _ _ R), list_elem_of_singleton. split.
    + intros [Hne [?|?]]; [by left|congruence].
    + intros [[k Hx]|Hx]; [|by apply elem_of_nil in Hx]. split; [|by eauto].
      intros ->. by apply (Hout k).
  - intros x k Hx. by apply elem_of_nil in Hx.
  - intros k x e Hx [_ He]%lookup_delete_Some. by eapply (q_queue _ _ _ _ R).
Qed.

Lemma q_add h qs ls p e : qrep h qs ls [] -> h !! p = None -> qrep (<[p := e]> h) qs ls [p].
Proof.
  intros R Hp. assert (Hout : forall k', p ∉ ls k').
  { intros k' Hk. destruct (q_live _ _ _ _ _ _ R Hk) as (? & ? & _). congruence. } split.
  - intros k. eapply fifo_frame; [apply R|]. intros x Hx. rewrite lookup_insert_ne; [done|].
    intros ->. by apply (Hout k).
  - intros x. rewrite lookup_insert_is_Some', (q_dom _ _ _ _ R), elem_of_nil, list_elem_of_singleton.
    naive_solver.
  - intros x k ->%list_elem_of_singleton. apply Hout.
  - intros k x e' Hx He. rewrite lookup_insert_ne in He by (intros ->; by apply (Hout k)).
    by eapply (q_queue _ _ _ _ R).
Qed.

(** An update that keeps links, queue and charge. *)
Definition same_place (e e' : Entry) : Prop :=
  e_prev e' = e_prev e /\ e_next e' = e_next e /\ e_queue e' = e_queue e /\ charge e' = charge e.

Lemma q_update h qs ls p e e' : qrep h qs ls [] -> h !! p = Some e -> same_place e e' ->
  qrep (<[p := e']> h) qs ls [].
Proof.
  intros R Hp (E1 & E2 & E3 & E4). split.
  - intros k. destruct (q_fifo _ _ _ _ R k) as (Hnd & Hl & Hhd & Htl & Hc & Hb).
    split_and!; try done.
    + intros i x Hx. destruct (Hl i x Hx) as (ex & Hex & Hpr & Hnx). rewrite lookup_insert.
      case_decide; simplify_eq; [exists e'|exists ex]; split_and!; congruence.
    + rewrite Hb. f_equal. apply list_fmap_ext. intros i x _. unfold chargeOf.
      rewrite lookup_insert. case_decide; [subst; by rewrite Hp|done].
  - intros x. rewrite lookup_insert_is_Some', <- (q_dom _ _ _ _ R). split; [intros [->|]; [by eauto|done]|by right].
  - apply R.
  - intros k x ex Hx Hex. rewrite lookup_insert in Hex. case_decide; simplify_eq.
    + rewrite E3. by eapply (q_queue _ _ _ _ R).
    + by eapply (q_queue _ _ _ _ R).
Qed.

(** ** Documents of a heap *)
Definition unique_keys (h : heap) : Prop :=
  forall p q e e', h !! p = Some e -> h !! q = Some e' -> mapKey e = mapKey e' -> p = q.

Definition docs_of (h : heap) : docs :=
  list_to_map ((fun pe => (mapKey pe.2, doc_of pe.2)) <$> map_to_list h).

Lemma docs_of_lookup h k d : unique_keys h ->
  docs_of h !! k = Some d <-> exists p e, h !! p = Some e /\ mapKey e = k /\ doc_of e = d.
Proof.
  intros Hu. unfold docs_of. rewrite <- elem_of_list_to_map.
  - rewrite list_elem_of_fmap. split.
    + intros ([p e] & [= -> ->] & He%elem_of_map_to_list). eauto.
    + intros (p & e & He & <- & <-). exists (p, e). by rewrite elem_of_map_to_list.
  - rewrite <- list_fmap_compose. apply NoDup_fmap_2_strong; [|apply NoDup_map_to_list].
    intros [p e] [q e'] Hp%elem_of_map_to_list Hq%elem_of_map_to_list Hk. simpl in Hk.
    assert (p = q) by (by eapply Hu). subst q. congruence.
Qed.

Lemma docs_of_entry h p e : unique_keys h -> h !! p = Some e ->
  docs_of h !! mapKey e = Some (doc_of e).
Proof. intros. apply docs_of_lookup; eauto. Qed.

Lemma docs_of_absent h k : unique_keys h ->
  (forall p e, h !! p = Some e -> mapKey e <> k) -> docs_of h !! k = None.
Proof.
  intros Hu Hn. apply eq_None_not_Some. intros [d (p & e & He & Hk & _)%docs_of_lookup]; [|done].
  by eapply Hn.
Qed.

Lemma strip_key e e' : strip e' = strip e -> mapKey e' = mapKey e /\ doc_of e' = doc_of e /\
  e_pending e' = e_pending e /\ e_freq e' = e_freq e /\ e_vbid e' = e_vbid e /\ e_key e' = e_key e.
Proof. destruct e, e'; unfold strip, mapKey, doc_of; simpl; intros [=]; subst; done. Qed.

Lemma docs_of_links h h' : unique_keys h -> links_only h h' ->
  unique_keys h' /\ docs_of h' = docs_of h.
Proof.
  intros Hu Hl. assert (Hu' : unique_keys h').
  { intros p q e e' Hp Hq Hk. destruct (links_queue _ _ _ _ Hl Hp) as (e0 & He0 & Hs0).
    destruct (links_queue _ _ _ _ Hl Hq) as (e1 & He1 & Hs1).
    apply strip_key in Hs0 as [E0 _], Hs1 as [E1 _]. eapply Hu; [done..|congruence]. }
  split; [done|]. apply map_eq. intros k. apply option_eq. intros d.
  rewrite !docs_of_lookup by done. split.
  - intros (p & e & He & <- & <-). destruct (links_queue _ _ _ _ Hl He) as (e0 & He0 & Hs).
    apply strip_key in Hs as (E1 & E2 & _). exists p, e0. done.
  - intros (p & e & He & <- & <-). destruct (links_only_lookup _ _ _ _ Hl He) as (e0 & He0 & Hs).
    apply strip_key in Hs as (E1 & E2 & _). exists p, e0. done.
Qed.

Lemma docs_of_insert h p e : unique_keys h -> h !! p = None ->
  (forall q e', h !! q = Some e' -> mapKey e' <> mapKey e) ->
  unique_keys (<[p := e]> h) /\ docs_of (<[p := e]> h) = <[mapKey e := doc_of e]> (docs_of h).
Proof.
  intros Hu Hp Hk. assert (Hu' : unique_keys (<[p := e]> h)).
  { intros q r e1 e2 Hq Hr Heq. rewrite lookup_insert in Hq, Hr.
    destruct (decide (p = q)) as [<-|], (decide (p = r)) as [<-|]; try done.
    - assert (e1 = e) as -> by congruence. by destruct (Hk r e2 Hr).
    - assert (e2 = e) as -> by congruence. by destruct (Hk q e1 Hq).
    - by eapply Hu. }
  split; [done|]. apply map_eq. intros k. apply option_eq. intros d.
  rewrite docs_of_lookup by done. rewrite lookup_insert. case_decide as Hd.
  - split.
    + intros (q & e' & Hq & Hqk & <-). rewrite lookup_insert in Hq. case_decide; [congruence|].
      exfalso. eapply Hk; [eassumption|congruence].
    + intros [= <-]. exists p, e. rewrite lookup_insert_eq. done.
  - rewrite docs_of_lookup by done. split; intros (q & e' & Hq & Hqk & Hqd); exists q, e'.
    + rewrite lookup_insert in Hq. case_decide; [congruence|done].
    + rewrite lookup_insert_ne; [done|]. congruence.
Qed.

Lemma docs_of_update h p e e' : unique_keys h -> h !! p = Some e -> mapKey e' = mapKey e ->
  unique_keys (<[p := e']> h) /\ docs_of (<[p := e']> h) = <[mapKey e := doc_of e']> (docs_of h).
Proof.
  intros Hu Hp Hk. assert (Hu' : unique_keys (<[p := e']> h)).
  { intros q r e1 e2 Hq Hr Heq. rewrite lookup_insert in Hq, Hr.
    destruct (decide (p = q)) as [<-|], (decide (p = r)) as [<-|]; try done.
    - assert (e1 = e') as -> by congruence. eapply Hu; [done..|congruence].
    - assert (e2 = e') as -> by congruence. eapply Hu; [done..|congruence].
    - by eapply Hu. }
  split; [done|]. apply map_eq. intros k. apply option_eq. intros d.
  rewrite docs_of_lookup by done. rewrite lookup_insert. case_decide as Hd.
  - split.
    + intros (q & e1 & Hq & Hqk & <-). rewrite lookup_insert in Hq. case_decide; [congruence|].
      assert (p = q) by (eapply Hu; [done..|congruence]). done.
    + intros [= <-]. exists p, e'. rewrite lookup_insert_eq. split_and!; [done|congruence|done].
  - rewrite docs_of_lookup by done. split; intros (q & e1 & Hq & Hqk & Hqd); exists q, e1.
    + rewrite lookup_insert in Hq. case_decide; [congruence|done].
    + rewrite lookup_insert_ne; [done|]. congruence.
Qed.

Lemma docs_of_delete h p e : unique_keys h -> h !! p = Some e ->
  unique_keys (delete p h) /\ docs_of (delete p h) = delete (mapKey e) (docs_of h).
Proof.
  intros Hu Hp. assert (Hu' : unique_keys (delete p h)).
  { intros q r e1 e2 [_ Hq]%lookup_delete_Some [_ Hr]%lookup_delete_Some Heq. by eapply Hu. }
  split; [done|]. apply map_eq. intros k. apply option_eq. intros d.
  rewrite docs_of_lookup, lookup_delete_Some, docs_of_lookup by done. split.
  - intros (q & e1 & [Hne Hq]%lookup_delete_Some & <- & <-). split; [|by eauto].
    intros Heq. apply Hne. by eapply Hu.
  - intros [Hne (q & e1 & Hq & <- & <-)]. exists q, e1. rewrite lookup_delete_ne; [done|].
    congruence.
Qed.

(** ** Pinned entries *)
Definition pinnedEntry (pe : ptr * Entry) : Prop := 0 < e_pending pe.2.
#[export] Instance pinnedEntry_dec pe : Decision (pinnedEntry pe).
Proof. unfold pinnedEntry. apply _. Defined.

Definition pendCount (h : heap) : Z := Z.of_nat (size (filter pinnedEntry h)).
Definition pinBit (e : Entry) : Z := if 0 <? e_pending e then 1 else 0.

Lemma pendCount_insert h p e : h !! p = None -> pendCount (<[p := e]> h) = pendCount h + pinBit e.
Proof.
  intros Hp. unfold pendCount, pinBit. destruct (Z.ltb_spec 0 (e_pending e)).
  - rewrite map_filter_insert_True by done. rewrite map_size_insert_None; [lia|].
    rewrite map_lookup_filter_None. by left.
  - rewrite map_filter_insert_False by (unfold pinnedEntry; simpl; lia).
    rewrite delete_id by done. lia.
Qed.

Lemma pendCount_delete h p e : h !! p = Some e -> pendCount (delete p h) = pendCount h - pinBit e.
Proof.
  intros Hp. rewrite <- (insert_delete_id h p e) at 2 by done.
  rewrite pendCount_insert by (by rewrite lookup_delete_eq). lia.
Qed.

Lemma pendCount_update h p e e' : h !! p = Some e ->
  pendCount (<[p := e']> h) = pendCount h - pinBit e + pinBit e'.
Proof.
  intros Hp. rewrite <- insert_delete_eq, pendCount_insert by (by rewrite lookup_delete_eq).
  by rewrite (pendCount_delete h p e).
Qed.

Lemma pendCount_links h h' : links_only h h' -> pendCount h' = pendCount h.
Proof.
  intros Hl. assert (Hs : forall g : heap, size (filter pinnedEntry g) = size (filter pinnedEntry (strip <$> g))).
  { intros g. rewrite map_filter_fmap, map_size_fmap. done. }
  unfold pendCount. rewrite (Hs h'), (Hs h), Hl. done.
Qed.

(** ** Index, keys and counters *)
Section core.
Context {I : Type} `{IXL : EntryIndexLaws I}.
Context (hashKey : Z -> list Z -> Z).
Local Abbreviation Shard := (@Shard I).
Local Abbreviation ehash := (ehash hashKey).

Definition entry_ok (e : Entry) : Prop :=
  is_uint 16 (e_vbid e) /\ 0 <= e_freq e <= kMaxFreq /\ is_uint 32 (e_pending e) /\
  match e_shared e with Some capacity => 0 <= capacity | None => True end.

Record core_inv (h : heap) (ix : I) (pend : Z) : Prop := {
  c_index : ix_rep ix (ehash <$> h);
  c_unique : unique_keys h;
  c_entries p e : h !! p = Some e -> entry_ok e;
  c_pend : pend = u64 (pendCount h);
}.

Lemma strip_ok e e' : strip e' = strip e -> entry_ok e -> entry_ok e'.
Proof. destruct e, e'; unfold strip, entry_ok; simpl; intros [=]; subst; done. Qed.

Lemma ehash_strip e : ehash (strip e) = ehash e.
Proof. done. Qed.

Lemma ehash_links h h' : links_only h h' -> ehash <$> h' = ehash <$> h.
Proof.
  intros Hl. assert (Hs : forall g : heap, ehash <$> g = ehash <$> (strip <$> g)).
  { intros g. rewrite <- map_fmap_compose. done. }
  by rewrite (Hs h'), (Hs h), Hl.
Qed.

Lemma core_links h h' ix pend : core_inv h ix pend -> links_only h h' -> core_inv h' ix pend.
Proof.
  intros [C1 C2 C3 C4] Hl. split.
  - by rewrite (ehash_links h h').
  - by apply (docs_of_links h h').
  - intros p e' He'. destruct (links_queue _ _ _ _ Hl He') as (e & He & Hs).
    eapply strip_ok; [done|]. by eapply C3.
  - by rewrite (pendCount_links h h').
Qed.

Lemma core_update h ix pend p e e' : core_inv h ix pend -> h !! p = Some e ->
  e_vbid e' = e_vbid e -> e_key e' = e_key e -> entry_ok e' ->
  core_inv (<[p := e']> h) ix (u64 (pend - pinBit e + pinBit e')).
Proof.
  intros [C1 C2 C3 C4] Hp Hv Hk Hok. split.
  - rewrite fmap_insert. replace (ehash e') with (ehash e) by (unfold S3Fifo.ehash; congruence).
    rewrite <- fmap_insert, insert_id by done. done.
  - apply (docs_of_update h p e e'); [done..|]. unfold mapKey. congruence.
  - intros q e1 Hq. rewrite lookup_insert in Hq. case_decide; [congruence|by eapply C3].
  - subst pend. rewrite (pendCount_update h p e e') by done.
    replace (u64 (pendCount h) - pinBit e + pinBit e') with (u64 (pendCount h) + (pinBit e' - pinBit e)) by lia.
    rewrite u64_add_idemp_l. f_equal. lia.
Qed.

Lemma core_delete h ix pend p e : core_inv h ix pend -> h !! p = Some e ->
  exists ix', ix_erase ix (ehash e) p = Some ix' /\
    core_inv (delete p h) ix' (u64 (pend - pinBit e)).
Proof using IXL.
  intros [C1 C2 C3 C4] Hp.
  destruct (ix_erase_law ix (ehash <$> h) (ehash e) p C1) as (ix' & Hix & Hrep);
    [by rewrite lookup_fmap, Hp|].
  exists ix'. split; [done|]. split.
  - by rewrite fmap_delete.
  - by apply (docs_of_delete h p e).
  - intros q e1 [_ Hq]%lookup_delete_Some. by eapply C3.
  - subst pend. rewrite (pendCount_delete h p e), u64_sub_idemp_l by done. done.
Qed.

Lemma core_insert h ix pend p e : core_inv h ix pend -> h !! p = None -> entry_ok e ->
  (forall q e', h !! q = Some e' -> mapKey e' <> mapKey e) ->
  exists ix', ix_insert ix (ehash e) p = Some ix' /\
    core_inv (<[p := e]> h) ix' (u64 (pend + pinBit e)).
Proof using IXL.
  intros [C1 C2 C3 C4] Hp Hok Hk.
  destruct (ix_insert_law ix (ehash <$> h) (ehash e) p C1) as (ix' & Hix & Hrep);
    [by rewrite lookup_fmap, Hp|].
  exists ix'. split; [done|]. split.
  - by rewrite fmap_insert.
  - by apply docs_of_insert.
  - intros q e1 Hq. rewrite lookup_insert in Hq. case_decide; [congruence|by eapply C3].
  - subst pend. rewrite pendCount_insert, u64_add_idemp_l by done. done.
Qed.

(** [find] returns exactly the entry of the probe key. *)
Lemma find_spec (s : Shard) vbid key : core_inv (sh_heap s) (sh_index s) (sh_pendingItems s) ->
  is_uint 16 vbid ->
  exists r, find s (hashKey vbid key) (MapKeyBuf vbid key) = Some r /\
    match r with
    | Some p => exists e, sh_heap s !! p = Some e /\ mapKey e = MapKeyBuf vbid key
    | None => forall p e, sh_heap s !! p = Some e -> mapKey e <> MapKeyBuf vbid key
    end.
Proof using IXL.
  intros [C1 C2 C3 C4] Hv. unfold find.
  destruct (ix_find_law (sh_index s) _ (hashKey vbid key)
    (fun p => match sh_heap s !! p with Some e => bool_decide (mapKey e = MapKeyBuf vbid key) | None => false end) C1)
    as (r & -> & Hr).
  exists r. split; [done|]. destruct r as [p|].
  - destruct Hr as [Hp Heq]. destruct (sh_heap s !! p) as [e|]; [|done]. b2p. eauto.
  - intros p e He Hk. specialize (Hr p). rewrite lookup_fmap, He in Hr.
    destruct (docKey_inj (e_vbid e) (e_key e) vbid key) as [E1 E2]; [|done|exact Hk|].
    + by apply (C3 p e He).
    + rewrite bool_decide_true in Hr by done. discriminate Hr. simpl. unfold S3Fifo.ehash. congruence.
Qed.
End core.

(** ** The ghost queue *)
Definition ghost_ok (ghost : list Z) (ghostSet : gset Z) : Prop :=
  NoDup ghost /\ ghostSet = list_to_set ghost.

Lemma ghostTrim_ok fuel cap ghost set : ghost_ok ghost set ->
  let '(g, s) := ghostTrim fuel cap ghost set in ghost_ok g s.
Proof.
  revert ghost set. induction fuel as [|fuel IH]; intros ghost set Hok; simpl; [done|].
  destruct ghost as [|x ghost]; [done|]. destruct (_ <? _); [|done]. apply IH.
  destruct Hok as [[Hx Hnd]%NoDup_cons ->]. split; [done|]. simpl.
  apply leibniz_equiv. intros y. rewrite elem_of_difference, elem_of_union, !elem_of_singleton.
  rewrite elem_of_list_to_set. naive_solver.
Qed.

(** The queue never holds more than its cap after an insertion. *)
Lemma ghostTrim_length fuel cap ghost set : 0 <= cap -> (length ghost <= fuel)%nat ->
  Z.of_nat (length (ghostTrim fuel cap ghost set).1) <= Z.max cap 0.
Proof.
  revert ghost set. induction fuel as [|fuel IH]; intros ghost set Hc Hf.
  - destruct ghost; simpl in *; lia.
  - destruct ghost as [|x ghost]; [simpl; lia|]. cbn [ghostTrim].
    destruct (Z.ltb_spec cap (Z.of_nat (length (x :: ghost)))); [|cbn [fst]; lia].
    apply IH; [done|]. simpl in Hf. lia.
Qed.
