(* ===== verification/S3FifoOps.v ===== *)
(** * S3FifoOps: the operations of a cache shard keep its invariant

    Every operation of a shard returns (no freed entry is touched and every
    probe ends), preserves [shard_inv], and changes the documents as the cache
    contract of DocCache.v says. *)
From stdpp Require Import prelude gmap list.
From Stdlib Require Import ZArith Lia.
From S2P Require Import Prelude FlatIndex Fifo SeqnoIndex DocCache S3Fifo S3FifoInv.
Open Scope Z_scope.

Lemma q_pop h qs ls k l p : qrep h qs ls [] -> ls k = l ++ [p] ->
  exists h' q', popTail h (qs k) = Some (h', q', Some p) /\
    qrep h' (upd qs k q') (upd ls k l) [p] /\ links_only h h'.
Proof.
  intros R Hk. destruct (q_remove h qs ls k l p [] R Hk) as (h' & q' & Hr & R' & Hlo).
  rewrite app_nil_r in R'. exists h', q'. split_and!; [|done..].
  destruct (q_fifo _ _ _ _ R k) as (_ & _ & _ & Ht & _).
  unfold popTail. rewrite Ht, Hk, last_snoc, Hr. done.
Qed.

Lemma links_insert_both h h' p e e' : links_only h h' -> strip e' = strip e ->
  links_only (<[p := e]> h) (<[p := e']> h').
Proof. intros Hl He. unfold links_only. rewrite !fmap_insert, Hl, He. done. Qed.

Lemma links_delete_both h h' p : links_only h h' -> links_only (delete p h) (delete p h').
Proof. intros Hl. unfold links_only. rewrite !fmap_delete, Hl. done. Qed.

Lemma set_queue_id k e : e_queue e = k -> set_queue k e = e.
Proof. destruct e; simpl; intros <-. done. Qed.
Lemma set_freq_id f e : e_freq e = f -> set_freq f e = e.
Proof. destruct e; simpl; intros <-. done. Qed.

Section ops.
Context {I : Type} `{IXL : EntryIndexLaws I}.
Context (hashKey : Z -> list Z -> Z).
Local Abbreviation Shard := (@Shard I).
Local Abbreviation core_inv := (core_inv hashKey).

Definition qs_of (s : Shard) (k : Queue) : Fifo :=
  match k with kSmall => sh_small s | kMain => sh_main s end.

Record shard_inv (s : Shard) (ls : Queue -> list ptr) : Prop := {
  i_queues : qrep (sh_heap s) (qs_of s) ls [];
  i_core : core_inv (sh_heap s) (sh_index s) (sh_pendingItems s);
  i_ghost : ghost_ok (sh_ghost s) (sh_ghostSet s);
}.

Definition shard_docs (s : Shard) : docs := docs_of (sh_heap s).

(** The budgets are not changed by eviction. *)
Definition same_budget (s s' : Shard) : Prop :=
  sh_budget s' = sh_budget s /\ sh_smallBudget s' = sh_smallBudget s.

Lemma core_same h ix pend p e e' : core_inv h ix pend -> h !! p = Some e ->
  e_vbid e' = e_vbid e -> e_key e' = e_key e -> entry_ok e' -> e_pending e' = e_pending e ->
  core_inv (<[p := e']> h) ix pend.
Proof.
  intros C Hp Hv Hk Hok Hpend.
  pose proof (core_update hashKey h ix pend p e e' C Hp Hv Hk Hok) as C'.
  assert (pinBit e' = pinBit e) as Hb by (unfold pinBit; by rewrite Hpend). rewrite Hb in C'.
  replace (u64 (pend - pinBit e + pinBit e)) with pend in C'; [done|].
  rewrite (c_pend _ _ _ _ C), Z.sub_add, u64_u64. done.
Qed.

Lemma ghostAdd_ok (s : Shard) h : ghost_ok (sh_ghost s) (sh_ghostSet s) ->
  exists g st, ghostAdd s h = with_ghost s g st /\ ghost_ok g st.
Proof.
  intros [Hnd Hset]. unfold ghostAdd. case_bool_decide as Hin.
  - exists (sh_ghost s), (sh_ghostSet s). split_and!; [by destruct s|done].
  - set (gh := sh_ghost s ++ [h]).
    pose proof (ghostTrim_ok (length gh) (Z.max 1024 (fcount (sh_main s))) gh (sh_ghostSet s ∪ {[h]})) as Hok.
    destruct (ghostTrim _ _ _ _) as [g st]. exists g, st. split; [done|]. apply Hok. split.
    + apply NoDup_app. split_and!; [done| |apply NoDup_singleton].
      intros x Hx ->%list_elem_of_singleton. apply Hin. rewrite Hset. by apply elem_of_list_to_set.
    + subst gh. rewrite Hset, list_to_set_app_L. simpl. by rewrite union_empty_r_L.
Qed.

(** ** Freeing an unlinked entry *)
Lemma free_spec s ls p e : qrep (sh_heap s) (qs_of s) ls [p] ->
  core_inv (sh_heap s) (sh_index s) (sh_pendingItems s) ->
  ghost_ok (sh_ghost s) (sh_ghostSet s) -> sh_heap s !! p = Some e ->
  exists s', free hashKey s p = Some s' /\ shard_inv s' ls /\
    sh_heap s' = delete p (sh_heap s) /\ same_budget s s'.
Proof using IXL.
  intros R C G He. unfold free. rewrite He. cbn [mbind option_bind].
  destruct (core_delete hashKey _ _ _ _ _ C He) as (ix' & -> & C'). cbn [mbind option_bind].
  eexists. split_and!; [done| |done..]. split; cbn.
  - eapply qrep_ext; [| |exact (q_delete _ _ _ _ R)]; [by intros []|done].
  - unfold pinBit in C'. destruct (0 <? e_pending e); [done|].
    rewrite Z.sub_0_r, (c_pend _ _ _ _ C), u64_u64, <- (c_pend _ _ _ _ C) in C'. done.
  - done.
Qed.

(** ** Eviction steps *)
Section evict_step.
Context (s : Shard) (ls : Queue -> list ptr) (k : Queue) (l : list ptr) (p : ptr).
Hypothesis Hinv : shard_inv s ls.
Hypothesis Hk : ls k = l ++ [p].

(** The queue's last entry taken off it. *)
Lemma pop_spec : exists e e1 h1 q1, sh_heap s !! p = Some e /\ h1 !! p = Some e1 /\
  strip e1 = strip e /\ popTail (sh_heap s) (qs_of s k) = Some (h1, q1, Some p) /\
  qrep h1 (upd (qs_of s) k q1) (upd ls k l) [p] /\ links_only (sh_heap s) h1 /\
  core_inv h1 (sh_index s) (sh_pendingItems s) /\ entry_ok e.
Proof using Hinv Hk.
  destruct Hinv as [R C G]. destruct (q_pop _ _ _ k l p R Hk) as (h1 & q1 & Hpop & R1 & L1).
  assert (Hin : p ∈ ls k) by (rewrite Hk; apply elem_of_app; right; by left).
  destruct (q_live _ _ _ _ _ _ R Hin) as (e & He & Hq).
  destruct (links_only_lookup _ _ _ _ L1 He) as (e1 & He1 & Hs1).
  exists e, e1, h1, q1. split_and!; try done.
  - by apply (core_links hashKey (sh_heap s)).
  - by eapply (c_entries _ _ _ _ C).
Qed.

(** ... and put on the main queue with another frequency. *)
Lemma requeue_spec e e1 h1 q1 f : sh_heap s !! p = Some e -> h1 !! p = Some e1 ->
  strip e1 = strip e -> qrep h1 (upd (qs_of s) k q1) (upd ls k l) [p] ->
  links_only (sh_heap s) h1 -> core_inv h1 (sh_index s) (sh_pendingItems s) ->
  entry_ok e -> 0 <= f <= kMaxFreq ->
  exists h2 q2, pushHead (<[p := set_queue kMain (set_freq f e1)]> h1) (upd (qs_of s) k q1 kMain) p =
      Some (h2, q2) /\
    shard_inv (with_queues s h2 (upd (upd (qs_of s) k q1) kMain q2 kSmall) q2)
      (upd (upd ls k l) kMain (p :: upd ls k l kMain)) /\
    links_only (<[p := set_queue kMain (set_freq f e)]> (sh_heap s)) h2.
Proof using Hinv.
  intros He He1 Hs1 R1 L1 C1 Hok Hf.
  destruct (q_push h1 _ _ kMain p e1 (set_queue kMain (set_freq f e1)) R1 He1 eq_refl)
    as (h2 & q2 & Hpush & R2 & L2).
  exists h2, q2. split_and!; [done| |].
  - split.
    + eapply qrep_ext; [| |exact R2]; [by intros []|done].
    + refine (core_links hashKey _ _ _ _ _ L2).
      refine (core_same _ _ _ _ _ _ C1 He1 _ _ _ _); [done..| |done].
      destruct (c_entries _ _ _ _ C1 _ _ He1) as (? & ? & ? & ?). refine (conj _ (conj _ (conj _ _))); done.
    + apply Hinv.
  - etransitivity; [|exact L2]. apply links_insert_both; [done|].
    destruct e, e1; unfold strip in *; simpl in *. injection Hs1; intros; subst. done.
Qed.
End evict_step.

Lemma evictSmall_spec s ls l p : shard_inv s ls -> ls kSmall = l ++ [p] ->
  exists e s', sh_heap s !! p = Some e /\ entry_ok e /\ evictSmall hashKey s = Some s' /\ same_budget s s' /\
  if (0 <? e_pending e) || (1 <? e_freq e) then
    shard_inv s' (upd (upd ls kSmall l) kMain (p :: ls kMain)) /\
    links_only (<[p := set_queue kMain (set_freq 0 e)]> (sh_heap s)) (sh_heap s')
  else
    shard_inv s' (upd ls kSmall l) /\ links_only (delete p (sh_heap s)) (sh_heap s').
Proof using IXL.
  intros Hinv Hl.
  destruct (pop_spec s ls kSmall l p Hinv Hl) as (e & e1 & h1 & q1 & He & He1 & Hs1 & Hpop & R1 & L1 & C1 & Hok).
  destruct (strip_key _ _ Hs1) as (_ & _ & Ep & Ef & Ev & Ek).
  exists e. unfold evictSmall. cbn [qs_of] in Hpop. rewrite Hpop. cbn [mbind option_bind].
  rewrite He1. cbn [mbind option_bind]. rewrite Ep, Ef.
  destruct ((0 <? e_pending e) || (1 <? e_freq e)) eqn:Hpin.
  - destruct (requeue_spec s ls kSmall l p Hinv e e1 h1 q1 0) as (h2 & q2 & Hpush & Hinv' & L2);
      [done..|unfold kMaxFreq; lia|].
    rewrite upd_ne in Hpush by done. cbn [qs_of] in Hpush. rewrite Hpush. cbn [mbind option_bind].
    eexists. split_and!; done.
  - set (s1 := with_queues s h1 q1 (sh_main s)).
    destruct (ghostAdd_ok s1 (ehash hashKey e1)) as (g & st & -> & Hgok); [apply Hinv|].
    match goal with |- context [free hashKey ?x p] => set (s2 := x) end.
    destruct (free_spec s2 (upd ls kSmall l) p e1) as (s' & -> & Hinv' & Hh & Hb); try done.
    { eapply qrep_ext; [| |exact R1]; [by intros []|done]. }
    exists s'. split_and!; [done..|]. rewrite Hh. by apply links_delete_both.
Qed.

Lemma evictMain_spec s ls l p : shard_inv s ls -> ls kMain = l ++ [p] ->
  exists e s', sh_heap s !! p = Some e /\ entry_ok e /\ evictMain hashKey s = Some s' /\ same_budget s s' /\
  if (0 <? e_pending e) || (0 <? e_freq e) then
    shard_inv s' (upd ls kMain (p :: l)) /\
    links_only (<[p := set_queue kMain (set_freq (if 0 <? e_freq e then e_freq e - 1 else e_freq e) e)]> (sh_heap s)) (sh_heap s')
  else
    shard_inv s' (upd ls kMain l) /\ links_only (delete p (sh_heap s)) (sh_heap s').
Proof using IXL.
  intros Hinv Hl.
  destruct (pop_spec s ls kMain l p Hinv Hl) as (e & e1 & h1 & q1 & He & He1 & Hs1 & Hpop & R1 & L1 & C1 & Hok).
  destruct (strip_key _ _ Hs1) as (_ & _ & Ep & Ef & Ev & Ek).
  exists e. unfold evictMain. cbn [qs_of] in Hpop. rewrite Hpop. cbn [mbind option_bind].
  rewrite He1. cbn [mbind option_bind]. cbv zeta. rewrite Ep, Ef.
  destruct ((0 <? e_pending e) || (0 <? e_freq e)) eqn:Hpin.
  - set (f := if 0 <? e_freq e then e_freq e - 1 else e_freq e).
    assert (Hf : 0 <= f <= kMaxFreq).
    { destruct Hok as (_ & Hfr & _). subst f. destruct (Z.ltb_spec 0 (e_freq e)); lia. }
    destruct (requeue_spec s ls kMain l p Hinv e e1 h1 q1 f) as (h2 & q2 & Hpush & Hinv' & L2); [done..|].
    assert (Heq : (if 0 <? e_freq e then set_freq (e_freq e - 1) e1 else e1) = set_queue kMain (set_freq f e1)).
    { assert (e_queue e1 = kMain) as Hq1.
      { rewrite (strip_queue _ _ Hs1). eapply (q_queue _ _ _ _ (i_queues _ _ Hinv)); [|exact He].
        rewrite Hl. apply elem_of_app. right. by left. }
      rewrite set_queue_id by done. subst f.
      destruct (0 <? e_freq e); [done|]. by rewrite set_freq_id. }
    rewrite Heq. rewrite upd_eq in Hpush. rewrite Hpush. cbn [mbind option_bind].
    eexists. split_and!; [done..| |done].
    destruct Hinv' as [R' C' G']. split; [|done..].
    eapply qrep_ext; [| |exact R']; intros []; unfold upd; done.
  - match goal with |- context [free hashKey ?x p] => set (s2 := x) end.
    destruct (free_spec s2 (upd ls kMain l) p e1) as (s' & -> & Hinv' & Hh & Hb); try done.
    { eapply qrep_ext; [| |exact R1]; [by intros []|done]. }
    { apply Hinv. }
    exists s'. split_and!; [done..|]. rewrite Hh. by apply links_delete_both.
Qed.

(** ** Documents and eviction *)
Lemma docs_requeue s s' ls p e f : shard_inv s ls -> sh_heap s !! p = Some e ->
  links_only (<[p := set_queue kMain (set_freq f e)]> (sh_heap s)) (sh_heap s') ->
  shard_docs s' = shard_docs s.
Proof.
  intros Hinv He L. pose proof (c_unique _ _ _ _ (i_core _ _ Hinv)) as Hu.
  destruct (docs_of_update _ p e (set_queue kMain (set_freq f e)) Hu He eq_refl) as [Hu' Hd].
  destruct (docs_of_links _ _ Hu' L) as [_ Hd']. unfold shard_docs. rewrite Hd', Hd.
  apply insert_id. change (doc_of (set_queue kMain (set_freq f e))) with (doc_of e).
  by apply (docs_of_entry _ p).
Qed.

Lemma docs_freed s s' ls p e : shard_inv s ls -> sh_heap s !! p = Some e -> e_pending e <= 0 ->
  links_only (delete p (sh_heap s)) (sh_heap s') -> drops (shard_docs s) (shard_docs s').
Proof.
  intros Hinv He Hp L. pose proof (c_unique _ _ _ _ (i_core _ _ Hinv)) as Hu.
  destruct (docs_of_delete _ p e Hu He) as [Hu' Hd].
  destruct (docs_of_links _ _ Hu' L) as [_ Hd']. unfold shard_docs. rewrite Hd', Hd. split.
  - apply delete_subseteq.
  - intros k d Hk Hpin. rewrite lookup_delete_ne; [done|]. intros <-.
    rewrite (docs_of_entry _ p e Hu He) in Hk. simplify_eq. unfold pinned, doc_of in Hpin. simpl in Hpin. lia.
Qed.

Lemma unpinned_pending e (f : bool) : entry_ok e -> (0 <? e_pending e) || f = false -> e_pending e <= 0.
Proof. intros _ H0. apply orb_false_iff in H0 as [H0 _]. b2p. lia. Qed.

Lemma evictSmall_drops s ls l p : shard_inv s ls -> ls kSmall = l ++ [p] ->
  exists s' ls', evictSmall hashKey s = Some s' /\ shard_inv s' ls' /\
    drops (shard_docs s) (shard_docs s') /\ same_budget s s'.
Proof using IXL.
  intros Hinv Hl. destruct (evictSmall_spec s ls l p Hinv Hl) as (e & s' & He & Hok & Hs & Hb & Hcase).
  destruct (_ || _) eqn:Hpin; destruct Hcase as [Hinv' L]; eexists s', _; split_and!; try done.
  - by rewrite (docs_requeue s s' ls p e 0).
  - eapply (docs_freed s s' ls p e); [done..| |done]. by eapply unpinned_pending.
Qed.

Lemma evictMain_drops s ls l p : shard_inv s ls -> ls kMain = l ++ [p] ->
  exists s' ls', evictMain hashKey s = Some s' /\ shard_inv s' ls' /\
    drops (shard_docs s) (shard_docs s') /\ same_budget s s'.
Proof using IXL.
  intros Hinv Hl. destruct (evictMain_spec s ls l p Hinv Hl) as (e & s' & He & Hok & Hs & Hb & Hcase).
  destruct (_ || _) eqn:Hpin; destruct Hcase as [Hinv' L]; eexists s', _; split_and!; try done.
  - by erewrite (docs_requeue s s' ls p e).
  - eapply (docs_freed s s' ls p e); [done..| |done]. by eapply unpinned_pending.
Qed.

(** A queue with a tail has a last element. *)
Lemma tail_last s ls k : shard_inv s ls -> tail (qs_of s k) <> None ->
  exists l p, ls k = l ++ [p].
Proof.
  intros Hinv Ht. destruct (q_fifo _ _ _ _ (i_queues _ _ Hinv) k) as (_ & _ & _ & Htl & _).
  rewrite Htl in Ht. destruct (last (ls k)) as [p|] eqn:E; [|done].
  apply last_Some in E as [l ->]. eauto.
Qed.

Lemma evictLoop_drops g s ls : shard_inv s ls ->
  exists s' ls', evictLoop hashKey g s = Some s' /\ shard_inv s' ls' /\
    drops (shard_docs s) (shard_docs s') /\ same_budget s s'.
Proof using IXL.
  revert s ls. induction g as [|g IH]; intros s ls Hinv; cbn [evictLoop];
    (assert (Hid : exists s' ls', Some s = Some s' /\ shard_inv s' ls' /\
       drops (shard_docs s) (shard_docs s') /\ same_budget s s') by (exists s, ls; split_and!; done)); [done|].
  destruct (sh_budget s <? sh_bytes s); [|done].
  assert (Hnext : forall s1, (exists ls1, shard_inv s1 ls1) -> drops (shard_docs s) (shard_docs s1) ->
    same_budget s s1 -> exists s' ls', evictLoop hashKey g s1 = Some s' /\ shard_inv s' ls' /\
      drops (shard_docs s) (shard_docs s') /\ same_budget s s').
  { intros s1 [ls1 Hinv1] Hd1 [Hb1 Hb1']. destruct (IH s1 ls1 Hinv1) as (s' & ls' & Hs' & Hinv' & Hd' & [Hb' Hb'']).
    exists s', ls'. split; [done|]. split; [done|]. split; [by etrans|]. split; congruence. }
  destruct ((sh_smallBudget s <? bytes (sh_small s)) && bool_decide (tail (sh_small s) <> None)) eqn:E1;
    [|destruct (bool_decide (tail (sh_main s) <> None)) eqn:E2;
      [|destruct (bool_decide (tail (sh_small s) <> None)) eqn:E3; [|done]]]; b2p.
  -    destruct (tail_last s ls kSmall Hinv ltac:(assumption)) as (l & p & Hl).
    destruct (evictSmall_drops s ls l p Hinv Hl) as (s1 & ls1 & -> & ? & ? & ?). cbn [mbind option_bind]. eauto.
  - destruct (tail_last s ls kMain Hinv E2) as (l & p & Hl).
    destruct (evictMain_drops s ls l p Hinv Hl) as (s1 & ls1 & -> & ? & ? & ?). cbn [mbind option_bind]. eauto.
  - destruct (tail_last s ls kSmall Hinv E3) as (l & p & Hl).
    destruct (evictSmall_drops s ls l p Hinv Hl) as (s1 & ls1 & -> & ? & ? & ?). cbn [mbind option_bind]. eauto.
Qed.

Lemma evict_drops s ls : shard_inv s ls ->
  exists s' ls', evict hashKey s = Some s' /\ shard_inv s' ls' /\
    drops (shard_docs s) (shard_docs s') /\ same_budget s s'.
Proof using IXL. apply evictLoop_drops. Qed.

(** ** Storing a new entry *)
Lemma insert_spec s ls p e : shard_inv s ls -> sh_heap s !! p = None -> entry_ok e ->
  (forall q e', sh_heap s !! q = Some e' -> mapKey e' <> mapKey e) ->
  exists s' ls', insert (with_index s (<[p := e]> (sh_heap s)) (sh_index s)
                           (u64 (sh_pendingItems s + pinBit e))) p (ehash hashKey e) = Some s' /\
    shard_inv s' ls' /\ shard_docs s' = <[mapKey e := doc_of e]> (shard_docs s) /\ same_budget s s'.
Proof using IXL.
  intros [R C G] Hp Hok Hk. pose proof (q_add _ _ _ p e R Hp) as R0.
  assert (Hall : forall k, exists h1 q1 ix',
    pushHead (<[p := set_queue k e]> (<[p := e]> (sh_heap s))) (qs_of s k) p = Some (h1, q1) /\
    ix_insert (sh_index s) (ehash hashKey e) p = Some ix' /\
    qrep h1 (upd (qs_of s) k q1) (upd ls k (p :: ls k)) [] /\
    core_inv h1 ix' (u64 (sh_pendingItems s + pinBit e)) /\
    docs_of h1 = <[mapKey e := doc_of e]> (docs_of (sh_heap s))).
  { intros k. destruct (q_push _ _ _ k p e (set_queue k e) R0) as (h1 & q1 & Hpush & R1 & L1);
      [by rewrite lookup_insert_eq|done|].
    rewrite insert_insert_eq in L1.
    destruct (core_insert hashKey _ _ _ p (set_queue k e) C Hp) as (ix' & Hix & C1); [done|done|].
    exists h1, q1, ix'. split; [done|]. split; [done|]. split; [done|].
    split; [exact (core_links hashKey _ _ _ _ C1 L1)|].
    destruct (docs_of_insert (sh_heap s) p (set_queue k e)) as [Hu Hd]; [apply C|done..|].
    destruct (docs_of_links _ _ Hu L1) as [_ ->]. done. }
  unfold insert. cbn [with_index sh_heap sh_ghostSet sh_main sh_small]. rewrite lookup_insert_eq.
  cbn [mbind option_bind]. destruct (bool_decide _).
  - destruct (Hall kMain) as (h1 & q1 & ix' & Hpush & Hix & R1 & C1 & D1). cbn [qs_of] in Hpush.
    rewrite Hpush. cbn [mbind option_bind].
    cbn [with_counters with_queues with_index sh_index]. rewrite Hix. cbn [mbind option_bind].
    eexists _, _. split; [done|]. split; [|split; [exact D1|done]]. split; [|exact C1|exact G].
    eapply qrep_ext; [| |exact R1]; [by intros []|done].
  - destruct (Hall kSmall) as (h1 & q1 & ix' & Hpush & Hix & R1 & C1 & D1). cbn [qs_of] in Hpush.
    rewrite Hpush. cbn [mbind option_bind].
    cbn [with_counters with_queues with_index sh_index]. rewrite Hix. cbn [mbind option_bind].
    eexists _, _. split; [done|]. split; [|split; [exact D1|done]]. split; [|exact C1|exact G].
    eapply qrep_ext; [| |exact R1]; [by intros []|done].
Qed.

(** ** Unlinking the entry of a key *)
Lemma unlink_spec s ls p e : shard_inv s ls -> sh_heap s !! p = Some e ->
  exists s' ls', unlink s p = Some s' /\ qrep (sh_heap s') (qs_of s') ls' [p] /\
    core_inv (sh_heap s') (sh_index s') (sh_pendingItems s') /\
    ghost_ok (sh_ghost s') (sh_ghostSet s') /\ links_only (sh_heap s) (sh_heap s') /\
    sh_index s' = sh_index s /\ sh_pendingItems s' = sh_pendingItems s /\ same_budget s s'.
Proof.
  intros [R C G] He. unfold unlink. rewrite He. cbn [mbind option_bind].
  assert (exists k, p ∈ ls k) as [k Hin].
  { assert (Hd : is_Some (sh_heap s !! p)) by eauto. apply (q_dom _ _ _ _ R) in Hd as [?|Hn]; [done|].
    by apply elem_of_nil in Hn. }
  rewrite (q_queue _ _ _ _ R _ _ _ Hin He). apply list_elem_of_split in Hin as (l1 & l2 & Hl).
  destruct (q_remove _ _ _ k l1 p l2 R Hl) as (h' & q' & Hr & R' & Lo).
  destruct k; cbn [qs_of] in Hr; rewrite Hr; cbn [mbind option_bind]; eexists _, _;
    (split; [done|]); (split; [eapply qrep_ext; [| |exact R']; [by intros []|done]|]);
    (split; [exact (core_links hashKey _ _ _ _ C Lo)|]); done.
Qed.

Lemma key_hash s ls p e vbid key : shard_inv s ls -> sh_heap s !! p = Some e -> is_uint 16 vbid ->
  mapKey e = MapKeyBuf vbid key -> ehash hashKey e = hashKey vbid key.
Proof.
  intros Hinv He Hv Hk. destruct (docKey_inj (e_vbid e) (e_key e) vbid key) as [E1 E2]; [|done..|].
  - by apply (c_entries _ _ _ _ (i_core _ _ Hinv) _ _ He).
  - unfold ehash. congruence.
Qed.

(** [find] against the documents. *)
Lemma find_docs s ls vbid key : shard_inv s ls -> is_uint 16 vbid ->
  exists r, find s (hashKey vbid key) (MapKeyBuf vbid key) = Some r /\
    match r with
    | Some p => exists e, sh_heap s !! p = Some e /\ mapKey e = docKey vbid key /\
                  shard_docs s !! docKey vbid key = Some (doc_of e) /\ ehash hashKey e = hashKey vbid key
    | None => (forall p e, sh_heap s !! p = Some e -> mapKey e <> docKey vbid key) /\
              shard_docs s !! docKey vbid key = None
    end.
Proof using IXL.
  intros Hinv Hv. destruct (find_spec hashKey s vbid key (i_core _ _ Hinv) Hv) as (r & Hf & Hr).
  exists r. split; [done|]. pose proof (c_unique _ _ _ _ (i_core _ _ Hinv)) as Hu. destruct r as [p|].
  - destruct Hr as (e & He & Hk). exists e. split_and!; [done..| |by eapply key_hash].
    change (docKey vbid key) with (MapKeyBuf vbid key). rewrite <- Hk. by apply (docs_of_entry _ p).
  - split; [done|]. by apply docs_of_absent.
Qed.

(** ** The operations *)
Lemma touch_spec s ls p e : shard_inv s ls -> sh_heap s !! p = Some e ->
  exists s' e', touch s p = Some (s', e') /\ doc_of e' = doc_of e /\ shard_inv s' ls /\
    shard_docs s' = shard_docs s /\ same_budget s s'.
Proof.
  intros [R C G] He. unfold touch. rewrite He. cbn [mbind option_bind]. cbv zeta.
  set (e' := if e_freq e <? kMaxFreq then set_freq (e_freq e + 1) e else e).
  assert (Hd : doc_of e' = doc_of e) by (subst e'; by destruct (_ <? _)).
  destruct (c_entries _ _ _ _ C _ _ He) as (O1 & O2 & O3 & O4).
  eexists _, e'. split; [done|]. split; [done|]. split; [|split; [|done]].
  - split; cbn [with_queues sh_heap sh_index sh_pendingItems sh_ghost sh_ghostSet]; [| |done].
    + eapply qrep_ext; [| |eapply (q_update _ _ _ p e e' R He)]; [by intros []|done|].
      subst e'. by destruct (_ <? _).
    + refine (core_same _ _ _ _ _ _ C He _ _ _ _); subst e';
        destruct (Z.ltb_spec (e_freq e) kMaxFreq); try done.
      refine (conj _ (conj _ (conj _ _))); try done. simpl. lia.
  - unfold shard_docs. cbn [with_queues sh_heap]. destruct (docs_of_update _ p e e' (c_unique _ _ _ _ C) He) as [_ ->].
    + subst e'. by destruct (_ <? _).
    + rewrite Hd. apply insert_id. by apply (docs_of_entry _ p), He; apply C.
Qed.

Lemma getShard_spec s ls vbid key : shard_inv s ls -> is_uint 16 vbid ->
  exists s', getShard hashKey s vbid key = Some (s', shard_docs s !! docKey vbid key) /\
    shard_inv s' ls /\ shard_docs s' = shard_docs s /\ same_budget s s'.
Proof using IXL.
  intros Hinv Hv. unfold getShard. destruct (find_docs s ls vbid key Hinv Hv) as (r & -> & Hr).
  cbn [mbind option_bind]. destruct r as [p|].
  - destruct Hr as (e & He & _ & Hd & _).
    destruct (touch_spec s ls p e Hinv He) as (s' & e' & -> & Hde & Hinv' & Hds & Hb). cbn [mbind option_bind].
    exists s'. rewrite Hd, Hde. done.
  - destruct Hr as [_ ->]. exists s. done.
Qed.

(** The replaced version of a key leaves the shard; its pins are reported. *)
Lemma replace_spec s ls p e : shard_inv s ls -> sh_heap s !! p = Some e ->
  exists s1 ix ls1, unlink s p = Some s1 /\ ix_erase (sh_index s1) (ehash hashKey e) p = Some ix /\
    shard_inv (with_index s1 (delete p (sh_heap s1)) ix (u64 (sh_pendingItems s - pinBit e))) ls1 /\
    docs_of (delete p (sh_heap s1)) = delete (mapKey e) (shard_docs s) /\
    sh_pendingItems s1 = sh_pendingItems s /\ same_budget s s1.
Proof using IXL.
  intros Hinv He.
  destruct (unlink_spec s ls p e Hinv He) as (s1 & ls1 & Hu & R1 & C1 & G1 & Lo & Hix & Hp & Hb).
  destruct (links_only_lookup _ _ _ _ Lo He) as (e1 & He1 & Hs1).
  destruct (strip_key _ _ Hs1) as (Ek & _ & Ep & _ & Ev & Eky).
  destruct (core_delete hashKey _ _ _ _ _ C1 He1) as (ix & Hxe & C2).
  replace (ehash hashKey e1) with (ehash hashKey e) in Hxe by (unfold ehash; congruence).
  replace (pinBit e1) with (pinBit e) in C2 by (unfold pinBit; by rewrite Ep).
  exists s1, ix, ls1. split; [done|]. split; [done|]. rewrite <- Hp. split; [|split; [|done]].
  - split; [|exact C2|exact G1]. cbn [with_index sh_heap]. eapply qrep_ext; [| |exact (q_delete _ _ _ _ R1)]; [by intros []|done].
  - destruct (docs_of_links _ _ (c_unique _ _ _ _ (i_core _ _ Hinv)) Lo) as [Hu1 Hd1].
    destruct (docs_of_delete _ p e1 Hu1 He1) as [_ ->]. rewrite Hd1, Ek. done.
Qed.

Lemma pinBit_pending n e : 0 < n -> pinBit (set_pending n e) = 1.
Proof. intros. unfold pinBit; simpl. destruct (Z.ltb_spec 0 n); [done|lia]. Qed.

Lemma evict_after s ls A puts fills evs gh fd : shard_inv s ls -> shard_docs s = A ->
  exists s' ls', evict hashKey (with_counters s puts fills evs gh fd) = Some s' /\
    shard_inv s' ls' /\ drops A (shard_docs s') /\ same_budget s s'.
Proof using IXL.
  intros [R C G] <-. apply (evict_drops (with_counters s puts fills evs gh fd) ls). split; [|done..].
  eapply qrep_ext; [| |exact R]; [by intros []|done].
Qed.

(** After [displace] the key is absent and [n] pins are to be carried. *)
Lemma displace_spec s ls e : shard_inv s ls -> entry_ok e ->
  let n := pendingOf (shard_docs s) (mapKey e) in
  exists s1 ls1 ix1 pend1,
    displace s (ehash hashKey e) (mapKey e) = Some (with_index s1 (sh_heap s1) ix1 pend1, n) /\
    shard_inv s1 ls1 /\ sh_index s1 = ix1 /\ shard_docs s1 = delete (mapKey e) (shard_docs s) /\
    (if n =? 0 then u64 (pend1 + 1) else pend1) = u64 (sh_pendingItems s1 + 1) /\ 0 <= n /\ same_budget s s1.
Proof using IXL.
  intros Hinv Hok n. unfold displace. pose proof Hok as (Hv & _ & _ & _).
  destruct (find_docs s ls (e_vbid e) (e_key e) Hinv Hv) as (r & Hf & Hr).
  change (find s (ehash hashKey e) (mapKey e)) with
    (find s (hashKey (e_vbid e) (e_key e)) (MapKeyBuf (e_vbid e) (e_key e))).
  rewrite Hf. cbn [mbind option_bind]. change (docKey (e_vbid e) (e_key e)) with (mapKey e) in Hr.
  destruct r as [p|].
  - destruct Hr as (eo & He & Hk & Hd & Hh). rewrite He. cbn [mbind option_bind].
    destruct (replace_spec s ls p eo Hinv He) as (s1 & ix & ls1 & -> & Hxe & Hinv1 & D1 & Hp1 & Hb).
    cbn [mbind option_bind]. rewrite Hh in Hxe.
    change (ehash hashKey e) with (hashKey (e_vbid e) (e_key e)). rewrite Hxe. cbn [mbind option_bind].
    destruct (c_entries _ _ _ _ (i_core _ _ Hinv) _ _ He) as (_ & _ & Hpo & _). unfold is_uint in Hpo.
    assert (Hn : n = e_pending eo) by (unfold n, pendingOf; by rewrite Hd).
    eexists (with_index s1 (delete p (sh_heap s1)) ix (u64 (sh_pendingItems s - pinBit eo))), ls1, ix, _.
    rewrite <- Hn. split; [done|]. split; [done|]. split; [done|].
    split; [unfold shard_docs; cbn [with_index sh_heap]; by rewrite D1, Hk|]. split; [|split; [lia|done]].
    cbn [with_index sh_pendingItems]. rewrite u64_add_idemp_l, Hp1, (c_pend _ _ _ _ (i_core _ _ Hinv)).
    unfold pinBit. rewrite <- Hn. destruct (Z.eqb_spec n 0) as [->|]; [f_equal; simpl; lia|].
    destruct (Z.ltb_spec 0 n); [|lia]. rewrite Z.sub_add, u64_u64. done.
  - destruct Hr as [_ Hd]. assert (n = 0) as -> by (unfold n, pendingOf; by rewrite Hd).
    exists s, ls, (sh_index s), (sh_pendingItems s). split; [by destruct s|].
    split_and!; try done. by rewrite delete_id.
Qed.

Lemma putEntry_spec s ls e : shard_inv s ls -> entry_ok e ->
  pendingOf (shard_docs s) (mapKey e) + 1 < 2 ^ 32 ->
  exists s' ls', putEntry hashKey s (ehash hashKey e) e = Some s' /\ shard_inv s' ls' /\
    drops (<[mapKey e := doc_of (set_pending (pendingOf (shard_docs s) (mapKey e) + 1) e)]> (shard_docs s))
      (shard_docs s') /\ same_budget s s'.
Proof using IXL.
  intros Hinv Hok Hpend. unfold putEntry.
  destruct (displace_spec s ls e Hinv Hok) as (s1 & ls1 & ix1 & pend1 & -> & Hinv1 & <- & D1 & Hpd & Hn & Hb1).
  set (n := pendingOf (shard_docs s) (mapKey e)) in *.
  cbn [mbind option_bind with_index sh_heap sh_index sh_pendingItems].
  rewrite u32_small by lia. set (e' := set_pending (n + 1) e).
  destruct (insert_spec s1 ls1 (fresh (dom (sh_heap s1))) e' Hinv1) as (s2 & ls2 & Hins & Hinv2 & D2 & Hb2).
  { apply not_elem_of_dom, is_fresh. }
  { destruct Hok as (? & ? & ? & ?). refine (conj _ (conj _ (conj _ _))); try done. unfold is_uint; simpl; lia. }
  { intros q eq Hq Hk. pose proof (docs_of_entry _ q eq (c_unique _ _ _ _ (i_core _ _ Hinv1)) Hq) as Hdq.
    fold (shard_docs s1) in Hdq. rewrite D1, Hk in Hdq. change (mapKey e') with (mapKey e) in Hdq.
    by rewrite lookup_delete_eq in Hdq. }
  unfold e' in Hins. rewrite pinBit_pending in Hins by lia. fold e' in Hins.
  cbn [with_index] in Hins. rewrite Hpd. change (ehash hashKey e) with (ehash hashKey e').
  unfold with_index in *. cbn in Hins |- *. rewrite Hins. cbn [mbind option_bind].
  destruct (evict_after s2 ls2 _ (sh_puts s2 + 1) (sh_fills s2) (sh_evictions s2) (sh_ghostHits s2)
    (sh_fillsDeferred s2) Hinv2 D2) as (s' & ls' & -> & Hinv' & D' & Hb').
  exists s', ls'. split; [done|]. split; [done|]. split.
  - rewrite D1 in D'. change (mapKey e') with (mapKey e) in D'. by rewrite insert_delete_eq in D'.
  - unfold same_budget in *. intuition congruence.
Qed.

(** A read fill stores the entry only when the key is absent, and unpinned. *)
Lemma fillInsert_spec s ls e : shard_inv s ls -> entry_ok e -> e_pending e = 0 ->
  exists s' ls' b, fillInsert hashKey s (ehash hashKey e) e = Some (s', b) /\ shard_inv s' ls' /\
    same_budget s s' /\
    if b then shard_docs s !! mapKey e = None /\
              drops (<[mapKey e := doc_of e]> (shard_docs s)) (shard_docs s')
    else s' = s.
Proof using IXL.
  intros Hinv Hok Hp0. unfold fillInsert. pose proof Hok as (Hv & _ & _ & _).
  destruct (find_docs s ls (e_vbid e) (e_key e) Hinv Hv) as (r & Hf & Hr).
  change (find s (ehash hashKey e) (mapKey e)) with
    (find s (hashKey (e_vbid e) (e_key e)) (MapKeyBuf (e_vbid e) (e_key e))).
  rewrite Hf. cbn [mbind option_bind]. change (docKey (e_vbid e) (e_key e)) with (mapKey e) in Hr.
  destruct r as [p|]; [exists s, ls, false; done|]. destruct Hr as [Hk Hd].
  destruct (insert_spec s ls (fresh (dom (sh_heap s))) e Hinv) as (s2 & ls2 & Hins & Hinv2 & D2 & Hb2);
    [apply not_elem_of_dom, is_fresh|done..|].
  assert (Hpb : pinBit e = 0) by (unfold pinBit; by rewrite Hp0).
  rewrite Hpb, Z.add_0_r, (c_pend _ _ _ _ (i_core _ _ Hinv)), u64_u64,
    <- (c_pend _ _ _ _ (i_core _ _ Hinv)) in Hins.
  rewrite Hins. cbn [mbind option_bind].
  destruct (evict_after s2 ls2 _ (sh_puts s2) (sh_fills s2 + 1) (sh_evictions s2) (sh_ghostHits s2)
    (sh_fillsDeferred s2) Hinv2 D2) as (s' & ls' & -> & Hinv' & D' & Hb').
  cbn [mbind option_bind]. exists s', ls', true. split; [done|]. split; [done|].
  split; [|done]. unfold same_budget in *. intuition congruence.
Qed.

Lemma fillDoor_spec s ls hash : shard_inv s ls ->
  shard_inv (fillDoor s hash).1 ls /\ shard_docs (fillDoor s hash).1 = shard_docs s /\
  same_budget s (fillDoor s hash).1.
Proof.
  intros [R C G]. unfold fillDoor. case_bool_decide; [done|].
  destruct (ghostAdd_ok s hash G) as (g & st & -> & Hg). cbn [fst].
  split; [|done]. split; [|exact C|exact Hg].
  eapply qrep_ext; [| |exact R]; [by intros []|done].
Qed.

(** The acknowledgement of one write. *)
Lemma markShard_spec s ls vbid key seqno : shard_inv s ls -> is_uint 16 vbid ->
  (forall d, shard_docs s !! docKey vbid key = Some d -> pinned d) ->
  exists s' (r : option bool * bool), markShard hashKey s vbid key seqno = Some (s', r.1, r.2) /\ shard_inv s' ls /\
    same_budget s s' /\
    shard_docs s' = match shard_docs s !! docKey vbid key with
      | Some d => <[docKey vbid key :=
          mkCachedDoc (if seqno =? 0 then d_seqno d else seqno) (d_flags d) (d_expiry d)
            (d_datatype d) (d_deleted d) (d_value d) (d_pending d - 1)]> (shard_docs s)
      | None => shard_docs s
      end /\
    r.1 = d_deleted <$> shard_docs s !! docKey vbid key /\
    (shard_docs s !! docKey vbid key = None -> r.2 = false).
Proof using IXL.
  intros Hinv Hv Hpin. unfold markShard. destruct (find_docs s ls vbid key Hinv Hv) as (r & -> & Hr).
  cbn [mbind option_bind]. destruct r as [p|].
  2:{ destruct Hr as [_ ->]. exists s, (None, false). done. }
  destruct Hr as (e & He & Hk & Hd & Hh). rewrite He, Hd. cbn [mbind option_bind].
  pose proof (Hpin _ Hd) as Hp. unfold pinned, doc_of in Hp; cbn [d_pending] in Hp.
  destruct Hinv as [R C G]. destruct (c_entries _ _ _ _ C _ _ He) as (O1 & O2 & O3 & O4).
  set (e1 := if seqno =? 0 then e else set_seqno seqno e).
  assert (He1 : e_pending e1 = e_pending e) by (subst e1; by destruct (seqno =? 0)). rewrite He1.
  unfold is_uint in O3. rewrite u32_small by lia.
  set (e2 := set_pending (e_pending e - 1) e1).
  assert (Hk2 : mapKey e2 = mapKey e) by (subst e2 e1; by destruct (seqno =? 0)).
  assert (Hq : qrep (<[p := e2]> (sh_heap s)) (qs_of s) ls []).
  { eapply q_update; [done..|]. subst e2 e1. by destruct (seqno =? 0). }
  assert (Hc : core_inv (<[p := e2]> (sh_heap s)) (sh_index s)
                 (u64 (sh_pendingItems s - (if e_pending e =? 1 then 1 else 0)))).
  { pose proof (core_update hashKey _ _ _ p e e2 C He) as Hc.
    assert (Hpb : pinBit e - pinBit e2 = if e_pending e =? 1 then 1 else 0).
    { unfold pinBit. subst e2. cbn [set_pending e_pending].
      destruct (Z.eqb_spec (e_pending e) 1), (Z.ltb_spec 0 (e_pending e)),
        (Z.ltb_spec 0 (e_pending e - 1)); lia. }
    replace (sh_pendingItems s - (if e_pending e =? 1 then 1 else 0)) with
      (sh_pendingItems s - pinBit e + pinBit e2) by lia.
    apply Hc; subst e2 e1; destruct (seqno =? 0); try done;
      (refine (conj _ (conj _ (conj _ _))); try done; unfold is_uint; simpl; lia). }
  assert (Hdoc : docs_of (<[p := e2]> (sh_heap s)) = <[docKey vbid key :=
          mkCachedDoc (if seqno =? 0 then e_seqno e else seqno) (e_flags e) (e_expiry e)
            (e_datatype e) (e_deleted e) (e_value e) (e_pending e - 1)]> (shard_docs s)).
  { destruct (docs_of_update _ p e e2 (c_unique _ _ _ _ C) He Hk2) as [_ ->]. rewrite Hk.
    f_equal. subst e2 e1. by destruct (seqno =? 0). }
  destruct (e_pending e =? 1); eexists _, (_, _); (split; [done|]).
  - split; [split; [|exact Hc|exact G]|].
    + eapply qrep_ext; [| |exact Hq]; [by intros []|done].
    + split; [done|]. split; [exact Hdoc|]. by split.
  - rewrite Z.sub_0_r, (c_pend _ _ _ _ C), u64_u64, <- (c_pend _ _ _ _ C) in Hc.
    split; [split; [|exact Hc|exact G]|].
    + eapply qrep_ext; [| |exact Hq]; [by intros []|done].
    + split; [done|]. split; [exact Hdoc|]. by split.
Qed.

Lemma eraseShard_spec s ls vbid key : shard_inv s ls -> is_uint 16 vbid ->
  exists s' ls', eraseShard hashKey s vbid key = Some s' /\ shard_inv s' ls' /\
    shard_docs s' = delete (docKey vbid key) (shard_docs s) /\ same_budget s s'.
Proof using IXL.
  intros Hinv Hv. unfold eraseShard. destruct (find_docs s ls vbid key Hinv Hv) as (r & -> & Hr).
  cbn [mbind option_bind]. destruct r as [p|].
  2:{ destruct Hr as [_ Hd]. exists s, ls. rewrite delete_id by done. done. }
  destruct Hr as (e & He & Hk & _ & _).
  destruct (unlink_spec s ls p e Hinv He) as (s1 & ls1 & -> & R1 & C1 & G1 & Lo & _ & _ & Hb).
  cbn [mbind option_bind]. destruct (links_only_lookup _ _ _ _ Lo He) as (e1 & He1 & Hs1).
  destruct (strip_key _ _ Hs1) as (Ek & _).
  destruct (free_spec s1 ls1 p e1 R1 C1 G1 He1) as (s' & -> & Hinv' & Hh & Hb').
  exists s', ls1. split; [done|]. split; [done|]. split.
  - destruct (docs_of_links _ _ (c_unique _ _ _ _ (i_core _ _ Hinv)) Lo) as [Hu1 Hd1].
    destruct (docs_of_delete _ p e1 Hu1 He1) as [_ Hd]. unfold shard_docs. rewrite Hh, Hd, Hd1, Ek, Hk. done.
  - unfold same_budget in *. intuition congruence.
Qed.

Lemma setBudgetShard_spec s ls per : shard_inv s ls ->
  exists s' ls', setBudgetShard hashKey s per = Some s' /\ shard_inv s' ls' /\
    drops (shard_docs s) (shard_docs s') /\ sh_budget s' = per.
Proof using IXL.
  intros [R C G].
  destruct (evict_drops (with_budget s per (per * kSmallPercent / 100)) ls) as (s' & ls' & Hs & Hinv & D & Hb).
  { split; [|exact C|exact G]. eapply qrep_ext; [| |exact R]; [by intros []|done]. }
  exists s', ls'. split; [exact Hs|]. split; [done|]. split; [exact D|]. apply Hb.
Qed.

Lemma emptyShard_inv : shard_inv emptyShard (fun _ => []).
Proof using IXL.
  split.
  - split; [| | |].
    + intros k. split_and!; try by destruct k. constructor.
    + intros p. simpl. rewrite lookup_empty. split; [by intros []|].
      intros [[k Hp]|Hp]; by apply elem_of_nil in Hp.
    + intros p k Hp. by apply elem_of_nil in Hp.
    + intros k p e Hp. by apply elem_of_nil in Hp.
  - split.
    + simpl. rewrite fmap_empty. apply ix_empty_law.
    + intros p q e e' Hp. simpl in Hp. by rewrite lookup_empty in Hp.
    + intros p e Hp. simpl in Hp. by rewrite lookup_empty in Hp.
    + done.
  - split; [constructor|done].
Qed.
End ops.
