(* ===== verification/Cache.v ===== *)
(** * Cache: the sharded S3-FIFO cache (server/cache/s3fifo_cache.cc, s3fifo_cache.h)

    [S3FifoCache] is the vector of shards, each with its seqno index, and the
    switches.  An operation works on the shard its key hashes to; the sections
    it runs under separate locks are separate definitions of S3Fifo.v, composed
    here in the source's order.  [s3fifo_laws] shows that the cache keeps the
    contract of doccache.h, which [DocCacheLaws] states. *)
From stdpp Require Import prelude gmap list.
From Stdlib Require Import ZArith Lia.
From S2P Require Import Prelude FlatIndex Fifo SeqnoIndex DocCache S3Fifo S3FifoInv S3FifoOps.
Open Scope Z_scope.

(** [gReadStats], summed over the per-thread slots. *)
Record ReadStats := mkReadStats {
  rs_hits : Z;
  rs_misses : Z;
  rs_tombstoneHits : Z;
  rs_fillsRejected : Z;
}.

Record DocCacheStats := mkDocCacheStats {
  st_hits : Z;
  st_misses : Z;
  st_tombstoneHits : Z;
  st_puts : Z;
  st_fills : Z;
  st_fillsRejected : Z;
  st_evictions : Z;
  st_ghostHits : Z;
  st_bytes : Z;
  st_items : Z;
  st_pendingItems : Z;
  st_maxBytes : Z;
  st_seqnoIndexItems : Z;
  st_seqnoIndexBytes : Z;
  st_seqnoIndexEvictions : Z;
  st_seqnoIndexRejected : Z;
  st_fillsDeferred : Z;
}.

Section cache.
Context {I : Type} `{IX : EntryIndex I} `{F : F14Map}.
Context (hashKey : Z -> list Z -> Z).
Local Abbreviation Shard := (@S3Fifo.Shard I).

Record CacheShard := mkCacheShard {
  cs_shard : Shard;
  cs_seq : SeqIndex;
}.

Record S3FifoCache := mkS3FifoCache {
  c_shards : list CacheShard;
  c_numShards : Z;
  c_shardMask : Z;
  c_maxBytes : Z;
  c_seqnoIndex : bool;
  c_fillDoorkeeper : bool;
  c_stats : ReadStats;
}.

Definition with_shards (c : S3FifoCache) (l : list CacheShard) : S3FifoCache :=
  mkS3FifoCache l (c_numShards c) (c_shardMask c) (c_maxBytes c) (c_seqnoIndex c)
    (c_fillDoorkeeper c) (c_stats c).
Definition with_stats (c : S3FifoCache) (h m t f : Z) : S3FifoCache :=
  mkS3FifoCache (c_shards c) (c_numShards c) (c_shardMask c) (c_maxBytes c) (c_seqnoIndex c)
    (c_fillDoorkeeper c)
    (mkReadStats (rs_hits (c_stats c) + h) (rs_misses (c_stats c) + m)
       (rs_tombstoneHits (c_stats c) + t) (rs_fillsRejected (c_stats c) + f)).

(** [while (numShards_ < max(1, numShards)) numShards_ <<= 1] from 1; a size_t
    has 64 bits, so 64 doublings are enough. *)
Fixpoint roundUp (fuel : nat) (n target : Z) : Z :=
  match fuel with
  | O => n
  | S f => if n <? target then roundUp f (Z.shiftl n 1) target else n
  end.

(** The constructor. *)
Definition newCache (maxBytes numShards : Z) : S3FifoCache :=
  let n := roundUp 64 1 (Z.max 1 numShards) in
  let perShard := maxBytes / n in
  mkS3FifoCache
    (replicate (Z.to_nat n)
       (mkCacheShard (with_budget emptyShard perShard (perShard * kSmallPercent / 100)) emptySeqIndex))
    n (n - 1) maxBytes false false (mkReadStats 0 0 0 0).

Definition shardNo (c : S3FifoCache) (hash : Z) : nat :=
  Z.to_nat (Z.land (Z.shiftr hash 32) (c_shardMask c)).

(** Run a step on the shard of [hash]; an index past the vector would be
    undefined behaviour. *)
Definition onShard {A} (c : S3FifoCache) (hash : Z) (f : CacheShard -> option (CacheShard * A))
    : option (S3FifoCache * A) :=
  cs ← c_shards c !! shardNo c hash;
  '(cs, a) ← f cs;
  Some (with_shards c (<[shardNo c hash := cs]> (c_shards c)), a).

Definition onEntries {A} (f : Shard -> option (Shard * A)) (cs : CacheShard)
    : option (CacheShard * A) :=
  '(s, a) ← f (cs_shard cs); Some (mkCacheShard s (cs_seq cs), a).

Definition onSeq (f : SeqIndex -> SeqIndex) (cs : CacheShard) : option (CacheShard * unit) :=
  Some (mkCacheShard (cs_shard cs) (f (cs_seq cs)), tt).

Definition unitStep (f : Shard -> option Shard) (s : Shard) : option (Shard * unit) :=
  s ← f s; Some (s, tt).

Definition cacheGet (c : S3FifoCache) (vbid : Z) (key : list Z)
    : option (S3FifoCache * option CachedDoc) :=
  '(c, d) ← onShard c (hashKey vbid key) (onEntries (fun s => getShard hashKey s vbid key));
  Some (match d with
        | None => with_stats c 0 1 0 0
        | Some d => if d_deleted d then with_stats c 0 0 1 0 else with_stats c 1 0 0 0
        end, d).

(** The value is copied into the caller's buffer of [bufCap] bytes only on a
    [Hit]; [TooLarge] counts neither as hit nor as miss. *)
Definition cacheGetCopy (c : S3FifoCache) (vbid : Z) (key : list Z) (bufCap : nat)
    : option (S3FifoCache * GetResult * option CachedDoc) :=
  '(c, d) ← onShard c (hashKey vbid key) (onEntries (fun s => getShard hashKey s vbid key));
  match d with
  | None => Some (with_stats c 0 1 0 0, Miss, None)
  | Some d =>
      if d_deleted d then Some (with_stats c 0 0 1 0, Tombstone, Some d)
      else if (bufCap <? length (d_value d))%nat then Some (c, TooLarge, Some d)
      else Some (with_stats c 1 0 0 0, Hit, Some d)
  end.

Definition cachePutEntry (c : S3FifoCache) (hash : Z) (e : Entry) : option S3FifoCache :=
  fst <$> onShard c hash (onEntries (unitStep (fun s => putEntry hashKey s hash e))).

Definition cachePut (c : S3FifoCache) (vbid : Z) (key value : list Z)
    (flags expiry datatype : Z) (deleted : bool) : option S3FifoCache :=
  cachePutEntry c (hashKey vbid key) (create vbid key value 0 flags expiry datatype deleted).

Definition cachePutShared (c : S3FifoCache) (vbid : Z) (key value : list Z)
    (capacity flags expiry datatype : Z) (deleted : bool) : option S3FifoCache :=
  cachePutEntry c (hashKey vbid key)
    (createShared vbid key value capacity flags expiry datatype deleted).

Definition noteFill (c : S3FifoCache) (hash seqno : Z) : option S3FifoCache :=
  if c_seqnoIndex c && negb (seqno =? 0) then
    fst <$> onShard c hash (onSeq (fun q => noteSeqno q hash seqno false 0 false))
  else Some c.

Definition cachePutIfAbsent (c : S3FifoCache) (vbid : Z) (key value : list Z)
    (seqno flags expiry datatype : Z) : option S3FifoCache :=
  let h := hashKey vbid key in
  c ← noteFill c h seqno;
  (** cheap reject under the shared lock *)
  '(c, present) ← onShard c h (onEntries (fun s =>
      op ← find s h (MapKeyBuf vbid key); Some (s, bool_decide (op <> None))));
  if (present : bool) then Some (with_stats c 0 0 0 1) else
  (** the doorkeeper, under the exclusive lock *)
  '(c, go) ← (if c_fillDoorkeeper c then onShard c h (onEntries (fun s => Some (fillDoor s h)))
              else Some (c, true));
  if negb go then Some c else
  (** the insertion, under the exclusive lock again *)
  '(c, stored) ← onShard c h (onEntries (fun s =>
      fillInsert hashKey s h (create vbid key value seqno flags expiry datatype false)));
  Some (if (stored : bool) then c else with_stats c 0 0 0 1).

Definition cacheMarkPersisted (c : S3FifoCache) (vbid : Z) (key : list Z) (seqno : Z)
    : option S3FifoCache :=
  let h := hashKey vbid key in
  '(c, r) ← onShard c h (fun cs =>
      '(s, del, over) ← markShard hashKey (cs_shard cs) vbid key seqno;
      let seq := if c_seqnoIndex c && negb (seqno =? 0)
                 then noteSeqno (cs_seq cs) h seqno (default false del) 0 true else cs_seq cs in
      Some (mkCacheShard s seq, over));
  if (r : bool) then fst <$> onShard c h (onEntries (unitStep (evict hashKey))) else Some c.

Definition cacheErase (c : S3FifoCache) (vbid : Z) (key : list Z) : option S3FifoCache :=
  fst <$> onShard c (hashKey vbid key) (onEntries (unitStep (fun s => eraseShard hashKey s vbid key))).

Fixpoint setBudgets (l : list CacheShard) (perShard : Z) : option (list CacheShard) :=
  match l with
  | [] => Some []
  | cs :: l' =>
      s ← setBudgetShard hashKey (cs_shard cs) perShard;
      l'' ← setBudgets l' perShard;
      Some (mkCacheShard s (cs_seq cs) :: l'')
  end.

Definition cacheSetBudget (c : S3FifoCache) (maxBytes : Z) : option S3FifoCache :=
  l ← setBudgets (c_shards c) (maxBytes / c_numShards c);
  Some (mkS3FifoCache l (c_numShards c) (c_shardMask c) maxBytes (c_seqnoIndex c)
          (c_fillDoorkeeper c) (c_stats c)).

Definition cacheSetSeqnoIndexCap (c : S3FifoCache) (maxBytes : Z) : S3FifoCache :=
  with_shards c ((fun cs => mkCacheShard (cs_shard cs)
    (setSeqCap (cs_seq cs) (maxBytes / c_numShards c))) <$> c_shards c).

Definition cacheNoteSeqno (c : S3FifoCache) (vbid : Z) (key : list Z) (seqno : Z) (deleted : bool)
    (valuePtr : Z) : option S3FifoCache :=
  if negb (c_seqnoIndex c) || (seqno =? 0) then Some c else
  let h := hashKey vbid key in
  fst <$> onShard c h (onSeq (fun q => noteSeqno q h seqno deleted valuePtr true)).

Definition cacheNoteValuePtr (c : S3FifoCache) (vbid : Z) (key : list Z) (seqno valuePtr : Z)
    : option S3FifoCache :=
  if negb (c_seqnoIndex c) || (seqno =? 0) || (valuePtr =? 0) then Some c else
  let h := hashKey vbid key in
  fst <$> onShard c h (onSeq (fun q => noteValuePtr q h seqno valuePtr)).

Definition cacheSeqnoHint (c : S3FifoCache) (vbid : Z) (key : list Z)
    : option (S3FifoCache * (Z * Z)) :=
  if negb (c_seqnoIndex c) then Some (c, (0, 0)) else
  let h := hashKey vbid key in
  onShard c h (fun cs => let '(r, vp, q) := seqnoHint (cs_seq cs) h in
                         Some (mkCacheShard (cs_shard cs) q, (r, vp))).

Definition sumOf {A} (f : A -> Z) (l : list A) : Z := sumZ (f <$> l).

Definition cacheGetStats (c : S3FifoCache) : DocCacheStats :=
  let l := c_shards c in
  let sh f := sumOf (fun cs => f (cs_shard cs)) l in
  let sq f := sumOf (fun cs => f (cs_seq cs)) l in
  mkDocCacheStats (rs_hits (c_stats c)) (rs_misses (c_stats c)) (rs_tombstoneHits (c_stats c))
    (sh (fun s => sh_puts s)) (sh (fun s => sh_fills s)) (rs_fillsRejected (c_stats c))
    (sh (fun s => sh_evictions s)) (sh (fun s => sh_ghostHits s)) (sh (fun s => sh_bytes s))
    (sh (fun s => fcount (sh_small s) + fcount (sh_main s))) (sh (fun s => sh_pendingItems s)) (c_maxBytes c)
    (sq (fun q => sumOf (fun p => Z.of_nat (length (p_map p))) (seqParts q)))
    (sq seqBytes) (sq seqEvictions) (sq seqRejected) (sh (fun s => sh_fillsDeferred s)).
End cache.
