(* ===== verification/CacheLaws.v ===== *)
(** * CacheLaws: the S3-FIFO cache keeps the cache contract

    [cache_rep] relates the sharded cache to one map of documents: each shard
    satisfies its invariant and holds exactly the documents whose keys hash to
    it.  The instance at the end discharges the laws of [DocCacheLaws]. *)
From stdpp Require Import prelude gmap list.
From Stdlib Require Import ZArith Lia.
From S2P Require Import Prelude FlatIndex Fifo SeqnoIndex DocCache S3Fifo S3FifoInv S3FifoOps Cache.
Open Scope Z_scope.

Section laws.
Context {I : Type} `{IXL : EntryIndexLaws I} `{F : F14Map}.
Context (hashKey : Z -> list Z -> Z).
Local Abbreviation Shard := (@S3Fifo.Shard I).
Local Abbreviation S3FifoCache := (@Cache.S3FifoCache I).
Local Abbreviation CacheShard := (@Cache.CacheShard I).
Local Abbreviation shard_inv := (shard_inv hashKey).

(** The shard of a document key, from the bytes of vbid || key. *)
Definition keyShard (c : S3FifoCache) (k : list Z) : nat :=
  shardNo c (hashKey (le_value (take 2 k)) (drop 2 k)).

Lemma keyShard_docKey c vbid key : is_uint 16 vbid ->
  keyShard c (docKey vbid key) = shardNo c (hashKey vbid key).
Proof.
  intros Hv. unfold keyShard, docKey.
  rewrite (take_app_exact 2), (drop_app_exact 2) by apply length_le_bytes.
  rewrite le_value_bytes_small; [done|]. unfold is_uint in Hv. simpl. lia.
Qed.

(** The part of [A] that belongs to shard [i]. *)
Definition inShard (c : S3FifoCache) (i : nat) (A : docs) : docs :=
  filter (fun kd => keyShard c kd.1 = i) A.

Lemma inShard_lookup c i A k :
  inShard c i A !! k = if decide (keyShard c k = i) then A !! k else None.
Proof.
  unfold inShard. case_decide as Hk.
  - destruct (A !! k) as [d|] eqn:E.
    + by apply map_lookup_filter_Some.
    + apply map_lookup_filter_None. by left.
  - apply map_lookup_filter_None. right. intros d _ ?. done.
Qed.

Definition shards_ok (c : S3FifoCache) : Prop :=
  exists k, 0 <= k /\ c_numShards c = 2 ^ k /\ c_shardMask c = 2 ^ k - 1 /\
    Z.of_nat (length (c_shards c)) = 2 ^ k.

Definition s3_rep (c : S3FifoCache) (A : docs) : Prop :=
  shards_ok c /\
  forall i cs, c_shards c !! i = Some cs ->
    (exists ls, shard_inv (cs_shard cs) ls) /\ shard_docs (cs_shard cs) = inShard c i A.

Lemma shardNo_lt c h : shards_ok c -> (shardNo c h < length (c_shards c))%nat.
Proof.
  intros (k & Hk & _ & Hm & Hl). unfold shardNo. rewrite Hm.
  replace (2 ^ k - 1) with (Z.ones k) by (rewrite Z.ones_equiv; lia).
  rewrite Z.land_ones by lia.
  pose proof (Z.mod_pos_bound (Z.shiftr h 32) (2 ^ k) ltac:(apply Z.pow_pos_nonneg; lia)). lia.
Qed.

(** [A] with shard [i]'s part replaced by [B]. *)
Definition mrg (c : S3FifoCache) (i : nat) (B A : docs) : docs :=
  B ∪ filter (fun kd => keyShard c kd.1 <> i) A.

Lemma mrg_lookup c i B A k : (forall k' d, B !! k' = Some d -> keyShard c k' = i) ->
  mrg c i B A !! k = if decide (keyShard c k = i) then B !! k else A !! k.
Proof.
  intros HB. unfold mrg. case_decide as Hk.
  - destruct (B !! k) as [d|] eqn:E.
    + by apply lookup_union_Some_l.
    + apply lookup_union_None. split; [done|]. apply map_lookup_filter_None. right. intros d _ Hne. done.
  - assert (HBn : B !! k = None).
    { destruct (B !! k) as [d|] eqn:E; [|done]. by destruct Hk; eapply HB. }
    rewrite lookup_union_r by done. destruct (A !! k) as [d|] eqn:E.
    + by apply map_lookup_filter_Some.
    + apply map_lookup_filter_None. by left.
Qed.

(** A shard step as a step of the whole cache. *)
Definition step_ok (c : S3FifoCache) (A : docs) (i : nat) (B' : docs) (cs' : CacheShard)
    (c' : S3FifoCache) : Prop :=
  c_shards c' = <[i := cs']> (c_shards c) /\ c_numShards c' = c_numShards c /\
  c_shardMask c' = c_shardMask c /\
  (exists ls, shard_inv (cs_shard cs') ls) /\ shard_docs (cs_shard cs') = B' /\
  (forall k d, B' !! k = Some d -> keyShard c k = i).

Lemma step_rep c A i B' cs' c' : s3_rep c A -> (i < length (c_shards c))%nat ->
  step_ok c A i B' cs' c' -> s3_rep c' (mrg c i B' A).
Proof.
  intros [Hok Hsh] Hi (Hl & Hn & Hm & Hinv & Hd & HB).
  assert (Hks : forall k, keyShard c' k = keyShard c k).
  { intros k. unfold keyShard, shardNo. by rewrite Hm. }
  assert (Hin : forall j A', inShard c' j A' = inShard c j A').
  { intros j A'. apply map_eq. intros k. by rewrite !inShard_lookup, Hks. }
  split.
  - destruct Hok as (k & ? & ? & ? & ?). exists k. rewrite Hl, Hn, Hm, length_insert. done.
  - intros j cs Hj. rewrite Hl in Hj. rewrite Hin. destruct (decide (i = j)) as [<-|Hne].
    + rewrite list_lookup_insert_eq in Hj by done. simplify_eq. split; [done|].
      apply map_eq. intros k. rewrite inShard_lookup, mrg_lookup by done.
      case_decide as Hk; [done|]. destruct (shard_docs (cs_shard cs) !! k) as [d|] eqn:E; [|done].
      by destruct Hk; eapply HB.
    + rewrite list_lookup_insert_ne in Hj by done. destruct (Hsh j cs Hj) as [? ->]. split; [done|].
      apply map_eq. intros k. rewrite !inShard_lookup, mrg_lookup by done.
      repeat case_decide; congruence.
Qed.

Lemma rep_shard c A vbid key : s3_rep c A -> is_uint 16 vbid ->
  exists cs ls, c_shards c !! shardNo c (hashKey vbid key) = Some cs /\
    shard_inv (cs_shard cs) ls /\
    shard_docs (cs_shard cs) = inShard c (shardNo c (hashKey vbid key)) A /\
    shard_docs (cs_shard cs) !! docKey vbid key = A !! docKey vbid key.
Proof.
  intros [Hok Hsh] Hv. pose proof (shardNo_lt c (hashKey vbid key) Hok) as Hlt.
  destruct (c_shards c !! shardNo c (hashKey vbid key)) as [cs|] eqn:E;
    [|apply lookup_ge_None in E; lia].
  destruct (Hsh _ _ E) as [[ls Hinv] Hd]. exists cs, ls. split_and!; try done.
  rewrite Hd, inShard_lookup, keyShard_docKey, decide_True by done. done.
Qed.

(** Keys of a shard's new documents stay in the shard. *)
Lemma drops_region c A i B k d0 B' : B = inShard c i A -> keyShard c k = i ->
  drops (<[k := d0]> B) B' -> forall k' d, B' !! k' = Some d -> keyShard c k' = i.
Proof.
  intros -> Hk [Hsub _] k' d Hk'. eapply map_subseteq_spec in Hk'; [|exact Hsub].
  rewrite lookup_insert in Hk'. case_decide; [congruence|].
  rewrite inShard_lookup in Hk'. by case_decide.
Qed.

Lemma drops_region0 c A i B B' : B = inShard c i A -> drops B B' ->
  forall k' d, B' !! k' = Some d -> keyShard c k' = i.
Proof.
  intros -> [Hsub _] k' d Hk'. eapply map_subseteq_spec in Hk'; [|exact Hsub].
  rewrite inShard_lookup in Hk'. by case_decide.
Qed.

(** Eviction inside a shard is eviction of the whole. *)
Lemma drops_lift c A i X Y B' : (forall k, keyShard c k = i -> Y !! k = X !! k) ->
  (forall k, keyShard c k <> i -> Y !! k = A !! k) ->
  (forall k d, B' !! k = Some d -> keyShard c k = i) ->
  drops X B' -> drops Y (mrg c i B' A).
Proof.
  intros Hin Hout HB [Hsub Hpin]. split.
  - apply map_subseteq_spec. intros k d Hk. rewrite mrg_lookup in Hk by done. case_decide as Hd.
    + rewrite Hin by done. by eapply map_subseteq_spec in Hk; [|exact Hsub].
    + by rewrite Hout.
  - intros k d Hk Hp. rewrite mrg_lookup by done. case_decide as Hd.
    + rewrite Hin in Hk by done. by apply Hpin.
    + by rewrite <- Hout.
Qed.

Section shard_step.
Context (c : S3FifoCache) (A : docs) (vbid : Z) (key : list Z).
Context (cs : CacheShard) (s' : Shard) (seq' : SeqIndex) (ls' : Queue -> list ptr).
Hypothesis Hrep : s3_rep c A.
Hypothesis Hv : is_uint 16 vbid.
Hypothesis Hcs : c_shards c !! shardNo c (hashKey vbid key) = Some cs.
Hypothesis Hdocs : shard_docs (cs_shard cs) = inShard c (shardNo c (hashKey vbid key)) A.
Hypothesis Hinv' : shard_inv s' ls'.
Local Abbreviation i := (shardNo c (hashKey vbid key)).
Definition stepped : S3FifoCache := with_shards c (<[i := mkCacheShard s' seq']> (c_shards c)).

Lemma stepped_rep : (forall k d, shard_docs s' !! k = Some d -> keyShard c k = i) ->
  s3_rep stepped (mrg c i (shard_docs s') A).
Proof using Hrep Hcs Hinv'.
  intros HB. apply (step_rep c A i (shard_docs s') (mkCacheShard s' seq')); [done| |].
  - by eapply lookup_lt_Some.
  - split_and!; try done. by exists ls'.
Qed.

Lemma stepped_drops k d : k = docKey vbid key ->
  drops (<[k := d]> (shard_docs (cs_shard cs))) (shard_docs s') ->
  exists A', s3_rep stepped A' /\ drops (<[k := d]> A) A'.
Proof using Hrep Hv Hcs Hdocs Hinv'.
  intros -> Hd. pose proof (keyShard_docKey c vbid key Hv) as Hk.
  pose proof (drops_region c A i _ _ _ _ Hdocs Hk Hd) as HB.
  eexists. split; [by apply stepped_rep|]. eapply drops_lift; [| |exact HB|exact Hd].
  - intros k' Hk'. rewrite !lookup_insert. case_decide; [done|].
    by rewrite Hdocs, inShard_lookup, decide_True.
  - intros k' Hk'. rewrite lookup_insert_ne; [done|]. intros <-. by rewrite Hk in Hk'.
Qed.

Lemma stepped_evicts : drops (shard_docs (cs_shard cs)) (shard_docs s') ->
  exists A', s3_rep stepped A' /\ drops A A'.
Proof using Hrep Hv Hcs Hdocs Hinv'.
  intros Hd. pose proof (drops_region0 c A i _ _ Hdocs Hd) as HB.
  eexists. split; [by apply stepped_rep|]. eapply drops_lift; [|done|exact HB|exact Hd].
  intros k' Hk'. by rewrite Hdocs, inShard_lookup, decide_True.
Qed.

Lemma stepped_same : shard_docs s' = shard_docs (cs_shard cs) -> s3_rep stepped A.
Proof using Hrep Hv Hcs Hdocs Hinv'.
  intros Hd. assert (HB : forall k d, shard_docs s' !! k = Some d -> keyShard c k = i).
  { intros k d. rewrite Hd, Hdocs, inShard_lookup. by case_decide. }
  replace A with (mrg c i (shard_docs s') A) at 1; [by apply stepped_rep|].
  apply map_eq. intros k. rewrite mrg_lookup by done. case_decide; [|done].
  by rewrite Hd, Hdocs, inShard_lookup, decide_True.
Qed.

Lemma stepped_deletes : shard_docs s' = delete (docKey vbid key) (shard_docs (cs_shard cs)) ->
  s3_rep stepped (delete (docKey vbid key) A).
Proof using Hrep Hv Hcs Hdocs Hinv'.
  intros Hd. pose proof (keyShard_docKey c vbid key Hv) as Hk.
  assert (HB : forall k d, shard_docs s' !! k = Some d -> keyShard c k = i).
  { intros k d. rewrite Hd. intros [_ Hk']%lookup_delete_Some. rewrite Hdocs, inShard_lookup in Hk'.
    by case_decide. }
  replace (delete (docKey vbid key) A) with (mrg c i (shard_docs s') A); [by apply stepped_rep|].
  apply map_eq. intros k. rewrite mrg_lookup by done. rewrite Hd, !lookup_delete.
  case_decide as Hi; [|case_decide; [subst; by rewrite Hk in Hi|done]].
  case_decide; [done|]. by rewrite Hdocs, inShard_lookup, decide_True.
Qed.
End shard_step.

Lemma onShard_some {X} c vbid key cs (f : CacheShard -> option (CacheShard * X)) cs' x :
  c_shards c !! shardNo c (hashKey vbid key) = Some cs -> f cs = Some (cs', x) ->
  onShard c (hashKey vbid key) f =
  Some (with_shards c (<[shardNo c (hashKey vbid key) := cs']> (c_shards c)), x).
Proof. intros Hc Hf. unfold onShard. rewrite Hc. cbn [mbind option_bind]. rewrite Hf. done. Qed.

Lemma get_law c A vbid key : s3_rep c A -> is_uint 16 vbid ->
  exists c', onShard c (hashKey vbid key) (onEntries (fun s => getShard hashKey s vbid key)) =
      Some (c', A !! docKey vbid key) /\ s3_rep c' A.
Proof using IXL.
  intros Hrep Hv. destruct (rep_shard c A vbid key Hrep Hv) as (cs & ls & Hcs & Hinv & Hd & Hk).
  destruct (getShard_spec hashKey (cs_shard cs) ls vbid key Hinv Hv) as (s' & Hg & Hinv' & Hd' & _).
  eexists. split.
  - eapply onShard_some; [exact Hcs|]. unfold onEntries. rewrite Hg, Hk. done.
  - by apply (stepped_same c A vbid key cs s' (cs_seq cs) ls).
Qed.

Lemma putEntry_law c A e : s3_rep c A -> entry_ok e -> pendingOf A (mapKey e) + 1 < 2 ^ 32 ->
  exists c' A', cachePutEntry hashKey c (ehash hashKey e) e = Some c' /\ s3_rep c' A' /\
    drops (<[mapKey e := doc_of (set_pending (pendingOf A (mapKey e) + 1) e)]> A) A'.
Proof using IXL.
  intros Hrep Hok Hp. pose proof Hok as (Hv & _).
  destruct (rep_shard c A (e_vbid e) (e_key e) Hrep Hv) as (cs & ls & Hcs & Hinv & Hd & Hk).
  change (docKey (e_vbid e) (e_key e)) with (mapKey e) in Hk.
  assert (Hpo : pendingOf (shard_docs (cs_shard cs)) (mapKey e) = pendingOf A (mapKey e)).
  { unfold pendingOf. by rewrite Hk. }
  destruct (putEntry_spec hashKey (cs_shard cs) ls e Hinv Hok) as (s' & ls' & Hs & Hinv' & Hdr & _);
    [by rewrite Hpo|]. rewrite Hpo in Hdr.
  destruct (stepped_drops c A (e_vbid e) (e_key e) cs s' (cs_seq cs) ls' Hrep Hv Hcs Hd Hinv' _ _ eq_refl Hdr)
    as (A' & Hrep' & Hdr').
  eexists _, A'. split; [|done]. unfold cachePutEntry.
  erewrite (onShard_some c (e_vbid e) (e_key e)); [done|exact Hcs|].
  unfold onEntries, unitStep. change (hashKey (e_vbid e) (e_key e)) with (ehash hashKey e). by rewrite Hs.
Qed.

Lemma create_ok vbid key value seqno flags expiry datatype deleted : is_uint 16 vbid ->
  entry_ok (create vbid key value seqno flags expiry datatype deleted).
Proof. intros. refine (conj _ (conj _ (conj _ _))); done. Qed.

Lemma put_law c A vbid key value flags expiry datatype deleted : s3_rep c A -> is_uint 16 vbid ->
  pendingOf A (docKey vbid key) + 1 < 2 ^ 32 ->
  exists c' A', cachePut hashKey c vbid key value flags expiry datatype deleted = Some c' /\
    s3_rep c' A' /\ put_spec A (docKey vbid key) value flags expiry datatype deleted A'.
Proof using IXL.
  intros Hrep Hv Hp.
  by apply (putEntry_law c A (create vbid key value 0 flags expiry datatype deleted)); [|apply create_ok|].
Qed.

Lemma putShared_law c A vbid key value capacity flags expiry datatype deleted :
  s3_rep c A -> is_uint 16 vbid ->
  pendingOf A (docKey vbid key) + 1 < 2 ^ 32 -> 0 <= capacity ->
  exists c' A', cachePutShared hashKey c vbid key value capacity flags expiry datatype deleted = Some c' /\
    s3_rep c' A' /\ put_spec A (docKey vbid key) value flags expiry datatype deleted A'.
Proof using IXL.
  intros Hrep Hv Hp Hc.
  apply (putEntry_law c A (createShared vbid key value capacity flags expiry datatype deleted)); [done| |done].
  refine (conj _ (conj _ (conj _ _))); done.
Qed.

Lemma erase_law c A vbid key : s3_rep c A -> is_uint 16 vbid ->
  exists c', cacheErase hashKey c vbid key = Some c' /\ s3_rep c' (delete (docKey vbid key) A).
Proof using IXL.
  intros Hrep Hv. destruct (rep_shard c A vbid key Hrep Hv) as (cs & ls & Hcs & Hinv & Hd & Hk).
  destruct (eraseShard_spec hashKey (cs_shard cs) ls vbid key Hinv Hv) as (s' & ls' & Hs & Hinv' & Hd' & _).
  eexists. split.
  - unfold cacheErase. erewrite onShard_some; [done|exact Hcs|]. unfold onEntries, unitStep. by rewrite Hs.
  - by apply (stepped_deletes c A vbid key cs s' (cs_seq cs) ls').
Qed.

(** A section of an operation that leaves the documents alone. *)
Lemma same_step {X} c A vbid key (f : CacheShard -> option (CacheShard * X))
    (Q : X -> option CachedDoc -> Prop) : s3_rep c A -> is_uint 16 vbid ->
  (forall cs ls, shard_inv (cs_shard cs) ls -> exists cs' x ls', f cs = Some (cs', x) /\
     shard_inv (cs_shard cs') ls' /\ shard_docs (cs_shard cs') = shard_docs (cs_shard cs) /\
     Q x (shard_docs (cs_shard cs) !! docKey vbid key)) ->
  exists c' x, onShard c (hashKey vbid key) f = Some (c', x) /\ s3_rep c' A /\ Q x (A !! docKey vbid key).
Proof.
  intros Hrep Hv Hf. destruct (rep_shard c A vbid key Hrep Hv) as (cs & ls & Hcs & Hinv & Hd & Hk).
  destruct (Hf cs ls Hinv) as ([s' q'] & x & ls' & Hfs & Hinv' & Hd' & HQ). cbn [cs_shard] in *.
  eexists _, x. split; [by eapply onShard_some|]. split; [|by rewrite Hk in HQ].
  by apply (stepped_same c A vbid key cs s' q' ls').
Qed.

Lemma noteFill_law c A vbid key seqno : s3_rep c A -> is_uint 16 vbid ->
  exists c', noteFill c (hashKey vbid key) seqno = Some c' /\ s3_rep c' A.
Proof.
  intros Hrep Hv. unfold noteFill. destruct (_ && _); [|by eauto].
  destruct (same_step c A vbid key (onSeq (fun q => noteSeqno q (hashKey vbid key) seqno false 0 false))
    (fun _ _ => True) Hrep Hv) as (c' & [] & -> & Hrep' & _); [|by eauto].
  intros cs ls Hinv. eexists _, tt, ls. done.
Qed.

Lemma fillInsert_law c A vbid key value seqno flags expiry datatype : s3_rep c A -> is_uint 16 vbid ->
  exists c' b A', onShard c (hashKey vbid key) (onEntries (fun s =>
      fillInsert hashKey s (hashKey vbid key) (create vbid key value seqno flags expiry datatype false))) =
      Some (c', b) /\ s3_rep c' A' /\
    if b then A !! docKey vbid key = None /\
      drops (<[docKey vbid key := mkCachedDoc seqno flags expiry datatype false value 0]> A) A'
    else A' = A.
Proof using IXL.
  intros Hrep Hv. destruct (rep_shard c A vbid key Hrep Hv) as (cs & ls & Hcs & Hinv & Hd & Hk).
  set (e := create vbid key value seqno flags expiry datatype false).
  destruct (fillInsert_spec hashKey (cs_shard cs) ls e Hinv) as (s' & ls' & b & Hf & Hinv' & _ & Hb);
    [by apply create_ok|done|].
  assert (Hon : onShard c (hashKey vbid key) (onEntries (fun s => fillInsert hashKey s (hashKey vbid key) e)) =
    Some (stepped c vbid key s' (cs_seq cs), b)).
  { eapply onShard_some; [exact Hcs|]. unfold onEntries.
    change (hashKey vbid key) with (ehash hashKey e). by rewrite Hf. }
  rewrite Hon. destruct b.
  - destruct Hb as [Hnone Hdr]. change (mapKey e) with (docKey vbid key) in *. rewrite Hk in Hnone.
    destruct (stepped_drops c A vbid key cs s' (cs_seq cs) ls' Hrep Hv Hcs Hd Hinv' _ _ eq_refl Hdr) as (A' & ? & ?).
    by exists (stepped c vbid key s' (cs_seq cs)), true, A'.
  - subst s'. eexists _, false, A. split; [done|]. split; [|done].
    by apply (stepped_same c A vbid key cs (cs_shard cs) (cs_seq cs) ls').
Qed.

Lemma putIfAbsent_law c A vbid key value seqno flags expiry datatype : s3_rep c A -> is_uint 16 vbid ->
  exists c' A', cachePutIfAbsent hashKey c vbid key value seqno flags expiry datatype = Some c' /\
    s3_rep c' A' /\ putIfAbsent_spec A (docKey vbid key) value seqno flags expiry datatype A'.
Proof using IXL.
  intros Hrep Hv. unfold cachePutIfAbsent.
  assert (Hsame : forall c', s3_rep c' A -> exists c'' A', Some c' = Some c'' /\ s3_rep c'' A' /\
    putIfAbsent_spec A (docKey vbid key) value seqno flags expiry datatype A').
  { intros c' Hc'. exists c', A. split; [done|]. split; [done|]. by left. }
  destruct (noteFill_law c A vbid key seqno Hrep Hv) as (c1 & -> & Hrep1). cbn [mbind option_bind].
  destruct (same_step c1 A vbid key (onEntries (fun s =>
      op ← find s (hashKey vbid key) (MapKeyBuf vbid key); Some (s, bool_decide (op <> None))))
    (fun _ _ => True) Hrep1 Hv) as (c2 & present & -> & Hrep2 & _).
  { intros cs ls Hinv. destruct (find_docs hashKey (cs_shard cs) ls vbid key Hinv Hv) as (r & Hf & _).
    unfold onEntries. rewrite Hf. eexists _, _, ls. done. }
  cbn [mbind option_bind]. destruct present; [by apply Hsame|].
  assert (Hdoor : exists c3 go, (if c_fillDoorkeeper c2
      then onShard c2 (hashKey vbid key) (onEntries (fun s => Some (fillDoor s (hashKey vbid key))))
      else Some (c2, true)) = Some (c3, go) /\ s3_rep c3 A).
  { destruct (c_fillDoorkeeper c2); [|by eauto].
    destruct (same_step c2 A vbid key (onEntries (fun s => Some (fillDoor s (hashKey vbid key))))
      (fun _ _ => True) Hrep2 Hv) as (c3 & go & -> & Hrep3 & _); [|by eauto].
    intros cs ls Hinv. destruct (fillDoor_spec hashKey (cs_shard cs) ls (hashKey vbid key) Hinv) as (Hi & Hdd & _).
    unfold onEntries. cbn [mbind option_bind]. destruct (fillDoor _ _) as [s3 go]. eexists _, _, ls. done. }
  destruct Hdoor as (c3 & go & -> & Hrep3). cbn [mbind option_bind]. destruct go; [|by apply Hsame].
  destruct (fillInsert_law c3 A vbid key value seqno flags expiry datatype Hrep3 Hv) as (c4 & b & A' & -> & Hrep4 & Hb).
  cbn [mbind option_bind negb]. destruct b; [|subst; by apply Hsame].
  exists c4, A'. split; [done|]. split; [done|]. by right.
Qed.

Lemma evict_law c A vbid key : s3_rep c A -> is_uint 16 vbid ->
  exists c' A', fst <$> onShard c (hashKey vbid key) (onEntries (unitStep (evict hashKey))) = Some c' /\
    s3_rep c' A' /\ drops A A'.
Proof using IXL.
  intros Hrep Hv. destruct (rep_shard c A vbid key Hrep Hv) as (cs & ls & Hcs & Hinv & Hd & Hk).
  destruct (evict_drops hashKey (cs_shard cs) ls Hinv) as (s' & ls' & He & Hinv' & Hdr & _).
  destruct (stepped_evicts c A vbid key cs s' (cs_seq cs) ls' Hrep Hv Hcs Hd Hinv' Hdr) as (A' & Hrep' & HA').
  eexists _, A'. split; [|done]. erewrite onShard_some; [done|exact Hcs|].
  unfold onEntries, unitStep. by rewrite He.
Qed.

Lemma markPersisted_law c A vbid key seqno : s3_rep c A -> is_uint 16 vbid ->
  (forall d, A !! docKey vbid key = Some d -> pinned d) ->
  exists c' A', cacheMarkPersisted hashKey c vbid key seqno = Some c' /\
    s3_rep c' A' /\ markPersisted_spec A (docKey vbid key) seqno A'.
Proof using IXL.
  intros Hrep Hv Hpin. unfold cacheMarkPersisted.
  destruct (rep_shard c A vbid key Hrep Hv) as (cs & ls & Hcs & Hinv & Hd & Hk).
  destruct (markShard_spec hashKey (cs_shard cs) ls vbid key seqno Hinv Hv)
    as (s' & r & Hm & Hinv' & _ & Hds & Hr & Hr0); [by rewrite Hk|]. rewrite Hk in Hds, Hr, Hr0.
  set (seq' := if c_seqnoIndex c && negb (seqno =? 0)
    then noteSeqno (cs_seq cs) (hashKey vbid key) seqno (default false r.1) 0 true else cs_seq cs).
  erewrite (onShard_some c vbid key cs _ (mkCacheShard s' seq') r.2); [|exact Hcs|by rewrite Hm].
  cbn [mbind option_bind]. change (with_shards c _) with (stepped c vbid key s' seq').
  unfold markPersisted_spec. destruct (A !! docKey vbid key) as [d|] eqn:E.
  - destruct (stepped_drops c A vbid key cs s' seq' ls Hrep Hv Hcs Hd Hinv' (docKey vbid key)
      (mkCachedDoc (if seqno =? 0 then d_seqno d else seqno) (d_flags d) (d_expiry d)
         (d_datatype d) (d_deleted d) (d_value d) (d_pending d - 1)) eq_refl) as (A1 & Hrep1 & Hdr1);
      [by rewrite Hds|].
    destruct r.2; [|by eauto].
    destruct (evict_law _ A1 vbid key Hrep1 Hv) as (c2 & A2 & Hev & Hrep2 & Hdr2).
    exists c2, A2. split; [exact Hev|]. split; [done|]. by etrans.
  - rewrite Hr0 by done. eexists _, A. split; [done|]. split; [|done].
    by apply (stepped_same c A vbid key cs s' seq' ls).
Qed.

Lemma setBudgets_spec l per : Forall (fun cs : CacheShard => exists ls, shard_inv (cs_shard cs) ls) l ->
  exists l', setBudgets hashKey l per = Some l' /\
    Forall2 (fun cs cs' => (exists ls, shard_inv (cs_shard cs') ls) /\
      drops (shard_docs (cs_shard cs)) (shard_docs (cs_shard cs'))) l l'.
Proof using IXL.
  induction 1 as [|cs l [ls Hinv] _ (l' & IH & HF)]; cbn [setBudgets]; [by exists []; split|].
  destruct (setBudgetShard_spec hashKey (cs_shard cs) ls per Hinv) as (s' & ls' & -> & Hinv' & Hd & _).
  cbn [mbind option_bind]. rewrite IH. cbn [mbind option_bind]. eexists. split; [done|].
  constructor; [|done]. split; [by exists ls'|done].
Qed.

Lemma setBudget_law c A maxBytes : s3_rep c A ->
  exists c' A', cacheSetBudget hashKey c maxBytes = Some c' /\ s3_rep c' A' /\ drops A A'.
Proof using IXL.
  intros [Hok Hsh]. unfold cacheSetBudget.
  destruct (setBudgets_spec (c_shards c) (maxBytes / c_numShards c)) as (l' & -> & HF).
  { apply Forall_lookup. intros i cs Hi. by apply (Hsh i cs). }
  cbn [mbind option_bind]. pose proof (Forall2_length _ _ _ HF) as Hlen.
  set (A' := filter (fun kd => match l' !! keyShard c kd.1 with
                               | Some cs => bool_decide (is_Some (shard_docs (cs_shard cs) !! kd.1))
                               | None => false end = true) A).
  assert (HA' : forall i cs', l' !! i = Some cs' -> shard_docs (cs_shard cs') = inShard c i A').
  { intros i cs' Hi. destruct (Forall2_lookup_r _ _ _ _ _ HF Hi) as (cs & Hcs & _ & [Hsub _]).
    destruct (Hsh i cs Hcs) as [_ Hd]. apply map_eq. intros k. rewrite inShard_lookup. case_decide as Hk.
    - destruct (A' !! k) as [d|] eqn:E.
      + apply map_lookup_filter_Some in E as [HAk Hb]. cbn [fst] in Hb. rewrite Hk, Hi in Hb. b2p.
        destruct Hb as [d' Hd']. rewrite Hd'. eapply map_subseteq_spec in Hd'; [|exact Hsub].
        rewrite Hd, inShard_lookup, decide_True in Hd' by done. congruence.
      + apply map_lookup_filter_None in E. destruct (shard_docs (cs_shard cs') !! k) as [d'|] eqn:Ed; [|done].
        pose proof Ed as Ed2. eapply map_subseteq_spec in Ed2; [|exact Hsub].
        rewrite Hd, inShard_lookup, decide_True in Ed2 by done.
        destruct E as [|E]; [congruence|]. exfalso. apply (E d' Ed2). cbn [fst].
        rewrite Hk, Hi. apply bool_decide_true. by rewrite Ed.
    - destruct (shard_docs (cs_shard cs') !! k) as [d'|] eqn:Ed; [|done].
      eapply map_subseteq_spec in Ed; [|exact Hsub]. rewrite Hd, inShard_lookup, decide_False in Ed; done. }
  eexists _, A'. split; [done|]. split; [split|split].
  - destruct Hok as (k & ? & ? & ? & ?). exists k. cbn. rewrite <- Hlen. done.
  - intros i cs' Hi. cbn [c_shards] in Hi. split; [|by apply HA'].
    destruct (Forall2_lookup_r _ _ _ _ _ HF Hi) as (cs & _ & Hinv' & _). done.
  - apply map_filter_subseteq.
  - intros k d Hk Hp. apply map_lookup_filter_Some. split; [done|]. cbn [fst].
    pose proof (shardNo_lt c (hashKey (le_value (take 2 k)) (drop 2 k)) Hok) as Hlt.
    fold (keyShard c k) in Hlt. rewrite Hlen in Hlt. apply lookup_lt_is_Some_2 in Hlt as [cs' Hi].
    rewrite Hi. destruct (Forall2_lookup_r _ _ _ _ _ HF Hi) as (cs & Hcs & _ & [_ Hpin]).
    destruct (Hsh _ cs Hcs) as [_ Hd]. apply bool_decide_true. exists d. apply Hpin; [|done].
    by rewrite Hd, inShard_lookup, decide_True.
Qed.

Lemma pending_range c A k d : s3_rep c A -> A !! k = Some d -> 0 <= d_pending d < 2 ^ 32.
Proof.
  intros [Hok Hsh] Hk.
  pose proof (shardNo_lt c (hashKey (le_value (take 2 k)) (drop 2 k)) Hok) as Hlt.
  apply lookup_lt_is_Some_2 in Hlt as [cs Hi]. destruct (Hsh _ cs Hi) as [[ls Hinv] Hd].
  assert (Hdk : shard_docs (cs_shard cs) !! k = Some d) by (by rewrite Hd, inShard_lookup, decide_True).
  apply docs_of_lookup in Hdk as (p & e & He & _ & <-); [|apply Hinv].
  destruct (c_entries _ _ _ _ (i_core _ _ _ Hinv) _ _ He) as (_ & _ & Hp & _). exact Hp.
Qed.

Lemma roundUp_pow fuel j target : 0 <= j -> exists k, 0 <= k /\ roundUp fuel (2 ^ j) target = 2 ^ k.
Proof.
  revert j. induction fuel as [|fuel IH]; intros j Hj; simpl; [by eauto|].
  destruct (2 ^ j <? target); [|by eauto].
  rewrite Z.shiftl_mul_pow2, <- Z.pow_add_r by lia. apply IH. lia.
Qed.

Lemma newCache_rep maxBytes numShards : s3_rep (newCache maxBytes numShards) ∅.
Proof using IXL.
  destruct (roundUp_pow 64 0 (Z.max 1 numShards)) as (k & Hk & Hr); [lia|]. change (2 ^ 0) with 1 in Hr.
  assert (0 < 2 ^ k) by (apply Z.pow_pos_nonneg; lia).
  unfold newCache. rewrite Hr. split.
  - exists k. cbn [c_numShards c_shardMask c_shards]. rewrite length_replicate. split_and!; lia.
  - intros i cs Hi. cbn [c_shards] in Hi. apply lookup_replicate_1 in Hi as [-> _]. cbn [cs_shard]. split.
    + exists (fun _ => []). destruct (emptyShard_inv hashKey) as [R C G]. split; [|exact C|exact G].
      eapply qrep_ext; [| |exact R]; [by intros []|done].
    + apply map_eq. intros k0. rewrite inShard_lookup, lookup_empty. by case_decide.
Qed.
End laws.

(** The cache as an implementation of the interface. *)
#[export] Instance s3fifo_cache {I} `{EntryIndex I} `{F14Map} (hashKey : Z -> list Z -> Z)
    : DocCache (@S3FifoCache I) := {
  Get := cacheGet hashKey;
  GetCopy := cacheGetCopy hashKey;
  Put := cachePut hashKey;
  PutShared := cachePutShared hashKey;
  PutIfAbsent := cachePutIfAbsent hashKey;
  MarkPersisted := cacheMarkPersisted hashKey;
  Erase := cacheErase hashKey;
  SetBudget := cacheSetBudget hashKey;
  cache_rep := s3_rep hashKey;
}.

#[export] Instance s3fifo_laws {I} `{EntryIndexLaws I} `{F14Map} (hashKey : Z -> list Z -> Z)
    : DocCacheLaws (@S3FifoCache I) (H := s3fifo_cache hashKey).
Proof.
  split; cbn [Get GetCopy Put PutShared PutIfAbsent MarkPersisted Erase SetBudget cache_rep s3fifo_cache].
  - intros c A vbid key Hrep Hv. destruct (get_law hashKey c A vbid key Hrep Hv) as (c' & Hg & Hrep').
    unfold cacheGet. rewrite Hg. cbn [mbind option_bind]. eexists. split; [done|].
    destruct (A !! _) as [d|]; [destruct (d_deleted d)|]; exact Hrep'.
  - intros c A vbid key bufCap Hrep Hv. destruct (get_law hashKey c A vbid key Hrep Hv) as (c' & Hg & Hrep').
    unfold cacheGetCopy. rewrite Hg. cbn [mbind option_bind]. unfold getCopy_result.
    destruct (A !! _) as [d|]; [destruct (d_deleted d); [|destruct (_ <? _)%nat]|];
      eexists; (split; [done|exact Hrep']).
  - apply put_law.
  - apply putShared_law.
  - apply putIfAbsent_law.
  - apply markPersisted_law.
  - apply erase_law.
  - apply setBudget_law.
  - apply pending_range.
Qed.

(** C2: the S3-FIFO cache over the flat index keeps the whole cache contract,
    for any hash function and any behaviour of the seqno index's hash maps: a
    new cache is empty, no operation touches a freed entry or loops, Put pins
    and replaces carrying the outstanding pins over, a fill never replaces an
    entry, MarkPersisted releases exactly one pin, eviction never drops or
    changes a pinned entry, and lookups return exactly the documents held. *)
Theorem s3fifo_keeps_contract (F : F14Map) (hashKey : Z -> list Z -> Z) :
  (forall maxBytes numShards,
     cache_rep (DocCache := s3fifo_cache hashKey) (newCache maxBytes numShards : @S3FifoCache FlatIndex) ∅) /\
  DocCacheLaws (@S3FifoCache FlatIndex) (H := s3fifo_cache hashKey).
Proof. split; [apply newCache_rep|apply _]. Qed.
