(* ===== verification/S3FifoBudget.v ===== *)
(** * S3FifoBudget: how far over its budget a shard can stay

    The comment on [evict] says pinned entries let "the cache sit over budget by
    at most the bytes of unapplied writes", and that the guard of the loop is
    never what stops it before that.  The proof bounds the visits an unpinned
    entry of the main queue can still receive before it is freed: at position
    [i] from the tail with frequency [f] it survives at most [f * n + i] further
    visits of a queue of [n] entries, and moving entries over from the small
    queue does not raise the bound for those ahead of them. *)
From stdpp Require Import prelude gmap list.
From Stdlib Require Import ZArith Lia.
From S2P Require Import Prelude FlatIndex Fifo SeqnoIndex DocCache S3Fifo S3FifoInv S3FifoOps.
Open Scope Z_scope.

(** Bytes of the entries pinned by unapplied writes. *)
Definition pinCharge (e : Entry) : Z := if 0 <? e_pending e then charge e else 0.
Definition pinnedBytes (h : heap) : Z := map_fold (fun _ e acc => pinCharge e + acc) 0 h.

Lemma charge_pos e : entry_ok e -> 0 < charge e.
Proof.
  intros (_ & _ & _ & Hs). unfold charge, kSizeofEntry, kSizeofExt, kMapSlotOverhead.
  destruct (e_shared e); lia.
Qed.

Lemma pinnedBytes_insert h p e : h !! p = None -> pinnedBytes (<[p := e]> h) = pinCharge e + pinnedBytes h.
Proof. intros Hp. unfold pinnedBytes. rewrite map_fold_insert_L; [done| |done]. intros. lia. Qed.

Lemma pinnedBytes_delete h p e : h !! p = Some e -> pinnedBytes h = pinCharge e + pinnedBytes (delete p h).
Proof.
  intros Hp. rewrite <- (insert_delete_id h p e) at 1 by done.
  apply pinnedBytes_insert, lookup_delete_eq.
Qed.

Lemma pinnedBytes_update h p e e' : h !! p = Some e -> pinCharge e' = pinCharge e ->
  pinnedBytes (<[p := e']> h) = pinnedBytes h.
Proof.
  intros Hp Hc. rewrite <- insert_delete_eq, pinnedBytes_insert by apply lookup_delete_eq.
  rewrite Hc. symmetry. by apply pinnedBytes_delete.
Qed.

Lemma strip_pinCharge e e' : strip e' = strip e -> pinCharge e' = pinCharge e.
Proof.
  intros Hs. unfold pinCharge. destruct (strip_key _ _ Hs) as (_ & _ & -> & _).
  by rewrite (strip_charge _ _ Hs).
Qed.

Lemma pinnedBytes_links h h' : links_only h h' -> pinnedBytes h' = pinnedBytes h.
Proof.
  intros Hl. assert (Hs : forall g : heap, pinnedBytes g = pinnedBytes (strip <$> g)).
  { intros g. unfold pinnedBytes. rewrite map_fold_fmap. done. }
  rewrite (Hs h'), (Hs h), Hl. done.
Qed.

(** The pinned entries among distinct live ones account for part of the total. *)
Lemma pinned_sublist h l : (forall p e, h !! p = Some e -> entry_ok e) -> NoDup l ->
  (forall p, p ∈ l -> exists e, h !! p = Some e /\ 0 < e_pending e) ->
  sumZ (chargeOf h <$> l) <= pinnedBytes h.
Proof.
  intros Hok Hnd. revert h Hok. induction Hnd as [|p l Hp Hnd IH]; intros h Hok Hl.
  - simpl. revert Hok. unfold pinnedBytes.
    refine (map_fold_weak_ind (fun b (m : heap) => (forall p e, m !! p = Some e -> entry_ok e) -> 0 <= b) _ _ _ _ h).
    + done.
    + intros i x m r Hi IHm Hok. assert (0 <= r).
      { apply IHm. intros q e Hq. apply (Hok q e). rewrite lookup_insert_ne; [done|]. congruence. }
      assert (0 <= pinCharge x); [|lia]. unfold pinCharge. destruct (0 <? _); [|lia].
      apply Z.lt_le_incl, charge_pos, (Hok i). apply lookup_insert_eq.
  - destruct (Hl p) as (e & He & Hpe); [by left|].
    rewrite (pinnedBytes_delete h p e He). cbn [fmap list_fmap]. unfold sumZ; cbn [foldr].
    fold (sumZ (chargeOf h <$> l)). rewrite (chargeOf_Some h p e) by done.
    assert (pinCharge e = charge e) as -> by (unfold pinCharge; destruct (Z.ltb_spec 0 (e_pending e)); lia).
    enough (sumZ (chargeOf h <$> l) <= pinnedBytes (delete p h)) by (unfold fmap in *; lia).
    replace (chargeOf h <$> l) with (chargeOf (delete p h) <$> l).
    + apply IH.
      * intros q e' [_ Hq]%lookup_delete_Some. by eapply Hok.
      * intros q Hq. destruct (Hl q) as (e' & He' & ?); [by right|]. exists e'.
        rewrite lookup_delete_ne; [done|]. by intros ->.
    + apply list_fmap_ext. intros i q Hq. unfold chargeOf. rewrite lookup_delete_ne; [done|].
      intros ->. apply Hp. by eapply list_elem_of_lookup_2.
Qed.

(** ** Visits left *)

(** Every unpinned entry of the queue [l] (head first) is freed within [k] more
    evictions from its tail, if the queue never has more than [n] entries. *)
Definition visits (h : heap) (l : list ptr) (n k : Z) : Prop :=
  forall i p e, reverse l !! i = Some p -> h !! p = Some e -> e_pending e <= 0 ->
    Z.of_nat i + 1 + e_freq e * n <= k.

Lemma visits_links h h' l n k : links_only h h' -> visits h l n k -> visits h' l n k.
Proof.
  intros Hl Hv i p e Hi He Hp. destruct (links_queue _ _ _ _ Hl He) as (e0 & He0 & Hs).
  destruct (strip_key _ _ Hs) as (_ & _ & Ep & Ef & _). rewrite Ef. rewrite Ep in Hp. by eapply Hv.
Qed.

Lemma visits_rotate h l p e f n k : visits h (l ++ [p]) n k -> h !! p = Some e -> p ∉ l ->
  Z.of_nat (length l + 1) <= n -> 0 <= e_freq e ->
  (e_pending e <= 0 -> f = e_freq e - 1) ->
  visits (<[p := set_queue kMain (set_freq f e)]> h) (p :: l) n (k - 1).
Proof.
  intros Hv He Hp Hn Hf0 Hf i q eq Hi Heq Hpq.
  assert (Hrev : forall j x, reverse l !! j = Some x -> reverse (l ++ [p]) !! S j = Some x).
  { intros j x. rewrite reverse_app. done. }
  rewrite reverse_cons in Hi. apply lookup_app_Some in Hi as [Hi|[Hge Hi]].
  - assert (q <> p).
    { intros ->. apply Hp. apply elem_of_reverse. by eapply list_elem_of_lookup_2. }
    rewrite lookup_insert_ne in Heq by done. specialize (Hv (S i) q eq (Hrev _ _ Hi) Heq Hpq). lia.
  - destruct (i - length (reverse l))%nat as [|?] eqn:Ei; [|done]. simpl in Hi. simplify_eq.
    rewrite lookup_insert_eq in Heq. simplify_eq. cbn in Hpq. rewrite Hf by done.
    rewrite length_reverse in *.
    specialize (Hv 0%nat q e ltac:(by rewrite reverse_app) He Hpq). cbn. nia.
Qed.

Lemma visits_free h l p n k : visits h (l ++ [p]) n k -> p ∉ l ->
  visits (delete p h) l n (k - 1).
Proof.
  intros Hv Hp i q eq Hi [Hne Heq]%lookup_delete_Some Hpq.
  assert (Hrev : reverse (l ++ [p]) !! S i = Some q) by (by rewrite reverse_app).
  specialize (Hv _ _ _ Hrev Heq Hpq). lia.
Qed.

Lemma visits_arrive h l p e n k : visits h l n k -> p ∉ l -> Z.of_nat (length l) + 1 <= k ->
  visits (<[p := set_queue kMain (set_freq 0 e)]> h) (p :: l) n k.
Proof.
  intros Hv Hp Hk i q eq Hi Heq Hpq. rewrite reverse_cons in Hi.
  apply lookup_app_Some in Hi as [Hi|[Hge Hi]].
  - assert (q <> p).
    { intros ->. apply Hp. apply elem_of_reverse. by eapply list_elem_of_lookup_2. }
    rewrite lookup_insert_ne in Heq by done. by eapply Hv.
  - destruct (i - length (reverse l))%nat as [|?] eqn:Ei; [|done]. simpl in Hi. simplify_eq.
    rewrite lookup_insert_eq in Heq. simplify_eq. rewrite length_reverse in *. cbn. lia.
Qed.

Lemma visits_delete_other h l p n k : visits h l n k -> visits (delete p h) l n k.
Proof. intros Hv i q eq Hi [_ Heq]%lookup_delete_Some. by eapply Hv. Qed.

Lemma visits_shrink h l n n' k : (forall p e, h !! p = Some e -> entry_ok e) -> n' <= n ->
  visits h l n k -> visits h l n' k.
Proof.
  intros Hok Hn Hv i p e Hi He Hp. specialize (Hv i p e Hi He Hp).
  destruct (Hok p e He) as (_ & [Hf _] & _). nia.
Qed.

(** ** The loop *)
Section loop.
Context {I : Type} `{IXL : EntryIndexLaws I}.
Context (hashKey : Z -> list Z -> Z).
Local Abbreviation Shard := (@S3Fifo.Shard I).
Local Abbreviation shard_inv := (shard_inv hashKey).

Lemma queue_bytes (s : Shard) ls k : shard_inv s ls ->
  bytes (qs_of s k) = sumZ (chargeOf (sh_heap s) <$> ls k) /\
  fcount (qs_of s k) = Z.of_nat (length (ls k)) /\ NoDup (ls k).
Proof.
  intros Hinv. destruct (q_fifo _ _ _ _ (i_queues _ _ _ Hinv) k) as (? & _ & _ & _ & ? & ?). done.
Qed.

Lemma sum_same (h h' : heap) l : (forall p, p ∈ l -> chargeOf h' p = chargeOf h p) ->
  sumZ (chargeOf h' <$> l) = sumZ (chargeOf h <$> l).
Proof.
  intros Hc. f_equal. apply list_fmap_ext. intros i p Hi. apply Hc. by eapply list_elem_of_lookup_2.
Qed.

Lemma chargeOf_requeue h h' p e f q : h !! p = Some e ->
  links_only (<[p := set_queue kMain (set_freq f e)]> h) h' -> chargeOf h' q = chargeOf h q.
Proof.
  intros He Hl. rewrite (chargeOf_links _ _ _ Hl). unfold chargeOf. rewrite lookup_insert.
  case_decide; [subst; by rewrite He|done].
Qed.

Lemma chargeOf_freed (h h' : heap) p q : links_only (delete p h) h' -> q <> p ->
  chargeOf h' q = chargeOf h q.
Proof.
  intros Hl Hne. rewrite (chargeOf_links _ _ _ Hl). unfold chargeOf. by rewrite lookup_delete_ne.
Qed.

Lemma sumZ_snoc (h : heap) l p : sumZ (chargeOf h <$> l ++ [p]) = sumZ (chargeOf h <$> l) + chargeOf h p.
Proof. rewrite fmap_app, sumZ_app. f_equal. unfold sumZ. simpl. lia. Qed.
Lemma sumZ_cons (h : heap) l p : sumZ (chargeOf h <$> p :: l) = chargeOf h p + sumZ (chargeOf h <$> l).
Proof. done. Qed.

(** What one eviction from the small queue does to the measures. *)
Lemma small_step s ls l p n : shard_inv s ls -> ls kSmall = l ++ [p] ->
  exists s' ls', evictSmall hashKey s = Some s' /\ shard_inv s' ls' /\ same_budget s s' /\
    ls' kSmall = l /\ (length (ls' kMain) <= S (length (ls kMain)))%nat /\
    sh_bytes s' <= sh_bytes s /\ pinnedBytes (sh_heap s') = pinnedBytes (sh_heap s) /\
    forall k, visits (sh_heap s) (ls kMain) n k -> Z.of_nat (length (ls kMain)) + 1 <= k ->
      visits (sh_heap s') (ls' kMain) n k.
Proof using IXL.
  intros Hinv Hl. destruct (evictSmall_spec hashKey s ls l p Hinv Hl) as (e & s' & He & Hok & Hs & Hb & Hcase).
  destruct (queue_bytes s ls kSmall Hinv) as (Bs & _ & Nd), (queue_bytes s ls kMain Hinv) as (Bm & _ & _).
  cbn [qs_of] in *. rewrite Hl in Bs, Nd. apply NoDup_app in Nd as (_ & Hd & _).
  assert (Hpl : p ∉ l) by (intros Hp; apply (Hd p Hp); by left).
  assert (Hpm : p ∉ ls kMain).
  { intros Hp. assert (kSmall = kMain); [|done]. eapply (q_disjoint _ _ _ _ _ _ p (i_queues _ _ _ Hinv)); [|done].
    rewrite Hl. apply elem_of_app. right. by left. }
  rewrite sumZ_snoc in Bs. rewrite (chargeOf_Some _ p e He) in Bs. pose proof (charge_pos e Hok) as Hc.
  unfold sh_bytes. destruct (_ || _) eqn:Hpin; destruct Hcase as [Hinv' L]; eexists s', _;
    (split; [done|]); (split; [exact Hinv'|]); (split; [done|]).
  - destruct (queue_bytes s' _ kSmall Hinv') as (Bs' & _ & _), (queue_bytes s' _ kMain Hinv') as (Bm' & _ & _).
    cbn [qs_of] in *. rewrite upd_ne, upd_eq in Bs' by done. rewrite upd_eq in Bm'.
    rewrite (sum_same (sh_heap s)) in Bs', Bm' by (intros; by eapply chargeOf_requeue).
    rewrite sumZ_cons, (chargeOf_Some _ p e He) in Bm'.
    rewrite upd_ne, !upd_eq by done. split; [done|]. split; [simpl; lia|]. split; [lia|]. split.
    + rewrite (pinnedBytes_links _ _ L). by apply (pinnedBytes_update _ _ e).
    + intros k Hv Hk. eapply visits_links; [exact L|]. by apply visits_arrive.
  - destruct (queue_bytes s' _ kSmall Hinv') as (Bs' & _ & _), (queue_bytes s' _ kMain Hinv') as (Bm' & _ & _).
    cbn [qs_of] in *. rewrite upd_eq in Bs'. rewrite upd_ne in Bm' by done.
    rewrite (sum_same (sh_heap s)) in Bs', Bm' by (intros; eapply chargeOf_freed; [exact L|congruence]).
    rewrite upd_eq, upd_ne by done. split; [done|]. split; [lia|]. split; [lia|]. split.
    + rewrite (pinnedBytes_links _ _ L), (pinnedBytes_delete (sh_heap s) p e He).
      apply orb_false_iff in Hpin as [Hp0 _]. unfold pinCharge. rewrite Hp0. lia.
    + intros k Hv Hk. eapply visits_links; [exact L|]. by apply visits_delete_other.
Qed.

(** ... and one eviction from the main queue. *)
Lemma main_step s ls l p : shard_inv s ls -> ls kMain = l ++ [p] ->
  exists s' ls', evictMain hashKey s = Some s' /\ shard_inv s' ls' /\ same_budget s s' /\
    ls' kSmall = ls kSmall /\ bytes (sh_small s') = bytes (sh_small s) /\
    sh_bytes s' <= sh_bytes s /\ pinnedBytes (sh_heap s') = pinnedBytes (sh_heap s) /\
    forall k, visits (sh_heap s) (ls kMain) (Z.of_nat (length (ls kMain))) k ->
      visits (sh_heap s') (ls' kMain) (Z.of_nat (length (ls' kMain))) (k - 1).
Proof using IXL.
  intros Hinv Hl. destruct (evictMain_spec hashKey s ls l p Hinv Hl) as (e & s' & He & Hok & Hs & Hb & Hcase).
  destruct (queue_bytes s ls kSmall Hinv) as (Bs & _ & _), (queue_bytes s ls kMain Hinv) as (Bm & _ & Nd).
  cbn [qs_of] in *. rewrite Hl in Bm, Nd. apply NoDup_app in Nd as (_ & Hd & _).
  assert (Hpl : p ∉ l) by (intros Hp; apply (Hd p Hp); by left).
  assert (Hpm : p ∉ ls kSmall).
  { intros Hp. assert (kSmall = kMain); [|done]. eapply (q_disjoint _ _ _ _ _ _ p (i_queues _ _ _ Hinv)); [done|].
    rewrite Hl. apply elem_of_app. right. by left. }
  rewrite sumZ_snoc in Bm. rewrite (chargeOf_Some _ p e He) in Bm. pose proof (charge_pos e Hok) as Hc.
  pose proof Hok as (_ & [Hf0 _] & _).
  unfold sh_bytes. destruct (_ || _) eqn:Hpin; destruct Hcase as [Hinv' L]; eexists s', _;
    (split; [done|]); (split; [exact Hinv'|]); (split; [done|]).
  - destruct (queue_bytes s' _ kSmall Hinv') as (Bs' & _ & _), (queue_bytes s' _ kMain Hinv') as (Bm' & _ & _).
    cbn [qs_of] in *. rewrite upd_ne in Bs' by done. rewrite upd_eq in Bm'.
    rewrite (sum_same (sh_heap s)) in Bs', Bm' by (intros; by eapply chargeOf_requeue).
    rewrite sumZ_cons, (chargeOf_Some _ p e He) in Bm'.
    rewrite upd_ne, upd_eq by done. split; [done|]. split; [lia|]. split; [lia|]. split.
    + rewrite (pinnedBytes_links _ _ L). by apply (pinnedBytes_update _ _ e).
    + intros k Hv. rewrite Hl in Hv. eapply visits_links; [exact L|].
      rewrite length_app in Hv. cbn [length] in Hv. cbn [length].
      replace (Z.of_nat (S (length l))) with (Z.of_nat (length l + 1)) by lia.
      apply visits_rotate; [done..|]. intros Hp. apply orb_true_iff in Hpin as [Hpin|Hpin]; [b2p; lia|].
      by rewrite Hpin.
  - destruct (queue_bytes s' _ kSmall Hinv') as (Bs' & _ & _), (queue_bytes s' _ kMain Hinv') as (Bm' & _ & _).
    cbn [qs_of] in *. rewrite upd_ne in Bs' by done. rewrite upd_eq in Bm'.
    rewrite (sum_same (sh_heap s)) in Bs', Bm' by (intros; eapply chargeOf_freed; [exact L|congruence]).
    rewrite upd_ne, upd_eq by done. split; [done|]. split; [lia|]. split; [lia|]. split.
    + rewrite (pinnedBytes_links _ _ L), (pinnedBytes_delete (sh_heap s) p e He).
      apply orb_false_iff in Hpin as [Hp0 _]. unfold pinCharge. rewrite Hp0. lia.
    + intros k Hv. rewrite Hl in Hv. eapply visits_links; [exact L|].
      apply (visits_shrink _ _ (Z.of_nat (length (l ++ [p])))).
      * intros q e' [_ Hq]%lookup_delete_Some. by eapply (c_entries _ _ _ _ (i_core _ _ _ Hinv)).
      * rewrite length_app. lia.
      * by apply visits_free.
Qed.

(** Within the bound the comment promises. *)
Definition settled (s : Shard) : Prop := sh_bytes s <= sh_budget s + pinnedBytes (sh_heap s).

(** The small queue is over its share: its entries leave one per round, and the
    guard still covers the main queue afterwards. *)
Definition draining_small (s : Shard) (ls : Queue -> list ptr) (g k : Z) : Prop :=
  sh_smallBudget s < bytes (sh_small s) /\
  visits (sh_heap s) (ls kMain) (Z.of_nat (length (ls kSmall) + length (ls kMain))) k /\
  Z.of_nat (length (ls kSmall) + length (ls kMain)) <= k /\
  Z.of_nat (length (ls kSmall)) + k + 1 <= g.

(** The small queue is within its share: only the main queue is visited. *)
Definition draining_main (s : Shard) (ls : Queue -> list ptr) (g k : Z) : Prop :=
  bytes (sh_small s) <= sh_smallBudget s /\
  visits (sh_heap s) (ls kMain) (Z.of_nat (length (ls kMain))) k /\ 0 <= k /\ k + 1 <= g.

Lemma pinned_nonneg s ls : shard_inv s ls -> 0 <= pinnedBytes (sh_heap s).
Proof.
  intros Hinv. apply (pinned_sublist (sh_heap s) []); [|constructor|].
  - intros p e. apply (c_entries _ _ _ _ (i_core _ _ _ Hinv)).
  - intros p Hp. by apply elem_of_nil in Hp.
Qed.

(** With no unpinned entry left in the main queue the bound holds. *)
Lemma main_all_pinned s ls : shard_inv s ls -> sh_smallBudget s <= sh_budget s ->
  bytes (sh_small s) <= sh_smallBudget s ->
  visits (sh_heap s) (ls kMain) (Z.of_nat (length (ls kMain))) 0 -> settled s.
Proof.
  intros Hinv Hsb Hs Hv. destruct (queue_bytes s ls kMain Hinv) as (Bm & _ & Nd). cbn [qs_of] in Bm.
  assert (sumZ (chargeOf (sh_heap s) <$> ls kMain) <= pinnedBytes (sh_heap s)).
  { apply pinned_sublist; [intros p e; apply (c_entries _ _ _ _ (i_core _ _ _ Hinv))|done|].
    intros p Hp. destruct (q_live _ _ _ _ _ _ (i_queues _ _ _ Hinv) Hp) as (e & He & _).
    exists e. split; [done|]. destruct (Z.lt_ge_cases 0 (e_pending e)) as [|Hle]; [done|exfalso].
    apply elem_of_reverse, list_elem_of_lookup in Hp as [i Hi]. specialize (Hv i p e Hi He Hle).
    destruct (c_entries _ _ _ _ (i_core _ _ _ Hinv) _ _ He) as (_ & [Hf _] & _). nia. }
  unfold settled, sh_bytes. lia.
Qed.

Lemma evictLoop_settles g s ls : shard_inv s ls ->
  0 <= sh_smallBudget s <= sh_budget s ->
  settled s \/ (exists k, draining_small s ls (Z.of_nat g) k) \/ (exists k, draining_main s ls (Z.of_nat g) k) ->
  exists s', evictLoop hashKey g s = Some s' /\ settled s'.
Proof using IXL.
  revert s ls. induction g as [|g IH]; intros s ls Hinv Hb Hst; cbn [evictLoop].
  { exists s. split; [done|]. destruct Hst as [|[(k & ? & ? & ? & ?)|(k & ? & ? & ? & ?)]]; [done|lia..]. }
  pose proof (pinned_nonneg s ls Hinv) as Hpn.
  destruct (Z.ltb_spec (sh_budget s) (sh_bytes s)) as [Hover|Hunder];
    [|exists s; split; [done|]; unfold settled; lia].
  assert (Hkeep : forall s', same_budget s s' -> sh_bytes s' <= sh_bytes s ->
    pinnedBytes (sh_heap s') = pinnedBytes (sh_heap s) -> settled s -> settled s').
  { unfold settled. intros s' [-> _] ? -> ?. lia. }
  assert (Hb' : forall s', same_budget s s' -> 0 <= sh_smallBudget s' <= sh_budget s').
  { by intros s' [-> ->]. }
  destruct (queue_bytes s ls kSmall Hinv) as (Bs & Cs & _), (queue_bytes s ls kMain Hinv) as (Bm & Cm & _).
  destruct (q_fifo _ _ _ _ (i_queues _ _ _ Hinv) kSmall) as (_ & _ & _ & Ts & _).
  destruct (q_fifo _ _ _ _ (i_queues _ _ _ Hinv) kMain) as (_ & _ & _ & Tm & _).
  cbn [qs_of] in *. unfold sh_bytes in Hover.
  destruct (Z.ltb_spec (sh_smallBudget s) (bytes (sh_small s))) as [Hso|Hsu]; cbn [andb].
  - (** the small queue is over its share, hence not empty *)
    destruct (last (ls kSmall)) as [p|] eqn:El.
    2:{ apply last_None in El. rewrite El in Bs. cbn in Bs. lia. }
    rewrite Ts, bool_decide_true by done. apply last_Some in El as [l Hl].
    destruct (small_step s ls l p (Z.of_nat (length (ls kSmall) + length (ls kMain))) Hinv Hl)
      as (s' & ls' & -> & Hinv' & Hsb & Hl' & Hlen & Hby & Hpin & Hvis).
    cbn [mbind option_bind]. apply (IH s' ls' Hinv' (Hb' s' Hsb)).
    destruct Hst as [Hst|[(k & _ & Hv & Hk & Hg)|(k & Hc & _)]]; [left; by apply Hkeep| |lia].
    right. rewrite Hl, length_app in Hk, Hg, Hvis, Hv. cbn [length] in Hk, Hg, Hvis, Hv.
    specialize (Hvis k Hv ltac:(lia)).
    destruct (Z.lt_ge_cases (sh_smallBudget s') (bytes (sh_small s'))).
    + left. exists k. split; [done|]. rewrite Hl'. split; [|lia].
      eapply visits_shrink; [intros q e; apply (c_entries _ _ _ _ (i_core _ _ _ Hinv'))| |exact Hvis]. lia.
    + right. exists k. split; [done|]. split; [|lia].
      eapply visits_shrink; [intros q e; apply (c_entries _ _ _ _ (i_core _ _ _ Hinv'))| |exact Hvis]. lia.
  - destruct (last (ls kMain)) as [p|] eqn:El.
    + rewrite Tm, bool_decide_true by done. apply last_Some in El as [l Hl].
      destruct (main_step s ls l p Hinv Hl) as (s' & ls' & -> & Hinv' & Hsb & Hl' & Hbs & Hby & Hpin & Hvis).
      cbn [mbind option_bind]. apply (IH s' ls' Hinv' (Hb' s' Hsb)).
      destruct Hst as [Hst|[(k & Hc & _)|(k & _ & Hv & Hk & Hg)]]; [left; by apply Hkeep|lia|].
      destruct (Z.eq_dec k 0) as [->|Hk0].
      * left. apply Hkeep; [done..|]. by eapply main_all_pinned; [|lia|..].
      * right; right. exists (k - 1). split; [|split; [by apply Hvis|lia]].
        destruct Hsb as [_ ->]. lia.
    + apply last_None in El. rewrite El in Bm. cbn in Bm. lia.
Qed.

Lemma initial_visits s ls : shard_inv s ls ->
  visits (sh_heap s) (ls kMain) (Z.of_nat (length (ls kSmall) + length (ls kMain)))
    (4 * Z.of_nat (length (ls kMain)) + 3 * Z.of_nat (length (ls kSmall))).
Proof.
  intros Hinv i p e Hi He _. apply lookup_lt_Some in Hi. rewrite length_reverse in Hi.
  destruct (c_entries _ _ _ _ (i_core _ _ _ Hinv) _ _ He) as (_ & Hf & _). unfold kMaxFreq in Hf. nia.
Qed.

Lemma evict_settles s ls : shard_inv s ls -> 0 <= sh_smallBudget s <= sh_budget s ->
  exists s', evict hashKey s = Some s' /\ settled s'.
Proof using IXL.
  intros Hinv Hb. unfold evict. apply (evictLoop_settles _ s ls Hinv Hb). right.
  destruct (queue_bytes s ls kSmall Hinv) as (_ & Cs & _), (queue_bytes s ls kMain Hinv) as (_ & Cm & _).
  cbn [qs_of] in *. pose proof (initial_visits s ls Hinv) as Hv.
  assert (Hg : Z.of_nat (evictGuard s) =
    4 * Z.of_nat (length (ls kSmall)) + 4 * Z.of_nat (length (ls kMain)) + 1).
  { unfold evictGuard, kMaxFreq. rewrite Cs, Cm. lia. }
  destruct (Z.lt_ge_cases (sh_smallBudget s) (bytes (sh_small s))).
  - left. eexists. split; [done|]. split; [exact Hv|]. lia.
  - right. eexists. split; [done|]. split; [|split].
    + eapply visits_shrink; [intros q e; apply (c_entries _ _ _ _ (i_core _ _ _ Hinv))| |exact Hv]. lia.
    + lia.
    + lia.
Qed.
End loop.

(** C19: one call of [evict] is enough: the guard never stops it before the
    shard is within its budget plus the bytes of entries pinned by unapplied
    writes (so within the budget when nothing is pinned), and it drops no
    pinned document and changes none. *)
Theorem evict_reaches_budget hashKey (s : @S3Fifo.Shard FlatIndex) ls :
  shard_inv hashKey s ls -> 0 <= sh_smallBudget s <= sh_budget s ->
  exists s', evict hashKey s = Some s' /\
    sh_bytes s' <= sh_budget s + pinnedBytes (sh_heap s') /\
    drops (shard_docs s) (shard_docs s') /\ exists ls', shard_inv hashKey s' ls'.
Proof.
  intros Hinv Hb. destruct (evict_drops hashKey s ls Hinv) as (s' & ls' & Hs' & Hinv' & Hd & Hsb & _).
  destruct (evict_settles hashKey s ls Hinv Hb) as (s'' & Hs'' & Hst).
  assert (s'' = s') as -> by congruence. exists s'. unfold settled in Hst. rewrite Hsb in Hst. eauto.
Qed.

(** A shard with a 1000-byte budget and one pinned document of 2082 bytes. *)
Definition big_entry : Entry := create 7 [1; 2; 3] (replicate 2000 0) 0 0 0 0 false.
Definition small_shard : @S3Fifo.Shard FlatIndex := with_budget emptyShard 1000 100.

Lemma evict_reaches_budget_witness :
  exists s s', putEntry (fun vb k => 42) small_shard 42 big_entry = Some s /\
    evict (fun vb k => 42) s = Some s' /\
    sh_bytes s' <= sh_budget s + pinnedBytes (sh_heap s').
Proof.
  assert (H0 : shard_inv (fun vb k => 42) small_shard (fun _ => [])).
  { destruct (emptyShard_inv (I := FlatIndex) (fun vb k => 42)) as [R C G]. split; [|exact C|exact G].
    eapply qrep_ext; [| |exact R]; [by intros []|done]. }
  destruct (putEntry_spec (fun vb k => 42) small_shard (fun _ => []) big_entry H0)
    as (s & ls & Hs & Hinv & _ & Hb & Hsb).
  - refine (conj _ (conj _ (conj _ _))); done.
  - vm_compute. reflexivity.
  - destruct (evict_reaches_budget (fun vb k => 42) s ls Hinv) as (s' & He & Hle & _).
    + rewrite Hb, Hsb. vm_compute. split; discriminate.
    + exists s, s'. split; [exact Hs|]. split; [exact He|exact Hle].
Defined.
