(* ===== verification/Eff.v ===== *)
(** * State and failure

    Code that threads state through many calls is written in a state monad
    over [option]: [None] is undefined behaviour, a use after free, or a loop
    that does not end.  [wp m Q w] says that [m] run from [w] succeeds in a
    state and with a result that satisfy [Q]. *)
From stdpp Require Import prelude list.

Definition eff (W A : Type) : Type := W -> option (A * W).

Section eff.
Context {W : Type}.

#[export] Instance eff_ret : MRet (eff W) := fun A a w => Some (a, w).
#[export] Instance eff_bind : MBind (eff W) := fun A B f m w =>
  match m w with Some (a, w') => f a w' | None => None end.

Definition get : eff W W := fun w => Some (w, w).
Definition gets {A} (f : W -> A) : eff W A := fun w => Some (f w, w).
Definition modify (f : W -> W) : eff W unit := fun w => Some (tt, f w).
Definition fail {A} : eff W A := fun _ => None.
Definition lift {A} (o : option A) : eff W A := fun w => match o with Some a => Some (a, w) | None => None end.
Definition when (b : bool) (m : eff W unit) : eff W unit := if b then m else mret tt.

Fixpoint each {A} (f : A -> eff W unit) (l : list A) : eff W unit :=
  match l with [] => mret tt | x :: l' => f x;; each f l' end.

(** Run [m] until it returns [false]; [out] if it has not after [fuel] rounds. *)
Fixpoint while (out : eff W unit) (fuel : nat) (m : eff W bool) : eff W unit :=
  match fuel with
  | O => out
  | S n => b ← m; if (b : bool) then while out n m else mret tt
  end.

Definition wp {A} (m : eff W A) (Q : A -> W -> Prop) (w : W) : Prop :=
  exists a w', m w = Some (a, w') /\ Q a w'.

Lemma wp_ret {A} (a : A) Q w : Q a w -> wp (mret a) Q w.
Proof. intros HQ. by exists a, w. Qed.
Lemma wp_bind {A B} (m : eff W A) (f : A -> eff W B) Q w :
  wp m (fun a => wp (f a) Q) w -> wp (m ≫= f) Q w.
Proof.
  intros (a & w1 & Hm & b & w2 & Hf & HQ). exists b, w2. split; [|done].
  unfold mbind, eff_bind. by rewrite Hm.
Qed.
Lemma wp_mono {A} (m : eff W A) (Q Q' : A -> W -> Prop) w :
  wp m Q w -> (forall a w', Q a w' -> Q' a w') -> wp m Q' w.
Proof. intros (a & w1 & Hm & HQ) H. exists a, w1. auto. Qed.
Lemma wp_get Q w : Q w w -> wp get Q w.
Proof. intros HQ. by exists w, w. Qed.
Lemma wp_gets {A} (f : W -> A) Q w : Q (f w) w -> wp (gets f) Q w.
Proof. intros HQ. by exists (f w), w. Qed.
Lemma wp_modify f (Q : unit -> W -> Prop) w : Q tt (f w) -> wp (modify f) Q w.
Proof. intros HQ. by exists tt, (f w). Qed.
Lemma wp_lift {A} (o : option A) a Q w : o = Some a -> Q a w -> wp (lift o) Q w.
Proof. intros -> HQ. by exists a, w. Qed.
Lemma wp_when (b : bool) m (Q : unit -> W -> Prop) w :
  (b = true -> wp m Q w) -> (b = false -> Q tt w) -> wp (when b m) Q w.
Proof. destruct b; cbn; intros H1 H2; [auto|]. exists tt, w. auto. Qed.

(** A loop whose body decreases a measure ends. *)
Lemma wp_while (m : eff W bool) (I : W -> Prop) (mu : W -> nat) (Q : unit -> W -> Prop) out fuel w :
  (forall w0, I w0 -> wp m (fun b w1 => if (b : bool) then I w1 /\ mu w1 < mu w0 else Q tt w1) w0) ->
  I w -> mu w < fuel -> wp (while out fuel m) Q w.
Proof.
  intros Hm. revert w. induction fuel as [|fuel IH]; intros w HI Hf; [lia|]. cbn [while].
  apply wp_bind. eapply wp_mono; [by apply Hm|]. intros [] w1; cbn; [|apply wp_ret].
  intros [HI1 Hlt]. apply IH; [done|lia].
Qed.

(** ** Runs that succeeded *)
Lemma bind_inv {A B} (m : eff W A) (f : A -> eff W B) w b w' : (m ≫= f) w = Some (b, w') -> exists a w1, m w = Some (a, w1) /\ f a w1 = Some (b, w').
Proof. unfold mbind, eff_bind. destruct (m w) as [[a w1]|]; [|done]. intros H. by exists a, w1. Qed.
Lemma ret_inv {A} (a b : A) (w w' : W) : (mret a : eff W A) w = Some (b, w') -> a = b /\ w = w'.
Proof. by intros [= -> ->]. Qed.
Lemma when_inv (b : bool) m (w : W) u w' : when b m w = Some (u, w') -> b = true /\ m w = Some (u, w') \/ b = false /\ w' = w.
Proof. destruct b; [by left|]. cbn. intros [= _ <-]. by right. Qed.
Lemma bind_ext {A B} (m : eff W A) (f g : A -> eff W B) w : (forall a w', f a w' = g a w') -> (m ≫= f) w = (m ≫= g) w.
Proof. intros H. unfold mbind, eff_bind. by destruct (m w) as [[]|]. Qed.

(** ** What a command leaves alone, whether or not it succeeds *)
Definition keeps_field {X A} (g : W -> X) (m : eff W A) : Prop := forall w a w', m w = Some (a, w') -> g w' = g w.

Lemma keeps_ret {X A} (g : W -> X) (a : A) : keeps_field g (mret a).
Proof. by intros w b w' [= _ <-]. Qed.
Lemma keeps_bind {X A B} (g : W -> X) (m : eff W A) (f : A -> eff W B) :
  keeps_field g m -> (forall a, keeps_field g (f a)) -> keeps_field g (m ≫= f).
Proof.
  intros Hm Hf w b w'. unfold mbind, eff_bind. destruct (m w) as [[a w1]|] eqn:E; [|done]. intros E2.
  rewrite (Hf _ _ _ _ E2). by eapply Hm.
Qed.
Lemma keeps_get {X} (g : W -> X) : keeps_field g get.
Proof. by intros w b w' [= _ <-]. Qed.
Lemma keeps_gets {X A} (g : W -> X) (f : W -> A) : keeps_field g (gets f).
Proof. by intros w b w' [= _ <-]. Qed.
Lemma keeps_fail {X A} (g : W -> X) : keeps_field g (@fail A).
Proof. by intros w b w'. Qed.
Lemma keeps_lift {X A} (g : W -> X) (o : option A) : keeps_field g (lift o).
Proof. intros w b w'. unfold lift. destruct o; [|done]. by intros [= _ <-]. Qed.
Lemma keeps_modify {X} (g : W -> X) f : (forall w, g (f w) = g w) -> keeps_field g (modify f).
Proof. intros Hf w b w' [= _ <-]. apply Hf. Qed.
Lemma keeps_when {X} (g : W -> X) b m : keeps_field g m -> keeps_field g (when b m).
Proof. destruct b; [done|]. intros _. apply keeps_ret. Qed.
Lemma keeps_each {X A} (g : W -> X) (f : A -> eff W unit) l : (forall x, keeps_field g (f x)) -> keeps_field g (each f l).
Proof. intros Hf. induction l as [|x l IH]; cbn; [apply keeps_ret|]. by apply keeps_bind. Qed.
Lemma keeps_mapM {X A B} (g : W -> X) (f : A -> eff W B) l : (forall x, keeps_field g (f x)) -> keeps_field g (mapM f l).
Proof. intros Hf. induction l as [|x l IH]; cbn; [apply keeps_ret|]. apply keeps_bind; [done|]. intros y. apply keeps_bind; [done|]. intros k. apply keeps_ret. Qed.

(** ** Invariants of commands that may fail *)
Definition pres {A} (I : W -> Prop) (m : eff W A) : Prop := forall w a w', I w -> m w = Some (a, w') -> I w'.

Lemma pres_keeps {X A} (g : W -> X) (I : X -> Prop) (m : eff W A) : keeps_field g m -> pres (fun w => I (g w)) m.
Proof. intros Hm w a w' HI E. by rewrite (Hm _ _ _ E). Qed.
Lemma pres_bind {A B} I (m : eff W A) (f : A -> eff W B) : pres I m -> (forall a, pres I (f a)) -> pres I (m ≫= f).
Proof.
  intros Hm Hf w b w' HI. unfold mbind, eff_bind. destruct (m w) as [[a w1]|] eqn:E; [|done]. intros E2. eapply Hf; [|exact E2]. by eapply Hm.
Qed.
Lemma pres_ret {A} I (a : A) : pres I (mret a).
Proof. by intros w b w' HI [= _ <-]. Qed.
Lemma pres_get I : pres I get.
Proof. by intros w b w' HI [= _ <-]. Qed.
Lemma pres_gets {A} I (f : W -> A) : pres I (gets f).
Proof. by intros w b w' HI [= _ <-]. Qed.
Lemma pres_fail {A} I : pres I (@fail A).
Proof. by intros w b w'. Qed.
Lemma pres_lift {A} I (o : option A) : pres I (lift o).
Proof. intros w b w' HI. unfold lift. destruct o; [|done]. by intros [= _ <-]. Qed.
Lemma pres_modify (I : W -> Prop) f : (forall w, I w -> I (f w)) -> pres I (modify f).
Proof. intros Hf w b w' HI [= _ <-]. by apply Hf. Qed.
Lemma pres_when I b m : pres I m -> pres I (when b m).
Proof. destruct b; [done|]. intros _. apply pres_ret. Qed.
Lemma pres_each {A} I (f : A -> eff W unit) l : (forall x, pres I (f x)) -> pres I (each f l).
Proof. intros Hf. induction l as [|x l IH]; cbn; [apply pres_ret|]. by apply pres_bind. Qed.
Lemma pres_mapM {A B} I (f : A -> eff W B) l : (forall x, pres I (f x)) -> pres I (mapM f l).
Proof. intros Hf. induction l as [|x l IH]; cbn; [apply pres_ret|]. apply pres_bind; [done|]. intros y. apply pres_bind; [done|]. intros k. apply pres_ret. Qed.
Lemma pres_while I (m : eff W bool) fuel : pres I m -> pres I (while fail fuel m).
Proof.
  intros Hm. induction fuel as [|fuel IH]; cbn [while]; [apply pres_fail|]. apply pres_bind; [done|]. intros []; [done|apply pres_ret].
Qed.

(** A loop whose rounds decrease a measure does not depend on its fuel. *)
Lemma while_fuel (m : eff W bool) (mu : W -> nat) out out' fuel fuel' w :
  (forall w0 w1, m w0 = Some (true, w1) -> mu w1 < mu w0) -> mu w < fuel -> mu w < fuel' -> while out fuel m w = while out' fuel' m w.
Proof.
  intros Hm. revert fuel' w. induction fuel as [|fuel IH]; intros [|fuel'] w H1 H2; try lia. cbn [while]. unfold mbind, eff_bind.
  destruct (m w) as [[[] w1]|] eqn:E; [|done|done]. specialize (Hm _ _ E). apply IH; lia.
Qed.
End eff.

(** One step of a [wp] goal through a primitive. *)
Ltac wp_step :=
  lazymatch goal with
  | |- wp (_ ≫= _) _ _ => apply wp_bind
  | |- wp (mret _) _ _ => apply wp_ret
  | |- wp get _ _ => apply wp_get
  | |- wp (gets _) _ _ => apply wp_gets
  | |- wp (modify _) _ _ => apply wp_modify
  | |- wp (lift _) _ _ => eapply wp_lift
  end; cbv beta.

(** Proves [keeps_field g m] by the structure of [m]; the goals of functions with
    a lemma in [fields] are closed by it, those [tac] knows by [tac]. *)
Create HintDb fields discriminated.
#[export] Hint Resolve keeps_ret keeps_get keeps_gets keeps_fail keeps_lift : fields.
Ltac keep_with tac :=
  cbv zeta;
  lazymatch goal with
  | |- keeps_field _ (mbind _ _) => apply keeps_bind; [keep_with tac|intros; keep_with tac]
  | |- keeps_field _ (when _ _) => apply keeps_when; keep_with tac
  | |- keeps_field _ (each _ _) => apply keeps_each; intros; keep_with tac
  | |- keeps_field _ (mapM _ _) => apply keeps_mapM; intros; keep_with tac
  | |- keeps_field _ (modify _) => apply keeps_modify; intros; reflexivity
  | |- keeps_field _ (match ?x with _ => _ end) => destruct x; keep_with tac
  | |- _ => first [solve [auto with fields] | tac]
  end.
Ltac keep := keep_with idtac.

(** The same for invariants. *)
Create HintDb invs discriminated.
#[export] Hint Resolve pres_ret pres_get pres_gets pres_fail pres_lift : invs.
Ltac preserve_with tac :=
  cbv zeta;
  lazymatch goal with
  | |- pres _ (mbind _ _) => apply pres_bind; [preserve_with tac|intros; preserve_with tac]
  | |- pres _ (when _ _) => apply pres_when; preserve_with tac
  | |- pres _ (each _ _) => apply pres_each; intros; preserve_with tac
  | |- pres _ (mapM _ _) => apply pres_mapM; intros; preserve_with tac
  | |- pres _ (while fail _ _) => apply pres_while; preserve_with tac
  | |- pres _ (match ?x with _ => _ end) => destruct x; preserve_with tac
  | |- _ => first [solve [auto with invs] | tac]
  end.
