(* ===== verification/Request.v ===== *)
(** * Requests and their queues (engine.h, engine.cc)

    The [Request] objects IO threads hand to the engine, the intrusive
    multi-producer stack they travel through ([RequestStack]), the per-vbucket
    queues ([VBQueue]) and the per-IO-thread staging of writes
    ([Bucket::StageWrite], [Bucket::FlushStaged]).  Requests live in a heap and
    are linked through their [hook]; [None] stands for an access outside an
    array or through a dangling pointer.  The compare-exchange loops are taken
    at the exchange that succeeds. *)
From stdpp Require Import prelude gmap list.
From Stdlib Require Import ZArith Lia.
From S2P Require Import Prelude.
Open Scope Z_scope.

(** What the engine looks at of magma's [Status]: [IsOK] holds for the first
    two, [IsOkDocNotFound] for the second only. *)
Inductive Status := StOK | StOkDocNotFound | StError (code : Z).
Definition IsOK (s : Status) : bool := match s with StError _ => false | _ => true end.
Definition IsOkDocNotFound (s : Status) : bool := match s with StOkDocNotFound => true | _ => false end.

(** [key] and [value] are the bytes the two slices view, whichever of
    [inlineData] and [dataBuf] holds them.  [conn], [evb] and [ioOwner] identify
    the connection, its event loop and the IO thread of that loop.  The stage
    timestamps, written under [gTraceLatency] only, are left out. *)
Record Request := mkRequest {
  hook : option ptr;
  r_key : list Z;
  r_value : list Z;
  r_opcode : Z;
  r_datatype : Z;
  r_vbucket : Z;
  r_flags : Z;
  r_expiry : Z;
  r_opaque : Z;
  r_cas : Z;
  r_conn : option ptr;
  r_evb : option ptr;
  r_ioOwner : option ptr;
  r_resultStatus : Status;
  r_resultSeqno : Z;
  r_durableLsn : Z;
  r_resultFlags : Z;
  r_resultDatatype : Z;
  r_responseBuf : list Z;
  r_chainLen : Z;
}.

Abbreviation rheap := (gmap ptr Request).

Definition set_hook (v : option ptr) (r : Request) : Request :=
  mkRequest v (r_key r) (r_value r) (r_opcode r) (r_datatype r) (r_vbucket r) (r_flags r) (r_expiry r)
    (r_opaque r) (r_cas r) (r_conn r) (r_evb r) (r_ioOwner r) (r_resultStatus r) (r_resultSeqno r) (r_durableLsn r)
    (r_resultFlags r) (r_resultDatatype r) (r_responseBuf r) (r_chainLen r).
Definition set_seqno (v : Z) (r : Request) : Request :=
  mkRequest (hook r) (r_key r) (r_value r) (r_opcode r) (r_datatype r) (r_vbucket r) (r_flags r) (r_expiry r)
    (r_opaque r) (r_cas r) (r_conn r) (r_evb r) (r_ioOwner r) (r_resultStatus r) v (r_durableLsn r)
    (r_resultFlags r) (r_resultDatatype r) (r_responseBuf r) (r_chainLen r).
Definition set_status (v : Status) (r : Request) : Request :=
  mkRequest (hook r) (r_key r) (r_value r) (r_opcode r) (r_datatype r) (r_vbucket r) (r_flags r) (r_expiry r)
    (r_opaque r) (r_cas r) (r_conn r) (r_evb r) (r_ioOwner r) v (r_resultSeqno r) (r_durableLsn r)
    (r_resultFlags r) (r_resultDatatype r) (r_responseBuf r) (r_chainLen r).
Definition set_durableLsn (v : Z) (r : Request) : Request :=
  mkRequest (hook r) (r_key r) (r_value r) (r_opcode r) (r_datatype r) (r_vbucket r) (r_flags r) (r_expiry r)
    (r_opaque r) (r_cas r) (r_conn r) (r_evb r) (r_ioOwner r) (r_resultStatus r) (r_resultSeqno r) v
    (r_resultFlags r) (r_resultDatatype r) (r_responseBuf r) (r_chainLen r).
Definition set_chainLen (v : Z) (r : Request) : Request :=
  mkRequest (hook r) (r_key r) (r_value r) (r_opcode r) (r_datatype r) (r_vbucket r) (r_flags r) (r_expiry r)
    (r_opaque r) (r_cas r) (r_conn r) (r_evb r) (r_ioOwner r) (r_resultStatus r) (r_resultSeqno r) (r_durableLsn r)
    (r_resultFlags r) (r_resultDatatype r) (r_responseBuf r) v.

(** The read results [completeGets] and the single-get path store. *)
Definition set_result (st : Status) (seqno flags datatype : Z) (buf : list Z) (r : Request) : Request :=
  mkRequest (hook r) (r_key r) (r_value r) (r_opcode r) (r_datatype r) (r_vbucket r) (r_flags r) (r_expiry r)
    (r_opaque r) (r_cas r) (r_conn r) (r_evb r) (r_ioOwner r) st seqno (r_durableLsn r) flags datatype buf (r_chainLen r).

(** [Request::reset]: everything but the hook and [chainLen] back to its
    default. *)
Definition reset (r : Request) : Request :=
  mkRequest (hook r) [] [] 0 0 0 0 0 0 0 None None None StOK 0 0 0 0 [] (r_chainLen r).

(** ** RequestStack *)
Definition insertChain (h : rheap) (head : option ptr) (first last : ptr)
    : option (rheap * option ptr * bool) :=
  r ← h !! last;
  Some (<[last := set_hook head r]> h, Some first, bool_decide (head = None)).

Definition insertHead (h : rheap) (head : option ptr) (p : ptr) := insertChain h head p p.

Fixpoint drainChain (fuel : nat) (h : rheap) (cur : option ptr) : option (rheap * list ptr) :=
  match cur with
  | None => Some (h, [])
  | Some p =>
      match fuel with
      | O => None
      | S f =>
          r ← h !! p;
          '(h', l) ← drainChain f (<[p := set_hook None r]> h) (hook r);
          Some (h', p :: l)
      end
  end.

(** One exchange of the head with null, then the chain it held.  Visited
    requests have a null hook, so no walk is longer than the heap plus one. *)
Definition sweepOnce (h : rheap) (head : option ptr) : option (rheap * option ptr * list ptr) :=
  '(h', l) ← drainChain (S (size h)) h head; Some (h', None, l).

(** ** VBQueue, shards and the bucket's write side *)
Record VBQueue := mkVBQueue {
  vq_list : option ptr;
  vq_scheduled : bool;
  vq_pending : Z;
  vq_lastWriteNs : Z;
}.
Definition emptyVBQueue : VBQueue := mkVBQueue None false 0 0.

(** A task queued to a writer: the vbucket (the shard is the one whose queue
    holds it) and its enqueue time. *)
Record PersistTask := mkPersistTask { pt_vbid : Z; pt_enqueuedNs : Z }.
Record Deferred := mkDeferred { notBeforeNs : Z; df_task : PersistTask }.

Definition kMaxVBuckets : nat := 1024.

Record EShard := mkEShard {
  vbWriteQueues : list VBQueue;
  taskQueue : list PersistTask;
  deferQueue : list Deferred;
  seqnos : list Z;
  freeRequests : list ptr;
  freeRequestCount : Z;
}.
Definition emptyEShard : EShard :=
  mkEShard (replicate kMaxVBuckets emptyVBQueue) [] [] (replicate kMaxVBuckets 0) [] 0.
Definition with_vbqs (s : EShard) (l : list VBQueue) : EShard :=
  mkEShard l (taskQueue s) (deferQueue s) (seqnos s) (freeRequests s) (freeRequestCount s).
Definition with_tasks (s : EShard) (tq : list PersistTask) (dq : list Deferred) : EShard :=
  mkEShard (vbWriteQueues s) tq dq (seqnos s) (freeRequests s) (freeRequestCount s).
Definition with_seqnos (s : EShard) (l : list Z) : EShard :=
  mkEShard (vbWriteQueues s) (taskQueue s) (deferQueue s) l (freeRequests s) (freeRequestCount s).
Definition with_free (s : EShard) (l : list ptr) (n : Z) : EShard :=
  mkEShard (vbWriteQueues s) (taskQueue s) (deferQueue s) (seqnos s) l n.

(** [NextSeqno] and [RecoverSeqno]. *)
Definition NextSeqno (s : EShard) (vbid : Z) : option (EShard * Z) :=
  n ← seqnos s !! Z.to_nat vbid;
  Some (with_seqnos s (<[Z.to_nat vbid := u64 (n + 1)]> (seqnos s)), u64 (n + 1)).
Definition RecoverSeqno (s : EShard) (vbid seq : Z) : EShard :=
  with_seqnos s (<[Z.to_nat vbid := seq]> (seqnos s)).

(** The pool of finished write requests: chains handed back by writers, capped
    by the requests they hold.  The queue behind it has [kFreeRequestCap]
    slots. *)
Definition kMaxFreeRequests : Z := Z.shiftl 1 14.
Definition kFreeRequestCap : nat := Z.to_nat kMaxFreeRequests.
Definition RecycleRequests (h : rheap) (s : EShard) (chain : ptr) : option (EShard * bool) :=
  r ← h !! chain;
  let n := r_chainLen r in
  if (kMaxFreeRequests <? freeRequestCount s + n) || (kFreeRequestCap <=? length (freeRequests s))%nat
  then Some (s, false)
  else Some (with_free s (freeRequests s ++ [chain]) (freeRequestCount s + n), true).
Definition TakeRequests (h : rheap) (s : EShard) : option (EShard * option ptr) :=
  match freeRequests s with
  | [] => Some (s, None)
  | p :: l => r ← h !! p; Some (with_free s l (freeRequestCount s - r_chainLen r), Some p)
  end.

Record EngineConfig := mkEngineConfig {
  gWriteCoalesceNs : Z;
  gMinWriteBatch : Z;
}.

Record Bucket := mkBucket {
  b_heap : rheap;
  b_shards : list EShard;
  queuedBytes : Z;
  writeQueueMemLimit : Z;
}.

Definition with_heap (b : Bucket) (h : rheap) : Bucket :=
  mkBucket h (b_shards b) (queuedBytes b) (writeQueueMemLimit b).
Definition with_queued (b : Bucket) (n : Z) : Bucket :=
  mkBucket (b_heap b) (b_shards b) n (writeQueueMemLimit b).

(** [GetShard(vbid)] and [GetVBWriteQueue(vbid)]. *)
Definition shardOf (b : Bucket) (vbid : Z) : nat := Z.to_nat (vbid mod Z.of_nat (length (b_shards b))).
Definition onVB (b : Bucket) (vbid : Z) (f : EShard -> option EShard) : option Bucket :=
  s ← b_shards b !! shardOf b vbid;
  s' ← f s;
  Some (mkBucket (b_heap b) (<[shardOf b vbid := s']> (b_shards b)) (queuedBytes b) (writeQueueMemLimit b)).
Definition GetVBWriteQueue (b : Bucket) (vbid : Z) : option VBQueue :=
  s ← b_shards b !! shardOf b vbid; vbWriteQueues s !! Z.to_nat vbid.
Definition set_vbq (vbid : Z) (q : VBQueue) (s : EShard) : EShard :=
  with_vbqs s (<[Z.to_nat vbid := q]> (vbWriteQueues s)).

(** ** Scheduling a vbucket *)
Section scheduling.
Context (cfg : EngineConfig).

Definition shouldDeferWrite (vbq : VBQueue) (now : Z) : bool :=
  if (gWriteCoalesceNs cfg =? 0) || (gMinWriteBatch cfg <=? vq_pending vbq) then false
  else u64 (now - vq_lastWriteNs vbq) <? gWriteCoalesceNs cfg.

Definition SubmitOrDefer (s : EShard) (vbid : Z) (vbq : VBQueue) (now : Z) : EShard :=
  let task := mkPersistTask vbid now in
  if shouldDeferWrite vbq now then
    with_tasks s (taskQueue s)
      (deferQueue s ++ [mkDeferred (u64 (vq_lastWriteNs vbq + gWriteCoalesceNs cfg)) task])
  else with_tasks s (taskQueue s ++ [task]) (deferQueue s).

(** ** Staging *)
Record StagedVB := mkStagedVB { st_first : option ptr; st_last : option ptr; st_count : Z }.
Definition emptyStagedVB : StagedVB := mkStagedVB None None 0.
Record StagingTable := mkStagingTable { vbs : list StagedVB; touched : list Z; st_bytes : Z }.
Definition emptyStaging : StagingTable := mkStagingTable (replicate kMaxVBuckets emptyStagedVB) [] 0.

(** [sizeof(Request)], the same for every request. *)
Context (sizeofRequest : Z).

Definition itemSize (r : Request) : Z :=
  Z.of_nat (length (r_key r)) + Z.of_nat (length (r_value r)) + sizeofRequest.

Definition StageWrite (b : Bucket) (t : StagingTable) (p : ptr) : option (Bucket * StagingTable * bool) :=
  r ← b_heap b !! p;
  if writeQueueMemLimit b <? u64 (queuedBytes b + st_bytes t + itemSize r) then Some (b, t, false)
  else
    st ← vbs t !! Z.to_nat (r_vbucket r);
    let fresh := st_count st =? 0 in
    let touched' := if fresh then touched t ++ [r_vbucket r] else touched t in
    let last' := if fresh then Some p else st_last st in
    let h' := <[p := set_hook (st_first st) r]> (b_heap b) in
    Some (with_heap b h',
          mkStagingTable (<[Z.to_nat (r_vbucket r) := mkStagedVB (Some p) last' (u32 (st_count st + 1))]>
             (vbs t)) touched' (u64 (st_bytes t + itemSize r)),
          true).

(** Store the queue record and schedule a writer unless one was scheduled. *)
Definition pushQueue (now : Z -> Z) (vbid : Z) (q q' : VBQueue) (s : EShard) : EShard :=
  let s1 := set_vbq vbid q' s in
  if vq_scheduled q then s1 else SubmitOrDefer s1 vbid q' (now vbid).

(** One vbucket of [FlushStaged]: push its chain with one exchange, count it,
    forget the staged chain and schedule a writer unless one is scheduled. *)
Definition flushOne (now : Z -> Z) (b : Bucket) (t : StagingTable) (vbid : Z)
    : option (Bucket * StagingTable) :=
  st ← vbs t !! Z.to_nat vbid;
  q ← GetVBWriteQueue b vbid;
  first ← st_first st;
  last ← st_last st;
  '(h', head', _) ← insertChain (b_heap b) (vq_list q) first last;
  let q' := mkVBQueue head' true (u32 (vq_pending q + st_count st)) (vq_lastWriteNs q) in
  b' ← onVB (with_heap b h') vbid (fun s => Some (pushQueue now vbid q q' s));
  Some (b', mkStagingTable (<[Z.to_nat vbid := emptyStagedVB]> (vbs t)) (touched t) (st_bytes t)).

Fixpoint flushAll (now : Z -> Z) (b : Bucket) (t : StagingTable) (l : list Z)
    : option (Bucket * StagingTable) :=
  match l with
  | [] => Some (b, t)
  | vbid :: l' => '(b', t') ← flushOne now b t vbid; flushAll now b' t' l'
  end.

Definition FlushStaged (now : Z -> Z) (b : Bucket) (t : StagingTable) : option (Bucket * StagingTable) :=
  let b1 := if st_bytes t =? 0 then b else with_queued b (u64 (queuedBytes b + st_bytes t)) in
  '(b2, t2) ← flushAll now b1 (mkStagingTable (vbs t) (touched t) 0) (touched t);
  Some (b2, mkStagingTable (vbs t2) [] (st_bytes t2)).
End scheduling.

(** ** Chains in the heap *)

(** [l] is the chain of requests from [p] to [tail], newest first. *)
Fixpoint chain (h : rheap) (p : option ptr) (l : list ptr) (tail : option ptr) : Prop :=
  match l with
  | [] => p = tail
  | x :: l' => p = Some x /\ exists r, h !! x = Some r /\ chain h (hook r) l' tail
  end.

(** Everything of the requests but their hooks. *)
Definition bodies (h : rheap) : rheap := set_hook None <$> h.
Definition hooks_only (h h' : rheap) : Prop := bodies h' = bodies h.

#[export] Instance hooks_only_refl : Reflexive hooks_only.
Proof. done. Qed.
#[export] Instance hooks_only_trans : Transitive hooks_only.
Proof. unfold hooks_only. congruence. Qed.

Lemma hooks_only_insert h p r v : h !! p = Some r -> hooks_only h (<[p := set_hook v r]> h).
Proof.
  intros Hr. unfold hooks_only, bodies. apply map_eq. intros x. rewrite !lookup_fmap.
  destruct (decide (x = p)) as [->|]; [rewrite lookup_insert_eq, Hr|rewrite lookup_insert_ne by done]; done.
Qed.

Lemma hooks_only_lookup h h' p r : hooks_only h h' -> h !! p = Some r ->
  exists v, h' !! p = Some (set_hook v r).
Proof.
  unfold hooks_only, bodies. intros He Hr. apply (f_equal (lookup p)) in He.
  rewrite !lookup_fmap, Hr in He. destruct (h' !! p) as [r'|] eqn:Hr'; [|done]. simpl in He.
  exists (hook r'). f_equal. destruct r, r'. injection He as ?. subst. done.
Qed.

Lemma chain_frame h h' p l t : (forall x, x ∈ l -> h' !! x = h !! x) -> chain h p l t -> chain h' p l t.
Proof.
  revert p. induction l as [|x l IH]; intros p Hx; [done|]. intros (-> & r & Hr & Hc). split; [done|].
  exists r. rewrite Hx by left. split; [done|]. apply IH; [|done]. intros y Hy. apply Hx. by right.
Qed.

Lemma chain_insert h q v p l t : q ∉ l -> chain h p l t -> chain (<[q := v]> h) p l t.
Proof. intros Hq. apply chain_frame. intros x Hx. rewrite lookup_insert_ne; [done|]. by intros ->. Qed.

Lemma chain_dom h p l t x : chain h p l t -> x ∈ l -> is_Some (h !! x).
Proof.
  revert p. induction l as [|y l IH]; intros p Hc Hx; [by apply not_elem_of_nil in Hx|].
  destruct Hc as (-> & r & Hr & Hc). apply elem_of_cons in Hx as [->|Hx]; eauto.
Qed.

Lemma chain_fits h p l t : chain h p l t -> NoDup l -> (length l <= size h)%nat.
Proof.
  intros Hc Hn. rewrite <- (size_list_to_set (C := gset ptr) l) by done. rewrite <- size_dom.
  apply subseteq_size. intros x Hx. apply elem_of_list_to_set in Hx. apply elem_of_dom. by eapply chain_dom.
Qed.

Lemma chain_hd h x l t p : chain h p (x :: l) t -> p = Some x.
Proof. by intros [-> _]. Qed.

(** Linking the end of one chain to another. *)
Lemma chain_link h p l z q l' : chain h p (l ++ [z]) None -> NoDup (l ++ [z]) ->
  chain h q l' None -> z ∉ l' ->
  exists r, h !! z = Some r /\ chain (<[z := set_hook q r]> h) p ((l ++ [z]) ++ l') None.
Proof.
  intros Hc Hn Hq Hz. revert p Hc. induction l as [|x l IH]; intros p Hc.
  - destruct Hc as (-> & r & Hr & Hk). exists r. split; [done|]. split; [done|].
    exists (set_hook q r). rewrite lookup_insert_eq. split; [done|]. by apply chain_insert.
  - destruct Hc as (-> & r & Hr & Hk). simpl in Hn. apply NoDup_cons in Hn as [Hx Hn].
    destruct (IH Hn _ Hk) as (rz & Hrz & Hc'). exists rz. split; [done|]. split; [done|]. exists r.
    rewrite lookup_insert_ne; [done|]. intros ->. apply Hx. apply elem_of_app. right. by left.
Qed.

Lemma insertChain_spec h head first last l q :
  chain h (Some first) l None -> NoDup l -> list.last l = Some last ->
  chain h head q None -> last ∉ q ->
  exists h' e, insertChain h head first last = Some (h', Some first, e) /\
    chain h' (Some first) (l ++ q) None /\ hooks_only h h' /\ (forall x, x <> last -> h' !! x = h !! x).
Proof.
  intros Hc Hn Hl Hq Hz. apply last_Some in Hl as [l0 ->].
  destruct (chain_link _ _ _ _ _ _ Hc Hn Hq Hz) as (r & Hr & Hc'). unfold insertChain. rewrite Hr. simpl.
  eexists _, _. split; [done|]. split; [done|]. split; [by apply hooks_only_insert|].
  intros x Hx. by apply lookup_insert_ne.
Qed.

Lemma drainChain_spec fuel h p l : chain h p l None -> NoDup l -> (length l <= fuel)%nat ->
  exists h', drainChain fuel h p = Some (h', l) /\ hooks_only h h' /\ (forall x, x ∉ l -> h' !! x = h !! x).
Proof.
  revert h p l. induction fuel as [|fuel IH]; intros h p [|x l] Hc Hn Hf; simpl in Hf; try lia.
  1,2: simpl in Hc; subst p; by exists h.
  destruct Hc as (-> & r & Hr & Hc). apply NoDup_cons in Hn as [Hx Hn]. simpl. rewrite Hr. simpl.
  destruct (IH (<[x := set_hook None r]> h) (hook r) l) as (h' & Hd & Hh & Hf'); [by apply chain_insert|done|lia|].
  rewrite Hd. exists h'. split; [done|]. split.
  - etrans; [|done]. by apply hooks_only_insert.
  - intros y Hy. apply not_elem_of_cons in Hy as [Hne Hy]. rewrite Hf' by done. by apply lookup_insert_ne.
Qed.

Lemma sweepOnce_spec h p l : chain h p l None -> NoDup l ->
  exists h', sweepOnce h p = Some (h', None, l) /\ hooks_only h h' /\ (forall x, x ∉ l -> h' !! x = h !! x).
Proof.
  intros Hc Hn. unfold sweepOnce.
  destruct (drainChain_spec (S (size h)) h p l Hc Hn) as (h' & -> & Hh); [|by exists h'].
  pose proof (chain_fits _ _ _ _ Hc Hn). lia.
Qed.

(** ** What the staging table and the queues hold

    [S v] and [Q v] are the requests of vbucket [v] staged by this IO thread
    and pushed to the vbucket's queue, newest first. *)
Definition vb_ok (v : Z) : Prop := 0 <= v < Z.of_nat kMaxVBuckets.

Definition separate (S Q : Z -> list ptr) : Prop :=
  (forall v, NoDup (S v) /\ NoDup (Q v)) /\
  (forall v w x, x ∈ S v -> x ∈ S w -> v = w) /\
  (forall v w x, x ∈ Q v -> x ∈ Q w -> v = w) /\
  (forall v w x, x ∈ S v -> x ∉ Q w).

Definition staged_ok (h : rheap) (st : StagedVB) (l : list ptr) : Prop :=
  chain h (st_first st) l None /\ st_last st = list.last l /\ st_count st = Z.of_nat (length l).

Definition vbs_rep (h : rheap) (l : list StagedVB) (S : Z -> list ptr) : Prop :=
  length l = kMaxVBuckets /\
  forall v, vb_ok v -> exists st, l !! Z.to_nat v = Some st /\ staged_ok h st (S v).

Record staging_rep (h : rheap) (t : StagingTable) (S : Z -> list ptr) : Prop := mkStagingRep {
  sr_vbs : vbs_rep h (vbs t) S;
  sr_touched v : v ∈ touched t <-> S v <> [];
  sr_ok v : S v <> [] -> vb_ok v;
  sr_nodup : NoDup (touched t);
}.

Record queue_rep (b : Bucket) (Q : Z -> list ptr) : Prop := mkQueueRep {
  qr_shards : b_shards b <> [];
  qr_vb v : vb_ok v -> exists q, GetVBWriteQueue b v = Some q /\ chain (b_heap b) (vq_list q) (Q v) None;
}.

Definition setl (f : Z -> list ptr) (v : Z) (l : list ptr) : Z -> list ptr :=
  fun w => if decide (w = v) then l else f w.
Lemma setl_eq f v l : setl f v l v = l.
Proof. unfold setl. by rewrite decide_True. Qed.
Lemma setl_ne f v l w : w <> v -> setl f v l w = f w.
Proof. intros. unfold setl. by rewrite decide_False. Qed.

Lemma vb_index v w : vb_ok v -> vb_ok w -> v <> w -> Z.to_nat v <> Z.to_nat w.
Proof. unfold vb_ok. lia. Qed.

Lemma last_cons_keep (p : ptr) l : l <> [] -> list.last (p :: l) = list.last l.
Proof. destruct l; done. Qed.

(** Pushing a request that is in no chain. *)
Lemma separate_push S Q v p : separate S Q -> (forall w, p ∉ S w /\ p ∉ Q w) ->
  separate (setl S v (p :: S v)) Q.
Proof.
  intros (Hn & HSS & HQQ & HSQ) Hfr.
  assert (Hx : forall u x, x ∈ setl S v (p :: S v) u -> (u = v /\ x = p) \/ x ∈ S u).
  { intros u x. destruct (decide (u = v)) as [->|]; [rewrite setl_eq, elem_of_cons; naive_solver|].
    rewrite setl_ne by done. auto. }
  split; [|split; [|split]].
  - intros w. split; [|apply Hn]. destruct (decide (w = v)) as [->|]; [|rewrite setl_ne by done; apply Hn].
    rewrite setl_eq. apply NoDup_cons. split; [apply Hfr|apply Hn].
  - intros w w' x [[-> ->]|H1]%Hx [[-> E]|H2]%Hx; [done|by apply Hfr in H2|subst; by apply Hfr in H1|eauto].
  - done.
  - intros w w' x [[-> ->]|H1]%Hx; [apply Hfr|eauto].
Qed.

Lemma staging_rep_push h t S p r st b : let v := r_vbucket r in
  staging_rep h t S -> h !! p = Some r -> vb_ok v -> (forall w, p ∉ S w) ->
  Z.of_nat (length (S v)) + 1 < 2 ^ 32 -> vbs t !! Z.to_nat v = Some st ->
  staging_rep (<[p := set_hook (st_first st) r]> h)
    (mkStagingTable
       (<[Z.to_nat v := mkStagedVB (Some p) (if st_count st =? 0 then Some p else st_last st)
                          (u32 (st_count st + 1))]> (vbs t))
       (if st_count st =? 0 then touched t ++ [v] else touched t) b)
    (setl S v (p :: S v)).
Proof.
  intros v HS Hr Hv Hfr Hlen Hst. destruct (sr_vbs _ _ _ HS) as [Hl Hvb].
  destruct (Hvb v Hv) as (st' & Hst' & Hc & Hla & Hcn).
  assert (st' = st) as -> by congruence.
  assert (H0 : st_count st = 0 <-> S v = []) by (rewrite Hcn; destruct (S v); simpl; [done|split; [lia|done]]).
  split; cbn [vbs touched]; [split; [by rewrite length_insert|]| | |].
  - intros w Hw. destruct (decide (w = v)) as [->|Hne].
    + rewrite setl_eq, list_lookup_insert_eq by (rewrite Hl; unfold vb_ok in Hv; lia).
      eexists. split; [done|]. split; [|split]; cbn [st_first st_last st_count].
      * split; [done|]. eexists. rewrite lookup_insert_eq. split; [done|]. by apply chain_insert.
      * destruct (st_count st =? 0) eqn:E; b2p; [by rewrite (proj1 H0 E)|].
        rewrite last_cons_keep; [done|]. naive_solver.
      * rewrite Hcn. simpl length. rewrite u32_small; lia.
    + rewrite setl_ne, list_lookup_insert_ne by (done || by apply vb_index).
      destruct (Hvb w Hw) as (st' & ? & ? & ?). exists st'. split; [done|].
      split; [|done]. by apply chain_insert.
  - intros w. destruct (decide (w = v)) as [->|Hne]; [rewrite setl_eq|rewrite setl_ne by done];
      (destruct (st_count st =? 0) eqn:E; b2p; [rewrite elem_of_app, list_elem_of_singleton|]);
      rewrite ?(sr_touched _ _ _ HS); naive_solver.
  - intros w. destruct (decide (w = v)) as [->|]; [done|]. rewrite setl_ne by done. apply HS.
  - destruct (st_count st =? 0) eqn:E; b2p; [|apply HS]. apply NoDup_app.
    split_and!; [apply HS| |apply NoDup_singleton]. intros w Hw ->%list_elem_of_singleton.
    apply (sr_touched _ _ _ HS) in Hw. naive_solver.
Qed.

Section staging_laws.
Context (sizeofRequest : Z).

(** A write admitted by [StageWrite] is linked in front of the vbucket's staged
    chain; a refused one changes nothing. *)
Lemma StageWrite_spec b t S Q p r :
  staging_rep (b_heap b) t S -> queue_rep b Q -> separate S Q ->
  b_heap b !! p = Some r -> vb_ok (r_vbucket r) -> (forall v, p ∉ S v /\ p ∉ Q v) ->
  Z.of_nat (length (S (r_vbucket r))) + 1 < 2 ^ 32 ->
  exists b' t' ok, StageWrite sizeofRequest b t p = Some (b', t', ok) /\
    ok = negb (writeQueueMemLimit b <? u64 (queuedBytes b + st_bytes t + itemSize sizeofRequest r)) /\
    if ok then
      let S' := setl S (r_vbucket r) (p :: S (r_vbucket r)) in
      staging_rep (b_heap b') t' S' /\ queue_rep b' Q /\ separate S' Q /\
      st_bytes t' = u64 (st_bytes t + itemSize sizeofRequest r) /\
      b' = with_heap b (b_heap b') /\ hooks_only (b_heap b) (b_heap b')
    else b' = b /\ t' = t.
Proof.
  intros HS HQ Hsep Hr Hv Hfr Hlen. unfold StageWrite. rewrite Hr. cbn [mbind option_bind].
  destruct (_ <? _) eqn:Hlim; [eexists _, _, false; by split_and!|].
  destruct (proj2 (sr_vbs _ _ _ HS) _ Hv) as (st & Hst & _). rewrite Hst. cbn [mbind option_bind].
  eexists _, _, true. split; [done|]. split; [done|]. cbn [b_heap with_heap st_bytes].
  refine (conj _ (conj _ (conj _ (conj eq_refl (conj eq_refl _))))).
  - apply staging_rep_push; try done. apply Hfr.
  - split; [apply HQ|]. intros w Hw. destruct (qr_vb _ _ HQ w Hw) as (q & Hq & Hc). exists q.
    split; [done|]. apply chain_insert; [apply Hfr|done].
  - by apply separate_push.
  - by apply hooks_only_insert.
Qed.
End staging_laws.

(** ** Flushing *)

(** A task of the vbucket is with the writer pool, now or once its coalescing
    interval is over. *)
Definition waiting (b : Bucket) (v : Z) : Prop :=
  exists s, b_shards b !! shardOf b v = Some s /\
    (v ∈ pt_vbid <$> taskQueue s \/ v ∈ (fun d => pt_vbid (df_task d)) <$> deferQueue s).

Lemma onVB_spec b v f s s' : b_shards b !! shardOf b v = Some s -> f s = Some s' ->
  exists b', onVB b v f = Some b' /\ b_heap b' = b_heap b /\ queuedBytes b' = queuedBytes b /\
    writeQueueMemLimit b' = writeQueueMemLimit b /\
    (forall w, shardOf b' w = shardOf b w) /\ length (b_shards b') = length (b_shards b) /\
    (forall w, b_shards b' !! shardOf b w = if decide (shardOf b w = shardOf b v) then Some s' else b_shards b !! shardOf b w).
Proof.
  intros Hs Hf. unfold onVB. rewrite Hs. cbn [mbind option_bind]. rewrite Hf. eexists. split; [done|].
  split_and!; try done; cbn [b_shards].
  - intros w. unfold shardOf. cbn [b_shards]. by rewrite length_insert.
  - by rewrite length_insert.
  - intros w. destruct (decide _) as [->|Hne]; [|by rewrite list_lookup_insert_ne].
    apply list_lookup_insert_eq. by eapply lookup_lt_Some.
Qed.

Lemma submit_queues cfg s v q now : vbWriteQueues (SubmitOrDefer cfg s v q now) = vbWriteQueues s.
Proof. unfold SubmitOrDefer. by destruct (shouldDeferWrite _ _ _). Qed.

(** A flushed vbucket's chain goes in front of its queue, and a writer is
    scheduled for it. *)
Lemma separate_flush S Q v : separate S Q -> separate (setl S v []) (setl Q v (S v ++ Q v)).
Proof.
  intros (Hn & HSS & HQQ & HSQ).
  assert (HS : forall u x, x ∈ setl S v [] u -> u <> v /\ x ∈ S u).
  { intros u x. destruct (decide (u = v)) as [->|]; [rewrite setl_eq; by intros ?%not_elem_of_nil|].
    by rewrite setl_ne. }
  assert (HQ : forall u x, x ∈ setl Q v (S v ++ Q v) u -> (u = v /\ x ∈ S u) \/ x ∈ Q u).
  { intros u x. destruct (decide (u = v)) as [->|]; [rewrite setl_eq, elem_of_app; naive_solver|].
    rewrite setl_ne by done. auto. }
  split; [|split; [|split]].
  - intros w. destruct (decide (w = v)) as [->|]; [|by rewrite !setl_ne]. rewrite !setl_eq. split; [constructor|].
    apply NoDup_app. split_and!; [apply Hn|eauto|apply Hn].
  - intros w w' x [_ H1]%HS [_ H2]%HS. eauto.
  - intros w w' x [[-> H1]|H1]%HQ [[-> H2]|H2]%HQ; eauto; exfalso; eapply HSQ; eauto.
  - intros w w' x [Hw H1]%HS [[-> H2]|H2]%HQ; [|by eapply HSQ]. apply Hw. eauto.
Qed.

Lemma vbs_rep_flush h h' l S v : vbs_rep h l S -> vb_ok v ->
  (forall w x, w <> v -> x ∈ S w -> h' !! x = h !! x) ->
  vbs_rep h' (<[Z.to_nat v := emptyStagedVB]> l) (setl S v []).
Proof.
  intros [Hl Hvb] Hv Hh. split; [by rewrite length_insert|]. intros w Hw.
  destruct (decide (w = v)) as [->|Hne].
  - rewrite setl_eq, list_lookup_insert_eq by (rewrite Hl; unfold vb_ok in Hv; lia). by eexists.
  - rewrite setl_ne, list_lookup_insert_ne by (done || by apply vb_index).
    destruct (Hvb w Hw) as (st & ? & ? & ?). exists st. split; [done|]. split; [|done].
    eapply chain_frame; [|done]. eauto.
Qed.

(** What a push of [n] requests leaves in the vbucket's queue record. *)
Definition pushed (b b' : Bucket) (v n : Z) : Prop :=
  exists q q', GetVBWriteQueue b v = Some q /\ GetVBWriteQueue b' v = Some q' /\
    vq_scheduled q' = true /\ vq_pending q' = u32 (vq_pending q + n) /\
    (vq_scheduled q = true \/ waiting b' v).

(** The rest of the bucket is as before. *)
Definition same_rest (b b' : Bucket) (touches : Z -> Prop) : Prop :=
  queuedBytes b' = queuedBytes b /\ writeQueueMemLimit b' = writeQueueMemLimit b /\
  hooks_only (b_heap b) (b_heap b') /\
  (forall w, waiting b w -> waiting b' w) /\
  (forall w, vb_ok w -> ~ touches w -> GetVBWriteQueue b' w = GetVBWriteQueue b w).

Section flush.
Context (cfg : EngineConfig) (now : Z -> Z).

Lemma queue_update b h v q0 q : vb_ok v -> GetVBWriteQueue b v = Some q0 ->
  exists b', onVB (with_heap b h) v (fun s => Some (pushQueue cfg now v q0 q s)) = Some b' /\
    b_heap b' = h /\ GetVBWriteQueue b' v = Some q /\ (vq_scheduled q0 = true \/ waiting b' v) /\
    b_shards b' <> [] /\ (hooks_only (b_heap b) h -> same_rest b b' (eq v)).
Proof.
  intros Hv Hq. unfold GetVBWriteQueue in Hq. destruct (b_shards b !! shardOf b v) as [s|] eqn:Hs; [|done].
  cbn [mbind option_bind] in Hq. set (s' := pushQueue cfg now v q0 q s).
  destruct (onVB_spec (with_heap b h) v (fun s => Some (pushQueue cfg now v q0 q s)) s s' Hs eq_refl)
    as (b' & Ho & Hh & Hqb & Hm & Hso & Hlen & Hsh).
  assert (Hs' : b_shards b' !! shardOf b' v = Some s') by (rewrite Hso, Hsh, decide_True; done).
  assert (Hw' : vbWriteQueues s' = <[Z.to_nat v := q]> (vbWriteQueues s))
    by (subst s'; unfold pushQueue; destruct (vq_scheduled q0); [done|by rewrite submit_queues]).
  exists b'. split; [done|split; [done|split; [|split; [|split]]]].
  - unfold GetVBWriteQueue. rewrite Hs'. cbn [mbind option_bind]. rewrite Hw'.
    apply list_lookup_insert_eq. by eapply lookup_lt_Some.
  - destruct (vq_scheduled q0) eqn:Hsc; [by left|right]. exists s'. split; [done|]. subst s'.
    unfold pushQueue. rewrite Hsc. unfold SubmitOrDefer. destruct (shouldDeferWrite _ _ _); cbn [taskQueue deferQueue set_vbq with_tasks with_vbqs];
      rewrite fmap_app, elem_of_app; simpl; set_solver.
  - intros Hnil. by rewrite Hnil in Hs'.
  - intros Hho. refine (conj Hqb (conj Hm (conj _ (conj _ _)))); [by rewrite Hh| |].
    + intros w (sw & Hsw & Hin). unfold waiting. rewrite Hso, Hsh. change (shardOf (with_heap b h) w) with (shardOf b w).
      change (shardOf (with_heap b h) v) with (shardOf b v). destruct (decide _) as [He|]; [|by exists sw].
      rewrite He, Hs in Hsw. simplify_eq. exists s'. split; [done|]. subst s'. unfold pushQueue.
      destruct (vq_scheduled q0); [done|].
      unfold SubmitOrDefer. destruct (shouldDeferWrite _ _ _); cbn [taskQueue deferQueue set_vbq with_tasks with_vbqs];
        rewrite fmap_app, elem_of_app; tauto.
    + intros w Hw Hne. unfold GetVBWriteQueue. rewrite Hso, Hsh. change (shardOf (with_heap b h) w) with (shardOf b w).
      change (shardOf (with_heap b h) v) with (shardOf b v). destruct (decide _) as [He|]; [|done].
      rewrite He, Hs. cbn [mbind option_bind]. rewrite Hw'. apply list_lookup_insert_ne. by apply vb_index.
Qed.

Lemma flushOne_spec b t S Q v :
  vbs_rep (b_heap b) (vbs t) S -> queue_rep b Q -> separate S Q -> vb_ok v -> S v <> [] ->
  exists b' t', flushOne cfg now b t v = Some (b', t') /\
    vbs_rep (b_heap b') (vbs t') (setl S v []) /\ queue_rep b' (setl Q v (S v ++ Q v)) /\
    separate (setl S v []) (setl Q v (S v ++ Q v)) /\ touched t' = touched t /\ st_bytes t' = st_bytes t /\
    pushed b b' v (Z.of_nat (length (S v))) /\ same_rest b b' (eq v).
Proof.
  intros HS HQ Hsep Hv Hne. destruct (proj2 HS v Hv) as (st & Hst & Hc & Hla & Hcn).
  destruct (qr_vb _ _ HQ v Hv) as (q & Hq & Hcq). destruct (Hsep) as (Hn & HSS & HQQ & HSQ).
  destruct (S v) as [|x l] eqn:HSv; [done|]. pose proof (chain_hd _ _ _ _ _ Hc) as Hf.
  destruct (list.last (x :: l)) as [z|] eqn:Hz; [|by apply last_None in Hz].
  assert (Hzin : z ∈ S v) by (rewrite HSv; by apply last_Some_elem_of).
  rewrite Hf in Hc. destruct (insertChain_spec _ (vq_list q) x z (x :: l) (Q v) Hc) as (h' & e & Hi & Hc' & Hho & Hfr);
    [rewrite <- HSv; apply Hn|done|done|by eapply HSQ|].
  edestruct (queue_update b h' v q) as (b' & Hb' & Hh' & Hget & Hw & Hsn & Hrest); [done|done|].
  unfold flushOne. rewrite Hst. cbn [mbind option_bind]. rewrite Hq, Hf, Hla. cbn [mbind option_bind]. rewrite Hi. cbn [mbind option_bind].
  rewrite Hb'. cbn [mbind option_bind]. eexists _, _. split; [done|]. cbn [vbs touched st_bytes].
  rewrite Hh'. refine (conj _ (conj _ (conj _ (conj eq_refl (conj eq_refl (conj _ (Hrest Hho))))))).
  - eapply vbs_rep_flush; [done|done|]. intros w y Hwv Hy. apply Hfr. intros ->. apply Hwv. eauto.
  - split; [done|]. intros w Hw'. destruct (decide (w = v)) as [->|Hwv].
    + rewrite setl_eq. eexists. split; [exact Hget|]. by rewrite Hh'.
    + rewrite setl_ne by done. destruct (Hrest Hho) as (_ & _ & _ & _ & Hsame).
      destruct (qr_vb _ _ HQ w Hw') as (qw & Hqw & Hcw). exists qw. rewrite Hsame by naive_solver.
      split; [done|]. rewrite Hh'. eapply chain_frame; [|done]. intros y Hy. apply Hfr. intros ->. by eapply HSQ.
  - rewrite <- HSv. by apply separate_flush.
  - eexists q, _. split; [done|]. split; [exact Hget|]. cbn [vq_scheduled vq_pending]. by rewrite Hcn.
Qed.

Lemma reps_ext b l S S' Q Q' : (forall v, S v = S' v) -> (forall v, Q v = Q' v) ->
  vbs_rep (b_heap b) l S -> queue_rep b Q -> separate S Q ->
  vbs_rep (b_heap b) l S' /\ queue_rep b Q' /\ separate S' Q'.
Proof.
  intros HS HQ [Hl Hvb] [Hne Hq] (H1 & H2 & H3 & H4). split; [|split].
  - split; [done|]. intros v Hv. rewrite <- HS. auto.
  - split; [done|]. intros v Hv. rewrite <- HQ. auto.
  - split; [|split; [|split]]; intros *; rewrite <- ?HS, <- ?HQ; eauto.
Qed.

Definition emptied (S : Z -> list ptr) (l : list Z) : Z -> list ptr :=
  fun v => if decide (v ∈ l) then [] else S v.
Definition received (S Q : Z -> list ptr) (l : list Z) : Z -> list ptr :=
  fun v => if decide (v ∈ l) then S v ++ Q v else Q v.

Lemma flushAll_spec l b t S Q :
  vbs_rep (b_heap b) (vbs t) S -> queue_rep b Q -> separate S Q ->
  NoDup l -> (forall v, v ∈ l -> vb_ok v /\ S v <> []) ->
  exists b' t', flushAll cfg now b t l = Some (b', t') /\
    vbs_rep (b_heap b') (vbs t') (emptied S l) /\ queue_rep b' (received S Q l) /\
    separate (emptied S l) (received S Q l) /\ st_bytes t' = st_bytes t /\
    (forall v, v ∈ l -> pushed b b' v (Z.of_nat (length (S v)))) /\ same_rest b b' (fun v => v ∈ l).
Proof.
  revert b t S Q. induction l as [|v l IH]; intros b t S Q HS HQ Hsep Hn Hl.
  - exists b, t. split; [done|]. destruct (reps_ext b (vbs t) S (emptied S []) Q (received S Q [])) as (H1 & H2 & H3); try done.
    refine (conj H1 (conj H2 (conj H3 (conj eq_refl (conj _ _))))); [by intros v ?%not_elem_of_nil|].
    split_and!; done.
  - apply NoDup_cons in Hn as [Hv Hn]. destruct (Hl v) as [Hvo Hvn]; [left|].
    destruct (flushOne_spec b t S Q v HS HQ Hsep Hvo Hvn) as (b1 & t1 & Ho & HS1 & HQ1 & Hs1 & _ & Hb1 & Hp1 & Hr1).
    destruct (IH b1 t1 _ _ HS1 HQ1 Hs1 Hn) as (b2 & t2 & Ha & HS2 & HQ2 & Hs2 & Hb2 & Hp2 & Hr2).
    { intros w Hw. rewrite setl_ne by (by intros ->). apply Hl. by right. }
    exists b2, t2. simpl. rewrite Ho. cbn [mbind option_bind]. split; [done|].
    destruct (reps_ext b2 (vbs t2) (emptied (setl S v []) l) (emptied S (v :: l))
      (received (setl S v []) (setl Q v (S v ++ Q v)) l) (received S Q (v :: l))) as (H1 & H2 & H3);
      [| |exact HS2|exact HQ2|exact Hs2|].
    { intros w. unfold emptied, setl. destruct (decide (w ∈ l)), (decide (w ∈ v :: l)), (decide (w = v)); try done; set_solver. }
    { intros w. unfold received, setl.
      destruct (decide (w ∈ l)), (decide (w ∈ v :: l)), (decide (w = v)); subst; try done; set_solver. }
    destruct Hr1 as (? & ? & ? & Hw1 & Hq1), Hr2 as (? & ? & ? & Hw2 & Hq2).
    refine (conj H1 (conj H2 (conj H3 (conj _ (conj _ _))))); [congruence| |].
    + intros w Hw. destruct (decide (w = v)) as [->|Hne].
      * destruct Hp1 as (q & q' & ? & ? & ? & ? & ?). exists q, q'. rewrite Hq2 by done. naive_solver.
      * destruct (Hp2 w) as (q & q' & Hq & ?); [set_solver|]. rewrite setl_ne in * by done.
        exists q, q'. rewrite <- Hq1; [done| |done]. apply Hl. done.
    + refine (conj _ (conj _ (conj _ (conj _ _)))); [congruence|congruence|by etrans|auto|].
      intros w Hw Hnw. rewrite Hq2, Hq1; set_solver.
Qed.

Lemma FlushStaged_spec b t S Q :
  staging_rep (b_heap b) t S -> queue_rep b Q -> separate S Q ->
  exists b' t', FlushStaged cfg now b t = Some (b', t') /\
    staging_rep (b_heap b') t' (fun _ => []) /\ queue_rep b' (fun v => S v ++ Q v) /\
    separate (fun _ => []) (fun v => S v ++ Q v) /\ st_bytes t' = 0 /\
    queuedBytes b' = (if st_bytes t =? 0 then queuedBytes b else u64 (queuedBytes b + st_bytes t)) /\
    hooks_only (b_heap b) (b_heap b') /\
    (forall v, S v <> [] -> pushed b b' v (Z.of_nat (length (S v)))) /\
    (forall v, vb_ok v -> S v = [] -> GetVBWriteQueue b' v = GetVBWriteQueue b v).
Proof.
  intros HS HQ Hsep. unfold FlushStaged. set (b1 := if st_bytes t =? 0 then b else _).
  assert (Hb1 : b_heap b1 = b_heap b /\ b_shards b1 = b_shards b /\
    queuedBytes b1 = if st_bytes t =? 0 then queuedBytes b else u64 (queuedBytes b + st_bytes t))
    by (subst b1; by destruct (st_bytes t =? 0)). destruct Hb1 as (Hh & Hsh & Hqb).
  assert (Hget : forall v, GetVBWriteQueue b1 v = GetVBWriteQueue b v)
    by (intros; unfold GetVBWriteQueue, shardOf; by rewrite Hsh).
  assert (HQ1 : queue_rep b1 Q) by (destruct HQ as [H1 H2]; split; [by rewrite Hsh|intros v; rewrite Hget, Hh; auto]).
  destruct (flushAll_spec (touched t) b1 (mkStagingTable (vbs t) (touched t) 0) S Q)
    as (b2 & t2 & Ha & HS2 & HQ2 & Hs2 & Hby & Hp & (Hr1 & Hr2 & Hr3 & Hr4 & Hr5)).
  { rewrite Hh. apply HS. } { done. } { done. } { apply HS. }
  { intros v Hv. apply (sr_touched _ _ _ HS) in Hv. split; [by apply (sr_ok _ _ _ HS)|done]. }
  rewrite Ha. cbn [mbind option_bind]. exists b2. eexists. split; [done|].
  destruct (reps_ext b2 (vbs t2) (emptied S (touched t)) (fun _ => []) (received S Q (touched t)) (fun v => S v ++ Q v)) as (H1 & H2 & H3); [| |exact HS2|exact HQ2|exact Hs2|].
  { intros v. unfold emptied. destruct (decide (v ∈ touched t)) as [|Hn]; [done|]. rewrite (sr_touched _ _ _ HS) in Hn.
    destruct (S v); [done|]. by destruct Hn. }
  { intros v. unfold received. destruct (decide (v ∈ touched t)) as [|Hn]; [done|]. rewrite (sr_touched _ _ _ HS) in Hn.
    destruct (S v); [done|]. by destruct Hn. }
  refine (conj _ (conj H2 (conj H3 (conj Hby (conj _ (conj _ (conj _ _))))))).
  - split; [done|set_solver|done|constructor].
  - congruence.
  - by rewrite <- Hh.
  - intros v Hv. destruct (Hp v) as (q & q' & Hq & ?); [by apply (sr_touched _ _ _ HS)|]. exists q, q'. by rewrite <- Hget.
  - intros v Hv He. rewrite Hr5, Hget; [done|done|]. rewrite (sr_touched _ _ _ HS). naive_solver.
Qed.
(** *** What a flush leaves alone *)
Definition frees (b : Bucket) : list (list ptr * Z) := (fun s => (freeRequests s, freeRequestCount s)) <$> b_shards b.

Lemma onVB_frees b v f b' : (forall s s', f s = Some s' -> freeRequests s' = freeRequests s /\ freeRequestCount s' = freeRequestCount s) ->
  onVB b v f = Some b' -> frees b' = frees b /\ b_heap b' = b_heap b.
Proof.
  intros Hf. unfold onVB, frees. destruct (b_shards b !! shardOf b v) as [s|] eqn:Hs; [|done]. cbn [mbind option_bind].
  destruct (f s) as [s'|] eqn:Es; [|done]. intros [= <-]. cbn [b_shards b_heap]. split; [|done].
  destruct (Hf _ _ Es) as [E1 E2]. rewrite list_fmap_insert, E1, E2. apply list_insert_id. by rewrite list_lookup_fmap, Hs.
Qed.

Lemma flushOne_frame b t v b' t' : flushOne cfg now b t v = Some (b', t') ->
  exists st z, vbs t !! Z.to_nat v = Some st /\ st_last st = Some z /\ (forall x, x <> z -> b_heap b' !! x = b_heap b !! x) /\
    frees b' = frees b /\ vbs t' = <[Z.to_nat v := emptyStagedVB]> (vbs t).
Proof.
  unfold flushOne. destruct (vbs t !! Z.to_nat v) as [st|]; [|done]. cbn [mbind option_bind].
  destruct (GetVBWriteQueue b v) as [q|]; [|done]. cbn [mbind option_bind]. destruct (st_first st) as [f|]; [|done].
  destruct (st_last st) as [z|] eqn:Ez; [|done]. cbn [mbind option_bind]. unfold insertChain.
  destruct (b_heap b !! z) as [r|]; [|done]. cbn [mbind option_bind]. intros H.
  match type of H with (?o ≫= _) = _ => destruct o as [b1|] eqn:Eo; [|done] end. cbn [mbind option_bind] in H. injection H as <- <-.
  exists st, z. split; [done|]. split; [done|].
  apply onVB_frees in Eo as [Ef Eh]; [|intros s s' [= <-]; unfold pushQueue, SubmitOrDefer; destruct (vq_scheduled q); [done|];
    by destruct (shouldDeferWrite _ _ _)].
  rewrite Eh. split; [|done]. intros x Hx. by apply lookup_insert_ne.
Qed.

Lemma flushAll_frame l b t b' t' (T : ptr -> Prop) : flushAll cfg now b t l = Some (b', t') -> NoDup l -> (forall v, v ∈ l -> vb_ok v) ->
  (forall v st z, v ∈ l -> vbs t !! Z.to_nat v = Some st -> st_last st = Some z -> T z) ->
  (forall x, ~ T x -> b_heap b' !! x = b_heap b !! x) /\ frees b' = frees b.
Proof.
  revert b t. induction l as [|v l IH]; intros b t H Hn Hv HT; cbn [flushAll] in H; [by injection H as <- <-|].
  destruct (flushOne cfg now b t v) as [[b1 t1]|] eqn:Eo; [|done]. cbn [mbind option_bind] in H.
  apply NoDup_cons in Hn as [Hvl Hn].
  destruct (flushOne_frame _ _ _ _ _ Eo) as (st & z & Hst & Hz & Hfr & Hf & Hvb).
  destruct (IH b1 t1 H Hn) as [Hfr' Hf'].
  - intros w Hw. apply Hv. by right.
  - intros w st' z' Hw Hst' Hz'. rewrite Hvb, list_lookup_insert_ne in Hst'.
    + eapply HT; [by right|done|done].
    + apply vb_index; [apply Hv; left|apply Hv; by right|]. by intros ->.
  - split; [|congruence]. intros x Hx. rewrite Hfr' by done. apply Hfr. intros ->. apply Hx. eapply HT; [left|done|done].
Qed.

Lemma FlushStaged_frame b t S b' t' : staging_rep (b_heap b) t S -> FlushStaged cfg now b t = Some (b', t') ->
  (forall x, (forall v, x ∉ S v) -> b_heap b' !! x = b_heap b !! x) /\ frees b' = frees b.
Proof.
  intros HS. unfold FlushStaged. set (b1 := if st_bytes t =? 0 then b else _).
  destruct (flushAll cfg now b1 _ (touched t)) as [[b2 t2]|] eqn:E; [|done]. intros [= <- <-].
  apply (flushAll_frame _ _ _ _ _ (fun z => exists v, z ∈ S v)) in E as [Hh Hf].
  - assert (Hb : b_heap b1 = b_heap b /\ frees b1 = frees b) by (subst b1; by destruct (st_bytes t =? 0)).
    destruct Hb as [Eh Ef]. rewrite <- Eh, <- Ef. split; [|done]. intros x Hx. apply Hh. intros [v Hv]. by apply (Hx v).
  - apply (sr_nodup _ _ _ HS).
  - intros v Hv. apply (sr_ok _ _ _ HS). by apply (sr_touched _ _ _ HS).
  - intros v st z Hv Hst Hz. cbn [vbs] in Hst. exists v. destruct (sr_vbs _ _ _ HS) as [_ Hvb].
    destruct (Hvb v) as (st' & Hst' & _ & Hl & _); [apply (sr_ok _ _ _ HS); by apply (sr_touched _ _ _ HS)|].
    assert (st' = st) as -> by congruence. apply last_Some_elem_of. congruence.
Qed.
End flush.

(** ** From arrival to the writer *)
Section arrival.
Context (sizeofRequest : Z).

Fixpoint stageAll (b : Bucket) (t : StagingTable) (ps : list ptr)
    : option (Bucket * StagingTable * list ptr) :=
  match ps with
  | [] => Some (b, t, [])
  | p :: ps' =>
      '(b1, t1, ok) ← StageWrite sizeofRequest b t p;
      '(b2, t2, acc) ← stageAll b1 t1 ps';
      Some (b2, t2, if (ok : bool) then p :: acc else acc)
  end.

Definition vbOf (h : rheap) (p : ptr) : option Z := r_vbucket <$> h !! p.
Definition toVB (h : rheap) (v : Z) (l : list ptr) : list ptr := filter (fun p => vbOf h p = Some v) l.
Definition sizeOf (h : rheap) (p : ptr) : Z := from_option (itemSize sizeofRequest) 0 (h !! p).
Definition sizes (h : rheap) (l : list ptr) : Z := foldr Z.add 0 (sizeOf h <$> l).

Lemma vbOf_hooks h h' p : hooks_only h h' -> vbOf h' p = vbOf h p.
Proof.
  intros He. unfold vbOf. apply (f_equal (lookup p)) in He. unfold bodies in He. rewrite !lookup_fmap in He.
  destruct (h !! p) as [r|], (h' !! p) as [r'|]; try done. simpl in *. destruct r, r'. injection He as ?. by subst.
Qed.
Lemma sizeOf_hooks h h' p : hooks_only h h' -> sizeOf h' p = sizeOf h p.
Proof.
  intros He. unfold sizeOf. apply (f_equal (lookup p)) in He. unfold bodies in He. rewrite !lookup_fmap in He.
  destruct (h !! p) as [r|], (h' !! p) as [r'|]; try done. simpl in *. destruct r, r'. injection He as ?. by subst.
Qed.
Lemma toVB_hooks h h' v l : hooks_only h h' -> toVB h' v l = toVB h v l.
Proof. intros He. apply list_filter_iff. intros p. by rewrite (vbOf_hooks h h'). Qed.
Lemma sizes_hooks h h' l : hooks_only h h' -> sizes h' l = sizes h l.
Proof. intros He. unfold sizes. f_equal. apply list_fmap_ext. intros i p _. by apply sizeOf_hooks. Qed.

Definition requests_ok (h : rheap) (ps : list ptr) : Prop :=
  forall p, p ∈ ps -> exists r, h !! p = Some r /\ vb_ok (r_vbucket r).

Lemma requests_ok_hooks h h' ps : hooks_only h h' -> requests_ok h ps -> requests_ok h' ps.
Proof.
  intros He Hok p Hp. destruct (Hok p Hp) as (r & Hr & Hv). destruct (hooks_only_lookup _ _ _ _ He Hr) as [v Hr'].
  by exists (set_hook v r).
Qed.

Lemma stageAll_spec ps b t S Q :
  staging_rep (b_heap b) t S -> queue_rep b Q -> separate S Q ->
  NoDup ps -> requests_ok (b_heap b) ps -> (forall p v, p ∈ ps -> p ∉ S v /\ p ∉ Q v) ->
  (forall v, Z.of_nat (length (S v) + length ps) < 2 ^ 32) ->
  exists b' t' acc, stageAll b t ps = Some (b', t', acc) /\ acc `sublist_of` ps /\
    let S' := fun v => reverse (toVB (b_heap b) v acc) ++ S v in
    staging_rep (b_heap b') t' S' /\ queue_rep b' Q /\ separate S' Q /\
    u64 (st_bytes t') = u64 (st_bytes t + sizes (b_heap b) acc) /\
    b' = with_heap b (b_heap b') /\ hooks_only (b_heap b) (b_heap b').
Proof.
  revert b t S. induction ps as [|p ps IH]; intros b t S HS HQ Hsep Hn Hok Hfr Hlen.
  - exists b, t, []. split; [done|]. split; [done|]. unfold sizes. simpl. rewrite Z.add_0_r. by destruct b.
  - apply NoDup_cons in Hn as [Hp Hn]. destruct (Hok p) as (r & Hr & Hv); [left|].
    destruct (StageWrite_spec sizeofRequest b t S Q p r) as (b1 & t1 & ok & Hs & _ & Hcase); try done.
    { intros v. apply Hfr. left. } { specialize (Hlen (r_vbucket r)). simpl in Hlen. lia. }
    simpl. rewrite Hs. cbn [mbind option_bind]. destruct ok.
    + destruct Hcase as (HS1 & HQ1 & Hsep1 & Hby1 & Hb1 & Hho1).
      destruct (IH b1 t1 _ HS1 HQ1 Hsep1 Hn) as (b2 & t2 & acc & Ha & Hsub & HS2 & HQ2 & Hsep2 & Hby2 & Hb2 & Hho2).
      { apply (requests_ok_hooks (b_heap b)); [done|]. intros x Hx. apply Hok. by right. }
      { intros x v Hx. split; [|apply Hfr; by right]. destruct (decide (v = r_vbucket r)) as [->|].
        - rewrite setl_eq. apply not_elem_of_cons. split; [by intros ->|]. apply Hfr. by right.
        - rewrite setl_ne by done. apply Hfr. by right. }
      { intros v. specialize (Hlen v). destruct (decide (v = r_vbucket r)) as [->|];
          [rewrite setl_eq|rewrite setl_ne by done]; simpl in *; lia. }
      rewrite Ha. eexists _, _, _. split; [done|]. split; [by apply sublist_skip|].
      assert (Heq : forall v, reverse (toVB (b_heap b1) v acc) ++ setl S (r_vbucket r) (p :: S (r_vbucket r)) v =
                         reverse (toVB (b_heap b) v (p :: acc)) ++ S v).
      { intros v. rewrite (toVB_hooks (b_heap b)) by done. unfold toVB. rewrite filter_cons.
        assert (Hvb : vbOf (b_heap b) p = Some (r_vbucket r)) by (unfold vbOf; by rewrite Hr).
        destruct (decide (v = r_vbucket r)) as [->|Hne].
        - rewrite setl_eq, (decide_True _ _ Hvb). by rewrite reverse_cons, <- (assoc (++)).
        - rewrite setl_ne, decide_False by (rewrite ?Hvb; naive_solver). done. }
      destruct (reps_ext b2 (vbs t2) _ (fun v => reverse (toVB (b_heap b) v (p :: acc)) ++ S v) Q Q Heq
                  ltac:(done) (sr_vbs _ _ _ HS2) HQ2 Hsep2) as (H1 & H2 & H3).
      refine (conj _ (conj H2 (conj H3 (conj _ (conj _ _))))).
      * split; [done| | |apply HS2]; intros v; rewrite <- Heq; apply HS2.
      * rewrite Hby2, Hby1, u64_add_idemp_l. rewrite (sizes_hooks (b_heap b)) by done. f_equal.
        change (sizes (b_heap b) (p :: acc)) with (sizeOf (b_heap b) p + sizes (b_heap b) acc).
        assert (sizeOf (b_heap b) p = itemSize sizeofRequest r) as -> by (unfold sizeOf; by rewrite Hr). lia.
      * rewrite Hb2, Hb1. done.
      * by etrans.
    + destruct Hcase as [-> ->].
      destruct (IH b t S HS HQ Hsep Hn) as (b2 & t2 & acc & Ha & Hsub & Hrest).
      { intros x Hx. apply Hok. by right. } { intros x v Hx. apply Hfr. by right. }
      { intros v. specialize (Hlen v). simpl in Hlen. lia. }
      rewrite Ha. eexists _, _, _. split; [done|]. split; [by apply sublist_cons|done].
Qed.
End arrival.

(** What one socket wake stages reaches the writers in arrival order: of
    the writes an IO thread stages and then flushes, exactly the admitted ones
    are in their vbuckets' queues, a sweep of the queue reversed gives the
    older queued writes followed by the new ones in the order they arrived,
    every vbucket that got one has a writer scheduled for it, and the bytes
    charged to the write queue are the sizes of the admitted requests. *)
Theorem staged_writes_arrive_in_order sizeofRequest cfg now b t Q ps :
  staging_rep (b_heap b) t (fun _ => []) -> st_bytes t = 0 -> queue_rep b Q -> separate (fun _ => []) Q ->
  NoDup ps -> requests_ok (b_heap b) ps -> (forall p v, p ∈ ps -> p ∉ Q v) ->
  Z.of_nat (length ps) < 2 ^ 32 -> is_uint 64 (queuedBytes b) ->
  exists b1 t1 acc b2 t2, stageAll sizeofRequest b t ps = Some (b1, t1, acc) /\
    FlushStaged cfg now b1 t1 = Some (b2, t2) /\ acc `sublist_of` ps /\
    staging_rep (b_heap b2) t2 (fun _ => []) /\
    queuedBytes b2 = u64 (queuedBytes b + sizes sizeofRequest (b_heap b) acc) /\
    forall v, vb_ok v -> exists q h l, GetVBWriteQueue b2 v = Some q /\
      sweepOnce (b_heap b2) (vq_list q) = Some (h, None, l) /\
      reverse l = reverse (Q v) ++ toVB (b_heap b) v acc /\
      (toVB (b_heap b) v acc <> [] -> vq_scheduled q = true).
Proof.
  intros HS Hby HQ Hsep Hn Hok Hfr Hlen Hqb.
  destruct (stageAll_spec sizeofRequest ps b t (fun _ => []) Q) as
    (b1 & t1 & acc & Ha & Hsub & HS1 & HQ1 & Hsep1 & Hb & Hb1 & Hho); try done.
  { intros p v Hp. split; [apply not_elem_of_nil|auto]. }
  destruct (FlushStaged_spec cfg now b1 t1 _ Q HS1 HQ1 Hsep1) as
    (b2 & t2 & Hf & HS2 & HQ2 & Hsep2 & _ & Hqb2 & Hho2 & Hp & Hu).
  exists b1, t1, acc, b2, t2. split; [done|]. split; [done|]. split; [done|]. split; [done|]. split.
  - assert (Hq1 : queuedBytes b1 = queuedBytes b) by by rewrite Hb1.
    rewrite Hqb2, Hq1. rewrite Hby, Z.add_0_l in Hb.
    assert (He : u64 (queuedBytes b + st_bytes t1) = u64 (queuedBytes b + sizes sizeofRequest (b_heap b) acc))
      by (rewrite !(Z.add_comm (queuedBytes b)), <- u64_add_idemp_l, Hb, u64_add_idemp_l; done).
    destruct (st_bytes t1 =? 0) eqn:E; b2p; [|done]. rewrite <- He, E, Z.add_0_r. symmetry.
    by apply u64_small.
  - intros v Hv. destruct (qr_vb _ _ HQ2 v Hv) as (q & Hq & Hc).
    destruct (sweepOnce_spec _ _ _ Hc) as (h & Hsw & _); [apply Hsep2|]. eexists q, h, _. split; [done|].
    split; [exact Hsw|]. rewrite app_nil_r. split; [by rewrite reverse_app, reverse_involutive|]. intros Hne.
    destruct (Hp v) as (q0 & q' & _ & Hq' & Hsc & _); [|congruence].
    rewrite app_nil_r. intros He. apply Hne. by apply (f_equal reverse) in He; rewrite reverse_involutive in He.
Qed.

(** Three writes, two of them to one vbucket, staged by an idle IO thread. *)
Definition sampleRequest (vb : Z) (key : list Z) : Request :=
  mkRequest None key [1] 1 0 vb 0 0 0 0 None None None StOK 0 0 0 0 [] 0.
Definition sampleHeap : rheap :=
  {[1%positive := sampleRequest 7 [97]; 2%positive := sampleRequest 9 [98]; 3%positive := sampleRequest 7 [97]]}.
Definition sampleBucket : Bucket := mkBucket sampleHeap [emptyEShard; emptyEShard] 0 10000.

Lemma emptyStaging_rep h : staging_rep h emptyStaging (fun _ => []).
Proof.
  split; [|set_solver|done|constructor]. split; [apply length_replicate|]. intros v Hv. exists emptyStagedVB.
  split; [|done]. apply lookup_replicate_2. unfold vb_ok in Hv. lia.
Qed.

Lemma idle_queue_rep b : b_shards b <> [] -> Forall (eq emptyEShard) (b_shards b) -> queue_rep b (fun _ => []).
Proof.
  intros Hne Hall. split; [done|]. intros v Hv.
  assert (shardOf b v < length (b_shards b))%nat as Hlt.
  { destruct (b_shards b) as [|s l] eqn:E; [done|]. unfold shardOf. rewrite E.
    pose proof (Z.mod_pos_bound v (Z.of_nat (length (s :: l)))). simpl length in *. lia. }
  apply lookup_lt_is_Some in Hlt as [s Hs]. pose proof (Forall_lookup_1 _ _ _ _ Hall Hs) as <-.
  unfold GetVBWriteQueue. rewrite Hs. cbn [mbind option_bind]. exists emptyVBQueue. split; [|done].
  apply lookup_replicate_2. unfold vb_ok in Hv. lia.
Qed.

Lemma staged_writes_arrive_in_order_witness :
  exists b1 t1 b2 t2 q h l,
    stageAll 320 sampleBucket emptyStaging [1; 2; 3]%positive = Some (b1, t1, [1; 2; 3]%positive) /\
    FlushStaged (mkEngineConfig 0 64) (fun _ => 5) b1 t1 = Some (b2, t2) /\
    GetVBWriteQueue b2 7 = Some q /\ sweepOnce (b_heap b2) (vq_list q) = Some (h, None, l) /\
    reverse l = [1; 3]%positive.
Proof.
  destruct (staged_writes_arrive_in_order 320 (mkEngineConfig 0 64) (fun _ => 5) sampleBucket emptyStaging
              (fun _ => []) [1; 2; 3]%positive) as (b1 & t1 & acc & b2 & t2 & Ha & Hf & _ & _ & _ & Hv).
  - apply emptyStaging_rep.
  - reflexivity.
  - apply idle_queue_rep; [done|]. repeat constructor.
  - split; [|split; [|split]]; [split; constructor| | |]; intros *; set_solver.
  - apply (bool_decide_unpack _). vm_compute. exact I.
  - intros p Hp. repeat (apply elem_of_cons in Hp as [->|Hp]; [eexists; split; [reflexivity|vm_compute; split; congruence]|]).
    by apply not_elem_of_nil in Hp.
  - set_solver.
  - vm_compute. reflexivity.
  - split; vm_compute; congruence.
  - destruct (Hv 7) as (q & h & l & Hq & Hs & Hl & _); [split; vm_compute; congruence|].
    assert (Hacc : exists b1' t1', stageAll 320 sampleBucket emptyStaging [1; 2; 3]%positive = Some (b1', t1', [1; 2; 3]%positive))
      by (eexists _, _; vm_compute; reflexivity). destruct Hacc as (b1' & t1' & Hacc).
    rewrite Ha in Hacc. injection Hacc as <- <- ->. exists b1, t1, b2, t2, q, h, l. rewrite Hl. auto.
Defined.
