(* ===== verification/WriteBatch.v ===== *)
(** * Sorting and de-duplicating a write batch (engine.cc, executePersist)

    A writer sorts the batch it swept by key through compact sort keys (the
    first eight key bytes as a big-endian integer, the length and the position
    in the batch) and keeps the newest write of each key.  The comparison is
    shown to be the lexicographic order of (key, arrival), hence a strict total
    order as [std::sort] demands, and the survivors to be exactly the newest
    write of every key in the batch. *)
From stdpp Require Import prelude list sorting.
From Stdlib Require Import ZArith Lia.
From S2P Require Import Prelude.
Open Scope Z_scope.

(** ** Definitions *)

(** [std::string_view] comparison: bytes compare as unsigned. *)
Fixpoint bytes_lt (a b : list Z) : bool :=
  match a, b with
  | _, [] => false
  | [], _ :: _ => true
  | x :: a', y :: b' => if x <? y then true else if y <? x then false else bytes_lt a' b'
  end.

(** The byte-by-byte loop for keys shorter than eight bytes. *)
Fixpoint prefixLoop (k : list Z) (j p : Z) : Z :=
  match k with
  | [] => p
  | c :: k' => prefixLoop k' (j + 1) (Z.lor p (Z.shiftl (u8 c) (56 - 8 * j)))
  end.

Definition keyPrefix (k : list Z) : Z :=
  if (8 <=? length k)%nat then bswap 8 (le_value (take 8 k)) else prefixLoop k 0 0.

Record SortKey := mkSortKey { sk_prefix : Z; sk_idx : Z; sk_len : Z }.

Section sort.
Context (batch : list (list Z)).

Definition fullKey (i : Z) : list Z := default [] (batch !! Z.to_nat i).

Definition sortKeyOf (i : nat) (k : list Z) : SortKey :=
  mkSortKey (keyPrefix k) (u32 (Z.of_nat i)) (u32 (Z.of_nat (length k))).
Definition sortKeys : list SortKey := imap sortKeyOf batch.

Definition sameKey (a b : SortKey) : bool :=
  (sk_prefix a =? sk_prefix b) && (sk_len a =? sk_len b) &&
  ((sk_len a <=? 8) || bool_decide (fullKey (sk_idx a) = fullKey (sk_idx b))).

Definition less (a b : SortKey) : bool :=
  if negb (sk_prefix a =? sk_prefix b) then sk_prefix a <? sk_prefix b else
  if (sk_len a <=? 8) && (sk_len b <=? 8) then
    if negb (sk_len a =? sk_len b) then sk_len a <? sk_len b else sk_idx a <? sk_idx b
  else
    let ka := fullKey (sk_idx a) in
    let kb := fullKey (sk_idx b) in
    if negb (bool_decide (ka = kb)) then bytes_lt ka kb else sk_idx a <? sk_idx b.

(** [std::sort]: which sorted permutation it returns does not matter, since
    only one exists ([sort_unique]). *)
Definition notGreater (a b : SortKey) : Prop := less b a = false.
#[global] Instance notGreater_dec a b : Decision (notGreater a b).
Proof. unfold notGreater. apply _. Defined.
Definition sortedKeys : list SortKey := merge_sort notGreater sortKeys.

(** Positions of the kept and of the dropped requests. *)
Fixpoint splitRuns (ks : list SortKey) : list nat * list nat :=
  match ks with
  | [] => ([], [])
  | k :: ks' =>
      let '(keep, drop) := splitRuns ks' in
      let i := Z.to_nat (sk_idx k) in
      match ks' with
      | k' :: _ => if sameKey k k' then (keep, i :: drop) else (i :: keep, drop)
      | [] => (i :: keep, drop)
      end
  end.
End sort.

(** The batch after sorting, and the requests dropped from it. *)
Definition dedupe {A} (key : A -> list Z) (batch : list A) : list A * list A :=
  let keys := key <$> batch in
  let '(keep, drop) := splitRuns keys (sortedKeys keys) in
  (omap (fun i => batch !! i) keep, omap (fun i => batch !! i) drop).

(** ** The sort order *)

(** The first [n] bytes, zero padded, and their big-endian value. *)
Fixpoint pad (n : nat) (k : list Z) : list Z :=
  match n with
  | O => []
  | S n' => match k with [] => 0 :: pad n' [] | c :: k' => c :: pad n' k' end
  end.
Definition be_value (l : list Z) : Z := le_value (rev l).

Lemma length_pad n k : length (pad n k) = n.
Proof. revert k. induction n; intros [|]; simpl; auto. Qed.
Lemma bytes_ok_pad n k : bytes_ok k -> bytes_ok (pad n k).
Proof.
  revert k. induction n; intros [|c k] Hk; simpl; constructor; try apply IHn; try done.
  all: by inversion Hk.
Qed.
Lemma le_value_app a b : le_value (a ++ b) = le_value a + 256 ^ Z.of_nat (length a) * le_value b.
Proof.
  induction a as [|x a IH]; [simpl; lia|]. cbn [app le_value length]. rewrite IH, Nat2Z.inj_succ, Z.pow_succ_r; lia.
Qed.
Lemma be_value_cons x l : be_value (x :: l) = x * 256 ^ Z.of_nat (length l) + be_value l.
Proof. unfold be_value. simpl. rewrite le_value_app, length_rev. simpl. lia. Qed.
Lemma be_value_range l : bytes_ok l -> 0 <= be_value l < 256 ^ Z.of_nat (length l).
Proof. intros H. unfold be_value. rewrite <- length_rev. apply le_value_range. auto with fluxkv. Qed.

(** The prefixes compare as the padded bytes do. *)
Lemma be_value_compare a b : bytes_ok a -> bytes_ok b -> length a = length b ->
  (be_value a <? be_value b) = bytes_lt a b /\ (be_value a = be_value b <-> a = b).
Proof.
  revert b. induction a as [|x a IH]; intros [|y b] Ha Hb Hl; simplify_eq/=; [done|].
  inversion_clear Ha as [|? ? Hx Ha']. inversion_clear Hb as [|? ? Hy Hb']. destruct (IH b Ha' Hb' Hl) as [Hlt Heq].
  pose proof (be_value_range a Ha'). pose proof (be_value_range b Hb'). rewrite !be_value_cons, Hl in *.
  set (w := 256 ^ Z.of_nat (length b)) in *. unfold byte_ok in *.
  destruct (x <? y) eqn:E1; b2p; [split; [apply Z.ltb_lt; nia|split; [nia|congruence]]|].
  destruct (y <? x) eqn:E2; b2p; [split; [apply Z.ltb_ge; nia|split; [nia|intros [= -> _]; lia]]|].
  assert (x = y) as -> by lia. split.
  - rewrite <- Hlt. destruct (be_value a <? be_value b) eqn:E; b2p; [apply Z.ltb_lt|apply Z.ltb_ge]; lia.
  - split; [intros; f_equal; apply Heq; lia|]. intros [= ->]. done.
Qed.

Lemma be_value_pad_nil n : be_value (pad n []) = 0.
Proof. induction n as [|n IH]; [done|]. cbn [pad]. rewrite be_value_cons, IH. lia. Qed.

Lemma prefixLoop_spec k j p : bytes_ok k -> 0 <= j -> j + Z.of_nat (length k) <= 8 -> 0 <= p ->
  p mod 2 ^ (64 - 8 * j) = 0 -> prefixLoop k j p = p + be_value (pad (Z.to_nat (8 - j)) k).
Proof.
  revert j p. induction k as [|c k IH]; intros j p Hk Hj Hlen Hp Hm.
  - simpl. rewrite be_value_pad_nil. lia.
  - inversion_clear Hk as [|? ? Hc Hk']. cbn [length] in Hlen. cbn [prefixLoop].
    replace (Z.to_nat (8 - j)) with (S (Z.to_nat (8 - (j + 1)))) by lia. cbn [pad].
    rewrite be_value_cons, length_pad, u8_small by done.
    replace (256 ^ Z.of_nat (Z.to_nat (8 - (j + 1)))) with (2 ^ (56 - 8 * j))
      by (change 256 with (2 ^ 8); rewrite <- Z.pow_mul_r by lia; f_equal; lia).
    assert (Hsplit : 2 ^ (64 - 8 * j) = 256 * 2 ^ (56 - 8 * j))
      by (replace (64 - 8 * j) with (8 + (56 - 8 * j)) by lia; rewrite Z.pow_add_r by lia; done).
    assert (0 < 2 ^ (56 - 8 * j)) by (apply Z.pow_pos_nonneg; lia). unfold byte_ok in Hc.
    assert (Hor : Z.lor p (Z.shiftl c (56 - 8 * j)) = p + c * 2 ^ (56 - 8 * j)).
    { rewrite Z.shiftl_mul_pow2 by lia. rewrite <- Z.add_lor_land.
      assert (Z.land p (c * 2 ^ (56 - 8 * j)) = 0) as ->; [|lia].
      apply Z.bits_inj'. intros i Hi. rewrite Z.land_spec, Z.bits_0.
      destruct (Z.lt_ge_cases i (64 - 8 * j)).
      - rewrite <- (Z.mod_pow2_bits_low p (64 - 8 * j)) by lia. rewrite Hm, Z.bits_0. done.
      - rewrite (Z.bits_above_log2 (c * _)) ; [apply andb_false_r|nia|].
        destruct (decide (c = 0)) as [->|]; [simpl; lia|]. apply Z.log2_lt_pow2; [nia|].
        eapply Z.lt_le_trans; [|apply Z.pow_le_mono_r; [lia|eassumption]]. nia. }
    rewrite Hor. rewrite IH; [lia|done|lia|lia|nia|].
    replace (64 - 8 * (j + 1)) with (56 - 8 * j) by lia.
    apply Z.mod_divide in Hm as [q ->]; [|lia]. rewrite Hsplit.
    replace (q * (256 * 2 ^ (56 - 8 * j)) + c * 2 ^ (56 - 8 * j)) with ((q * 256 + c) * 2 ^ (56 - 8 * j)) by lia.
    apply Z.mod_mul. lia.
Qed.

Lemma pad_take n k : (n <= length k)%nat -> pad n k = take n k.
Proof. revert k. induction n; intros [|c k] Hl; simpl in *; try lia; [done..|]. f_equal. apply IHn. lia. Qed.

Lemma keyPrefix_spec k : bytes_ok k -> keyPrefix k = be_value (pad 8 k).
Proof.
  intros Hk. unfold keyPrefix. destruct (8 <=? length k)%nat eqn:E; b2p.
  - rewrite pad_take by lia. unfold bswap, be_value. f_equal. f_equal.
    assert (Hl : length (take 8 k) = 8%nat) by (rewrite length_take; lia). rewrite <- Hl at 1.
    apply le_bytes_value. auto with fluxkv.
  - rewrite prefixLoop_spec; [done|done|lia|lia|lia|done].
Qed.

Lemma bytes_lt_irrefl a : bytes_lt a a = false.
Proof. induction a as [|x a IH]; [done|]. simpl. by rewrite Z.ltb_irrefl. Qed.
Lemma bytes_lt_trans a b c : bytes_lt a b = true -> bytes_lt b c = true -> bytes_lt a c = true.
Proof.
  revert b c. induction a as [|x a IH]; intros [|y b] [|z c]; simpl; try done.
  destruct (x <? y) eqn:E1, (y <? z) eqn:E2, (x <? z) eqn:E3; b2p; try done; try lia;
    destruct (y <? x) eqn:E4, (z <? y) eqn:E5, (z <? x) eqn:E6; b2p; try done; try lia. apply IH.
Qed.
Lemma bytes_lt_total a b : bytes_lt a b = false -> bytes_lt b a = false -> a = b.
Proof.
  revert b. induction a as [|x a IH]; intros [|y b]; simpl; try done.
  destruct (x <? y) eqn:E1, (y <? x) eqn:E2; b2p; try done. intros H1 H2. f_equal; [lia|eauto].
Qed.

(** Different paddings order the keys; keys with equal paddings and no more
    than [n] bytes are ordered by length. *)
Lemma pad_order n a b : bytes_ok a -> bytes_ok b -> pad n a <> pad n b ->
  bytes_lt (pad n a) (pad n b) = bytes_lt a b.
Proof.
  revert a b. induction n as [|n IH]; intros a b Ha Hb Hne; [done|].
  destruct a as [|x a], b as [|y b]; cbn [pad bytes_lt] in *; [done|..].
  - inversion_clear Hb as [|? ? Hy Hb']. unfold byte_ok in Hy. destruct (0 <? y) eqn:E; b2p; [done|].
    assert (y = 0) as -> by lia. rewrite Z.ltb_irrefl. rewrite IH; [|done|done|congruence].
    destruct b; [by destruct Hne|done].
  - inversion_clear Ha as [|? ? Hx Ha']. unfold byte_ok in Hx. destruct (x <? 0) eqn:E; b2p; [lia|].
    destruct (0 <? x) eqn:E'; b2p; [done|]. assert (x = 0) as -> by lia. rewrite IH; [|done|done|congruence].
    by destruct a.
  - inversion_clear Ha. inversion_clear Hb. destruct (x <? y) eqn:E; [done|]. destruct (y <? x) eqn:E'; [done|].
    b2p. assert (x = y) as -> by lia. apply IH; try done. congruence.
Qed.

Lemma pad_short n a b : bytes_ok a -> bytes_ok b -> pad n a = pad n b ->
  (length a <= n)%nat -> (length b <= n)%nat ->
  bytes_lt a b = (length a <? length b)%nat /\ (length a = length b <-> a = b).
Proof.
  revert a b. induction n as [|n IH]; intros a b Ha Hb He Hla Hlb.
  - destruct a, b; simpl in *; try lia. done.
  - destruct a as [|x a], b as [|y b]; cbn [pad bytes_lt length] in *; [done|done|..].
    + split; [done|split; [lia|done]].
    + injection He as <- He. inversion_clear Ha. inversion_clear Hb. rewrite Z.ltb_irrefl.
      destruct (IH a b) as [Hs1 Hs2]; try done; try lia. rewrite Hs1. split; [done|]. split.
      * intros [= Hl]. f_equal. by apply Hs2.
      * intros [= ->]. done.
Qed.

Section order.
Context (batch : list (list Z)).
Context (Hkeys : Forall bytes_ok batch) (Hsize : Z.of_nat (length batch) < 2 ^ 32).
Context (Hlens : Forall (fun k => Z.of_nat (length k) < 2 ^ 32) batch).

(** The sort key of the batch's [i]-th request. *)
Definition sk_of (a : SortKey) (i : nat) (k : list Z) : Prop :=
  batch !! i = Some k /\ a = sortKeyOf i k.

Lemma sk_fields a i k : sk_of a i k -> sk_prefix a = be_value (pad 8 k) /\ sk_idx a = Z.of_nat i /\
  sk_len a = Z.of_nat (length k) /\ fullKey batch (sk_idx a) = k /\ bytes_ok k.
Proof using Hkeys Hsize Hlens.
  intros [Hi ->]. pose proof (Forall_lookup_1 _ _ _ _ Hkeys Hi). pose proof (Forall_lookup_1 _ _ _ _ Hlens Hi) as Hl.
  apply lookup_lt_Some in Hi as Hlt. unfold sortKeyOf. cbn [sk_prefix sk_idx sk_len].
  rewrite keyPrefix_spec by done. simpl in Hl. rewrite !u32_small by lia. split_and!; try done.
  unfold fullKey. by rewrite Nat2Z.id, Hi.
Qed.

(** [sameKey] is equality of the keys. *)
Lemma sameKey_spec a i k b j k' : sk_of a i k -> sk_of b j k' -> sameKey batch a b = true <-> k = k'.
Proof using Hkeys Hsize Hlens.
  intros Ha Hb. apply sk_fields in Ha as (Pa & Ia & La & Fa & Oa), Hb as (Pb & Ib & Lb & Fb & Ob).
  unfold sameKey. rewrite Fa, Fb, Pa, Pb, La, Lb.
  pose proof (be_value_compare (pad 8 k) (pad 8 k')) as Hbe. rewrite !length_pad in Hbe.
  destruct Hbe as [_ Hbe]; [by apply bytes_ok_pad..|done|].
  rewrite !andb_true_iff, orb_true_iff, !Z.eqb_eq, Z.leb_le, bool_decide_eq_true. split.
  - intros [[Hp Hl] [Hs| ->]]; [|done]. apply (pad_short 8); try done; try lia. by apply Hbe.
  - intros ->. auto.
Qed.

(** The comparison is the lexicographic order of (key, arrival). *)
Definition lexless (k : list Z) (i : nat) (k' : list Z) (j : nat) : bool :=
  bytes_lt k k' || (bool_decide (k = k') && (i <? j)%nat).

Lemma less_spec a i k b j k' : sk_of a i k -> sk_of b j k' -> less batch a b = lexless k i k' j.
Proof using Hkeys Hsize Hlens.
  intros Ha Hb. apply sk_fields in Ha as (Pa & Ia & La & Fa & Oa), Hb as (Pb & Ib & Lb & Fb & Ob).
  unfold less, lexless. rewrite Fa, Fb, Pa, Pb, La, Lb, Ia, Ib.
  pose proof (be_value_compare (pad 8 k) (pad 8 k')) as Hbe. rewrite !length_pad in Hbe.
  destruct Hbe as [Hlt Hbe]; [by apply bytes_ok_pad..|done|].
  assert (Hij : (Z.of_nat i <? Z.of_nat j) = (i <? j)%nat)
    by (destruct (i <? j)%nat eqn:E; b2p; [apply Z.ltb_lt|apply Z.ltb_ge]; lia).
  destruct (be_value _ =? be_value _) eqn:E; b2p; cbn [negb].
  - apply Hbe in E. destruct ((Z.of_nat (length k) <=? 8) && _) eqn:Es; b2p.
    + destruct (pad_short 8 k k') as [Hs1 Hs2]; try done; try lia. rewrite Hs1, Hij.
      destruct (Z.of_nat (length k) =? Z.of_nat (length k')) eqn:El; b2p; cbn [negb].
      * rewrite bool_decide_true by (apply Hs2; lia).
        destruct (length k <? length k')%nat eqn:Ell; b2p; [lia|done].
      * rewrite bool_decide_false by (intros ->; lia). rewrite orb_false_r.
        destruct (length k <? length k')%nat eqn:Ell; b2p; [apply Z.ltb_lt|apply Z.ltb_ge]; lia.
    + destruct (decide (k = k')) as [->|Hne].
      * rewrite bool_decide_true by done. cbn [negb]. by rewrite bytes_lt_irrefl, Hij.
      * rewrite bool_decide_false by done. cbn [negb]. by rewrite orb_false_r.
  - rewrite Hlt, pad_order by (done || by intros He%Hbe).
    rewrite bool_decide_false by (intros ->; done). by rewrite orb_false_r.
Qed.

(** ** The sorted positions *)
Definition keyAt (i : nat) : list Z := default [] (batch !! i).
Definition before (i j : nat) : Prop := lexless (keyAt i) i (keyAt j) j = true.
Definition skAt (i : nat) : SortKey := sortKeyOf i (keyAt i).

Lemma sk_of_at i : (i < length batch)%nat -> sk_of (skAt i) i (keyAt i).
Proof using. intros Hi. apply lookup_lt_is_Some in Hi as [k Hk]. unfold skAt, keyAt. by rewrite Hk. Qed.

Lemma sortKeys_seq : sortKeys batch = skAt <$> seq 0 (length batch).
Proof using.
  unfold sortKeys. apply list_eq. intros i. rewrite list_lookup_imap, list_lookup_fmap.
  destruct (batch !! i) as [k|] eqn:Hk.
  - rewrite lookup_seq_lt by (by eapply lookup_lt_Some). simpl. unfold skAt, keyAt. by rewrite Hk.
  - rewrite lookup_seq_ge by (by apply lookup_ge_None). done.
Qed.

Lemma lexless_irrefl k i : lexless k i k i = false.
Proof using. unfold lexless. by rewrite bytes_lt_irrefl, Nat.ltb_irrefl, andb_false_r. Qed.

Lemma before_trans i j z : before i j -> before j z -> before i z.
Proof using.
  unfold before, lexless. rewrite !orb_true_iff, !andb_true_iff, !bool_decide_eq_true, !Nat.ltb_lt.
  intros [H1|[H1 H2]] [H3|[H3 H4]]; rewrite ?H1, ?H3 in *; eauto using bytes_lt_trans. right. split; [done|lia].
Qed.

Lemma before_total i j : before i j \/ i = j \/ before j i.
Proof using.
  unfold before, lexless. destruct (bytes_lt (keyAt i) (keyAt j)) eqn:E1; [auto|].
  destruct (bytes_lt (keyAt j) (keyAt i)) eqn:E2; [auto|]. rewrite (bytes_lt_total _ _ E1 E2).
  rewrite bool_decide_true by done. cbn [orb andb]. rewrite !Nat.ltb_lt. lia.
Qed.

Lemma notGreater_total : Total (notGreater batch).
Proof using.
  intros a b. unfold notGreater, less. rewrite (Z.eqb_sym (sk_prefix b)), (andb_comm (sk_len b <=? 8)), (Z.eqb_sym (sk_len b)).
  destruct (sk_prefix a =? sk_prefix b) eqn:E; b2p; cbn [negb]; [|rewrite !Z.ltb_ge; lia].
  destruct ((sk_len a <=? 8) && (sk_len b <=? 8)).
  { destruct (sk_len a =? sk_len b); cbn [negb]; rewrite !Z.ltb_ge; lia. }
  destruct (decide (fullKey batch (sk_idx a) = fullKey batch (sk_idx b))) as [->|Hne].
  { rewrite bool_decide_true by done. cbn [negb]. rewrite !Z.ltb_ge. lia. }
  rewrite !bool_decide_false by done. cbn [negb]. destruct (bytes_lt (fullKey _ (sk_idx b)) _) eqn:Eb; [|auto]. right.
  apply not_true_is_false. intros Ea. pose proof (bytes_lt_trans _ _ _ Ea Eb) as H. by rewrite bytes_lt_irrefl in H.
Qed.

(** The sorted array holds the batch's positions in key order, arrival order
    within a key. *)
Lemma sorted_positions (ks : list SortKey) : ks ≡ₚ sortKeys batch -> Sorted (notGreater batch) ks ->
  exists l, ks = skAt <$> l /\ l ≡ₚ seq 0 (length batch) /\ StronglySorted before l.
Proof using Hkeys Hsize Hlens.
  intros Hp Hs. rewrite sortKeys_seq in Hp. apply Permutation_map_inv in Hp as (l & -> & Hp).
  exists l. split; [done|]. split; [by symmetry|].
  assert (Hn : NoDup l) by (rewrite <- Hp; apply NoDup_seq).
  assert (Hr : forall i, i ∈ l -> (i < length batch)%nat) by (intros i; rewrite <- Hp, elem_of_seq; lia).
  clear Hp. apply Sorted_StronglySorted; [exact before_trans|].
  induction l as [|i l IH]; [done|]. simpl in Hs. apply Sorted_inv in Hs as [Hs Hhd]. apply NoDup_cons in Hn as [Hi Hn].
  constructor; [apply IH; [done|done|]; intros z Hz; apply Hr; by right|].
  destruct l as [|j l]; [constructor|]. simpl in Hhd. apply HdRel_inv in Hhd. constructor. unfold notGreater in Hhd.
  rewrite (less_spec _ j (keyAt j) _ i (keyAt i)) in Hhd by (apply sk_of_at, Hr; set_solver).
  destruct (before_total i j) as [?|[->|Hb]]; [done|set_solver|]. unfold before in Hb. congruence.
Qed.

(** [std::sort] has one possible result. *)
Lemma sort_unique ks : ks ≡ₚ sortKeys batch -> Sorted (notGreater batch) ks -> ks = sortedKeys batch.
Proof using Hkeys Hsize Hlens.
  intros Hp Hs. destruct (sorted_positions ks Hp Hs) as (l & -> & Hl & Hsl).
  destruct (sorted_positions (sortedKeys batch)) as (l' & -> & Hl' & Hsl');
    [apply merge_sort_Permutation|apply Sorted_merge_sort, notGreater_total|].
  f_equal. assert (Hp' : l ≡ₚ l') by (by rewrite Hl, Hl'). revert Hsl Hsl' Hp'. clear Hl Hl' Hs Hp. intros H1 H2 H3.
  set (R := fun i j => before i j \/ i = j).
  assert (Hw : forall x, StronglySorted before x -> StronglySorted R x).
  { induction 1 as [|i x _ IH Hi]; constructor; [done|]. eapply Forall_impl; [done|]. by left. }
  assert (AntiSymm (=) R).
  { intros i j [Hij| ->] [Hji|Hji]; try done. pose proof (before_trans _ _ _ Hij Hji) as H.
    unfold before in H. by rewrite lexless_irrefl in H. }
  apply (StronglySorted_unique R); auto.
Qed.

(** ** The newest write of each key *)
Definition newest (l : list nat) (i : nat) : Prop := Forall (fun j => keyAt j = keyAt i -> (j <= i)%nat) l.
#[local] Instance newest_dec l i : Decision (newest l i).
Proof. unfold newest. apply _. Defined.

Lemma newest_skip i l z : StronglySorted before (i :: l) -> z ∈ l -> newest (i :: l) z <-> newest l z.
Proof using.
  intros [_ Hi]%StronglySorted_inv Hz. unfold newest. rewrite Forall_cons. split; [tauto|]. intros H. split; [|done].
  intros Hk. rewrite Forall_forall in Hi. specialize (Hi z Hz). unfold before, lexless in Hi. rewrite Hk, bytes_lt_irrefl in Hi.
  rewrite bool_decide_true in Hi by done. cbn [orb andb] in Hi. b2p. lia.
Qed.

(** The head of a sorted run list is the newest of its key iff the next one has
    another key. *)
Lemma newest_head i l : StronglySorted before (i :: l) ->
  newest (i :: l) i <-> match l with [] => True | j :: _ => keyAt i <> keyAt j end.
Proof using.
  intros Hs. unfold newest. rewrite Forall_cons. destruct l as [|j l]; [split; [done|]; intros _; split; [lia|constructor]|].
  apply StronglySorted_inv in Hs as [Hs Hi]. assert (Hij := Forall_inv Hi). split.
  - intros [_ Hl] Hk. apply Forall_inv in Hl. unfold before, lexless in Hij. rewrite Hk, bytes_lt_irrefl in Hij.
    rewrite bool_decide_true in Hij by done. cbn [orb andb] in Hij. b2p. specialize (Hl (eq_sym Hk)). lia.
  - intros Hne. split; [lia|]. apply Forall_forall. intros z Hz Hk. exfalso.
    assert (Hlt : bytes_lt (keyAt i) (keyAt j) = true)
      by (unfold before, lexless in Hij; by rewrite bool_decide_false, orb_false_r in Hij).
    apply elem_of_cons in Hz as [->|Hz]; [by apply Hne|].
    apply StronglySorted_inv in Hs as [_ Hj]. rewrite Forall_forall in Hj. specialize (Hj z Hz).
    unfold before, lexless in Hj. rewrite orb_true_iff, andb_true_iff, bool_decide_eq_true in Hj.
    rewrite Hk in Hj. destruct Hj as [Hj|[Hj _]]; [|by rewrite Hj in Hne].
    pose proof (bytes_lt_trans _ _ _ Hlt Hj) as H. by rewrite bytes_lt_irrefl in H.
Qed.

Lemma splitRuns_spec l : StronglySorted before l -> (forall i, i ∈ l -> (i < length batch)%nat) ->
  splitRuns batch (skAt <$> l) = (filter (newest l) l, filter (fun i => ~ newest l i) l).
Proof using Hkeys Hsize Hlens.
  induction l as [|i l IH]; intros Hs Hr; [done|]. apply StronglySorted_inv in Hs as Hs'. destruct Hs' as [Hs' _].
  cbn [fmap list_fmap splitRuns]. fold (fmap (M := list) skAt). rewrite IH by (try done; intros; apply Hr; by right).
  assert (Hidx : Z.to_nat (sk_idx (skAt i)) = i).
  { destruct (sk_fields _ i _ (sk_of_at i (Hr i ltac:(left)))) as (_ & -> & _). lia. } rewrite Hidx.
  assert (Hf : filter (newest (i :: l)) l = filter (newest l) l /\
               filter (fun z => ~ newest (i :: l) z) l = filter (fun z => ~ newest l z) l).
  { pose proof (newest_skip i l) as Hk. split; apply filter_iff_in; intros z Hz; by rewrite Hk. }
  rewrite !filter_cons, (proj1 Hf), (proj2 Hf). pose proof (newest_head i l Hs) as Hh.
  destruct l as [|j l]; [rewrite decide_True, decide_False by tauto; done|].
  cbn [fmap list_fmap]. pose proof (sameKey_spec _ i (keyAt i) _ j (keyAt j)
    (sk_of_at i (Hr i ltac:(left))) (sk_of_at j (Hr j ltac:(right; left)))) as Hsame.
  destruct (sameKey batch (skAt i) (skAt j)).
  - rewrite decide_False, decide_True by tauto. done.
  - assert (keyAt i <> keyAt j) by (intros E; by apply Hsame in E). rewrite decide_True, decide_False by tauto. done.
Qed.
End order.

Lemma StronglySorted_filter_weaken {A} (R R' : A -> A -> Prop) (P : A -> Prop) `{!forall x, Decision (P x)} l :
  StronglySorted R l -> (forall x y, x ∈ l -> y ∈ l -> P x -> P y -> R x y -> R' x y) ->
  StronglySorted R' (filter P l).
Proof.
  induction 1 as [|x l _ IH Hx]; intros HR; [constructor|]. rewrite filter_cons.
  assert (IH' : StronglySorted R' (filter P l)) by (apply IH; intros y z Hy Hz; apply HR; by right).
  destruct (decide (P x)); [|done]. constructor; [done|]. apply Forall_forall. intros y [Hy Hyl]%list_elem_of_filter.
  rewrite Forall_forall in Hx. apply HR; [left|by right|done|done|auto].
Qed.

Lemma StronglySorted_omap {A B} (R : A -> A -> Prop) (R' : B -> B -> Prop) (f : A -> option B) l :
  StronglySorted R l -> (forall x y u v, R x y -> f x = Some u -> f y = Some v -> R' u v) ->
  StronglySorted R' (omap f l).
Proof.
  induction 1 as [|x l _ IH Hx]; intros HR; [constructor|]. simpl. destruct (f x) as [u|] eqn:Hu; [|auto].
  constructor; [auto|]. apply Forall_forall. intros v (y & Hy & Hv)%list_elem_of_omap.
  rewrite Forall_forall in Hx. eauto.
Qed.

Lemma omap_lookup_seq {A} (pre l : list A) : omap (fun i => (pre ++ l) !! i) (seq (length pre) (length l)) = l.
Proof.
  revert pre. induction l as [|x l IH]; intros pre; [done|]. cbn [length seq]. simpl.
  rewrite lookup_app_r, Nat.sub_diag by lia. simpl. f_equal. specialize (IH (pre ++ [x])).
  rewrite length_app, <- (assoc_L (++)) in IH. simpl in IH. by rewrite Nat.add_1_r in IH.
Qed.

(** [r] is the batch's [i]-th request and no later one has its key. *)
Definition newest_in {A} (key : A -> list Z) (batch : list A) (i : nat) (r : A) : Prop :=
  batch !! i = Some r /\ forall j r', (i < j)%nat -> batch !! j = Some r' -> key r' <> key r.

Lemma dedupe_spec {A} (key : A -> list Z) (batch : list A) :
  Forall (fun r => bytes_ok (key r) /\ Z.of_nat (length (key r)) < 2 ^ 32) batch ->
  Z.of_nat (length batch) < 2 ^ 32 ->
  let '(keep, dropped) := dedupe key batch in
  keep ++ dropped ≡ₚ batch /\
  StronglySorted (fun r r' => bytes_lt (key r) (key r') = true) keep /\
  forall r, r ∈ keep <-> exists i, newest_in key batch i r.
Proof.
  intros Hk Hsz. unfold dedupe. set (keys := key <$> batch).
  assert (Hk1 : Forall bytes_ok keys) by (apply Forall_fmap; eapply Forall_impl; [done|]; by intros ? []).
  assert (Hk2 : Forall (fun k => Z.of_nat (length k) < 2 ^ 32) keys)
    by (apply Forall_fmap; eapply Forall_impl; [done|]; by intros ? []).
  assert (Hlen : length keys = length batch) by apply length_fmap.
  destruct (sorted_positions keys Hk1 ltac:(by rewrite Hlen) Hk2 (sortedKeys keys)) as (l & -> & Hp & Hs);
    [apply merge_sort_Permutation|apply Sorted_merge_sort, notGreater_total|]. rewrite Hlen in Hp.
  assert (Hr : forall i, i ∈ l <-> (i < length batch)%nat) by (intros i; rewrite Hp, elem_of_seq; lia).
  rewrite (splitRuns_spec keys Hk1 ltac:(by rewrite Hlen) Hk2 l Hs) by (intros i; rewrite Hr, Hlen; done).
  assert (Hat : forall i r, batch !! i = Some r -> keyAt keys i = key r)
    by (intros i r Hi; unfold keyAt, keys; by rewrite list_lookup_fmap, Hi).
  split; [|split].
  - rewrite <- omap_app, filter_app_complement, Hp. apply reflexive_eq, (omap_lookup_seq [] batch).
  - eapply (StronglySorted_omap (fun i j => bytes_lt (keyAt keys i) (keyAt keys j) = true));
      [|by intros i j r r' Hlt <-%Hat <-%Hat].
    eapply StronglySorted_filter_weaken; [exact Hs|]. intros i j Hi Hj Hni _ Hb.
    unfold before, lexless in Hb. rewrite orb_true_iff, andb_true_iff, bool_decide_eq_true, Nat.ltb_lt in Hb.
    destruct Hb as [Hb|[Hb Hlt]]; [done|]. unfold newest in Hni. rewrite Forall_forall in Hni.
    specialize (Hni j Hj (eq_sym Hb)). lia.
  - intros r. rewrite list_elem_of_omap. split.
    + intros (i & [Hn Hi]%list_elem_of_filter & Hri). exists i. split; [done|]. intros j r' Hij Hrj He.
      unfold newest in Hn. rewrite Forall_forall in Hn.
      specialize (Hn j (proj2 (Hr j) (lookup_lt_Some _ _ _ Hrj))). rewrite (Hat _ _ Hri), (Hat _ _ Hrj) in Hn.
      specialize (Hn He). lia.
    + intros (i & Hri & Hn). exists i. split; [|done]. apply list_elem_of_filter.
      split; [|apply Hr; by eapply lookup_lt_Some]. apply Forall_forall. intros j Hj He.
      apply Hr, lookup_lt_is_Some in Hj as [r' Hrj]. rewrite (Hat _ _ Hri), (Hat _ _ Hrj) in He.
      destruct (decide (i < j)%nat); [|lia]. by destruct (Hn j r').
Qed.

(** The sort keeps, of every key, exactly the write that arrived last:
    survivors and dropped requests together are the batch, the survivors are in
    strictly increasing key order (so no key is written twice), and a request
    survives iff no later one in arrival order has its key. *)
Theorem dedupe_keeps_newest {A} (key : A -> list Z) (batch : list A) :
  Forall (fun r => bytes_ok (key r) /\ Z.of_nat (length (key r)) < 2 ^ 32) batch ->
  Z.of_nat (length batch) < 2 ^ 32 ->
  let '(keep, dropped) := dedupe key batch in
  keep ++ dropped ≡ₚ batch /\
  StronglySorted (fun r r' => bytes_lt (key r) (key r') = true) keep /\
  forall r, r ∈ keep <-> exists i, newest_in key batch i r.
Proof. apply dedupe_spec. Qed.

(** Six writes to four keys: two keys share an eight-byte prefix and two differ
    only by a trailing zero byte, which the padded prefixes do not tell apart. *)
Definition sample_batch : list (list Z * Z) :=
  [([97; 98], 0); ([1; 2; 3; 4; 5; 6; 7; 8; 9], 1); ([97; 98; 0], 2); ([97; 98], 3);
   ([1; 2; 3; 4; 5; 6; 7; 8], 4); ([1; 2; 3; 4; 5; 6; 7; 8; 9], 5)].

Lemma dedupe_keeps_newest_witness :
  snd <$> (dedupe fst sample_batch).1 = [4; 5; 3; 2] /\
  let '(keep, dropped) := dedupe fst sample_batch in keep ++ dropped ≡ₚ sample_batch.
Proof.
  split; [vm_compute; reflexivity|]. pose proof (dedupe_keeps_newest fst sample_batch) as H.
  destruct (dedupe fst sample_batch) as [keep dropped]. apply H.
  - repeat constructor; vm_compute; congruence.
  - vm_compute. reflexivity.
Defined.
