(* ===== verification/Magma.v ===== *)
(** * The storage engine's interface

    magma is a separate library; the server calls it through the operations
    below.  [stored m vbid] is the documents a lookup by key finds in a
    vbucket's store.  The laws are magma's documented behaviour: a [WriteDocs]
    that reports success has applied its operations in order, to that vbucket
    only, and a lookup returns the document stored, or [OkDocNotFound]. *)
From stdpp Require Import prelude gmap list.
From Stdlib Require Import ZArith Lia.
From S2P Require Import Prelude Request.
Open Scope Z_scope.

Inductive WriteOperation :=
  | NewDocUpsert (key meta value : list Z)
  | NewDocDelete (key meta : list Z).

Definition opKey (op : WriteOperation) : list Z :=
  match op with NewDocUpsert k _ _ => k | NewDocDelete k _ => k end.

Abbreviation store := (gmap (list Z) (list Z * list Z)).

Definition applyOp (st : store) (op : WriteOperation) : store :=
  match op with
  | NewDocUpsert k meta value => <[k := (meta, value)]> st
  | NewDocDelete k _ => delete k st
  end.
Definition applyOps (st : store) (ops : list WriteOperation) : store := foldl applyOp st ops.

Class Magma (M : Type) := {
  WriteDocs : M -> Z -> list WriteOperation -> M * Status;
  MagmaGet : M -> Z -> list Z -> Status * list Z * list Z;
  GetWALTailLSN : M -> Z;
  GetWALDurableLSN : M -> Z;
  stored : M -> Z -> store;
}.

Class MagmaLaws (M : Type) `{Magma M} : Prop := {
  WriteDocs_ok m vbid ops m' st : WriteDocs m vbid ops = (m', st) -> IsOK st = true ->
    stored m' vbid = applyOps (stored m vbid) ops /\
    forall vb, vb <> vbid -> stored m' vb = stored m vb;
  MagmaGet_found m vbid k meta value : stored m vbid !! k = Some (meta, value) ->
    MagmaGet m vbid k = (StOK, meta, value);
  MagmaGet_missing m vbid k : stored m vbid !! k = None ->
    exists meta value, MagmaGet m vbid k = (StOkDocNotFound, meta, value);
}.

(** The operation that decides a key's document is the last one naming it. *)
Lemma applyOps_lookup ops st k :
  applyOps st ops !! k =
    match list.last (filter (fun op => opKey op = k) ops) with
    | Some (NewDocUpsert _ meta value) => Some (meta, value)
    | Some (NewDocDelete _ _) => None
    | None => st !! k
    end.
Proof.
  unfold applyOps. induction ops as [|op ops IH] using rev_ind; [done|].
  rewrite foldl_app, filter_app. simpl. destruct (decide (opKey op = k)) as [Hk|Hk].
  - rewrite filter_cons_True, filter_nil, last_snoc by done. destruct op; simpl in *; subst;
      [by rewrite lookup_insert_eq|by rewrite lookup_delete_eq].
  - rewrite filter_cons_False, filter_nil, app_nil_r by done. rewrite <- IH. destruct op; simpl in *;
      [by rewrite lookup_insert_ne|by rewrite lookup_delete_ne].
Qed.

(** A store kept as one map per vbucket satisfies the interface. *)
Record MapMagma := mkMapMagma { mm_docs : Z -> store; mm_lsn : Z }.
#[export] Instance map_magma : Magma MapMagma := {
  WriteDocs m vbid ops :=
    (mkMapMagma (fun vb => if decide (vb = vbid) then applyOps (mm_docs m vb) ops else mm_docs m vb)
       (mm_lsn m + Z.of_nat (length ops)), StOK);
  MagmaGet m vbid k :=
    match mm_docs m vbid !! k with Some (meta, value) => (StOK, meta, value) | None => (StOkDocNotFound, [], []) end;
  GetWALTailLSN := mm_lsn;
  GetWALDurableLSN := mm_lsn;
  stored := mm_docs;
}.
#[export] Instance map_magma_laws : MagmaLaws MapMagma.
Proof.
  split; simpl.
  - intros m vbid ops m' st [= <- <-] _. simpl. split; [by rewrite decide_True|]. intros vb Hne. by rewrite decide_False.
  - intros m vbid k meta value ->. done.
  - intros m vbid k ->. eauto.
Qed.
