(* ===== verification/Persist.v ===== *)
(** * The write path of a writer thread (engine.cc, WriterPool)

    [executePersist] takes one vbucket's queued writes, keeps the newest of
    each key, gives them seqnos, writes them to magma in one batch, releases
    the cache pins and answers, parks or recycles every request it took.  The
    response callbacks posted to IO threads are collected in [w_posted];
    statistics counters and trace timestamps are left out. *)
From stdpp Require Import prelude gmap list sorting.
From Stdlib Require Import ZArith Lia.
From S2P Require Import Prelude Metadata Protocol DocCache Request WriteBatch Magma.
Open Scope Z_scope.

Inductive BatchSort := SortAuto | SortAlways | SortNever.

Record PersistConfig := mkPersistConfig {
  gBatchSort : BatchSort;
  gCompactMeta : bool;
  gAsyncDurable : bool;
  durable : bool;
  haveNotifier : bool;
  pc_engine : EngineConfig;
  sizeofRequest : Z;
}.

(** What a writer hands to other threads. *)
Inductive Posted :=
  | WriteResponse (p : ptr)
  | Parked (loop : ptr) (l : list ptr)
  | LedgerBytes (lsn bytes : Z)
  | Awaiting (lsn : Z) (st : Status) (bytes : Z) (l : list ptr).

Record Writer (M S : Type) := mkWriter {
  w_bucket : Bucket;
  w_magma : M;
  w_cache : option S;
  w_posted : list Posted;
}.
Arguments mkWriter {M S}. Arguments w_bucket {M S}. Arguments w_magma {M S}.
Arguments w_cache {M S}. Arguments w_posted {M S}.

(** ** Releasing a vbucket

    With nothing running in between, the recheck after [scheduled = false]
    finds what the queue holds; the interleavings with pushing threads are the
    subject of the ownership protocol. *)
Definition releaseVBQueue (b : Bucket) (vbid enqueuedNs : Z) : option Bucket :=
  q ← GetVBWriteQueue b vbid;
  let retask := bool_decide (vq_list q <> None) in
  let q' := mkVBQueue (vq_list q) retask (vq_pending q) (vq_lastWriteNs q) in
  onVB b vbid (fun s =>
    let s1 := set_vbq vbid q' s in
    Some (if retask then with_tasks s1 (taskQueue s1 ++ [mkPersistTask vbid enqueuedNs]) (deferQueue s1) else s1)).

Definition releaseVBQueueAfterWrite (cfg : EngineConfig) (b : Bucket) (vbid now : Z) : option Bucket :=
  q ← GetVBWriteQueue b vbid;
  let retask := bool_decide (vq_list q <> None) in
  let q' := mkVBQueue (vq_list q) retask (vq_pending q) (vq_lastWriteNs q) in
  onVB b vbid (fun s =>
    let s1 := set_vbq vbid q' s in
    Some (if retask then SubmitOrDefer cfg s1 vbid q' now else s1)).

(** ** Deciding whether to sort *)
Definition kDupSampleMax : nat := 128.

Fixpoint dupLoop (fuel : nat) (batch : list (list Z)) (i stride want sampled dups : nat) (seen : list Z)
    : nat * nat :=
  match fuel with
  | O => (dups, sampled)
  | S f =>
      if (sampled <? want)%nat then
        match batch !! i with
        | None => (dups, sampled)
        | Some k =>
            let p := keyPrefix k in
            dupLoop f batch (i + stride) stride want (S sampled)
              (if bool_decide (p ∈ seen) then S dups else dups) (p :: seen)
        end
      else (dups, sampled)
  end.

(** The fraction as (repeats, sampled); (0, 1) is the literal [0.0].  Each
    round samples one request, so [want] rounds of fuel are enough. *)
Definition estimateDupFraction (batch : list (list Z)) : nat * nat :=
  let n := length batch in
  let want := Nat.min n kDupSampleMax in
  let stride := Nat.max 1 (n / want) in
  let '(dups, sampled) := dupLoop want batch 0 stride want 0 0 [] in
  if (1 <? sampled)%nat then (dups, sampled) else (0, 1)%nat.

Section persist.
Context {M S : Type} `{Magma M} `{DocCache S}.
Context (cfg : PersistConfig).
(** Whether the double [dups / sampled] reaches [gSortDupThreshold]. *)
Context (reachesThreshold : nat * nat -> bool).

Definition doSort (batch : list (list Z)) : bool :=
  (1 <? length batch)%nat &&
  match gBatchSort cfg with
  | SortAlways => true
  | SortAuto => reachesThreshold (estimateDupFraction batch)
  | SortNever => false
  end.

(** The batch written and the requests dropped from it. *)
Definition chooseBatch (batch : list (ptr * Request)) : list (ptr * Request) * list (ptr * Request) :=
  let key := fun pr : ptr * Request => r_key pr.2 in
  if doSort (key <$> batch) then dedupe key batch else (batch, []).

(** ** Building the operations *)
Definition isDelete (r : Request) : bool := r_opcode r =? opcode_value OpDelete.

Definition metaOf (r : Request) (seqno cas : Z) : DocMeta :=
  mkDocMeta seqno cas (u32 (Z.of_nat (length (r_value r)))) (r_flags r) (r_expiry r)
    (if isDelete r then 1 else 0) (r_datatype r).
Definition metaBytes (dm : DocMeta) : list Z := if gCompactMeta cfg then encodeCompact dm else encode dm.
Definition opOf (r : Request) (seqno cas : Z) : WriteOperation :=
  let meta := metaBytes (metaOf r seqno cas) in
  if isDelete r then NewDocDelete (r_key r) meta else NewDocUpsert (r_key r) meta (r_value r).

Fixpoint buildOps (s : EShard) (h : rheap) (vbid cas : Z) (l : list (ptr * Request))
    : option (EShard * rheap * list WriteOperation) :=
  match l with
  | [] => Some (s, h, [])
  | (p, r) :: l' =>
      '(s1, seqno) ← NextSeqno s vbid;
      r1 ← h !! p;
      '(s2, h2, ops) ← buildOps s1 (<[p := set_seqno seqno r1]> h) vbid cas l';
      Some (s2, h2, opOf r seqno cas :: ops)
  end.

(** ** Releasing the pins: [MarkPersisted] for every request written *)
Fixpoint markAll (c : S) (h : rheap) (vbid : Z) (ok : bool) (l : list ptr) : option S :=
  match l with
  | [] => Some c
  | p :: l' =>
      r ← h !! p;
      c' ← MarkPersisted c vbid (r_key r) (if ok then r_resultSeqno r else 0);
      markAll c' h vbid ok l'
  end.

(** ** Completion *)
Definition ownerLe (x y : option ptr * ptr) : Prop :=
  match x.1, y.1 with
  | None, _ => True
  | Some _, None => False
  | Some a, Some b => (a <= b)%positive
  end.
#[global] Instance ownerLe_dec x y : Decision (ownerLe x y).
Proof. unfold ownerLe. destruct x.1, y.1; apply _. Defined.

(** Maximal runs of one owner. *)
Fixpoint ownerRuns (l : list (option ptr * ptr)) : list (option ptr * list ptr) :=
  match l with
  | [] => []
  | (o, p) :: l' =>
      match ownerRuns l' with
      | (o', g) :: gs => if decide (o = o') then (o, p :: g) :: gs else (o, [p]) :: (o', g) :: gs
      | [] => [(o, [p])]
      end
  end.

Definition parkRuns (runs : list (option ptr * list ptr)) : list Posted * list ptr :=
  foldr (fun g acc => match g.1 with
                      | Some t => (Parked t g.2 :: acc.1, acc.2)
                      | None => (acc.1, g.2 ++ acc.2)
                      end) ([], []) runs.

Definition setAll (f : Request -> Request) (h : rheap) (l : list ptr) : rheap :=
  foldr (fun p h => alter f p h) h l.

(** The requests wait for the log to reach [lsn]: parked on the IO loops that
    answer them, or on the shard's completion thread. *)
Definition parkBatch (h : rheap) (lsn bytes : Z) (st : Status) (l : list ptr) : rheap * list Posted :=
  if haveNotifier cfg then
    let h' := setAll (set_durableLsn lsn) h l in
    let owned := (fun p => (h' !! p ≫= r_ioOwner, p)) <$> l in
    let '(parked, orphans) := parkRuns (ownerRuns (merge_sort ownerLe owned)) in
    (h', parked ++ (match orphans with [] => [] | _ => [Awaiting lsn st 0 orphans] end) ++ [LedgerBytes lsn bytes])
  else (h, [Awaiting lsn st bytes l]).

(** Async mode: reset the requests, chain them and hand the chain to the
    shard's pool; a full pool means they are deleted. *)
Fixpoint chainAll (h : rheap) (l : list ptr) : rheap :=
  match l with
  | [] => h
  | p :: l' => alter (fun r => set_hook (head l') (reset r)) p (chainAll h l')
  end.
Definition recycleBatch (s : EShard) (h : rheap) (l : list ptr) : option (EShard * rheap) :=
  match l with
  | [] => Some (s, h)
  | p :: _ =>
      let h1 := alter (set_chainLen (u32 (Z.of_nat (length l)))) p (chainAll h l) in
      '(s', ok) ← RecycleRequests h1 s p;
      Some (s', if (ok : bool) then h1 else foldr delete h1 l)
  end.

Definition batchBytes (h : rheap) (l : list ptr) : Z := sizes (sizeofRequest cfg) h l.

(** What happens to the batch after the write: [s] and [h] are the shard and
    the heap then, [all] the requests written and dropped. *)
Definition complete (b : Bucket) (s : EShard) (h : rheap) (vbid now lsn : Z) (st : Status) (all : list ptr)
    : option (Bucket * list Posted) :=
  let bytes := batchBytes h all in
  if durable cfg && gAsyncDurable cfg && IsOK st then
    let '(h2, posted) := parkBatch h lsn bytes st all in
    b1 ← onVB (with_heap b h2) vbid (fun _ => Some s);
    b2 ← releaseVBQueueAfterWrite (pc_engine cfg) b1 vbid now;
    Some (b2, posted)
  else
    let b0 := with_queued b (u64 (queuedBytes b - bytes)) in
    if durable cfg then
      b1 ← onVB (with_heap b0 (setAll (set_status st) h all)) vbid (fun _ => Some s);
      b2 ← releaseVBQueueAfterWrite (pc_engine cfg) b1 vbid now;
      Some (b2, WriteResponse <$> all)
    else
      '(s', h2) ← recycleBatch s h all;
      b1 ← onVB (with_heap b0 h2) vbid (fun _ => Some s');
      b2 ← releaseVBQueueAfterWrite (pc_engine cfg) b1 vbid now;
      Some (b2, []).

(** ** executePersist *)
Definition persistBatch (w : Writer M S) (b : Bucket) (vbid cas tWritten now : Z) (swept : list ptr)
    : option (Writer M S) :=
  batch ← mapM (fun p => r ← b_heap b !! p; Some (p, r)) (reverse swept);
  let '(kept, dropped) := chooseBatch batch in
  s ← b_shards b !! shardOf b vbid;
  '(s1, h1, ops) ← buildOps s (b_heap b) vbid cas kept;
  let '(m', st) := WriteDocs (w_magma w) vbid ops in
  q ← vbWriteQueues s1 !! Z.to_nat vbid;
  let s2 := set_vbq vbid (mkVBQueue (vq_list q) (vq_scheduled q) (vq_pending q) tWritten) s1 in
  cache' ← match w_cache w with
           | Some c => c' ← markAll c h1 vbid (IsOK st) kept.*1; Some (Some c')
           | None => Some None
           end;
  '(b2, posted) ← complete b s2 h1 vbid now (GetWALTailLSN m') st (kept.*1 ++ dropped.*1);
  Some (mkWriter b2 m' cache' (w_posted w ++ posted)).

Definition executePersist (w : Writer M S) (vbid cas tWritten now : Z) : option (Writer M S * Z) :=
  let b := w_bucket w in
  q ← GetVBWriteQueue b vbid;
  '(h1, head, swept) ← sweepOnce (b_heap b) (vq_list q);
  let q1 := mkVBQueue head (vq_scheduled q) (u32 (vq_pending q - Z.of_nat (length swept))) (vq_lastWriteNs q) in
  b1 ← onVB (with_heap b h1) vbid (fun s => Some (set_vbq vbid q1 s));
  match swept with
  | [] =>
      b2 ← releaseVBQueue b1 vbid 0;
      Some (mkWriter b2 (w_magma w) (w_cache w) (w_posted w), 0)
  | _ =>
      w' ← persistBatch w b1 vbid cas tWritten now swept;
      Some (w', Z.of_nat (length swept))
  end.
End persist.

(** ** The operations written *)
Section laws.
Context {M S : Type} `{MG : Magma M, MGL : !MagmaLaws M} `{DC : DocCache S, DCL : !DocCacheLaws S}.
Context (cfg : PersistConfig) (reachesThreshold : nat * nat -> bool).

Abbreviation key_of := (fun pr : ptr * Request => r_key pr.2).
Definition keys_ok (batch : list (ptr * Request)) : Prop :=
  Forall (fun pr => bytes_ok (r_key pr.2) /\ Z.of_nat (length (r_key pr.2)) < 2 ^ 32) batch /\
  Z.of_nat (length batch) < 2 ^ 32.

(** Whether or not the batch is sorted, every request is kept or dropped, and
    the last kept request of a key is the last one of the batch. *)
Lemma chooseBatch_spec batch : keys_ok batch ->
  let '(kept, dropped) := chooseBatch cfg reachesThreshold batch in
  kept ++ dropped ≡ₚ batch /\
  forall k, list.last (filter (fun pr => key_of pr = k) kept) = list.last (filter (fun pr => key_of pr = k) batch).
Proof.
  intros [Hk Hn]. unfold chooseBatch. destruct (doSort _ _ _); [|by rewrite app_nil_r].
  pose proof (dedupe_spec key_of batch Hk Hn) as Hd. destruct (dedupe key_of batch) as [kept dropped].
  destruct Hd as (Hp & _ & Hnew). split; [done|]. intros k.
  destruct (list.last (filter _ kept)) as [r|] eqn:Hl; symmetry.
  - apply last_filter_Some in Hl as (Hr & i & Hi & _). apply list_elem_of_lookup_2, Hnew in Hi as (j & Hj & Hlater).
    apply last_filter_Some. split; [done|]. exists j. split; [done|]. intros z r' Hz Hrz He.
    apply (Hlater z r' Hz Hrz). congruence.
  - destruct (list.last (filter _ batch)) as [r|] eqn:Hb; [|done]. exfalso.
    apply last_filter_Some in Hb as (Hr & i & Hi & Hlater). rewrite last_filter_None in Hl.
    apply (Hl r); [|done]. apply Hnew. exists i. split; [done|]. intros j r' Hj Hrj He.
    apply (Hlater j r' Hj Hrj). congruence.
Qed.

Lemma buildOps_spec l s h vbid cas n : seqnos s !! Z.to_nat vbid = Some n ->
  0 <= n -> n + Z.of_nat (length l) < 2 ^ 64 -> NoDup l.*1 -> (forall p, p ∈ l.*1 -> is_Some (h !! p)) ->
  exists s1 h1, buildOps cfg s h vbid cas l = Some (s1, h1, imap (fun i pr => opOf cfg pr.2 (n + 1 + Z.of_nat i) cas) l) /\
    s1 = with_seqnos s (seqnos s1) /\ length (seqnos s1) = length (seqnos s) /\
    seqnos s1 !! Z.to_nat vbid = Some (n + Z.of_nat (length l)) /\
    (forall p, p ∉ l.*1 -> h1 !! p = h !! p) /\
    (forall i p r, l !! i = Some (p, r) -> exists r0, h !! p = Some r0 /\ h1 !! p = Some (set_seqno (n + 1 + Z.of_nat i) r0)).
Proof.
  revert s h n. induction l as [|[p r] l IH]; intros s h n Hn Hn0 Hlen Hnd Hh.
  - exists s, h. simpl. rewrite Z.add_0_r. split_and!; try done. by destruct s.
  - simpl in Hlen, Hnd. apply NoDup_cons in Hnd as [Hp Hnd]. destruct (Hh p) as [r1 Hr1]; [left|].
    simpl. unfold NextSeqno. rewrite Hn. cbn [mbind option_bind]. rewrite Hr1. cbn [mbind option_bind].
    rewrite u64_small by lia.
    destruct (IH (with_seqnos s (<[Z.to_nat vbid := n + 1]> (seqnos s))) (<[p := set_seqno (n + 1) r1]> h) (n + 1))
      as (s2 & h2 & Hb & Hs2 & Hl2 & Hn2 & Hfr & Hset).
    { apply list_lookup_insert_eq. by eapply lookup_lt_Some. } { lia. } { lia. } { done. }
    { intros q Hq. rewrite lookup_insert_is_Some'. right. apply Hh. by right. }
    rewrite Hb. exists s2, h2. split; [|split; [|split; [|split; [|split]]]].
    + cbn [mbind option_bind]. rewrite Z.add_0_r.
      assert (imap (fun i pr => opOf cfg pr.2 (n + 1 + 1 + Z.of_nat i) cas) l =
              imap ((fun i pr => opOf cfg pr.2 (n + 1 + Z.of_nat i) cas) ∘ Datatypes.S) l) as ->; [|done].
      apply imap_ext. intros i pr _. unfold compose. f_equal. lia.
    + by rewrite Hs2.
    + by rewrite Hl2; cbn [with_seqnos seqnos]; rewrite length_insert.
    + rewrite Hn2. f_equal. simpl length. lia.
    + intros q Hq. apply not_elem_of_cons in Hq as [Hne Hq]. rewrite Hfr by done. by apply lookup_insert_ne.
    + intros [|i] q rq Hq; simpl in Hq.
      * simplify_eq. exists r1. split; [done|]. rewrite Hfr by done. rewrite lookup_insert_eq. do 2 f_equal. lia.
      * destruct (Hset i q rq Hq) as (r0 & Hr0 & Hr0'). assert (q <> p).
        { intros ->. apply Hp, list_elem_of_fmap. exists (p, rq). split; [done|]. by eapply list_elem_of_lookup_2. }
        rewrite lookup_insert_ne in Hr0 by done. exists r0. split; [done|]. rewrite Hr0'. do 2 f_equal. lia.
Qed.

(** The operation that decides key [k] is built from the last request of [k]. *)
Lemma ops_last n cas (l : list (ptr * Request)) k :
  match list.last (filter (fun pr => key_of pr = k) l) with
  | Some pr => exists i, (i < length l)%nat /\
      list.last (filter (fun op => opKey op = k) (imap (fun i pr => opOf cfg pr.2 (n + Z.of_nat i) cas) l)) =
        Some (opOf cfg pr.2 (n + Z.of_nat i) cas)
  | None => list.last (filter (fun op => opKey op = k) (imap (fun i pr => opOf cfg pr.2 (n + Z.of_nat i) cas) l)) = None
  end.
Proof.
  assert (Hkey : forall r q, opKey (opOf cfg r q cas) = r_key r) by (intros r q; unfold opOf; by destruct (isDelete r)).
  destruct (list.last _) as [pr|] eqn:Hl.
  - apply last_filter_Some in Hl as (Hk & i & Hi & Hlater). exists i. split; [by eapply lookup_lt_Some|].
    apply last_filter_Some. split; [by rewrite Hkey|]. exists i. rewrite list_lookup_imap, Hi. split; [done|].
    intros j op Hj Hop. rewrite list_lookup_imap in Hop. destruct (l !! j) as [pj|] eqn:Hlj; [|done].
    simplify_eq/=. rewrite Hkey. by apply (Hlater j pj).
  - apply last_filter_None. pose proof (proj1 (last_filter_None _ _) Hl) as Hn. intros op Hop. apply elem_of_lookup_imap in Hop as (i & pr & -> & Hi).
    rewrite Hkey. apply (Hn pr). by eapply list_elem_of_lookup_2.
Qed.

(** ** The pins *)

(** One [MarkPersisted] after another. *)
Fixpoint marks (A : docs) (ks : list (list Z * Z)) (A' : docs) : Prop :=
  match ks with
  | [] => A' = A
  | (k, seqno) :: ks' => exists A1, markPersisted_spec A k seqno A1 /\ marks A1 ks' A'
  end.

(** Every resident key has a pin for each acknowledgement to come. *)
Definition covered (A : docs) (ks : list (list Z)) : Prop :=
  forall k d, A !! k = Some d -> Z.of_nat (length (filter (eq k) ks)) <= d_pending d.

Lemma covered_mark A k ks seqno A' : covered A (k :: ks) -> markPersisted_spec A k seqno A' -> covered A' ks.
Proof.
  intros Hc Hm k' d Hd. unfold markPersisted_spec in Hm. destruct (A !! k) as [d0|] eqn:Hk.
  - destruct Hm as [Hsub _]. apply (lookup_weaken _ _ _ _ Hd) in Hsub. destruct (decide (k' = k)) as [->|Hne].
    + rewrite lookup_insert_eq in Hsub. simplify_eq/=. specialize (Hc k d0 Hk).
      rewrite filter_cons_True in Hc by done. simpl in Hc. lia.
    + rewrite lookup_insert_ne in Hsub by done. specialize (Hc k' d Hsub). by rewrite filter_cons_False in Hc.
  - subst A'. specialize (Hc k' d Hd). rewrite filter_cons in Hc. destruct (decide (k' = k)); simpl in Hc; lia.
Qed.

Lemma markAll_spec l c A h vbid ok : cache_rep c A -> is_uint 16 vbid ->
  (forall p, p ∈ l -> is_Some (h !! p)) ->
  covered A ((fun p => docKey vbid (from_option r_key [] (h !! p))) <$> l) ->
  exists c' A', markAll c h vbid ok l = Some c' /\ cache_rep c' A' /\
    marks A ((fun p => (docKey vbid (from_option r_key [] (h !! p)),
                        if ok then from_option r_resultSeqno 0 (h !! p) else 0)) <$> l) A'.
Proof.
  revert c A. induction l as [|p l IH]; intros c A Hrep Hv Hh Hc; [by exists c, A|].
  destruct (Hh p) as [r Hr]; [left|]. simpl in Hc |- *. rewrite Hr in *. cbn [mbind option_bind from_option] in *.
  destruct (MarkPersisted_law c A vbid (r_key r) (if ok then r_resultSeqno r else 0) Hrep Hv) as (c1 & A1 & Hm & Hr1 & Hs1).
  { intros d Hd. specialize (Hc _ _ Hd). rewrite filter_cons_True in Hc by done. simpl in Hc. unfold pinned. lia. }
  rewrite Hm. cbn [mbind option_bind]. destruct (IH c1 A1 Hr1 Hv) as (c' & A' & Hm' & Hr' & Hs').
  { intros q Hq. apply Hh. by right. } { by eapply covered_mark. }
  exists c', A'. split; [done|]. split; [done|]. by exists A1.
Qed.

(** ** Parking *)
Definition postedReqs (l : list Posted) : list ptr :=
  l ≫= fun x => match x with WriteResponse p => [p] | Parked _ g => g | LedgerBytes _ _ => [] | Awaiting _ _ _ g => g end.
Definition postedBytes (l : list Posted) : Z :=
  foldr (fun x n => match x with LedgerBytes _ b => b + n | Awaiting _ _ b _ => b + n | _ => n end) 0 l.

Lemma postedReqs_app a b : postedReqs (a ++ b) = postedReqs a ++ postedReqs b.
Proof. apply bind_app. Qed.

Lemma ownerRuns_concat l : ownerRuns l ≫= snd = snd <$> l.
Proof.
  induction l as [|[o p] l IH]; [done|]. cbn [ownerRuns]. change (snd <$> (o, p) :: l) with (p :: (snd <$> l)).
  rewrite <- IH. destruct (ownerRuns l) as [|[o' g] gs]; [done|]. by destruct (decide (o = o')).
Qed.

Lemma parkRuns_reqs runs : postedReqs (parkRuns runs).1 ++ (parkRuns runs).2 ≡ₚ runs ≫= snd.
Proof.
  induction runs as [|[[t|] g] runs IH]; [done|..]; simpl.
  - by rewrite <- IH, (assoc_L (++)).
  - rewrite <- IH. rewrite !(assoc_L (++)). apply Permutation_app_tail, Permutation_app_comm.
Qed.
Lemma parkRuns_bytes runs : postedBytes (parkRuns runs).1 = 0.
Proof. induction runs as [|[[t|] g] runs IH]; simpl; auto. Qed.

Lemma postedBytes_app a b : postedBytes (a ++ b) = postedBytes a + postedBytes b.
Proof. induction a as [|[] a IH]; simpl; rewrite ?IH; lia. Qed.

Lemma parkBatch_spec h lsn bytes st l :
  let '(_, posted) := parkBatch cfg h lsn bytes st l in
  postedReqs posted ≡ₚ l /\ postedBytes posted = bytes.
Proof.
  unfold parkBatch. destruct (haveNotifier cfg); [|simpl; rewrite app_nil_r; split; [done|lia]].
  set (owned := _ <$> l). pose proof (parkRuns_reqs (ownerRuns (merge_sort ownerLe owned))) as Hr.
  pose proof (parkRuns_bytes (ownerRuns (merge_sort ownerLe owned))) as Hb.
  rewrite ownerRuns_concat in Hr.
  assert (Ho : snd <$> merge_sort ownerLe owned ≡ₚ l).
  { rewrite (merge_sort_Permutation ownerLe owned). unfold owned. rewrite <- list_fmap_compose.
    apply reflexive_eq, list_fmap_id. }
  rewrite Ho in Hr. destruct (parkRuns _) as [parked orphans]. simpl in Hr, Hb.
  rewrite !postedReqs_app, !postedBytes_app, Hb. split.
  - rewrite <- Hr. apply Permutation_app_head. destruct orphans; simpl; by rewrite ?app_nil_r.
  - destruct orphans; simpl; lia.
Qed.

(** ** Recycling *)
Lemma chainAll_spec h l : NoDup l -> (forall p, p ∈ l -> is_Some (h !! p)) ->
  chain (chainAll h l) (head l) l None /\ (forall p, p ∉ l -> chainAll h l !! p = h !! p) /\
  (forall p, p ∈ l -> exists r v, h !! p = Some r /\ chainAll h l !! p = Some (set_hook v (reset r))).
Proof.
  induction l as [|p l IH]; intros Hn Hh; [split; [done|]; split; [done|]; by intros p ?%not_elem_of_nil|].
  apply NoDup_cons in Hn as [Hp Hn]. destruct IH as (Hc & Hfr & Hin); [done|intros q Hq; apply Hh; by right|].
  destruct (Hh p) as [r Hr]; [left|]. cbn [chainAll].
  assert (Hl : alter (fun r => set_hook (head l) (reset r)) p (chainAll h l) !! p = Some (set_hook (head l) (reset r)))
    by (rewrite lookup_alter_eq, Hfr, Hr by done; done).
  assert (Hne : forall q, q <> p -> alter (fun r => set_hook (head l) (reset r)) p (chainAll h l) !! q = chainAll h l !! q)
    by (intros q Hq; by apply lookup_alter_ne).
  split; [|split].
  - split; [done|]. eexists. split; [exact Hl|]. cbn [hook set_hook]. eapply chain_frame; [|exact Hc].
    intros q Hq. apply Hne. by intros ->.
  - intros q [Hqp Hq]%not_elem_of_cons. rewrite Hne by done. by apply Hfr.
  - intros q [->|Hq]%elem_of_cons; [by exists r, (head l)|]. rewrite Hne by (by intros ->). by apply Hin.
Qed.

Lemma lookup_foldr_delete (h : rheap) l p : foldr delete h l !! p = if decide (p ∈ l) then None else h !! p.
Proof.
  induction l as [|q l IH]; [by rewrite decide_False by apply not_elem_of_nil|]. simpl.
  destruct (decide (p = q)) as [->|Hne]; [rewrite lookup_delete_eq, decide_True by left; done|].
  rewrite lookup_delete_ne, IH by done. destruct (decide (p ∈ l)), (decide (p ∈ q :: l)); set_solver.
Qed.

(** The requests are chained into the pool, or gone. *)
Definition recycled (s s' : EShard) (h' : rheap) (l : list ptr) : Prop :=
  (exists p, head l = Some p /\ freeRequests s' = freeRequests s ++ [p] /\
     freeRequestCount s' = freeRequestCount s + Z.of_nat (length l) /\ chain h' (Some p) l None) \/
  (freeRequests s' = freeRequests s /\ forall p, p ∈ l -> h' !! p = None).

Lemma recycleBatch_spec s h l : NoDup l -> (forall p, p ∈ l -> is_Some (h !! p)) -> l <> [] ->
  Z.of_nat (length l) < 2 ^ 32 ->
  exists s' h', recycleBatch s h l = Some (s', h') /\ recycled s s' h' l /\
    vbWriteQueues s' = vbWriteQueues s /\ seqnos s' = seqnos s.
Proof.
  intros Hn Hh Hne Hlen. destruct l as [|p l]; [done|]. destruct (chainAll_spec h (p :: l) Hn Hh) as (Hc & Hfr & Hin).
  destruct (Hin p) as (r & v & Hr & Hr'); [left|]. unfold recycleBatch.
  set (h1 := alter _ p (chainAll h (p :: l))).
  assert (Hp : h1 !! p = Some (set_chainLen (Z.of_nat (length (p :: l))) (set_hook v (reset r))))
    by (unfold h1; rewrite lookup_alter_eq, Hr'; simpl fmap; rewrite u32_small by (simpl length in *; lia); done).
  unfold RecycleRequests. rewrite Hp. cbn [mbind option_bind r_chainLen set_chainLen].
  destruct (_ || _); eexists _, _; (split; [done|]); (split; [|by split]).
  - right. split; [done|]. intros q Hq. rewrite lookup_foldr_delete, decide_True; done.
  - left. exists p. split_and!; try done. destruct Hc as (_ & r0 & Hr0 & Hc). split; [done|].
    rewrite Hr' in Hr0. simplify_eq. eexists. split; [exact Hp|]. cbn [hook set_chainLen set_hook] in *.
    eapply chain_frame; [|exact Hc]. intros q Hq. apply lookup_alter_ne. intros ->. by apply NoDup_cons in Hn as [? _].
Qed.

(** ** Completion *)
Definition idleQueue (q : VBQueue) : VBQueue := mkVBQueue None false (vq_pending q) (vq_lastWriteNs q).

Lemma release_empty b vbid now s q : b_shards b !! shardOf b vbid = Some s ->
  vbWriteQueues s !! Z.to_nat vbid = Some q -> vq_list q = None ->
  exists b', releaseVBQueueAfterWrite (pc_engine cfg) b vbid now = Some b' /\ b_heap b' = b_heap b /\
    queuedBytes b' = queuedBytes b /\ GetVBWriteQueue b' vbid = Some (idleQueue q) /\
    b_shards b' !! shardOf b' vbid = Some (set_vbq vbid (idleQueue q) s).
Proof.
  intros Hs Hq Hl. unfold releaseVBQueueAfterWrite, GetVBWriteQueue at 1. rewrite Hs. cbn [mbind option_bind].
  rewrite Hq. cbn [mbind option_bind]. rewrite Hl, bool_decide_false by (intros H'; by apply H').
  destruct (onVB_spec b vbid (fun s => Some (set_vbq vbid (idleQueue q) s)) s _ Hs eq_refl)
    as (b' & Ho & Hh & Hqb & _ & Hso & _ & Hsh).
  exists b'. split; [exact Ho|]. split; [done|]. split; [done|].
  assert (Hs' : b_shards b' !! shardOf b' vbid = Some (set_vbq vbid (idleQueue q) s))
    by (rewrite Hso, Hsh, decide_True by done; done).
  split; [|done]. unfold GetVBWriteQueue. rewrite Hs'. cbn [mbind option_bind]. apply list_lookup_insert_eq.
  by eapply lookup_lt_Some.
Qed.

Definition settled (b b2 : Bucket) (s : EShard) (vbid : Z) (h : rheap) (all : list ptr) (posted : list Posted) : Prop :=
  let bytes := batchBytes cfg h all in
  if durable cfg then
    postedReqs posted ≡ₚ all /\ u64 (queuedBytes b2) = u64 (queuedBytes b - bytes + postedBytes posted)
  else
    posted = [] /\ queuedBytes b2 = u64 (queuedBytes b - bytes) /\
    exists s2, b_shards b2 !! shardOf b2 vbid = Some s2 /\ recycled s s2 (b_heap b2) all.

Lemma complete_spec b s0 s h vbid now lsn st all q :
  b_shards b !! shardOf b vbid = Some s0 -> vbWriteQueues s !! Z.to_nat vbid = Some q -> vq_list q = None ->
  NoDup all -> (forall p, p ∈ all -> is_Some (h !! p)) -> all <> [] -> Z.of_nat (length all) < 2 ^ 32 ->
  exists b2 posted, complete cfg b s h vbid now lsn st all = Some (b2, posted) /\
    GetVBWriteQueue b2 vbid = Some (idleQueue q) /\ settled b b2 s vbid h all posted /\
    exists s2, b_shards b2 !! shardOf b2 vbid = Some s2 /\ seqnos s2 = seqnos s.
Proof.
  intros Hs0 Hq Hl Hn Hh Hne Hlen. unfold complete, settled.
  assert (Hgo : forall b' h' s', b_shards b' = b_shards b -> vbWriteQueues s' = vbWriteQueues s ->
    exists b2, (b1 ← onVB (with_heap b' h') vbid (fun _ => Some s');
                releaseVBQueueAfterWrite (pc_engine cfg) b1 vbid now) = Some b2 /\
      queuedBytes b2 = queuedBytes b' /\ b_heap b2 = h' /\ GetVBWriteQueue b2 vbid = Some (idleQueue q) /\
      b_shards b2 !! shardOf b2 vbid = Some (set_vbq vbid (idleQueue q) s')).
  { intros b' h' s' Hb Hw.
    destruct (onVB_spec (with_heap b' h') vbid (fun _ => Some s') s0 s') as (b1 & Ho & Hh1 & Hq1 & _ & Hso & _ & Hsh).
    { unfold shardOf. cbn [b_shards with_heap]. rewrite Hb. exact Hs0. } { done. }
    rewrite Ho. cbn [mbind option_bind].
    destruct (release_empty b1 vbid now s' q) as (b2 & Hr & Hh2 & Hq2 & Hg & Hs2); [|by rewrite Hw|done|].
    { rewrite Hso, Hsh, decide_True; done. }
    exists b2. rewrite Hr. split_and!; try done; [by rewrite Hq2|by rewrite Hh2]. }
  destruct (durable cfg) eqn:Hd; [destruct (gAsyncDurable cfg && IsOK st) eqn:Ha|]; rewrite ?andb_true_l, ?andb_false_l.
  - rewrite Ha. pose proof (parkBatch_spec h lsn (batchBytes cfg h all) st all) as Hp.
    destruct (parkBatch _ _ _ _ _ _) as [h2 posted]. destruct Hp as [Hp1 Hp2].
    destruct (Hgo b h2 s eq_refl eq_refl) as (b2 & Hb2 & Hqb & _ & Hg & Hs2).
    destruct (onVB _ _ _) as [b1|]; [|done]. cbn [mbind option_bind] in *. rewrite Hb2.
    eexists _, _. split; [done|]. split; [done|]. split; [|by eexists]. split; [done|]. rewrite Hqb, Hp2. f_equal. lia.
  - rewrite Ha. set (b0 := with_queued b _). destruct (Hgo b0 (setAll (set_status st) h all) s eq_refl eq_refl) as (b2 & Hb2 & Hqb & _ & Hg & Hs2).
    destruct (onVB _ _ _) as [b1|]; [|done]. cbn [mbind option_bind] in *. rewrite Hb2.
    eexists _, _. split; [done|]. split; [done|]. split; [|by eexists]. split.
    + unfold postedReqs. clear. induction all; simpl; [done|]. by constructor.
    + rewrite Hqb. unfold b0. cbn [queuedBytes with_queued]. rewrite u64_u64.
      assert (postedBytes (WriteResponse <$> all) = 0) as -> by (clear; induction all; simpl; auto). f_equal. lia.
  - set (b0 := with_queued b _). destruct (recycleBatch_spec s h all Hn Hh Hne Hlen) as (s' & h' & Hr & Hrec & Hw & Hsn).
    rewrite Hr. cbn [mbind option_bind]. destruct (Hgo b0 h' s' eq_refl Hw) as (b2 & Hb2 & Hqb & Hh2 & Hg & Hs2).
    destruct (onVB _ _ _) as [b1|]; [|done]. cbn [mbind option_bind] in *. rewrite Hb2.
    eexists _, _. split; [done|]. split; [done|]. split; [|by eexists]. split; [done|]. split; [done|].
    eexists. split; [exact Hs2|]. by rewrite Hh2.
Qed.

(** ** A whole batch *)

(** The requests of a newest-first chain in arrival order, hooks aside, and the
    last of them that writes [k]. *)
Definition arrivals (h : rheap) (l : list ptr) : list Request := omap (fun p => bodies h !! p) (reverse l).
Definition newestWrite (h : rheap) (l : list ptr) (k : list Z) : option Request :=
  list.last (filter (fun r => r_key r = k) (arrivals h l)).

Lemma mapM_requests h l : (forall p, p ∈ l -> is_Some (h !! p)) ->
  exists batch, mapM (fun p => r ← h !! p; Some (p, r)) l = Some batch /\ batch.*1 = l /\
    (forall p r, (p, r) ∈ batch -> h !! p = Some r) /\
    (set_hook None ∘ snd) <$> batch = omap (fun p => bodies h !! p) l.
Proof.
  induction l as [|p l IH]; intros Hh; [exists []; split_and!; [done..|set_solver|done]|].
  destruct IH as (batch & Hm & H1 & H2 & H3); [intros q Hq; apply Hh; by right|]. destruct (Hh p) as [r Hr]; [left|].
  exists ((p, r) :: batch). cbn [mapM]. rewrite Hr. cbn [mbind option_bind]. rewrite Hm. split; [done|].
  split; [by rewrite fmap_cons, H1|]. split.
  - intros q rq [[= -> ->]|Hq]%elem_of_cons; [done|eauto].
  - simpl. unfold bodies at 1. rewrite lookup_fmap, Hr. simpl. f_equal. exact H3.
Qed.

Lemma last_fmap_filter {A B} (f : A -> B) (P : B -> Prop) `{!forall x, Decision (P x)} (l : list A) :
  list.last (filter P (f <$> l)) = f <$> list.last (filter (fun x => P (f x)) l).
Proof.
  induction l as [|x l IH] using rev_ind; [done|]. rewrite fmap_app, !filter_app. simpl.
  destruct (decide (P (f x))).
  - by rewrite !filter_cons_True, !filter_nil, !last_snoc by done.
  - by rewrite !filter_cons_False, !filter_nil, !app_nil_r by done.
Qed.

Record ready (b : Bucket) (vbid n : Z) (l : list ptr) : Prop := mkReady {
  rd_vb : vb_ok vbid;
  rd_queue : exists q, GetVBWriteQueue b vbid = Some q /\ chain (b_heap b) (vq_list q) l None;
  rd_nodup : NoDup l;
  rd_some : l <> [];
  rd_size : Z.of_nat (length l) < 2 ^ 32;
  rd_keys : Forall (fun r => bytes_ok (r_key r) /\ Z.of_nat (length (r_key r)) < 2 ^ 32) (arrivals (b_heap b) l);
  rd_seqno : exists s, b_shards b !! shardOf b vbid = Some s /\ seqnos s !! Z.to_nat vbid = Some n;
  rd_room : 0 <= n /\ n + Z.of_nat (length l) < 2 ^ 64;
}.

(** The pins of the queued writes are in the cache. *)
Definition pins_ready (w : Writer M S) (A : docs) (vbid : Z) (l : list ptr) : Prop :=
  match w_cache w with
  | Some c => cache_rep c A /\ covered A ((fun r => docKey vbid (r_key r)) <$> arrivals (b_heap (w_bucket w)) l)
  | None => True
  end.

(** The acknowledgements a batch makes to the cache. *)
Definition acks (vbid n : Z) (ok : bool) (kept : list (ptr * Request)) : list (list Z * Z) :=
  imap (fun i pr => (docKey vbid (r_key pr.2), if ok then n + 1 + Z.of_nat i else 0)) kept.

Lemma covered_perm A ks ks' : ks ≡ₚ ks' -> covered A ks -> covered A ks'.
Proof. intros Hp Hc k d Hd. specialize (Hc k d Hd). by rewrite Hp in Hc. Qed.
Lemma covered_app_l A ks ks' : covered A (ks ++ ks') -> covered A ks.
Proof. intros Hc k d Hd. specialize (Hc k d Hd). rewrite filter_app, length_app in Hc. lia. Qed.

Lemma sizes_perm n h l l' : l ≡ₚ l' -> sizes n h l = sizes n h l'.
Proof.
  intros Hp. unfold sizes. apply (fmap_Permutation (sizeOf n h)) in Hp. induction Hp; simpl; lia.
Qed.

(** The requests written carry their seqnos in the heap [h1]. *)
Definition stamped (h1 : rheap) (n : Z) (kept : list (ptr * Request)) : Prop :=
  forall i p r, kept !! i = Some (p, r) -> h1 !! p = Some (set_seqno (n + 1 + Z.of_nat i) r).

Lemma markAll_kept c A h1 vbid n ok kept : cache_rep c A -> is_uint 16 vbid -> stamped h1 n kept ->
  covered A ((fun pr => docKey vbid (r_key pr.2)) <$> kept) ->
  exists c' A', markAll c h1 vbid ok kept.*1 = Some c' /\ cache_rep c' A' /\ marks A (acks vbid n ok kept) A'.
Proof.
  intros Hrep Hv Hst Hc.
  assert (Hks : (fun p => docKey vbid (from_option r_key [] (h1 !! p))) <$> kept.*1 =
                (fun pr => docKey vbid (r_key pr.2)) <$> kept).
  { apply list_eq. intros i. rewrite !list_lookup_fmap. destruct (kept !! i) as [[p r]|] eqn:Hi; [|done].
    simpl. by rewrite (Hst i p r Hi). }
  assert (Hack : (fun p => (docKey vbid (from_option r_key [] (h1 !! p)),
                            if ok then from_option r_resultSeqno 0 (h1 !! p) else 0)) <$> kept.*1 = acks vbid n ok kept).
  { apply list_eq. intros i. unfold acks. rewrite list_lookup_imap, !list_lookup_fmap.
    destruct (kept !! i) as [[p r]|] eqn:Hi; [|done]. simpl. by rewrite (Hst i p r Hi). }
  rewrite <- Hack. apply markAll_spec; [done|done| |by rewrite Hks].
  intros p ([p' r] & -> & [i Hi]%list_elem_of_lookup)%list_elem_of_fmap. cbn [fst]. by rewrite (Hst i p' r Hi).
Qed.

Lemma buildOps_stamps s h vbid cas n (kept dropped batch : list (ptr * Request)) :
  kept ++ dropped ≡ₚ batch -> NoDup batch.*1 -> (forall p r, (p, r) ∈ batch -> h !! p = Some r) ->
  seqnos s !! Z.to_nat vbid = Some n -> 0 <= n -> n + Z.of_nat (length batch) < 2 ^ 64 ->
  exists s1 h1, buildOps cfg s h vbid cas kept =
      Some (s1, h1, imap (fun i pr => opOf cfg pr.2 (n + 1 + Z.of_nat i) cas) kept) /\
    s1 = with_seqnos s (seqnos s1) /\ seqnos s1 !! Z.to_nat vbid = Some (n + Z.of_nat (length kept)) /\
    stamped h1 n kept /\ (forall p, p ∈ batch.*1 -> is_Some (h1 !! p)) /\
    batchBytes cfg h1 (kept.*1 ++ dropped.*1) = batchBytes cfg h batch.*1.
Proof.
  intros Hp Hnd Hat Hn Hn0 Hroom.
  assert (Hp1 : kept.*1 ++ dropped.*1 ≡ₚ batch.*1) by (rewrite <- fmap_app, Hp; done).
  assert (Hlen : (length kept <= length batch)%nat) by (rewrite <- Hp, length_app; lia).
  assert (Hhk : forall i p r, kept !! i = Some (p, r) -> h !! p = Some r).
  { intros i p r Hi. apply Hat. rewrite <- Hp. apply elem_of_app. left. by eapply list_elem_of_lookup_2. }
  destruct (buildOps_spec kept s h vbid cas n) as (s1 & h1 & Hb & Hs1 & _ & Hn1 & Hfr & Hset); [done|done|lia|..].
  { rewrite <- Hp1 in Hnd. by apply NoDup_app in Hnd as [? _]. }
  { intros p ([p' r] & -> & [i Hi]%list_elem_of_lookup)%list_elem_of_fmap. cbn [fst]. by rewrite (Hhk i p' r Hi). }
  assert (Hst : stamped h1 n kept).
  { intros i p r Hi. destruct (Hset i p r Hi) as (r0 & Hr0 & Hr1). rewrite (Hhk i p r Hi) in Hr0. congruence. }
  exists s1, h1. split_and!; try done.
  - intros p ([p' r] & -> & Hr)%list_elem_of_fmap. cbn [fst]. destruct (decide (p' ∈ kept.*1)) as [Hk|Hk].
    + apply list_elem_of_fmap in Hk as ([p'' r'] & -> & [i Hi]%list_elem_of_lookup). cbn [fst].
      by rewrite (Hst i p'' r' Hi).
    + rewrite Hfr by done. by rewrite (Hat p' r Hr).
  - unfold batchBytes. rewrite (sizes_perm _ _ _ _ Hp1). unfold sizes. f_equal. apply list_fmap_ext. intros j p _.
    unfold sizeOf. destruct (decide (p ∈ kept.*1)) as [Hk|Hk]; [|by rewrite Hfr].
    apply list_elem_of_fmap in Hk as ([p'' r'] & -> & [i Hi]%list_elem_of_lookup). simpl.
    by rewrite (Hst i p'' r' Hi), (Hhk i p'' r' Hi).
Qed.

(** Everything a batch does, given what [mapM] and [chooseBatch] return. *)
Lemma persistBatch_run w b vbid cas tWritten now n s q (batch kept dropped : list (ptr * Request)) A :
  mapM (fun p => r ← b_heap b !! p; Some (p, r)) batch.*1 = Some batch ->
  chooseBatch cfg reachesThreshold batch = (kept, dropped) ->
  kept ++ dropped ≡ₚ batch -> NoDup batch.*1 -> batch <> [] -> Z.of_nat (length batch) < 2 ^ 32 ->
  (forall p r, (p, r) ∈ batch -> b_heap b !! p = Some r) ->
  b_shards b !! shardOf b vbid = Some s -> vbWriteQueues s !! Z.to_nat vbid = Some q -> vq_list q = None ->
  seqnos s !! Z.to_nat vbid = Some n -> 0 <= n -> n + Z.of_nat (length batch) < 2 ^ 64 -> is_uint 16 vbid ->
  match w_cache w with
  | Some c => cache_rep c A /\ covered A ((fun pr => docKey vbid (r_key pr.2)) <$> batch)
  | None => True
  end ->
  exists w' m' st posted h1 s2 s3,
    persistBatch cfg reachesThreshold w b vbid cas tWritten now (reverse batch.*1) = Some w' /\
    WriteDocs (w_magma w) vbid (imap (fun i pr => opOf cfg pr.2 (n + 1 + Z.of_nat i) cas) kept) = (m', st) /\
    w_magma w' = m' /\ w_posted w' = w_posted w ++ posted /\
    settled b (w_bucket w') s2 vbid h1 (kept.*1 ++ dropped.*1) posted /\
    freeRequests s2 = freeRequests s /\ freeRequestCount s2 = freeRequestCount s /\
    batchBytes cfg h1 (kept.*1 ++ dropped.*1) = batchBytes cfg (b_heap b) batch.*1 /\
    GetVBWriteQueue (w_bucket w') vbid = Some (mkVBQueue None false (vq_pending q) tWritten) /\
    b_shards (w_bucket w') !! shardOf (w_bucket w') vbid = Some s3 /\
    seqnos s3 !! Z.to_nat vbid = Some (n + Z.of_nat (length kept)) /\
    match w_cache w, w_cache w' with
    | Some _, Some c' => exists A', cache_rep c' A' /\ marks A (acks vbid n (IsOK st) kept) A'
    | None, None => True
    | _, _ => False
    end.
Proof.
  intros Hm Hch Hp Hnd Hne Hsz Hat Hs Hq Hql Hn Hn0 Hroom Hv Hcache.
  assert (Hp1 : kept.*1 ++ dropped.*1 ≡ₚ batch.*1) by (rewrite <- fmap_app, Hp; done).
  destruct (buildOps_stamps s (b_heap b) vbid cas n kept dropped batch) as (s1 & h1 & Hb & Hs1 & Hn1 & Hst & Hsome & Hby);
    try done.
  destruct (WriteDocs (w_magma w) vbid (imap (fun i pr => opOf cfg pr.2 (n + 1 + Z.of_nat i) cas) kept)) as [m' st] eqn:Hw.
  assert (Hq1 : vbWriteQueues s1 !! Z.to_nat vbid = Some q) by by rewrite Hs1.
  set (q2 := mkVBQueue (vq_list q) (vq_scheduled q) (vq_pending q) tWritten). set (s2 := set_vbq vbid q2 s1).
  destruct (complete_spec b s s2 h1 vbid now (GetWALTailLSN m') st (kept.*1 ++ dropped.*1) q2)
    as (b2 & posted & Hc & Hg & Hset & s3 & Hs3 & Hsn3).
  { done. } { apply list_lookup_insert_eq. by eapply lookup_lt_Some. } { done. } { by rewrite Hp1. }
  { intros p. rewrite Hp1. apply Hsome. } { intros He. rewrite He in Hp1. by apply Permutation_nil_l, symmetry, fmap_nil_inv in Hp1. }
  { rewrite Hp1, length_fmap. done. }
  assert (Hca : exists cache', match w_cache w with
      | Some c => c' ← markAll c h1 vbid (IsOK st) kept.*1; Some (Some c')
      | None => Some None end = Some cache' /\
    match w_cache w, cache' with
    | Some _, Some c' => exists A', cache_rep c' A' /\ marks A (acks vbid n (IsOK st) kept) A'
    | None, None => True | _, _ => False end).
  { destruct (w_cache w) as [c|]; [|by eexists]. destruct Hcache as [Hrep Hcov].
    destruct (markAll_kept c A h1 vbid n (IsOK st) kept Hrep Hv Hst) as (c' & A' & Hma & Hr' & Hmk).
    - apply (covered_app_l _ _ ((fun pr => docKey vbid (r_key pr.2)) <$> dropped)). rewrite <- fmap_app.
      by eapply covered_perm; [symmetry; apply fmap_Permutation, Hp|].
    - rewrite Hma. eexists. split; [done|]. by exists A'. }
  destruct Hca as (cache' & Hca & Hca').
  exists (mkWriter b2 m' cache' (w_posted w ++ posted)), m', st, posted, h1, s2, s3.
  split; [|split_and!; try done;
    [unfold s2; cbn [set_vbq with_vbqs freeRequests]; by rewrite Hs1|unfold s2; cbn [set_vbq with_vbqs freeRequestCount]; by rewrite Hs1|by rewrite Hsn3]].
  unfold persistBatch. rewrite reverse_involutive, Hm. cbn [mbind option_bind]. rewrite Hch, Hs.
  cbn [mbind option_bind]. rewrite Hb. cbn [mbind option_bind]. rewrite Hw, Hq1. cbn [mbind option_bind].
  rewrite Hca. cbn [mbind option_bind]. fold q2 s2. rewrite Hc. done.
Qed.

Lemma executePersist_run w A vbid cas tWritten now l n :
  ready (w_bucket w) vbid n l -> pins_ready w A vbid l ->
  exists w' (kept dropped : list (ptr * Request)) m' st posted b1 h1 s s2 s3,
    executePersist cfg reachesThreshold w vbid cas tWritten now = Some (w', Z.of_nat (length l)) /\
    kept.*1 ++ dropped.*1 ≡ₚ l /\
    (forall k, newestWrite (b_heap (w_bucket w)) l k =
                 (set_hook None ∘ snd) <$> list.last (filter (fun pr => key_of pr = k) kept)) /\
    WriteDocs (w_magma w) vbid (imap (fun i pr => opOf cfg pr.2 (n + 1 + Z.of_nat i) cas) kept) = (m', st) /\
    w_magma w' = m' /\ w_posted w' = w_posted w ++ posted /\
    queuedBytes b1 = queuedBytes (w_bucket w) /\
    settled b1 (w_bucket w') s2 vbid h1 (kept.*1 ++ dropped.*1) posted /\
    b_shards (w_bucket w) !! shardOf (w_bucket w) vbid = Some s /\
    freeRequests s2 = freeRequests s /\ freeRequestCount s2 = freeRequestCount s /\
    batchBytes cfg h1 (kept.*1 ++ dropped.*1) = batchBytes cfg (b_heap (w_bucket w)) l /\
    (exists q, GetVBWriteQueue (w_bucket w') vbid = Some q /\ vq_list q = None /\ vq_scheduled q = false) /\
    b_shards (w_bucket w') !! shardOf (w_bucket w') vbid = Some s3 /\
    seqnos s3 !! Z.to_nat vbid = Some (n + Z.of_nat (length kept)).
Proof.
  intros [Hv (q & Hq & Hc) Hnd Hne Hsz Hk (s & Hs & Hn) [Hn0 Hroom]] Hpins. set (b := w_bucket w) in *.
  destruct (sweepOnce_spec _ _ _ Hc Hnd) as (h1 & Hsw & Hho & _).
  set (q1 := mkVBQueue None (vq_scheduled q) (u32 (vq_pending q - Z.of_nat (length l))) (vq_lastWriteNs q)).
  destruct (onVB_spec (with_heap b h1) vbid (fun s => Some (set_vbq vbid q1 s)) s _ Hs eq_refl)
    as (b1 & Ho & Hh1 & Hqb & _ & Hso & _ & Hsh). cbn [b_heap with_heap] in Hh1.
  assert (Hs1 : b_shards b1 !! shardOf b1 vbid = Some (set_vbq vbid q1 s)) by (rewrite Hso, Hsh, decide_True; done).
  assert (Hqs : vbWriteQueues s !! Z.to_nat vbid = Some q) by (unfold GetVBWriteQueue in Hq; by rewrite Hs in Hq).
  destruct (mapM_requests h1 (reverse l)) as (batch & Hm & Hb1 & Hb2 & Hb3).
  { intros p Hp. rewrite elem_of_reverse in Hp. destruct (chain_dom _ _ _ _ _ Hc Hp) as [r Hr].
    destruct (hooks_only_lookup _ _ _ _ Hho Hr) as [v ->]. done. }
  assert (Harr : (set_hook None ∘ snd) <$> batch = arrivals (b_heap b) l)
    by (rewrite Hb3; unfold arrivals; by rewrite Hho).
  assert (Hlen : length batch = length l) by (rewrite <- (length_fmap fst), Hb1; apply length_reverse).
  assert (Hperm : batch.*1 ≡ₚ l) by (rewrite Hb1; apply reverse_Permutation).
  assert (Hkeys : keys_ok batch).
  { split; [|by rewrite Hlen]. rewrite <- Harr, Forall_fmap in Hk. exact Hk. }
  pose proof (chooseBatch_spec batch Hkeys) as Hcb. destruct (chooseBatch cfg reachesThreshold batch) as [kept dropped] eqn:Hch.
  destruct Hcb as [Hp Hlast].
  destruct (persistBatch_run w b1 vbid cas tWritten now n (set_vbq vbid q1 s) q1 batch kept dropped A)
    as (w' & m' & st & posted & h2 & s2 & s3 & Hrun & Hw & Hm' & Hpost & Hset & Hf1 & Hf2 & Hby & Hg & Hs3 & Hsn & _);
    try done; rewrite ?Hlen, ?Hb1, ?Hh1; try done.
  { by rewrite reverse_Permutation. } { intros ->. by destruct l. }
  { apply list_lookup_insert_eq. by eapply lookup_lt_Some. } { unfold vb_ok, kMaxVBuckets in Hv. unfold is_uint. lia. }
  { unfold pins_ready in Hpins. fold b in Hpins. rewrite <- Harr, <- list_fmap_compose in Hpins. exact Hpins. }
  exists w', kept, dropped, m', st, posted, b1, h2, s, s2, s3.
  assert (Hperm' : kept.*1 ++ dropped.*1 ≡ₚ l) by (rewrite <- fmap_app, Hp; done).
  split; [|split; [done|split; [|split_and!; try done]]].
  - unfold executePersist. fold b. rewrite Hq. cbn [mbind option_bind]. rewrite Hsw. cbn [mbind option_bind].
    fold q1. rewrite Ho. cbn [mbind option_bind]. rewrite Hb1, reverse_involutive in Hrun.
    destruct l; [done|]. by rewrite Hrun.
  - intros k. unfold newestWrite. rewrite <- Harr, last_fmap_filter. by rewrite Hlast.
  - rewrite Hby, Hh1. unfold batchBytes. rewrite (sizes_perm _ _ _ _ Hperm). apply sizes_hooks. done.
  - by eexists.
Qed.


(** C8: no request is lost or answered twice, and the write queue's byte
    budget is conserved.  A durable bucket posts every request of the batch
    exactly once (to its connection, to the loop that will answer it once the
    log is durable, or to the completion thread) and every byte charged for the
    batch is returned or posted to be returned with it; otherwise all bytes are
    returned at once and the requests go back to the shard's pool as one chain
    or, if the pool is full, are freed. *)
Theorem persist_settles_every_request w A vbid cas tWritten now l n :
  ready (w_bucket w) vbid n l -> pins_ready w A vbid l ->
  exists w' posted all, executePersist cfg reachesThreshold w vbid cas tWritten now = Some (w', Z.of_nat (length l)) /\
    w_posted w' = w_posted w ++ posted /\ all ≡ₚ l /\
    let bytes := batchBytes cfg (b_heap (w_bucket w)) l in
    if durable cfg then
      postedReqs posted ≡ₚ l /\
      u64 (queuedBytes (w_bucket w')) = u64 (queuedBytes (w_bucket w) - bytes + postedBytes posted)
    else
      posted = [] /\ queuedBytes (w_bucket w') = u64 (queuedBytes (w_bucket w) - bytes) /\
      exists s s', b_shards (w_bucket w) !! shardOf (w_bucket w) vbid = Some s /\
        b_shards (w_bucket w') !! shardOf (w_bucket w') vbid = Some s' /\
        recycled s s' (b_heap (w_bucket w')) all.
Proof.
  intros Hr Hp. destruct (executePersist_run w A vbid cas tWritten now l n Hr Hp) as
    (w' & kept & dropped & m' & st & posted & b1 & h1 & s & s2 & s3 & Hrun & Hperm & _ & _ & _ & Hpost & Hqb & Hset & Hs & Hf1 & Hf2 & Hby & _ & Hs3 & _).
  exists w', posted, (kept.*1 ++ dropped.*1). split; [done|]. split; [done|]. split; [done|].
  unfold settled in Hset. rewrite Hby, Hqb in Hset. destruct (durable cfg).
  - destruct Hset as [H1 H2]. split; [by rewrite H1|done].
  - destruct Hset as (H1 & H2 & s4 & Hs4 & Hrec). split; [done|]. split; [done|]. exists s, s4. split_and!; try done.
    unfold recycled in *. by rewrite Hf1, Hf2 in Hrec.
Qed.
End laws.
