(* ===== verification/PersistExamples.v ===== *)
(** * The write path on concrete batches

    Instances of the write-path theorems with the S3-FIFO cache and a store kept
    as a map, and the batch in which a de-duplicated write keeps its cache pin. *)
From stdpp Require Import prelude gmap list.
From Stdlib Require Import ZArith Lia.
From S2P Require Import Prelude Metadata Protocol Fifo FlatIndex SeqnoIndex DocCache S3Fifo Cache CacheLaws.
From S2P Require Import Request WriteBatch Magma Persist.
Open Scope Z_scope.

(** Two SETs of one key of vbucket 7, queued newest first. *)
Definition twoRequests : rheap :=
  {[1%positive := sampleRequest 7 [97]; 3%positive := set_hook (Some 1%positive) (sampleRequest 7 [97])]}.
Definition busyShard : EShard := set_vbq 7 (mkVBQueue (Some 3%positive) true 2 0) emptyEShard.
Definition busyBucket : Bucket := mkBucket twoRequests [emptyEShard; busyShard] 644 10000.

Definition sampleHash (vb : Z) (k : list Z) : Z := 42.
Abbreviation FluxCache := (@S3FifoCache FlatIndex).
#[local] Instance sampleDocCache : DocCache FluxCache := s3fifo_cache sampleHash.

Definition sampleCache : option FluxCache :=
  c1 ← Put (newCache 100000 1 : FluxCache) 7 [97] [1] 0 0 0 false;
  Put c1 7 [97] [1] 0 0 0 false.

Definition durableConfig (d : bool) : PersistConfig :=
  mkPersistConfig SortAlways false false d false (mkEngineConfig 0 64) 320.
Definition emptyMagma : MapMagma := mkMapMagma (fun _ => ∅) 0.

Lemma busy_ready : ready busyBucket 7 0 [3; 1]%positive.
Proof.
  split.
  - split; vm_compute; congruence.
  - eexists. split; [reflexivity|]. split; [done|]. eexists. split; [reflexivity|]. split; [done|].
    eexists. split; reflexivity.
  - apply NoDup_cons. split; [set_solver|apply NoDup_singleton].
  - done.
  - vm_compute. reflexivity.
  - assert (arrivals (b_heap busyBucket) [3; 1]%positive = [sampleRequest 7 [97]; sampleRequest 7 [97]]) as ->
      by (vm_compute; reflexivity). repeat constructor; vm_compute; congruence.
  - eexists. split; reflexivity.
  - vm_compute. split; congruence.
Qed.

(** The two Puts that go with the queued writes, as the contract describes them. *)
Lemma sampleCache_pins : exists c A, sampleCache = Some c /\ cache_rep c A /\ covered A [docKey 7 [97]; docKey 7 [97]].
Proof.
  assert (Hv : is_uint 16 7) by (split; vm_compute; congruence).
  destruct (Put_law (newCache 100000 1 : FluxCache) ∅ 7 [97] [1] 0 0 0 false) as (c1 & A1 & Hc1 & Hr1 & Hp1);
    [apply newCache_rep|done|done|].
  assert (HA1 : forall k d, A1 !! k = Some d -> k = docKey 7 [97] /\ d_pending d = 1).
  { destruct Hp1 as [Hs _]. intros k d Hd. apply (lookup_weaken _ _ _ _ Hd) in Hs.
    apply lookup_insert_Some in Hs as [[<- <-]|[_ Hs]]; [done|]. by rewrite lookup_empty in Hs. }
  assert (Hk1 : exists d, A1 !! docKey 7 [97] = Some d).
  { destruct Hp1 as [_ Hp1]. eexists. apply Hp1; [apply lookup_insert_eq|done]. }
  destruct Hk1 as [d1 Hd1]. destruct (HA1 _ _ Hd1) as [_ Hpend].
  assert (Hpo : pendingOf A1 (docKey 7 [97]) = 1) by (unfold pendingOf; by rewrite Hd1).
  destruct (Put_law c1 A1 7 [97] [1] 0 0 0 false) as (c2 & A2 & Hc2 & Hr2 & Hp2); [done|done|rewrite Hpo; done|].
  exists c2, A2. split; [unfold sampleCache; rewrite Hc1; exact Hc2|]. split; [done|].
  intros k d Hd. destruct Hp2 as [Hs _]. apply (lookup_weaken _ _ _ _ Hd) in Hs.
  apply lookup_insert_Some in Hs as [[<- <-]|[Hne Hs]].
  - rewrite Hpo. rewrite !filter_cons_True by done. done.
  - destruct (HA1 _ _ Hs) as [-> _]. done.
Qed.

Definition writerOf (c : option FluxCache) : Writer MapMagma FluxCache :=
  mkWriter busyBucket emptyMagma c [].


Lemma persist_settles_every_request_witness :
  exists c w' posted, sampleCache = Some c /\
    executePersist (durableConfig true) (fun _ => true) (writerOf (Some c)) 7 5 6 7 = Some (w', 2) /\
    w_posted w' = posted /\ postedReqs posted ≡ₚ [3; 1]%positive /\
    u64 (queuedBytes (w_bucket w')) = u64 (644 - 644 + postedBytes posted).
Proof.
  destruct sampleCache_pins as (c & A & Hc & Hrep & Hcov).
  destruct (persist_settles_every_request (durableConfig true) (fun _ => true) (writerOf (Some c)) A 7 5 6 7
              [3; 1]%positive 0 busy_ready) as (w' & posted & all & Hrun & Hp & _ & Hset).
  - split; [exact Hrep|exact Hcov].
  - exists c, w', posted. split; [done|]. split; [exact Hrun|]. split; [exact Hp|]. exact Hset.
Defined.

(** ** A pin that is never released

    The pending count of the key, the number of requests taken and the
    vbucket's queue after the batch of two writes to it. *)
Definition leakRun : option (Z * Z * option ptr) :=
  c ← sampleCache;
  '(w', n) ← executePersist (durableConfig true) (fun _ => true) (writerOf (Some c)) 7 5 6 7;
  c' ← w_cache w';
  q ← GetVBWriteQueue (w_bucket w') 7;
  '(_, r) ← Get c' 7 [97];
  d ← r;
  Some (d_pending d, n, vq_list q).

