(* ===== verification/Dispatch.v ===== *)
(** * Handing finished reads back (engine.cc, [DispatchAccum])

    A reader thread groups the requests it has finished by the connection
    ([--direct-send]) or by the event loop that answers them, and hands a group
    over when it is full and the rest at the end of the batch.  Shown: every
    request handed in is handed over exactly once, to its own target, in the
    order it was handed in. *)
From stdpp Require Import prelude list.
From Stdlib Require Import ZArith Lia.
From S2P Require Import Prelude.
Open Scope Z_scope.

(** What leaves the accumulator. *)
Inductive Handover :=
  | SendDirect (conn : ptr) (reqs : list ptr)   (* conn->sendDirect(reqs) *)
  | PostLoop (evb : ptr) (reqs : list ptr).     (* sendGetResponse for each, on the loop *)

Record DispatchAccum := mkDispatchAccum {
  direct_ : list (ptr * list ptr);
  groups_ : list (ptr * list ptr);
}.
Definition emptyAccum : DispatchAccum := mkDispatchAccum [] [].
Definition kDirectMax : nat := 64.

Section dispatch.
Context (gDirectSend : bool) (gDispatchBatch : nat).

(** [connSlot] and [slotFor]: the group of a target, new at the end if there is
    none yet; push the request, and empty the group when it has [cap]. *)
Fixpoint addToSlot (cap : nat) (k x : ptr) (gs : list (ptr * list ptr)) : list (ptr * list ptr) * option (list ptr) :=
  match gs with
  | [] => if (cap <=? 1)%nat then ([(k, [])], Some [x]) else ([(k, [x])], None)
  | (k', l) :: gs' =>
      if decide (k' = k) then
        if (cap <=? length (l ++ [x]))%nat then ((k, []) :: gs', Some (l ++ [x])) else ((k, l ++ [x]) :: gs', None)
      else let '(gs1, full) := addToSlot cap k x gs' in ((k', l) :: gs1, full)
  end.

Definition Add (a : DispatchAccum) (x conn evb : ptr) : DispatchAccum * list Handover :=
  if gDirectSend then
    let '(gs, full) := addToSlot kDirectMax conn x (direct_ a) in
    (mkDispatchAccum gs (groups_ a), match full with Some l => [SendDirect conn l] | None => [] end)
  else if (gDispatchBatch <=? 1)%nat then (a, [PostLoop evb [x]])
  else
    let '(gs, full) := addToSlot gDispatchBatch evb x (groups_ a) in
    (mkDispatchAccum (direct_ a) gs, match full with Some l => [PostLoop evb l] | None => [] end).

Definition nonEmpty (gs : list (ptr * list ptr)) : list (ptr * list ptr) := filter (fun g => g.2 <> []) gs.
Definition FlushAll (a : DispatchAccum) : DispatchAccum * list Handover :=
  let cleared := (fun g : ptr * list ptr => (g.1, [])) <$> direct_ a in
  (mkDispatchAccum (if (256 <? length (direct_ a))%nat then [] else cleared) [],
   ((fun g => SendDirect g.1 g.2) <$> nonEmpty (direct_ a)) ++ ((fun g => PostLoop g.1 g.2) <$> nonEmpty (groups_ a))).

(** A batch: every finished request is added, then the rest is flushed. *)
Fixpoint addAll (a : DispatchAccum) (xs : list (ptr * ptr * ptr)) : DispatchAccum * list Handover :=
  match xs with
  | [] => (a, [])
  | (x, conn, evb) :: xs' =>
      let '(a1, out) := Add a x conn evb in
      let '(a2, out') := addAll a1 xs' in (a2, out ++ out')
  end.
Definition dispatchBatch (a : DispatchAccum) (xs : list (ptr * ptr * ptr)) : DispatchAccum * list Handover :=
  let '(a1, out) := addAll a xs in let '(a2, out') := FlushAll a1 in (a2, out ++ out').

(** ** What each target receives *)
Definition target (conn evb : ptr) : ptr := if gDirectSend then conn else evb.
Definition hand_ok (h : Handover) : Prop := match h with SendDirect _ _ => gDirectSend = true | PostLoop _ _ => gDirectSend = false end.
Definition handedTo (t : ptr) (h : Handover) : list ptr :=
  match h with SendDirect k l => if decide (k = t) then l else [] | PostLoop k l => if decide (k = t) then l else [] end.
Definition slotOf (t : ptr) (gs : list (ptr * list ptr)) : list ptr := gs ≫= (fun g => if decide (g.1 = t) then g.2 else []).
Definition sentTo (t : ptr) (xs : list (ptr * ptr * ptr)) : list ptr :=
  xs ≫= (fun x => if decide (target x.1.2 x.2 = t) then [x.1.1] else []).

(** Targets have one group each; the groups of the other kind stay empty. *)
Definition accum_ok (a : DispatchAccum) : Prop :=
  NoDup (direct_ a).*1 /\ NoDup (groups_ a).*1 /\
  if gDirectSend then groups_ a = []
  else Forall (fun g => g.2 = []) (direct_ a) /\ ((gDispatchBatch <= 1)%nat -> groups_ a = []).
Definition held (a : DispatchAccum) (t : ptr) : list ptr := slotOf t (if gDirectSend then direct_ a else groups_ a).

Lemma slotOf_absent t gs : t ∉ gs.*1 -> slotOf t gs = [].
Proof.
  intros Ht. induction gs as [|[k l] gs IH]; [done|]. cbn [fmap list_fmap] in Ht. apply not_elem_of_cons in Ht as [Hk Ht].
  unfold slotOf in *. cbn [mbind list_bind fst]. rewrite decide_False by (cbn in Hk; congruence). by apply IH.
Qed.

Lemma slotOf_cons t k l gs : k ∉ gs.*1 -> slotOf t ((k, l) :: gs) = if decide (k = t) then l else slotOf t gs.
Proof.
  intros Hk. unfold slotOf. cbn [mbind list_bind fst snd]. case_decide; [|done]. subst.
  fold (slotOf t gs). rewrite slotOf_absent by done. apply app_nil_r.
Qed.

(** Pushing to a group: the group grows at its end, or is handed over whole. *)
Lemma addToSlot_spec cap k x gs gs' full : NoDup gs.*1 -> addToSlot cap k x gs = (gs', full) ->
  NoDup gs'.*1 /\ (forall j, j ∈ gs'.*1 <-> j ∈ gs.*1 \/ j = k) /\
  (forall t, t <> k -> slotOf t gs' = slotOf t gs) /\
  match full with
  | Some l => l = slotOf k gs ++ [x] /\ slotOf k gs' = []
  | None => slotOf k gs' = slotOf k gs ++ [x]
  end.
Proof.
  revert gs'. induction gs as [|[k' l] gs IH]; intros gs' Hn; cbn [addToSlot].
  - destruct (cap <=? 1)%nat; intros [= <- <-]; (split; [cbn; apply NoDup_singleton|]; split; [cbn; set_solver|]); split;
      try (intros t Ht; unfold slotOf; cbn; by rewrite decide_False by congruence); unfold slotOf; cbn; by rewrite decide_True.
  - cbn [fmap list_fmap] in Hn. apply NoDup_cons in Hn as [Hk Hn]. cbn [fst] in Hk. case_decide as E.
    + subst k'. destruct (cap <=? length (l ++ [x]))%nat; intros [= <- <-]; (split; [by apply NoDup_cons|]);
        (split; [cbn; set_solver|]); (split; [intros t Ht; rewrite !slotOf_cons by done; by rewrite !decide_False by congruence|]);
        rewrite !slotOf_cons by done; by rewrite !decide_True.
    + destruct (addToSlot cap k x gs) as [gs1 full1] eqn:Ea. intros [= <- <-].
      destruct (IH gs1 Hn eq_refl) as (Hn1 & Hdom & Hoth & Hfull).
      assert (Hk1 : k' ∉ gs1.*1) by (rewrite Hdom; intros [?|?]; [done|congruence]).
      split; [by apply NoDup_cons|]. split; [intros j; cbn; rewrite !elem_of_cons, Hdom; tauto|].
      split; [intros t Ht; rewrite !slotOf_cons by done; case_decide; [done|by apply Hoth]|].
      rewrite !slotOf_cons by done. by rewrite !decide_False by done.
Qed.

(** What the group and the handover hold together. *)
Lemma addToSlot_handed cap k x gs gs' full t : NoDup gs.*1 -> addToSlot cap k x gs = (gs', full) ->
  (match full with Some l => if decide (k = t) then l else [] | None => [] end) ++ slotOf t gs' =
  slotOf t gs ++ (if decide (k = t) then [x] else []).
Proof.
  intros Hn E. destruct (addToSlot_spec _ _ _ _ _ _ Hn E) as (_ & _ & Hoth & Hfull). case_decide as Et.
  - subst t. destruct full as [l|]; [|done]. destruct Hfull as [-> ->]. by rewrite app_nil_r.
  - rewrite Hoth by congruence. rewrite app_nil_r. by destruct full.
Qed.

Lemma Add_spec a x conn evb a' out : accum_ok a -> Add a x conn evb = (a', out) ->
  accum_ok a' /\ Forall hand_ok out /\
  forall t, (out ≫= handedTo t) ++ held a' t = held a t ++ (if decide (target conn evb = t) then [x] else []).
Proof.
  intros (Hd & Hg & Hx). unfold Add, accum_ok, held, target, hand_ok. destruct gDirectSend eqn:Eg.
  - destruct (addToSlot kDirectMax conn x (direct_ a)) as [gs full] eqn:E. intros [= <- <-].
    destruct (addToSlot_spec _ _ _ _ _ _ Hd E) as (Hn & _). split; [done|]. split; [by destruct full; repeat constructor|].
    intros t. rewrite <- (addToSlot_handed _ _ _ _ _ _ t Hd E). destruct full; [|done]. cbn [mbind list_bind handedTo].
    by rewrite app_nil_r.
  - destruct Hx as [Hx Hx1]. destruct (Nat.leb_spec gDispatchBatch 1) as [Hb|Hb].
    + intros [= <- <-]. split; [done|]. split; [repeat constructor|]. intros t. rewrite Hx1 by done.
      cbn [mbind list_bind handedTo]. by case_decide.
    + destruct (addToSlot gDispatchBatch evb x (groups_ a)) as [gs full] eqn:E. intros [= <- <-].
      destruct (addToSlot_spec _ _ _ _ _ _ Hg E) as (Hn & _). cbn [direct_ groups_].
      split; [split_and!; try done; lia|]. split; [by destruct full; repeat constructor|].
      intros t. rewrite <- (addToSlot_handed _ _ _ _ _ _ t Hg E). destruct full; [|done]. cbn [mbind list_bind handedTo].
      by rewrite app_nil_r.
Qed.

Lemma addAll_spec xs a a' out : accum_ok a -> addAll a xs = (a', out) ->
  accum_ok a' /\ Forall hand_ok out /\ forall t, (out ≫= handedTo t) ++ held a' t = held a t ++ sentTo t xs.
Proof.
  revert a out. induction xs as [|[[x conn] evb] xs IH]; intros a out Ha; cbn [addAll].
  - intros [= <- <-]. split; [done|]. split; [constructor|]. intros t. by rewrite app_nil_r.
  - destruct (Add a x conn evb) as [a1 out1] eqn:E1. destruct (addAll a1 xs) as [a2 out2] eqn:E2. intros [= <- <-].
    destruct (Add_spec _ _ _ _ _ _ Ha E1) as (Ha1 & Ho1 & H1). destruct (IH a1 out2 Ha1 E2) as (Ha2 & Ho2 & H2).
    split; [done|]. split; [by apply Forall_app|]. intros t. rewrite bind_app, <- app_assoc, H2, assoc_L, H1 by apply _.
    unfold sentTo. cbn [mbind list_bind fst snd]. by rewrite app_assoc.
Qed.

Lemma flushed (C : ptr -> list ptr -> Handover) t gs : (forall k l, handedTo t (C k l) = if decide (k = t) then l else []) ->
  ((fun g : ptr * list ptr => C g.1 g.2) <$> nonEmpty gs) ≫= handedTo t = slotOf t gs.
Proof.
  intros HC. induction gs as [|[k l] gs IH]; [done|]. unfold nonEmpty in *. unfold slotOf in *. rewrite filter_cons.
  cbn [mbind list_bind fst snd]. case_decide as E; cbn [fmap list_fmap mbind list_bind fst snd] in *.
  - by rewrite HC, IH.
  - rewrite IH. subst l. by case_decide.
Qed.

Lemma slotOf_all_empty t (gs : list (ptr * list ptr)) : Forall (fun g => g.2 = []) gs -> slotOf t gs = [].
Proof.
  intros H. induction H as [|[k l] gs Hl _ IH]; [done|]. unfold slotOf in *. cbn [mbind list_bind fst snd] in *. subst l.
  rewrite IH. by case_decide.
Qed.

Lemma nonEmpty_none (gs : list (ptr * list ptr)) : Forall (fun g => g.2 = []) gs -> nonEmpty gs = [].
Proof.
  intros H. induction H as [|[k l] gs Hl _ IH]; [done|]. unfold nonEmpty in *. rewrite filter_cons_False, IH; [done|].
  cbn in *. by intros ?.
Qed.

Lemma FlushAll_spec a a' out : accum_ok a -> FlushAll a = (a', out) ->
  accum_ok a' /\ Forall hand_ok out /\ forall t, out ≫= handedTo t = held a t /\ held a' t = [].
Proof.
  intros (Hd & Hg & Hx). unfold FlushAll. intros [= <- <-].
  assert (Hc : Forall (fun g : ptr * list ptr => g.2 = []) (if (256 <? length (direct_ a))%nat then []
                 else (fun g : ptr * list ptr => (g.1, [])) <$> direct_ a)).
  { destruct (256 <? _)%nat; [constructor|]. by apply Forall_fmap, Forall_true. }
  assert (Hcn : NoDup ((if (256 <? length (direct_ a))%nat then [] else (fun g : ptr * list ptr => (g.1, ([] : list ptr))) <$> direct_ a).*1)).
  { destruct (256 <? _)%nat; [constructor|]. rewrite <- list_fmap_compose. by erewrite list_fmap_ext by done. }
  split; [|split].
  - split; [done|]. split; [constructor|]. destruct gDirectSend; [done|]. done.
  - unfold hand_ok. destruct gDirectSend.
    + rewrite Hx. cbn. rewrite app_nil_r. by apply Forall_fmap, Forall_true.
    + destruct Hx as [Hx _]. rewrite (nonEmpty_none _ Hx). cbn. by apply Forall_fmap, Forall_true.
  - intros t. rewrite bind_app, !flushed by done. unfold held. destruct gDirectSend.
    + rewrite Hx. rewrite app_nil_r. split; [done|]. by apply slotOf_all_empty.
    + destruct Hx as [Hx _]. by rewrite (slotOf_all_empty t _ Hx).
Qed.
End dispatch.

Lemma dispatchBatch_spec (gDirectSend : bool) (gDispatchBatch : nat) a xs a' out :
  accum_ok gDirectSend gDispatchBatch a -> (forall t, held gDirectSend a t = []) ->
  dispatchBatch gDirectSend gDispatchBatch a xs = (a', out) ->
  accum_ok gDirectSend gDispatchBatch a' /\ Forall (hand_ok gDirectSend) out /\
  forall t, out ≫= handedTo t = sentTo gDirectSend t xs /\ held gDirectSend a' t = [].
Proof.
  intros Ha Hh. unfold dispatchBatch. destruct (addAll _ _ a xs) as [a1 out1] eqn:E1.
  destruct (FlushAll a1) as [a2 out2] eqn:E2. intros [= <- <-].
  destruct (addAll_spec _ _ _ _ _ _ Ha E1) as (Ha1 & Ho1 & H1).
  destruct (FlushAll_spec _ gDispatchBatch _ _ _ Ha1 E2) as (Ha2 & Ho2 & H2).
  split; [done|]. split; [by apply Forall_app|]. intros t. destruct (H2 t) as [H2a H2b]. split; [|done].
  rewrite bind_app, H2a, H1, Hh. done.
Qed.

(** ** All requests together *)
Definition handedReqs (h : Handover) : list ptr := match h with SendDirect _ l => l | PostLoop _ l => l end.
Definition heldAll (a : DispatchAccum) : list ptr := concat (direct_ a).*2 ++ concat (groups_ a).*2.

Lemma addToSlot_perm cap k x gs gs' full : addToSlot cap k x gs = (gs', full) ->
  default [] full ++ concat gs'.*2 ≡ₚ concat gs.*2 ++ [x].
Proof.
  revert gs'. induction gs as [|[k' l] gs IH]; intros gs'; cbn [addToSlot].
  - by destruct (cap <=? 1)%nat; intros [= <- <-].
  - case_decide.
    + destruct (cap <=? _)%nat; intros [= <- <-]; cbn [default fmap list_fmap concat snd app]; solve_Permutation.
    + destruct (addToSlot cap k x gs) as [gs1 full1] eqn:E. intros [= <- <-]. specialize (IH gs1 eq_refl).
      cbn [fmap list_fmap concat snd]. rewrite <- app_assoc, <- IH. solve_Permutation.
Qed.

Lemma nonEmpty_perm (C : ptr -> list ptr -> Handover) gs : (forall k l, handedReqs (C k l) = l) ->
  ((fun g : ptr * list ptr => C g.1 g.2) <$> nonEmpty gs) ≫= handedReqs = concat gs.*2.
Proof.
  intros HC. induction gs as [|[k l] gs IH]; [done|]. unfold nonEmpty in *. rewrite filter_cons.
  case_decide as E; cbn [fmap list_fmap concat snd mbind list_bind fst] in *; [by rewrite HC, IH|].
  rewrite IH. by subst l.
Qed.

Lemma addAll_perm gDirectSend gDispatchBatch xs a a' out : addAll gDirectSend gDispatchBatch a xs = (a', out) ->
  (out ≫= handedReqs) ++ heldAll a' ≡ₚ heldAll a ++ xs.*1.*1.
Proof.
  revert a out. induction xs as [|[[x conn] evb] xs IH]; intros a out; cbn [addAll]; [intros [= <- <-]; by rewrite app_nil_r|].
  destruct (Add gDirectSend gDispatchBatch a x conn evb) as [a1 out1] eqn:E1.
  destruct (addAll gDirectSend gDispatchBatch a1 xs) as [a2 out2] eqn:E2. intros [= <- <-].
  specialize (IH a1 out2 E2). assert (H : (out1 ≫= handedReqs) ++ heldAll a1 ≡ₚ heldAll a ++ [x]).
  { unfold Add in E1. unfold heldAll. destruct gDirectSend.
    - destruct (addToSlot kDirectMax conn x (direct_ a)) as [gs full] eqn:E. apply addToSlot_perm in E. injection E1 as <- <-.
      cbn [direct_ groups_]. trans ((concat (direct_ a).*2 ++ [x]) ++ concat (groups_ a).*2); [|solve_Permutation].
      rewrite <- E. destruct full; cbn; rewrite ?app_nil_r; solve_Permutation.
    - destruct (gDispatchBatch <=? 1)%nat; [injection E1 as <- <-; cbn; solve_Permutation|].
      destruct (addToSlot gDispatchBatch evb x (groups_ a)) as [gs full] eqn:E. apply addToSlot_perm in E. injection E1 as <- <-.
      cbn [direct_ groups_]. rewrite <- app_assoc, <- E. destruct full; cbn; rewrite ?app_nil_r; solve_Permutation. }
  rewrite bind_app, <- app_assoc, IH. cbn [fmap list_fmap fst]. rewrite assoc_L, H by apply _. solve_Permutation.
Qed.

Lemma dispatchBatch_perm gDirectSend gDispatchBatch a xs a' out : heldAll a = [] ->
  dispatchBatch gDirectSend gDispatchBatch a xs = (a', out) -> out ≫= handedReqs ≡ₚ xs.*1.*1 /\ heldAll a' = [].
Proof.
  intros Ha. unfold dispatchBatch. destruct (addAll _ _ a xs) as [a1 out1] eqn:E1. apply addAll_perm in E1.
  unfold FlushAll. intros [= <- <-]. rewrite Ha in E1. split.
  - rewrite bind_app, bind_app, !nonEmpty_perm by done. exact E1.
  - unfold heldAll. cbn [direct_ groups_]. rewrite app_nil_r. destruct (256 <? _)%nat; [done|].
    generalize (direct_ a1). intros gs. induction gs as [|g gs IH]; [done|]. cbn in *. exact IH.
Qed.

(** C18: a reader's finished requests reach their targets.  Whatever the
    accumulator's groups were filled with before, once a batch is added and
    flushed every target (the connection with [--direct-send], the event loop
    otherwise) has been handed exactly the requests added for it, in the order
    they were added, and the accumulator holds nothing. *)
Theorem dispatch_in_order (gDirectSend : bool) (gDispatchBatch : nat) a xs a' out :
  accum_ok gDirectSend gDispatchBatch a -> (forall t, held gDirectSend a t = []) ->
  dispatchBatch gDirectSend gDispatchBatch a xs = (a', out) ->
  accum_ok gDirectSend gDispatchBatch a' /\ Forall (hand_ok gDirectSend) out /\
  forall t, out ≫= handedTo t = sentTo gDirectSend t xs /\ held gDirectSend a' t = [].
Proof. apply dispatchBatch_spec. Qed.

(** Groups of two; the third request of loop 9 waits for the flush. *)
Lemma dispatch_in_order_witness :
  let xs := [(1, 5, 9); (2, 5, 8); (3, 6, 9); (4, 5, 9)]%positive in
  dispatchBatch false 2 emptyAccum xs =
    (emptyAccum, [PostLoop 9 [1; 3]; PostLoop 9 [4]; PostLoop 8 [2]]%positive) /\
  forall t, (dispatchBatch false 2 emptyAccum xs).2 ≫= handedTo t = sentTo false t xs.
Proof.
  intros xs. split; [reflexivity|]. intros t.
  destruct (dispatchBatch false 2 emptyAccum xs) as [a' out] eqn:E.
  destruct (dispatch_in_order false 2 emptyAccum xs a' out) as (_ & _ & H); [|done|exact E|apply H].
  split; [constructor|]. split; [constructor|]. split; [constructor|done].
Defined.
