(* ===== verification/ReadPath.v ===== *)
(** * Serving queued reads (engine.h, engine.cc)

    A read the cache cannot answer is pushed on its vbucket's read queue.  A
    reader takes the oldest [gMaxReadBatch] requests (first the overflow an
    earlier batch left, then one sweep of the list), fetches each distinct key
    once from the store, copies the result into every request that asked for
    the key, fills the cache and hands the requests back.  Shown: requests are
    taken oldest first and none is lost, and every request of a batch is handed
    back once with the document the store has for its key.  The hints a fetch
    carries and brings back ([SeqnoHint], [learnValuePtr]) change where magma looks,
    not what it finds, and are left out. *)
From stdpp Require Import prelude gmap list.
From Stdlib Require Import ZArith Lia.
From S2P Require Import Prelude Metadata DocCache Request Magma Dispatch.
Open Scope Z_scope.

(** The read side of a [VBQueue].  [overflow*] is a chain, oldest first. *)
Record RQueue := mkRQueue {
  rq_list : option ptr;
  readOwners : Z;
  readDepth : Z;
  overflowHead : option ptr;
  overflowTail : option ptr;
}.
Definition emptyRQueue : RQueue := mkRQueue None 0 0 None None.

(** The read queues by vbucket (each lives in its vbucket's shard) and the
    reader pools' tasks, by vbucket. *)
Record Readers := mkReaders { rqs : list RQueue; rtasks : list Z }.
Definition with_rq (rd : Readers) (vbid : Z) (q : RQueue) : Readers :=
  mkReaders (<[Z.to_nat vbid := q]> (rqs rd)) (rtasks rd).
Definition with_rtask (rd : Readers) (vbid : Z) : Readers := mkReaders (rqs rd) (rtasks rd ++ [vbid]).

Section queue.
Context (gMaxReadOwners : Z) (gMaxReadBatch : nat).

(** Whether to start another owner for a queue of [depth] requests. *)
Definition needsOwner (owners depth : Z) : bool :=
  negb (negb (owners =? 0) &&
        ((gMaxReadOwners <=? owners) || (depth <=? u64 (owners * Z.of_nat gMaxReadBatch)))).

Definition EnqueueRead (h : rheap) (rd : Readers) (p : ptr) : option (rheap * Readers) :=
  r ← h !! p;
  let vbid := r_vbucket r in
  q ← rqs rd !! Z.to_nat vbid;
  '(h', head, _) ← insertHead h (rq_list q) p;
  let depth := readDepth q + 1 in
  if needsOwner (readOwners q) depth then
    Some (h', with_rtask (with_rq rd vbid (mkRQueue head (readOwners q + 1) depth (overflowHead q) (overflowTail q))) vbid)
  else Some (h', with_rq rd vbid (mkRQueue head (readOwners q) depth (overflowHead q) (overflowTail q))).

Definition releaseReadVBQueue (rd : Readers) (vbid : Z) : option Readers :=
  q ← rqs rd !! Z.to_nat vbid;
  let owners := readOwners q - 1 in
  let idle := mkRQueue (rq_list q) owners (readDepth q) (overflowHead q) (overflowTail q) in
  if bool_decide (overflowHead q = None) && bool_decide (rq_list q = None) && (readDepth q <=? 0)
  then Some (with_rq rd vbid idle)
  else if owners <? gMaxReadOwners then
    Some (with_rtask (with_rq rd vbid (mkRQueue (rq_list q) (owners + 1) (readDepth q) (overflowHead q) (overflowTail q))) vbid)
  else Some (with_rq rd vbid idle).

(** Up to [n] requests off the overflow. *)
Fixpoint takeOverflow (n : nat) (h : rheap) (ovf : option ptr) : option (rheap * list ptr * option ptr) :=
  match n, ovf with
  | S n', Some p =>
      r ← h !! p;
      '(h', l, rest) ← takeOverflow n' (<[p := set_hook None r]> h) (hook r);
      Some (h', p :: l, rest)
  | _, _ => Some (h, [], ovf)
  end.

(** Link the requests of [l] one to the next. *)
Fixpoint linkAll (h : rheap) (l : list ptr) : rheap :=
  match l with
  | [] => h
  | p :: l' => alter (set_hook (head l')) p (linkAll h l')
  end.

Definition appendOverflow (h : rheap) (ovf tail : option ptr) (l : list ptr) : rheap * option ptr * option ptr :=
  let h1 := linkAll h l in
  match tail with
  | Some t => (alter (set_hook (head l)) t h1, ovf, last l)
  | None => (h1, head l, last l)
  end.

(** An empty batch has released the queue. *)
Definition collectRead (h : rheap) (rd : Readers) (vbid : Z) : option (rheap * Readers * list ptr) :=
  q ← rqs rd !! Z.to_nat vbid;
  '(h1, old, ovf) ← takeOverflow gMaxReadBatch h (overflowHead q);
  let tail := match ovf with None => None | Some _ => overflowTail q end in
  '(h2, lst, batch) ←
    (if (length old <? gMaxReadBatch)%nat then
       '(h2, lst, fresh) ← sweepOnce h1 (rq_list q); Some (h2, lst, old ++ reverse fresh)
     else Some (h1, rq_list q, old));
  match batch with
  | [] =>
      rd' ← releaseReadVBQueue (with_rq rd vbid (mkRQueue lst (readOwners q) (readDepth q) ovf tail)) vbid;
      Some (h2, rd', [])
  | _ =>
      let excess := drop gMaxReadBatch batch in
      let '(h3, ovf', tail') := match excess with [] => (h2, ovf, tail) | _ => appendOverflow h2 ovf tail excess end in
      let taken := take gMaxReadBatch batch in
      Some (h3, with_rq rd vbid (mkRQueue lst (readOwners q) (readDepth q - Z.of_nat (length taken)) ovf' tail'), taken)
  end.
End queue.

(** ** Results *)
Section results.
Context {M S : Type} `{MG : Magma M} `{DC : DocCache S}.

(** [fillCache] of a document a read found. *)
Definition fillCache (c : S) (vb : Z) (k : list Z) (mv : list Z * list Z) : option S :=
  let dm := decodeOrZero mv.1 in
  PutIfAbsent c vb k mv.2 (seqno dm) (flags dm) (expiry dm) (datatype dm).

(** What a lookup found. *)
Definition found (res : Status * list Z * list Z) : option (list Z * list Z) :=
  let '(st, meta, value) := res in
  if IsOK st && negb (IsOkDocNotFound st) then Some (meta, value) else None.

Definition kInternal : Z := 1.

(** The result copied into a request: an empty value leaves [responseBuf]
    alone, and a miss gets a status that is not OK. *)
Definition setResult (res : Status * list Z * list Z) (r : Request) : Request :=
  match found res with
  | Some (meta, value) =>
      let dm := decodeOrZero meta in
      set_result (res.1.1) (seqno dm) (flags dm) (datatype dm) (match value with [] => r_responseBuf r | _ => value end) r
  | None => set_status (if IsOkDocNotFound res.1.1 then StError kInternal else res.1.1) r
  end.

Definition fillFor (c : option S) (vb : Z) (k : list Z) (res : Status * list Z * list Z) : option (option S) :=
  match c, found res with
  | Some c, Some mv => c' ← fillCache c vb k mv; Some (Some c')
  | c, _ => Some c
  end.

(** [completeGets]: the requests of one key, in order; the second component
    gives the requests to [accum.Add] with their connection and loop. *)
Fixpoint completeGets (h : rheap) (c : option S) (vb : Z) (reqs : list ptr) (res : Status * list Z * list Z)
    : option (rheap * option S * list (ptr * ptr * ptr)) :=
  match reqs with
  | [] => Some (h, c, [])
  | p :: reqs' =>
      r ← h !! p;
      c1 ← fillFor c vb (r_key r) res;
      conn ← r_conn r;
      evb ← r_evb r;
      '(h', c', out) ← completeGets (<[p := setResult res r]> h) c1 vb reqs' res;
      Some (h', c', (p, conn, evb) :: out)
  end.

(** [byKey]: the requests of a batch grouped by key, keys in first-seen order. *)
Fixpoint addByKey (k : list Z) (p : ptr) (gs : list (list Z * list ptr)) : list (list Z * list ptr) :=
  match gs with
  | [] => [(k, [p])]
  | (k', l) :: gs' => if decide (k' = k) then (k', l ++ [p]) :: gs' else (k', l) :: addByKey k p gs'
  end.
Definition byKey (h : rheap) (batch : list ptr) : option (list (list Z * list ptr)) :=
  foldl (fun acc p => gs ← acc; r ← h !! p; Some (addByKey (r_key r) p gs)) (Some []) batch.

(** [GetDocs]: one callback per operation, in the order magma completes them. *)
Fixpoint getDocs (h : rheap) (c : option S) (m : M) (vb : Z) (gs : list (list Z * list ptr))
    : option (rheap * option S * list (ptr * ptr * ptr)) :=
  match gs with
  | [] => Some (h, c, [])
  | (k, reqs) :: gs' =>
      '(h1, c1, out) ← completeGets h c vb reqs (MagmaGet m vb k);
      '(h2, c2, out') ← getDocs h1 c1 m vb gs';
      Some (h2, c2, out ++ out')
  end.

Context (gMaxReadOwners : Z) (gMaxReadBatch : nat) (gCacheSeqnoIndex gDirectSend : bool) (gDispatchBatch : nat).
(** The order in which the map is walked and magma completes the operations. *)
Context (order : list (list Z * list ptr) -> list (list Z * list ptr)).

(** The batch itself: one [Get] for a single request, [GetDocs] otherwise;
    [accum] is the thread's accumulator. *)
Definition postEach (fin : list (ptr * ptr * ptr)) : list Handover := (fun d => PostLoop d.2 [d.1.1]) <$> fin.
Definition serveOne (h : rheap) (c : option S) (m : M) (accum : DispatchAccum) (vbid : Z) (p : ptr)
    : option (rheap * option S * DispatchAccum * list Handover) :=
  r ← h !! p;
  '(h2, c2, fin) ← completeGets h c vbid [p] (MagmaGet m vbid (r_key r));
  Some (h2, c2, accum, postEach fin).
Definition serveMany (h : rheap) (c : option S) (m : M) (accum : DispatchAccum) (vbid : Z) (batch : list ptr)
    : option (rheap * option S * DispatchAccum * list Handover) :=
  gs ← byKey h batch;
  '(h2, c2, fin) ← getDocs h c m vbid (order gs);
  let d := dispatchBatch gDirectSend gDispatchBatch accum fin in
  Some (h2, c2, d.1, d.2).
Definition serveBatch (h : rheap) (c : option S) (m : M) (accum : DispatchAccum) (vbid : Z) (batch : list ptr)
    : option (rheap * option S * DispatchAccum * list Handover) :=
  match batch with
  | [p] => if gCacheSeqnoIndex then serveMany h c m accum vbid batch else serveOne h c m accum vbid p
  | _ => serveMany h c m accum vbid batch
  end.

(** [executeRead] without [gAsyncReads]. *)
Definition executeRead (h : rheap) (rd : Readers) (c : option S) (m : M) (accum : DispatchAccum) (vbid : Z)
    : option (rheap * Readers * option S * DispatchAccum * list Handover * Z) :=
  '(h1, rd1, batch) ← collectRead gMaxReadOwners gMaxReadBatch h rd vbid;
  match batch with
  | [] => Some (h1, rd1, c, accum, [], 0)
  | _ =>
      '(h2, c2, accum', out) ← serveBatch h1 c m accum vbid batch;
      rd2 ← releaseReadVBQueue gMaxReadOwners rd1 vbid;
      Some (h2, rd2, c2, accum', out, Z.of_nat (length batch))
  end.
End results.

(** ** The chains of a read queue *)
Lemma chain_head h p l : chain h p l None -> p = head l.
Proof. destruct l; [done|]. by intros [-> _]. Qed.

Lemma takeOverflow_spec n h ovf O : chain h ovf O None -> NoDup O ->
  exists h', takeOverflow n h ovf = Some (h', take n O, head (drop n O)) /\
    chain h' (head (drop n O)) (drop n O) None /\ hooks_only h h' /\ (forall x, x ∉ take n O -> h' !! x = h !! x).
Proof.
  revert h ovf O. induction n as [|n IH]; intros h ovf O Hc Hn.
  - exists h. cbn [takeOverflow]. rewrite drop_0, take_0. rewrite <- (chain_head _ _ _ Hc). by destruct ovf.
  - destruct O as [|p O]; [cbn in Hc; subst ovf; by exists h|]. destruct Hc as (-> & r & Hr & Hc). apply NoDup_cons in Hn as [Hp Hn].
    cbn [takeOverflow]. rewrite Hr. cbn [mbind option_bind].
    destruct (IH (<[p := set_hook None r]> h) (hook r) O) as (h' & -> & Hc' & Hh & Hf); [by apply chain_insert|done|].
    exists h'. cbn [mbind option_bind take drop]. split; [done|]. split; [done|]. split.
    + etrans; [by apply hooks_only_insert|done].
    + intros x [Hx Hx']%not_elem_of_cons. rewrite Hf by done. by apply lookup_insert_ne.
Qed.

Lemma hooks_only_alter h p v : hooks_only h (alter (set_hook v) p h).
Proof.
  destruct (h !! p) as [r|] eqn:E.
  - rewrite <- (insert_id _ _ _ E) at 2. rewrite alter_insert_eq. by apply hooks_only_insert.
  - rewrite alter_id; [done|]. intros x Hx. congruence.
Qed.

Lemma linkAll_spec h l : NoDup l -> (forall x, x ∈ l -> is_Some (h !! x)) ->
  chain (linkAll h l) (head l) l None /\ hooks_only h (linkAll h l) /\ (forall x, x ∉ l -> linkAll h l !! x = h !! x).
Proof.
  induction l as [|p l IH]; intros Hn Hd; [done|]. apply NoDup_cons in Hn as [Hp Hn]. cbn [linkAll].
  destruct IH as (Hc & Hh & Hf); [done|intros x Hx; apply Hd; by right|].
  destruct (Hd p) as [r Hr]; [left|]. split; [|split].
  - split; [done|]. exists (set_hook (head l) r). rewrite lookup_alter_eq, Hf, Hr by done. split; [done|].
    eapply chain_frame; [|exact Hc]. intros x Hx. apply lookup_alter_ne. by intros ->.
  - etrans; [exact Hh|apply hooks_only_alter].
  - intros x [Hx Hx']%not_elem_of_cons. rewrite lookup_alter_ne by done. by apply Hf.
Qed.

Lemma hooks_only_dom h h' p : hooks_only h h' -> is_Some (h !! p) -> is_Some (h' !! p).
Proof. intros Hh [r Hr]. destruct (hooks_only_lookup _ _ _ _ Hh Hr) as [v ->]. eauto. Qed.

Lemma appendOverflow_spec h O l : chain h (head O) O None -> NoDup (O ++ l) -> l <> [] ->
  (forall x, x ∈ l -> is_Some (h !! x)) ->
  exists h', appendOverflow h (head O) (last O) l = (h', head (O ++ l), last (O ++ l)) /\
    chain h' (head (O ++ l)) (O ++ l) None /\ hooks_only h h' /\ (forall x, x ∉ O ++ l -> h' !! x = h !! x).
Proof.
  intros Hc Hn Hl Hd. apply NoDup_app in Hn as (HO & Hdis & Hnl).
  destruct (linkAll_spec h l Hnl Hd) as (Hc1 & Hh1 & Hf1). unfold appendOverflow. rewrite last_app.
  destruct O as [|o O0]; [cbn [last app]; exists (linkAll h l); by destruct (last l)|].
  destruct (exists_last (l := o :: O0)) as (O1 & z & E); [done|]. rewrite E in *. rewrite last_snoc.
  assert (Hc0 : chain (linkAll h l) (head (O1 ++ [z])) (O1 ++ [z]) None).
  { eapply chain_frame; [|exact Hc]. intros x Hx. apply Hf1. by apply Hdis. }
  assert (Hz : z ∉ l) by (apply Hdis, elem_of_app; right; left).
  destruct (chain_link _ _ _ _ _ _ Hc0 HO Hc1 Hz) as (r & Hr & Hlk).
  exists (alter (set_hook (head l)) z (linkAll h l)). destruct (last l) as [y|] eqn:El; [|by apply last_None in El].
  assert (Eh : head ((O1 ++ [z]) ++ l) = head (O1 ++ [z])) by (by destruct O1). rewrite Eh. split; [done|]. split; [|split].
  - rewrite <- (insert_id _ _ _ Hr) in Hlk |- *. by rewrite alter_insert_eq, insert_insert_eq in *.
  - etrans; [exact Hh1|apply hooks_only_alter].
  - intros x Hx. rewrite lookup_alter_ne by (intros ->; apply Hx; set_solver). apply Hf1. set_solver.
Qed.

(** The requests of a read queue: [L] in the list, newest first, [O] in the
    overflow, oldest first. *)
Record rq_rep (h : rheap) (q : RQueue) (L O : list ptr) : Prop := mkRqRep {
  rr_list : chain h (rq_list q) L None;
  rr_overflow : chain h (overflowHead q) O None;
  rr_tail : overflowTail q = last O;
  rr_nodup : NoDup (O ++ L);
}.

Lemma rq_rep_dom h q L O x : rq_rep h q L O -> x ∈ O ++ L -> is_Some (h !! x).
Proof. intros [Hl Ho _ _] [Hx|Hx]%elem_of_app; [exact (chain_dom _ _ _ _ _ Ho Hx)|exact (chain_dom _ _ _ _ _ Hl Hx)]. Qed.

Lemma rq_rep_ext h q L O q' : rq_rep h q L O -> rq_list q' = rq_list q -> overflowHead q' = overflowHead q ->
  overflowTail q' = overflowTail q -> rq_rep h q' L O.
Proof. intros [Hl Ho Ht Hn] E1 E2 E3. split; [by rewrite E1|by rewrite E2|by rewrite E3|done]. Qed.

Section collect.
Context (gMaxReadOwners : Z) (gMaxReadBatch : nat).
Hypothesis Hbatch : (0 < gMaxReadBatch)%nat.

(** What a reader considers, oldest first: the sweep only happens with room
    left in the batch. *)
Definition considered (L O : list ptr) : list ptr := O ++ (if (length O <? gMaxReadBatch)%nat then reverse L else []).
Definition leftInList (L O : list ptr) : list ptr := if (length O <? gMaxReadBatch)%nat then [] else L.

Lemma considered_all L O : take gMaxReadBatch (considered L O) ++ drop gMaxReadBatch (considered L O) ++ reverse (leftInList L O) = O ++ reverse L.
Proof. rewrite assoc_L, take_drop by apply _. unfold considered, leftInList. destruct (_ <? _)%nat; [by rewrite app_nil_r|by rewrite app_nil_r]. Qed.

Lemma elem_of_considered x L O : x ∈ considered L O -> x ∈ O ++ L.
Proof. unfold considered. destruct (_ <? _)%nat; rewrite !elem_of_app, ?elem_of_reverse; set_solver. Qed.

(** The heap part: what is taken and what stays. *)
Lemma gather_spec h q L O : rq_rep h q L O ->
  exists h1 h2 old lst, takeOverflow gMaxReadBatch h (overflowHead q) = Some (h1, old, head (drop gMaxReadBatch O)) /\
    (if (length old <? gMaxReadBatch)%nat then
       '(h2, lst, fresh) ← sweepOnce h1 (rq_list q); Some (h2, lst, old ++ reverse fresh)
     else Some (h1, rq_list q, old)) =
    Some (h2, lst, take gMaxReadBatch O ++ (if (length O <? gMaxReadBatch)%nat then reverse L else [])) /\
    hooks_only h h2 /\ chain h2 lst (leftInList L O) None /\
    chain h2 (head (drop gMaxReadBatch O)) (drop gMaxReadBatch O) None.
Proof using Hbatch.
  intros [Hl Ho Ht Hn]. apply NoDup_app in Hn as (HnO & Hdis & HnL).
  destruct (takeOverflow_spec gMaxReadBatch h _ O Ho HnO) as (h1 & Hto & Hc1 & Hh1 & Hf1).
  assert (HL1 : chain h1 (rq_list q) L None).
  { eapply chain_frame; [|exact Hl]. intros x Hx. apply Hf1. intros Hx'%elem_of_take. destruct Hx' as (i & Hi & _).
    apply list_elem_of_lookup_2 in Hi. by apply (Hdis x). }
  unfold leftInList. destruct (Nat.ltb_spec (length O) gMaxReadBatch).
  - destruct (sweepOnce_spec h1 (rq_list q) L HL1 HnL) as (h2 & Hsw & Hh2 & Hf2).
    exists h1, h2, (take gMaxReadBatch O), None. split; [done|]. rewrite length_take.
    destruct (Nat.ltb_spec (Nat.min gMaxReadBatch (length O)) gMaxReadBatch); [|lia]. rewrite Hsw. cbn [mbind option_bind].
    split; [done|]. split; [by etrans|]. split; [done|]. rewrite drop_ge by lia. done.
  - exists h1, h1, (take gMaxReadBatch O), (rq_list q). split; [done|]. rewrite length_take.
    destruct (Nat.ltb_spec (Nat.min gMaxReadBatch (length O)) gMaxReadBatch); [lia|]. rewrite app_nil_r. done.
Qed.

Lemma collectRead_spec h rd vbid q L O : rqs rd !! Z.to_nat vbid = Some q -> rq_rep h q L O -> O ++ L <> [] ->
  let batch := take gMaxReadBatch (considered L O) in
  exists h' q', collectRead gMaxReadOwners gMaxReadBatch h rd vbid = Some (h', with_rq rd vbid q', batch) /\
    batch <> [] /\ hooks_only h h' /\ rq_rep h' q' (leftInList L O) (drop gMaxReadBatch (considered L O)) /\
    readOwners q' = readOwners q /\ readDepth q' = readDepth q - Z.of_nat (length batch).
Proof using Hbatch.
  intros Hq Hrep Hne batch. pose proof Hrep as [Hl Ho Ht Hn].
  destruct (gather_spec h q L O Hrep) as (h1 & h2 & old & lst & Hto & Hg & Hh2 & Hlst & Hov).
  unfold collectRead. rewrite Hq. cbn [mbind option_bind]. rewrite Hto. cbn [mbind option_bind]. rewrite Hg. cbn [mbind option_bind].
  set (all := take gMaxReadBatch O ++ (if (length O <? gMaxReadBatch)%nat then reverse L else [])).
  assert (Eb : take gMaxReadBatch all = batch /\ drop gMaxReadBatch O ++ drop gMaxReadBatch all = drop gMaxReadBatch (considered L O) /\ all <> []).
  { unfold all, batch, considered. destruct (Nat.ltb_spec (length O) gMaxReadBatch).
    - rewrite (take_ge O), (drop_ge O) by lia. split; [done|]. split; [done|]. intros [-> HL]%app_eq_nil. apply Hne.
      apply (f_equal reverse) in HL. rewrite reverse_involutive in HL. by subst L.
    - rewrite !app_nil_r, take_take, Nat.min_id, (drop_ge (take _ _)) by (rewrite length_take; lia). rewrite app_nil_r.
      split; [done|]. split; [done|]. intros E. apply (f_equal length) in E. rewrite length_take in E. simpl in E. lia. }
  destruct Eb as (Eb & Eo & Hall). destruct all as [|a all0] eqn:Eall; [done|]. rewrite <- Eall in *. clear Eall a all0.
  set (tail := match head (drop gMaxReadBatch O) with None => None | Some _ => overflowTail q end).
  assert (Etail : tail = last (drop gMaxReadBatch O)).
  { unfold tail. destruct (drop gMaxReadBatch O) as [|o O'] eqn:E; [done|]. cbn [head]. rewrite Ht.
    rewrite <- (take_drop gMaxReadBatch O), E, last_app. destruct (last (o :: O')) eqn:El; [done|by apply last_None in El]. }
  assert (Hbne : batch <> []).
  { rewrite <- Eb. destruct all; [done|]. destruct gMaxReadBatch; [lia|done]. }
  assert (HnA : NoDup (drop gMaxReadBatch O ++ drop gMaxReadBatch all ++ leftInList L O)).
  { rewrite assoc_L, Eo by apply _. apply (sublist_NoDup _ (take gMaxReadBatch (considered L O) ++ drop gMaxReadBatch (considered L O) ++ leftInList L O));
      [|by apply sublist_inserts_l]. rewrite assoc_L, take_drop by apply _. unfold considered, leftInList.
    clear -Hn. destruct (length O <? gMaxReadBatch)%nat; [rewrite app_nil_r, reverse_Permutation|rewrite app_nil_r]; done. }
  rewrite Eb. destruct (drop gMaxReadBatch all) as [|x ex] eqn:Ex.
  - exists h2. eexists. split; [reflexivity|]. split; [done|]. split; [done|]. rewrite <- Eo, app_nil_r.
    split; [|done]. split; [done|done|done|]. cbn [app] in HnA. done.
  - destruct (appendOverflow_spec h2 (drop gMaxReadBatch O) (x :: ex)) as (h3 & Ha & Hc3 & Hh3 & Hf3); [done| |done| |].
    { apply NoDup_app in HnA as (H1 & H2 & H3). apply NoDup_app. split; [done|]. split; [set_solver|].
      by apply NoDup_app in H3 as (? & _ & _). }
    { intros y Hy. apply (hooks_only_dom _ _ _ Hh2). eapply rq_rep_dom; [exact Hrep|]. apply elem_of_considered.
      rewrite <- (take_drop gMaxReadBatch (considered L O)), <- Eo. set_solver. }
    rewrite Etail, Ha. exists h3. eexists. split; [reflexivity|]. split; [done|]. split; [by etrans|].
    split; [|done]. rewrite <- Eo. split; cbn [rq_list overflowHead overflowTail]; [|done|done|].
    + eapply chain_frame; [|exact Hlst]. intros y Hy. apply Hf3. intros Hy'. apply NoDup_app in HnA as (_ & H2 & H3).
      apply NoDup_app in H3 as (_ & H4 & _). apply elem_of_app in Hy' as [Hy'|Hy']; [apply (H2 y Hy'); set_solver|by apply (H4 y)].
    + by rewrite <- app_assoc.
Qed.
End collect.

(** ** Serving a batch *)
Section serve.
Context {M S : Type} `{MG : Magma M} `{DC : DocCache S, DCL : !DocCacheLaws S}.
Context (m : M) (vb : Z).
Hypothesis Hvb : is_uint 16 vb.

(** What fills may have done to the cache: documents added are what the store
    has, pinned ones stay, and unpinned ones may be gone. *)
Definition fill_of (k : list Z) (d : CachedDoc) : Prop :=
  exists key meta value, k = docKey vb key /\ found (MagmaGet m vb key) = Some (meta, value) /\
    let dm := decodeOrZero meta in d = mkCachedDoc (seqno dm) (flags dm) (expiry dm) (datatype dm) false value 0.
Definition fills (A A' : docs) : Prop :=
  (forall k d, A' !! k = Some d -> A !! k = Some d \/ fill_of k d) /\
  (forall k d, A !! k = Some d -> pinned d -> A' !! k = Some d).

#[local] Instance fills_refl : Reflexive fills.
Proof. split; auto. Qed.
#[local] Instance fills_trans : Transitive fills.
Proof.
  intros A B C [F1 P1] [F2 P2]. split; [|by auto]. intros k d Hd. destruct (F2 k d Hd) as [Hb|]; [by apply F1|by right].
Qed.

Definition opt_rep (c : option S) (A : docs) : Prop := match c with Some c => cache_rep c A | None => True end.

Lemma fillFor_spec c A k : opt_rep c A ->
  exists c' A', fillFor c vb k (MagmaGet m vb k) = Some c' /\ opt_rep c' A' /\ fills A A' /\ (c = None -> c' = None).
Proof using Hvb DCL.
  intros Hc. unfold fillFor. destruct c as [c|]; [|by exists None, A].
  destruct (found (MagmaGet m vb k)) as [[meta value]|] eqn:Ef; [|by exists (Some c), A]. unfold fillCache. cbn [fst snd].
  destruct (PutIfAbsent_law c A vb k value (seqno (decodeOrZero meta)) (flags (decodeOrZero meta)) (expiry (decodeOrZero meta))
    (datatype (decodeOrZero meta)) Hc Hvb) as (c' & A' & -> & Hc' & Hspec).
  exists (Some c'), A'. split; [done|]. split; [done|]. split; [|done].
  destruct Hspec as [[Hs Hp]|[Hno [Hs Hp]]].
  - split; [|done]. intros k' d Hd. left. by eapply lookup_weaken.
  - split.
    + intros k' d Hd. eapply lookup_weaken in Hd; [|exact Hs]. apply lookup_insert_Some in Hd as [[<- <-]|[_ Hd]]; [|by left].
      right. by exists k, meta, value.
    + intros k' d Hd Hpin. apply Hp; [|done]. rewrite lookup_insert_ne; [done|]. intros <-. congruence.
Qed.

(** A request that can be answered, and who answers it. *)
Definition answerable (h : rheap) (p : ptr) : Prop :=
  exists r conn evb, h !! p = Some r /\ r_conn r = Some conn /\ r_evb r = Some evb.
Definition answers_at (h : rheap) (o : ptr * ptr * ptr) : Prop :=
  exists r, h !! o.1.1 = Some r /\ r_conn r = Some o.1.2 /\ r_evb r = Some o.2.

(** [h'] has the results of the requests [l] of [h], and nothing else new. *)
Definition served (h h' : rheap) (l : list ptr) : Prop :=
  (forall p r, p ∈ l -> h !! p = Some r -> h' !! p = Some (setResult (MagmaGet m vb (r_key r)) r)) /\
  (forall p, p ∉ l -> h' !! p = h !! p).

Lemma completeGets_spec reqs h c A k : NoDup reqs -> Forall (answerable h) reqs ->
  (forall p r, p ∈ reqs -> h !! p = Some r -> r_key r = k) -> opt_rep c A ->
  exists h' c' A' out, completeGets h c vb reqs (MagmaGet m vb k) = Some (h', c', out) /\
    out.*1.*1 = reqs /\ Forall (answers_at h) out /\ served h h' reqs /\ opt_rep c' A' /\ fills A A' /\ (c = None -> c' = None).
Proof using Hvb DCL.
  intros Hn Ha Hk. revert h c A Ha Hk. induction Hn as [|p reqs Hp Hn IH]; intros h c A Ha Hk Hc; cbn [completeGets].
  - exists h, c, A, []. split_and!; try done. split; [|done]. by intros ? ? ?%not_elem_of_nil.
  - apply Forall_cons in Ha as [(r & conn & evb & Hr & Hcn & Hev) Ha]. rewrite Hr. cbn [mbind option_bind].
    rewrite (Hk p r) by (done || left). destruct (fillFor_spec c A k Hc) as (c1 & A1 & -> & Hc1 & Hf1 & Hn1).
    cbn [mbind option_bind]. rewrite Hcn, Hev. cbn [mbind option_bind].
    set (h1 := <[p := setResult (MagmaGet m vb k) r]> h).
    assert (Hoth : forall x, x ∈ reqs -> h1 !! x = h !! x).
    { intros x Hx. unfold h1. rewrite lookup_insert_ne; [done|]. by intros ->. }
    destruct (IH h1 c1 A1) as (h' & c' & A' & out & E & Eout & Ho & [Hs1 Hs2] & Hc' & Hf' & Hn').
    { rewrite Forall_forall in Ha |- *. intros x Hx. unfold answerable. rewrite (Hoth x Hx). by apply Ha. }
    { intros x rx Hx. rewrite (Hoth x Hx). apply Hk. by right. } { done. }
    rewrite E. cbn [mbind option_bind]. exists h', c', A', ((p, conn, evb) :: out). split; [done|]. cbn [fmap list_fmap fst].
    split; [by rewrite <- Eout|]. split.
    { constructor; [by exists r|]. rewrite Forall_forall in Ho |- *. intros o Hin. destruct (Ho o Hin) as (ro & Hro & Hrest).
      exists ro. split; [|done]. rewrite <- Hro. symmetry. apply Hoth. rewrite <- Eout. by apply list_elem_of_fmap_2, list_elem_of_fmap_2. }
    split; [|split; [done|split; [by etrans|auto]]]. split.
    + intros x rx [->|Hx]%elem_of_cons Hrx.
      * rewrite Hs2 by done. unfold h1. rewrite lookup_insert_eq. rewrite Hrx in Hr. injection Hr as ->. by rewrite (Hk p r) by (done || left).
      * apply Hs1; [done|]. by rewrite (Hoth x Hx).
    + intros x [Hx Hx']%not_elem_of_cons. rewrite Hs2 by done. unfold h1. by apply lookup_insert_ne.
Qed.

Definition group_ok (h : rheap) (g : list Z * list ptr) : Prop := forall p r, p ∈ g.2 -> h !! p = Some r -> r_key r = g.1.

Lemma getDocs_spec gs h c A : NoDup (concat gs.*2) -> Forall (answerable h) (concat gs.*2) -> Forall (group_ok h) gs -> opt_rep c A ->
  exists h' c' A' out, getDocs h c m vb gs = Some (h', c', out) /\
    out.*1.*1 = concat gs.*2 /\ Forall (answers_at h) out /\ served h h' (concat gs.*2) /\ opt_rep c' A' /\ fills A A' /\ (c = None -> c' = None).
Proof using Hvb DCL.
  revert h c A. induction gs as [|[k l] gs IH]; intros h c A Hn Ha Hg Hc; cbn [getDocs].
  - exists h, c, A, []. split_and!; try done. split; [|done]. by intros ? ? ?%not_elem_of_nil.
  - cbn [fmap list_fmap concat snd] in Hn, Ha |- *. apply NoDup_app in Hn as (Hnl & Hdis & Hn). apply Forall_app in Ha as [Hal Ha].
    apply Forall_cons in Hg as [Hgk Hg].
    destruct (completeGets_spec l h c A k Hnl Hal Hgk Hc) as (h1 & c1 & A1 & out1 & -> & Eo1 & Ho1 & [Hs1 Hs1'] & Hc1 & Hf1 & Hn1).
    cbn [mbind option_bind]. assert (Hoth : forall x, x ∈ concat gs.*2 -> h1 !! x = h !! x).
    { intros x Hx. apply Hs1'. intros Hx'. by apply (Hdis x). }
    destruct (IH h1 c1 A1 Hn) as (h2 & c2 & A2 & out2 & -> & Eo2 & Ho2 & [Hs2 Hs2'] & Hc2 & Hf2 & Hn2).
    { rewrite Forall_forall in Ha |- *. intros x Hx. unfold answerable. rewrite (Hoth x Hx). by apply Ha. }
    { rewrite Forall_forall in Hg |- *. intros g Hin p r Hp. rewrite (Hoth p).
      - by apply Hg.
      - apply list_elem_of_In, in_concat. exists g.2. split; [|by apply list_elem_of_In]. apply list_elem_of_In. by apply list_elem_of_fmap_2. }
    { done. }
    cbn [mbind option_bind]. exists h2, c2, A2, (out1 ++ out2). split; [done|]. split; [by rewrite !fmap_app, Eo1, Eo2|]. split.
    { apply Forall_app. split; [done|]. rewrite Forall_forall in Ho2 |- *. intros o Hin. destruct (Ho2 o Hin) as (ro & Hro & Hrest).
      exists ro. split; [|done]. rewrite <- Hro. symmetry. apply Hoth. rewrite <- Eo2. by apply list_elem_of_fmap_2, list_elem_of_fmap_2. }
    split; [|split; [done|split; [by etrans|auto]]]. split.
    + intros x rx [Hx|Hx]%elem_of_app Hrx.
      * rewrite Hs2' by (by apply Hdis). by apply Hs1.
      * apply Hs2; [done|]. by rewrite (Hoth x Hx).
    + intros x [Hx Hx']%not_elem_of_app. rewrite Hs2' by done. by apply Hs1'.
Qed.

(** ** Grouping by key *)
Lemma addByKey_spec h k p gs r : h !! p = Some r -> r_key r = k -> Forall (group_ok h) gs ->
  Forall (group_ok h) (addByKey k p gs) /\ concat (addByKey k p gs).*2 ≡ₚ concat gs.*2 ++ [p].
Proof.
  intros Hr Hk. induction gs as [|[k' l] gs IH]; intros Hg; cbn [addByKey].
  - split; [|done]. constructor; [|constructor]. intros x rx ->%list_elem_of_singleton Hrx. cbn. congruence.
  - apply Forall_cons in Hg as [Hgk Hg]. case_decide as E; cbn [fmap list_fmap concat snd].
    + split; [|solve_Permutation]. constructor; [|done]. intros x rx [Hx|Hx]%elem_of_app Hrx; [by apply (Hgk x)|].
      apply list_elem_of_singleton in Hx as ->. cbn. congruence.
    + destruct (IH Hg) as [Hg' HP]. split; [by constructor|]. rewrite HP. solve_Permutation.
Qed.

Lemma byKey_spec h batch : (forall p, p ∈ batch -> is_Some (h !! p)) ->
  exists gs, byKey h batch = Some gs /\ Forall (group_ok h) gs /\ concat gs.*2 ≡ₚ batch.
Proof.
  unfold byKey. assert (H : forall gs0, Forall (group_ok h) gs0 -> (forall p, p ∈ batch -> is_Some (h !! p)) ->
    exists gs, foldl (fun acc p => gs ← acc; r ← h !! p; Some (addByKey (r_key r) p gs)) (Some gs0) batch = Some gs /\
      Forall (group_ok h) gs /\ concat gs.*2 ≡ₚ concat gs0.*2 ++ batch).
  { induction batch as [|p batch IH]; intros gs0 Hg Hd; [exists gs0; by rewrite app_nil_r|].
    destruct (Hd p) as [r Hr]; [left|]. cbn [foldl mbind option_bind]. rewrite Hr. cbn [mbind option_bind].
    destruct (addByKey_spec h (r_key r) p gs0 r Hr eq_refl Hg) as [Hg' HP].
    destruct (IH (addByKey (r_key r) p gs0) Hg') as (gs & -> & Hgs & HP'); [intros x Hx; apply Hd; by right|].
    exists gs. split; [done|]. split; [done|]. rewrite HP', HP. solve_Permutation. }
  intros Hd. destruct (H [] (Forall_nil_2 _) Hd) as (gs & E & Hg & HP). by exists gs.
Qed.
End serve.

(** ** A whole batch *)
Definition handover_ok (h : rheap) (ho : Handover) : Prop :=
  match ho with
  | SendDirect conn l => forall p, p ∈ l -> exists r, h !! p = Some r /\ r_conn r = Some conn
  | PostLoop evb l => forall p, p ∈ l -> exists r, h !! p = Some r /\ r_evb r = Some evb
  end.

Lemma heldAll_held gDirectSend a t : heldAll a = [] -> held gDirectSend a t = [].
Proof.
  unfold heldAll, held. intros [Hd Hg]%app_eq_nil. destruct gDirectSend.
  - induction (direct_ a) as [|[k l] gs IH]; [done|]. cbn in Hd. apply app_eq_nil in Hd as [-> Hd]. unfold slotOf in *.
    cbn [mbind list_bind fst snd]. rewrite IH by done. by case_decide.
  - induction (groups_ a) as [|[k l] gs IH]; [done|]. cbn in Hg. apply app_eq_nil in Hg as [-> Hg]. unfold slotOf in *.
    cbn [mbind list_bind fst snd]. rewrite IH by done. by case_decide.
Qed.

Lemma elem_of_sentTo gDirectSend p t xs : p ∈ sentTo gDirectSend t xs -> exists o, o ∈ xs /\ o.1.1 = p /\ target gDirectSend o.1.2 o.2 = t.
Proof.
  unfold sentTo. intros (o & Ho & Hin)%list_elem_of_bind. case_decide; [|by apply not_elem_of_nil in Ho].
  apply list_elem_of_singleton in Ho as ->. by exists o.
Qed.

Lemma dispatch_targets h gDirectSend gDispatchBatch a xs a' out : accum_ok gDirectSend gDispatchBatch a -> heldAll a = [] ->
  dispatchBatch gDirectSend gDispatchBatch a xs = (a', out) -> Forall (answers_at h) xs -> Forall (handover_ok h) out.
Proof.
  intros Ha Hh E Hx. destruct (dispatchBatch_spec _ _ _ _ _ _ Ha (fun t => heldAll_held _ a t Hh) E) as (_ & Hk & Ht).
  rewrite Forall_forall in Hk. rewrite Forall_forall in Hx. apply Forall_forall. intros ho Hin. specialize (Hk ho Hin).
  assert (H : forall k p, p ∈ handedTo k ho -> exists o, o ∈ xs /\ o.1.1 = p /\ target gDirectSend o.1.2 o.2 = k).
  { intros k p Hp. apply elem_of_sentTo. destruct (Ht k) as [<- _]. apply list_elem_of_bind. by exists ho. }
  destruct ho as [k l|k l]; cbn [handover_ok hand_ok] in *; intros p Hp; destruct (H k p) as (o & Ho & <- & <-);
    try (cbn [handedTo]; by rewrite decide_True); destruct (Hx o Ho) as (r & Hr & Hc & He); exists r; unfold target; rewrite Hk; done.
Qed.

Section execute.
Context {M S : Type} `{MG : Magma M, MGL : !MagmaLaws M} `{DC : DocCache S, DCL : !DocCacheLaws S}.
Context (gMaxReadOwners : Z) (gMaxReadBatch : nat) (gCacheSeqnoIndex gDirectSend : bool) (gDispatchBatch : nat).
Context (order : list (list Z * list ptr) -> list (list Z * list ptr)).
Hypothesis order_perm : forall gs, order gs ≡ₚ gs.
Hypothesis Hbatch : (0 < gMaxReadBatch)%nat.

Lemma serveBatch_spec h c A (m : M) accum vb batch : is_uint 16 vb -> NoDup batch -> Forall (answerable h) batch -> batch <> [] ->
  opt_rep c A -> accum_ok gDirectSend gDispatchBatch accum -> heldAll accum = [] ->
  exists h' c' A' accum' out,
    serveBatch gCacheSeqnoIndex gDirectSend gDispatchBatch order h c m accum vb batch = Some (h', c', accum', out) /\
    out ≫= handedReqs ≡ₚ batch /\ Forall (handover_ok h) out /\ served m vb h h' batch /\
    opt_rep c' A' /\ fills m vb A A' /\ accum_ok gDirectSend gDispatchBatch accum' /\ heldAll accum' = [].
Proof using DCL order_perm.
  intros Hvb Hn Ha Hne Hc Hac Hheld.
  assert (Hmany : exists h' c' A' accum' out,
    serveMany gDirectSend gDispatchBatch order h c m accum vb batch = Some (h', c', accum', out) /\
    out ≫= handedReqs ≡ₚ batch /\ Forall (handover_ok h) out /\ served m vb h h' batch /\
    opt_rep c' A' /\ fills m vb A A' /\ accum_ok gDirectSend gDispatchBatch accum' /\ heldAll accum' = []).
  { unfold serveMany. rewrite Forall_forall in Ha.
    destruct (byKey_spec h batch) as (gs & -> & Hg & HP). { intros p Hp. destruct (Ha p Hp) as (r & _ & _ & Hr & _). by exists r. }
    cbn [mbind option_bind]. assert (HPo : concat (order gs).*2 ≡ₚ batch). { rewrite <- HP. by rewrite order_perm. }
    destruct (getDocs_spec m vb Hvb (order gs) h c A) as (h' & c' & A' & fin & -> & Eo & Hans & [Hs1 Hs2] & Hc' & Hf & _).
    { by rewrite HPo. } { rewrite HPo. by apply Forall_forall. } { by rewrite order_perm. } { done. }
    cbn [mbind option_bind]. destruct (dispatchBatch gDirectSend gDispatchBatch accum fin) as [accum' out] eqn:Ed. cbn [fst snd].
    exists h', c', A', accum', out. split; [done|].
    destruct (dispatchBatch_perm _ _ _ _ _ _ Hheld Ed) as [HPd Hh']. split; [by rewrite HPd, Eo|].
    split; [by eapply dispatch_targets|]. split; [|split_and!; try done].
    - split; [intros p r Hp; apply Hs1; by rewrite HPo|intros p Hp; apply Hs2; by rewrite HPo].
    - eapply dispatchBatch_spec; [done|intros t; by apply heldAll_held|exact Ed]. }
  unfold serveBatch. destruct batch as [|p [|p2 batch]]; [done| |exact Hmany]. destruct gCacheSeqnoIndex; [exact Hmany|]. clear Hmany.
  unfold serveOne. apply Forall_cons in Ha as [Hp _]. pose proof Hp as (r & conn & evb & Hr & Hcn & Hev). rewrite Hr. cbn [mbind option_bind].
  destruct (completeGets_spec m vb Hvb [p] h c A (r_key r)) as (h' & c' & A' & fin & -> & Eo & Hans & Hs & Hc' & Hf & _).
  { done. } { by constructor. } { intros x rx ->%list_elem_of_singleton Hrx. congruence. } { done. }
  cbn [mbind option_bind]. exists h', c', A', accum, (postEach fin). split; [done|].
  destruct fin as [|[[x cx] ex] [|]]; cbn in Eo; try done. injection Eo as ->. apply Forall_cons in Hans as [(rx & Hrx & _ & Hex) _].
  split; [done|]. split; [|done]. constructor; [|constructor]. intros y ->%list_elem_of_singleton. by exists rx.
Qed.

Lemma release_spec rd vb q : rqs rd !! Z.to_nat vb = Some q ->
  exists rd' q', releaseReadVBQueue gMaxReadOwners rd vb = Some rd' /\ rqs rd' !! Z.to_nat vb = Some q' /\
    rq_list q' = rq_list q /\ overflowHead q' = overflowHead q /\ overflowTail q' = overflowTail q /\
    (readOwners q <= gMaxReadOwners -> rq_list q <> None \/ overflowHead q <> None -> rtasks rd' = rtasks rd ++ [vb]).
Proof.
  intros Hq. pose proof (lookup_lt_Some _ _ _ Hq) as Hlt. unfold releaseReadVBQueue. rewrite Hq. cbn [mbind option_bind].
  case_bool_decide as E1; case_bool_decide as E2; cbn [andb]; [destruct (readDepth q <=? 0); cbv iota|..];
    try (destruct (Z.ltb_spec (readOwners q - 1) gMaxReadOwners); cbv iota);
    (eexists _, _; split; [reflexivity|]; cbn [rqs with_rq with_rtask rtasks];
     split; [by apply list_lookup_insert_eq|]; cbn; split_and!; try done; intros; try lia; naive_solver).
Qed.

(** What a request is answered with. *)
Definition answer_ok (st : store) (r r' : Request) : Prop :=
  r_conn r' = r_conn r /\ r_opaque r' = r_opaque r /\ r_opcode r' = r_opcode r /\
  match st !! r_key r with
  | Some (meta, value) =>
      let dm := decodeOrZero meta in
      IsOK (r_resultStatus r') = true /\ r_responseBuf r' = value /\ r_resultSeqno r' = seqno dm /\
      r_resultFlags r' = flags dm /\ r_resultDatatype r' = datatype dm
  | None => IsOK (r_resultStatus r') = false
  end.

Lemma setResult_answer (m : M) vb r : r_responseBuf r = [] ->
  answer_ok (stored m vb) r (setResult (MagmaGet m vb (r_key r)) r).
Proof using MGL.
  intros Hb. unfold answer_ok, setResult. destruct (stored m vb !! r_key r) as [[meta value]|] eqn:E.
  - rewrite (MagmaGet_found _ _ _ _ _ E). cbn. rewrite Hb. by destruct value.
  - destruct (MagmaGet_missing _ _ _ E) as (meta & value & ->). done.
Qed.

(** A read queue with requests waiting, all of them fresh and with somewhere to
    go. *)
Record reads_ready (h : rheap) (rd : Readers) (vb : Z) (q : RQueue) (L O : list ptr) : Prop := mkReadsReady {
  rdy_vb : is_uint 16 vb;
  rdy_queue : rqs rd !! Z.to_nat vb = Some q;
  rdy_rep : rq_rep h q L O;
  rdy_work : O ++ L <> [];
  rdy_owners : readOwners q <= gMaxReadOwners;
  rdy_reqs : Forall (answerable h) (O ++ L);
  rdy_fresh : forall p r, p ∈ O ++ L -> h !! p = Some r -> r_responseBuf r = [];
}.

End execute.
