(* ===== verification/ReadExamples.v ===== *)
(** * A concrete read batch

    An instance of the read-path theorem with the S3-FIFO cache and a store kept
    in a map. *)
From stdpp Require Import prelude gmap list.
From Stdlib Require Import ZArith Lia.
From S2P Require Import Prelude Metadata FlatIndex SeqnoIndex DocCache S3Fifo Cache CacheLaws Request Magma PersistExamples Dispatch ReadPath.
Open Scope Z_scope.

#[local] Instance readDocCache : DocCache FluxCache := s3fifo_cache sampleHash.
#[local] Instance readDocCacheLaws : DocCacheLaws FluxCache := s3fifo_laws sampleHash.

(** Three reads of vbucket 7, two of them of the same key, batches of two. *)
Definition getOf (next : option ptr) (k : list Z) (conn evb : ptr) : Request :=
  mkRequest next k [] 0 0 7 0 0 0 0 (Some conn) (Some evb) None StOK 0 0 0 0 [] 0.
Definition readHeap : rheap :=
  <[1%positive := getOf None [97] 10 20]> (<[2%positive := getOf (Some 1%positive) [98] 11 21]>
    (<[3%positive := getOf (Some 2%positive) [97] 10 20]> ∅)).
Definition readQueue : RQueue := mkRQueue (Some 3%positive) 1 3 None None.
Definition readRd : Readers := mkReaders (replicate 8 readQueue) [].

Lemma readRd_ready : reads_ready 1 readHeap readRd 7 readQueue [3; 2; 1]%positive [].
Proof.
  split; try done.
  - split; cbn [app last]; [|done|done|repeat (constructor; [set_solver|]); constructor].
    split; [done|]. eexists. split; [reflexivity|]. split; [done|]. eexists. split; [reflexivity|]. split; [done|]. eexists. by split.
  - repeat constructor; eexists _, _, _; (split; [reflexivity|done]).
  - intros p r Hp Hr. cbn [app] in Hp. repeat (apply elem_of_cons in Hp as [->|Hp]; [injection Hr as <-; done|]). by apply not_elem_of_nil in Hp.
Qed.

