(* ===== verification/Durable.v ===== *)
(** * Answering durable writes (engine.cc, DurableNotifier; iothread.h)

    With [--async-durable] a writer leaves the requests of a batch parked on
    the IO loops that answer them ([Park]), and the bytes of the batch in a
    ledger ([AddBytes]).  One thread watches the log ([run]): when the durable
    position or the count of batches has moved, it gives the covered bytes back
    ([release]) and posts [DrainDurable] to the loops that have something
    parked ([wake]).  Writers, the notifier, the loops and the log are
    interleaved at every atomic operation; what a writer hands over is what
    [parkBatch] of the write path produces. *)
From stdpp Require Import prelude gmap list functions.
From Stdlib Require Import ZArith Lia.
From coqutil Require Import Datatypes.RecordSettersUsingExistingGetters.
From S2P Require Import Prelude Request Persist.
Open Scope Z_scope.

(** A parked request and its [durableLsn]. *)
Abbreviation parkedReq := (ptr * Z)%type.

(** Where a loop is in [DrainDurable]. *)
Inductive drainPc :=
  | DIdle
  | DTake                 (* durableWakeQueued is down *)
  | DAnswer               (* parkedHead was moved to parkedLocal *)
  | DCount (done : nat).  (* answered, parkedCount not lowered yet *)

Record IOLoop := mkIOLoop {
  parkedHead : list parkedReq;
  parkedCount : Z;
  durableWakeQueued : bool;
  durableRegistered : bool;
  parkedLocal : list parkedReq;
  drains : nat;           (* DrainDurable callbacks in the mailbox *)
  drainAt : drainPc;
}.
Definition newLoop : IOLoop := mkIOLoop [] 0 false false [] 0 DIdle.

(** Where a writer is in handing over a batch that ends at [lsn]. *)
Inductive writerPc :=
  | WRun (lsn : Z) (todo : list Posted)
  | WCount (lsn : Z) (t : ptr) (n : nat) (todo : list Posted)     (* Park: pushed *)
  | WRegister (lsn : Z) (t : ptr) (todo : list Posted)            (* Park: counted *)
  | WLock (lsn : Z) (t : ptr) (todo : list Posted)                (* Park: not registered *)
  | WGen (lsn : Z) (todo : list Posted).                          (* AddBytes: in the ledger *)

(** Where the notifier is in [run]: [stopping], [g] and [d] as in the source. *)
Inductive notifierPc :=
  | NTop
  | NGen (stopping : bool)
  | NDurable (stopping : bool) (g : Z)
  | NRelease (stopping : bool) (g d : Z)
  | NReturn (stopping : bool) (g d bytes : Z)
  | NWake (stopping : bool) (g d : Z) (todo : list ptr)
  | NExchange (stopping : bool) (g d : Z) (t : ptr) (todo : list ptr)
  | NPost (stopping : bool) (g d : Z) (t : ptr) (todo : list ptr)
  | NRest (stopping : bool) (d : Z)
  | NAwait (d : Z)
  | NStopped.
(** [wake] holds [loopsMu_]. *)
Definition loopsMu_free (n : notifierPc) : bool :=
  match n with NWake _ _ _ _ | NExchange _ _ _ _ _ | NPost _ _ _ _ _ => false | _ => true end.

Record state := mkState {
  durableLSN : Z;                  (* GetWALDurableLSN of the shared log *)
  tailLSN : Z;                     (* maxTail *)
  iot : ptr -> IOLoop;
  loops_ : list ptr;
  ledger_ : list (Z * Z);          (* lsn, bytes *)
  queued : Z;                      (* queuedBytes_ of the batches handed over *)
  parkGen_ : Z;
  lastD : Z;
  lastG : Z;
  stop_ : bool;
  notifier : notifierPc;
  writers : list writerPc;
  answered : list (parkedReq * Z); (* with the durable position of the answer *)
  awaiting : list (Z * list ptr);  (* given to the completion thread *)
  gone : list ptr;                 (* loops that were retired *)
}.

Definition onLoop (s : state) (t : ptr) (f : IOLoop -> IOLoop) : state := { s with iot := <[t := f (iot s t)]> (iot s) }.
Definition to (s : state) (n : notifierPc) : state := { s with notifier := n }.
Definition goW (s : state) (w : nat) (p : writerPc) : state := { s with writers := <[w := p]> (writers s) }.
Definition ledgerSum (l : list (Z * Z)) : Z := sumOf snd l.

(** What [parkBatch] hands over concerns only these loops. *)
Definition mentions (t : ptr) (l : list Posted) : Prop := exists g, Parked t g ∈ l.

Section system.
(** The IO loops the server ever has. *)
Context (cfg : PersistConfig) (iots : list ptr).

Definition covered (d : Z) (x : parkedReq) : Prop := x.2 <= d.
#[local] Instance covered_dec d x : Decision (covered d x). Proof. unfold covered. apply _. Defined.
Definition due (d : Z) (e : Z * Z) : Prop := e.1 <= d.
#[local] Instance due_dec d e : Decision (due d e). Proof. unfold due. apply _. Defined.

Inductive step (s : state) : list ptr -> state -> Prop :=
  (* the log *)
  | log_append lsn : tailLSN s <= lsn -> step s [] { s with tailLSN := lsn }
  | log_flush d : durableLSN s <= d <= tailLSN s -> step s [] { s with durableLSN := d }
  (* a writer, after WriteDocs *)
  | w_batch w lsn0 h lsn bytes st l h' posted : writers s !! w = Some (WRun lsn0 []) -> haveNotifier cfg = true ->
      lsn <= tailLSN s -> 0 <= bytes -> parkBatch cfg h lsn bytes st l = (h', posted) ->
      (forall t, mentions t posted -> t ∈ iots /\ t ∉ gone s) ->
      step s l { (goW s w (WRun lsn posted)) with queued := queued s + bytes }
  | w_push w lsn t g todo : writers s !! w = Some (WRun lsn (Parked t g :: todo)) ->
      step s [] (onLoop (goW s w (WCount lsn t (length g) todo)) t (fun x => { x with parkedHead := ((fun p => (p, lsn)) <$> g) ++ parkedHead x }))
  | w_count w lsn t n todo : writers s !! w = Some (WCount lsn t n todo) ->
      step s [] (onLoop (goW s w (WRegister lsn t todo)) t (fun x => { x with parkedCount := parkedCount x + Z.of_nat n }))
  | w_registered w lsn t todo : writers s !! w = Some (WRegister lsn t todo) -> durableRegistered (iot s t) = true ->
      step s [] (goW s w (WRun lsn todo))
  | w_unregistered w lsn t todo : writers s !! w = Some (WRegister lsn t todo) -> durableRegistered (iot s t) = false ->
      step s [] (goW s w (WLock lsn t todo))
  | w_lock_again w lsn t todo : writers s !! w = Some (WLock lsn t todo) -> loopsMu_free (notifier s) = true -> durableRegistered (iot s t) = true ->
      step s [] (goW s w (WRun lsn todo))
  | w_lock w lsn t todo : writers s !! w = Some (WLock lsn t todo) -> loopsMu_free (notifier s) = true -> durableRegistered (iot s t) = false ->
      step s [] (onLoop { (goW s w (WRun lsn todo)) with loops_ := loops_ s ++ [t] } t (fun x => { x with durableRegistered := true }))
  | w_await w lsn lsn' st b g todo : writers s !! w = Some (WRun lsn (Awaiting lsn' st b g :: todo)) ->
      step s [] { (goW s w (WRun lsn todo)) with awaiting := awaiting s ++ [(lsn', g)] }
  | w_ledger w lsn lsn' bytes todo : writers s !! w = Some (WRun lsn (LedgerBytes lsn' bytes :: todo)) ->
      step s [] { (goW s w (WGen lsn todo)) with ledger_ := ledger_ s ++ [(lsn', bytes)] }
  | w_gen w lsn todo : writers s !! w = Some (WGen lsn todo) ->
      step s [] { (goW s w (WRun lsn todo)) with parkGen_ := parkGen_ s + 1 }
  (* the notifier *)
  | n_stop : notifier s = NTop -> step s [] (to s (NGen (stop_ s)))
  | n_gen b : notifier s = NGen b -> step s [] (to s (NDurable b (parkGen_ s)))
  | n_moved b g : notifier s = NDurable b g -> (durableLSN s <> lastD s \/ g <> lastG s) -> step s [] (to s (NRelease b g (durableLSN s)))
  | n_same b g : notifier s = NDurable b g -> durableLSN s = lastD s -> g = lastG s -> step s [] (to s (NRest b (durableLSN s)))
  | n_release b g d : notifier s = NRelease b g d ->
      step s [] { (to s (NReturn b g d (ledgerSum (filter (due d) (ledger_ s))))) with ledger_ := filter (fun e => ~ due d e) (ledger_ s) }
  | n_return b g d bytes : notifier s = NReturn b g d bytes -> step s [] { (to s (NWake b g d (loops_ s))) with queued := queued s - bytes }
  | n_none b g d t todo : notifier s = NWake b g d (t :: todo) -> parkedCount (iot s t) <= 0 -> step s [] (to s (NWake b g d todo))
  | n_some b g d t todo : notifier s = NWake b g d (t :: todo) -> 0 < parkedCount (iot s t) -> step s [] (to s (NExchange b g d t todo))
  | n_queued b g d t todo : notifier s = NExchange b g d t todo -> durableWakeQueued (iot s t) = true -> step s [] (to s (NWake b g d todo))
  | n_exchange b g d t todo : notifier s = NExchange b g d t todo -> durableWakeQueued (iot s t) = false ->
      step s [] (onLoop (to s (NPost b g d t todo)) t (fun x => { x with durableWakeQueued := true }))
  | n_post b g d t todo : notifier s = NPost b g d t todo ->
      step s [] (onLoop (to s (NWake b g d todo)) t (fun x => { x with drains := 1 + drains x }))%nat
  | n_passed b g d : notifier s = NWake b g d [] -> step s [] { (to s (NRest b d)) with lastD := d; lastG := g }
  | n_stopped d : notifier s = NRest true d -> step s [] (to s NStopped)
  | n_await d : notifier s = NRest false d -> d < tailLSN s -> step s [] (to s (NAwait d))
  | n_sleep d : notifier s = NRest false d -> tailLSN s <= d -> step s [] (to s NTop)
  | n_durable d : notifier s = NAwait d -> d < durableLSN s -> step s [] (to s NTop)
  (* a loop: DrainDurable *)
  | d_run t n : drainAt (iot s t) = DIdle -> drains (iot s t) = S n ->
      step s [] (onLoop s t (fun x => { x with drains := n; durableWakeQueued := false; drainAt := DTake }))
  | d_take t : drainAt (iot s t) = DTake ->
      step s [] (onLoop s t (fun x => { x with parkedHead := []; parkedLocal := parkedLocal x ++ parkedHead x; drainAt := DAnswer }))
  | d_answer t : drainAt (iot s t) = DAnswer ->
      step s [] (onLoop { s with answered := answered s ++ ((fun r => (r, durableLSN s)) <$> filter (covered (durableLSN s)) (parkedLocal (iot s t))) } t
        (fun x => { x with parkedLocal := filter (fun r => ~ covered (durableLSN s) r) (parkedLocal x);
                           drainAt := DCount (length (filter (covered (durableLSN s)) (parkedLocal x))) }))
  | d_count t n : drainAt (iot s t) = DCount n ->
      step s [] (onLoop s t (fun x => { x with parkedCount := parkedCount x - Z.of_nat n; drainAt := DIdle }))
  (* Stop, and a retired loop that nobody waits on *)
  | set_stop : step s [] { s with stop_ := true }
  | unregister t : loopsMu_free (notifier s) = true -> parkedHead (iot s t) = [] -> parkedLocal (iot s t) = [] ->
      (forall w p, writers s !! w = Some p ->
        match p with WRun _ l | WGen _ l => ~ mentions t l | WCount _ t' _ l | WRegister _ t' l | WLock _ t' l => t' <> t /\ ~ mentions t l end) ->
      step s [] { s with loops_ := filter (fun x => x <> t) (loops_ s); gone := t :: gone s }.

(** From a log with nothing parked, [n] writers and the notifier starting. *)
Definition start (n : nat) (d : Z) : state :=
  mkState d d (fun _ => newLoop) [] [] 0 0 0 0 false NTop (replicate n (WRun 0 [])) [] [] [].
Inductive reach (n : nat) (d : Z) : list ptr -> state -> Prop :=
  | reach_start : reach n d [] (start n d)
  | reach_step given s l s' : reach n d given s -> step s l s' -> reach n d (given ++ l) s'.

(** ** Invariants *)
Definition todoOf (p : writerPc) : list Posted :=
  match p with WRun _ l | WCount _ _ _ l | WRegister _ _ l | WLock _ _ l | WGen _ l => l end.
Definition lsnOf (p : writerPc) : Z :=
  match p with WRun lsn _ | WCount lsn _ _ _ | WRegister lsn _ _ | WLock lsn _ _ | WGen lsn _ => lsn end.
(** The loop a writer is in the middle of parking on. *)
Definition parksOn (p : writerPc) : option ptr :=
  match p with WCount _ t _ _ | WRegister _ t _ | WLock _ t _ => Some t | _ => None end.
Definition idleW (p : writerPc) : bool := match p with WRun _ [] => true | _ => false end.
Definition busy (s : state) : Prop := exists w p, writers s !! w = Some p /\ idleW p = false.

(** A hand-over ends in the ledger. *)
Definition handsOver (lsn : Z) (x : Posted) : Prop :=
  match x with Parked _ _ => True | Awaiting lsn' _ b _ => lsn' = lsn /\ b = 0 | _ => False end.
Definition script (lsn : Z) (l : list Posted) : Prop := exists l0 b, l = l0 ++ [LedgerBytes lsn b] /\ Forall (handsOver lsn) l0.
Definition script_ok (p : writerPc) : Prop :=
  match p with WRun lsn l => l = [] \/ script lsn l | WGen _ l => l = [] | _ => script (lsnOf p) (todoOf p) end.

(** What the notifier has seen: of the pass it is in, or of the last one. *)
Definition seen (s : state) : Z * Z :=
  match notifier s with
  | NRelease _ g d | NReturn _ g d _ | NWake _ g d _ | NExchange _ g d _ _ | NPost _ g d _ _ => (g, d)
  | _ => (lastG s, lastD s)
  end.
(** Loops this pass has still to look at. *)
Definition toWake (s : state) (t : ptr) : Prop :=
  match notifier s with
  | NRelease _ _ _ | NReturn _ _ _ _ => True
  | NWake _ _ _ todo => t ∈ todo
  | NExchange _ _ _ t' todo | NPost _ _ _ t' todo => t = t' \/ t ∈ todo
  | _ => False
  end.
Definition isParked (s : state) (t : ptr) (x : parkedReq) : Prop := x ∈ parkedLocal (iot s t) ++ parkedHead (iot s t).
Definition counting (t : ptr) (p : writerPc) : Z := match p with WCount _ t' n _ => if decide (t' = t) then Z.of_nat n else 0 | _ => 0 end.
Definition uncounted (x : IOLoop) : Z := match drainAt x with DCount n => Z.of_nat n | _ => 0 end.
Definition posting (s : state) (t : ptr) : nat := match notifier s with NPost _ _ _ t' _ => if decide (t' = t) then 1 else 0 | _ => 0 end.

Record scripts_ok (s : state) : Prop := mkScripts {
  sc_ok w p : writers s !! w = Some p -> script_ok p /\ lsnOf p <= tailLSN s;
  sc_alive w p t : writers s !! w = Some p -> parksOn p = Some t \/ mentions t (todoOf p) -> t ∈ iots /\ t ∉ gone s;
}.
Record log_ok (s : state) : Prop := mkLog {
  lg_tail : durableLSN s <= tailLSN s;
  lg_seen : (seen s).2 <= durableLSN s;
  lg_last : lastD s <= durableLSN s /\ lastG s <= parkGen_ s;
  lg_gen : (seen s).1 <= parkGen_ s /\ forall b g, notifier s = NDurable b g -> g <= parkGen_ s;
  lg_parked t x : isParked s t x -> x.2 <= tailLSN s;
  lg_ledger e : e ∈ ledger_ s -> e.1 <= tailLSN s;
  lg_answered x : x ∈ answered s -> x.1.2 <= x.2 <= durableLSN s;
}.
Record loops_ok (s : state) : Prop := mkLoops {
  lp_count t : parkedCount (iot s t) + sumOf (counting t) (writers s) =
    Z.of_nat (length (parkedLocal (iot s t) ++ parkedHead (iot s t))) + uncounted (iot s t);
  lp_wake t : (drains (iot s t) + posting s t)%nat = (if durableWakeQueued (iot s t) then 1 else 0)%nat;
  lp_registered t : durableRegistered (iot s t) = true -> t ∈ loops_ s \/ t ∈ gone s;
  lp_parked t x : isParked s t x -> t ∈ iots /\ t ∉ gone s /\ (t ∈ loops_ s \/ exists w p, writers s !! w = Some p /\ parksOn p = Some t);
}.
(** Nothing that is covered is forgotten. *)
Definition attended (s : state) (t : ptr) (local : bool) (x : parkedReq) : Prop :=
  parkGen_ s <> (seen s).1 \/ toWake s t \/ durableWakeQueued (iot s t) = true \/ drainAt (iot s t) = DTake \/
  (local = true /\ drainAt (iot s t) = DAnswer) \/ (seen s).2 < x.2.
Record live_ok (s : state) : Prop := mkLive {
  lv_head t x : x ∈ parkedHead (iot s t) -> busy s \/ attended s t false x;
  lv_local t x : x ∈ parkedLocal (iot s t) -> busy s \/ attended s t true x;
  lv_ledger e : e ∈ ledger_ s -> busy s \/ parkGen_ s <> (seen s).1 \/ (exists b g d, notifier s = NRelease b g d) \/ (seen s).2 < e.1;
}.

(** ** Single facts *)
Lemma iot_onLoop s t f t' : iot (onLoop s t f) t' = if decide (t' = t) then f (iot s t) else iot s t'.
Proof. unfold onLoop. cbn. unfold const. destruct (decide (t' = t)) as [->|]; [by rewrite fn_lookup_insert|by rewrite fn_lookup_insert_ne]. Qed.
Lemma parkBatch_script h lsn bytes st l h' posted : haveNotifier cfg = true -> parkBatch cfg h lsn bytes st l = (h', posted) -> script lsn posted.
Proof.
  unfold parkBatch. intros ->. set (runs := ownerRuns _). assert (Hp : Forall (handsOver lsn) (parkRuns runs).1).
  { induction runs as [|[[t|] g] runs IH]; cbn; [constructor|constructor; [done|exact IH]|exact IH]. }
  destruct (parkRuns runs) as [parked orphans]. intros [= _ <-]. eexists (parked ++ _), bytes. rewrite <- app_assoc. split; [done|].
  apply Forall_app. split; [exact Hp|]. destruct orphans; repeat constructor.
Qed.
Lemma script_cons lsn x l : script lsn (x :: l) -> (handsOver lsn x /\ script lsn l) \/ ((exists b, x = LedgerBytes lsn b) /\ l = []).
Proof.
  intros (l0 & b & E & Hf). destruct l0 as [|y l0]; cbn in E; injection E as -> ->; [right; split; [by exists b|done]|left].
  apply Forall_cons_1 in Hf as [Hy Hf]. split; [done|]. by exists l0, b.
Qed.

Definition touches (p : writerPc) (t : ptr) : Prop := parksOn p = Some t \/ mentions t (todoOf p).
Lemma mentions_cons t x l : mentions t l -> mentions t (x :: l).
Proof. intros [g Hg]. exists g. by right. Qed.
Lemma scripts_go s s' w p p' : scripts_ok s -> writers s !! w = Some p -> writers s' = <[w := p']> (writers s) -> tailLSN s' = tailLSN s -> gone s' = gone s ->
  (script_ok p -> script_ok p') -> lsnOf p' = lsnOf p -> (forall t, touches p' t -> touches p t) -> scripts_ok s'.
Proof.
  intros [H1 H2] Hw E1 E2 E3 Hs Hl Ht. destruct (H1 _ _ Hw) as [Hok Htail].
  split; rewrite E1; [intros w' q|intros w' q t]; intros Hq; apply list_lookup_insert_Some in Hq as [(-> & <- & _)|(Hne & Hq)]; rewrite ?E2, ?E3.
  - rewrite Hl. auto.
  - by apply H1 in Hq.
  - intros Hm. eapply H2; [exact Hw|]. by apply Ht.
  - exact (H2 _ _ _ Hq).
Qed.
Lemma scripts_step s l s' : scripts_ok s -> step s l s' -> scripts_ok s'.
Proof.
  intros H Hs. destruct Hs as [lsn Ht| |w lsn0 h lsn bytes st l h' posted Hw Hn Hl Hb Hp Ha|w lsn t g todo Hw|w lsn t n todo Hw|w lsn t todo Hw _|
    w lsn t todo Hw _|w lsn t todo Hw _ _|w lsn t todo Hw _ _|w lsn lsn' st b g todo Hw|w lsn lsn' bytes todo Hw|w lsn todo Hw| | | | | | | | | | | | | | | | | | | | | |t _ _ _ Hu];
    try (destruct H as [HA HB]; by split).
  - destruct H as [H1 H2]. split; [|exact H2]. intros w p Hp. cbn. apply H1 in Hp. unfold const. lia || (destruct Hp; split; [done|lia]).
  - destruct H as [H1 H2]. split; cbn; unfold const; intros w' q; [intros Hq|intros t Hq]; apply list_lookup_insert_Some in Hq as [(-> & <- & _)|(Hne & Hq)].
    + split; [|done]. right. by eapply parkBatch_script.
    + by apply H1 in Hq.
    + intros [?|Hm]; [done|]. by apply Ha.
    + exact (H2 _ _ _ Hq).
  - eapply (scripts_go s); [exact H|exact Hw|done|done|done|..]; cbn.
    + intros [?|Hx]; [done|]. by apply script_cons in Hx as [[_ Hx]|[[b ?] _]].
    + done.
    + intros t' [[= <-]|Hm]; right; [exists g; by left|by apply mentions_cons].
  - by eapply (scripts_go s); [exact H|exact Hw|..].
  - eapply (scripts_go s); [exact H|exact Hw|done|done|done|..]; cbn; [tauto|done|]. intros t' [?|Hm]; [done|by right].
  - by eapply (scripts_go s); [exact H|exact Hw|..].
  - eapply (scripts_go s); [exact H|exact Hw|done|done|done|..]; cbn; [tauto|done|]. intros t' [?|Hm]; [done|by right].
  - eapply (scripts_go s); [exact H|exact Hw|done|done|done|..]; cbn; [tauto|done|]. intros t' [?|Hm]; [done|by right].
  - eapply (scripts_go s); [exact H|exact Hw|done|done|done|..]; cbn.
    + intros [?|Hx]; [done|]. apply script_cons in Hx as [[_ Hx]|[[b' ?] _]]; [by right|done].
    + done.
    + intros t' [?|Hm]; [done|]. right. by apply mentions_cons.
  - eapply (scripts_go s); [exact H|exact Hw|done|done|done|..]; cbn.
    + intros [?|Hx]; [done|]. by apply script_cons in Hx as [[[] _]|[_ ->]].
    + done.
    + intros t' [?|Hm]; [done|]. right. by apply mentions_cons.
  - eapply (scripts_go s); [exact H|exact Hw|done|done|done|..]; cbn; [tauto|done|]. intros t' [?|Hm]; [done|by right].
  - destruct H as [H1 H2]. split; [exact H1|]. intros w p t' Hp Hm. destruct (H2 _ _ _ Hp Hm) as [? Hg]. split; [done|]. cbn. unfold const.
    apply not_elem_of_cons. split; [|done]. intros ->. specialize (Hu _ _ Hp). destruct p; cbn in *; naive_solver.
Qed.

Lemma isParked_onLoop s t f t' x : isParked (onLoop s t f) t' x <->
  if decide (t' = t) then x ∈ parkedLocal (f (iot s t)) ++ parkedHead (f (iot s t)) else isParked s t' x.
Proof. unfold isParked. rewrite iot_onLoop. by destruct (decide (t' = t)). Qed.

(** What is parked was parked before, or has just been. *)
Lemma parked_step s l s' t x : step s l s' -> isParked s' t x ->
  isParked s t x \/ exists w lsn g todo, writers s !! w = Some (WRun lsn (Parked t g :: todo)) /\ s' = onLoop (goW s w (WCount lsn t (length g) todo)) t
    (fun x => { x with parkedHead := ((fun p => (p, lsn)) <$> g) ++ parkedHead x }) /\ x.2 = lsn.
Proof.
  intros Hs. destruct Hs; try (by left).
  all: intros Hx; try (apply isParked_onLoop in Hx; cbn in Hx; unfold const in Hx; destruct (decide _) as [->|]; by left).
  - apply isParked_onLoop in Hx. destruct (decide _) as [->|]; [|by left]. cbn in Hx. unfold const in Hx.
    apply elem_of_app in Hx as [Hx|Hx]; [left; apply elem_of_app; by left|]. apply elem_of_app in Hx as [(p & -> & _)%list_elem_of_fmap|Hx]; [|left; apply elem_of_app; by right].
    right. by exists w, lsn, g, todo.
  - left. apply isParked_onLoop in Hx. destruct (decide _) as [->|]; [|done]. cbn in Hx. unfold const in Hx. by rewrite app_nil_r in Hx.
  - left. apply isParked_onLoop in Hx. destruct (decide _) as [->|]; [|done]. cbn in Hx. unfold const in Hx.
    apply elem_of_app. apply elem_of_app in Hx as [[_ Hx]%list_elem_of_filter|Hx]; auto.
Qed.

Lemma log_step s l s' : scripts_ok s -> log_ok s -> step s l s' -> log_ok s'.
Proof.
  intros [Hsc _] [H1 H2 H3 H4 H5 H6 H7] Hs. unfold seen in H2, H4. destruct H4 as [H4 H4'].
  assert (Hp : tailLSN s <= tailLSN s' -> forall t x, isParked s' t x -> x.2 <= tailLSN s').
  { intros Hle t x Hx. destruct (parked_step _ _ _ _ _ Hs Hx) as [Hx'|(w & lsn & g & todo & Hw & -> & ->)]; [specialize (H5 _ _ Hx'); lia|].
    apply Hsc in Hw as [_ Hw]. exact Hw. }
  destruct Hs; try match goal with E : notifier s = _ |- _ => rewrite E in H2, H4; cbn in H2, H4 end;
    (split; [..|apply Hp; done || (cbn; unfold const; lia)|try exact H6|try exact H7]); unfold seen; cbn -[Z.le Z.add Z.lt]; unfold const;
    try match goal with E : notifier s = _ |- _ => rewrite ?E end; cbn -[Z.le Z.add Z.lt]; try done; try lia.
  - intros e He. specialize (H6 e He). lia.
  - intros x Hx. specialize (H7 x Hx). lia.
  - intros e He%elem_of_app. destruct He as [He|He]; [auto|]. apply list_elem_of_singleton in He as ->. apply Hsc in H as [[?|Hx] Hl]; [done|].
    cbn in Hl. apply script_cons in Hx as [[[] _]|[[b [= -> _]] _]]. done.
  - split; [lia|]. intros b g Eg. specialize (H4' _ _ Eg). lia.
  - split; [done|]. intros b' g [= _ <-]. done.
  - split; [by eapply H4'|done].
  - intros e [_ He]%list_elem_of_filter. auto.
  - intros x Hx%elem_of_app. destruct Hx as [Hx|(r & -> & [Hc _]%list_elem_of_filter)%list_elem_of_fmap]; [auto|]. cbn. unfold covered in Hc. lia.
Qed.

Ltac on_loop t' t := rewrite ?iot_onLoop; destruct (decide (t' = t)) as [->|]; cbn -[Z.add Z.of_nat]; unfold const.

Lemma count_step s l s' : loops_ok s -> step s l s' -> forall t, parkedCount (iot s' t) + sumOf (counting t) (writers s') =
    Z.of_nat (length (parkedLocal (iot s' t) ++ parkedHead (iot s' t))) + uncounted (iot s' t).
Proof.
  intros [H _ _ _] Hs t'. specialize (H t').
  assert (Hg : forall w p p', writers s !! w = Some p -> sumOf (counting t') (<[w := p']> (writers s)) = sumOf (counting t') (writers s) - counting t' p + counting t' p')
    by (intros; by apply sumOf_insert).
  destruct Hs; try exact H; try (cbn -[Z.add Z.of_nat]; unfold const; erewrite Hg by eassumption; cbn -[Z.add Z.of_nat]; unfold const in *; lia).
  all: rewrite !iot_onLoop; destruct (decide _) as [->|Hne]; cbn -[Z.add Z.of_nat]; unfold const; try (erewrite Hg by eassumption); cbn -[Z.add Z.of_nat];
    rewrite ?decide_True, ?decide_False by congruence; rewrite ?length_app, ?length_fmap in *; unfold uncounted in *; cbn -[Z.add Z.of_nat] in *;
    repeat match goal with E : drainAt _ = _ |- _ => rewrite E in H; clear E end; try done; try lia.
  pose proof (length_filter_split (covered (durableLSN s)) (parkedLocal (iot s t))). lia.
Qed.

Lemma wake_step s l s' : loops_ok s -> step s l s' -> forall t, (drains (iot s' t) + posting s' t)%nat = (if durableWakeQueued (iot s' t) then 1 else 0)%nat.
Proof.
  intros [_ H _ _] Hs t'. specialize (H t'). unfold posting in *.
  destruct Hs; try exact H; try match goal with E : notifier s = _ |- _ => rewrite E in H end; try (exact H).
  all: rewrite ?iot_onLoop; try destruct (decide (t' = t)) as [->|Hne]; cbn in *; unfold const in *; cbn in *; rewrite ?decide_True, ?decide_False in * by congruence; try done; try lia.
  - rewrite H1 in H. lia.
  - rewrite H1 in H. destruct (durableWakeQueued (iot s t)); lia.
Qed.

Lemma registered_step s l s' : loops_ok s -> step s l s' -> forall t, durableRegistered (iot s' t) = true -> t ∈ loops_ s' \/ t ∈ gone s'.
Proof.
  intros [_ _ H _] Hs t'. specialize (H t'). destruct Hs; try exact H.
  all: rewrite ?iot_onLoop; try destruct (decide (t' = t)) as [->|Hne]; cbn; unfold const; try exact H.
  - intros _. left. apply elem_of_app. right. by apply list_elem_of_singleton.
  - intros [Hl|Hg]%H; [|by right]. left. apply elem_of_app. by left.
  - intros _. right. left.
  - intros [Hl|Hg]%H; [left; by apply list_elem_of_filter|]. right. by right.
Qed.

(** Every way to be registered goes through a writer that parks there. *)
Definition parkingOn (s : state) (t : ptr) : Prop := t ∈ loops_ s \/ exists w p, writers s !! w = Some p /\ parksOn p = Some t.
Lemma parkingOn_go s s' w p p' t : writers s !! w = Some p -> writers s' = <[w := p']> (writers s) -> (forall x, x ∈ loops_ s -> x ∈ loops_ s') ->
  (parksOn p = Some t -> parksOn p' = Some t \/ t ∈ loops_ s') -> parkingOn s t -> parkingOn s' t.
Proof.
  intros Hw E Hl Hp [Ht|(w' & q & Hq & Ht)]; [left; by apply Hl|]. destruct (decide (w' = w)) as [->|Hne].
  - rewrite Hw in Hq. injection Hq as <-. destruct (Hp Ht) as [Ht'|?]; [|by left]. right. exists w, p'. rewrite E. split; [|done].
    apply list_lookup_insert_eq. by eapply lookup_lt_Some.
  - right. exists w', q. rewrite E. by rewrite list_lookup_insert_ne.
Qed.
Lemma parkingOn_step s l s' t : loops_ok s -> t ∉ gone s' -> step s l s' -> parkingOn s t -> parkingOn s' t.
Proof.
  intros [_ _ Hr _] Hg Hs. destruct Hs; try (intros Hp; exact Hp);
    try (eapply (parkingOn_go s); [eassumption|reflexivity|done|]; cbn; intros [= <-]; auto; fail).
  - eapply (parkingOn_go s); [eassumption|reflexivity|done|]. intros [= <-]. right. by destruct (Hr _ H0).
  - eapply (parkingOn_go s); [eassumption|reflexivity|done|]. intros [= <-]. right. by destruct (Hr _ H1).
  - eapply (parkingOn_go s); [eassumption|reflexivity|..]; cbn; unfold const.
    + intros x Hx. apply elem_of_app. by left.
    + intros [= <-]. right. apply elem_of_app. right. by apply list_elem_of_singleton.
  - intros [Ht|Ht]; [|by right]. left. cbn in *. unfold const in *. apply list_elem_of_filter. split; [|done]. intros ->. apply Hg. left.
Qed.
Lemma parkedOn_step s l s' : scripts_ok s -> loops_ok s -> step s l s' -> forall t x, isParked s' t x -> t ∈ iots /\ t ∉ gone s' /\ parkingOn s' t.
Proof.
  intros Hsc Hl Hs t x Hx. destruct (parked_step _ _ _ _ _ Hs Hx) as [Hx'|(w & lsn & g & todo & Hw & -> & Hlsn)].
  - destruct (lp_parked _ Hl _ _ Hx') as (Hi & Hg & Hp). assert (Hg' : t ∉ gone s').
    { destruct Hs; try exact Hg. cbn. unfold const. intros [->|?]%elem_of_cons; [|done]. unfold isParked in Hx'. rewrite H0, H1 in Hx'. by apply not_elem_of_nil in Hx'. }
    split; [done|]. split; [done|]. by eapply parkingOn_step.
  - destruct (sc_alive _ Hsc _ _ t Hw) as [Hi Hg]; [right; exists g; by left|]. split; [done|]. split; [done|].
    right. exists w, (WCount lsn t (length g) todo). split; [|reflexivity]. cbn. unfold const. apply list_lookup_insert_eq. by eapply lookup_lt_Some.
Qed.
Lemma loops_step s l s' : scripts_ok s -> loops_ok s -> step s l s' -> loops_ok s'.
Proof.
  intros Hsc Hl Hs. split; [by eapply count_step|by eapply wake_step|by eapply registered_step|by eapply parkedOn_step].
Qed.

(** Until its last operation a writer is busy, and that raises [parkGen_]. *)
Lemma script_busy lsn l : script lsn l -> idleW (WRun lsn l) = false.
Proof. intros (l0 & b & -> & _). by destruct l0. Qed.
Lemma go_busy s s' w p p' : writers s !! w = Some p -> writers s' = <[w := p']> (writers s) -> idleW p' = false -> busy s'.
Proof. intros Hw E Hp. exists w, p'. rewrite E. split; [|done]. apply list_lookup_insert_eq. by eapply lookup_lt_Some. Qed.
Lemma writer_step s l s' : scripts_ok s -> log_ok s -> step s l s' -> writers s' = writers s \/ busy s' \/ parkGen_ s' <> (seen s').1.
Proof.
  intros [Hsc _] Hlg Hs. destruct Hs; try (by left); right.
  - left. eapply (go_busy s); [eassumption|reflexivity|]. apply script_busy. by eapply parkBatch_script.
  - left. by eapply (go_busy s); [eassumption|reflexivity|].
  - left. by eapply (go_busy s); [eassumption|reflexivity|].
  - left. eapply (go_busy s); [eassumption|reflexivity|]. apply script_busy. by apply Hsc in H as [? _].
  - left. by eapply (go_busy s); [eassumption|reflexivity|].
  - left. eapply (go_busy s); [eassumption|reflexivity|]. apply script_busy. by apply Hsc in H as [? _].
  - left. eapply (go_busy s); [eassumption|reflexivity|]. apply script_busy. by apply Hsc in H as [? _].
  - left. eapply (go_busy s); [eassumption|reflexivity|]. apply script_busy. apply Hsc in H as [[?|Hx] _]; [done|].
    apply script_cons in Hx as [[_ ?]|[[? ?] _]]; done.
  - left. by eapply (go_busy s); [eassumption|reflexivity|].
  - right. cbn. unfold const. pose proof (proj1 (lg_gen _ Hlg)) as Hle. unfold seen in *. cbn. unfold const. lia.
Qed.
Lemma busy_dec s : busy s \/ ~ busy s.
Proof.
  destruct (decide (Exists (fun p => idleW p = false) (writers s))) as [He|Hn].
  - left. apply Exists_exists in He as (p & [w Hw]%list_elem_of_In%list_elem_of_lookup & Hp). by exists w, p.
  - right. intros (w & p & Hw & Hp). apply Hn, Exists_exists. exists p. split; [by eapply list_elem_of_In, list_elem_of_lookup_2|done].
Qed.
(** With no writer busy, what is parked is counted and its loop is on the list. *)
Lemma idle_counted s t x : loops_ok s -> ~ busy s -> isParked s t x -> 0 < parkedCount (iot s t) /\ t ∈ loops_ s.
Proof.
  intros Hlp Hn Hx. assert (Hc : sumOf (counting t) (writers s) = 0).
  { apply sumOf_0, Forall_lookup. intros w p Hw. destruct p; try done. destruct Hn. by eexists _, _. }
  pose proof (lp_count _ Hlp t) as E. split.
  - unfold isParked in Hx. assert (0 < length (parkedLocal (iot s t) ++ parkedHead (iot s t)))%nat by (destruct (_ ++ _); [by apply not_elem_of_nil in Hx|cbn; lia]).
    assert (0 <= uncounted (iot s t)) by (unfold uncounted; destruct (drainAt (iot s t)); lia). lia.
  - destruct (lp_parked _ Hlp _ _ Hx) as (_ & _ & [?|(w & p & Hw & Hpk)]); [done|]. destruct Hn. exists w, p. split; [done|]. by destruct p.
Qed.
(** What is attended stays so until it is answered. *)
Lemma attended_step s l s' t (local : bool) x : log_ok s -> loops_ok s -> ~ busy s -> isParked s t x -> step s l s' -> writers s' = writers s ->
  (if local then x ∈ parkedLocal (iot s' t) else x ∈ parkedHead (iot s' t)) ->
  attended s t local x -> attended s' t local x \/ (local = false /\ parkedHead (iot s' t) = []).
Proof.
  intros Hlg Hlp Hn Hx Hs Ew Hx' H. destruct (idle_counted _ _ _ Hlp Hn Hx) as [Hc Hr]. unfold attended in *.
  assert (Hd : (seen s).2 <= durableLSN s) by apply Hlg. pose proof (lp_wake _ Hlp t) as Hk. unfold posting in Hk.
  destruct Hs as [| | | | | | | | | | | | | | | | | |b g d t0 todo En Hc0|b g d t0 todo En Hc0|b g d t0 todo En Hq|b g d t0 todo En Hq|b g d t0 todo En|b g d En| | | | |t0 n E1 E2|t0 E1|t0 E1|t0 n E1| |t0];
    try (destruct Hn; by eexists _, _);
    unfold seen, toWake in *; rewrite ?iot_onLoop in *; try match goal with E : notifier s = _ |- _ => rewrite E in H, Hd, Hk end;
    try destruct (decide (t = t0)) as [->|Hne]; cbn in *; unfold const in *; rewrite ?elem_of_cons, ?elem_of_nil in H; try tauto; try (exfalso; lia).
  - rewrite decide_True in Hk by done. destruct (durableWakeQueued (iot s t0)); [tauto|lia].
  - destruct local; [tauto|]. by right.
  - left. destruct local; [apply list_elem_of_filter in Hx' as [Hx' _]; unfold covered in Hx'; do 5 right; lia|]. rewrite E1 in H. intuition congruence.
  - left. rewrite E1 in H. intuition congruence.
Qed.
Lemma where_step s l s' t x : ~ busy s -> step s l s' ->
  (x ∈ parkedHead (iot s' t) -> x ∈ parkedHead (iot s t) /\ parkedHead (iot s' t) <> []) /\
  (x ∈ parkedLocal (iot s' t) -> x ∈ parkedLocal (iot s t) \/ drainAt (iot s' t) = DAnswer).
Proof.
  intros Hn Hs. assert (Hne : forall l : list parkedReq, x ∈ l -> l <> []) by (by intros l0 Hl ->; apply not_elem_of_nil in Hl).
  destruct Hs as [| | | | | | | | | | | | | | | | | | | | | | | | | | | |t0 n E1 E2|t0 E1|t0 E1|t0 n E1| |t0]; try (destruct Hn; by eexists _, _);
    rewrite ?iot_onLoop; try destruct (decide _) as [->|]; cbn; unfold const; try (split; [intros Hx; split; [exact Hx|by apply Hne]|tauto]).
  - split; [by intros ?%not_elem_of_nil|]. auto.
  - split; [intros Hx; split; [exact Hx|by apply Hne]|]. intros [_ Hx]%list_elem_of_filter. by left.
Qed.
Lemma live_step s l s' : scripts_ok s -> log_ok s -> loops_ok s -> live_ok s -> step s l s' -> live_ok s'.
Proof.
  intros Hsc Hlg Hlp [Hh Hlo Hl] Hs. destruct (writer_step _ _ _ Hsc Hlg Hs) as [Ew|Hb]; [|split; unfold attended; intros; tauto].
  destruct (busy_dec s) as [Hb|Hn]; [split; intros; left; unfold busy; by rewrite Ew|]. split.
  - intros t x Hx. right. destruct (where_step _ _ _ t x Hn Hs) as [Hw _]. destruct (Hw Hx) as [Hx0 Hne]. destruct (Hh _ _ Hx0) as [?|Ha]; [done|].
    edestruct (attended_step s l s' t false x) as [?|[_ ?]]; try done. unfold isParked. apply elem_of_app. by right.
  - intros t x Hx. right. destruct (where_step _ _ _ t x Hn Hs) as [_ Hw]. destruct (Hw Hx) as [Hx0|Hd]; [|unfold attended; tauto].
    destruct (Hlo _ _ Hx0) as [?|Ha]; [done|]. edestruct (attended_step s l s' t true x) as [?|[? _]]; try done. unfold isParked. apply elem_of_app. by left.
  - intros e He. right. assert (He' : e ∈ ledger_ s) by (destruct Hs; try exact He; [by destruct Hn; eexists _, _|by apply list_elem_of_filter in He as [_ ?]]).
    destruct (Hl _ He') as [?|H]; [done|]. destruct Hs as [| | | | | | | | | | | | | |b g En Hm| |b g d En| | | | | | | | | | | | | | | | |]; try (destruct Hn; by eexists _, _);
      unfold seen in *; try match goal with E : notifier s = _ |- _ => rewrite E in H end; cbn in *; unfold const in *;
      (destruct H as [H|[(b' & g' & d' & E')|H]]; [try tauto|try discriminate E'|try tauto]); try (right; left; by eexists _, _, _).
    all: try match goal with E : notifier _ = NRelease _ _ _ |- _ => apply list_elem_of_filter in He as [He _]; unfold due in He; right; right; lia end.
Qed.

(** ** The system *)
Record durable_ok (s : state) : Prop := mkDurable {
  do_scripts : scripts_ok s; do_log : log_ok s; do_loops : loops_ok s; do_live : live_ok s }.
Lemma durable_step s l s' : durable_ok s -> step s l s' -> durable_ok s'.
Proof. intros [H1 H2 H3 H4] Hs. split; [by eapply scripts_step|by eapply log_step|by eapply loops_step|by eapply live_step]. Qed.
Lemma durable_start n d : 0 <= d -> durable_ok (start n d).
Proof.
  intros Hd. assert (Hw : forall w p, writers (start n d) !! w = Some p -> p = WRun 0 []) by (intros w p [-> _]%lookup_replicate; done).
  split; split; cbn; try done; try (intros; by apply not_elem_of_nil in H); try (by intros ? ? ?%not_elem_of_nil).
  - intros w p ->%Hw. split; [by left|done].
  - intros w p t ->%Hw [?|[g Hg%not_elem_of_nil]]; done.
  - intros t. rewrite sumOf_0; [done|]. apply Forall_lookup. by intros w p ->%Hw.
Qed.
Lemma durable_reach n d given s : 0 <= d -> reach n d given s -> durable_ok s.
Proof. intros Hd. induction 1; [by apply durable_start|by eapply durable_step]. Qed.

(** ** Accounts *)
Definition onIt (x : IOLoop) : list ptr := (parkedLocal x ++ parkedHead x).*1.
Definition parkedAll (s : state) : list ptr := concat ((fun t => onIt (iot s t)) <$> iots).
Definition inhand (s : state) : list ptr := concat ((fun p => postedReqs (todoOf p)) <$> writers s).
Definition awaited (s : state) : list ptr := concat (snd <$> awaiting s).
Definition answeredReqs (s : state) : list ptr := (answered s).*1.*1.
Definition returning (s : state) : Z := match notifier s with NReturn _ _ _ b => b | _ => 0 end.

Definition holds (p : ptr) (s : state) : Z :=
  occ p (answeredReqs s) + sumOf (fun t => occ p (onIt (iot s t))) iots + sumOf (fun w => occ p (postedReqs (todoOf w))) (writers s) + occ p (awaited s).
Definition owes (s : state) : Z := ledgerSum (ledger_ s) + sumOf (fun w => postedBytes (todoOf w)) (writers s) + returning s.

Section accounts.
Hypothesis distinct : NoDup iots.

Lemma loops_change p s t f : (t ∈ iots \/ occ p (onIt (f (iot s t))) = occ p (onIt (iot s t))) ->
  sumOf (fun t' => occ p (onIt (iot (onLoop s t f) t'))) iots = sumOf (fun t' => occ p (onIt (iot s t'))) iots - occ p (onIt (iot s t)) + occ p (onIt (f (iot s t))).
Proof.
  intros H. rewrite (sumOf_change (fun t' => occ p (onIt (iot s t'))) _ iots t distinct).
  - rewrite iot_onLoop, decide_True by done. done.
  - intros y Hy. by rewrite iot_onLoop, decide_False.
  - rewrite iot_onLoop, decide_True by done. destruct H; auto.
Qed.
Lemma holds_step p s l s' : durable_ok s -> step s l s' -> holds p s' = holds p s + occ p l.
Proof.
  intros Hok Hs. unfold holds.
  assert (Hg : forall w q q', writers s !! w = Some q -> sumOf (fun w => occ p (postedReqs (todoOf w))) (<[w := q']> (writers s)) =
    sumOf (fun w => occ p (postedReqs (todoOf w))) (writers s) - occ p (postedReqs (todoOf q)) + occ p (postedReqs (todoOf q')))
    by (intros; by apply (sumOf_insert (fun w => occ p (postedReqs (todoOf w))))).
  unfold answeredReqs, awaited.
  destruct Hs; try (rewrite loops_change by (by right));
    try (unfold onIt; cbn -[Z.add postedReqs]; unfold const; try (erewrite Hg by eassumption); cbn -[Z.add postedReqs]; rewrite ?occ_nil; lia).
  - cbn -[Z.add postedReqs]. unfold const. erewrite Hg by eassumption. cbn -[Z.add postedReqs].
    match goal with E : parkBatch _ _ _ _ _ _ = _ |- _ => pose proof (parkBatch_spec cfg h lsn bytes st l) as Hb; rewrite E in Hb end.
    destruct Hb as [Hb _]. rewrite (proj1 (occ_perm _ _) Hb). change (postedReqs []) with (@nil ptr). rewrite occ_nil. lia.
  - rewrite loops_change; [|left; eapply (sc_alive _ (do_scripts _ Hok)); [eassumption|]; right; exists g; by left].
    unfold onIt. cbn -[Z.add postedReqs]. unfold const. erewrite Hg by eassumption. cbn -[Z.add]. rewrite !fmap_app, !occ_app, fmap_tag, occ_nil. fold (postedReqs todo). lia.
  - cbn -[Z.add postedReqs]. unfold const. erewrite Hg by eassumption. rewrite fmap_app, concat_app. cbn -[Z.add]. rewrite !occ_app, !occ_nil. fold (postedReqs todo). lia.
  - cbn -[Z.add postedReqs]. unfold const. erewrite Hg by eassumption. cbn -[Z.add]. rewrite occ_nil. fold (postedReqs todo). lia.
  - rewrite loops_change by (right; unfold onIt; cbn; unfold const; by rewrite app_nil_r). unfold onIt. cbn -[Z.add]. unfold const. rewrite app_nil_r, occ_nil. lia.
  - rewrite loops_change.
    + unfold onIt. cbn -[Z.add]. unfold const. rewrite !fmap_app, !occ_app, fmap_tag, occ_nil.
      assert (E : (parkedLocal (iot s t)).*1 ≡ₚ (filter (covered (durableLSN s)) (parkedLocal (iot s t))).*1 ++ (filter (fun r => ~ covered (durableLSN s) r) (parkedLocal (iot s t))).*1).
      { rewrite <- fmap_app. f_equiv. symmetry. apply filter_app_complement. }
      rewrite (proj1 (occ_perm _ _) E), occ_app. lia.
    + destruct (parkedLocal (iot s t)) as [|x rest] eqn:E; [right; unfold onIt; cbn; unfold const; by rewrite E|left].
      apply (lp_parked _ (do_loops _ Hok) t x). unfold isParked. rewrite E. left.
Qed.
Lemma owes_step s l s' : durable_ok s -> step s l s' -> queued s' - owes s' = queued s - owes s.
Proof.
  intros Hok Hs. unfold owes, returning.
  assert (Hg : forall w q q', writers s !! w = Some q -> sumOf (fun w => postedBytes (todoOf w)) (<[w := q']> (writers s)) =
    sumOf (fun w => postedBytes (todoOf w)) (writers s) - postedBytes (todoOf q) + postedBytes (todoOf q'))
    by (intros; by apply (sumOf_insert (fun w => postedBytes (todoOf w)))).
  destruct Hs; try match goal with E : notifier s = _ |- _ => rewrite E end; cbn -[Z.add postedBytes]; unfold const; try (erewrite Hg by eassumption); cbn -[Z.add]; try lia.
  - match goal with E : parkBatch _ _ _ _ _ _ = _ |- _ => pose proof (parkBatch_spec cfg h lsn bytes st l) as Hb; rewrite E in Hb end.
    destruct Hb as [_ Hb]. fold (postedBytes posted). lia.
  - destruct (sc_ok _ (do_scripts _ Hok) _ _ H) as [[?|Hx] _]; [done|]. apply script_cons in Hx as [[[_ ->] _]|[[? ?] _]]; [|done]. lia.
  - unfold ledgerSum. rewrite sumOf_app. unfold sumOf at 2. cbn -[Z.add]. lia.
  - unfold ledgerSum. pose proof (sumOf_filter_split (due d) snd (ledger_ s)). lia.
Qed.

(** Nobody has anything to do: the writers are done, no drain is posted or
    running, and the notifier is between passes and has seen everything. *)
Definition betweenPasses (n : notifierPc) : bool :=
  match n with NTop | NGen _ | NDurable _ _ | NRest _ _ | NAwait _ => true | _ => false end.
Definition quiet (s : state) : Prop :=
  Forall (fun p => idleW p = true) (writers s) /\ (forall t, drains (iot s t) = 0%nat /\ drainAt (iot s t) = DIdle) /\
  betweenPasses (notifier s) = true /\ lastD s = durableLSN s /\ lastG s = parkGen_ s.

Lemma quiet_covered s : durable_ok s -> quiet s ->
  (forall t x, isParked s t x -> durableLSN s < x.2) /\ (forall e, e ∈ ledger_ s -> durableLSN s < e.1).
Proof.
  intros [_ _ Hlp [Hh Hlo Hl]] (Hi & Hd & Hn & ED & EG).
  assert (Hb : ~ busy s). { intros (w & p & Hw & Hp). rewrite Forall_lookup in Hi. specialize (Hi _ _ Hw). congruence. }
  assert (Hs : seen s = (lastG s, lastD s)) by (unfold seen; by destruct (notifier s)).
  assert (Ha : forall t b x, attended s t b x -> durableLSN s < x.2).
  { intros t b x. unfold attended, toWake. rewrite Hs. cbn. destruct (Hd t) as [E1 E2]. rewrite E2, EG, ED. pose proof (lp_wake _ Hlp t) as Hw. rewrite E1 in Hw.
    unfold posting in Hw. destruct (notifier s); try done; destruct (durableWakeQueued (iot s t)); cbn in Hw; try lia; naive_solver. }
  split.
  - intros t x [Hx|Hx]%elem_of_app; [destruct (Hlo _ _ Hx) as [?|?]|destruct (Hh _ _ Hx) as [?|?]]; eauto; done.
  - intros e He. rewrite Hs in Hl. cbn in Hl. destruct (Hl e He) as [?|[?|[(b & g & d & E)|?]]]; [done|lia|by rewrite E in Hn|lia].
Qed.

Lemma concat_nil {A B} (f : A -> list B) l : Forall (fun x => f x = []) l -> concat (f <$> l) = [].
Proof. induction 1 as [|x l Hx _ IH]; cbn; [done|]. by rewrite Hx, IH. Qed.
(** With the log durable to its end, a quiet system holds nothing. *)
Lemma quiet_empty s : durable_ok s -> quiet s -> durableLSN s = tailLSN s -> parkedAll s = [] /\ inhand s = [] /\ owes s = 0.
Proof.
  intros Hok Hqt E. destruct (quiet_covered _ Hok Hqt) as [Hp Hl]. destruct Hqt as (Hi & _ & Hn & _).
  assert (Htodo : Forall (fun p => todoOf p = []) (writers s)) by (eapply Forall_impl; [|exact Hi]; by intros [? []| | | |]).
  split; [|split].
  - unfold parkedAll. apply concat_nil, Forall_forall. intros t _. unfold onIt.
    destruct (parkedLocal (iot s t) ++ parkedHead (iot s t)) as [|x l] eqn:El; [done|]. assert (Hx : isParked s t x) by (unfold isParked; rewrite El; left).
    pose proof (Hp _ _ Hx). pose proof (lg_parked _ (do_log _ Hok) _ _ Hx). lia.
  - unfold inhand. apply concat_nil. eapply Forall_impl; [|exact Htodo]. intros p Hx. cbv beta in *. by rewrite Hx.
  - unfold owes, returning. rewrite (sumOf_0 (fun w => postedBytes (todoOf w))); [|eapply Forall_impl; [|exact Htodo]; intros p Hx; cbv beta in *; by rewrite Hx].
    destruct (ledger_ s) as [|e l] eqn:El; [by destruct (notifier s)|]. assert (He : e ∈ ledger_ s) by (rewrite El; left).
    assert (Hle : durableLSN s < e.1) by (apply Hl; left). pose proof (lg_ledger _ (do_log _ Hok) _ He). lia.
Qed.

End accounts.
End system.
