(* ===== verification/DurableExamples.v ===== *)
(** * A run of the durable notifier

    One write parked on loop 9, the log flushed, the write answered. *)
From stdpp Require Import prelude gmap list functions.
From Stdlib Require Import ZArith Lia.
From S2P Require Import Prelude Request Persist Durable.
Open Scope Z_scope.

Definition durableConfig : PersistConfig := mkPersistConfig SortAlways false true true true (mkEngineConfig 0 64) 320.
Definition durableHeap : rheap :=
  {[1%positive := mkRequest None [97] [1] 1 0 7 0 0 0 0 (Some 5%positive) (Some 6%positive) (Some 9%positive) StOK 1 0 0 0 [] 0]}.

Lemma run_silent cfg iots n d given s s' : reach cfg iots n d given s -> step cfg iots s [] s' -> reach cfg iots n d given s'.
Proof. intros H Hs. rewrite <- (app_nil_r given). by eapply reach_step. Qed.
Lemma insert_here {T} (t : ptr) (x : T) f : fn_insert t x f t = x.
Proof. apply fn_lookup_insert. Qed.
Lemma insert_there {T} (t t' : ptr) (x : T) f : t' <> t -> fn_insert t x f t' = f t'.
Proof. intros Hne. by apply fn_lookup_insert_ne. Qed.
Ltac tidy H := repeat (progress (lazy -[fn_insert durableConfig] in H; rewrite ?insert_here in H)).
Ltac settle := cbn; solve [reflexivity | lia | auto | congruence].
Tactic Notation "run" hyp(H) "with" uconstr(c) := eapply run_silent in H; [|eapply c; settle]; tidy H.

