(* ===== verification/VBQueue.v ===== *)
(** * Who owns a vbucket's queue (engine.cc)

    IO threads push requests to a vbucket's queue without a lock and schedule a
    worker unless one is scheduled; a worker sweeps the queue, works and then
    releases it, re-arming it when requests arrived meanwhile.  The atomic
    operations of both sides are the steps of two transition systems, one for
    write queues (one owner, [VBQueue::scheduled]) and one for read queues
    (several owners, [VBQueue::readOwners]); steps of all threads interleave
    freely.  Shown: ownership is exclusive (bounded), writes are persisted in
    arrival order exactly once, and no push is stranded: a non-empty queue has
    a task, a worker, or a thread about to provide one. *)
From stdpp Require Import prelude list.
From Stdlib Require Import ZArith Lia.
From S2P Require Import Prelude.
Open Scope nat_scope.

Module WriteOwner.
Section write_owner.
Context {A : Type}.

(** [list] is newest first.  The counters are the numbers of threads at each
    point of the code; [running] holds, per worker, the batch it swept (in
    arrival order).  [written] and [arrived] record what has been written and
    pushed so far. *)
Record VBState := mkVBState {
  list_ : list A;
  scheduled : bool;
  tasks : nat;             (* queued, or waiting out the coalescing interval *)
  pushers : nat;           (* FlushStaged, after insertChain *)
  pushersWon : nat;        (* FlushStaged, exchange(true) returned false *)
  taken : nat;             (* workers that took a task *)
  running : list (list A); (* executePersist, after sweepOnce *)
  released : nat;          (* after scheduled.store(false) *)
  sawWork : nat;           (* found the list non-empty *)
  workersWon : nat;        (* release's exchange(true) returned false *)
  written : list A;
  arrived : list A;
}.

Definition init : VBState := mkVBState [] false 0 0 0 0 [] 0 0 0 [] [].

Inductive write_step : VBState -> VBState -> Prop :=
  (* FlushStaged: vbq.list.insertChain(st.first, st.last) *)
  | step_push c l s t p pw tk r rl sw ww wr ar :
      write_step (mkVBState l s t p pw tk r rl sw ww wr ar)
           (mkVBState (reverse c ++ l) s t (S p) pw tk r rl sw ww wr (ar ++ c))
  (* FlushStaged: scheduled.exchange(true) *)
  | step_push_lost l t p pw tk r rl sw ww wr ar :
      write_step (mkVBState l true t (S p) pw tk r rl sw ww wr ar)
           (mkVBState l true t p pw tk r rl sw ww wr ar)
  | step_push_won l t p pw tk r rl sw ww wr ar :
      write_step (mkVBState l false t (S p) pw tk r rl sw ww wr ar)
           (mkVBState l true t p (S pw) tk r rl sw ww wr ar)
  (* FlushStaged: SubmitOrDefer *)
  | step_submit l s t p pw tk r rl sw ww wr ar :
      write_step (mkVBState l s t p (S pw) tk r rl sw ww wr ar)
           (mkVBState l s (S t) p pw tk r rl sw ww wr ar)
  (* workerLoop: take a task *)
  | step_take l s t p pw tk r rl sw ww wr ar :
      write_step (mkVBState l s (S t) p pw tk r rl sw ww wr ar)
           (mkVBState l s t p pw (S tk) r rl sw ww wr ar)
  (* executePersist: sweepOnce and reverse *)
  | step_sweep l s t p pw tk r rl sw ww wr ar :
      write_step (mkVBState l s t p pw (S tk) r rl sw ww wr ar)
           (mkVBState [] s t p pw tk (reverse l :: r) rl sw ww wr ar)
  (* executePersist: WriteDocs *)
  | step_write l s t p pw tk b r1 r2 rl sw ww wr ar :
      write_step (mkVBState l s t p pw tk (r1 ++ b :: r2) rl sw ww wr ar)
           (mkVBState l s t p pw tk (r1 ++ [] :: r2) rl sw ww (wr ++ b) ar)
  (* release: scheduled.store(false), the batch being written *)
  | step_release l s t p pw tk r1 r2 rl sw ww wr ar :
      write_step (mkVBState l s t p pw tk (r1 ++ [] :: r2) rl sw ww wr ar)
           (mkVBState l false t p pw tk (r1 ++ r2) (S rl) sw ww wr ar)
  (* release: list.empty() *)
  | step_check_empty s t p pw tk r rl sw ww wr ar :
      write_step (mkVBState [] s t p pw tk r (S rl) sw ww wr ar)
           (mkVBState [] s t p pw tk r rl sw ww wr ar)
  | step_check_work l s t p pw tk r rl sw ww wr ar : l <> [] ->
      write_step (mkVBState l s t p pw tk r (S rl) sw ww wr ar)
           (mkVBState l s t p pw tk r rl (S sw) ww wr ar)
  (* release: scheduled.exchange(true) *)
  | step_rearm_lost l t p pw tk r rl sw ww wr ar :
      write_step (mkVBState l true t p pw tk r rl (S sw) ww wr ar)
           (mkVBState l true t p pw tk r rl sw ww wr ar)
  | step_rearm_won l t p pw tk r rl sw ww wr ar :
      write_step (mkVBState l false t p pw tk r rl (S sw) ww wr ar)
           (mkVBState l true t p pw tk r rl sw (S ww) wr ar)
  (* release: blockingWrite / SubmitOrDefer *)
  | step_resubmit l s t p pw tk r rl sw ww wr ar :
      write_step (mkVBState l s t p pw tk r rl sw (S ww) wr ar)
           (mkVBState l s (S t) p pw tk r rl sw ww wr ar).

Definition reachable (st : VBState) : Prop := rtc write_step init st.

(** Threads and tasks that hold the vbucket. *)
Definition owners (st : VBState) : nat :=
  pushersWon st + tasks st + taken st + length (running st) + workersWon st.

Record inv (st : VBState) : Prop := mkInv {
  inv_owner : owners st = if scheduled st then 1 else 0;
  inv_order : written st ++ concat (running st) ++ reverse (list_ st) = arrived st;
  inv_wake : list_ st <> [] -> scheduled st = true \/ 0 < pushers st + released st + sawWork st;
}.

Ltac vbsimpl :=
  unfold owners in *;
  cbn [list_ scheduled tasks pushers pushersWon taken running released sawWork workersWon written arrived] in *;
  rewrite ?length_app in *; cbn [length] in *.

Lemma inv_step st st' : inv st -> write_step st st' -> inv st'.
Proof.
  intros [Ho Hord Hw] Hst. destruct Hst; split; vbsimpl; try done; try lia; try (intros _; first [by left|right; lia]).
  - by rewrite reverse_app, reverse_involutive, !(assoc_L (++)), <- Hord, !(assoc_L (++)).
  - assert (r = []) as -> by (destruct s, r; simpl in Ho; [done|lia|done|lia]). simpl in *. by rewrite !app_nil_r.
  - assert (r1 = [] /\ r2 = []) as [-> ->] by (destruct s, r1, r2; simpl in Ho; try lia; done).
    simpl in *. by rewrite !app_nil_r, <- (assoc_L (++)) in *.
  - destruct s; lia.
  - rewrite !concat_app in *. exact Hord.
Qed.

Lemma reachable_inv st : reachable st -> inv st.
Proof.
  unfold reachable. intros H. assert (Hi : inv init) by by split. induction H as [|x y z Hs _ IH]; [done|].
  apply IH. by eapply inv_step.
Qed.
End write_owner.
Arguments VBState : clear implicits.


(** A push that lands between a writer's sweep and its release. *)
Definition late_push : VBState nat := mkVBState [2] true 1 0 0 0 [] 0 0 0 [1] [1; 2].

Lemma late_push_reachable : reachable late_push.
Proof.
  eapply rtc_l; [apply (step_push [1])|]. eapply rtc_l; [apply step_push_won|].
  eapply rtc_l; [apply step_submit|]. eapply rtc_l; [apply step_take|]. eapply rtc_l; [apply step_sweep|].
  eapply rtc_l; [apply (step_push [2])|]. eapply rtc_l; [apply step_push_lost|].
  eapply rtc_l; [apply (step_write _ _ _ _ _ _ _ [] [])|].
  eapply rtc_l; [apply (step_release _ _ _ _ _ _ [] [])|]. eapply rtc_l; [by apply step_check_work|].
  eapply rtc_l; [apply step_rearm_won|]. eapply rtc_l; [apply step_resubmit|]. apply rtc_refl.
Qed.

End WriteOwner.

Module ReadOwner.
Section read_owner.
Context {A : Type}.
(** [gMaxReadOwners] and [gMaxReadBatch]. *)
Context (maxOwners maxBatch : nat).

(** [list_] is newest first, [overflow] oldest first; [readDepth] may lag.
    [loaded0] and [loadedSome] are the IO threads in EnqueueRead's loop whose
    [owners] variable is zero, or not. *)
Record RVBState := mkRVBState {
  list_ : list A;
  overflow : list A;
  readOwners : nat;
  readDepth : Z;
  rtasks : nat;
  inserted : nat;                (* EnqueueRead, after insertHead *)
  counted : list Z;              (* after readDepth.fetch_add, the value it gave *)
  loading : list (nat * Z);      (* the loop: (owners, depth) *)
  pushersWon : nat;              (* compare_exchange succeeded, task not yet submitted *)
  rtaken : nat;                  (* workers that took a task *)
  drained : list (list A);       (* collectRead, after taking from the overflow *)
  swept : list (list A);         (* collectRead, after the sweep *)
  trimmed : list (list A);       (* collectRead, after handing on the excess *)
  serving : list (list A);       (* after readDepth.fetch_sub: the batch being read *)
  released : nat;                (* releaseReadVBQueue, after readOwners.fetch_sub *)
  noOverflow : nat;              (* found overflowHead null *)
  noList : nat;                  (* and the list empty *)
  rearming : nat;                (* found work: the compare_exchange loop *)
  workersWon : nat;
  served : list A;
  arrived : list A;
}.

Definition read_init : RVBState := mkRVBState [] [] 0 0 0 0 [] [] 0 0 [] [] [] [] 0 0 0 0 0 [] [].

(** Whether an IO thread that saw [o] owners and depth [d] leaves the request to
    them. *)
Definition leaves (o : nat) (d : Z) : bool :=
  negb (o =? 0)%nat && ((maxOwners <=? o)%nat || (d <=? Z.of_nat (o * maxBatch))%Z).

Inductive read_step : RVBState -> RVBState -> Prop :=
  (* EnqueueRead: list.insertHead(req) *)
  | step_insert a l ov o d t i c ld pw tk dr sw tr sv rl no nl ra ww se ar :
      read_step (mkRVBState l ov o d t i c ld pw tk dr sw tr sv rl no nl ra ww se ar)
           (mkRVBState (a :: l) ov o d t (S i) c ld pw tk dr sw tr sv rl no nl ra ww se (ar ++ [a]))
  (* EnqueueRead: readDepth.fetch_add(1) + 1 *)
  | step_count l ov o d t i c ld pw tk dr sw tr sv rl no nl ra ww se ar :
      read_step (mkRVBState l ov o d t (S i) c ld pw tk dr sw tr sv rl no nl ra ww se ar)
           (mkRVBState l ov o (d + 1) t i ((d + 1)%Z :: c) ld pw tk dr sw tr sv rl no nl ra ww se ar)
  (* EnqueueRead: readOwners.load() *)
  | step_load l ov o d t i x c1 c2 ld pw tk dr sw tr sv rl no nl ra ww se ar :
      read_step (mkRVBState l ov o d t i (c1 ++ x :: c2) ld pw tk dr sw tr sv rl no nl ra ww se ar)
           (mkRVBState l ov o d t i (c1 ++ c2) ((o, x) :: ld) pw tk dr sw tr sv rl no nl ra ww se ar)
  (* EnqueueRead: the request is left to the owners there are *)
  | step_leave l ov o d t i c n x ld1 ld2 pw tk dr sw tr sv rl no nl ra ww se ar : leaves n x = true ->
      read_step (mkRVBState l ov o d t i c (ld1 ++ (n, x) :: ld2) pw tk dr sw tr sv rl no nl ra ww se ar)
           (mkRVBState l ov o d t i c (ld1 ++ ld2) pw tk dr sw tr sv rl no nl ra ww se ar)
  (* EnqueueRead: compare_exchange_weak succeeds *)
  | step_cas l ov o d t i c x ld1 ld2 pw tk dr sw tr sv rl no nl ra ww se ar : leaves o x = false ->
      read_step (mkRVBState l ov o d t i c (ld1 ++ (o, x) :: ld2) pw tk dr sw tr sv rl no nl ra ww se ar)
           (mkRVBState l ov (S o) d t i c (ld1 ++ ld2) (S pw) tk dr sw tr sv rl no nl ra ww se ar)
  (* EnqueueRead: compare_exchange_weak fails and reloads *)
  | step_cas_fail l ov o d t i c n x ld1 ld2 pw tk dr sw tr sv rl no nl ra ww se ar : leaves n x = false ->
      read_step (mkRVBState l ov o d t i c (ld1 ++ (n, x) :: ld2) pw tk dr sw tr sv rl no nl ra ww se ar)
           (mkRVBState l ov o d t i c (ld1 ++ (o, x) :: ld2) pw tk dr sw tr sv rl no nl ra ww se ar)
  (* EnqueueRead: Submit *)
  | step_submit l ov o d t i c ld pw tk dr sw tr sv rl no nl ra ww se ar :
      read_step (mkRVBState l ov o d t i c ld (S pw) tk dr sw tr sv rl no nl ra ww se ar)
           (mkRVBState l ov o d (S t) i c ld pw tk dr sw tr sv rl no nl ra ww se ar)
  (* ReaderPool::workerLoop: take a task *)
  | step_take l ov o d t i c ld pw tk dr sw tr sv rl no nl ra ww se ar :
      read_step (mkRVBState l ov o d (S t) i c ld pw tk dr sw tr sv rl no nl ra ww se ar)
           (mkRVBState l ov o d t i c ld pw (S tk) dr sw tr sv rl no nl ra ww se ar)
  (* collectRead: up to maxBatch requests of the overflow, under its lock *)
  | step_drain l ov o d t i c ld pw tk dr sw tr sv rl no nl ra ww se ar :
      read_step (mkRVBState l ov o d t i c ld pw (S tk) dr sw tr sv rl no nl ra ww se ar)
           (mkRVBState l (drop maxBatch ov) o d t i c ld pw tk (take maxBatch ov :: dr) sw tr sv rl no nl ra ww se ar)
  (* collectRead: sweepOnce when there is room, else not *)
  | step_sweep l ov o d t i c ld pw tk b dr1 dr2 sw tr sv rl no nl ra ww se ar : length b < maxBatch ->
      read_step (mkRVBState l ov o d t i c ld pw tk (dr1 ++ b :: dr2) sw tr sv rl no nl ra ww se ar)
           (mkRVBState [] ov o d t i c ld pw tk (dr1 ++ dr2) ((b ++ reverse l) :: sw) tr sv rl no nl ra ww se ar)
  | step_full l ov o d t i c ld pw tk b dr1 dr2 sw tr sv rl no nl ra ww se ar : maxBatch <= length b ->
      read_step (mkRVBState l ov o d t i c ld pw tk (dr1 ++ b :: dr2) sw tr sv rl no nl ra ww se ar)
           (mkRVBState l ov o d t i c ld pw tk (dr1 ++ dr2) (b :: sw) tr sv rl no nl ra ww se ar)
  (* collectRead: what exceeds the cap goes to the end of the overflow *)
  | step_excess l ov o d t i c ld pw tk dr b sw1 sw2 tr sv rl no nl ra ww se ar :
      read_step (mkRVBState l ov o d t i c ld pw tk dr (sw1 ++ b :: sw2) tr sv rl no nl ra ww se ar)
           (mkRVBState l (ov ++ drop maxBatch b) o d t i c ld pw tk dr (sw1 ++ sw2) (take maxBatch b :: tr) sv
              rl no nl ra ww se ar)
  (* collectRead: readDepth.fetch_sub(batch.size()) *)
  | step_uncount l ov o d t i c ld pw tk dr sw b tr1 tr2 sv rl no nl ra ww se ar :
      read_step (mkRVBState l ov o d t i c ld pw tk dr sw (tr1 ++ b :: tr2) sv rl no nl ra ww se ar)
           (mkRVBState l ov o (d - Z.of_nat (length b)) t i c ld pw tk dr sw (tr1 ++ tr2) (b :: sv)
              rl no nl ra ww se ar)
  (* the batch is read and answered, then readOwners.fetch_sub(1) *)
  | step_release l ov o d t i c ld pw tk dr sw tr b sv1 sv2 rl no nl ra ww se ar :
      read_step (mkRVBState l ov o d t i c ld pw tk dr sw tr (sv1 ++ b :: sv2) rl no nl ra ww se ar)
           (mkRVBState l ov (o - 1) d t i c ld pw tk dr sw tr (sv1 ++ sv2) (S rl) no nl ra ww (se ++ b) ar)
  (* releaseReadVBQueue: overflowHead *)
  | step_no_overflow l o d t i c ld pw tk dr sw tr sv rl no nl ra ww se ar :
      read_step (mkRVBState l [] o d t i c ld pw tk dr sw tr sv (S rl) no nl ra ww se ar)
           (mkRVBState l [] o d t i c ld pw tk dr sw tr sv rl (S no) nl ra ww se ar)
  | step_overflow l ov o d t i c ld pw tk dr sw tr sv rl no nl ra ww se ar : ov <> [] ->
      read_step (mkRVBState l ov o d t i c ld pw tk dr sw tr sv (S rl) no nl ra ww se ar)
           (mkRVBState l ov o d t i c ld pw tk dr sw tr sv rl no nl (S ra) ww se ar)
  (* releaseReadVBQueue: list.empty() *)
  | step_no_list ov o d t i c ld pw tk dr sw tr sv rl no nl ra ww se ar :
      read_step (mkRVBState [] ov o d t i c ld pw tk dr sw tr sv rl (S no) nl ra ww se ar)
           (mkRVBState [] ov o d t i c ld pw tk dr sw tr sv rl no (S nl) ra ww se ar)
  | step_list l ov o d t i c ld pw tk dr sw tr sv rl no nl ra ww se ar : l <> [] ->
      read_step (mkRVBState l ov o d t i c ld pw tk dr sw tr sv rl (S no) nl ra ww se ar)
           (mkRVBState l ov o d t i c ld pw tk dr sw tr sv rl no nl (S ra) ww se ar)
  (* releaseReadVBQueue: readDepth.load() <= 0 *)
  | step_no_depth l ov o d t i c ld pw tk dr sw tr sv rl no nl ra ww se ar : (d <= 0)%Z ->
      read_step (mkRVBState l ov o d t i c ld pw tk dr sw tr sv rl no (S nl) ra ww se ar)
           (mkRVBState l ov o d t i c ld pw tk dr sw tr sv rl no nl ra ww se ar)
  | step_depth l ov o d t i c ld pw tk dr sw tr sv rl no nl ra ww se ar : (0 < d)%Z ->
      read_step (mkRVBState l ov o d t i c ld pw tk dr sw tr sv rl no (S nl) ra ww se ar)
           (mkRVBState l ov o d t i c ld pw tk dr sw tr sv rl no nl (S ra) ww se ar)
  (* releaseReadVBQueue: while (owners < gMaxReadOwners) compare_exchange *)
  | step_rearm_full l ov o d t i c ld pw tk dr sw tr sv rl no nl ra ww se ar : maxOwners <= o ->
      read_step (mkRVBState l ov o d t i c ld pw tk dr sw tr sv rl no nl (S ra) ww se ar)
           (mkRVBState l ov o d t i c ld pw tk dr sw tr sv rl no nl ra ww se ar)
  | step_rearm l ov o d t i c ld pw tk dr sw tr sv rl no nl ra ww se ar : o < maxOwners ->
      read_step (mkRVBState l ov o d t i c ld pw tk dr sw tr sv rl no nl (S ra) ww se ar)
           (mkRVBState l ov (S o) d t i c ld pw tk dr sw tr sv rl no nl ra (S ww) se ar)
  (* releaseReadVBQueue: blockingWrite *)
  | step_resubmit l ov o d t i c ld pw tk dr sw tr sv rl no nl ra ww se ar :
      read_step (mkRVBState l ov o d t i c ld pw tk dr sw tr sv rl no nl ra (S ww) se ar)
           (mkRVBState l ov o d (S t) i c ld pw tk dr sw tr sv rl no nl ra ww se ar).

Definition read_reachable (st : RVBState) : Prop := rtc read_step read_init st.

(** Tasks and threads that hold an owner slot. *)
Definition holders (st : RVBState) : nat :=
  pushersWon st + rtasks st + rtaken st + length (drained st) + length (swept st) + length (trimmed st) + length (serving st) + workersWon st.

(** IO threads that will still start a worker if they find none. *)
Definition willStart (st : RVBState) : Prop :=
  0 < inserted st \/ counted st <> [] \/ exists x, (0, x) ∈ loading st.

Definition inFlight (st : RVBState) : list A :=
  served st ++ concat (drained st) ++ concat (swept st) ++ concat (trimmed st) ++ concat (serving st) ++ overflow st ++ list_ st.

Record inv (st : RVBState) : Prop := mkInv {
  inv_owner : readOwners st = holders st;
  inv_max : readOwners st <= maxOwners;
  inv_kept : inFlight st ≡ₚ arrived st;
  inv_overflow : overflow st <> [] -> 0 < readOwners st + released st + rearming st;
  inv_list : list_ st <> [] -> 0 < readOwners st + released st + noOverflow st + rearming st \/ willStart st;
}.

Ltac rvbsimpl :=
  unfold holders, willStart, inFlight in *;
  cbn [list_ overflow readOwners readDepth rtasks inserted counted loading pushersWon rtaken drained swept trimmed
       serving released noOverflow noList rearming workersWon served arrived] in *;
  rewrite ?length_app in *; cbn [length] in *.

Lemma willStart_loading (ld1 ld2 : list (nat * Z)) n x : n <> 0 ->
  (exists y, (0, y) ∈ ld1 ++ (n, x) :: ld2) -> exists y, (0, y) ∈ ld1 ++ ld2.
Proof. intros Hn (y & Hy). exists y. set_solver. Qed.

Lemma read_inv_step st st' : 1 <= maxOwners -> inv st -> read_step st st' -> inv st'.
Proof.
  intros Hmax [Ho Hm Hk Hov Hl] Hst.
  destruct Hst; split; rvbsimpl; try done; try lia; try (intros ?; left; lia);
    try (rewrite <- Hk, ?concat_app, ?concat_cons; solve_Permutation).
  - intros Hne. right. right. left. discriminate.
  - intros Hne. destruct o; [|left; lia]. right. right. right. exists x. left.
  - intros Hne. destruct (Hl Hne) as [?|[?|[?|Hz]]]; [by left|auto..|]. do 3 right.
    eapply willStart_loading; [|done]. intros ->. done.
  - unfold leaves in *. destruct o; [lia|]. simpl in *. b2p. lia.
  - intros Hne. destruct o; [|left; lia]. do 3 right. exists x. set_solver.
  - rewrite <- Hk. rewrite <- (take_drop maxBatch ov) at 3. rewrite concat_cons. solve_Permutation.
  - rewrite <- Hk, !concat_app, !concat_cons, (reverse_Permutation l). solve_Permutation.
  - rewrite <- Hk. rewrite !concat_app, !concat_cons. rewrite <- (take_drop maxBatch b) at 3. solve_Permutation.
Qed.

Lemma reachable_read_inv st : 1 <= maxOwners -> read_reachable st -> inv st.
Proof.
  unfold read_reachable. intros Hmax H. assert (Hi : inv read_init) by (split; unfold holders; simpl; try done; lia).
  induction H as [|x y z Hs _ IH]; [done|]. apply IH. by eapply read_inv_step.
Qed.
End read_owner.
Arguments RVBState : clear implicits.

(** C5: in every interleaving of IO threads queueing reads and readers serving
    a vbucket, with at most [maxOwners] readers per vbucket allowed: the owner
    count is exactly the number of tasks and readers holding the vbucket and
    never exceeds the limit; every queued read is in exactly one place (served,
    in some reader's batch, in the overflow or in the list); and a non-empty
    list or overflow never strands: some reader holds the vbucket, or is about
    to recheck it after stepping down, or an IO thread is about to start one. *)
Theorem reads_never_strand {A} maxOwners maxBatch (st : RVBState A) :
  1 <= maxOwners -> read_reachable maxOwners maxBatch st ->
  readOwners st = holders st /\ readOwners st <= maxOwners /\ inFlight st ≡ₚ arrived st /\
  (list_ st <> [] \/ overflow st <> [] ->
   0 < holders st + released st + noOverflow st + rearming st \/ willStart st).
Proof.
  intros Hmax [Ho Hm Hk Hov Hl]%reachable_read_inv; [|done]. split_and!; try done.
  intros [Hne|Hne]; [destruct (Hl Hne); [left; lia|by right]|left; specialize (Hov Hne); lia].
Qed.

(** A read queued while the only reader is between stepping down and its
    recheck: the count is zero, and the IO thread starts a new owner. *)
Definition late_read : RVBState nat :=
  mkRVBState [2] [] 1 1 0 0 [] [] 1 0 [] [] [] [] 1 0 0 0 0 [1] [1; 2].

Lemma late_read_reachable : read_reachable 1 2 late_read.
Proof.
  eapply rtc_l; [apply (step_insert _ _ 1)|]. eapply rtc_l; [apply step_count|].
  eapply rtc_l; [apply (step_load _ _ _ _ _ _ _ _ _ [] [])|].
  eapply rtc_l; [by apply (step_cas _ _ _ _ _ _ _ _ _ _ [] [])|]. eapply rtc_l; [apply step_submit|].
  eapply rtc_l; [apply step_take|]. eapply rtc_l; [apply step_drain|].
  eapply rtc_l; [apply (step_sweep _ _ _ _ _ _ _ _ _ _ _ _ _ [] []); simpl; lia|].
  eapply rtc_l; [apply (step_excess _ _ _ _ _ _ _ _ _ _ _ _ _ _ [] [])|].
  eapply rtc_l; [apply (step_uncount _ _ _ _ _ _ _ _ _ _ _ _ _ _ _ [] [])|].
  eapply rtc_l; [apply (step_release _ _ _ _ _ _ _ _ _ _ _ _ _ _ _ _ [] [])|].
  eapply rtc_l; [apply (step_insert _ _ 2)|]. eapply rtc_l; [apply step_count|].
  eapply rtc_l; [apply (step_load _ _ _ _ _ _ _ _ _ [] [])|].
  eapply rtc_l; [by apply (step_cas _ _ _ _ _ _ _ _ _ _ [] [])|]. apply rtc_refl.
Qed.

Lemma reads_never_strand_witness :
  1 <= 1 /\ inFlight late_read ≡ₚ [1; 2] /\
  (0 < holders late_read + released late_read + noOverflow late_read + rearming late_read \/ willStart late_read).
Proof.
  destruct (reads_never_strand 1 2 late_read ltac:(lia) late_read_reachable) as (_ & _ & Hk & Hs).
  split; [lia|]. split; [exact Hk|]. apply Hs. left. discriminate.
Defined.
End ReadOwner.
