(* ===== verification/ConnState.v ===== *)
(** * Connections: state, request pools and the socket (connection.h, connection.cc)

    The state of a [Connection] and of what its loop thread reaches (the bucket
    with its queues, the thread's staging table and recycled requests, the
    cache), and the operations the handlers are built from: taking and
    returning requests, direct sends, closing, writing and flushing.  The loop
    thread runs them one at a time; [sendMu_] is free whenever it tries it (the
    interleavings with reader threads are those of Combining.v).  Timers and
    loop callbacks are flags, what is posted to other threads or to the loop is
    an [Effect].  Prefetch hints, stage timers and counters that nothing reads
    back are left out. *)
From stdpp Require Import prelude gmap list.
From Stdlib Require Import ZArith Lia.
From coqutil Require Import Datatypes.RecordSettersUsingExistingGetters.
From S2P Require Import Prelude Protocol DocCache Eff Request Dispatch ReadPath.
Open Scope Z_scope.

(** ** What folly and the kernel provide *)

(** A body split off the read queue, as it is after [coalesce]. *)
Record IOBuf := mkIOBuf { io_data : list Z; io_shared : bool; io_capacity : Z }.

Class IOBufQueue (Q : Type) := {
  contents : Q -> list Z;
  front : Q -> option (list Z);
  postallocate : Q -> list Z -> Q;
  trimStart : Q -> nat -> Q;
  qsplit : Q -> nat -> IOBuf * Q;
  qmove : Q -> Q;
}.

Class IOBufQueueLaws (Q : Type) `{IOBufQueue Q} : Prop := {
  front_law q b : front q = Some b -> b `prefix_of` contents q;
  postallocate_law q b : contents (postallocate q b) = contents q ++ b;
  trimStart_law q n : contents (trimStart q n) = drop n (contents q);
  qsplit_law q n : io_data (qsplit q n).1 = take n (contents q) /\ contents (qsplit q n).2 = drop n (contents q) /\
    0 <= io_capacity (qsplit q n).1;
  qmove_law q : contents (qmove q) = [];
}.

(** A chain of buffers; a split within one buffer shares it. *)
Fixpoint trimBufs (n : nat) (l : list (list Z)) : list (list Z) :=
  match n, l with
  | O, _ | _, [] => l
  | _, b :: l' => if (length b <=? n)%nat then trimBufs (n - length b) l' else drop n b :: l'
  end.
#[export] Instance buffers_queue : IOBufQueue (list (list Z)) := {
  contents l := concat l;
  front := head;
  postallocate l b := l ++ [b];
  trimStart l n := trimBufs n l;
  qsplit l n := (mkIOBuf (take n (concat l)) true (Z.of_nat n), trimBufs n l);
  qmove _ := [];
}.
Lemma trimBufs_concat n l : concat (trimBufs n l) = drop n (concat l).
Proof.
  revert n. induction l as [|b l IH]; intros [|n]; cbn [trimBufs concat]; try done.
  destruct (Nat.leb_spec (length b) (S n)).
  - rewrite IH, drop_app, (drop_ge b) by lia. done.
  - cbn [concat]. rewrite drop_app_le by lia. done.
Qed.
#[export] Instance buffers_queue_laws : IOBufQueueLaws (list (list Z)).
Proof.
  split; cbn.
  - intros [|c q] b E; cbn in *; [done|]. injection E as ->. by exists (concat q).
  - intros q b. rewrite concat_app. cbn. by rewrite app_nil_r.
  - intros q n. apply trimBufs_concat.
  - intros q n. split; [done|]. split; [apply trimBufs_concat|lia].
  - done.
Qed.

(** [AsyncSocket::write] reports through the connection's callbacks, inside the
    call or later; [sendmsg] writes a prefix. *)
Inductive WriteResult := WriteQueued | WriteDone | WriteFailed.
Inductive SendResult := Sent (n : nat) | WouldBlock | SendFailed.
Class AsyncSocket (K : Type) := {
  sock_write : K -> list Z -> K * WriteResult;
  sock_sendmsg : K -> list Z -> K * SendResult;
}.
Class AsyncSocketLaws (K : Type) `{AsyncSocket K} : Prop := {
  sendmsg_law k b k' n : sock_sendmsg k b = (k', Sent n) -> (n <= length b)%nat;
}.

(** ** State *)
Record Connection (Q : Type) := mkConnection {
  self : ptr;
  loop : option ptr;
  readCB : bool;
  sockOpen : bool;
  readBuf_ : Q;
  owner_ : option ptr;
  migrateTarget_ : option ptr;
  closing_ : bool;
  migrating_ : bool;
  migrateCheckPending_ : bool;
  outstandingRequests_ : Z;
  sendClosed_ : bool;
  drainWatch_ : bool;
  spillPosted_ : bool;
  spill_ : list Z;
  follyWrites_ : Z;
  returned_ : option ptr;
  sendPending_ : option ptr;
  scramServerNonce_ : list Z;
  scramSaltedPassword_ : list Z;
  scramAuthMessage_ : list Z;
  echoResponseBuf_ : list Z;
  pendingWriteBuf_ : list Z;
  inflightBufs_ : list (list Z);
  spareBufs_ : nat;
  flushCb_ : bool;
  flushScheduled_ : bool;
  flushTimeout_ : bool;
  migrateCb_ : bool;
  resumeTimeout_ : bool;
  readPaused_ : bool;
  stageFull_ : bool;
  reqPool_ : list ptr;
  deleted : bool;
}.
Arguments self {Q}.
Arguments loop {Q}.
Arguments readCB {Q}.
Arguments sockOpen {Q}.
Arguments readBuf_ {Q}.
Arguments owner_ {Q}.
Arguments migrateTarget_ {Q}.
Arguments closing_ {Q}.
Arguments migrating_ {Q}.
Arguments migrateCheckPending_ {Q}.
Arguments outstandingRequests_ {Q}.
Arguments sendClosed_ {Q}.
Arguments drainWatch_ {Q}.
Arguments spillPosted_ {Q}.
Arguments spill_ {Q}.
Arguments follyWrites_ {Q}.
Arguments returned_ {Q}.
Arguments sendPending_ {Q}.
Arguments scramServerNonce_ {Q}.
Arguments scramSaltedPassword_ {Q}.
Arguments scramAuthMessage_ {Q}.
Arguments echoResponseBuf_ {Q}.
Arguments pendingWriteBuf_ {Q}.
Arguments inflightBufs_ {Q}.
Arguments spareBufs_ {Q}.
Arguments flushCb_ {Q}.
Arguments flushScheduled_ {Q}.
Arguments flushTimeout_ {Q}.
Arguments migrateCb_ {Q}.
Arguments resumeTimeout_ {Q}.
Arguments readPaused_ {Q}.
Arguments stageFull_ {Q}.
Arguments reqPool_ {Q}.
Arguments deleted {Q}.

(** What leaves the thread: bytes accepted by the socket, bytes of a failed
    write, the references an [IOThread] counts, and the callbacks posted to
    loops. *)
Inductive Effect :=
  | Wrote (b : list Z)
  | WriteLost (b : list Z)
  | HoldLoop (t : ptr)
  | ReleaseLoop (t : ptr)
  | AddTo (t : ptr)
  | RemoveFrom (t : ptr)
  | Unreserve (t : ptr)
  | PostFinish (evb : option ptr) (batch : list ptr)
  | PostRelease (evb : option ptr) (k : Z)
  | PostDelete (evb : ptr)
  | PostAttach (t : ptr).

Record World (Q K S : Type) := mkWorld {
  conn : Connection Q;
  bucket : Bucket;
  writeLimited : bool;
  writeTokens : Z;
  staging : StagingTable;
  readers : Readers;
  cache : option S;
  tlsRecycled : option ptr;
  socket : K;
  gRespPendingBytes : Z;
  log : list Effect;
}.
Arguments conn {Q K S}.
Arguments bucket {Q K S}.
Arguments writeLimited {Q K S}.
Arguments writeTokens {Q K S}.
Arguments staging {Q K S}.
Arguments readers {Q K S}.
Arguments cache {Q K S}.
Arguments tlsRecycled {Q K S}.
Arguments socket {Q K S}.
Arguments gRespPendingBytes {Q K S}.
Arguments log {Q K S}.

(** The settings the connection code reads. *)
Record ConnConfig := mkConnConfig {
  gDirectSend : bool;
  flushDelayUs : Z;
  flushBytes : nat;
  durable : bool;
  sizeofRequest : Z;
  engineCfg : EngineConfig;
  maxReadOwners : Z;
  maxReadBatch : nat;
  clusterConfig : list Z;
  errorMap : list Z;
}.

Definition kMaxPooledReqs : nat := 256.
Definition kMaxPerSend : nat := 256.
Definition kInlineData : nat := 128.
Definition kMaxValueScratch : nat := 4096.

Section conn.
Context {Q K S : Type} `{IQ : IOBufQueue Q} `{SK : AsyncSocket K} `{DC : DocCache S}.
Context (cfg : ConnConfig).
Abbreviation world := (World Q K S).
Abbreviation M := (eff world).

(** Member access: the connection must not have been deleted. *)
Definition this : M (Connection Q) := c ← gets conn; if deleted c then fail else mret c.
Definition upd (f : Connection Q -> Connection Q) : M unit := c ← this; modify (fun w => { w with conn := f c }).
Definition emit (e : Effect) : M unit := modify (fun w => { w with log := log w ++ [e] }).

Definition heap : M rheap := gets (fun w => b_heap (bucket w)).
Definition setHeap (h : rheap) : M unit := modify (fun w => { w with bucket := with_heap (bucket w) h }).
Definition rget (p : ptr) : M Request := h ← heap; lift (h !! p).
Definition rput (p : ptr) (r : Request) : M unit := h ← heap; setHeap (<[p := r]> h).

(** The requests of a chain, unlinked. *)
Definition takeChain (p : option ptr) : M (list ptr) :=
  h ← heap; x ← lift (drainChain (1 + size h) h p); setHeap x.1;; mret x.2.

(** ** Request pools *)
Definition defaultRequest : Request := mkRequest None [] [] 0 0 0 0 0 0 0 None None None StOK 0 0 0 0 [] 0.
Definition newRequest : M ptr :=
  h ← heap; let p := fresh (dom h) in rput p defaultRequest;; mret p.
Definition deleteRequest (p : ptr) : M unit :=
  _ ← rget p; h ← heap; setHeap (delete p h).

(** One request of the [returned_] chain. *)
Definition poolReturned (p : ptr) : M unit :=
  c ← this;
  if (length (reqPool_ c) <? kMaxPooledReqs)%nat
  then upd (fun c => { c with reqPool_ := reqPool_ c ++ [p] })
  else deleteRequest p.

Definition refillPool : M unit :=
  c ← this;
  when (bool_decide (reqPool_ c = []) && bool_decide (returned_ c <> None))
    (l ← takeChain (returned_ c);
     upd (fun c => { c with returned_ := None });;
     each poolReturned l).

Definition acquireRequest : M ptr :=
  refillPool;;
  c ← this;
  match last (reqPool_ c) with
  | Some p => upd (fun c => { c with reqPool_ := take (length (reqPool_ c) - 1) (reqPool_ c) });; mret p
  | None => newRequest
  end.

(** [acquireRequest(vbucket)]: the thread's recycled chain, refilled from the
    vbucket's shard, before the connection's pool. *)
Definition takeShardChain (vbucket : Z) : M (option ptr) :=
  b ← gets bucket;
  s ← lift (b_shards b !! shardOf b vbucket);
  x ← lift (TakeRequests (b_heap b) s);
  modify (fun w => { w with bucket :=
    mkBucket (b_heap b) (<[shardOf b vbucket := x.1]> (b_shards b)) (queuedBytes b) (writeQueueMemLimit b) });;
  mret x.2.
Definition acquireRequestFor (vbucket : Z) : M ptr :=
  t ← gets tlsRecycled;
  c ← match t with Some p => mret (Some p) | None => takeShardChain vbucket end;
  match c with
  | Some p =>
      r ← rget p;
      modify (fun w => { w with tlsRecycled := hook r });;
      rput p (set_hook None r);;
      mret p
  | None => modify (fun w => { w with tlsRecycled := None });; acquireRequest
  end.

Definition releaseRequest (p : ptr) : M unit :=
  c ← this;
  if (length (reqPool_ c) <? kMaxPooledReqs)%nat
  then r ← rget p; rput p (reset r);; upd (fun c => { c with reqPool_ := reqPool_ c ++ [p] })
  else deleteRequest p.

(** ** Deleting and draining *)
Definition deleteThis : M unit :=
  c ← this;
  each deleteRequest (reqPool_ c);;
  l ← takeChain (returned_ c);
  each deleteRequest l;;
  upd (fun c => { c with reqPool_ := []; returned_ := None; deleted := true }).

Definition scheduleMigrateCheck : M unit :=
  c ← this;
  when (negb (migrateCheckPending_ c || negb (migrating_ c)) && bool_decide (loop c <> None))
    (upd (fun c => { c with migrateCheckPending_ := true; migrateCb_ := true })).

Definition onDrained : M unit :=
  c ← this;
  if closing_ c then deleteThis else when (migrating_ c) scheduleMigrateCheck.

(** [outstandingRequests_.fetch_sub(k) == k], then [onDrained]. *)
Definition dropOutstanding (k : Z) : M unit :=
  c ← this;
  upd (fun c => { c with outstandingRequests_ := outstandingRequests_ c - k });;
  when (outstandingRequests_ c =? k) onDrained.

(** ** Direct sends *)

(** The header (with the flags) and the value of one response. *)
Definition directHeader (r : Request) : list Z :=
  let ok := IsOK (r_resultStatus r) in
  let h :=
    if ok then
      mkMcbpHeader kResponseMagic (opcode_value OpGet) 0 4 (r_resultDatatype r) (status_value StSuccess)
        (u32 (4 + Z.of_nat (length (r_responseBuf r)))) (r_opaque r) (r_resultSeqno r)
    else mkMcbpHeader kResponseMagic (r_opcode r) 0 0 0 (status_value StKeyNotFound) 0 (r_opaque r) 0 in
  hdr_bytes (hton h) ++ (if ok then le_bytes 4 (bswap 4 (r_resultFlags r)) else []).
Definition iovOf (r : Request) : list (list Z) :=
  directHeader r :: (if IsOK (r_resultStatus r) && bool_decide (r_responseBuf r <> []) then [r_responseBuf r] else []).

(** What [sendmsg] did not take, buffer by buffer. *)
Fixpoint spillTail (skip : nat) (iov : list (list Z)) : list Z :=
  match iov with
  | [] => []
  | v :: iov' =>
      if (length v <=? skip)%nat then spillTail (skip - length v) iov' else drop skip v ++ spillTail 0 iov'
  end.

(** The write itself: how many bytes count as sent. *)
Definition trySend (iov : list (list Z)) : M nat :=
  w ← get;
  let out := concat iov in
  let '(k, res) := sock_sendmsg (socket w) out in
  modify (fun w => { w with socket := k });;
  match res with
  | Sent n => emit (Wrote (take n out));; mret n
  | WouldBlock => mret 0%nat
  | SendFailed => emit (WriteLost out);; mret (length out)
  end.

Definition writeDirectLocked (reqs : list ptr) : M bool :=
  rs ← mapM rget reqs;
  let iov := (rs : list Request) ≫= iovOf in
  let total := length (concat iov) in
  c ← this;
  if sendClosed_ c then mret false
  else
    sent ← (if bool_decide (spill_ c = []) && (follyWrites_ c =? 0) then trySend iov else mret 0%nat);
    if (sent <? total)%nat then
      upd (fun c => { c with spill_ := spill_ c ++ spillTail sent iov; spillPosted_ := true });;
      mret (negb (spillPosted_ c))
    else mret false.

(** Drops [k] counts, never to zero off the loop once someone waits for zero. *)
Definition releaseOutstanding (k : Z) (evb : option ptr) : M unit :=
  c ← this;
  if negb (sendClosed_ c) && negb (drainWatch_ c)
  then upd (fun c => { c with outstandingRequests_ := outstandingRequests_ c - k })
  else
    let v := outstandingRequests_ c in
    let d := if (0 <? k) && (1 <? v) then Z.min k (v - 1) else 0 in
    upd (fun c => { c with outstandingRequests_ := v - d });;
    when (0 <? k - d) (emit (PostRelease evb (k - d))).

(** The requests reset and linked in front of each other, oldest last. *)
Fixpoint chainReset (head : option ptr) (reqs : list ptr) : M (option ptr) :=
  match reqs with
  | [] => mret head
  | p :: reqs' => r ← rget p; rput p (set_hook head (reset r));; chainReset (Some p) reqs'
  end.
Definition finishDirect (reqs : list ptr) : M unit :=
  match reqs with
  | [] => fail
  | p :: _ =>
      r0 ← rget p;
      c ← this;
      head ← chainReset (returned_ c) reqs;
      upd (fun c => { c with returned_ := head });;
      releaseOutstanding (Z.of_nat (length reqs)) (r_evb r0)
  end.

Definition finishBatch (reqs : list ptr) (post : bool) : M unit :=
  if post then
    match reqs with
    | [] => fail
    | p :: _ => r0 ← rget p; emit (PostFinish (r_evb r0) reqs)
    end
  else finishDirect reqs.

(** [all] cut into sends of at most [kMaxPerSend]. *)
Fixpoint chunks (fuel : nat) (l : list ptr) : list (list ptr) :=
  match fuel, l with
  | Datatypes.S n, _ :: _ => take kMaxPerSend l :: chunks n (drop kMaxPerSend l)
  | _, _ => []
  end.
Fixpoint sendChunks (l : list (list ptr)) : M (list (list ptr * bool)) :=
  match l with
  | [] => mret []
  | x :: l' => post ← writeDirectLocked x; rest ← sendChunks l'; mret ((x, post) :: rest)
  end.
Definition sendHeld (reqs : list ptr) : M unit :=
  c ← this;
  l ← takeChain (sendPending_ c);
  upd (fun c => { c with sendPending_ := None });;
  let all := reqs ++ l in
  sent ← sendChunks (chunks (length all) all);
  each (fun x => finishBatch x.1 x.2) sent.
Definition sendDirect (reqs : list ptr) : M unit := sendHeld reqs.
Definition drainPendingSends : M unit :=
  c ← this;
  when (bool_decide (sendPending_ c <> None)) (sendHeld []).

(** ** Closing *)
Definition destroy : M unit :=
  c ← this;
  if closing_ c then mret tt
  else
    when (migrating_ c) (match migrateTarget_ c with Some t => emit (Unreserve t) | None => mret tt end);;
    match owner_ c with Some o => emit (RemoveFrom o) | None => mret tt end;;
    upd (fun c =>
      { c with closing_ := true; flushCb_ := false; migrateCb_ := false; resumeTimeout_ := false;
               readPaused_ := false; migrateTarget_ := (if migrating_ c then None else migrateTarget_ c);
               migrating_ := false; flushScheduled_ := false; owner_ := None; sendClosed_ := true; spill_ := [] });;
    drainPendingSends;;
    upd (fun c => { c with readCB := false; sockOpen := false });;
    c2 ← this;
    match loop c with
    | Some evb => when (outstandingRequests_ c2 =? 0) (emit (PostDelete evb))
    | None => mret tt
    end.

(** ** Writing *)
Definition writeSuccess : M unit :=
  upd (fun c =>
    match inflightBufs_ c with
    | [] => { c with follyWrites_ := follyWrites_ c - 1 }
    | _ :: l =>
        { c with follyWrites_ := follyWrites_ c - 1; inflightBufs_ := l;
                 spareBufs_ := (if (spareBufs_ c <? 2)%nat then 1 + spareBufs_ c else spareBufs_ c)%nat }
    end);;
  c ← this;
  when (migrating_ c && bool_decide (inflightBufs_ c = [])) scheduleMigrateCheck.
Definition writeErr : M unit :=
  upd (fun c => { c with follyWrites_ := follyWrites_ c - 1; inflightBufs_ := tail (inflightBufs_ c) });;
  destroy.

(** [socket_->write] with [keep] kept alive until the callback; a socket that
    is closed fails the write. *)
Definition socketWrite (keep b : list Z) : M unit :=
  upd (fun c => { c with inflightBufs_ := inflightBufs_ c ++ [keep]; spareBufs_ := (spareBufs_ c - 1)%nat;
                         follyWrites_ := follyWrites_ c + 1 });;
  c ← this;
  w ← get;
  let '(k, res) := sock_write (socket w) b in
  modify (fun w => { w with socket := k });;
  match (if sockOpen c then res else WriteFailed) with
  | WriteQueued => emit (Wrote b)
  | WriteDone => emit (Wrote b);; writeSuccess
  | WriteFailed => emit (WriteLost b);; writeErr
  end.
Definition writeOwned (src : list Z) : M unit := socketWrite src src.
Definition writeSpill : M unit :=
  c ← this;
  when (bool_decide (spill_ c <> [])) (upd (fun c => { c with spill_ := [] });; writeOwned (spill_ c)).

Definition flushPendingImpl : M unit :=
  c ← this;
  when (negb (closing_ c))
    (when (gDirectSend cfg) (upd (fun c => { c with spillPosted_ := false });; writeSpill);;
     c ← this;
     when (bool_decide (pendingWriteBuf_ c <> []))
       (modify (fun w => { w with gRespPendingBytes := gRespPendingBytes w - Z.of_nat (length (pendingWriteBuf_ c)) });;
        upd (fun c => { c with pendingWriteBuf_ := [] });;
        writeOwned (pendingWriteBuf_ c))).
Definition flushPending : M unit := flushPendingImpl;; when (gDirectSend cfg) drainPendingSends.

Definition writeChainLocked (b : list Z) : M unit :=
  when (gDirectSend cfg) writeSpill;;
  socketWrite [] b;;
  when (gDirectSend cfg) drainPendingSends.

Definition scheduleFlush : M unit :=
  c ← this;
  if closing_ c then mret tt
  else if flushScheduled_ c then
    when (flushTimeout_ c && (flushBytes cfg <=? length (pendingWriteBuf_ c))%nat)
      (upd (fun c => { c with flushTimeout_ := false; flushScheduled_ := false });; flushPending)
  else
    upd (fun c => { c with flushScheduled_ := true });;
    if (0 <? flushDelayUs cfg) && (length (pendingWriteBuf_ c) <? flushBytes cfg)%nat
    then upd (fun c => { c with flushTimeout_ := true })
    else _ ← lift (loop c); upd (fun c => { c with flushCb_ := true }).

Lemma this_inv (w : world) c w' : this w = Some (c, w') -> c = conn w /\ w' = w.
Proof. unfold this, gets, mbind, eff_bind. destruct (deleted (conn w)); [done|]. by intros [= <- <-]. Qed.
Lemma upd_inv f (w : world) a w' : upd f w = Some (a, w') -> w' = { w with conn := f (conn w) }.
Proof. unfold upd, this, gets, modify, mbind, eff_bind. destruct (deleted (conn w)); [done|]. cbn. by intros [= _ <-]. Qed.
End conn.
