(* ===== verification/Connection.v ===== *)
(** * Connections: parsing, handlers and responses (connection.cc)

    From bytes in the read queue to answers: [parseAndDispatch] with its fast
    paths, one handler per opcode, the response senders the engine calls on the
    loop, back-pressure and migration between loops. *)
From stdpp Require Import prelude gmap list strings.
From Stdlib Require Import ZArith Lia.
From coqutil Require Import Datatypes.RecordSettersUsingExistingGetters.
From S2P Require Import Prelude Protocol DocCache Eff Request Dispatch ReadPath ConnState.
Open Scope Z_scope.

(** Reading [n] bytes at [off] of a body; outside it there is nothing to read. *)
Definition bytesAt (buf : list Z) (off n : Z) : option (list Z) :=
  if (off + n <=? Z.of_nat (length buf)) then Some (slice (Z.to_nat off) (Z.to_nat n) buf) else None.
Definition u32At (buf : list Z) (off : Z) : option Z := b ← bytesAt buf off 4; Some (bswap 4 (le_value b)).

(** What the SASL handlers take from cbcrypto, base64 and the random device. *)
Inductive Algorithm := SHA1 | SHA256 | SHA512.
Record Crypto := mkCrypto {
  saltedPassword : Algorithm -> list Z;
  HMAC : Algorithm -> list Z -> list Z -> list Z;
  base64 : list Z -> list Z;
  nonceSuffix : list Z -> list Z;
}.
Definition kSalt : list Z := chars "magmakvserversalt".
Definition kIterations : Z := 4096.

(** [std::string::find]: the first position of [pat]. *)
Fixpoint findAt (pat s : list Z) (i : nat) : option nat :=
  if bool_decide (take (length pat) s = pat) then Some i
  else match s with [] => None | _ :: s' => findAt pat s' (S i) end.
Definition find (pat s : list Z) : option nat := findAt pat s 0.

Definition getScramAlgo (mech : list Z) : Algorithm :=
  if bool_decide (find (chars "512") mech <> None) then SHA512
  else if bool_decide (find (chars "256") mech <> None) then SHA256 else SHA1.

Section handlers.
Context {Q K S : Type} `{IQ : IOBufQueue Q} `{SK : AsyncSocket K} `{DC : DocCache S}.
Context (cfg : ConnConfig) (crypto : Crypto).
(** The memory [IOBuf::create] returns and the capacity [IOBuf::copyBuffer]
    gives to a copy. *)
Context (junk : nat -> list Z) (copyCapacity : nat -> Z).
(** The time at which [FlushStaged] schedules a vbucket. *)
Context (now : Z -> Z).
Abbreviation world := (World Q K S).
Abbreviation M := (eff world).

(** ** Bootstrap handlers *)
Definition respond (hdr : McbpHeader) (status : McbpStatus) (value : list Z) : M unit :=
  writeChainLocked cfg
    (buildResponse (junk (kHeaderSize + length value)) (opcode hdr) status (opaque hdr) 0
       None 0 None 0 (Some value) (length value)).
Definition respondEmpty (hdr : McbpHeader) (status : McbpStatus) : M unit :=
  writeChainLocked cfg (buildEmptyResponse (junk kHeaderSize) (opcode hdr) status (opaque hdr) 0).

(** The features of HELLO that are echoed. *)
Definition supportedFeature (feat : Z) : bool :=
  bool_decide (feat ∈ [0x04; 0x07; 0x08; 0x0b; 0x0c; 0x0e; 0x0a]).
Fixpoint helloFeatures (fdata : list Z) : list Z :=
  match fdata with
  | a :: b :: rest =>
      let feat := bswap 2 (le_value [a; b]) in
      (if supportedFeature feat then le_bytes 2 (bswap 2 feat) else []) ++ helloFeatures rest
  | _ => []
  end.
Definition handleHello (hdr : McbpHeader) (body : option IOBuf) : M unit :=
  match body with
  | Some b =>
      if (keyLen hdr <? bodyLen hdr) then
        fdata ← lift (bytesAt (io_data b) (keyLen hdr) (bodyLen hdr - keyLen hdr));
        respond hdr StSuccess (helloFeatures fdata)
      else respond hdr StSuccess []
  | None => respond hdr StSuccess []
  end.

Definition handleSaslListMechs (hdr : McbpHeader) : M unit :=
  respond hdr StSuccess (chars "SCRAM-SHA512 SCRAM-SHA256 SCRAM-SHA1 PLAIN").

(** [mech] and [authData]. *)
Definition saslBody (hdr : McbpHeader) (body : option IOBuf) : M (list Z * list Z) :=
  match body with
  | None => mret ([], [])
  | Some b =>
      mech ← lift (bytesAt (io_data b) 0 (keyLen hdr));
      authData ← (if (keyLen hdr <? bodyLen hdr)
                  then lift (bytesAt (io_data b) (keyLen hdr) (bodyLen hdr - keyLen hdr)) else mret []);
      mret (mech, authData)
  end.

Definition serverFirstMessage (nonce : list Z) : list Z :=
  chars "r=" ++ nonce ++ chars ",s=" ++ base64 crypto kSalt ++ chars ",i=" ++ to_string kIterations.
Definition clientFirstBare (authData : list Z) : list Z :=
  match find (chars "n=") authData with Some i => drop i authData | None => [] end.
Definition clientNonce (bare : list Z) : list Z :=
  match find (chars "r=") bare with Some i => drop (i + 2) bare | None => [] end.
Definition withoutProof (authData : list Z) : list Z :=
  match find (chars ",p=") authData with Some i => take i authData | None => authData end.
Definition handleSaslAuth (hdr : McbpHeader) (body : option IOBuf) : M unit :=
  x ← saslBody hdr body;
  let '(mech, authData) := (x : list Z * list Z) in
  if bool_decide (mech = chars "PLAIN") then respondEmpty hdr StSuccess
  else
    let bare := clientFirstBare authData in
    let nonce := clientNonce bare ++ nonceSuffix crypto (clientNonce bare) in
    let serverFirst := serverFirstMessage nonce in
    upd (fun c => { c with scramServerNonce_ := nonce;
                           scramSaltedPassword_ := saltedPassword crypto (getScramAlgo mech);
                           scramAuthMessage_ := bare ++ chars "," ++ serverFirst ++ chars "," });;
    respond hdr StAuthContinue serverFirst.

Definition handleSaslStep (hdr : McbpHeader) (body : option IOBuf) : M unit :=
  x ← saslBody hdr body;
  let '(mech, authData) := (x : list Z * list Z) in
  c ← this;
  let authMessage := scramAuthMessage_ c ++ withoutProof authData in
  let algo := getScramAlgo mech in
  let serverKey := HMAC crypto algo (scramSaltedPassword_ c) (chars "Server Key") in
  let serverSignature := HMAC crypto algo serverKey authMessage in
  respond hdr StSuccess (chars "v=" ++ base64 crypto serverSignature).

Definition handleSelectBucket (hdr : McbpHeader) : M unit := respondEmpty hdr StSuccess.
Definition handleGetClusterConfig (hdr : McbpHeader) : M unit := respond hdr StSuccess (clusterConfig cfg).
Definition handleGetErrorMap (hdr : McbpHeader) : M unit := respond hdr StSuccess (errorMap cfg).
Definition handleNoop (hdr : McbpHeader) : M unit := respondEmpty hdr StSuccess.
Definition sendUnknownCommand (hdr : McbpHeader) : M unit := respondEmpty hdr StUnknownCommand.

(** ** Answers of the engine, on the loop *)
Definition addPending (f : list Z -> list Z) : M unit :=
  upd (fun c => { c with pendingWriteBuf_ := f (pendingWriteBuf_ c) }).

Definition sendWriteResponse (p : ptr) : M unit :=
  r ← rget p;
  c ← this;
  when (negb (closing_ c))
    (let status := if IsOK (r_resultStatus r) then StSuccess else StInternalError in
     addPending (fun out => appendEmptyResponse out (r_opcode r) status (r_opaque r) (r_resultSeqno r));;
     c2 ← this;
     modify (fun w => { w with gRespPendingBytes :=
       gRespPendingBytes w + (Z.of_nat (length (pendingWriteBuf_ c2)) - Z.of_nat (length (pendingWriteBuf_ c))) });;
     scheduleFlush cfg);;
  releaseRequest p;;
  match r_ioOwner r with Some t => emit (ReleaseLoop t) | None => mret tt end;;
  dropOutstanding 1.

Definition getReply (r : Request) (out : list Z) : list Z :=
  if IsOK (r_resultStatus r) then
    appendGetResponse out (r_opaque r) (r_resultSeqno r) (r_resultFlags r)
      (match r_responseBuf r with [] => None | b => Some b end) (length (r_responseBuf r)) (r_resultDatatype r)
  else appendEmptyResponse out (r_opcode r) StKeyNotFound (r_opaque r) 0.
Definition sendGetResponse (p : ptr) : M unit :=
  r ← rget p;
  c ← this;
  when (negb (closing_ c)) (addPending (getReply r);; scheduleFlush cfg);;
  releaseRequest p;;
  dropOutstanding 1.

(** The callbacks [finishBatch] and [releaseOutstanding] post. *)
Definition runFinish (batch : list ptr) : M unit :=
  flushPending cfg;;
  each releaseRequest batch;;
  dropOutstanding (Z.of_nat (length batch)).
Definition runRelease (k : Z) : M unit := dropOutstanding k.

(** ** Data handlers *)

(** [ownBody]: a body that shares or oversizes its buffer is copied out. *)
Definition ownBody (b : IOBuf) : IOBuf :=
  if io_shared b || (2 * Z.of_nat (length (io_data b)) <? io_capacity b)
  then mkIOBuf (io_data b) false (copyCapacity (length (io_data b))) else b.

(** Where the bytes of a body end up: in [inlineData], or in [dataBuf] with its
    capacity. *)
Definition storeBody (b : IOBuf) : list Z * option Z :=
  if (length (io_data b) <=? kInlineData)%nat then (io_data b, None)
  else let o := ownBody b in (io_data o, Some (io_capacity o)).

Definition set_header (hdr : McbpHeader) (cas datatype : Z) (r : Request) : Request :=
  mkRequest (hook r) (r_key r) (r_value r) (opcode hdr) datatype (specific hdr) (r_flags r) (r_expiry r)
    (opaque hdr) cas (r_conn r) (r_evb r) (r_ioOwner r) (r_resultStatus r) (r_resultSeqno r) (r_durableLsn r)
    (r_resultFlags r) (r_resultDatatype r) (r_responseBuf r) (r_chainLen r).
Definition set_data (key value : list Z) (flags expiry : Z) (r : Request) : Request :=
  mkRequest (hook r) key value (r_opcode r) (r_datatype r) (r_vbucket r) flags expiry
    (r_opaque r) (r_cas r) (r_conn r) (r_evb r) (r_ioOwner r) (r_resultStatus r) (r_resultSeqno r) (r_durableLsn r)
    (r_resultFlags r) (r_resultDatatype r) (r_responseBuf r) (r_chainLen r).
Definition set_origin (conn : ptr) (evb ioOwner : option ptr) (r : Request) : Request :=
  mkRequest (hook r) (r_key r) (r_value r) (r_opcode r) (r_datatype r) (r_vbucket r) (r_flags r) (r_expiry r)
    (r_opaque r) (r_cas r) (Some conn) evb ioOwner (r_resultStatus r) (r_resultSeqno r) (r_durableLsn r)
    (r_resultFlags r) (r_resultDatatype r) (r_responseBuf r) (r_chainLen r).
Definition rupd (p : ptr) (f : Request -> Request) : M unit := r ← rget p; rput p (f r).

Definition withCache (f : S -> option S) : M unit :=
  ca ← gets cache;
  match ca with
  | Some x => x' ← lift (f x); modify (fun w => { w with cache := Some x' })
  | None => mret tt
  end.

Definition stageWrite (p : ptr) : M bool :=
  w ← get;
  x ← lift (StageWrite (sizeofRequest cfg) (bucket w) (staging w) p);
  modify (fun w => { w with bucket := x.1.1; staging := x.1.2 });;
  mret x.2.

(** The durable half of [handleSet] and [handleDelete]. *)
Definition stageDurable (p : ptr) : M unit :=
  upd (fun c => { c with outstandingRequests_ := outstandingRequests_ c + 1 });;
  c ← this;
  rupd p (set_origin (self c) (loop c) (owner_ c));;
  match owner_ c with Some o => emit (HoldLoop o) | None => mret tt end;;
  ok ← stageWrite p;
  when (negb (ok : bool))
    (r ← rget p;
     withCache (fun x => Erase x (r_vbucket r) (r_key r));;
     rput p (set_status (StError kInternal) r);;
     sendWriteResponse p).

(** The other half: answered at once; only [handleSet] pauses the socket. *)
Definition stageAsync (hdr : McbpHeader) (p : ptr) (pause : bool) : M unit :=
  ok ← stageWrite p;
  if (ok : bool) then addPending (fun out => appendEmptyResponse out (opcode hdr) StSuccess (opaque hdr) 0)
  else
    addPending (fun out => appendEmptyResponse out (opcode hdr) StTmpFail (opaque hdr) 0);;
    r ← rget p;
    withCache (fun x => Erase x (r_vbucket r) (r_key r));;
    releaseRequest p;;
    when pause (upd (fun c => { c with stageFull_ := true })).

Definition stage (hdr : McbpHeader) (p : ptr) (pause : bool) : M unit :=
  if durable cfg then stageDurable p else stageAsync hdr p pause.

(** The fields a SET takes from its body. *)
Definition setFields (hdr : McbpHeader) (data : list Z) (r : Request) : option Request :=
  flags ← (if 4 <=? extrasLen hdr then u32At data 0 else Some (r_flags r));
  expiry ← (if 8 <=? extrasLen hdr then u32At data 4 else Some (r_expiry r));
  key ← bytesAt data (extrasLen hdr) (keyLen hdr);
  value ← bytesAt data (extrasLen hdr + keyLen hdr) (u32 (bodyLen hdr - extrasLen hdr - keyLen hdr));
  Some (set_data key value flags expiry r).

Definition putThrough (r : Request) (shared : option Z) (x : S) : option S :=
  match shared with
  | Some capacity =>
      PutShared x (r_vbucket r) (r_key r) (r_value r) capacity (r_flags r) (r_expiry r) (r_datatype r) false
  | None => Put x (r_vbucket r) (r_key r) (r_value r) (r_flags r) (r_expiry r) (r_datatype r) false
  end.

Definition handleSet (hdr : McbpHeader) (body : option IOBuf) : M unit :=
  p ← acquireRequestFor (specific hdr);
  rupd p (set_header hdr (hcas hdr) (hdatatype hdr));;
  r0 ← rget p;
  shared ← match body with
           | Some b =>
               let '(data, cap) := storeBody b in
               r ← lift (setFields hdr data r0);
               rput p r;; mret cap
           | None => mret None
           end;
  r ← rget p;
  withCache (putThrough r shared);;
  stage hdr p true.

Definition handleDelete (hdr : McbpHeader) (body : option IOBuf) : M unit :=
  p ← acquireRequest;
  r0 ← rget p;
  rput p (set_header hdr (hcas hdr) (r_datatype r0) r0);;
  match body with
  | Some b =>
      key ← lift (bytesAt (io_data (ownBody b)) (extrasLen hdr) (keyLen hdr));
      rupd p (fun r => set_data key (r_value r) (r_flags r) (r_expiry r) r)
  | None => mret tt
  end;;
  r ← rget p;
  withCache (fun x => Put x (r_vbucket r) (r_key r) [] 0 0 0 true);;
  stage hdr p false.

(** A cached document as an answer. *)
Definition cachedReply (hdr : McbpHeader) (d : CachedDoc) (out : list Z) : list Z :=
  if d_deleted d then appendEmptyResponse out (opcode hdr) StKeyNotFound (opaque hdr) 0
  else appendGetResponse out (opaque hdr) (d_seqno d) (d_flags d) (Some (d_value d)) (length (d_value d)) (d_datatype d).

Definition kOpaqueOffset : nat := 12.
Definition echoReply (hdr : McbpHeader) (echo : list Z) : list Z := memcpy echo kOpaqueOffset (le_bytes 4 (opaque hdr)).

(** Whether the cache answered. *)
Definition getCached (hdr : McbpHeader) (body : option IOBuf) : M bool :=
  ca ← gets cache;
  match ca, body with
  | Some x, Some b =>
      key ← lift (bytesAt (io_data b) (extrasLen hdr) (keyLen hdr));
      y ← lift (Get x (specific hdr) key);
      modify (fun w => { w with cache := Some y.1 });;
      match y.2 with
      | Some d => addPending (cachedReply hdr d);; mret true
      | None => mret false
      end
  | _, _ => mret false
  end.

Definition enqueueRead (p : ptr) : M unit :=
  w ← get;
  x ← lift (EnqueueRead (maxReadOwners cfg) (maxReadBatch cfg) (b_heap (bucket w)) (readers w) p);
  setHeap x.1;; modify (fun w => { w with readers := x.2 }).

Definition queueGet (hdr : McbpHeader) (body : option IOBuf) : M unit :=
  upd (fun c => { c with outstandingRequests_ := outstandingRequests_ c + 1 });;
  p ← acquireRequest;
  c ← this;
  r0 ← rget p;
  rput p (set_origin (self c) (loop c) (r_ioOwner r0) (set_header hdr (r_cas r0) (r_datatype r0) r0));;
  match body with
  | Some b =>
      let '(data, _) := storeBody b in
      key ← lift (bytesAt data (extrasLen hdr) (keyLen hdr));
      rupd p (fun r => set_data key (r_value r) (r_flags r) (r_expiry r) r)
  | None => mret tt
  end;;
  enqueueRead p.

Definition handleGet (hdr : McbpHeader) (body : option IOBuf) : M unit :=
  c ← this;
  match echoResponseBuf_ c with
  | [] => hit ← getCached hdr body; if (hit : bool) then mret tt else queueGet hdr body
  | echo => addPending (fun out => out ++ echoReply hdr echo)
  end.

(** ** Parsing *)
Definition opcodes : list Opcode :=
  [OpGet; OpSet; OpDelete; OpNoop; OpHello; OpSaslListMechs; OpSaslAuth; OpSaslStep; OpSelectBucket;
   OpGetClusterConfig; OpGetErrorMap].
Definition opcode_of (z : Z) : option Opcode := list_find (fun o => opcode_value o = z) opcodes ≫= (fun x => Some x.2).

Definition dispatch (hdr : McbpHeader) (body : option IOBuf) : M unit :=
  match opcode_of (opcode hdr) with
  | Some OpHello => handleHello hdr body
  | Some OpSaslListMechs => handleSaslListMechs hdr
  | Some OpSaslAuth => handleSaslAuth hdr body
  | Some OpSaslStep => handleSaslStep hdr body
  | Some OpSelectBucket => handleSelectBucket hdr
  | Some OpGetClusterConfig => handleGetClusterConfig hdr
  | Some OpGetErrorMap => handleGetErrorMap hdr
  | Some OpNoop => handleNoop hdr
  | Some OpSet => handleSet hdr body
  | Some OpDelete => handleDelete hdr body
  | Some OpGet => handleGet hdr body
  | None => sendUnknownCommand hdr
  end.

Definition TakeWriteToken : M bool :=
  w ← get;
  if writeLimited w then
    modify (fun w => { w with writeTokens := writeTokens w - 1 });; mret (0 <? writeTokens w)
  else mret true.
Definition HasWriteTokens (w : world) : bool := negb (writeLimited w) || (0 <? writeTokens w).
Definition WriteQueueHasRoom (w : world) : bool :=
  HasWriteTokens w && (queuedBytes (bucket w) <? writeQueueMemLimit (bucket w) - writeQueueMemLimit (bucket w) / 8).

(** The run of cached GETs at the front of [rest], of which [off] bytes are
    behind; [out] if it has not ended after [fuel] rounds. *)
Fixpoint cachedRun (out : M nat) (fuel : nat) (rest : list Z) (off : nat) : M nat :=
  match fuel with
  | O => out
  | Datatypes.S n =>
      let raw := hdr_of_bytes (take kHeaderSize rest) in
      let hdr := ntoh raw in
      let len := (kHeaderSize + Z.to_nat (bodyLen hdr))%nat in
      if (length rest <? kHeaderSize)%nat || negb (magic raw =? kRequestMagic) || negb (opcode raw =? opcode_value OpGet) ||
         (length rest <? len)%nat || (bodyLen hdr <? extrasLen hdr + keyLen hdr)
      then mret off
      else
        let key := slice (kHeaderSize + Z.to_nat (extrasLen hdr)) (Z.to_nat (keyLen hdr)) rest in
        ca ← gets cache;
        x ← lift ca;
        y ← lift (GetCopy x (specific hdr) key kMaxValueScratch);
        modify (fun w => { w with cache := Some y.1.1 });;
        match y.1.2, y.2 with
        | Hit, Some d | Tombstone, Some d =>
            addPending (cachedReply hdr d);;
            c ← this;
            when (negb (flushScheduled_ c)) (scheduleFlush cfg);;
            c2 ← this;
            if (flushBytes cfg <=? length (pendingWriteBuf_ c2))%nat then mret (off + len)%nat
            else cachedRun out n (drop len rest) (off + len)
        | _, _ => mret off
        end
  end.
Definition serveCachedGets : M nat :=
  c ← this;
  match front (readBuf_ c) with
  | None => mret 0%nat
  | Some base =>
      off ← cachedRun fail (1 + length base) base 0;
      when (0 <? off)%nat (upd (fun c => { c with readBuf_ := trimStart (readBuf_ c) off });; scheduleFlush cfg);;
      mret off
  end.

(** The generic path: header and body leave the queue. *)
Definition consume (hdr : McbpHeader) : M unit :=
  upd (fun c => { c with readBuf_ := trimStart (readBuf_ c) kHeaderSize });;
  c ← this;
  if 0 <? bodyLen hdr then
    let '(body, q) := qsplit (readBuf_ c) (Z.to_nat (bodyLen hdr)) in
    upd (fun c => { c with readBuf_ := q });;
    dispatch hdr (Some body)
  else dispatch hdr None.

Definition reject : M bool := upd (fun c => { c with readBuf_ := qmove (readBuf_ c) });; destroy;; mret false.

(** A complete request whose header is [hdr]. *)
Definition serve (hdr : McbpHeader) (op : Opcode) : M bool :=
  c ← this;
  let totalLen := (kHeaderSize + Z.to_nat (bodyLen hdr))%nat in
  if bool_decide (op = OpGet) && bool_decide (echoResponseBuf_ c <> []) then
    upd (fun c => { c with readBuf_ := trimStart (readBuf_ c) totalLen });; handleGet hdr None;; mret true
  else
    ca ← gets cache;
    n ← (if bool_decide (op = OpGet) && bool_decide (is_Some ca) then serveCachedGets else mret 0%nat);
    if (0 <? n)%nat then mret true else consume hdr;; mret true.

Definition parseAndDispatch : M bool :=
  c ← this;
  let s := contents (readBuf_ c) in
  if (length s <? kHeaderSize)%nat then mret false
  else
    let raw := hdr_of_bytes (take kHeaderSize s) in
    if negb (magic raw =? kRequestMagic) then reject
    else
      match opcode_of (opcode raw) with
      | None => reject
      | Some op =>
          let hdr := ntoh raw in
          if (length s <? kHeaderSize + Z.to_nat (bodyLen hdr))%nat then mret false
          else
            ok ← (if bool_decide (op = OpSet) then TakeWriteToken else mret true);
            if (ok : bool) then serve hdr op
            else upd (fun c => { c with stageFull_ := true });; mret false
      end.

(** [while (!closing_ && !stageFull_ && parseAndDispatch())]: every round that
    continues takes at least a header off the queue. *)
Definition parseStep : M bool :=
  c ← this; if closing_ c || stageFull_ c then mret false else parseAndDispatch.
Definition parseLoop : M unit := c ← this; while fail (1 + length (contents (readBuf_ c))) parseStep.

(** ** Back-pressure *)
Definition flushStaged : M unit :=
  w ← get;
  x ← lift (FlushStaged (engineCfg cfg) now (bucket w) (staging w));
  modify (fun w => { w with bucket := x.1; staging := x.2 }).

Definition pauseForQueue : M unit :=
  upd (fun c => { c with stageFull_ := false });;
  c ← this;
  when (negb (closing_ c || migrating_ c || readPaused_ c) && bool_decide (loop c <> None))
    (upd (fun c => { c with readPaused_ := true; readCB := false; resumeTimeout_ := true })).

(** Parse what is buffered, push what was staged, pause if the queue is full. *)
Definition parseBuffered : M unit :=
  parseLoop;;
  flushStaged;;
  c ← this;
  when (stageFull_ c) pauseForQueue.
Definition flushOrDefer : M unit :=
  if 0 <? flushDelayUs cfg then
    c ← this; when (bool_decide (pendingWriteBuf_ c <> [])) (scheduleFlush cfg)
  else flushPending cfg.

Definition readDataAvailable (data : list Z) : M unit :=
  upd (fun c => { c with readBuf_ := postallocate (readBuf_ c) data });;
  parseBuffered;;
  flushOrDefer.

Definition resumeAfterQueue : M unit :=
  c ← this;
  if negb (readPaused_ c) then mret tt
  else if closing_ c || migrating_ c then upd (fun c => { c with readPaused_ := false })
  else
    w ← get;
    if negb (WriteQueueHasRoom w) then upd (fun c => { c with resumeTimeout_ := true })
    else
      upd (fun c => { c with readPaused_ := false; readCB := true });;
      parseBuffered;;
      flushPending cfg.

(** ** Timers and loop callbacks *)
Definition resumeTimeoutExpired : M unit := upd (fun c => { c with resumeTimeout_ := false });; resumeAfterQueue.
Definition flushTimeoutExpired : M unit :=
  upd (fun c => { c with flushTimeout_ := false; flushScheduled_ := false });; flushPending cfg.
Definition runFlushCb : M unit :=
  upd (fun c => { c with flushCb_ := false; flushScheduled_ := false });; flushPending cfg.

(** ** Migration *)
Definition migrateTo (target : option ptr) : M bool :=
  c ← this;
  if closing_ c || migrating_ c || bool_decide (target = None) || bool_decide (target = owner_ c) then mret false
  else
    upd (fun c => { c with migrating_ := true; drainWatch_ := true; migrateTarget_ := target; readCB := false });;
    scheduleMigrateCheck;;
    mret true.

(** Nothing in flight in either direction: leave the loop. *)
Definition detach : M unit :=
  c ← this;
  match owner_ c with Some o => emit (RemoveFrom o) | None => mret tt end;;
  target ← lift (migrateTarget_ c);
  upd (fun c => { c with flushCb_ := false; migrateCb_ := false; migrateCheckPending_ := false; flushScheduled_ := false;
                         flushTimeout_ := false; resumeTimeout_ := false; readPaused_ := false; owner_ := None;
                         migrateTarget_ := None; loop := None });;
  emit (PostAttach target).

Definition tryFinishMigrate : M unit :=
  c ← this;
  if negb (migrating_ c) then mret tt
  else if closing_ c then
    upd (fun c => { c with migrating_ := false; drainWatch_ := false; migrateTarget_ := None });;
    match migrateTarget_ c with Some t => emit (Unreserve t) | None => mret tt end
  else if negb (outstandingRequests_ c =? 0) then mret tt
  else if bool_decide (pendingWriteBuf_ c <> []) then
    upd (fun c => { c with flushTimeout_ := false; flushCb_ := false; flushScheduled_ := false });;
    flushPending cfg
  else if bool_decide (inflightBufs_ c <> []) then mret tt
  else detach.
Definition runMigrateCb : M unit :=
  upd (fun c => { c with migrateCb_ := false; migrateCheckPending_ := false });; tryFinishMigrate.

Definition finishAttach (target evb : ptr) : M unit :=
  upd (fun c => { c with loop := Some evb; owner_ := Some target });;
  emit (AddTo target);;
  upd (fun c => { c with migrating_ := false; drainWatch_ := false; readCB := true });;
  parseBuffered;;
  flushOrDefer.

Definition start (owner : option ptr) : M unit :=
  upd (fun c => { c with owner_ := owner });;
  match owner with Some o => emit (AddTo o) | None => mret tt end;;
  upd (fun c => { c with readCB := true }).
End handlers.

(** ** A new connection *)
Definition echoResponse (val : list Z) : list Z :=
  let hdr := mkMcbpHeader kResponseMagic (opcode_value OpGet) 0 4 0 (status_value StSuccess)
               (u32 (4 + Z.of_nat (length val))) 0 1 in
  hdr_bytes (hton hdr) ++ le_bytes 4 (bswap 4 0x04000000) ++ val.
Definition newConnection {Q : Type} (self : ptr) (evb : ptr) (q : Q) (echoGetSize : Z) (echoVal : list Z) : Connection Q :=
  mkConnection Q self (Some evb) false true q None None false false false 0 false false false [] 0 None None [] [] []
    (if 0 <? echoGetSize then echoResponse echoVal else []) [] [] 0 false false false false false false false [] false.
