(* ===== verification/ConnInv.v ===== *)
(** * Who owns a request (connection.cc, engine.cc)

    Every request of the heap is in one place: free in a pool (of the
    connection, of the thread or of a shard), staged by the thread, queued for
    a writer, queued for a reader, or away (with the handler that is filling it
    in, with a reader, a writer or the notifier).  Pooled requests are reset.
    The pool operations, staging, flushing and enqueueing move a request from
    one place to another and touch no other request. *)
From stdpp Require Import prelude gmap list.
From Stdlib Require Import ZArith Lia.
From coqutil Require Import Datatypes.RecordSettersUsingExistingGetters.
From S2P Require Import Prelude Protocol DocCache Eff Request Dispatch ReadPath ConnState Connection.
Open Scope Z_scope.

Inductive place := Pool | Staged (v : Z) | Queued (v : Z) | Reading (v : Z) | Away.
#[export] Instance place_eq_dec : EqDecision place.
Proof. solve_decision. Defined.

(** The part of the state requests live in. *)
Record Mem := mkMem {
  m_pool : list ptr;
  m_ret : option ptr;
  m_tls : option ptr;
  m_bucket : Bucket;
  m_staging : StagingTable;
  m_readers : Readers;
}.
Definition mem {Q K S} (w : World Q K S) : Mem :=
  mkMem (reqPool_ (conn w)) (returned_ (conn w)) (tlsRecycled w) (bucket w) (staging w) (readers w).
Abbreviation m_heap m := (b_heap (m_bucket m)).

(** The chains the pools are made of. *)
Record pools (m : Mem) (ret tls : list ptr) (fr : list (list (list ptr))) : Prop := mkPools {
  po_ret : chain (m_heap m) (m_ret m) ret None;
  po_tls : chain (m_heap m) (m_tls m) tls None;
  po_free : Forall2 (fun s ls => Forall2 (fun p l => chain (m_heap m) (Some p) l None) (freeRequests s) ls) (b_shards (m_bucket m)) fr;
}.
Definition pooled (m : Mem) (ret tls : list ptr) (fr : list (list (list ptr))) : list ptr :=
  m_pool m ++ ret ++ tls ++ concat (concat fr).

Record inv (m : Mem) (own : gmap ptr place) (St Qu Rd : Z -> list ptr) : Prop := mkInv {
  inv_pools : exists ret tls fr, pools m ret tls fr /\ NoDup (pooled m ret tls fr) /\
    forall p, p ∈ pooled m ret tls fr <-> own !! p = Some Pool;
  inv_clean p r : own !! p = Some Pool -> m_heap m !! p = Some r -> reset r = r;
  inv_heap p : is_Some (own !! p) <-> is_Some (m_heap m !! p);
  inv_staging : staging_rep (m_heap m) (m_staging m) St;
  inv_queues : queue_rep (m_bucket m) Qu;
  inv_reads v : vb_ok v -> exists q L O, rqs (m_readers m) !! Z.to_nat v = Some q /\ rq_rep (m_heap m) q L O /\ Rd v = O ++ reverse L;
  inv_nodup v : NoDup (St v) /\ NoDup (Qu v);
  inv_staged v p : p ∈ St v <-> own !! p = Some (Staged v);
  inv_queued v p : p ∈ Qu v <-> own !! p = Some (Queued v);
  inv_reading v p : p ∈ Rd v <-> own !! p = Some (Reading v);
}.

Lemma inv_separate m own St Qu Rd : inv m own St Qu Rd -> separate St Qu.
Proof.
  intros H. split; [apply H|]. split; [|split]; intros v w x.
  - rewrite !(inv_staged _ _ _ _ _ H). congruence.
  - rewrite !(inv_queued _ _ _ _ _ H). congruence.
  - rewrite (inv_staged _ _ _ _ _ H), (inv_queued _ _ _ _ _ H). congruence.
Qed.

(** ** Changing a request nobody else holds *)
Definition put (m : Mem) (p : ptr) (r : Request) : Mem :=
  mkMem (m_pool m) (m_ret m) (m_tls m) (with_heap (m_bucket m) (<[p := r]> (m_heap m))) (m_staging m) (m_readers m).

Lemma Forall2_chains_frame (h h' : rheap) (ss : list EShard) fr : (forall x, x ∈ concat (concat fr) -> h' !! x = h !! x) ->
  Forall2 (fun s ls => Forall2 (fun p l => chain h (Some p) l None) (freeRequests s) ls) ss fr ->
  Forall2 (fun s ls => Forall2 (fun p l => chain h' (Some p) l None) (freeRequests s) ls) ss fr.
Proof.
  intros Hx H. induction H as [|s ls ss fr Hs Hr IH]; constructor.
  - cbn in Hx. rewrite concat_app in Hx. clear IH Hr. induction Hs as [|p l ps ls' Hp Hr IH]; constructor.
    + eapply chain_frame; [|exact Hp]. intros x Hin. apply Hx. cbn. set_solver.
    + apply IH. intros x Hin. apply Hx. cbn. set_solver.
  - apply IH. intros x Hin. apply Hx. cbn. rewrite concat_app. set_solver.
Qed.

Lemma pools_frame m m' ret tls fr : m_ret m' = m_ret m -> m_tls m' = m_tls m -> b_shards (m_bucket m') = b_shards (m_bucket m) ->
  (forall x, x ∈ ret ++ tls ++ concat (concat fr) -> m_heap m' !! x = m_heap m !! x) -> pools m ret tls fr -> pools m' ret tls fr.
Proof.
  intros E1 E2 E3 Hx [H1 H2 H3]. split.
  - rewrite E1. eapply chain_frame; [|exact H1]. set_solver.
  - rewrite E2. eapply chain_frame; [|exact H2]. set_solver.
  - rewrite E3. eapply Forall2_chains_frame; [|exact H3]. set_solver.
Qed.

Lemma staging_frame h h' t St : (forall v x, x ∈ St v -> h' !! x = h !! x) -> staging_rep h t St -> staging_rep h' t St.
Proof.
  intros Hx [[Hl Hv] H2 H3 H4]. split; [|done|done|done]. split; [done|]. intros v Hvo. destruct (Hv v Hvo) as (st & Hst & Hc & Hrest).
  exists st. split; [done|]. split; [|done]. eapply chain_frame; [|exact Hc]. intros x. apply Hx.
Qed.

Lemma queues_frame b h Qu : (forall v x, x ∈ Qu v -> h !! x = b_heap b !! x) -> queue_rep b Qu -> queue_rep (with_heap b h) Qu.
Proof.
  intros Hx [Hn Hv]. split; [done|]. intros v Hvo. destruct (Hv v Hvo) as (q & Hq & Hc). exists q. split; [exact Hq|].
  eapply chain_frame; [|exact Hc]. intros x. apply Hx.
Qed.

Lemma rq_rep_frame h h' q L O : (forall x, x ∈ O ++ L -> h' !! x = h !! x) -> rq_rep h q L O -> rq_rep h' q L O.
Proof. intros Hx [H1 H2 H3 H4]. split; [| |done|done]; (eapply chain_frame; [|eassumption]); set_solver. Qed.

Lemma conn_inv_put m own St Qu Rd p r : inv m own St Qu Rd -> own !! p = Some Away -> inv (put m p r) own St Qu Rd.
Proof.
  intros H Hp. assert (Hne : forall x pl, own !! x = Some pl -> pl <> Away -> m_heap (put m p r) !! x = m_heap m !! x).
  { intros x pl Hx Hpl. cbn. rewrite lookup_insert_ne; [done|]. intros <-. congruence. }
  destruct H as [(ret & tls & fr & Hpo & Hnd & Hin) Hcl Hh Hst Hqu Hrd Hn H1 H2 H3]. split; try done.
  - exists ret, tls, fr. split; [|done]. eapply pools_frame; [..|exact Hpo]; try done. intros x Hx. apply (Hne x Pool); [|done].
    apply Hin. unfold pooled. set_solver.
  - intros q rq Hq. rewrite (Hne q Pool) by done. by apply Hcl.
  - intros q. rewrite Hh. cbn. destruct (decide (q = p)) as [->|]; [rewrite lookup_insert_eq|by rewrite lookup_insert_ne].
    split; [done|]. intros _. apply Hh. by eexists.
  - eapply staging_frame; [|exact Hst]. intros v x Hx. apply (Hne x (Staged v)); [by apply H1|done].
  - apply queues_frame; [|done]. intros v x Hx. apply (Hne x (Queued v)); [by apply H2|done].
  - intros v Hv. destruct (Hrd v Hv) as (q & L & O & Hq & Hr & E). exists q, L, O. split; [done|]. split; [|done].
    eapply rq_rep_frame; [|exact Hr]. intros x Hx. apply (Hne x (Reading v)); [|done]. apply H3. rewrite E. set_solver.
Qed.

(** ** Moving requests in and out of the pools *)

(** Requests outside the pools keep their place and their contents. *)
Definition keeps (own own' : gmap ptr place) (h h' : rheap) : Prop :=
  forall x pl, own !! x = Some pl -> pl <> Pool -> own' !! x = Some pl /\ h' !! x = h !! x.

Lemma keeps_trans o1 o2 o3 h1 h2 h3 : keeps o1 o2 h1 h2 -> keeps o2 o3 h2 h3 -> keeps o1 o3 h1 h3.
Proof. intros H1 H2 x pl Hx Hp. destruct (H1 x pl Hx Hp) as [Hx2 E2]. destruct (H2 x pl Hx2 Hp) as [Hx3 E3]. split; congruence. Qed.

(** The queued ones do. *)
Definition keepsq (own own' : gmap ptr place) (h h' : rheap) : Prop :=
  forall x pl, own !! x = Some pl -> pl <> Pool -> pl <> Away -> own' !! x = Some pl /\ h' !! x = h !! x.
Lemma keeps_q own own' h h' : keeps own own' h h' -> keepsq own own' h h'.
Proof. intros H x pl Hx Hp _. by apply H. Qed.

(** The queues of [m'] are those of [m] when the write queues, the staging
    table and the readers are the same and no queued request changed. *)
Lemma inv_repool m m' own own' St Qu Rd : inv m own St Qu Rd ->
  m_staging m' = m_staging m -> m_readers m' = m_readers m -> b_shards (m_bucket m') <> [] ->
  (forall v, GetVBWriteQueue (m_bucket m') v = GetVBWriteQueue (m_bucket m) v) ->
  keepsq own own' (m_heap m) (m_heap m') ->
  (forall x pl, own' !! x = Some pl -> pl <> Pool -> pl <> Away -> own !! x = Some pl) ->
  (forall x, is_Some (own' !! x) <-> is_Some (m_heap m' !! x)) ->
  (exists ret tls fr, pools m' ret tls fr /\ NoDup (pooled m' ret tls fr) /\ forall p, p ∈ pooled m' ret tls fr <-> own' !! p = Some Pool) ->
  (forall p r, own' !! p = Some Pool -> m_heap m' !! p = Some r -> reset r = r) ->
  inv m' own' St Qu Rd.
Proof.
  intros H E1 E2 Hsh Hvb Hk Hb Hh Hpo Hcl. destruct H as [_ _ _ Hst Hqu Hrd Hn H1 H2 H3].
  assert (Hiff : forall x pl, pl <> Pool -> pl <> Away -> own !! x = Some pl <-> own' !! x = Some pl).
  { intros x pl Hp Ha. split; [intros Hx; by apply (Hk x pl)|intros Hx; by apply Hb]. }
  split; try done.
  - rewrite E1. eapply staging_frame; [|exact Hst]. intros v x Hx. apply (Hk x (Staged v)); [by apply H1|done|done].
  - destruct Hqu as [_ Hq]. split; [done|]. intros v Hv. rewrite Hvb. destruct (Hq v Hv) as (q & Hq' & Hc). exists q. split; [done|].
    eapply chain_frame; [|exact Hc]. intros x Hx. apply (Hk x (Queued v)); [by apply H2|done|done].
  - intros v Hv. rewrite E2. destruct (Hrd v Hv) as (q & L & O & Hq & Hr & E). exists q, L, O. split; [done|]. split; [|done].
    eapply rq_rep_frame; [|exact Hr]. intros x Hx. apply (Hk x (Reading v)); [|done|done]. apply H3. rewrite E. set_solver.
  - intros v x. rewrite H1. by apply Hiff.
  - intros v x. rewrite H2. by apply Hiff.
  - intros v x. rewrite H3. by apply Hiff.
Qed.

Section pools.
Context {Q K C : Type} `{IQ : IOBufQueue Q} `{SK : AsyncSocket K} `{DC : DocCache C}.
Context (cfg : ConnConfig).
Abbreviation world := (World Q K C).
Abbreviation M := (eff world).

Lemma wp_this (P : Connection Q -> world -> Prop) w : deleted (conn w) = false -> P (conn w) w -> wp this P w.
Proof. intros Hd HP. unfold this. apply wp_bind, wp_gets. rewrite Hd. by apply wp_ret. Qed.
Lemma wp_upd f (P : unit -> world -> Prop) w : deleted (conn w) = false -> P tt { w with conn := f (conn w) } -> wp (upd f) P w.
Proof. intros Hd HP. unfold upd. apply wp_bind, wp_this; [done|]. by apply wp_modify. Qed.
Lemma wp_emit e (P : unit -> world -> Prop) w : P tt { w with log := log w ++ [e] } -> wp (emit e) P w.
Proof. intros HP. by apply wp_modify. Qed.
Lemma wp_rget p r (P : Request -> world -> Prop) w : b_heap (bucket w) !! p = Some r -> P r w -> wp (rget p) P w.
Proof. intros Hr HP. unfold rget, heap. apply wp_bind, wp_gets. by eapply wp_lift. Qed.
Lemma wp_rput p r (P : unit -> world -> Prop) w :
  P tt { w with bucket := with_heap (bucket w) (<[p := r]> (b_heap (bucket w))) } -> wp (rput p r) P w.
Proof. intros HP. unfold rput, heap, setHeap. apply wp_bind, wp_gets. by apply wp_modify. Qed.

Lemma takeChain_spec (w : world) p l : chain (b_heap (bucket w)) p l None -> NoDup l ->
  wp (takeChain p) (fun x w' => x = l /\ exists h', w' = { w with bucket := with_heap (bucket w) h' } /\
    hooks_only (b_heap (bucket w)) h' /\ forall x, x ∉ l -> h' !! x = b_heap (bucket w) !! x) w.
Proof.
  intros Hc Hn. unfold takeChain, heap, setHeap. apply wp_bind, wp_gets.
  destruct (drainChain_spec (1 + size (b_heap (bucket w))) _ _ _ Hc Hn) as (h' & E & Hh & Hf).
  { pose proof (chain_fits _ _ _ _ Hc Hn). lia. }
  apply wp_bind. eapply wp_lift; [exact E|]. apply wp_bind, wp_modify, wp_ret. split; [done|]. by exists h'.
Qed.

(** Filling the pool from a list: what fits is pooled, the rest deleted. *)
Definition deleteAll {A} (h : gmap ptr A) (l : list ptr) : gmap ptr A := foldl (fun h x => delete x h) h l.
Lemma lookup_deleteAll {A} (h : gmap ptr A) l x : deleteAll h l !! x = if decide (x ∈ l) then None else h !! x.
Proof.
  revert h. induction l as [|y l IH]; intros h; [done|]. cbn. unfold deleteAll in IH. rewrite IH. destruct (decide (x = y)) as [->|Hne].
  - rewrite (decide_True (P := y ∈ y :: l)) by left. case_decide; [done|]. apply lookup_delete_eq.
  - rewrite lookup_delete_ne by done. repeat case_decide; set_solver.
Qed.

Lemma deleteRequest_spec (w : world) x r : b_heap (bucket w) !! x = Some r ->
  wp (deleteRequest x) (fun _ w' => w' = { w with bucket := with_heap (bucket w) (delete x (b_heap (bucket w))) }) w.
Proof.
  intros Hr. unfold deleteRequest, heap, setHeap. apply wp_bind. eapply wp_rget; [exact Hr|]. by apply wp_bind, wp_gets, wp_modify.
Qed.

Lemma eachDelete_spec l (w : world) : deleted (conn w) = false -> NoDup l -> (forall x, x ∈ l -> is_Some (b_heap (bucket w) !! x)) ->
  (kMaxPooledReqs <= length (reqPool_ (conn w)))%nat ->
  wp (each poolReturned l) (fun _ w' => w' = { w with bucket := with_heap (bucket w) (deleteAll (b_heap (bucket w)) l) }) w.
Proof.
  intros Hd Hn Hl Hfull. revert w Hd Hl Hfull. induction Hn as [|x l Hx Hn IH]; intros w Hd Hl Hfull; cbn [each].
  - apply wp_ret. by destruct w as [? [] ? ? ? ? ? ? ? ? ?].
  - destruct (Hl x) as [r Hr]; [left|]. apply wp_bind. unfold poolReturned at 1. apply wp_bind, wp_this; [done|].
    destruct (Nat.ltb_spec (length (reqPool_ (conn w))) kMaxPooledReqs); [lia|].
    eapply wp_mono; [by eapply deleteRequest_spec|]. intros [] w1 ->.
    eapply wp_mono; [apply IH; [done| |done]|].
    + intros y Hy. cbn. rewrite lookup_delete_ne; [apply Hl; by right|]. by intros ->.
    + by intros [] w2 ->.
Qed.

Lemma eachPoolReturned_spec l (w : world) : deleted (conn w) = false -> NoDup l -> (forall x, x ∈ l -> is_Some (b_heap (bucket w) !! x)) ->
  wp (each poolReturned l) (fun _ w' => exists l1 l2, l = l1 ++ l2 /\
    w' = { w with conn := { conn w with reqPool_ := reqPool_ (conn w) ++ l1 };
                  bucket := with_heap (bucket w) (deleteAll (b_heap (bucket w)) l2) }) w.
Proof.
  intros Hd Hn Hl. revert w Hd Hl. induction Hn as [|x l Hx Hn IH]; intros w Hd Hl.
  - apply wp_ret. exists [], []. split; [done|]. destruct w as [c b ? ? ? ? ? ? ? ? ?], c, b. cbn. unfold const. by rewrite app_nil_r.
  - destruct (Nat.ltb_spec (length (reqPool_ (conn w))) kMaxPooledReqs) as [Hlt|Hge].
    + cbn [each]. apply wp_bind. unfold poolReturned at 1. apply wp_bind, wp_this; [done|].
      destruct (Nat.ltb_spec (length (reqPool_ (conn w))) kMaxPooledReqs); [|lia]. apply wp_upd; [done|].
      eapply wp_mono; [apply IH; [done|intros y Hy; apply Hl; by right]|]. intros [] w1 (l1 & l2 & -> & ->).
      exists (x :: l1), l2. split; [done|]. cbn. unfold const. by rewrite <- app_assoc.
    + eapply wp_mono; [apply eachDelete_spec; [done|by constructor|done|done]|]. intros [] w1 ->.
      exists [], (x :: l). split; [done|]. destruct w as [[] ? ? ? ? ? ? ? ? ? ?]. cbn. unfold const. by rewrite app_nil_r.
Qed.

(** What taking a request out of the pools does to the world. *)
Definition pooling (w : world) (own : gmap ptr place) (w' : world) (own' : gmap ptr place) : Prop :=
  (exists pool' ret' b' tls',
    w' = { w with conn := { conn w with reqPool_ := pool'; returned_ := ret' }; bucket := b'; tlsRecycled := tls' } /\
    queuedBytes b' = queuedBytes (bucket w) /\ writeQueueMemLimit b' = writeQueueMemLimit (bucket w)) /\
  keeps own own' (b_heap (bucket w)) (b_heap (bucket w')).

Lemma pooling_refl w own : pooling w own w own.
Proof.
  split; [|by intros x pl]. exists (reqPool_ (conn w)), (returned_ (conn w)), (bucket w), (tlsRecycled w).
  split; [|done]. by destruct w as [[] ? ? ? ? ? ? ? ? ? ?].
Qed.
Lemma pooling_trans w1 o1 w2 o2 w3 o3 : pooling w1 o1 w2 o2 -> pooling w2 o2 w3 o3 -> pooling w1 o1 w3 o3.
Proof.
  intros [(p1 & t1 & b1 & l1 & -> & E1 & E2) K1] [(p2 & t2 & b2 & l2 & -> & F1 & F2) K2].
  split; [|by eapply keeps_trans]. exists p2, t2, b2, l2. cbn in *. unfold const in *. split; [done|]. split; congruence.
Qed.

Lemma reset_hook v r : reset r = r -> reset (set_hook v r) = set_hook v r.
Proof. intros E. apply (f_equal (set_hook v)) in E. exact E. Qed.

Lemma refillPool_spec (w : world) own St Qu Rd : inv (mem w) own St Qu Rd -> deleted (conn w) = false ->
  wp refillPool (fun _ w' => exists own', inv (mem w') own' St Qu Rd /\ pooling w own w' own') w.
Proof.
  intros H Hd. unfold refillPool. apply wp_bind, wp_this; [done|]. apply wp_when; [|by exists own; split; [|apply pooling_refl]].
  intros Hg. b2p. destruct (inv_pools _ _ _ _ _ H) as (ret & tls & fr & Hpo & Hnd & Hin).
  unfold pooled in Hnd, Hin. cbn in Hnd, Hin. rewrite H0 in Hnd, Hin. cbn in Hnd, Hin.
  pose proof Hnd as (Hnr & Hdis & Hnt)%NoDup_app.
  apply wp_bind. eapply wp_mono; [apply takeChain_spec; [apply (po_ret _ _ _ _ Hpo)|done]|].
  intros l w1 (-> & h1 & -> & Hho & Hfr). apply wp_bind, wp_upd; [done|].
  eapply wp_mono; [apply eachPoolReturned_spec; [done|done|]|].
  { intros x Hx. cbn. apply (hooks_only_dom _ _ _ Hho). apply (inv_heap _ _ _ _ _ H). exists Pool. apply Hin. set_solver. }
  intros [] w2 (l1 & l2 & -> & ->). apply NoDup_app in Hnr as (Hn1 & Hd12 & Hn2). cbn. unfold const.
  assert (Hh : forall x, deleteAll h1 l2 !! x = if decide (x ∈ l2) then None else h1 !! x) by apply lookup_deleteAll.
  assert (Ho : forall x, deleteAll own l2 !! x = if decide (x ∈ l2) then None else own !! x) by apply lookup_deleteAll.
  assert (Hk : keeps own (deleteAll own l2) (b_heap (bucket w)) (deleteAll h1 l2)).
  { intros x pl Hx Hpl. rewrite Hh, Ho. destruct (decide (x ∈ l2)) as [Hx2|Hx2].
    - assert (own !! x = Some Pool) by (apply Hin; set_solver). congruence.
    - split; [done|]. apply Hfr. intros Hx'. assert (own !! x = Some Pool) by (apply Hin; set_solver). congruence. }
  exists (deleteAll own l2). split.
  2: { split; [|done]. exists (reqPool_ (conn w) ++ l1), None, (with_heap (bucket w) (deleteAll h1 l2)), (tlsRecycled w). done. }
  eapply inv_repool; [exact H|done|done|apply (qr_shards _ _ (inv_queues _ _ _ _ _ H))|done|exact (keeps_q _ _ _ _ Hk)|..].
  - intros x pl. rewrite Ho. case_decide; [done|]. done.
  - intros x. cbn. rewrite Hh, Ho. case_decide; [by split; intros [? ?]|]. rewrite (inv_heap _ _ _ _ _ H). cbn.
    split; intros Hs; [by eapply hooks_only_dom|]. symmetry in Hho. by eapply hooks_only_dom.
  - exists [], tls, fr. split; [|split].
    + split; cbn; [done|..].
      * eapply chain_frame; [|apply (po_tls _ _ _ _ Hpo)]. intros x Hx. rewrite Hh. rewrite decide_False by set_solver. apply Hfr. set_solver.
      * eapply Forall2_chains_frame; [|apply (po_free _ _ _ _ Hpo)]. intros x Hx. cbn. rewrite Hh. rewrite decide_False by set_solver. apply Hfr. set_solver.
    + unfold pooled. cbn. rewrite H0. cbn. apply NoDup_app. split; [done|]. split; [set_solver|done].
    + intros p. unfold pooled. cbn. rewrite H0. cbn. rewrite Ho. case_decide as Hp.
      * split; [|done]. intros Hp'. exfalso. set_solver.
      * rewrite <- Hin. set_solver.
  - intros p r. cbn. rewrite Ho, Hh. case_decide; [done|]. intros Hp Hr. symmetry in Hho.
    destruct (hooks_only_lookup _ _ _ _ Hho Hr) as [v Hv]. pose proof (inv_clean _ _ _ _ _ H p _ Hp Hv) as E.
    apply (reset_hook (hook r)) in E. by destruct r.
Qed.

(** A request just taken: away, and as a new one but for its hook. *)
Definition fresh_req (w : world) (own : gmap ptr place) (p : ptr) : Prop :=
  own !! p = Some Away /\ exists r, b_heap (bucket w) !! p = Some r /\ reset r = r.

(** [w'] has [p] out of the pools of [w]. *)
Definition acquires (w : world) (own : gmap ptr place) (St Qu Rd : Z -> list ptr) (p : ptr) (w' : world) : Prop :=
  exists own', inv (mem w') own' St Qu Rd /\ pooling w own w' own' /\ fresh_req w' own' p.

Lemma newRequest_spec (w : world) own St Qu Rd : inv (mem w) own St Qu Rd ->
  wp newRequest (acquires w own St Qu Rd) w.
Proof.
  intros H. unfold newRequest, heap. apply wp_bind, wp_gets. set (p := fresh (dom (b_heap (bucket w)))).
  assert (Hp : b_heap (bucket w) !! p = None) by apply not_elem_of_dom, is_fresh.
  assert (Hop : own !! p = None).
  { destruct (own !! p) eqn:E; [|done]. destruct (proj1 (inv_heap _ _ _ _ _ H p)) as [r Hr]; [by eexists|]. cbn in Hr. congruence. }
  apply wp_bind, wp_rput, wp_ret. exists (<[p := Away]> own).
  assert (Hk : keeps own (<[p := Away]> own) (b_heap (bucket w)) (<[p := defaultRequest]> (b_heap (bucket w)))).
  { intros x pl Hx _. rewrite !lookup_insert_ne by congruence. done. }
  split; [|split].
  - eapply inv_repool; [exact H|done|done|apply (qr_shards _ _ (inv_queues _ _ _ _ _ H))|done|exact (keeps_q _ _ _ _ Hk)|..]; cbn.
    + intros x pl. destruct (decide (x = p)) as [->|]; [rewrite lookup_insert_eq; congruence|by rewrite lookup_insert_ne].
    + intros x. destruct (decide (x = p)) as [->|]; [rewrite !lookup_insert_eq; split; by eexists|rewrite !lookup_insert_ne by done].
      apply (inv_heap _ _ _ _ _ H).
    + destruct (inv_pools _ _ _ _ _ H) as (ret & tls & fr & Hpo & Hnd & Hin). exists ret, tls, fr. split; [|split; [done|]].
      * eapply pools_frame; [..|exact Hpo]; try done. intros x Hx. cbn. apply lookup_insert_ne. intros E.
        assert (own !! x = Some Pool); [apply Hin; unfold pooled; set_solver|congruence].
      * intros x. change (pooled _ ret tls fr) with (pooled (mem w) ret tls fr). rewrite Hin.
        destruct (decide (x = p)) as [->|]; [rewrite lookup_insert_eq; naive_solver congruence|by rewrite lookup_insert_ne].
    + intros x r. destruct (decide (x = p)) as [->|]; [by rewrite lookup_insert_eq|rewrite !lookup_insert_ne by done].
      apply (inv_clean _ _ _ _ _ H).
  - split; [|done]. exists (reqPool_ (conn w)), (returned_ (conn w)), (with_heap (bucket w) (<[p := defaultRequest]> (b_heap (bucket w)))), (tlsRecycled w).
    split; [|done]. by destruct w as [[] ? ? ? ? ? ? ? ? ? ?].
  - split; [by rewrite lookup_insert_eq|]. exists defaultRequest. cbn. by rewrite lookup_insert_eq.
Qed.

(** Taking a request off one of the pool lists, its hook changed or not. *)
Lemma inv_unpool m m' own St Qu Rd p r v ret tls fr : inv m own St Qu Rd -> own !! p = Some Pool -> m_heap m !! p = Some r ->
  m_staging m' = m_staging m -> m_readers m' = m_readers m -> b_shards (m_bucket m') <> [] ->
  (forall v, GetVBWriteQueue (m_bucket m') v = GetVBWriteQueue (m_bucket m) v) ->
  m_heap m' = <[p := set_hook v r]> (m_heap m) ->
  pools m' ret tls fr -> NoDup (p :: pooled m' ret tls fr) -> (forall x, x ∈ p :: pooled m' ret tls fr <-> own !! x = Some Pool) ->
  inv m' (<[p := Away]> own) St Qu Rd /\ keeps own (<[p := Away]> own) (m_heap m) (m_heap m').
Proof.
  intros H Hp Hr E1 E2 Hsh Hvb Eh Hpo [Hnp Hnd]%NoDup_cons Hin.
  assert (Hk : keeps own (<[p := Away]> own) (m_heap m) (m_heap m')).
  { intros x pl Hx Hpl. rewrite Eh, !lookup_insert_ne by congruence. done. }
  split; [|done]. eapply inv_repool; [exact H|done|done|done|done|exact (keeps_q _ _ _ _ Hk)|..].
  - intros x pl. destruct (decide (x = p)) as [->|]; [rewrite lookup_insert_eq; congruence|by rewrite lookup_insert_ne].
  - intros x. rewrite Eh. destruct (decide (x = p)) as [->|]; [rewrite !lookup_insert_eq; split; by eexists|rewrite !lookup_insert_ne by done].
    apply (inv_heap _ _ _ _ _ H).
  - exists ret, tls, fr. split; [done|]. split; [done|]. intros x. destruct (decide (x = p)) as [->|].
    + rewrite lookup_insert_eq. split; [done|]. congruence.
    + rewrite lookup_insert_ne by done. rewrite <- Hin. set_solver.
  - intros x rx. rewrite Eh. destruct (decide (x = p)) as [->|]; [by rewrite lookup_insert_eq|rewrite !lookup_insert_ne by done].
    apply (inv_clean _ _ _ _ _ H).
Qed.

Lemma acquireRequest_spec (w : world) own St Qu Rd : inv (mem w) own St Qu Rd -> deleted (conn w) = false ->
  wp acquireRequest (acquires w own St Qu Rd) w.
Proof.
  intros H Hd. unfold acquireRequest. apply wp_bind. eapply wp_mono; [by apply refillPool_spec|].
  intros [] w1 (own1 & H1 & Hp1). assert (Hd1 : deleted (conn w1) = false) by (by destruct Hp1 as [(? & ? & ? & ? & -> & _) _]).
  apply wp_bind, wp_this; [done|]. destruct (last (reqPool_ (conn w1))) as [p|] eqn:El.
  - apply last_Some in El as [l El]. apply wp_bind, wp_upd; [done|]. apply wp_ret.
    destruct (inv_pools _ _ _ _ _ H1) as (ret & tls & fr & Hpo & Hnd & Hin).
    assert (HP : pooled (mem w1) ret tls fr ≡ₚ p :: l ++ ret ++ tls ++ concat (concat fr)).
    { unfold pooled. cbn. rewrite El. rewrite <- app_assoc. cbn. by rewrite <- Permutation_middle. }
    assert (Hop : own1 !! p = Some Pool) by (apply Hin; rewrite HP; left).
    destruct (proj1 (inv_heap _ _ _ _ _ H1 p)) as [r Hr]; [by eexists|].
    assert (Et : take (length (reqPool_ (conn w1)) - 1) (reqPool_ (conn w1)) = l).
    { rewrite El, length_app. cbn. replace (length l + 1 - 1)%nat with (length l) by lia. apply take_app_length. }
    set (w2 := { w1 with conn := { conn w1 with reqPool_ := take (length (reqPool_ (conn w1)) - 1) (reqPool_ (conn w1)) } }).
    assert (Ep : pooled (mem w2) ret tls fr = l ++ ret ++ tls ++ concat (concat fr)) by exact (f_equal (fun l => l ++ ret ++ tls ++ concat (concat fr)) Et).
    destruct (inv_unpool (mem w1) (mem w2)
      own1 St Qu Rd p r (hook r) ret tls fr H1 Hop Hr) as [Hi Hk]; try done.
    { apply (qr_shards _ _ (inv_queues _ _ _ _ _ H1)). }
    { symmetry. apply insert_id. etrans; [exact Hr|]. by destruct r. }
    { destruct Hpo as [P1 P2 P3]. by split. }
    { by rewrite Ep, <- HP. }
    { intros x. rewrite Ep, <- HP. apply Hin. }
    exists (<[p := Away]> own1). split; [exact Hi|]. split; [|split; [by rewrite lookup_insert_eq|]].
    + eapply pooling_trans; [exact Hp1|]. split; [|exact Hk].
      exists (take (length (reqPool_ (conn w1)) - 1) (reqPool_ (conn w1))), (returned_ (conn w1)), (bucket w1), (tlsRecycled w1).
      split; [|done]. subst w2. by destruct w1 as [[] ? ? ? ? ? ? ? ? ? ?].
    + exists r. split; [done|]. eapply (inv_clean _ _ _ _ _ H1); done.
  - eapply wp_mono; [by apply newRequest_spec|]. intros p w2 (own2 & H2 & Hp2 & Hf). exists own2. split; [done|].
    split; [by eapply pooling_trans|done].
Qed.

(** A chain taken from its shard becomes the thread's. *)
Lemma concat_take_chain (fr : list (list (list ptr))) i l ls : fr !! i = Some (l :: ls) ->
  concat (concat fr) ≡ₚ l ++ concat (concat (<[i := ls]> fr)).
Proof.
  intros Hf. pose proof (lookup_lt_Some _ _ _ Hf). rewrite <- (take_drop_middle _ _ _ Hf) at 1. rewrite insert_take_drop by done.
  rewrite !concat_app. cbn [concat]. rewrite !concat_app. cbn [concat]. solve_Permutation.
Qed.

Lemma takeShardChain_spec (w : world) own St Qu Rd vb : inv (mem w) own St Qu Rd -> tlsRecycled w = None ->
  wp (takeShardChain vb) (fun c w1 => inv (mem { w1 with tlsRecycled := c }) own St Qu Rd /\
    pooling w own { w1 with tlsRecycled := c } own) w.
Proof.
  intros H Ht. unfold takeShardChain. apply wp_bind, wp_gets. set (b := bucket w). set (i := shardOf b vb).
  pose proof (inv_queues _ _ _ _ _ H) as [Hne Hq]. cbn in Hne.
  assert (Hi : (i < length (b_shards b))%nat).
  { unfold i, shardOf. destruct (b_shards b) as [|s0 ss] eqn:Es; [by destruct Hne|]. apply Nat2Z.inj_lt. rewrite Z2Nat.id; [|apply Z.mod_pos_bound; cbn; lia].
    apply Z.mod_pos_bound. cbn. lia. }
  destruct (lookup_lt_is_Some_2 _ _ Hi) as [s Hs]. apply wp_bind. eapply wp_lift; [exact Hs|]. apply wp_bind.
  destruct (inv_pools _ _ _ _ _ H) as (ret & tls & fr & [P1 P2 P3] & Hnd & Hin).
  cbn in P2. rewrite Ht in P2. destruct tls as [|t0 tls]; [|by destruct P2].
  destruct (freeRequests s) as [|p0 fl] eqn:Ef.
  - eapply wp_lift; [unfold TakeRequests; by rewrite Ef|]. apply wp_bind, wp_modify, wp_ret. cbn [fst snd]. rewrite (list_insert_id _ _ _ Hs).
    replace { { w with bucket := mkBucket (b_heap b) (b_shards b) (queuedBytes b) (writeQueueMemLimit b) } with tlsRecycled := None } with w.
    + split; [done|apply pooling_refl].
    + subst b. destruct w as [? [] ? ? ? ? ? ? ? ? ?]. cbn in *. unfold const. by rewrite Ht.
  - destruct (Forall2_lookup_l _ _ _ _ _ P3 Hs) as (ls0 & Hf & Hls). rewrite Ef in Hls. apply Forall2_cons_inv_l in Hls as (l0 & ls & Hc & Hls & ->).
    destruct l0 as [|x0 l0]; [done|]. pose proof (chain_hd _ _ _ _ _ Hc) as [= ->].
    destruct (chain_dom _ _ _ _ x0 Hc) as [r Hr]; [left|]. cbn in Hr.
    eapply wp_lift; [unfold TakeRequests; rewrite Ef; subst b; by rewrite Hr|]. apply wp_bind, wp_modify, wp_ret. cbn [fst snd].
    set (s' := with_free s fl _). set (b' := mkBucket _ _ _ _).
    assert (HP : pooled (mem { { w with bucket := b' } with tlsRecycled := Some x0 }) ret (x0 :: l0) (<[i := ls]> fr) ≡ₚ pooled (mem w) ret [] fr).
    { unfold pooled. cbn. rewrite (concat_take_chain _ _ _ _ Hf). solve_Permutation. }
    assert (El : length (b_shards b') = length (b_shards b)) by (apply length_insert).
    split; [|split; [|by intros x pl]].
    + eapply inv_repool; [exact H|done|done|..].
      * intros E. apply (f_equal length) in E. change (length (b_shards b') = 0%nat) in E. lia.
      * intros v. change (GetVBWriteQueue b' v = GetVBWriteQueue b v).
        assert (Es : shardOf b' v = shardOf b v) by (unfold shardOf; by rewrite El). unfold GetVBWriteQueue. rewrite Es.
        change (b_shards b') with (<[i := s']> (b_shards b)).
        destruct (decide (shardOf b v = i)) as [->|]; [|by rewrite list_lookup_insert_ne]. rewrite list_lookup_insert_eq by done. by rewrite Hs.
      * by intros x pl.
      * done.
      * apply (inv_heap _ _ _ _ _ H).
      * exists ret, (x0 :: l0), (<[i := ls]> fr). split; [|split; [by rewrite HP|intros x; by rewrite HP]]. split; [done|done|].
        cbn. apply Forall2_insert; [exact P3|]. exact Hls.
      * apply (inv_clean _ _ _ _ _ H).
    + exists (reqPool_ (conn w)), (returned_ (conn w)), b', (Some x0). split; [|done]. by destruct w as [[] ? ? ? ? ? ? ? ? ? ?].
Qed.

Lemma acquireRequestFor_spec (w : world) own St Qu Rd vb : inv (mem w) own St Qu Rd -> deleted (conn w) = false ->
  wp (acquireRequestFor vb) (acquires w own St Qu Rd) w.
Proof.
  intros H Hd. unfold acquireRequestFor. apply wp_bind, wp_gets. apply wp_bind.
  apply (wp_mono _ (fun c w1 => inv (mem { w1 with tlsRecycled := c }) own St Qu Rd /\ pooling w own { w1 with tlsRecycled := c } own)).
  { destruct (tlsRecycled w) as [p|] eqn:Ht; [|by apply takeShardChain_spec]. apply wp_ret.
    replace { w with tlsRecycled := Some p } with w; [by split; [|apply pooling_refl]|]. destruct w. cbn in *. unfold const. by rewrite Ht. }
  intros c w1 [H1 Hp1]. assert (Hd1 : deleted (conn w1) = false).
  { destruct Hp1 as [(p' & t' & b' & l' & E & _) _]. apply (f_equal (fun w => deleted (conn w))) in E. by rewrite <- Hd. }
  destruct c as [p|].
  - destruct (inv_pools _ _ _ _ _ H1) as (ret & tls & fr & Hpo & Hnd & Hin). destruct Hpo as [P1 P2 P3]. cbn in P1, P2, P3.
    destruct tls as [|p' tls]; [done|]. destruct P2 as (E & r & Hr & Hc). injection E as <-. apply wp_bind. eapply wp_rget; [exact Hr|].
    apply wp_bind, wp_modify. apply wp_bind, wp_rput, wp_ret.
    assert (HP : pooled (mem { w1 with tlsRecycled := Some p }) ret (p :: tls) fr ≡ₚ p :: reqPool_ (conn w1) ++ ret ++ tls ++ concat (concat fr)).
    { unfold pooled. cbn. solve_Permutation. }
    assert (Hop : own !! p = Some Pool) by (apply Hin; rewrite HP; left).
    pose proof Hnd as Hnd'. rewrite HP in Hnd'. apply NoDup_cons in Hnd' as [Hnp _].
    match goal with |- acquires _ _ _ _ _ _ ?x => set (w2 := x) end.
    destruct (inv_unpool (mem { w1 with tlsRecycled := Some p }) (mem w2) own St Qu Rd p r None ret tls fr H1 Hop Hr) as [Hi Hk]; try done.
    { apply (qr_shards _ _ (inv_queues _ _ _ _ _ H1)). }
    { split; cbn; [by apply chain_insert; [set_solver|]|by apply chain_insert; [set_solver|]|].
      eapply Forall2_chains_frame; [|exact P3]. intros x Hx. apply lookup_insert_ne. set_solver. }
    { change (pooled (mem w2) ret tls fr) with (reqPool_ (conn w1) ++ ret ++ tls ++ concat (concat fr)). by rewrite <- HP. }
    { intros x. change (pooled (mem w2) ret tls fr) with (reqPool_ (conn w1) ++ ret ++ tls ++ concat (concat fr)). rewrite <- HP. apply Hin. }
    exists (<[p := Away]> own). split; [exact Hi|]. split; [|split; [by rewrite lookup_insert_eq|]].
    + eapply pooling_trans; [exact Hp1|]. split; [|exact Hk]. exists (reqPool_ (conn w1)), (returned_ (conn w1)), (bucket w2), (hook r).
      split; [|done]. subst w2. by destruct w1 as [[] ? ? ? ? ? ? ? ? ? ?].
    + exists (set_hook None r). cbn. rewrite lookup_insert_eq. split; [done|]. apply reset_hook. eapply (inv_clean _ _ _ _ _ H1); done.
  - apply wp_bind, wp_modify. eapply wp_mono; [by apply (acquireRequest_spec _ own St Qu Rd)|].
    intros p w2 (own2 & H2 & Hp2 & Hf). exists own2. split; [done|]. split; [by eapply pooling_trans|done].
Qed.

(** ** Giving a request away *)

(** Only [p] moves. *)
Definition moves (p : ptr) (own own' : gmap ptr place) (h h' : rheap) : Prop :=
  forall x, x <> p -> own' !! x = own !! x /\ h' !! x = h !! x.

Lemma moves_q p pl own own' h h' : moves p own own' h h' -> own !! p = Some pl -> pl = Pool \/ pl = Away -> keepsq own own' h h'.
Proof. intros H Hp Hpl x pl' Hx H1 H2. destruct (H x) as [-> ->]; [|done]. intros ->. rewrite Hp in Hx. destruct Hpl; congruence. Qed.

(** A request that goes back to the pools, or out of the heap. *)
Lemma inv_free m m' own own' St Qu Rd p : inv m own St Qu Rd -> own !! p = Some Away ->
  m_staging m' = m_staging m -> m_readers m' = m_readers m -> m_ret m' = m_ret m -> m_tls m' = m_tls m ->
  m_bucket m' = with_heap (m_bucket m) (m_heap m') -> moves p own own' (m_heap m) (m_heap m') ->
  (own' !! p = Some Pool /\ m_pool m' = m_pool m ++ [p] /\ (exists r, m_heap m' !! p = Some r /\ reset r = r)) \/
  (own' !! p = None /\ m_pool m' = m_pool m /\ m_heap m' !! p = None) ->
  inv m' own' St Qu Rd.
Proof.
  intros H Hp E1 E2 E3 E4 Eb Hm Hc. destruct (inv_pools _ _ _ _ _ H) as (ret & tls & fr & Hpo & Hnd & Hin).
  assert (Hnp : p ∉ pooled m ret tls fr) by (rewrite Hin; congruence).
  eapply inv_repool; [exact H|done|done|..].
  - rewrite Eb. apply (qr_shards _ _ (inv_queues _ _ _ _ _ H)).
  - intros v. by rewrite Eb.
  - eapply moves_q; [exact Hm|exact Hp|by right].
  - intros x pl Hx Hp1 Hp2. destruct (decide (x = p)) as [->|Hne]; [naive_solver congruence|]. by rewrite <- (proj1 (Hm x Hne)).
  - intros x. destruct (decide (x = p)) as [->|Hne].
    + destruct Hc as [(-> & _ & r & -> & _)|(-> & _ & ->)]; split; by intros [? ?].
    + destruct (Hm x Hne) as [-> ->]. apply (inv_heap _ _ _ _ _ H).
  - exists ret, tls, fr. split.
    { eapply pools_frame; [..|exact Hpo]; try done; [by rewrite Eb|]. intros x Hx. apply Hm. intros ->. apply Hnp. unfold pooled. set_solver. }
    destruct Hc as [(Ho & Epl & _)|(Ho & Epl & _)]; unfold pooled; rewrite Epl.
    + assert (HP : (m_pool m ++ [p]) ++ ret ++ tls ++ concat (concat fr) ≡ₚ p :: pooled m ret tls fr) by (unfold pooled; solve_Permutation).
      rewrite HP. split; [by constructor|]. intros x. rewrite HP, elem_of_cons, Hin. destruct (decide (x = p)) as [->|Hne]; [tauto|].
      rewrite (proj1 (Hm x Hne)). tauto.
    + split; [done|]. intros x. fold (pooled m ret tls fr). rewrite Hin. destruct (decide (x = p)) as [->|Hne]; [split; congruence|].
      by rewrite (proj1 (Hm x Hne)).
  - intros x rx Hx Hrx. destruct (decide (x = p)) as [->|Hne].
    + destruct Hc as [(_ & _ & r & Hr & E)|(Ho & _)]; congruence.
    + destruct (Hm x Hne) as [E5 E6]. rewrite E5 in Hx. rewrite E6 in Hrx. by eapply (inv_clean _ _ _ _ _ H).
Qed.

Lemma releaseRequest_spec (w : world) own St Qu Rd p : inv (mem w) own St Qu Rd -> deleted (conn w) = false -> own !! p = Some Away ->
  wp (releaseRequest p) (fun _ w' => exists own' pool' h',
    w' = { w with conn := { conn w with reqPool_ := pool' }; bucket := with_heap (bucket w) h' } /\
    inv (mem w') own' St Qu Rd /\ moves p own own' (b_heap (bucket w)) h') w.
Proof.
  intros H Hd Hp. unfold releaseRequest. apply wp_bind, wp_this; [done|].
  destruct (proj1 (inv_heap _ _ _ _ _ H p)) as [r Hr]; [by eexists|]. cbn in Hr.
  destruct (Nat.ltb_spec (length (reqPool_ (conn w))) kMaxPooledReqs).
  - apply wp_bind. eapply wp_rget; [exact Hr|]. apply wp_bind, wp_rput, wp_upd; [done|].
    set (h' := <[p := reset r]> (b_heap (bucket w))).
    assert (Hm : moves p own (<[p := Pool]> own) (b_heap (bucket w)) h') by (intros x Hx; unfold h'; by rewrite !lookup_insert_ne).
    exists (<[p := Pool]> own), (reqPool_ (conn w) ++ [p]), h'. split; [done|]. split; [|exact Hm].
    eapply inv_free; [exact H|exact Hp|done|done|done|done|done|exact Hm|]. left. cbn. rewrite !lookup_insert_eq. split; [done|]. split; [done|].
    exists (reset r). split; [apply lookup_insert_eq|done].
  - eapply wp_mono; [by eapply deleteRequest_spec|]. intros [] w1 ->. set (h' := delete p (b_heap (bucket w))).
    assert (Hm : moves p own (delete p own) (b_heap (bucket w)) h') by (intros x Hx; unfold h'; by rewrite !lookup_delete_ne).
    exists (delete p own), (reqPool_ (conn w)), h'. split; [by destruct w as [[] ? ? ? ? ? ? ? ? ? ?]|]. split; [|exact Hm].
    eapply inv_free; [exact H|exact Hp|done|done|done|done|done|exact Hm|]. right. split; [apply lookup_delete_eq|]. split; [done|apply lookup_delete_eq].
Qed.

(** Staging, enqueueing and flushing. *)
Lemma StageWrite_heap sz b t p r b' t' : b_heap b !! p = Some r -> StageWrite sz b t p = Some (b', t', true) ->
  exists v, b_heap b' = <[p := set_hook v r]> (b_heap b).
Proof.
  intros Hr. unfold StageWrite. rewrite Hr. cbn [mbind option_bind]. destruct (_ <? _); [done|].
  destruct (vbs t !! _) as [st|]; [|done]. cbn [mbind option_bind]. intros [= <- <-]. by eexists.
Qed.

(** The parts of the invariant that do not change when [p] goes from away to a
    queue. *)
Lemma inv_pools_move m m' own own' St Qu Rd p pl : inv m own St Qu Rd -> own !! p = Some Away -> pl <> Pool ->
  own' = <[p := pl]> own -> m_pool m' = m_pool m -> m_ret m' = m_ret m -> m_tls m' = m_tls m ->
  b_shards (m_bucket m') = b_shards (m_bucket m) -> (forall x, x <> p -> m_heap m' !! x = m_heap m !! x) -> is_Some (m_heap m' !! p) ->
  (exists ret tls fr, pools m' ret tls fr /\ NoDup (pooled m' ret tls fr) /\ forall x, x ∈ pooled m' ret tls fr <-> own' !! x = Some Pool) /\
  (forall x r, own' !! x = Some Pool -> m_heap m' !! x = Some r -> reset r = r) /\
  (forall x, is_Some (own' !! x) <-> is_Some (m_heap m' !! x)).
Proof.
  intros H Hp Hpl -> E1 E2 E3 E4 Hx Hs. destruct (inv_pools _ _ _ _ _ H) as (ret & tls & fr & Hpo & Hnd & Hin).
  split; [|split].
  - exists ret, tls, fr. assert (Ep : pooled m' ret tls fr = pooled m ret tls fr) by (unfold pooled; by rewrite E1). rewrite Ep.
    split; [|split; [done|]].
    + eapply pools_frame; [..|exact Hpo]; try done. intros x Hxin. apply Hx. intros ->.
      assert (own !! p = Some Pool); [apply Hin; unfold pooled; set_solver|congruence].
    + intros x. rewrite Hin. destruct (decide (x = p)) as [->|]; [rewrite lookup_insert_eq; split; congruence|by rewrite lookup_insert_ne].
  - intros x r. destruct (decide (x = p)) as [->|]; [rewrite lookup_insert_eq; congruence|].
    rewrite lookup_insert_ne, Hx by done. apply (inv_clean _ _ _ _ _ H).
  - intros x. destruct (decide (x = p)) as [->|]; [rewrite lookup_insert_eq; split; eauto|].
    rewrite lookup_insert_ne, Hx by done. apply (inv_heap _ _ _ _ _ H).
Qed.

Lemma reads_move m h' own St Qu Rd p : inv m own St Qu Rd -> own !! p = Some Away -> (forall x, x <> p -> h' !! x = m_heap m !! x) ->
  forall v, vb_ok v -> exists q L O, rqs (m_readers m) !! Z.to_nat v = Some q /\ rq_rep h' q L O /\ Rd v = O ++ reverse L.
Proof.
  intros H Hp Hx v Hv. destruct (inv_reads _ _ _ _ _ H v Hv) as (q & L & O & Hq & Hr & E). exists q, L, O. split; [done|]. split; [|done].
  eapply rq_rep_frame; [|exact Hr]. intros x Hxin. apply Hx. intros ->.
  assert (own !! p = Some (Reading v)); [apply (inv_reading _ _ _ _ _ H); rewrite E; set_solver|congruence].
Qed.

Lemma insert_place (own : gmap ptr place) (p x : ptr) pl pl' : own !! p = Some Away -> pl' <> Away ->
  <[p := pl]> own !! x = Some pl' <-> (x = p /\ pl = pl') \/ own !! x = Some pl'.
Proof.
  intros Hp Hpl. destruct (decide (x = p)) as [->|]; [rewrite lookup_insert_eq|rewrite lookup_insert_ne by done]; naive_solver congruence.
Qed.

Lemma stageWrite_spec (w : world) own St Qu Rd p r : inv (mem w) own St Qu Rd -> own !! p = Some Away ->
  b_heap (bucket w) !! p = Some r -> vb_ok (r_vbucket r) -> Z.of_nat (length (St (r_vbucket r))) + 1 < 2 ^ 32 ->
  wp (stageWrite cfg p) (fun ok w' =>
    if (ok : bool) then
      let v := r_vbucket r in
      inv (mem w') (<[p := Staged v]> own) (setl St v (p :: St v)) Qu Rd /\
      exists u t', w' = { w with bucket := with_heap (bucket w) (<[p := set_hook u r]> (b_heap (bucket w))); staging := t' }
    else w' = w) w.
Proof.
  intros H Hp Hr Hv Hlen. unfold stageWrite. apply wp_bind, wp_get.
  destruct (StageWrite_spec (sizeofRequest cfg) (bucket w) (staging w) St Qu p r (inv_staging _ _ _ _ _ H) (inv_queues _ _ _ _ _ H)
    (inv_separate _ _ _ _ _ H) Hr Hv) as (b' & t' & ok & E & _ & Hok); [|done|].
  { intros v. rewrite (inv_staged _ _ _ _ _ H), (inv_queued _ _ _ _ _ H). split; congruence. }
  apply wp_bind. eapply wp_lift; [exact E|]. apply wp_bind, wp_modify, wp_ret. cbn [fst snd]. destruct ok.
  2: { destruct Hok as [-> ->]. by destruct w. }
  destruct Hok as (HS & HQ & Hsep & _ & Hb & _). destruct (StageWrite_heap _ _ _ _ _ _ _ Hr E) as [u Eh].
  rewrite Eh in Hb. split; [|exists u, t'; by rewrite Hb].
  assert (Hx : forall x, x <> p -> b_heap b' !! x = b_heap (bucket w) !! x) by (intros x Hxp; rewrite Eh; by apply lookup_insert_ne).
  destruct (inv_pools_move (mem w) (mem { w with bucket := b'; staging := t' }) own (<[p := Staged (r_vbucket r)]> own) St Qu Rd p
    (Staged (r_vbucket r)) H Hp) as (H1 & H2 & H3); try done.
  { change (b_shards b' = b_shards (bucket w)). by rewrite Hb. } { change (is_Some (b_heap b' !! p)). rewrite Eh, lookup_insert_eq. by eexists. }
  split; try done.
  - by eapply (reads_move (mem w)).
  - intros v. split; [apply Hsep|]. apply (inv_nodup _ _ _ _ _ H).
  - intros v x. rewrite insert_place by done. destruct (decide (v = r_vbucket r)) as [->|].
    + rewrite setl_eq, elem_of_cons, (inv_staged _ _ _ _ _ H). naive_solver.
    + rewrite setl_ne by done. rewrite (inv_staged _ _ _ _ _ H). naive_solver.
  - intros v x. rewrite insert_place by done. rewrite (inv_queued _ _ _ _ _ H). naive_solver.
  - intros v x. rewrite insert_place by done. rewrite (inv_reading _ _ _ _ _ H). naive_solver.
Qed.

Lemma EnqueueRead_spec mo mb h rd p r L O q : h !! p = Some r -> rqs rd !! Z.to_nat (r_vbucket r) = Some q -> rq_rep h q L O -> p ∉ O ++ L ->
  exists rd' q' u, EnqueueRead mo mb h rd p = Some (<[p := set_hook u r]> h, rd') /\
    rqs rd' = <[Z.to_nat (r_vbucket r) := q']> (rqs rd) /\ rq_rep (<[p := set_hook u r]> h) q' (p :: L) O /\
    (readOwners q = 0 -> r_vbucket r ∈ rtasks rd') /\ (forall v, v ∈ rtasks rd -> v ∈ rtasks rd').
Proof.
  intros Hr Hq [Hl Ho Ht Hn] Hp. unfold EnqueueRead. rewrite Hr. cbn [mbind option_bind]. rewrite Hq. cbn [mbind option_bind].
  unfold insertHead, insertChain. rewrite Hr. cbn [mbind option_bind].
  assert (Hrep : forall q', rq_list q' = Some p -> overflowHead q' = overflowHead q -> overflowTail q' = overflowTail q ->
    rq_rep (<[p := set_hook (rq_list q) r]> h) q' (p :: L) O).
  { intros q' E1 E2 E3. split.
    - rewrite E1. split; [done|]. eexists. rewrite lookup_insert_eq. split; [done|]. apply chain_insert; [set_solver|exact Hl].
    - rewrite E2. apply chain_insert; [set_solver|done].
    - by rewrite E3.
    - apply NoDup_app in Hn as (H1 & H2 & H3). apply NoDup_app. split; [done|]. split; [|constructor; [set_solver|done]].
      intros x Hx [->|Hx']%elem_of_cons; [set_solver|by apply (H2 x)]. }
  unfold needsOwner. destruct (Z.eqb_spec (readOwners q) 0) as [E0|E0]; cbn [negb andb].
  - eexists _, _, _. split; [reflexivity|]. split; [reflexivity|]. split; [by apply Hrep|]. cbn [rtasks with_rtask].
    split; [set_solver|set_solver].
  - match goal with |- context [negb ?b] => destruct b end; cbn [negb]; (eexists _, _, _; split; [reflexivity|]; split; [reflexivity|];
      split; [by apply Hrep|]; cbn [rtasks with_rtask with_rq]; split; [done|set_solver]).
Qed.

Lemma enqueueRead_spec (w : world) own St Qu Rd p r : inv (mem w) own St Qu Rd -> own !! p = Some Away ->
  b_heap (bucket w) !! p = Some r -> vb_ok (r_vbucket r) ->
  wp (enqueueRead cfg p) (fun _ w' =>
    let v := r_vbucket r in
    inv (mem w') (<[p := Reading v]> own) St Qu (setl Rd v (Rd v ++ [p])) /\
    exists u rd', w' = { w with bucket := with_heap (bucket w) (<[p := set_hook u r]> (b_heap (bucket w))); readers := rd' }) w.
Proof.
  intros H Hp Hr Hv. unfold enqueueRead. apply wp_bind, wp_get.
  destruct (inv_reads _ _ _ _ _ H (r_vbucket r) Hv) as (q & L & O & Hq & Hrep & E).
  destruct (EnqueueRead_spec (maxReadOwners cfg) (maxReadBatch cfg) _ _ p r L O q Hr Hq Hrep) as (rd' & q' & u & Ee & Erq & Hrep' & _ & _).
  { intros Hin. assert (own !! p = Some (Reading (r_vbucket r))); [apply (inv_reading _ _ _ _ _ H); rewrite E; set_solver|congruence]. }
  apply wp_bind. eapply wp_lift; [exact Ee|]. apply wp_bind. unfold setHeap. apply wp_modify, wp_modify. cbn [fst snd].
  set (h' := <[p := set_hook u r]> (b_heap (bucket w))).
  assert (Hx : forall x, x <> p -> h' !! x = b_heap (bucket w) !! x) by (intros x Hxp; by apply lookup_insert_ne).
  split; [|exists u, rd'; by destruct w].
  destruct (inv_pools_move (mem w) (mem { { w with bucket := with_heap (bucket w) h' } with readers := rd' }) own (<[p := Reading (r_vbucket r)]> own) St Qu Rd p
    (Reading (r_vbucket r)) H Hp) as (H1 & H2 & H3); try done.
  { change (is_Some (h' !! p)). unfold h'. rewrite lookup_insert_eq. by eexists. }
  split; try done.
  - eapply staging_frame; [|apply (inv_staging _ _ _ _ _ H)]. intros v x Hxin. apply Hx. intros ->.
    apply (inv_staged _ _ _ _ _ H) in Hxin. congruence.
  - apply queues_frame; [|apply (inv_queues _ _ _ _ _ H)]. intros v x Hxin. apply Hx. intros ->.
    apply (inv_queued _ _ _ _ _ H) in Hxin. congruence.
  - intros v Hvo. change (exists q L O, rqs rd' !! Z.to_nat v = Some q /\ rq_rep h' q L O /\ setl Rd (r_vbucket r) (Rd (r_vbucket r) ++ [p]) v = O ++ reverse L).
    rewrite Erq. destruct (decide (v = r_vbucket r)) as [->|Hne].
    + exists q', (p :: L), O. rewrite list_lookup_insert_eq by (by eapply lookup_lt_Some). split; [done|]. split; [done|].
      rewrite setl_eq, E, reverse_cons. by rewrite app_assoc.
    + rewrite setl_ne, list_lookup_insert_ne by (done || apply vb_index; done). by eapply (reads_move (mem w)).
  - apply (inv_nodup _ _ _ _ _ H).
  - intros v x. rewrite insert_place by done. rewrite (inv_staged _ _ _ _ _ H). naive_solver.
  - intros v x. rewrite insert_place by done. rewrite (inv_queued _ _ _ _ _ H). naive_solver.
  - intros v x. rewrite insert_place by done. destruct (decide (v = r_vbucket r)) as [->|].
    + rewrite setl_eq, elem_of_app, list_elem_of_singleton, (inv_reading _ _ _ _ _ H). naive_solver.
    + rewrite setl_ne by done. rewrite (inv_reading _ _ _ _ _ H). naive_solver.
Qed.

(** Staged requests are with the writers. *)
Definition push (pl : place) : place := match pl with Staged v => Queued v | _ => pl end.

Lemma push_iff (own : gmap ptr place) x pl : (forall v, pl <> Staged v /\ pl <> Queued v) -> (push <$> own) !! x = Some pl <-> own !! x = Some pl.
Proof.
  intros Hpl. rewrite lookup_fmap. destruct (own !! x) as [[|v|v|v|]|]; cbn; try done; split; intros [= <-]; by destruct (Hpl v).
Qed.

Lemma frees_free_pools m m' ret tls fr : frees (m_bucket m') = frees (m_bucket m) ->
  m_ret m' = m_ret m -> m_tls m' = m_tls m -> (forall x, x ∈ ret ++ tls ++ concat (concat fr) -> m_heap m' !! x = m_heap m !! x) ->
  pools m ret tls fr -> pools m' ret tls fr.
Proof.
  intros Ef E1 E2 Hx [P1 P2 P3]. split.
  - rewrite E1. eapply chain_frame; [|exact P1]. set_solver.
  - rewrite E2. eapply chain_frame; [|exact P2]. set_solver.
  - apply (Forall2_chains_frame (m_heap m)); [set_solver|]. unfold frees in Ef. apply (f_equal (fmap fst)) in Ef.
    rewrite <- !list_fmap_compose in Ef. revert Ef P3. generalize (b_shards (m_bucket m)), (b_shards (m_bucket m')).
    intros ss ss'. revert ss fr Hx. induction ss' as [|s' ss' IH]; intros [|s ss] fr Hx Ef P3; try done.
    apply Forall2_cons_inv_l in P3 as (ls & fr' & Hs & Hr & ->). cbn in Ef. injection Ef as Es Ess. constructor; [by rewrite Es|].
      eapply IH; [|done|done]. intros x Hxin. apply Hx. cbn. rewrite concat_app. set_solver.
Qed.

Lemma flushStaged_spec (now : Z -> Z) (w : world) own St Qu Rd : inv (mem w) own St Qu Rd ->
  wp (flushStaged cfg now) (fun _ w' => exists b' t', w' = { w with bucket := b'; staging := t' } /\
    inv (mem w') (push <$> own) (fun _ => []) (fun v => St v ++ Qu v) Rd /\ hooks_only (b_heap (bucket w)) (b_heap b') /\
    st_bytes t' = 0 /\
    (forall v, St v <> [] -> pushed (bucket w) b' v (Z.of_nat (length (St v))))) w.
Proof.
  intros H. unfold flushStaged. apply wp_bind, wp_get.
  destruct (FlushStaged_spec (engineCfg cfg) now (bucket w) (staging w) St Qu (inv_staging _ _ _ _ _ H) (inv_queues _ _ _ _ _ H) (inv_separate _ _ _ _ _ H))
    as (b' & t' & E & HS & HQ & Hsep & Hby & _ & Hho & Hpu & _).
  destruct (FlushStaged_frame _ _ _ _ _ _ _ (inv_staging _ _ _ _ _ H) E) as [Hfr Hfree].
  apply wp_bind. eapply wp_lift; [exact E|]. apply wp_modify. cbn [fst snd]. exists b', t'. split; [done|].
  assert (Hx : forall x pl, own !! x = Some pl -> (forall v, pl <> Staged v) -> b_heap b' !! x = b_heap (bucket w) !! x).
  { intros x pl Hx Hpl. apply Hfr. intros v Hv. apply (inv_staged _ _ _ _ _ H) in Hv. rewrite Hx in Hv. injection Hv as ->. by destruct (Hpl v). }
  split; [|done]. destruct (inv_pools _ _ _ _ _ H) as (ret & tls & fr & Hpo & Hnd & Hin). split; try done.
  - exists ret, tls, fr. split; [|split; [done|]].
    + eapply frees_free_pools; [..|exact Hpo]; try done. intros x Hxin. apply (Hx x Pool); [|done]. apply Hin. unfold pooled. set_solver.
    + intros x. change (pooled _ ret tls fr) with (pooled (mem w) ret tls fr). rewrite Hin. symmetry. by apply push_iff.
  - intros x r Hxp. rewrite push_iff in Hxp by done. change (b_heap b' !! x = Some r -> reset r = r). rewrite (Hx x Pool Hxp) by done.
    by apply (inv_clean _ _ _ _ _ H).
  - intros x. rewrite lookup_fmap, fmap_is_Some, (inv_heap _ _ _ _ _ H). change (is_Some (b_heap (bucket w) !! x) <-> is_Some (b_heap b' !! x)).
    split; intros Hs; [by eapply hooks_only_dom|symmetry in Hho; by eapply hooks_only_dom].
  - intros v Hv. destruct (inv_reads _ _ _ _ _ H v Hv) as (q & L & O & Hq & Hr & Er). exists q, L, O. split; [done|]. split; [|done].
    eapply rq_rep_frame; [|exact Hr]. intros x Hxin. apply (Hx x (Reading v)); [|done]. apply (inv_reading _ _ _ _ _ H). rewrite Er. set_solver.
  - intros v. split; [constructor|]. apply Hsep.
  - intros v x. split; [by intros ?%not_elem_of_nil|]. rewrite lookup_fmap. destruct (own !! x) as [[]|]; done.
  - intros v x. rewrite elem_of_app, (inv_staged _ _ _ _ _ H), (inv_queued _ _ _ _ _ H), lookup_fmap.
    destruct (own !! x) as [[]|]; cbn; naive_solver.
  - intros v x. rewrite (inv_reading _ _ _ _ _ H). symmetry. by apply push_iff.
Qed.
End pools.
