(* ===== verification/ConnIO.v ===== *)
(** * What a connection writes (connection.cc)

    While the socket takes what it is given, every response goes out exactly
    once and whole: the bytes written so far followed by the bytes pending are
    a sequence of response frames, to which an answer adds one frame at the end
    and a bootstrap response one frame before the pending ones. *)
From stdpp Require Import prelude gmap list.
From Stdlib Require Import ZArith Lia.
From coqutil Require Import Datatypes.RecordSettersUsingExistingGetters.
From S2P Require Import Prelude Protocol DocCache Eff Request Dispatch ReadPath ConnState Connection ConnInv.
Open Scope Z_scope.

Definition wrote (l : list Effect) : list Z := l ≫= (fun e => match e with Wrote b => b | _ => [] end).

Lemma wrote_app l l' : wrote (l ++ l') = wrote l ++ wrote l'.
Proof. apply bind_app. Qed.

Section io.
Context {Q K C : Type} `{IQ : IOBufQueue Q} `{SK : AsyncSocket K} `{DC : DocCache C}.
Context (cfg : ConnConfig).
Abbreviation world := (World Q K C).
Abbreviation M := (eff world).
Hypothesis writes_succeed : forall (k : K) b, (sock_write k b).2 <> WriteFailed.

(** An open connection whose readers are not sending themselves. *)
Record live (c : Connection Q) : Prop := mkLive {
  live_alive : deleted c = false;
  live_open : closing_ c = false;
  live_sock : sockOpen c = true;
  live_spill : spill_ c = [];
  live_pending : sendPending_ c = None;
  live_loop : is_Some (loop c);
}.

(** What the write side leaves alone. *)
Definition kept (c : Connection Q) :=
  (self c, loop c, readCB c, sockOpen c, readBuf_ c, owner_ c, migrateTarget_ c, closing_ c, migrating_ c,
   (outstandingRequests_ c, sendClosed_ c, drainWatch_ c, spill_ c, returned_ c, sendPending_ c,
    scramServerNonce_ c, scramSaltedPassword_ c, scramAuthMessage_ c),
   (echoResponseBuf_ c, resumeTimeout_ c, readPaused_ c, stageFull_ c, reqPool_ c, deleted c)).
Definition kept_world (w : world) :=
  (kept (conn w), bucket w, writeLimited w, writeTokens w, staging w, readers w, cache w, tlsRecycled w).
Definition io (w w' : world) : Prop := kept_world w' = kept_world w.

Lemma io_refl w : io w w.
Proof. done. Qed.
Lemma io_trans w1 w2 w3 : io w1 w2 -> io w2 w3 -> io w1 w3.
Proof. unfold io. congruence. Qed.
Lemma io_fields w w' : io w w' ->
  kept (conn w') = kept (conn w) /\ bucket w' = bucket w /\ staging w' = staging w /\ readers w' = readers w /\
  cache w' = cache w /\ tlsRecycled w' = tlsRecycled w /\ writeLimited w' = writeLimited w /\ writeTokens w' = writeTokens w.
Proof. unfold io, kept_world. intros [=]. unfold kept. repeat split; congruence. Qed.
Lemma io_mem w w' : io w w' -> mem w' = mem w.
Proof.
  intros (E & E1 & E2 & E3 & _ & E4 & _)%io_fields. unfold kept in E. injection E as ? ? ? ? ? ? ? ? ? ? ? ? ? ? ? ? ? ? ? ? ? ? ? ?.
  unfold mem. congruence.
Qed.
Lemma io_live w w' : io w w' -> live (conn w) -> live (conn w').
Proof.
  intros (E & _)%io_fields [? ? ? ? ? ?]. unfold kept in E. injection E as ? ? ? ? ? ? ? ? ? ? ? ? ? ? ? ? ? ? ? ? ? ? ? ?.
  split; congruence.
Qed.

(** The responses of the connection: those on the wire, then those pending. *)
Definition out_rep (w : world) (fs : list (list Z)) : Prop :=
  exists f1 f2, wrote (log w) = concat f1 /\ pendingWriteBuf_ (conn w) = concat f2 /\ f1 ++ f2 ≡ₚ fs.

Lemma out_rep_perm w fs fs' : fs ≡ₚ fs' -> out_rep w fs -> out_rep w fs'.
Proof. intros HP (f1 & f2 & E1 & E2 & HP'). exists f1, f2. by rewrite <- HP. Qed.
Lemma out_rep_ext w w' fs : wrote (log w') = wrote (log w) -> pendingWriteBuf_ (conn w') = pendingWriteBuf_ (conn w) ->
  out_rep w fs -> out_rep w' fs.
Proof. intros E1 E2 (f1 & f2 & H). exists f1, f2. by rewrite E1, E2. Qed.
Lemma out_rep_flush w w' fs : wrote (log w') = wrote (log w) ++ pendingWriteBuf_ (conn w) -> pendingWriteBuf_ (conn w') = [] ->
  out_rep w fs -> out_rep w' fs.
Proof.
  intros E1 E2 (f1 & f2 & F1 & F2 & HP). exists (f1 ++ f2), []. rewrite E1, E2, F1, F2, concat_app, app_nil_r. done.
Qed.
Lemma out_rep_wire w w' fs b : wrote (log w') = wrote (log w) ++ b -> pendingWriteBuf_ (conn w') = pendingWriteBuf_ (conn w) ->
  out_rep w fs -> out_rep w' (fs ++ [b]).
Proof.
  intros E1 E2 (f1 & f2 & F1 & F2 & HP). exists (f1 ++ [b]), f2. rewrite E1, E2, F1, concat_app. cbn. rewrite app_nil_r.
  split; [done|]. split; [done|]. rewrite <- HP. solve_Permutation.
Qed.
Lemma out_rep_pend w w' fs b : wrote (log w') = wrote (log w) -> pendingWriteBuf_ (conn w') = pendingWriteBuf_ (conn w) ++ b ->
  out_rep w fs -> out_rep w' (fs ++ [b]).
Proof.
  intros E1 E2 (f1 & f2 & F1 & F2 & HP). exists f1, (f2 ++ [b]). rewrite E1, E2, F2, concat_app. cbn. rewrite app_nil_r.
  split; [done|]. split; [done|]. rewrite <- HP. solve_Permutation.
Qed.

(** What an operation of the write side may do. *)
Lemma writeSuccess_spec w : live (conn w) ->
  wp writeSuccess (fun _ w' => io w w' /\ wrote (log w') = wrote (log w) /\ pendingWriteBuf_ (conn w') = pendingWriteBuf_ (conn w)) w.
Proof.
  intros Hl. unfold writeSuccess. apply wp_bind, wp_upd; [apply Hl|]. set (w1 := { w with conn := _ }).
  assert (Hio : io w w1 /\ log w1 = log w /\ pendingWriteBuf_ (conn w1) = pendingWriteBuf_ (conn w)).
  { subst w1. unfold io. cbn. by destruct (inflightBufs_ (conn w)). }
  destruct Hio as (Hio & El & Ep). pose proof (io_live _ _ Hio Hl) as Hl1. apply wp_bind, wp_this; [apply Hl1|].
  apply wp_when; [|intros _; split; [exact Hio|]; split; [by rewrite El|done]]. intros _. unfold scheduleMigrateCheck. apply wp_bind, wp_this; [apply Hl1|].
  apply wp_when; [|intros _; split; [exact Hio|]; split; [by rewrite El|done]]. intros _. apply wp_upd; [apply Hl1|].
  split; [by eapply io_trans; [exact Hio|]|]. split; [by rewrite <- El|by rewrite <- Ep].
Qed.

Lemma socketWrite_spec w keep b : live (conn w) ->
  wp (socketWrite keep b) (fun _ w' => io w w' /\ wrote (log w') = wrote (log w) ++ b /\
    pendingWriteBuf_ (conn w') = pendingWriteBuf_ (conn w)) w.
Proof.
  intros Hl. unfold socketWrite. apply wp_bind, wp_upd; [apply Hl|]. set (w1 := { w with conn := _ }).
  assert (Hio : io w w1) by done.
  pose proof (io_live _ _ Hio Hl) as Hl1. apply wp_bind, wp_this; [apply Hl1|]. apply wp_bind, wp_get.
  destruct (sock_write (socket w1) b) as [k res] eqn:Ek. apply wp_bind, wp_modify. rewrite (live_sock _ Hl1).
  set (w2 := { w1 with socket := k; log := log w1 ++ [Wrote b] }).
  assert (Hio2 : io w w2) by (by eapply io_trans; [exact Hio|]).
  assert (Ew : wrote (log w2) = wrote (log w) ++ b) by (cbn; unfold const; rewrite wrote_app; cbn; by rewrite app_nil_r).
  destruct res.
  - apply wp_emit. split; [exact Hio2|]. split; [exact Ew|done].
  - apply wp_bind, wp_emit. eapply wp_mono; [apply (writeSuccess_spec w2); by eapply io_live|].
    intros _ w3 (Hio3 & E1 & E2). split; [by eapply io_trans|]. split; [by rewrite E1|by rewrite E2].
  - destruct (writes_succeed (socket w1) b). by rewrite Ek.
Qed.

Lemma flushPending_spec w : live (conn w) ->
  wp (flushPending cfg) (fun _ w' => io w w' /\ wrote (log w') = wrote (log w) ++ pendingWriteBuf_ (conn w) /\ pendingWriteBuf_ (conn w') = []) w.
Proof.
  intros Hl. unfold flushPending. apply wp_bind.
  apply (wp_mono _ (fun _ w' => io w w' /\ wrote (log w') = wrote (log w) ++ pendingWriteBuf_ (conn w) /\ pendingWriteBuf_ (conn w') = [])).
  - unfold flushPendingImpl. apply wp_bind, wp_this; [apply Hl|]. rewrite (live_open _ Hl). cbn [negb when].
    apply wp_bind. apply (wp_mono _ (fun _ w1 => io w w1 /\ log w1 = log w /\ pendingWriteBuf_ (conn w1) = pendingWriteBuf_ (conn w))).
    + apply wp_when; [|intros _; split; [apply io_refl|done]]. intros _. apply wp_bind, wp_upd; [apply Hl|]. set (w1 := { w with conn := _ }).
      assert (Hio : io w w1) by done.
      unfold writeSpill. apply wp_bind, wp_this; [apply Hl|]. apply wp_when; [|done].
      intros Hs. b2p. by destruct Hs; apply (live_spill _ Hl).
    + intros _ w1 (Hio & El & Ep). pose proof (io_live _ _ Hio Hl) as Hl1. apply wp_bind, wp_this; [apply Hl1|].
      apply wp_when; [intros _|].
      * apply wp_bind, wp_modify, wp_bind, wp_upd; [apply Hl1|]. set (w2 := { _ with conn := _ }).
        assert (Hio2 : io w w2) by (by eapply io_trans; [exact Hio|]).
        eapply wp_mono; [apply (socketWrite_spec w2); by eapply io_live|]. intros _ w3 (Hio3 & E1 & E2).
        split; [by eapply io_trans|]. rewrite E1, E2. cbn. by rewrite El, Ep.
      * intros E. b2p. split; [exact Hio|]. rewrite El, <- Ep. apply dec_stable in E. by rewrite E, app_nil_r.
  - intros _ w1 (Hio & E1 & E2). pose proof (io_live _ _ Hio Hl) as Hl1. apply wp_when; [|done]. intros _.
    unfold drainPendingSends. apply wp_bind, wp_this; [apply Hl1|]. apply wp_when; [|done]. intros Hs. b2p.
    by destruct Hs; apply (live_pending _ Hl1).
Qed.

(** Operations that may write what is pending but change nothing else. *)
Definition writes_pending (w w' : world) : Prop := io w w' /\ forall fs, out_rep w fs -> out_rep w' fs.

Lemma scheduleFlush_spec w : live (conn w) -> wp (scheduleFlush cfg) (fun _ w' => writes_pending w w') w.
Proof.
  intros Hl. unfold scheduleFlush. apply wp_bind, wp_this; [apply Hl|]. rewrite (live_open _ Hl).
  assert (Hquiet : forall w', io w w' -> log w' = log w -> pendingWriteBuf_ (conn w') = pendingWriteBuf_ (conn w) -> writes_pending w w').
  { intros w' Hio El Ep. split; [done|]. intros fs. apply out_rep_ext; [by rewrite El|done]. }
  destruct (flushScheduled_ (conn w)).
  - apply wp_when; [|intros _; by apply Hquiet]. intros _. apply wp_bind, wp_upd; [apply Hl|]. set (w1 := { w with conn := _ }).
    assert (Hio : io w w1) by done. eapply wp_mono; [apply (flushPending_spec w1); by eapply io_live|].
    intros _ w2 (Hio2 & E1 & E2). split; [by eapply io_trans|]. intros fs. by apply out_rep_flush.
  - apply wp_bind, wp_upd; [apply Hl|]. set (w1 := { w with conn := _ }).
    assert (Hio : io w w1) by done. pose proof (io_live _ _ Hio Hl) as Hl1. destruct (_ && _).
    + apply wp_upd; [apply Hl1|]. by apply Hquiet.
    + destruct (live_loop _ Hl) as [e He]. apply wp_bind. eapply wp_lift; [exact He|]. apply wp_upd; [apply Hl1|]. by apply Hquiet.
Qed.

Lemma writeChainLocked_spec w b : live (conn w) ->
  wp (writeChainLocked cfg b) (fun _ w' => io w w' /\ forall fs, out_rep w fs -> out_rep w' (fs ++ [b])) w.
Proof.
  intros Hl. unfold writeChainLocked. apply wp_bind. apply wp_when.
  - intros _. unfold writeSpill. apply wp_bind, wp_this; [apply Hl|]. apply wp_when.
    { intros Hs. b2p. by destruct Hs; apply (live_spill _ Hl). }
    intros _. apply wp_bind. eapply wp_mono; [by apply socketWrite_spec|]. intros _ w1 (Hio & E1 & E2).
    apply wp_when; [|intros _; split; [done|]; intros fs; by apply out_rep_wire]. intros _. pose proof (io_live _ _ Hio Hl) as Hl1.
    unfold drainPendingSends. apply wp_bind, wp_this; [apply Hl1|]. apply wp_when; [|intros _; split; [done|]; intros fs; by apply out_rep_wire].
    intros Hs. b2p. by destruct Hs; apply (live_pending _ Hl1).
  - intros Ed. apply wp_bind. eapply wp_mono; [by apply socketWrite_spec|]. intros _ w1 (Hio & E1 & E2). rewrite Ed. cbn [when].
    apply wp_ret. split; [done|]. intros fs. by apply out_rep_wire.
Qed.

Lemma addPending_spec w f b : live (conn w) -> (forall out, f out = out ++ b) ->
  wp (addPending f) (fun _ w' => io w w' /\ forall fs, out_rep w fs -> out_rep w' (fs ++ [b])) w.
Proof.
  intros Hl Hf. unfold addPending. apply wp_upd; [apply Hl|]. split; [done|]. intros fs. apply out_rep_pend; [done|]. cbn. unfold const. apply Hf.
Qed.

(** ** Replies *)

(** A whole response frame with the opaque of the request. *)
Definition reply_to (hdr : McbpHeader) (f : list Z) : Prop :=
  exists op st cas dt extras value, f = frame op st (opaque hdr) cas dt extras [] value /\
    Z.of_nat (length extras) < 256 /\ Z.of_nat (length extras + length value) < 2 ^ 32 /\ is_uint 8 op /\ is_uint 64 cas /\ is_uint 8 dt.

(** A client reads it back whole. *)
Lemma reply_to_read hdr f rest : is_uint 32 (opaque hdr) -> reply_to hdr f ->
  exists h body, readFrame (f ++ rest) = Some (h, body, rest) /\ opaque h = opaque hdr /\ magic h = kResponseMagic.
Proof.
  intros Ho (op & st & cas & dt & ex & v & -> & H1 & H2 & H3 & H4 & H5).
  rewrite readFrame_frame; try done; [|cbn; lia]. eexists _, _. done.
Qed.

Context (junk : nat -> list Z).
Hypothesis junk_length : forall n, length (junk n) = n.

Lemma respond_spec w hdr st value : live (conn w) -> is_uint 8 (opcode hdr) -> Z.of_nat (length value) < 2 ^ 32 ->
  wp (respond cfg junk hdr st value) (fun _ w' => io w w' /\ exists f, reply_to hdr f /\ forall fs, out_rep w fs -> out_rep w' (fs ++ [f])) w.
Proof.
  intros Hl Hop Hv. unfold respond. eapply wp_mono; [by apply writeChainLocked_spec|]. intros _ w' [Hio Ho]. split; [done|]. eexists.
  split; [|exact Ho]. rewrite buildResponse_eq; [|done|done|cbn; lia|apply junk_length].
  exists (opcode hdr), st, 0, 0, [], value. split; [|cbn; split_and!; done || lia].
  unfold bodyBytes. cbn [src_bytes app]. rewrite take_ge by lia.
  pose proof (responseHeader_frame (opcode hdr) st (opaque hdr) 0 0 0 (length value)) as E. cbn [Nat.add] in *. rewrite E by lia. done.
Qed.

Lemma respondEmpty_spec w hdr st : live (conn w) -> is_uint 8 (opcode hdr) ->
  wp (respondEmpty cfg junk hdr st) (fun _ w' => io w w' /\ exists f, reply_to hdr f /\ forall fs, out_rep w fs -> out_rep w' (fs ++ [f])) w.
Proof.
  intros Hl Hop. unfold respondEmpty, buildEmptyResponse. eapply wp_mono; [by apply writeChainLocked_spec|]. intros _ w' [Hio Ho]. split; [done|]. eexists.
  split; [|exact Ho]. rewrite buildResponse_eq; [|done|done|done|apply junk_length].
  exists (opcode hdr), st, 0, 0, [], []. split; [|cbn; split_and!; done || lia]. unfold bodyBytes. cbn [src_bytes app].
  pose proof (responseHeader_frame (opcode hdr) st (opaque hdr) 0 0 0 0) as E. cbn [Nat.add] in *. rewrite E by lia. done.
Qed.

Lemma emptyReply_spec w hdr st cas : live (conn w) -> is_uint 8 (opcode hdr) -> is_uint 64 cas ->
  wp (addPending (fun out => appendEmptyResponse out (opcode hdr) st (opaque hdr) cas))
    (fun _ w' => io w w' /\ exists f, reply_to hdr f /\ forall fs, out_rep w fs -> out_rep w' (fs ++ [f])) w.
Proof.
  intros Hl Hop Hc. eapply wp_mono; [apply (addPending_spec _ _ (frame (opcode hdr) st (opaque hdr) cas 0 [] [] [])); [done|]|].
  - intros out. unfold appendEmptyResponse. by rewrite response_frame by (simpl; lia).
  - intros _ w' [Hio Ho]. split; [done|]. eexists. split; [|exact Ho]. eexists _, _, _, _, _, _. split; [reflexivity|]. cbn. split_and!; done || lia.
Qed.
End io.
