(* ===== verification/ConnSpec.v ===== *)
(** * What the handlers do with a request (connection.cc)

    One lemma per handler for well-formed requests: it does not touch memory it
    does not own, and the request is either answered with exactly one response
    frame or handed to the engine with the connection's count raised. *)
From stdpp Require Import prelude gmap list strings.
From Stdlib Require Import ZArith Lia.
From coqutil Require Import Datatypes.RecordSettersUsingExistingGetters.
From S2P Require Import Prelude Protocol DocCache Eff Request Dispatch ReadPath ConnState Connection ConnInv ConnIO.
Open Scope Z_scope.

(** A header (in host order) and its body, as a correct client sends them. *)
Record req_ok (hdr : McbpHeader) (data : list Z) : Prop := mkReqOk {
  rq_wf : McbpHeader_wf hdr;
  rq_bytes : bytes_ok data;
  rq_len : Z.of_nat (length data) = bodyLen hdr;
  rq_fits : extrasLen hdr + keyLen hdr <= bodyLen hdr;
  rq_small : bodyLen hdr < 2 ^ 31;
  rq_vb : vb_ok (specific hdr);
}.

Definition doc_ok (d : CachedDoc) : Prop :=
  is_uint 64 (d_seqno d) /\ is_uint 8 (d_datatype d) /\ Z.of_nat (4 + length (d_value d)) < 2 ^ 32.
Definition docs_ok (A : docs) : Prop := map_Forall (fun _ d => doc_ok d) A.

Lemma bytesAt_ok data off n : 0 <= off -> 0 <= n -> off + n <= Z.of_nat (length data) ->
  bytesAt data off n = Some (slice (Z.to_nat off) (Z.to_nat n) data) /\ Z.of_nat (length (slice (Z.to_nat off) (Z.to_nat n) data)) = n.
Proof.
  intros H1 H2 H3. unfold bytesAt. destruct (Z.leb_spec (off + n) (Z.of_nat (length data))); [|lia]. split; [done|].
  unfold slice. rewrite length_take, length_drop. lia.
Qed.

(** What a message says. *)
Definition keyOf (hdr : McbpHeader) (data : list Z) : list Z := slice (Z.to_nat (extrasLen hdr)) (Z.to_nat (keyLen hdr)) data.
Definition valueOf (hdr : McbpHeader) (data : list Z) : list Z := drop (Z.to_nat (extrasLen hdr + keyLen hdr)) data.
Definition flagsOf (hdr : McbpHeader) (data : list Z) : Z := if 4 <=? extrasLen hdr then bswap 4 (le_value (slice 0 4 data)) else 0.
Definition expiryOf (hdr : McbpHeader) (data : list Z) : Z := if 8 <=? extrasLen hdr then bswap 4 (le_value (slice 4 4 data)) else 0.

(** A SET's key, value, flags, expiry, datatype and CAS are those of its message. *)
Definition set_request (hdr : McbpHeader) (data : list Z) (r : Request) : Prop :=
  r_opcode r = opcode hdr /\ r_key r = keyOf hdr data /\ r_value r = valueOf hdr data /\ r_flags r = flagsOf hdr data /\
  r_expiry r = expiryOf hdr data /\ r_datatype r = hdatatype hdr /\ r_cas r = hcas hdr.

Definition emptyFrame (hdr : McbpHeader) (st : McbpStatus) (cas : Z) : list Z := frame (opcode hdr) st (opaque hdr) cas 0 [] [] [].
Definition docFrame (hdr : McbpHeader) (d : CachedDoc) : list Z :=
  if d_deleted d then emptyFrame hdr StKeyNotFound 0
  else frame (opcode_value OpGet) StSuccess (opaque hdr) (d_seqno d) (d_datatype d) (le_bytes 4 (bswap 4 (d_flags d))) [] (d_value d).


(** ** The server, abstractly

    A command either is answered with a frame, or waits as a request of the
    engine, or is answered while its request is queued. *)
Inductive outcome := Answered (f : list Z) | Waiting (p : ptr) | Accepted (f : list Z) (p : ptr).
Definition frameOf (o : outcome) : option (list Z) := match o with Answered f | Accepted f _ => Some f | Waiting _ => None end.
Definition requestOf (o : outcome) : option ptr := match o with Waiting p | Accepted _ p => Some p | Answered _ => None end.
Definition waitsFor (o : outcome) : Z := match o with Waiting _ => 1 | _ => 0 end.

(** What a write puts in the cache: value, flags, expiry, datatype, deleted. *)
Definition written (hdr : McbpHeader) (data : list Z) : option (list Z * Z * Z * Z * bool) :=
  match opcode_of (opcode hdr) with
  | Some OpSet => Some (valueOf hdr data, flagsOf hdr data, expiryOf hdr data, hdatatype hdr, false)
  | Some OpDelete => Some ([], 0, 0, 0, true)
  | _ => None
  end.

Section serves.
Context (echo : list Z) (cached durable : bool) (hdr : McbpHeader) (data : list Z) (A : docs).
Let k := docKey (specific hdr) (keyOf hdr data).
Inductive serves : outcome -> docs -> Prop :=
  | serves_echo : opcode_of (opcode hdr) = Some OpGet -> echo <> [] -> serves (Answered (echoReply hdr echo)) A
  | serves_hit d : opcode_of (opcode hdr) = Some OpGet -> echo = [] -> cached = true -> A !! k = Some d -> serves (Answered (docFrame hdr d)) A
  | serves_miss p : opcode_of (opcode hdr) = Some OpGet -> echo = [] -> (cached = true -> data <> [] -> A !! k = None) -> serves (Waiting p) A
  | serves_write p value flags expiry datatype deleted A' :
      written hdr data = Some (value, flags, expiry, datatype, deleted) ->
      (if cached then put_spec A k value flags expiry datatype deleted A' else A' = A) ->
      serves (if durable then Waiting p else Accepted (emptyFrame hdr StSuccess 0) p) A'
  | serves_refused st A' : written hdr data <> None -> st <> StSuccess ->
      (if cached then A' !! k = None /\ (forall k', k' <> k -> A' !! k' = None \/ A' !! k' = A !! k') else A' = A) ->
      serves (Answered (emptyFrame hdr st 0)) A'
  | serves_other f : written hdr data = None -> opcode_of (opcode hdr) <> Some OpGet -> reply_to hdr f -> serves (Answered f) A.
End serves.

Section handlers.
Context {Q K C : Type} `{IQ : IOBufQueue Q, IQL : !IOBufQueueLaws Q} `{SK : AsyncSocket K} `{DC : DocCache C, DCL : !DocCacheLaws C}.
Context (cfg : ConnConfig) (crypto : Crypto) (junk : nat -> list Z) (copyCapacity : nat -> Z) (now : Z -> Z).
Abbreviation world := (World Q K C).
Implicit Types (w : world) (own : gmap ptr place) (St Qu Rd : Z -> list ptr) (A : docs) (fs : list (list Z)) (hdr : McbpHeader).
Hypothesis writes_succeed : forall (k : K) b, (sock_write k b).2 <> WriteFailed.
Hypothesis junk_length : forall n, length (junk n) = n.
Hypothesis capacity_ok : forall n, 0 <= copyCapacity n.

(** What a handler leaves alone of the connection and the world. *)
Definition base (w : world) :=
  let c := conn w in
  (self c, loop c, readCB c, sockOpen c, readBuf_ c, owner_ c, migrateTarget_ c, closing_ c, migrating_ c,
   echoResponseBuf_ c, readPaused_ c, writeLimited w, writeTokens w, bool_decide (is_Some (cache w))).

Lemma io_base w w' : io w w' -> base w' = base w.
Proof.
  intros (E & _ & _ & _ & E0 & _ & E1 & E2)%io_fields. unfold kept in E. injection E as ? ? ? ? ? ? ? ? ? ? ? ? ? ? ? ? ? ? ? ? ? ? ? ?.
  unfold base. rewrite E0. congruence.
Qed.

(** The state between two requests. *)
Record conn_state (w : world) (own : gmap ptr place) (St Qu Rd : Z -> list ptr) (A : docs) (fs : list (list Z)) : Prop := mkConnState {
  cs_live : live (conn w);
  cs_inv : inv (mem w) own St Qu Rd;
  cs_cache : opt_rep (cache w) A;
  cs_docs : docs_ok A;
  cs_out : out_rep w fs;
}.

(** A request of the engine that does what the message says. *)
Definition asks (hdr : McbpHeader) (data : list Z) (r : Request) : Prop :=
  r_vbucket r = specific hdr /\ r_opaque r = opaque hdr /\ r_opcode r = opcode hdr /\ r_key r = keyOf hdr data /\
  (opcode_of (opcode hdr) = Some OpSet -> set_request hdr data r).
(** [p] is the request of outcome [o], in a queue. *)
Definition holds (hdr : McbpHeader) (data : list Z) (o : outcome) (w : world) (own : gmap ptr place) (p : ptr) : Prop :=
  (own !! p = Some (Staged (specific hdr)) \/ own !! p = Some (Reading (specific hdr))) /\
  exists r, b_heap (bucket w) !! p = Some r /\ asks hdr data r /\ (waitsFor o = 1 -> r_conn r = Some (self (conn w))).

Definition queued (pl : place) : Prop := pl <> Pool /\ pl <> Away.
Definition not_queued (own : gmap ptr place) (p : ptr) : Prop := forall pl, own !! p = Some pl -> ~ queued pl.

Definition hasCache (w : world) : bool := bool_decide (is_Some (cache w)).

(** One request served. *)
Definition served_request (hdr : McbpHeader) (data : list Z) (w : world) (own : gmap ptr place) (St Qu Rd : Z -> list ptr) (A : docs)
    (fs : list (list Z)) (w' : world) : Prop :=
  exists own' St' Rd' A' o, conn_state w' own' St' Qu Rd' A' (fs ++ option_list (frameOf o)) /\ base w' = base w /\
    keepsq own own' (b_heap (bucket w)) (b_heap (bucket w')) /\
    (forall v, (length (St' v) <= S (length (St v)))%nat) /\ (forall k, pendingOf A' k <= pendingOf A k + 1) /\
    serves (echoResponseBuf_ (conn w)) (hasCache w) (durable cfg) hdr data A o A' /\
    (forall p, requestOf o = Some p -> holds hdr data o w' own' p /\ not_queued own p) /\
    outstandingRequests_ (conn w') = outstandingRequests_ (conn w) + waitsFor o.

(** ** Steps every handler shares *)
Lemma conn_state_io w w' own St Qu Rd A fs fs' : conn_state w own St Qu Rd A fs -> io w w' -> out_rep w' fs' ->
  conn_state w' own St Qu Rd A fs'.
Proof.
  intros [Hl Hi Hc Hd Ho] Hio Ho'. pose proof (io_fields _ _ Hio) as (_ & _ & _ & _ & Ec & _). split; [by eapply io_live| |by rewrite Ec|done|done].
  by rewrite (io_mem _ _ Hio).
Qed.

(** Answering without touching anything else. *)
Lemma answered_as hdr data w own St Qu Rd A fs f w' : conn_state w own St Qu Rd A fs ->
  serves (echoResponseBuf_ (conn w)) (hasCache w) (durable cfg) hdr data A (Answered f) A -> io w w' -> (forall fs, out_rep w fs -> out_rep w' (fs ++ [f])) ->
  served_request hdr data w own St Qu Rd A fs w'.
Proof.
  intros Hs Hf Hio Ho. exists own, St, Rd, A, (Answered f). split; [eapply conn_state_io; [done|done|]; apply Ho, Hs|].
  split; [by apply io_base|]. pose proof (io_fields _ _ Hio) as (E & Eb & _). split; [by rewrite Eb|].
  split; [intros v; lia|]. split; [intros k; lia|]. split; [done|]. split; [done|]. cbn. unfold kept in E. rewrite Z.add_0_r. congruence.
Qed.
Lemma answered hdr data w own St Qu Rd A fs (m : eff world unit) : conn_state w own St Qu Rd A fs -> written hdr data = None ->
  opcode_of (opcode hdr) <> Some OpGet ->
  wp m (fun _ w' => io w w' /\ exists f, reply_to hdr f /\ forall fs, out_rep w fs -> out_rep w' (fs ++ [f])) w ->
  wp m (fun _ w' => served_request hdr data w own St Qu Rd A fs w') w.
Proof.
  intros Hs Hw Hg Hm. eapply wp_mono; [exact Hm|]. intros [] w' (Hio & f & Hf & Ho). eapply answered_as; [done| |done|done]. by apply serves_other.
Qed.

Lemma withCache_spec w (f : C -> option C) A (R : docs -> Prop) : opt_rep (cache w) A -> (cache w = None -> R A) ->
  (forall x, cache w = Some x -> cache_rep x A -> exists x' A', f x = Some x' /\ cache_rep x' A' /\ R A') ->
  wp (withCache f) (fun _ w' => exists c' A', w' = { w with cache := c' } /\ (is_Some c' <-> is_Some (cache w)) /\ opt_rep c' A' /\ R A') w.
Proof.
  intros Hc HR Hf. unfold withCache. apply wp_bind, wp_gets. destruct (cache w) as [x|] eqn:Ec.
  - destruct (Hf x eq_refl Hc) as (x' & A' & E & Hx' & HR'). apply wp_bind. eapply wp_lift; [exact E|]. apply wp_modify. exists (Some x'), A'. done.
  - apply wp_ret. exists None, A. split; [destruct w; cbn in *; unfold const; by rewrite Ec|]. split; [done|]. split; [done|]. by apply HR.
Qed.

Lemma drops_docs_ok A A' : docs_ok A -> drops A A' -> docs_ok A'.
Proof. intros Hd [Hs _] k d Hk. eapply Hd. by eapply lookup_weaken. Qed.
Lemma drops_pending A A' k : (forall k d, A !! k = Some d -> 0 <= d_pending d) -> drops A A' -> pendingOf A' k <= pendingOf A k.
Proof.
  intros Hp [Hs _]. unfold pendingOf. destruct (A' !! k) as [d|] eqn:E.
  - by rewrite (lookup_weaken _ _ _ _ E Hs).
  - destruct (A !! k) eqn:E'; [|lia]. by eapply Hp.
Qed.

(** Progress within a handler. *)
Definition prog (w : world) (own : gmap ptr place) (w' : world) (own' : gmap ptr place) : Prop :=
  base w' = base w /\ keepsq own own' (b_heap (bucket w)) (b_heap (bucket w')).
Lemma prog_refl w own : prog w own w own.
Proof. done. Qed.
Lemma prog_trans w1 o1 w2 o2 w3 o3 : prog w1 o1 w2 o2 -> prog w2 o2 w3 o3 -> prog w1 o1 w3 o3.
Proof.
  intros [E1 K1] [E2 K2]. split; [congruence|]. intros x pl Hx H1 H2. destruct (K1 x pl Hx H1 H2) as [Hx2 F]. destruct (K2 x pl Hx2 H1 H2). split; congruence.
Qed.
Lemma prog_io w w' own : io w w' -> prog w own w' own.
Proof. intros Hio. split; [by apply io_base|]. pose proof (io_fields _ _ Hio) as (_ & Eb & _). by rewrite Eb. Qed.
Lemma io_outstanding w w' : io w w' -> outstandingRequests_ (conn w') = outstandingRequests_ (conn w).
Proof. intros (E & _)%io_fields. unfold kept in E. congruence. Qed.

Lemma io_stageFull w w' : io w w' -> stageFull_ (conn w') = stageFull_ (conn w).
Proof. intros (E & _)%io_fields. unfold kept in E. congruence. Qed.

Lemma acquired w own St Qu Rd A fs p w1 : conn_state w own St Qu Rd A fs -> acquires w own St Qu Rd p w1 ->
  exists own1, conn_state w1 own1 St Qu Rd A fs /\ prog w own w1 own1 /\ outstandingRequests_ (conn w1) = outstandingRequests_ (conn w) /\
    stageFull_ (conn w1) = stageFull_ (conn w) /\ fresh_req w1 own1 p /\ not_queued own p.
Proof.
  intros [Hl Hi Hc Hd Ho] (own1 & H1 & Hp & Hf). destruct (Hp) as [(pool' & ret' & b' & tls' & E & _) Hk]. exists own1.
  split; [|split; [|split; [|split; [|split; [done|]]]]].
  - split; [|done|by rewrite E|done|eapply out_rep_ext; [..|exact Ho]; by rewrite E]. rewrite E. destruct Hl. by split.
  - split; [by rewrite E|]. by apply keeps_q.
  - by rewrite E.
  - by rewrite E.
  - intros pl Hpl [H2 H3]. destruct (Hk p pl Hpl H2) as [E1 _]. destruct Hf as [E2 _]. congruence.
Qed.

(** Changing a request in hand. *)
Definition with_req (w : world) (p : ptr) (r : Request) : world :=
  { w with bucket := with_heap (bucket w) (<[p := r]> (b_heap (bucket w))) }.
Lemma put_state w own St Qu Rd A fs p r : conn_state w own St Qu Rd A fs -> own !! p = Some Away ->
  conn_state (with_req w p r) own St Qu Rd A fs /\ prog w own (with_req w p r) own.
Proof.
  intros [Hl Hi Hc Hd Ho] Hp. split.
  - split; [done| |done|done|done]. by apply (conn_inv_put (mem w)).
  - split; [done|]. intros x pl Hx H1 H2. cbn. rewrite lookup_insert_ne; [done|]. intros ->. congruence.
Qed.
Lemma rupd_spec w p f r (P : unit -> world -> Prop) : b_heap (bucket w) !! p = Some r -> P tt (with_req w p (f r)) -> wp (rupd p f) P w.
Proof. intros Hr HP. unfold rupd. apply wp_bind. eapply wp_rget; [exact Hr|]. by apply wp_rput. Qed.
Lemma req_lookup w p r : b_heap (bucket (with_req w p r)) !! p = Some r.
Proof. cbn. apply lookup_insert_eq. Qed.

Lemma cache_state w own St Qu Rd A fs c' A' : conn_state w own St Qu Rd A fs -> (is_Some c' <-> is_Some (cache w)) -> opt_rep c' A' -> docs_ok A' ->
  conn_state { w with cache := c' } own St Qu Rd A' fs /\ prog w own { w with cache := c' } own.
Proof.
  intros [Hl Hi Hc Hd Ho] Hs Hc' Hd'. split; [done|]. split; [|done]. unfold base. cbn. unfold const. by rewrite (bool_decide_ext _ _ Hs).
Qed.

(** Write-through: the new document is cached and pinned once more. *)
Definition put_step (A A' : docs) : Prop := docs_ok A' /\ forall k, pendingOf A' k <= pendingOf A k + 1.

Lemma put_spec_step x A k value flags expiry datatype deleted A' : cache_rep x A -> docs_ok A -> is_uint 8 datatype ->
  Z.of_nat (4 + length value) < 2 ^ 32 -> put_spec A k value flags expiry datatype deleted A' -> put_step A A'.
Proof using DCL.
  intros Hx Hd Hdt Hv Hp. unfold put_spec in Hp. set (A1 := <[k := _]> A) in Hp.
  assert (Hpend : forall k d, A1 !! k = Some d -> 0 <= d_pending d).
  { intros k' d. unfold A1. destruct (decide (k' = k)) as [->|Hne].
    - rewrite lookup_insert_eq. intros [= <-]. cbn. unfold pendingOf. destruct (A !! k) eqn:E; [|lia]. pose proof (pending_law _ _ _ _ Hx E). lia.
    - rewrite lookup_insert_ne by done. intros E. by apply (pending_law _ _ _ _ Hx E). }
  split.
  - eapply drops_docs_ok; [|exact Hp]. apply map_Forall_insert_2; [|done]. split; [done|]. done.
  - intros k'. pose proof (drops_pending _ _ k' Hpend Hp) as Hle. enough (pendingOf A1 k' <= pendingOf A k' + 1) by lia.
    unfold A1, pendingOf. destruct (decide (k' = k)) as [->|Hne]; [rewrite lookup_insert_eq; cbn; lia|].
    rewrite lookup_insert_ne by done. lia.
Qed.

(** ** Queueing a write *)
Lemma emptyFrame_reply hdr st cas : is_uint 8 (opcode hdr) -> is_uint 64 cas -> reply_to hdr (emptyFrame hdr st cas).
Proof. intros H1 H2. exists (opcode hdr), st, cas, 0, [], []. split; [done|]. cbn. split_and!; done || lia. Qed.

Lemma pendEmpty w own St Qu Rd A fs hdr st cas : conn_state w own St Qu Rd A fs ->
  wp (addPending (fun out => appendEmptyResponse out (opcode hdr) st (opaque hdr) cas))
    (fun _ w' => io w w' /\ conn_state w' own St Qu Rd A (fs ++ [emptyFrame hdr st cas])) w.
Proof.
  intros Hs. eapply wp_mono; [apply (addPending_spec _ _ (emptyFrame hdr st cas)); [apply Hs|]|].
  - intros out. unfold appendEmptyResponse. by rewrite response_frame by (simpl; lia).
  - intros _ w' [Hio Ho]. split; [done|]. eapply conn_state_io; [done|done|]. apply Ho, Hs.
Qed.

Definition lower (A A' : docs) : Prop := docs_ok A' /\ forall k, pendingOf A' k <= pendingOf A k.
Definition erased (cached : bool) (A : docs) (k : list Z) (A' : docs) : Prop := A' = (if cached then delete k A else A).
Lemma erased_lower w own St Qu Rd A fs k A' : conn_state w own St Qu Rd A fs -> erased (hasCache w) A k A' -> lower A A'.
Proof using DCL.
  intros Hs He. unfold erased, hasCache in He. case_bool_decide as Hc; subst A'; [|by split; [apply Hs|]]. destruct Hc as [x Hx].
  pose proof (cs_cache _ _ _ _ _ _ _ Hs) as Hr. rewrite Hx in Hr. split; [apply map_Forall_delete, Hs|]. intros k'. unfold pendingOf.
  destruct (decide (k' = k)) as [->|]; [rewrite lookup_delete_eq|by rewrite lookup_delete_ne]. destruct (A !! k) eqn:Ed; [|lia]. by apply (pending_law _ _ _ _ Hr Ed).
Qed.
Lemma erase_state w own St Qu Rd A fs vb key : conn_state w own St Qu Rd A fs -> is_uint 16 vb ->
  wp (withCache (fun x => Erase x vb key)) (fun _ w' => exists A', conn_state w' own St Qu Rd A' fs /\ prog w own w' own /\ erased (hasCache w) A (docKey vb key) A' /\
    exists c', w' = { w with cache := c' }) w.
Proof using DCL.
  intros Hs Hvb. eapply wp_mono; [eapply (withCache_spec _ _ A (erased (hasCache w) A (docKey vb key))); [apply Hs|intros E; unfold erased, hasCache; by rewrite E|]|].
  - intros x Ec Hx. destruct (Erase_law x A vb key Hx Hvb) as (x' & E & Hx'). exists x', (delete (docKey vb key) A). split; [done|]. split; [done|].
    unfold erased, hasCache. by rewrite Ec.
  - intros _ w' (c' & A' & E & Hsc & Hc & He). exists A'. destruct (cache_state _ _ _ _ _ _ _ c' A' Hs Hsc Hc) as [H1 H2]; [by eapply erased_lower|].
    rewrite <- E in H1, H2. split; [done|]. split; [done|]. split; [done|]. by exists c'.
Qed.

(** The two ways a write can go. *)
Definition staged_as (w : world) (own : gmap ptr place) (St : Z -> list ptr) (p : ptr) (r : Request) (w' : world) (own' : gmap ptr place)
    (St' : Z -> list ptr) : Prop :=
  let v := r_vbucket r in
  own' = <[p := Staged v]> own /\ St' = setl St v (p :: St v) /\ exists u, b_heap (bucket w') !! p = Some (set_hook u r).

Lemma staged_length St v p v' : (length (setl St v (p :: St v) v') <= Datatypes.S (length (St v')))%nat.
Proof. unfold setl. case_decide; [subst; cbn; lia|lia]. Qed.

Lemma stage_state w own St Qu Rd A fs p r : conn_state w own St Qu Rd A fs -> own !! p = Some Away -> b_heap (bucket w) !! p = Some r ->
  vb_ok (r_vbucket r) -> Z.of_nat (length (St (r_vbucket r))) + 1 < 2 ^ 32 ->
  wp (stageWrite cfg p) (fun ok w' => if (ok : bool) then
     exists own' St', conn_state w' own' St' Qu Rd A fs /\ prog w own w' own' /\ kept (conn w') = kept (conn w) /\ staged_as w own St p r w' own' St'
   else w' = w) w.
Proof.
  intros [Hl Hi Hc Hd Ho] Hp Hr Hv Hlen. eapply wp_mono; [by eapply stageWrite_spec|]. intros [] w' H; [|done].
  destruct H as (H & u & t' & E). exists (<[p := Staged (r_vbucket r)]> own), (setl St (r_vbucket r) (p :: St (r_vbucket r))). split; [|split; [|split]].
  - split; [by rewrite E|done|by rewrite E|done|eapply out_rep_ext; [..|exact Ho]; by rewrite E].
  - split; [by rewrite E|]. intros x pl Hx H1 H2. assert (x <> p) by congruence. rewrite E. cbn. by rewrite !lookup_insert_ne.
  - by rewrite E.
  - split; [done|]. split; [done|]. exists u. rewrite E. cbn. apply lookup_insert_eq.
Qed.

Lemma release_state w own St Qu Rd A fs p : conn_state w own St Qu Rd A fs -> own !! p = Some Away ->
  wp (releaseRequest p) (fun _ w' => exists own' pool' h', conn_state w' own' St Qu Rd A fs /\ prog w own w' own' /\
    w' = { w with conn := { conn w with reqPool_ := pool' }; bucket := with_heap (bucket w) h' }) w.
Proof.
  intros [Hl Hi Hc Hd Ho] Hp. eapply wp_mono; [apply releaseRequest_spec; [done|apply Hl|done]|]. intros _ w' (own' & pool' & h' & -> & H & Hm).
  exists own', pool', h'. split; [|split; [|done]].
  - split; [|done|done|done|done]. destruct Hl. by split.
  - split; [done|]. eapply moves_q; [exact Hm|exact Hp|by right].
Qed.

(** A write in asynchronous mode is answered at once, with success if it was
    admitted and a temporary failure if not. *)
Lemma stageAsync_spec w own St Qu Rd A fs hdr p r pause : conn_state w own St Qu Rd A fs -> own !! p = Some Away -> b_heap (bucket w) !! p = Some r ->
  vb_ok (r_vbucket r) -> is_uint 16 (r_vbucket r) -> Z.of_nat (length (St (r_vbucket r))) + 1 < 2 ^ 32 ->
  wp (stageAsync cfg hdr p pause) (fun _ w' => exists own' St' A' st, conn_state w' own' St' Qu Rd A' (fs ++ [emptyFrame hdr st 0]) /\
    prog w own w' own' /\ outstandingRequests_ (conn w') = outstandingRequests_ (conn w) /\
    ((st = StSuccess /\ A' = A /\ stageFull_ (conn w') = stageFull_ (conn w) /\ staged_as w own St p r w' own' St') \/
     (st = StTmpFail /\ erased (hasCache w) A (docKey (r_vbucket r) (r_key r)) A' /\ St' = St /\ (pause = true -> stageFull_ (conn w') = true)))) w.
Proof using DCL.
  intros Hs Hp Hr Hv Hvb Hlen. unfold stageAsync. apply wp_bind. eapply wp_mono; [by eapply stage_state|]. intros [] w1.
  - intros (own1 & St1 & Hs1 & Hp1 & Hk1 & Hst). eapply wp_mono; [by apply pendEmpty|]. intros _ w2 [Hio Hs2].
    exists own1, St1, A, StSuccess. split; [done|]. split; [eapply prog_trans; [done|by apply prog_io]|].
    pose proof (io_fields _ _ Hio) as (Ek & Eb & _). split; [unfold kept in *; congruence|]. left.
    split; [done|]. split; [done|]. split; [unfold kept in *; congruence|]. destruct Hst as (E1 & E2 & u & E3). split; [done|]. split; [done|]. exists u. by rewrite Eb.
  - intros ->. apply wp_bind. eapply wp_mono; [by apply pendEmpty|]. intros _ w2 [Hio Hs2]. pose proof (io_fields _ _ Hio) as (Ek & Eb & _).
    apply wp_bind. eapply wp_rget; [rewrite Eb; exact Hr|]. apply wp_bind. eapply wp_mono; [by apply erase_state|].
    intros _ w3 (A3 & Hs3 & Hp3 & Hlow & c' & E3). assert (Ehc : hasCache w2 = hasCache w) by (unfold hasCache; by rewrite (proj1 (proj2 (proj2 (proj2 (proj2 (io_fields _ _ Hio))))))). rewrite Ehc in Hlow.
    apply wp_bind. eapply wp_mono; [by apply release_state|].
    intros _ w4 (own4 & pool' & h' & Hs4 & Hp4 & E4).
    assert (Hprog : prog w own w4 own4) by (eapply prog_trans; [by apply prog_io|]; by eapply prog_trans).
    assert (Eout : outstandingRequests_ (conn w4) = outstandingRequests_ (conn w)) by (rewrite E4, E3; cbn; by apply io_outstanding).
    apply wp_when; intros Epa.
    + apply wp_upd; [apply Hs4|]. exists own4, St, A3, StTmpFail. split; [|split; [exact Hprog|split; [exact Eout|right; done]]].
      destruct Hs4 as [Hl Hi Hc Hd Ho]. split; [|done|done|done|done]. destruct Hl. by split.
    + exists own4, St, A3, StTmpFail. split; [done|]. split; [done|]. split; [done|]. right. split; [done|]. split; [done|]. split; [done|]. congruence.
Qed.

(** An answer drops the connection's count by one. *)
Lemma counted w own St Qu Rd A fs n : conn_state w own St Qu Rd A fs ->
  conn_state { w with conn := { conn w with outstandingRequests_ := n } } own St Qu Rd A fs /\
  prog w own { w with conn := { conn w with outstandingRequests_ := n } } own.
Proof. intros [Hl Hi Hc Hd Ho]. split; [|done]. split; [|done|done|done|done]. destruct Hl. by split. Qed.

Lemma emit_state w own St Qu Rd A fs e : (forall b, e <> Wrote b) -> conn_state w own St Qu Rd A fs ->
  wp (emit e) (fun _ w' => conn_state w' own St Qu Rd A fs /\ io w w') w.
Proof.
  intros He Hs. apply wp_emit. split; [|done]. eapply conn_state_io; [exact Hs|done|]. eapply out_rep_ext; [..|apply Hs]; [|done].
  cbn. unfold const. rewrite wrote_app. destruct e; cbn; rewrite ?app_nil_r; try done. by destruct (He b).
Qed.

Lemma drop_state w own St Qu Rd A fs k : conn_state w own St Qu Rd A fs ->
  wp (dropOutstanding k) (fun _ w' => conn_state w' own St Qu Rd A fs /\ prog w own w' own /\
    outstandingRequests_ (conn w') = outstandingRequests_ (conn w) - k /\ stageFull_ (conn w') = stageFull_ (conn w)) w.
Proof.
  intros Hs. unfold dropOutstanding. apply wp_bind, wp_this; [apply Hs|]. apply wp_bind, wp_upd; [apply Hs|].
  destruct (counted _ _ _ _ _ _ _ (outstandingRequests_ (conn w) - k) Hs) as [Hs1 Hp1]. set (w1 := { w with conn := _ }) in *.
  apply wp_when; [|done]. intros _. unfold onDrained. apply wp_bind, wp_this; [apply Hs1|]. rewrite (live_open _ (cs_live _ _ _ _ _ _ _ Hs1)).
  apply wp_when; [|done]. intros _. unfold scheduleMigrateCheck. apply wp_bind, wp_this; [apply Hs1|]. apply wp_when; [|done]. intros _.
  apply wp_upd; [apply Hs1|]. split; [|done]. eapply conn_state_io; [exact Hs1|done|]. eapply out_rep_ext; [..|apply Hs1]; done.
Qed.

Lemma sendWriteResponse_spec w own St Qu Rd A fs p r : conn_state w own St Qu Rd A fs -> own !! p = Some Away -> b_heap (bucket w) !! p = Some r ->
  is_uint 8 (r_opcode r) -> is_uint 64 (r_resultSeqno r) ->
  wp (sendWriteResponse cfg p) (fun _ w' => exists own',
    conn_state w' own' St Qu Rd A
      (fs ++ [frame (r_opcode r) (if IsOK (r_resultStatus r) then StSuccess else StInternalError) (r_opaque r) (r_resultSeqno r) 0 [] [] []]) /\
    prog w own w' own' /\ outstandingRequests_ (conn w') = outstandingRequests_ (conn w) - 1 /\ stageFull_ (conn w') = stageFull_ (conn w)) w.
Proof using writes_succeed.
  intros Hs Hp Hr Hop Hsq. unfold sendWriteResponse. apply wp_bind. eapply wp_rget; [exact Hr|]. apply wp_bind, wp_this; [apply Hs|].
  set (st := if IsOK (r_resultStatus r) then StSuccess else StInternalError). set (f := frame _ _ _ _ _ _ _ _).
  apply wp_bind. apply (wp_mono _ (fun _ w1 => io w w1 /\ conn_state w1 own St Qu Rd A (fs ++ [f]))).
  - rewrite (live_open _ (cs_live _ _ _ _ _ _ _ Hs)). cbn [negb when]. apply wp_bind. eapply wp_mono; [apply (addPending_spec _ _ f); [apply Hs|]|].
    + intros out. unfold appendEmptyResponse. by rewrite response_frame by (simpl; lia).
    + intros _ w1 [Hio Ho]. pose proof (io_live _ _ Hio (cs_live _ _ _ _ _ _ _ Hs)) as Hl1. apply wp_bind, wp_this; [apply Hl1|]. apply wp_bind, wp_modify.
      set (w2 := { w1 with gRespPendingBytes := _ }). assert (Hio2 : io w w2) by (by eapply io_trans; [exact Hio|]).
      eapply wp_mono; [apply (scheduleFlush_spec cfg writes_succeed w2); by eapply io_live; [|apply Hs]|]. intros _ w3 [Hio3 Ho3].
      assert (Hio' : io w w3) by (by eapply io_trans). split; [done|]. eapply conn_state_io; [exact Hs|done|]. apply Ho3. apply (out_rep_ext w1); [done|done|]. apply Ho, Hs.
  - intros _ w1 [Hio Hs1]. apply wp_bind. eapply wp_mono; [by apply release_state|]. intros _ w2 (own2 & pool' & h' & Hs2 & Hp2 & E2).
    apply wp_bind. apply (wp_mono _ (fun _ w3 => conn_state w3 own2 St Qu Rd A (fs ++ [f]) /\ io w2 w3)).
    { destruct (r_ioOwner r); [by apply emit_state|]. by apply wp_ret. }
    intros _ w3 [Hs3 Hio3]. eapply wp_mono; [by apply drop_state|]. intros _ w4 (Hs4 & Hp4 & Eo & Ef). exists own2. split; [done|]. split.
    + eapply prog_trans; [by apply prog_io|]. eapply prog_trans; [exact Hp2|]. eapply prog_trans; [by apply prog_io|exact Hp4].
    + pose proof (io_fields _ _ Hio) as (E & _). pose proof (io_fields _ _ Hio3) as (E' & _). unfold kept in E, E'. rewrite E2 in E'. cbn in E'.
      split; congruence.
Qed.

(** A durable write is counted and waits, or is refused and answered. *)
Lemma stageDurable_spec w own St Qu Rd A fs p r : conn_state w own St Qu Rd A fs -> own !! p = Some Away -> b_heap (bucket w) !! p = Some r ->
  vb_ok (r_vbucket r) -> is_uint 16 (r_vbucket r) -> Z.of_nat (length (St (r_vbucket r))) + 1 < 2 ^ 32 ->
  is_uint 8 (r_opcode r) -> is_uint 64 (r_resultSeqno r) ->
  wp (stageDurable cfg p) (fun _ w' => exists own' St' A' fs', conn_state w' own' St' Qu Rd A' fs' /\ prog w own w' own' /\
    ((fs' = fs /\ A' = A /\ outstandingRequests_ (conn w') = outstandingRequests_ (conn w) + 1 /\ stageFull_ (conn w') = stageFull_ (conn w) /\
      staged_as w own St p (set_origin (self (conn w)) (loop (conn w)) (owner_ (conn w)) r) w' own' St') \/
     (St' = St /\ outstandingRequests_ (conn w') = outstandingRequests_ (conn w) /\ erased (hasCache w) A (docKey (r_vbucket r) (r_key r)) A' /\
      fs' = fs ++ [frame (r_opcode r) StInternalError (r_opaque r) (r_resultSeqno r) 0 [] [] []]))) w.
Proof using DCL writes_succeed.
  intros Hs Hp Hr Hv Hvb Hlen Hop Hsq. unfold stageDurable. apply wp_bind, wp_upd; [apply Hs|].
  destruct (counted _ _ _ _ _ _ _ (outstandingRequests_ (conn w) + 1) Hs) as [Hs1 Hp1]. set (w1 := { w with conn := _ }) in *.
  apply wp_bind, wp_this; [apply Hs1|]. apply wp_bind. eapply rupd_spec; [exact Hr|]. set (r1 := set_origin _ _ _ r).
  destruct (put_state _ _ _ _ _ _ _ p r1 Hs1 Hp) as [Hs2 Hp2]. set (w2 := with_req w1 p r1) in *.
  assert (Hp02 : prog w own w2 own) by (by eapply prog_trans).
  apply wp_bind. apply (wp_mono _ (fun _ w3 => conn_state w3 own St Qu Rd A fs /\ io w2 w3)).
  { destruct (owner_ (conn w1)); [by apply emit_state|]. by apply wp_ret. }
  intros _ w3 [Hs3 Hio3]. pose proof (io_fields _ _ Hio3) as (Ek & Eb & _).
  assert (Hr3 : b_heap (bucket w3) !! p = Some r1) by (rewrite Eb; apply req_lookup).
  assert (Hp03 : prog w own w3 own) by (eapply prog_trans; [exact Hp02|by apply prog_io]).
  assert (Eo3 : outstandingRequests_ (conn w3) = outstandingRequests_ (conn w) + 1 /\ stageFull_ (conn w3) = stageFull_ (conn w)) by (by rewrite (io_outstanding _ _ Hio3), (io_stageFull _ _ Hio3)).
  destruct Eo3 as [Eo3 Ef3]. apply wp_bind. eapply wp_mono; [by eapply stage_state|]. intros [] w4.
  - intros (own4 & St4 & Hs4 & Hp4 & Hk4 & Hst). cbn [negb when]. apply wp_ret. exists own4, St4, A, fs. split; [done|].
    split; [by eapply prog_trans|]. left. split; [done|]. split; [done|]. unfold kept in Hk4. split; [congruence|]. split; [congruence|].
    destruct Hst as (E1 & E2 & u & E3). split; [done|]. split; [done|]. by exists u.
  - intros ->. cbn [negb when]. apply wp_bind. eapply wp_rget; [exact Hr3|]. apply wp_bind. eapply wp_mono; [by apply erase_state|].
    intros _ w5 (A5 & Hs5 & Hp5 & Hlow & c' & E5).
    assert (Ehc : hasCache w3 = hasCache w) by (unfold hasCache; by rewrite (proj1 (proj2 (proj2 (proj2 (proj2 (io_fields _ _ Hio3))))))). apply wp_bind, wp_rput.
    destruct (put_state _ _ _ _ _ _ _ p (set_status (StError kInternal) r1) Hs5 Hp) as [Hs6 Hp6].
    set (w6 := { w5 with bucket := _ }). change w6 with (with_req w5 p (set_status (StError kInternal) r1)).
    eapply wp_mono; [eapply sendWriteResponse_spec; [exact Hs6|exact Hp|apply req_lookup|done|done]|].
    intros _ w7 (own7 & Hs7 & Hp7 & Eo & Ef). exists own7, St, A5. eexists. split; [exact Hs7|]. split.
    + eapply prog_trans; [exact Hp03|]. eapply prog_trans; [exact Hp5|]. eapply prog_trans; [exact Hp6|exact Hp7].
    + right. split; [done|]. split; [rewrite Eo; cbn; rewrite E5; cbn; lia|]. split; [|reflexivity]. by rewrite <- Ehc.
Qed.

(** ** SET and DELETE *)

(** The request a SET becomes. *)
Definition setRequest (hdr : McbpHeader) (data : list Z) (r : Request) : Request :=
  set_data (keyOf hdr data) (valueOf hdr data) (flagsOf hdr data) (expiryOf hdr data) (set_header hdr (hcas hdr) (hdatatype hdr) r).

Lemma reset_fields r : reset r = r -> r_key r = [] /\ r_value r = [] /\ r_flags r = 0 /\ r_expiry r = 0 /\ r_resultSeqno r = 0 /\ r_responseBuf r = [] /\ r_resultStatus r = StOK.
Proof. intros E. by rewrite <- E. Qed.

Lemma setFields_ok hdr data r : req_ok hdr data -> reset r = r ->
  setFields hdr data (set_header hdr (hcas hdr) (hdatatype hdr) r) = Some (setRequest hdr data r).
Proof.
  intros [Hwf _ Hlen Hfit Hsm _] Hr. destruct (reset_fields r Hr) as (_ & _ & Ef & Ee & _). unfold McbpHeader_wf, is_uint in Hwf.
  destruct Hwf as (_ & _ & Hk & He & _). unfold setFields.
  assert (H32 : forall off, 0 <= off -> off + 4 <= extrasLen hdr -> u32At data off = Some (bswap 4 (le_value (slice (Z.to_nat off) 4 data)))).
  { intros off Ho Hle. unfold u32At. destruct (bytesAt_ok data off 4) as [-> _]; [lia|lia|lia|done]. }
  destruct (bytesAt_ok data (extrasLen hdr) (keyLen hdr)) as [Ek _]; [lia|lia|lia|].
  destruct (bytesAt_ok data (extrasLen hdr + keyLen hdr) (u32 (bodyLen hdr - extrasLen hdr - keyLen hdr))) as [Ev Lv]; [lia|apply u32_range|rewrite u32_small; lia|].
  replace (slice (Z.to_nat (extrasLen hdr + keyLen hdr)) _ data) with (valueOf hdr data) in Ev.
  2: { unfold slice, valueOf. rewrite take_ge; [done|]. rewrite length_drop, u32_small; lia. }
  rewrite Ek, Ev. unfold setRequest, flagsOf, expiryOf. destruct (4 <=? extrasLen hdr) eqn:E4, (8 <=? extrasLen hdr) eqn:E8; try lia;
    rewrite ?(H32 0), ?(H32 4) by lia; cbn; rewrite ?Ef, ?Ee; reflexivity.
Qed.

(** The end both writes share: through the cache, then to the engine. *)
Definition putCached (cached : bool) (A : docs) (k : list Z) (x : list Z * Z * Z * Z * bool) (A' : docs) : Prop :=
  let '(value, flags, expiry, datatype, deleted) := x in
  if cached then put_spec A k value flags expiry datatype deleted A' else A' = A.

Lemma erased_other cached A k x A2 A' : putCached cached A k x A2 -> erased cached A2 k A' ->
  if cached then A' !! k = None /\ (forall k', k' <> k -> A' !! k' = None \/ A' !! k' = A !! k') else A' = A.
Proof.
  unfold putCached, erased. destruct x as [[[[value flags] expiry] datatype] deleted]. destruct cached; [|intros ->; done]. intros [Hs _] ->.
  split; [apply lookup_delete_eq|]. intros k' Hk. rewrite lookup_delete_ne by done. destruct (A2 !! k') as [d|] eqn:E; [|by left]. right.
  apply (lookup_weaken _ _ _ _ E) in Hs. by rewrite lookup_insert_ne in Hs.
Qed.

Lemma write_spec hdr data w own St Qu Rd A fs w1 own1 p r (f : C -> option C) pause x :
  conn_state w1 own1 St Qu Rd A fs -> prog w own w1 own1 -> not_queued own p ->
  outstandingRequests_ (conn w1) = outstandingRequests_ (conn w) -> own1 !! p = Some Away -> b_heap (bucket w1) !! p = Some r ->
  vb_ok (specific hdr) -> McbpHeader_wf hdr -> Z.of_nat (length (St (specific hdr))) + 1 < 2 ^ 32 ->
  asks hdr data r -> r_resultSeqno r = 0 -> written hdr data = Some x ->
  (forall y, cache_rep y A -> exists y' A', f y = Some y' /\ cache_rep y' A' /\ put_step A A' /\ putCached true A (docKey (specific hdr) (keyOf hdr data)) x A') ->
  wp (withCache f;; stage cfg hdr p pause) (fun _ w' => served_request hdr data w own St Qu Rd A fs w') w1.
Proof using DCL writes_succeed.
  intros Hs1 Hp1 Hq Ho1 Hp Hr Hv Hwf Hlen Hasks Es Hw Hput. pose proof Hasks as (Ev & Eo & Ec & Ek & _).
  assert (Hop : is_uint 8 (opcode hdr) /\ is_uint 16 (specific hdr)) by (destruct Hwf as (_ & ? & _ & _ & _ & ? & _); done). destruct Hop as [Hop H16].
  assert (Ehc : hasCache w1 = hasCache w) by (destruct Hp1 as [Hb _]; unfold base in Hb; unfold hasCache; congruence).
  assert (Eself : self (conn w1) = self (conn w)) by (destruct Hp1 as [Hb _]; unfold base in Hb; congruence).
  set (k := docKey (specific hdr) (keyOf hdr data)) in *.
  apply wp_bind. eapply wp_mono; [eapply (withCache_spec _ _ A (fun A2 => put_step A A2 /\ putCached (hasCache w) A k x A2)); [apply Hs1|..]|].
  { intros E. split; [split; [apply Hs1|intros; lia]|]. rewrite <- Ehc. unfold hasCache. rewrite E. by destruct x as [[[[]]]]. }
  { intros y E Hy. rewrite <- Ehc. unfold hasCache. rewrite E. by apply Hput. }
  intros _ w2 (c' & A2 & E2 & Hsc & Hc2 & [Hd2 Hpend] & Hpc).
  destruct (cache_state _ _ _ _ _ _ _ c' A2 Hs1 Hsc Hc2 Hd2) as [Hs2 Hp2]. rewrite <- E2 in Hs2, Hp2.
  assert (Hp02 : prog w own w2 own1) by (by eapply prog_trans). assert (Hr2 : b_heap (bucket w2) !! p = Some r) by (by rewrite E2).
  assert (Ehc2 : hasCache w2 = hasCache w) by (destruct Hp02 as [Hb _]; unfold base in Hb; unfold hasCache; congruence).
  assert (Hok : forall o own' w', own' = <[p := Staged (specific hdr)]> own1 -> requestOf o = Some p -> prog w own w' own' ->
    (exists r', b_heap (bucket w') !! p = Some r' /\ asks hdr data r' /\ (waitsFor o = 1 -> r_conn r' = Some (self (conn w)))) ->
    forall p', requestOf o = Some p' -> holds hdr data o w' own' p' /\ not_queued own p').
  { intros o own' w' -> Er [Hb _] (r' & H1 & H2 & H3) p' Ep. assert (p' = p) as -> by congruence. split; [|done]. split; [left; apply lookup_insert_eq|].
    exists r'. split; [done|]. split; [done|]. intros Ew. rewrite (H3 Ew). unfold base in Hb. f_equal. congruence. }
  assert (Hserve : forall p A', A' = A2 -> serves (echoResponseBuf_ (conn w)) (hasCache w) (durable cfg) hdr data A (if durable cfg then Waiting p else Accepted (emptyFrame hdr StSuccess 0) p) A').
  { intros p' A' ->. destruct x as [[[[value flags] expiry] datatype] deleted]. eapply serves_write; [exact Hw|]. exact Hpc. }
  assert (Hrefuse : forall st A', st <> StSuccess -> erased (hasCache w) A2 k A' -> serves (echoResponseBuf_ (conn w)) (hasCache w) (durable cfg) hdr data A (Answered (emptyFrame hdr st 0)) A' /\
    (forall k, pendingOf A' k <= pendingOf A k + 1)).
  { intros st A' Hst He. split; [apply serves_refused; [by rewrite Hw|done|by eapply erased_other]|]. intros k'.
    destruct (erased_lower w2 own1 St Qu Rd A2 fs k A' Hs2) as [_ Hlow]; [by rewrite Ehc2|]. specialize (Hlow k'). specialize (Hpend k'). lia. }
  unfold stage. destruct (durable cfg) eqn:Ed.
  - eapply wp_mono; [eapply stageDurable_spec; [exact Hs2|exact Hp|exact Hr2|..]; by rewrite ?Ev, ?Ec, ?Es|].
    intros _ w' (own' & St' & A' & fs' & Hs' & Hp' & H). assert (Hp0' : prog w own w' own') by (by eapply prog_trans).
    destruct H as [(-> & -> & En & Ef & Eown & -> & u & Hu)|(-> & En & He & ->)].
    + exists own', (setl St (r_vbucket r) (p :: St (r_vbucket r))), Rd, A2, (Waiting p). cbn [frameOf option_list waitsFor]. rewrite app_nil_r.
      split; [done|]. split; [apply Hp0'|]. split; [apply Hp0'|]. split; [apply staged_length|]. split; [done|]. split; [rewrite Ed; by apply Hserve|]. split.
      * apply (Hok (Waiting p) own'); [cbn in Eown; by rewrite <- Ev|done|done|]. eexists. split; [exact Hu|]. split; [done|]. intros _. cbn. rewrite E2. cbn. by rewrite Eself.
      * rewrite En, E2. cbn. lia.
    + rewrite Ev, Ek, Ehc2 in He. destruct (Hrefuse StInternalError A') as [H1 H2]; [done|done|].
      exists own', St, Rd, A', (Answered (emptyFrame hdr StInternalError 0)). cbn [frameOf option_list waitsFor]. unfold emptyFrame in *. rewrite Ec, Eo, Es in Hs'.
      split; [done|]. split; [apply Hp0'|]. split; [apply Hp0'|]. split; [intros; lia|]. split; [done|]. split; [by rewrite Ed|]. split; [done|]. rewrite En, E2. cbn. lia.
  - eapply wp_mono; [eapply (stageAsync_spec _ _ _ _ _ _ _ hdr _ _ pause); [exact Hs2|exact Hp|exact Hr2|..]; by rewrite ?Ev|].
    intros _ w' (own' & St' & A' & st & Hs' & Hp' & En & H). assert (Hp0' : prog w own w' own') by (by eapply prog_trans).
    destruct H as [(-> & -> & Ef & Eown & -> & u & Hu)|(-> & He & -> & _)].
    + exists own', (setl St (r_vbucket r) (p :: St (r_vbucket r))), Rd, A2, (Accepted (emptyFrame hdr StSuccess 0) p). cbn [frameOf option_list waitsFor].
      split; [done|]. split; [apply Hp0'|]. split; [apply Hp0'|]. split; [apply staged_length|]. split; [done|]. split; [rewrite Ed; by apply Hserve|]. split.
      * apply (Hok (Accepted (emptyFrame hdr StSuccess 0) p) own'); [by rewrite <- Ev|done|done|]. eexists. split; [exact Hu|]. done.
      * rewrite En, E2. cbn. lia.
    + rewrite Ev, Ek, Ehc2 in He. destruct (Hrefuse StTmpFail A') as [H1 H2]; [done|done|].
      exists own', St, Rd, A', (Answered (emptyFrame hdr StTmpFail 0)). cbn [frameOf option_list waitsFor].
      split; [done|]. split; [apply Hp0'|]. split; [apply Hp0'|]. split; [intros; lia|]. split; [done|]. split; [by rewrite Ed|]. split; [done|]. rewrite En, E2. cbn. lia.
Qed.

Definition body_of (body : option IOBuf) (data : list Z) : Prop :=
  match body with Some b => io_data b = data /\ 0 <= io_capacity b | None => data = [] end.

Lemma storeBody_ok b : 0 <= io_capacity b ->
  (storeBody copyCapacity b).1 = io_data b /\ match (storeBody copyCapacity b).2 with Some cap => 0 <= cap | None => True end.
Proof using capacity_ok. intros Hb. unfold storeBody, ownBody. repeat case_match; simplify_eq/=; done. Qed.

Lemma empty_body hdr r : req_ok hdr [] -> reset r = r -> set_header hdr (hcas hdr) (hdatatype hdr) r = setRequest hdr [] r.
Proof.
  intros [Hwf _ Hlen Hfit _ _] Hr. destruct (reset_fields r Hr) as (Ek & Ev & Ef & Ee & _). cbn in Hlen.
  destruct Hwf as (_ & _ & [Hk _] & [He _] & _). unfold setRequest, set_data, set_header. cbn. unfold flagsOf, expiryOf, keyOf, valueOf, slice.
  rewrite Ek, Ev, Ef, Ee. rewrite drop_nil, take_nil. destruct (4 <=? extrasLen hdr) eqn:E4, (8 <=? extrasLen hdr) eqn:E8; try lia. by rewrite drop_nil.
Qed.

Lemma handleSet_spec hdr data body w own St Qu Rd A fs : conn_state w own St Qu Rd A fs -> req_ok hdr data -> body_of body data ->
  opcode_of (opcode hdr) = Some OpSet -> Z.of_nat (length (St (specific hdr))) + 1 < 2 ^ 32 -> (forall k, pendingOf A k + 1 < 2 ^ 32) ->
  wp (handleSet cfg copyCapacity hdr body) (fun _ w' => served_request hdr data w own St Qu Rd A fs w') w.
Proof using DCL writes_succeed capacity_ok.
  intros Hs Hreq Hb Hop Hlen Hpin. unfold handleSet. apply wp_bind. eapply wp_mono; [apply acquireRequestFor_spec; apply Hs|].
  intros p w1 Ha. destruct (acquired _ _ _ _ _ _ _ _ _ Hs Ha) as (own1 & Hs1 & Hp1 & Ho1 & Hf1 & [Hp (r & Hr & Hre)] & Hq).
  apply wp_bind. eapply rupd_spec; [exact Hr|]. set (r1 := set_header _ _ _ r).
  apply wp_bind. eapply wp_rget; [apply req_lookup|]. destruct (put_state _ _ _ _ _ _ _ p r1 Hs1 Hp) as [Hs2 Hp2].
  apply wp_bind. apply (wp_mono _ (fun cap w2 => w2 = with_req w1 p (setRequest hdr data r) /\ match cap with Some n => 0 <= n | None => True end)).
  { destruct body as [b|].
    - destruct Hb as [Eb Hcap]. destruct (storeBody_ok b Hcap) as [E1 E2]. destruct (storeBody copyCapacity b) as [d cap]. cbn in E1, E2. subst d.
      rewrite Eb. apply wp_bind. eapply wp_lift; [by apply setFields_ok|]. apply wp_bind, wp_rput. apply wp_ret. split; [|done].
      unfold with_req. cbn. unfold const, with_heap. cbn. by rewrite insert_insert_eq.
    - apply wp_ret. split; [|done]. cbn in Hb. subst data. unfold r1. by rewrite empty_body. }
  intros cap w2 [-> Hcap]. apply wp_bind. eapply wp_rget; [apply req_lookup|].
  destruct (put_state _ _ _ _ _ _ _ p (setRequest hdr data r) Hs1 Hp) as [Hs3 Hp3]. destruct Hreq as [Hwf Hby Hdl Hfit Hsm Hvb].
  destruct (reset_fields r Hre) as (_ & _ & _ & _ & Esq & _).
  eapply (write_spec _ _ _ _ _ _ _ _ _ _ own1 p (setRequest hdr data r)); try done.
  - by eapply prog_trans.
  - apply req_lookup.
  - unfold written. by rewrite Hop.
  - intros x Hx. assert (H16 : is_uint 16 (specific hdr) /\ is_uint 8 (hdatatype hdr)) by (destruct Hwf as (_ & _ & _ & _ & ? & ? & _); done).
    destruct H16 as [H16 H8]. assert (Hvl : Z.of_nat (4 + length (valueOf hdr data)) < 2 ^ 32) by (unfold valueOf; rewrite length_drop; lia).
    unfold putThrough. cbn [setRequest set_data set_header r_vbucket r_key r_value r_flags r_expiry r_datatype]. destruct cap as [n|].
    + destruct (PutShared_law x A (specific hdr) (keyOf hdr data) (valueOf hdr data) n (flagsOf hdr data) (expiryOf hdr data) (hdatatype hdr) false)
        as (x' & A' & E & Hx' & Hps); [done|done|done|done|]. exists x', A'. split; [done|]. split; [done|]. split; [|exact Hps]. eapply put_spec_step; [exact Hx|apply Hs|..]; done.
    + destruct (Put_law x A (specific hdr) (keyOf hdr data) (valueOf hdr data) (flagsOf hdr data) (expiryOf hdr data) (hdatatype hdr) false)
        as (x' & A' & E & Hx' & Hps); [done|done|done|]. exists x', A'. split; [done|]. split; [done|]. split; [|exact Hps]. eapply put_spec_step; [exact Hx|apply Hs|..]; done.
Qed.

Lemma keyOf_ok hdr data : req_ok hdr data -> bytesAt data (extrasLen hdr) (keyLen hdr) = Some (keyOf hdr data).
Proof.
  intros [(_ & _ & [Hk _] & [He _] & _) _ Hlen Hfit _ _]. destruct (bytesAt_ok data (extrasLen hdr) (keyLen hdr)) as [-> _]; [done|done|lia|done].
Qed.
Lemma keyOf_nil hdr : keyOf hdr [] = [].
Proof. unfold keyOf, slice. by rewrite drop_nil, take_nil. Qed.

Lemma handleDelete_spec hdr data body w own St Qu Rd A fs : conn_state w own St Qu Rd A fs -> req_ok hdr data -> body_of body data ->
  opcode_of (opcode hdr) = Some OpDelete -> Z.of_nat (length (St (specific hdr))) + 1 < 2 ^ 32 -> (forall k, pendingOf A k + 1 < 2 ^ 32) ->
  wp (handleDelete cfg copyCapacity hdr body) (fun _ w' => served_request hdr data w own St Qu Rd A fs w') w.
Proof using DCL writes_succeed.
  intros Hs Hreq Hb Hop Hlen Hpin. unfold handleDelete. apply wp_bind. eapply wp_mono; [apply acquireRequest_spec; apply Hs|].
  intros p w1 Ha. destruct (acquired _ _ _ _ _ _ _ _ _ Hs Ha) as (own1 & Hs1 & Hp1 & Ho1 & Hf1 & [Hp (r & Hr & Hre)] & Hq).
  destruct (reset_fields r Hre) as (Ek & Ev & _ & _ & Esq & _).
  apply wp_bind. eapply wp_rget; [exact Hr|]. apply wp_bind, wp_rput. set (r1 := set_header _ _ _ r). apply wp_bind.
  apply (wp_mono _ (fun _ w2 => exists r2, w2 = with_req w1 p r2 /\ asks hdr data r2 /\ r_resultSeqno r2 = 0)).
  { destruct body as [b|].
    - destruct Hb as [Eb Hcap]. assert (Eo : io_data (ownBody copyCapacity b) = data) by (unfold ownBody; case_match; done). rewrite Eo.
      apply wp_bind. eapply wp_lift; [by apply keyOf_ok|]. eapply rupd_spec; [apply req_lookup|].
      exists (set_data (keyOf hdr data) (r_value r1) (r_flags r1) (r_expiry r1) r1). split; [|split; [split_and!; try done; by rewrite Hop|done]].
      unfold with_req. cbn. unfold const, with_heap. cbn. by rewrite insert_insert_eq.
    - apply wp_ret. exists r1. split; [done|]. cbn in Hb. subst data. split; [|done]. split_and!; try done; [by rewrite keyOf_nil|by rewrite Hop]. }
  intros _ w2 (r2 & -> & Hask & Er2). pose proof Hask as (Evb & _ & _ & Ekey & _). apply wp_bind. eapply wp_rget; [apply req_lookup|].
  destruct (put_state _ _ _ _ _ _ _ p r2 Hs1 Hp) as [Hs3 Hp3]. destruct Hreq as [Hwf Hby Hdl Hfit Hsm Hvb].
  eapply (write_spec _ _ _ _ _ _ _ _ _ _ own1 p r2); try done.
  - by eapply prog_trans.
  - apply req_lookup.
  - unfold written. by rewrite Hop.
  - intros x Hx. assert (H16 : is_uint 16 (specific hdr)) by (destruct Hwf as (_ & _ & _ & _ & _ & ? & _); done).
    rewrite Evb, Ekey. destruct (Put_law x A (specific hdr) (keyOf hdr data) [] 0 0 0 true) as (x' & A' & E & Hx' & Hps); [done|done|done|].
    exists x', A'. split; [done|]. split; [done|]. split; [|exact Hps]. eapply put_spec_step; [exact Hx|apply Hs|..|exact Hps]; unfold is_uint; cbn; lia.
Qed.

(** ** GET *)

Lemma cachedReply_frame hdr d out : doc_ok d -> cachedReply hdr d out = out ++ docFrame hdr d.
Proof.
  intros (_ & H8 & Hl). unfold cachedReply, docFrame. destruct (d_deleted d); [|by rewrite appendGetResponse_frame].
  unfold appendEmptyResponse. by rewrite response_frame by (simpl; lia).
Qed.
Lemma docFrame_reply hdr d : is_uint 8 (opcode hdr) -> doc_ok d -> reply_to hdr (docFrame hdr d).
Proof.
  intros Hop (H64 & H8 & Hl). unfold docFrame. destruct (d_deleted d); [by apply emptyFrame_reply|].
  eexists _, _, _, _, _, _. split; [reflexivity|]. rewrite length_le_bytes. split_and!; done || lia.
Qed.

(** The prebuilt answer of a server that echoes a fixed value is a frame. *)
Lemma echoReply_frame hdr val : Z.of_nat (4 + length val) < 2 ^ 32 ->
  echoReply hdr (echoResponse val) = frame (opcode_value OpGet) StSuccess (opaque hdr) 1 0 (le_bytes 4 (bswap 4 0x04000000)) [] val.
Proof.
  intros Hl. unfold echoReply, echoResponse, frame. rewrite length_le_bytes. cbn [length]. rewrite Nat.add_0_r, u32_small by lia.
  replace (Z.of_nat (4 + length val)) with (4 + Z.of_nat (length val)) by lia. reflexivity.
Qed.

Lemma echo_reply hdr val : Z.of_nat (4 + length val) < 2 ^ 32 -> reply_to hdr (echoReply hdr (echoResponse val)).
Proof.
  intros Hl. rewrite echoReply_frame by done. eexists _, _, _, _, _, _. split; [reflexivity|]. rewrite length_le_bytes. split_and!; done || lia.
Qed.

Lemma echo_spec w own St Qu Rd A fs hdr data : conn_state w own St Qu Rd A fs -> opcode_of (opcode hdr) = Some OpGet -> echoResponseBuf_ (conn w) <> [] ->
  wp (addPending (fun out => out ++ echoReply hdr (echoResponseBuf_ (conn w)))) (fun _ w' => served_request hdr data w own St Qu Rd A fs w') w.
Proof.
  intros Hs Hop He. eapply wp_mono; [apply addPending_spec; [apply Hs|done]|]. intros _ w' [Hio Ho]. eapply answered_as; [done| |done|done]. by apply serves_echo.
Qed.

(** A miss: the request waits for a reader. *)
Lemma queueGet_spec hdr data body w own St Qu Rd A fs : conn_state w own St Qu Rd A fs -> req_ok hdr data -> body_of body data ->
  opcode_of (opcode hdr) = Some OpGet -> echoResponseBuf_ (conn w) = [] ->
  (hasCache w = true -> data <> [] -> A !! docKey (specific hdr) (keyOf hdr data) = None) ->
  wp (queueGet cfg copyCapacity hdr body) (fun _ w' => served_request hdr data w own St Qu Rd A fs w') w.
Proof using capacity_ok.
  intros Hs Hreq Hb Hop He Hmiss. unfold queueGet. apply wp_bind, wp_upd; [apply Hs|].
  destruct (counted _ _ _ _ _ _ _ (outstandingRequests_ (conn w) + 1) Hs) as [Hs0 Hp0]. set (w0 := { w with conn := _ }) in *.
  apply wp_bind. eapply wp_mono; [apply acquireRequest_spec; apply Hs0|].
  intros p w1 Ha. destruct (acquired _ _ _ _ _ _ _ _ _ Hs0 Ha) as (own1 & Hs1 & Hp1 & Ho1 & Hf1 & [Hp (r & Hr & Hre)] & Hq).
  destruct (reset_fields r Hre) as (Ek & _). apply wp_bind, wp_this; [apply Hs1|].
  apply wp_bind. eapply wp_rget; [exact Hr|]. apply wp_bind, wp_rput. set (r1 := set_origin _ _ _ _). apply wp_bind.
  assert (Eself : self (conn w1) = self (conn w)) by (destruct Hp1 as [Hb1 _]; unfold base in Hb1; cbn in Hb1; congruence).
  apply (wp_mono _ (fun _ w2 => exists r2, w2 = with_req w1 p r2 /\ asks hdr data r2 /\ r_conn r2 = Some (self (conn w)))).
  { destruct body as [b|].
    - destruct Hb as [Eb Hcap]. destruct (storeBody_ok b Hcap) as [E1 _]. destruct (storeBody copyCapacity b) as [d cap]. cbn in E1. subst d.
      rewrite Eb. apply wp_bind. eapply wp_lift; [by apply keyOf_ok|]. eapply rupd_spec; [apply req_lookup|].
      exists (set_data (keyOf hdr data) (r_value r1) (r_flags r1) (r_expiry r1) r1). split; [|split; [split_and!; try done; by rewrite Hop|by cbn; rewrite Eself]].
      unfold with_req. cbn. unfold const, with_heap. cbn. by rewrite insert_insert_eq.
    - apply wp_ret. exists r1. split; [done|]. cbn in Hb. subst data. split; [split_and!; try done; [by rewrite keyOf_nil|by rewrite Hop]|by cbn; rewrite Eself]. }
  intros _ w2 (r2 & -> & Hask & Ec). pose proof Hask as (Evb & _). destruct (put_state _ _ _ _ _ _ _ p r2 Hs1 Hp) as [Hs3 Hp3].
  eapply wp_mono; [eapply enqueueRead_spec; [apply Hs3|exact Hp|apply req_lookup|rewrite Evb; apply Hreq]|].
  cbn zeta. intros _ w3 [Hi (u & rd' & E3)]. rewrite Evb in Hi. set (own3 := <[p := _]> own1) in Hi.
  exists own3, St, (setl Rd (specific hdr) (Rd (specific hdr) ++ [p])), A, (Waiting p). destruct Hs3 as [Hl3 _ Hc3 Hd3 Ho3]. cbn [frameOf option_list]. rewrite app_nil_r.
  assert (Hprog : prog w own w3 own3).
  { eapply prog_trans; [exact Hp0|]. eapply prog_trans; [exact Hp1|]. eapply prog_trans; [exact Hp3|]. split; [by rewrite E3|].
    intros y pl Hy H1 H2. assert (y <> p) by congruence. rewrite E3. cbn. unfold own3. by rewrite !lookup_insert_ne. }
  split; [|split; [apply Hprog|split; [apply Hprog|split; [intros; lia|split; [intros; lia|split; [by apply serves_miss|split]]]]]].
  - split; [by rewrite E3|done|by rewrite E3|done|]. eapply out_rep_ext; [..|exact Ho3]; by rewrite E3.
  - intros p' [= <-]. split; [|done]. split; [right; apply lookup_insert_eq|]. exists (set_hook u r2). split; [rewrite E3; apply lookup_insert_eq|]. split; [done|].
    intros _. rewrite E3. cbn. by rewrite Ec, Eself.
  - rewrite E3. cbn. rewrite Ho1. cbn. unfold const. lia.
Qed.

(** Answering with a cached document. *)
Lemma pendDoc w own St Qu Rd A fs hdr d : conn_state w own St Qu Rd A fs -> doc_ok d ->
  wp (addPending (cachedReply hdr d)) (fun _ w' => io w w' /\ conn_state w' own St Qu Rd A (fs ++ [docFrame hdr d])) w.
Proof.
  intros Hs Hd. eapply wp_mono; [apply (addPending_spec _ _ (docFrame hdr d)); [apply Hs|intros; by apply cachedReply_frame]|].
  intros _ w' [Hio Ho]. split; [done|]. eapply conn_state_io; [done|done|]. apply Ho, Hs.
Qed.

Lemma served_cache hdr data w own St Qu Rd A fs w' c' : is_Some c' <-> is_Some (cache w) -> served_request hdr data { w with cache := c' } own St Qu Rd A fs w' ->
  served_request hdr data w own St Qu Rd A fs w'.
Proof.
  intros Hc. unfold served_request, hasCache, base. cbn. unfold const. by rewrite (bool_decide_ext _ _ Hc).
Qed.

Lemma handleGet_spec hdr data body w own St Qu Rd A fs : conn_state w own St Qu Rd A fs -> req_ok hdr data -> body_of body data ->
  opcode_of (opcode hdr) = Some OpGet ->
  wp (handleGet cfg copyCapacity hdr body) (fun _ w' => served_request hdr data w own St Qu Rd A fs w') w.
Proof using DCL capacity_ok.
  intros Hs Hreq Hb Hop. unfold handleGet. apply wp_bind, wp_this; [apply Hs|]. pose proof (echo_spec w own St Qu Rd A fs hdr data Hs Hop) as Hecho.
  destruct (echoResponseBuf_ (conn w)) as [|e es] eqn:He; [|by apply Hecho]. clear Hecho. apply wp_bind. unfold getCached.
  apply wp_bind, wp_gets. destruct (cache w) as [x|] eqn:Ec; [destruct body as [b|]|].
  - pose proof Hb as [Eb _]. apply wp_bind. eapply wp_lift; [rewrite Eb; by apply keyOf_ok|].
    pose proof (cs_cache _ _ _ _ _ _ _ Hs) as Hx. rewrite Ec in Hx. assert (H16 : is_uint 16 (specific hdr)) by (destruct Hreq as [(_ & _ & _ & _ & _ & ? & _)]; done).
    destruct (Get_law x A (specific hdr) (keyOf hdr data) Hx H16) as (x' & E & Hx'). apply wp_bind. eapply wp_lift; [exact E|].
    assert (Hsc : is_Some (Some x') <-> is_Some (cache w)) by (by rewrite Ec).
    apply wp_bind, wp_modify. destruct (cache_state _ _ _ _ _ _ _ (Some x') A Hs Hsc Hx') as [Hs1 Hp1]; [apply Hs|].
    cbn [snd fst]. destruct (A !! docKey (specific hdr) (keyOf hdr data)) as [d|] eqn:Ed.
    + apply wp_bind. assert (Hd : doc_ok d) by (by eapply (cs_docs _ _ _ _ _ _ _ Hs)).
      eapply wp_mono; [apply (addPending_spec _ _ (docFrame hdr d)); [apply Hs1|intros; by apply cachedReply_frame]|].
      intros _ w2 [Hio Ho]. apply wp_ret, wp_ret. eapply served_cache; [exact Hsc|]. eapply answered_as; [exact Hs1| |exact Hio|exact Ho]. by eapply serves_hit.
    + apply wp_ret. eapply wp_mono; [eapply queueGet_spec; [exact Hs1|done..]|]. intros u w2. by apply served_cache.
  - apply wp_ret. apply queueGet_spec; try done.
  - apply wp_ret. apply queueGet_spec; try done. unfold hasCache. by rewrite Ec.
Qed.

(** ** The bootstrap commands *)

(** Sizes of what the cryptographic library and the configuration return. *)
Record crypto_ok : Prop := mkCryptoOk {
  base64_length s : (length (base64 crypto s) <= 2 * length s + 4)%nat;
  HMAC_length a k m : (length (HMAC crypto a k m) <= 64)%nat;
  nonce_length s : (length (nonceSuffix crypto s) <= 64)%nat;
}.
Hypothesis Hcrypto : crypto_ok.
Hypothesis config_small : Z.of_nat (length (clusterConfig cfg)) < 2 ^ 32 /\ Z.of_nat (length (errorMap cfg)) < 2 ^ 32.

Lemma respond_served w own St Qu Rd A fs hdr data st value : conn_state w own St Qu Rd A fs -> is_uint 8 (opcode hdr) -> Z.of_nat (length value) < 2 ^ 32 ->
  written hdr data = None -> opcode_of (opcode hdr) <> Some OpGet ->
  wp (respond cfg junk hdr st value) (fun _ w' => served_request hdr data w own St Qu Rd A fs w') w.
Proof using writes_succeed junk_length. intros Hs Hop Hv Hw Hg. apply answered; try done. apply respond_spec; try done. apply Hs. Qed.
Lemma respondEmpty_served w own St Qu Rd A fs hdr data st : conn_state w own St Qu Rd A fs -> is_uint 8 (opcode hdr) ->
  written hdr data = None -> opcode_of (opcode hdr) <> Some OpGet ->
  wp (respondEmpty cfg junk hdr st) (fun _ w' => served_request hdr data w own St Qu Rd A fs w') w.
Proof using writes_succeed junk_length. intros Hs Hop Hw Hg. apply answered; try done. apply respondEmpty_spec; try done. apply Hs. Qed.

Lemma helloFeatures_length d : (length (helloFeatures d) <= length d)%nat.
Proof.
  enough (H : forall n d, (length d <= n)%nat -> (length (helloFeatures d) <= length d)%nat) by by eapply H.
  clear d. induction n as [|n IH]; intros d Hd; destruct d as [|a [|b d]]; cbn in *; try lia. specialize (IH d ltac:(lia)).
  rewrite length_app. case_match; cbn; lia.
Qed.

Lemma hello_served hdr data body w own St Qu Rd A fs : conn_state w own St Qu Rd A fs -> req_ok hdr data -> body_of body data ->
  written hdr data = None -> opcode_of (opcode hdr) <> Some OpGet ->
  wp (handleHello cfg junk hdr body) (fun _ w' => served_request hdr data w own St Qu Rd A fs w') w.
Proof using writes_succeed junk_length.
  intros Hs [Hwf Hby Hlen Hfit Hsm Hvb] Hb Hw Hg. assert (Hop : is_uint 8 (opcode hdr) /\ 0 <= keyLen hdr) by (destruct Hwf as (_ & ? & [? _] & _); done).
  destruct Hop as [Hop Hk]. unfold handleHello. destruct body as [b|]; [|by apply respond_served]. destruct Hb as [Eb _]. destruct (Z.ltb_spec (keyLen hdr) (bodyLen hdr)); [|by apply respond_served].
  destruct (bytesAt_ok data (keyLen hdr) (bodyLen hdr - keyLen hdr)) as [E El]; [lia|lia|lia|]. apply wp_bind. eapply wp_lift; [by rewrite Eb|].
  apply respond_served; try done. pose proof (helloFeatures_length (slice (Z.to_nat (keyLen hdr)) (Z.to_nat (bodyLen hdr - keyLen hdr)) data)). lia.
Qed.

Lemma saslBody_spec hdr data body w : req_ok hdr data -> body_of body data ->
  wp (saslBody hdr body) (fun x (w' : world) => w' = w /\ (length x.2 <= length data)%nat) w.
Proof.
  intros [Hwf Hby Hlen Hfit Hsm Hvb] Hb. destruct Hwf as (_ & _ & [Hk _] & [He _] & _). unfold saslBody. destruct body as [b|]; [|apply wp_ret; cbn; split; [done|lia]].
  destruct Hb as [Eb _]. rewrite Eb. destruct (bytesAt_ok data 0 (keyLen hdr)) as [E _]; [lia|lia|lia|]. apply wp_bind. eapply wp_lift; [exact E|]. apply wp_bind.
  destruct (Z.ltb_spec (keyLen hdr) (bodyLen hdr)).
  - destruct (bytesAt_ok data (keyLen hdr) (bodyLen hdr - keyLen hdr)) as [E2 El]; [lia|lia|lia|]. eapply wp_lift; [exact E2|]. apply wp_ret. cbn. split; [done|lia].
  - apply wp_ret, wp_ret. cbn. split; [done|lia].
Qed.

Lemma saslAuth_served hdr data body w own St Qu Rd A fs : conn_state w own St Qu Rd A fs -> req_ok hdr data -> body_of body data ->
  written hdr data = None -> opcode_of (opcode hdr) <> Some OpGet ->
  wp (handleSaslAuth cfg crypto junk hdr body) (fun _ w' => served_request hdr data w own St Qu Rd A fs w') w.
Proof using writes_succeed junk_length Hcrypto.
  intros Hs Hreq Hb Hw Hg. assert (Hop : is_uint 8 (opcode hdr)) by (destruct Hreq as [(_ & ? & _)]; done).
  unfold handleSaslAuth. apply wp_bind. eapply wp_mono; [by eapply saslBody_spec|]. intros [mech authData] w0 [-> Hl]. cbn in Hl.
  case_bool_decide; [by apply respondEmpty_served|]. apply wp_bind, wp_upd; [apply Hs|]. set (cn := clientNonce (clientFirstBare authData)). set (w1 := { w with conn := _ }).
  assert (Hs1 : conn_state w1 own St Qu Rd A fs). { destruct Hs as [[] ? ? ? ?]. by split. }
  eapply wp_mono; [apply (respond_served w1 own St Qu Rd A fs hdr data); try done|by intros].
  assert (Hcn : (length cn <= length authData)%nat). { unfold cn, clientNonce, clientFirstBare. repeat case_match; rewrite ?length_drop; cbn; lia. }
  unfold serverFirstMessage. rewrite !length_app. pose proof (nonce_length Hcrypto cn). pose proof (base64_length Hcrypto kSalt).
  destruct Hreq as [_ _ Hlen _ Hsm _]. change (length kSalt) with 17%nat in *. change (length (to_string kIterations)) with 4%nat. change (length (chars "r=")) with 2%nat. change (length (chars ",s=")) with 3%nat. change (length (chars ",i=")) with 3%nat. lia.
Qed.

Lemma saslStep_served hdr data body w own St Qu Rd A fs : conn_state w own St Qu Rd A fs -> req_ok hdr data -> body_of body data ->
  written hdr data = None -> opcode_of (opcode hdr) <> Some OpGet ->
  wp (handleSaslStep cfg crypto junk hdr body) (fun _ w' => served_request hdr data w own St Qu Rd A fs w') w.
Proof using writes_succeed junk_length Hcrypto.
  intros Hs Hreq Hb Hw Hg. assert (Hop : is_uint 8 (opcode hdr)) by (destruct Hreq as [(_ & ? & _)]; done).
  unfold handleSaslStep. apply wp_bind. eapply wp_mono; [by eapply saslBody_spec|]. intros [mech authData] w0 [-> Hl].
  apply wp_bind, wp_this; [apply Hs|]. apply respond_served; try done. rewrite length_app.
  match goal with |- context [base64 crypto ?s] => pose proof (base64_length Hcrypto s); assert (length s <= 64)%nat by apply (HMAC_length Hcrypto) end.
  change (length (chars "v=")) with 2%nat. lia.
Qed.

(** Every command does what the abstract server does. *)
Lemma dispatch_spec hdr data body w own St Qu Rd A fs : conn_state w own St Qu Rd A fs -> req_ok hdr data -> body_of body data ->
  Z.of_nat (length (St (specific hdr))) + 1 < 2 ^ 32 -> (forall k, pendingOf A k + 1 < 2 ^ 32) ->
  wp (dispatch cfg crypto junk copyCapacity hdr body) (fun _ w' => served_request hdr data w own St Qu Rd A fs w') w.
Proof using DCL writes_succeed junk_length capacity_ok Hcrypto config_small.
  intros Hs Hreq Hb Hlen Hpin. assert (H8 : is_uint 8 (opcode hdr)) by (destruct Hreq as [(_ & ? & _)]; done).
  assert (Hw : match opcode_of (opcode hdr) with Some OpGet | Some OpSet | Some OpDelete => True | _ => written hdr data = None /\ opcode_of (opcode hdr) <> Some OpGet end).
  { unfold written. by destruct (opcode_of (opcode hdr)) as [[]|]. }
  unfold dispatch. destruct (opcode_of (opcode hdr)) as [op|] eqn:Hop; [|destruct Hw as [Hw Hg]; apply respondEmpty_served; by rewrite ?Hop].
  destruct op; try destruct Hw as [Hw Hg]; try rewrite <- Hop in Hg.
  - by apply handleGet_spec.
  - by apply handleSet_spec.
  - by apply handleDelete_spec.
  - by apply respondEmpty_served.
  - by eapply hello_served.
  - unfold handleSaslListMechs. apply respond_served; try done; by vm_compute.
  - by eapply saslAuth_served.
  - by eapply saslStep_served.
  - by apply respondEmpty_served.
  - unfold handleGetClusterConfig. apply respond_served; try done. apply config_small.
  - unfold handleGetErrorMap. apply respond_served; try done. apply config_small.
Qed.
End handlers.
