(* ===== verification/ConnParse.v ===== *)
(** * What a wake-up of a connection does (connection.cc)

    The stream of requests a client sends, cut anywhere into the buffers the
    socket delivers: the parse loop ends, and every request it takes off the
    stream has been answered with one frame or is queued in the engine. *)
From stdpp Require Import prelude gmap list strings.
From Stdlib Require Import ZArith Lia.
From coqutil Require Import Datatypes.RecordSettersUsingExistingGetters.
From S2P Require Import Prelude Protocol DocCache Eff Request Dispatch ReadPath ConnState Connection ConnInv ConnIO ConnSpec.
Open Scope Z_scope.

(** ** The request stream *)
Definition req : Type := McbpHeader * list Z.
Definition reqBytes (x : req) : list Z := hdr_bytes (hton x.1) ++ x.2.
Definition stream (rs : list req) : list Z := rs ≫= reqBytes.
Lemma stream_cons x rs : stream (x :: rs) = reqBytes x ++ stream rs.
Proof. done. Qed.
Lemma stream_app rs rs' : stream (rs ++ rs') = stream rs ++ stream rs'.
Proof. apply bind_app. Qed.

Record good_req (x : req) : Prop := mkGoodReq {
  gr_ok : req_ok x.1 x.2;
  gr_magic : magic x.1 = kRequestMagic;
  gr_op : is_Some (opcode_of (opcode x.1));
}.

(** The start of a request that has not arrived in full. *)
Definition reqLen (s : list Z) : nat := (kHeaderSize + Z.to_nat (bodyLen (ntoh (hdr_of_bytes (take kHeaderSize s)))))%nat.
Definition incomplete (s : list Z) : Prop :=
  (length s < kHeaderSize)%nat \/
  (magic (hdr_of_bytes (take kHeaderSize s)) = kRequestMagic /\ is_Some (opcode_of (opcode (hdr_of_bytes (take kHeaderSize s)))) /\ (length s < reqLen s)%nat).

Lemma reqBytes_length x : good_req x -> length (reqBytes x) = (kHeaderSize + Z.to_nat (bodyLen x.1))%nat.
Proof. intros [[? ? E ? ? ?] _ _]. unfold reqBytes. rewrite length_app, length_hdr_bytes. lia. Qed.

Lemma head_req x t : good_req x ->
  hdr_of_bytes (take kHeaderSize (reqBytes x ++ t)) = hton x.1 /\ ntoh (hton x.1) = x.1 /\
  slice kHeaderSize (Z.to_nat (bodyLen x.1)) (reqBytes x ++ t) = x.2 /\ drop (length (reqBytes x)) (reqBytes x ++ t) = t.
Proof.
  intros [[Hwf ? E ? ? ?] _ _]. assert (Eh : length (hdr_bytes (hton x.1)) = kHeaderSize) by apply length_hdr_bytes.
  split; [|split; [by apply ntoh_hton|split]].
  - unfold reqBytes. rewrite <- app_assoc, take_app_length' by done. by apply hdr_of_hdr_bytes, hton_wf.
  - unfold slice, reqBytes. rewrite <- app_assoc, drop_app_length' by done. rewrite take_app_length'; [done|lia].
  - by rewrite drop_app_length.
Qed.

Lemma head_key x t : good_req x -> slice (kHeaderSize + Z.to_nat (extrasLen x.1)) (Z.to_nat (keyLen x.1)) (reqBytes x ++ t) = keyOf x.1 x.2.
Proof.
  intros [[(_ & _ & [Hk _] & [He _] & _) ? E Hfit ? ?] _ _]. unfold keyOf, slice, reqBytes. rewrite <- app_assoc, <- drop_drop, drop_app_length' by (by rewrite length_hdr_bytes).
  rewrite drop_app_le by lia. rewrite take_app_le; [done|]. rewrite length_drop. lia.
Qed.

(** The parser sees a complete request exactly when there is one. *)
Lemma stream_cases rs rest : Forall good_req rs -> incomplete rest ->
  incomplete (stream rs ++ rest) /\ rs = [] \/
  exists x rs', rs = x :: rs' /\ good_req x /\ stream rs ++ rest = reqBytes x ++ (stream rs' ++ rest) /\ reqLen (stream rs ++ rest) = length (reqBytes x).
Proof.
  intros Hrs Hrest. destruct rs as [|x rs']; [by left|]. right. exists x, rs'. inversion Hrs as [|? ? Hx]; subst. split; [done|]. split; [done|].
  assert (E : stream (x :: rs') ++ rest = reqBytes x ++ (stream rs' ++ rest)) by (cbn; by rewrite <- app_assoc). split; [done|].
  destruct (head_req x (stream rs' ++ rest) Hx) as (E1 & E2 & _). unfold reqLen. rewrite E, E1, E2. by rewrite reqBytes_length.
Qed.

(** A complete request at the front of a buffer is the first of the stream. *)
Lemma front_req rs rest b : Forall good_req rs -> incomplete rest -> b `prefix_of` stream rs ++ rest ->
  (kHeaderSize <= length b)%nat -> (reqLen b <= length b)%nat ->
  exists x rs' b', rs = x :: rs' /\ good_req x /\ b = reqBytes x ++ b' /\ b' `prefix_of` stream rs' ++ rest.
Proof.
  intros Hrs Hrest [k Hk] Hl Hr. assert (Et : take kHeaderSize (stream rs ++ rest) = take kHeaderSize b) by (rewrite Hk, take_app_le by lia; done).
  assert (El : length (stream rs ++ rest) = (length b + length k)%nat) by (by rewrite Hk, length_app).
  destruct (stream_cases rs rest Hrs Hrest) as [[[Hi|(_ & _ & Hi)] _]|(x & rs' & -> & Hx & E & Hlen)].
  - lia.
  - unfold reqLen in Hi, Hr. rewrite Et in Hi. lia.
  - assert (Elb : reqLen b = length (reqBytes x)) by (rewrite <- Hlen; unfold reqLen; by rewrite Et).
    exists x, rs', (drop (length (reqBytes x)) b). split; [done|]. split; [done|].
    assert (Eb : take (length (reqBytes x)) b = reqBytes x). { rewrite <- (take_app_le b k) by lia. rewrite <- Hk, E. by rewrite take_app_length. }
    split; [by rewrite <- Eb at 1; rewrite take_drop|]. exists k. rewrite <- drop_app_le by lia. rewrite <- Hk, E. by rewrite drop_app_length.
Qed.

(** ** Progress through the stream *)

Definition frames (os : list outcome) : list (list Z) := omap frameOf os.
Definition requests (os : list outcome) : list ptr := omap requestOf os.
Definition waiting (os : list outcome) : Z := foldr (fun o n => waitsFor o + n) 0 os.

Lemma frames_snoc os o : frames (os ++ [o]) = frames os ++ option_list (frameOf o).
Proof. unfold frames. rewrite omap_app. by f_equal. Qed.
Lemma requests_snoc os o : requests (os ++ [o]) = requests os ++ option_list (requestOf o).
Proof. unfold requests. rewrite omap_app. by f_equal. Qed.
Lemma waiting_snoc os o : waiting (os ++ [o]) = waiting os + waitsFor o.
Proof. unfold waiting. induction os as [|o' os IH]; cbn; [lia|]. lia. Qed.

(** The abstract server's run through a list of messages. *)
Inductive history (echo : list Z) (cached durable : bool) (A : docs) : list req -> list outcome -> docs -> Prop :=
  | history_nil : history echo cached durable A [] [] A
  | history_snoc d os A1 x o A2 : history echo cached durable A d os A1 -> serves echo cached durable x.1 x.2 A1 o A2 ->
      history echo cached durable A (d ++ [x]) (os ++ [o]) A2.

Section parse.
Context {Q K C : Type} `{IQ : IOBufQueue Q, IQL : !IOBufQueueLaws Q} `{SK : AsyncSocket K} `{DC : DocCache C, DCL : !DocCacheLaws C}.
Context (cfg : ConnConfig) (crypto : Crypto) (junk : nat -> list Z) (copyCapacity : nat -> Z) (now : Z -> Z).
Abbreviation world := (World Q K C).
Implicit Types (w : world) (own : gmap ptr place) (St Qu Rd : Z -> list ptr) (A : docs) (fs : list (list Z)) (hdr : McbpHeader).
Hypothesis writes_succeed : forall (k : K) b, (sock_write k b).2 <> WriteFailed.
Hypothesis junk_length : forall n, length (junk n) = n.
Hypothesis capacity_ok : forall n, 0 <= copyCapacity n.
Hypothesis Hcrypto : crypto_ok crypto.
Hypothesis config_small : Z.of_nat (length (clusterConfig cfg)) < 2 ^ 32 /\ Z.of_nat (length (errorMap cfg)) < 2 ^ 32.

(** What parsing never changes. *)
Definition fixedPart (w : world) :=
  let c := conn w in
  (self c, loop c, readCB c, sockOpen c, owner_ c, migrateTarget_ c, closing_ c, migrating_ c, echoResponseBuf_ c, readPaused_ c, writeLimited w, hasCache w).

Definition held (w : world) own (x : req) (o : outcome) : Prop := forall p, requestOf o = Some p -> holds x.1 x.2 o w own p.

(** From the state ([w0], [own0], ...) the requests [d] have been taken off the
    stream, with outcomes [os]. *)
Section progress.
Context (w0 : world) (own0 : gmap ptr place) (St0 Qu0 : Z -> list ptr) (A0 : docs) (fs0 : list (list Z)).

Record progress (d : list req) (os : list outcome) (w : world) (own : gmap ptr place) (St Rd : Z -> list ptr) (A : docs) : Prop := mkProgress {
  pr_state : conn_state w own St Qu0 Rd A (fs0 ++ frames os);
  pr_history : history (echoResponseBuf_ (conn w0)) (hasCache w0) (durable cfg) A0 d os A;
  pr_held : Forall2 (held w own) d os;
  pr_fixed : fixedPart w = fixedPart w0;
  pr_keeps : keepsq own0 own (b_heap (bucket w0)) (b_heap (bucket w));
  pr_fresh : Forall (not_queued own0) (requests os);
  pr_nodup : NoDup (requests os);
  pr_count : outstandingRequests_ (conn w) = outstandingRequests_ (conn w0) + waiting os;
  pr_staged v : (length (St v) <= length (St0 v) + length d)%nat;
  pr_pins k : pendingOf A k <= pendingOf A0 k + Z.of_nat (length d);
}.

Definition progressed (d : list req) (w : world) : Prop := exists os own St Rd A, progress d os w own St Rd A.

Lemma holds_keep hdr data o w own w' own' p : prog w own w' own' -> holds hdr data o w own p -> holds hdr data o w' own' p.
Proof.
  intros [Hb Hk] [Ho (r & Hr & Ha & Ec)]. assert (Es : self (conn w') = self (conn w)) by (unfold base in Hb; congruence).
  destruct Ho as [Ho|Ho]; destruct (Hk _ _ Ho) as [Ho' Hh]; try done.
  - split; [by left|]. exists r. rewrite Hh, Es. done.
  - split; [by right|]. exists r. rewrite Hh, Es. done.
Qed.
Lemma held_keep w own w' own' d os : prog w own w' own' -> Forall2 (held w own) d os -> Forall2 (held w' own') d os.
Proof. intros Hp H. eapply Forall2_impl; [exact H|]. intros x o Ho p Hq. by eapply holds_keep, Ho. Qed.
Lemma held_queued w own d os p : Forall2 (held w own) d os -> p ∈ requests os -> exists pl, own !! p = Some pl /\ queued pl.
Proof.
  intros H (o & Ho & Ep)%list_elem_of_omap. apply list_elem_of_lookup_1 in Ho as [i Hi]. destruct (Forall2_lookup_r _ _ _ _ _ H Hi) as (x & _ & Hx).
  destruct (Hx _ Ep) as [[Hw|Hw] _]; eexists; (split; [exact Hw|done]).
Qed.

(** One more request. *)
Lemma progress_step d os w own St Rd A x w' : progress d os w own St Rd A ->
  served_request cfg x.1 x.2 w own St Qu0 Rd A (fs0 ++ frames os) w' -> progressed (d ++ [x]) w' /\ readBuf_ (conn w') = readBuf_ (conn w).
Proof.
  intros [Hs Hh Ho Hf Hk Hfr Hnd Hc HS HP] (own' & St' & Rd' & A' & o & Hs' & Hb & Hk' & HS' & HP' & Hse & Hq & En).
  assert (Hbuf : readBuf_ (conn w') = readBuf_ (conn w)) by (unfold base in Hb; congruence). split; [|done].
  assert (Hpr : prog w own w' own') by done. assert (Hf' : fixedPart w' = fixedPart w0) by (rewrite <- Hf; unfold base in Hb; unfold fixedPart, hasCache; congruence).
  assert (Ee : echoResponseBuf_ (conn w) = echoResponseBuf_ (conn w0) /\ hasCache w = hasCache w0) by (unfold fixedPart in Hf; split; congruence).
  destruct Ee as [Ee1 Ee2]. rewrite Ee1, Ee2 in Hse. exists (os ++ [o]), own', St', Rd', A'. split.
  - by rewrite frames_snoc, app_assoc.
  - by eapply history_snoc.
  - apply Forall2_app; [by eapply held_keep|]. apply Forall2_cons. split; [|constructor]. intros p Hp. by apply Hq.
  - done.
  - intros y pl Hy H1 H2. destruct (Hk y pl Hy H1 H2) as [Hy2 F]. destruct (Hk' y pl Hy2 H1 H2). split; congruence.
  - rewrite requests_snoc. apply Forall_app. split; [done|]. destruct (requestOf o) as [p|] eqn:Ep; [|constructor]. constructor; [|done].
    intros pl Hpl [H1 H2]. destruct (Hk _ _ Hpl H1 H2) as [Hpl' _]. destruct (Hq p eq_refl) as [_ Hn]. by destruct (Hn _ Hpl').
  - rewrite requests_snoc. destruct (requestOf o) as [p|] eqn:Ep; cbn; [|by rewrite app_nil_r]. apply NoDup_app. split; [done|]. split; [|apply NoDup_singleton].
    intros y Hy ->%list_elem_of_singleton. destruct (held_queued _ _ _ _ _ Ho Hy) as (pl & Hpl & Hqd). destruct (Hq p eq_refl) as [_ Hn]. by destruct (Hn _ Hpl).
  - rewrite waiting_snoc. lia.
  - intros v. specialize (HS v). specialize (HS' v). rewrite length_app. cbn. lia.
  - intros k. specialize (HP k). specialize (HP' k). rewrite length_app. cbn. lia.
Qed.

(** Changes of the connection that parsing makes on its own. *)
Lemma progress_conn d w w' : progressed d w -> live (conn w') -> mem w' = mem w -> cache w' = cache w ->
  wrote (log w') = wrote (log w) -> pendingWriteBuf_ (conn w') = pendingWriteBuf_ (conn w) ->
  outstandingRequests_ (conn w') = outstandingRequests_ (conn w) -> fixedPart w' = fixedPart w -> progressed d w'.
Proof.
  intros (os & own & St & Rd & A & [[Hl Hi Hc Hd Ho] Hh H2 Hf Hk Hfr Hnd Hn HS HP]) Hl' Em Ec E1 E2 E3 E4.
  assert (Eb : bucket w' = bucket w) by (unfold mem in Em; congruence). exists os, own, St, Rd, A. split; try done.
  - split; [done|by rewrite Em|by rewrite Ec|done|by eapply out_rep_ext].
  - eapply Forall2_impl; [exact H2|]. intros x o Hx p Hp. destruct (Hx p Hp) as [Hpl (r & Hr & Ha & Er)]. split; [done|]. exists r. rewrite Eb.
    split; [done|]. split; [done|]. intros Ew. rewrite (Er Ew). unfold fixedPart in E4. congruence.
  - congruence.
  - by rewrite Eb.
  - congruence.
Qed.

Lemma progress_io d w w' : progressed d w -> io w w' -> (forall fs, out_rep w fs -> out_rep w' fs) -> progressed d w'.
Proof.
  intros (os & own & St & Rd & A & [Hs Hh H2 Hf Hk Hfr Hnd Hn HS HP]) Hio Ho. pose proof (prog_io _ _ own Hio) as Hp. exists os, own, St, Rd, A.
  pose proof (io_fields _ _ Hio) as (_ & Eb & _). split; try done.
  - eapply conn_state_io; [exact Hs|done|]. apply Ho, Hs.
  - by eapply held_keep.
  - rewrite <- Hf. destruct Hp as [Hb _]. unfold base in Hb. unfold fixedPart, hasCache. congruence.
  - by rewrite Eb.
  - rewrite (io_outstanding _ _ Hio). done.
Qed.

(** A handler run on a progressed state. *)
Definition small (n : nat) : Prop := (forall v, Z.of_nat (length (St0 v) + n) < 2 ^ 32) /\ (forall k, pendingOf A0 k + Z.of_nat n < 2 ^ 32).

Lemma progressed_live d w : progressed d w -> live (conn w).
Proof. intros (os & own & St & Rd & A & H). apply H. Qed.
Lemma progressed_fixed d w : progressed d w -> fixedPart w = fixedPart w0.
Proof. intros (os & own & St & Rd & A & H). apply H. Qed.

Lemma progress_dispatch d w x body : progressed d w -> req_ok x.1 x.2 -> body_of body x.2 -> small (length d + 1) ->
  wp (dispatch cfg crypto junk copyCapacity x.1 body) (fun _ w' => progressed (d ++ [x]) w' /\ readBuf_ (conn w') = readBuf_ (conn w)) w.
Proof using All.
  intros (os & own & St & Rd & A & H) Hreq Hb [Hs1 Hs2]. eapply wp_mono; [eapply dispatch_spec; try done; [apply H|..]|].
  - pose proof (pr_staged _ _ _ _ _ _ _ H (specific x.1)). specialize (Hs1 (specific x.1)). lia.
  - intros k. pose proof (pr_pins _ _ _ _ _ _ _ H k). specialize (Hs2 k). lia.
  - intros u w'. by apply (progress_step _ _ _ _ _ _ _ _ _ H).
Qed.

(** ** One request *)
Lemma consume_spec x rs rest done w : progressed done w -> good_req x -> small (length done + 1) ->
  contents (readBuf_ (conn w)) = reqBytes x ++ (stream rs ++ rest) ->
  wp (consume cfg crypto junk copyCapacity x.1) (fun _ w' => progressed (done ++ [x]) w' /\ contents (readBuf_ (conn w')) = stream rs ++ rest) w.
Proof using All.
  intros Hp Hx Hsm Hb. pose proof (gr_ok _ Hx) as Hok. pose proof (progressed_live _ _ Hp) as Hl. pose proof (rq_len _ _ Hok) as Hlen.
  assert (Hbl : 0 <= bodyLen x.1) by lia. unfold consume. apply wp_bind, wp_upd; [apply Hl|]. set (q1 := trimStart _ _). set (w1 := { w with conn := _ }).
  assert (Eq1 : contents q1 = x.2 ++ (stream rs ++ rest)).
  { unfold q1. rewrite trimStart_law, Hb. unfold reqBytes. rewrite <- app_assoc. rewrite drop_app_length'; [done|]. by rewrite length_hdr_bytes. }
  assert (Hl1 : live (conn w1)) by (destruct Hl; by split). assert (Hp1 : progressed done w1) by (by eapply progress_conn; [exact Hp|exact Hl1|..]).
  apply wp_bind, wp_this; [apply Hl1|]. change (readBuf_ (conn w1)) with q1. destruct (Z.ltb_spec 0 (bodyLen x.1)).
  - destruct (qsplit_law q1 (Z.to_nat (bodyLen x.1))) as (E1 & E2 & E3). destruct (qsplit q1 (Z.to_nat (bodyLen x.1))) as [body q2]. cbn in E1, E2, E3.
    rewrite Eq1, take_app_length' in E1 by lia. rewrite Eq1, drop_app_length' in E2 by lia.
    apply wp_bind, wp_upd; [apply Hl1|]. set (w2 := { w1 with conn := _ }). assert (Hl2 : live (conn w2)) by (destruct Hl1; by split).
    assert (Hp2 : progressed done w2) by (by eapply progress_conn; [exact Hp1|exact Hl2|..]).
    eapply wp_mono; [by eapply (progress_dispatch done w2 x)|]. intros u w3 [Hp3 E]. split; [done|]. rewrite E. exact E2.
  - assert (E : x.2 = []) by (apply nil_length_inv; lia).
    eapply wp_mono; [by eapply (progress_dispatch done w1 x)|]. intros u w3 [Hp3 E']. split; [done|]. rewrite E'. change (readBuf_ (conn w1)) with q1. by rewrite Eq1, E.
Qed.

(** ** The run of cached GETs *)
Lemma cached_answer d w x A own St Rd os doc : progress d os w own St Rd A -> opcode_of (opcode x.1) = Some OpGet -> echoResponseBuf_ (conn w0) = [] ->
  hasCache w0 = true -> A !! docKey (specific x.1) (keyOf x.1 x.2) = Some doc ->
  wp (addPending (cachedReply x.1 doc)) (fun _ w' => progressed (d ++ [x]) w' /\ readBuf_ (conn w') = readBuf_ (conn w) /\ cache w' = cache w) w.
Proof using All.
  intros H Hop He Hc Hd. eapply wp_mono; [apply (addPending_spec _ _ (docFrame x.1 doc)); [apply H|intros; apply cachedReply_frame; by eapply (cs_docs _ _ _ _ _ _ _ (pr_state _ _ _ _ _ _ _ H))]|].
  intros u w' [Hio Ho]. pose proof (io_fields _ _ Hio) as (_ & _ & _ & _ & Ec & _).
  enough (HH : progressed (d ++ [x]) w' /\ readBuf_ (conn w') = readBuf_ (conn w)) by (destruct HH; done).
  apply (progress_step _ _ _ _ _ _ _ _ _ H). eapply answered_as; [apply H| |exact Hio|exact Ho]. pose proof (pr_fixed _ _ _ _ _ _ _ H) as Hf.
  eapply serves_hit; [done| | |done]; unfold fixedPart in Hf; congruence.
Qed.

Lemma progress_schedule d w : progressed d w ->
  wp (scheduleFlush cfg) (fun _ w' => progressed d w' /\ readBuf_ (conn w') = readBuf_ (conn w) /\ cache w' = cache w) w.
Proof using All.
  intros Hp. eapply wp_mono; [apply scheduleFlush_spec; [done|by eapply progressed_live]|]. intros u w' [Hio Ho].
  pose proof (io_fields _ _ Hio) as (Ek & _ & _ & _ & Ec & _). split; [by eapply progress_io|]. split; [|done]. unfold kept in Ek. congruence.
Qed.

Lemma cachedRun_spec fuel : forall b off rs rest done w, progressed done w -> Forall good_req rs -> incomplete rest -> b `prefix_of` stream rs ++ rest ->
  (length b < fuel)%nat -> cache w <> None -> hasCache w0 = true -> echoResponseBuf_ (conn w0) = [] -> small (length done + length rs) ->
  wp (cachedRun cfg fail fuel b off) (fun n w' => exists d rs', rs = d ++ rs' /\ n = (off + length (stream d))%nat /\ progressed (done ++ d) w' /\
    readBuf_ (conn w') = readBuf_ (conn w) /\ cache w' <> None) w.
Proof using All.
  induction fuel as [|fuel IH]; intros b off rs rest done w Hp Hrs Hrest Hb Hf Hc Hc0 He0 Hsm; [lia|]. cbn [cachedRun].
  assert (Hstop : forall w', progressed done w' -> readBuf_ (conn w') = readBuf_ (conn w) -> cache w' <> None ->
    exists d rs', rs = d ++ rs' /\ off = (off + length (stream d))%nat /\ progressed (done ++ d) w' /\ readBuf_ (conn w') = readBuf_ (conn w) /\ cache w' <> None).
  { intros w' H1 H2 H3. exists [], rs. cbn. rewrite app_nil_r. split_and!; try done. }
  case_match eqn:Eg; [by apply wp_ret, Hstop|]. rewrite !orb_false_iff, !negb_false_iff in Eg. destruct Eg as [[[[G1 G2] G3] G4] G5].
  apply Nat.ltb_ge in G1, G4. change (kHeaderSize + Z.to_nat (bodyLen (ntoh (hdr_of_bytes (take kHeaderSize b)))))%nat with (reqLen b) in *.
  destruct (front_req rs rest b Hrs Hrest Hb G1 G4) as (x & rs' & b' & -> & Hx & -> & Hb'). apply Forall_cons in Hrs as [_ Hrs].
  destruct (head_req x b' Hx) as (E1 & E2 & E3 & E4). assert (El : reqLen (reqBytes x ++ b') = length (reqBytes x)).
  { unfold reqLen. rewrite E1, E2. by rewrite reqBytes_length. }
  rewrite El, E1, E2, E4 in *. pose proof (gr_ok _ Hx) as Hok.
  assert (Hu : is_uint 8 (opcode x.1) /\ is_uint 16 (specific x.1)) by (destruct Hok as [(_ & ? & _ & _ & _ & ? & _)]; done). destruct Hu as [Hop H16].
  apply wp_bind, wp_gets. destruct (cache w) as [y|] eqn:Ec; [|done]. apply wp_bind. eapply wp_lift; [reflexivity|].
  destruct Hp as (os & own & St & Rd & A & H). pose proof (cs_cache _ _ _ _ _ _ _ (pr_state _ _ _ _ _ _ _ H)) as Hy. rewrite Ec in Hy.
  assert (Hget : opcode_of (opcode x.1) = Some OpGet) by (apply Z.eqb_eq in G3; cbn in G3; rewrite G3; reflexivity).
  rewrite (head_key x b' Hx). set (key := keyOf x.1 x.2) in *. destruct (GetCopy_law y A (specific x.1) key kMaxValueScratch Hy H16) as (y' & EG & Hy'). apply wp_bind. eapply wp_lift; [exact EG|].
  apply wp_bind, wp_modify. cbn [fst snd]. set (w1 := { w with cache := _ }).
  assert (Hsc : is_Some (Some y') <-> is_Some (cache w)) by (by rewrite Ec).
  assert (H1 : progress done os w1 own St Rd A).
  { destruct H as [Hs Hh H2 Hfx Hk Hfr Hnd Hn HS HP]. split; try done; [apply (cache_state _ _ _ _ _ _ _ (Some y') A Hs Hsc Hy'), Hs|].
    rewrite <- Hfx. unfold fixedPart, hasCache. cbn. unfold const. by rewrite Ec. }
  assert (Hp1 : progressed done w1) by (by exists os, own, St, Rd, A).
  assert (Hhit : forall d, A !! docKey (specific x.1) key = Some d -> wp (addPending (cachedReply x.1 d);; c ← this; when (negb (flushScheduled_ c)) (scheduleFlush cfg);;
      c2 ← this; if (flushBytes cfg <=? length (pendingWriteBuf_ c2))%nat then mret (off + length (reqBytes x))%nat else cachedRun cfg fail fuel b' (off + length (reqBytes x)))
    (fun n w' => exists d rs0, x :: rs' = d ++ rs0 /\ n = (off + length (stream d))%nat /\ progressed (done ++ d) w' /\ readBuf_ (conn w') = readBuf_ (conn w) /\ cache w' <> None) w1).
  { intros d Hd. apply wp_bind. eapply wp_mono; [by eapply cached_answer|].
    intros u w2 (Hp2 & Eb2 & Ec2). apply wp_bind, wp_this; [by eapply live_alive, progressed_live|]. apply wp_bind.
    apply (wp_mono _ (fun _ w3 => progressed (done ++ [x]) w3 /\ readBuf_ (conn w3) = readBuf_ (conn w2) /\ cache w3 = cache w2)).
    { apply wp_when; [|done]. intros _. by apply progress_schedule. }
    intros _ w3 (Hp3 & Eb3 & Ec3). apply wp_bind, wp_this; [by eapply live_alive, progressed_live|].
    assert (Hc3 : cache w3 <> None) by (rewrite Ec3, Ec2; done). assert (Eb : readBuf_ (conn w3) = readBuf_ (conn w)) by (rewrite Eb3, Eb2; done).
    destruct (Nat.leb_spec (flushBytes cfg) (length (pendingWriteBuf_ (conn w3)))).
    - apply wp_ret. exists [x], rs'. cbn. rewrite app_nil_r. done.
    - eapply wp_mono; [eapply (IH b' (off + length (reqBytes x))%nat rs' rest (done ++ [x]) w3); try done|].
      + rewrite length_app in Hf. pose proof (reqBytes_length x Hx). unfold kHeaderSize in *. lia.
      + rewrite length_app. cbn in *. by replace (length done + 1 + length rs')%nat with (length done + S (length rs'))%nat by lia.
      + intros n w4 (d' & rs0 & -> & -> & Hp4 & Eb4 & Hc4). exists (x :: d'), rs0. rewrite stream_cons, length_app. rewrite <- app_assoc in Hp4. cbn in Hp4.
        split_and!; [done|lia|done|congruence|done]. }
  destruct (getCopy_result _ _) eqn:Er; destruct (A !! docKey (specific x.1) key) as [d|] eqn:Ed; try (apply wp_ret, Hstop; done); by apply Hhit.
Qed.

(** ** The parse loop *)
Context (rs0 : list req) (rest : list Z).
Hypothesis rs0_good : Forall good_req rs0.
Hypothesis rest_incomplete : incomplete rest.
Hypothesis rs0_small : small (length rs0).

Definition parsing (d rs : list req) (w : world) : Prop :=
  rs0 = d ++ rs /\ progressed d w /\ contents (readBuf_ (conn w)) = stream rs ++ rest.
Definition parsed (w : world) : Prop := exists d rs, parsing d rs w.
Definition stopped (w : world) : Prop := exists d rs, parsing d rs w /\ (rs = [] \/ stageFull_ (conn w) = true).
Definition unread (w : world) : nat := length (contents (readBuf_ (conn w))).

Lemma parsing_small d x rs : rs0 = d ++ x :: rs -> small (length d + length (x :: rs)) /\ small (length d + 1).
Proof using All.
  intros E. destruct rs0_small as [H1 H2]. rewrite E, length_app in H1, H2. cbn [length] in *. split; (split; [intros v; specialize (H1 v)|intros k; specialize (H2 k)]); unfold req in *; lia.
Qed.

Lemma parsing_next d x rs w : rs0 = d ++ x :: rs -> progressed (d ++ [x]) w -> contents (readBuf_ (conn w)) = stream rs ++ rest -> parsing (d ++ [x]) rs w.
Proof. intros E Hp Hc. split; [by rewrite <- app_assoc|done]. Qed.

Definition stepped (n : nat) (b : bool) (w' : world) : Prop := if b then parsed w' /\ (unread w' < n)%nat else stopped w'.

Lemma req_nonempty x : good_req x -> (0 < length (reqBytes x))%nat.
Proof. intros Hx. rewrite (reqBytes_length x Hx). unfold kHeaderSize. lia. Qed.

Lemma consume_step d x rs w : parsing d (x :: rs) w -> wp (consume cfg crypto junk copyCapacity x.1;; mret true) (stepped (unread w)) w.
Proof using All.
  intros (E & Hp & Hb). assert (Hx : good_req x) by (rewrite E, Forall_app, Forall_cons in rs0_good; tauto).
  rewrite stream_cons, <- app_assoc in Hb. apply wp_bind. eapply wp_mono; [apply (consume_spec x rs rest); try done; by eapply parsing_small|].
  intros u w' [Hp' Hb']. apply wp_ret. split; [exists (d ++ [x]), rs; by apply parsing_next|]. unfold unread. rewrite Hb, Hb', !length_app. pose proof (req_nonempty x Hx). lia.
Qed.

Lemma serveCachedGets_spec d rs w : parsing d rs w -> cache w <> None -> echoResponseBuf_ (conn w) = [] ->
  wp (serveCachedGets cfg) (fun n w' => if (0 <? n)%nat then stepped (unread w) true w' else parsing d rs w') w.
Proof using All.
  intros (E & Hp & Hb) Hc He. assert (Hrs : Forall good_req rs) by (rewrite E, Forall_app in rs0_good; tauto).
  pose proof (progressed_fixed _ _ Hp) as Hf. assert (Hf2 : hasCache w0 = hasCache w /\ echoResponseBuf_ (conn w0) = []) by (unfold fixedPart in Hf; split; congruence).
  destruct Hf2 as [Hf2 Hf3]. assert (Hc0 : hasCache w0 = true) by (rewrite Hf2; unfold hasCache; by destruct (cache w)).
  unfold serveCachedGets. apply wp_bind, wp_this; [by eapply live_alive, progressed_live|].
  destruct (front (readBuf_ (conn w))) as [b|] eqn:Ef; [|by apply wp_ret].
  apply front_law in Ef. rewrite Hb in Ef. apply wp_bind. eapply wp_mono; [eapply (cachedRun_spec (1 + length b) b 0 rs rest d w); try done; [lia|..]|].
  { by rewrite <- length_app, <- E. }
  intros n w' (d' & rs' & -> & -> & Hp' & Eb & Hc'). cbn [Nat.add]. apply wp_bind. destruct (Nat.ltb_spec 0 (length (stream d'))) as [Hd'|Hd']; cbn [when].
  - apply wp_bind, wp_upd; [by eapply live_alive, progressed_live|]. set (w2 := { w' with conn := _ }). pose proof (progressed_live _ _ Hp') as Hl'.
    assert (Hl2 : live (conn w2)) by (destruct Hl'; by split). assert (Hp2 : progressed (d ++ d') w2) by (by eapply progress_conn; [exact Hp'|exact Hl2|..]).
    eapply wp_mono; [by apply progress_schedule|]. intros u w3 (Hp3 & Eb3 & _). apply wp_ret.
    assert (Ec3 : contents (readBuf_ (conn w3)) = stream rs' ++ rest).
    { rewrite Eb3. change (contents (trimStart (readBuf_ (conn w')) (length (stream d'))) = stream rs' ++ rest).
      rewrite trimStart_law, Eb, Hb, stream_app, <- app_assoc. by rewrite drop_app_length. }
    rewrite (proj2 (Nat.ltb_lt _ _) Hd'). split.
    + exists (d ++ d'), rs'. split; [by rewrite <- app_assoc|done].
    + unfold unread. rewrite Ec3, Hb, stream_app, !length_app. lia.
  - apply wp_ret, wp_ret. rewrite (proj2 (Nat.ltb_ge _ _) Hd'). destruct d' as [|x d'].
    + cbn in Hp'. rewrite app_nil_r in Hp'. split; [done|]. split; [done|]. by rewrite Eb.
    + apply Forall_cons in Hrs as [Hx _]. rewrite stream_cons, length_app in Hd'. pose proof (req_nonempty x Hx). lia.
Qed.

Lemma serve_spec d x rs w op : parsing d (x :: rs) w -> opcode_of (opcode x.1) = Some op ->
  wp (serve cfg crypto junk copyCapacity x.1 op) (stepped (unread w)) w.
Proof using All.
  intros H Hop. pose proof H as (E & Hp & Hb). assert (Hx : good_req x) by (rewrite E, Forall_app, Forall_cons in rs0_good; tauto).
  pose proof (progressed_live _ _ Hp) as Hl. unfold serve. apply wp_bind, wp_this; [apply Hl|].
  destruct (bool_decide (op = OpGet) && bool_decide (echoResponseBuf_ (conn w) <> [])) eqn:Eg.
  - apply andb_prop in Eg as [Eget%bool_decide_eq_true Eg%bool_decide_eq_true]. apply wp_bind, wp_upd; [apply Hl|]. set (w1 := { w with conn := _ }).
    assert (Hl1 : live (conn w1)) by (destruct Hl; by split). assert (Hp1 : progressed d w1) by (by eapply progress_conn; [exact Hp|exact Hl1|..]).
    destruct Hp1 as (os & own & St & Rd & A & H1).
    apply wp_bind. unfold handleGet. apply wp_bind, wp_this; [apply Hl1|].
    pose proof (echo_spec cfg w1 own St Qu0 Rd A (fs0 ++ frames os) x.1 x.2 (pr_state _ _ _ _ _ _ _ H1)) as Hecho. rewrite Hop in Hecho.
    change (echoResponseBuf_ (conn w1)) with (echoResponseBuf_ (conn w)) in *. subst op. specialize (Hecho eq_refl Eg).
    destruct (echoResponseBuf_ (conn w)) as [|e es]; [done|].
    eapply wp_mono; [apply Hecho|]. intros u w2 H2.
    destruct (progress_step _ _ _ _ _ _ _ _ _ H1 H2) as [Hp2 Eb2]. apply wp_ret.
    assert (Ec : contents (readBuf_ (conn w2)) = stream rs ++ rest).
    { rewrite Eb2. change (contents (trimStart (readBuf_ (conn w)) (kHeaderSize + Z.to_nat (bodyLen x.1))) = stream rs ++ rest).
      rewrite trimStart_law, Hb, stream_cons, <- app_assoc, <- (reqBytes_length x Hx). by rewrite drop_app_length. }
    split; [exists (d ++ [x]), rs; by apply parsing_next|]. unfold unread. rewrite Ec, Hb, stream_cons, !length_app. pose proof (req_nonempty x Hx). lia.
  - apply wp_bind, wp_gets. apply wp_bind.
    apply (wp_mono _ (fun n w' => if (0 <? n)%nat then stepped (unread w) true w' else parsing d (x :: rs) w')).
    { destruct (bool_decide (op = OpGet) && bool_decide (is_Some (cache w))) eqn:Eg2; [|by apply wp_ret].
      apply andb_prop in Eg2 as [Eget Eg2%bool_decide_eq_true]. apply serveCachedGets_spec; [done|by destruct Eg2 as [? ->]|].
      rewrite Eget in Eg. cbn in Eg. by apply bool_decide_eq_false, dec_stable in Eg. }
    intros n w'. destruct (0 <? n)%nat; [by intros; apply wp_ret|]. intros H'. eapply wp_mono; [by eapply consume_step|].
    intros [] w''; cbn; [|done]. intros [H1 H2]. split; [done|]. destruct H' as (_ & _ & Hb'). unfold unread in *. congruence.
Qed.

Lemma parseAndDispatch_spec d rs w : parsing d rs w -> wp (parseAndDispatch cfg crypto junk copyCapacity) (stepped (unread w)) w.
Proof using All.
  intros H. pose proof H as (E & Hp & Hb). assert (Hrs : Forall good_req rs) by (rewrite E, Forall_app in rs0_good; tauto).
  pose proof (progressed_live _ _ Hp) as Hl. unfold parseAndDispatch. apply wp_bind, wp_this; [apply Hl|]. rewrite Hb.
  destruct (stream_cases rs rest Hrs rest_incomplete) as [[Hi ->]|(x & rs' & -> & Hx & E1 & E2)].
  - assert (Hst : stopped w) by (exists d, []; split; [done|by left]). set (s := stream [] ++ rest) in *.
    destruct (Nat.ltb_spec (length s) kHeaderSize); [by apply wp_ret|]. destruct Hi as [Hi|(H1 & [op H2] & H3)]; [lia|].
    rewrite H1, H2. change (negb (kRequestMagic =? kRequestMagic)) with false. cbn iota. unfold reqLen in H3. rewrite (proj2 (Nat.ltb_lt _ _) H3). by apply wp_ret.
  - destruct (head_req x (stream rs' ++ rest) Hx) as (F1 & F2 & _). pose proof (reqBytes_length x Hx) as El.
    assert (Hlen : (length (reqBytes x) <= length (stream (x :: rs') ++ rest))%nat) by (rewrite E1, length_app; lia).
    assert (Er : hdr_of_bytes (take kHeaderSize (stream (x :: rs') ++ rest)) = hton x.1) by (by rewrite E1).
    rewrite (proj2 (Nat.ltb_ge _ _)) by lia. rewrite Er, F2. cbn [hton magic opcode]. rewrite (gr_magic _ Hx).
    change (negb (kRequestMagic =? kRequestMagic)) with false. cbn iota. destruct (gr_op _ Hx) as [op Hop]. rewrite Hop.
    rewrite (proj2 (Nat.ltb_ge _ _)) by lia. apply wp_bind.
    apply (wp_mono _ (fun _ w' => parsing d (x :: rs') w')).
    { case_bool_decide; [|by apply wp_ret]. unfold TakeWriteToken. apply wp_bind, wp_get. destruct (writeLimited w); [|by apply wp_ret].
      apply wp_bind, wp_modify, wp_ret. split; [done|]. split; [|done]. by eapply progress_conn; [exact Hp|exact Hl|..]. }
    intros [] w' H'.
    + eapply wp_mono; [by eapply serve_spec|]. destruct H' as (_ & _ & Hb'). unfold unread. rewrite Hb, Hb'. done.
    + destruct H' as (_ & Hp' & Hb'). pose proof (progressed_live _ _ Hp') as Hl'. apply wp_bind, wp_upd; [apply Hl'|]. set (w2 := { w' with conn := _ }).
      assert (Hl2 : live (conn w2)) by (destruct Hl'; by split). apply wp_ret. exists d, (x :: rs'). split; [|by right]. split; [done|]. split; [|done].
      by eapply progress_conn; [exact Hp'|exact Hl2|..].
Qed.

Lemma parseLoop_spec w : parsed w -> wp (parseLoop cfg crypto junk copyCapacity) (fun _ w' => stopped w') w.
Proof using All.
  intros Hw. unfold parseLoop. assert (Hl : live (conn w)) by (destruct Hw as (d & rs & _ & Hp & _); by eapply progressed_live).
  apply wp_bind, wp_this; [apply Hl|]. apply (wp_while _ parsed unread (fun _ w' => stopped w')); [|done|unfold unread; lia].
  clear w Hw Hl. intros w (d & rs & H). pose proof H as (_ & Hp & _). pose proof (progressed_live _ _ Hp) as Hl. unfold parseStep.
  apply wp_bind, wp_this; [apply Hl|]. rewrite (live_open _ Hl). cbn [orb]. destruct (stageFull_ (conn w)) eqn:Ef.
  - apply wp_ret. exists d, rs. split; [done|by right].
  - eapply wp_mono; [by eapply parseAndDispatch_spec|]. by intros [].
Qed.

(** ** The rest of a wake-up *)
Definition delivered (w : world) (own : gmap ptr place) (x : req) (o : outcome) : Prop :=
  forall p, requestOf o = Some p ->
    (own !! p = Some (Queued (specific x.1)) \/ own !! p = Some (Reading (specific x.1))) /\
    exists r, b_heap (bucket w) !! p = Some r /\ asks x.1 x.2 r /\ (waitsFor o = 1 -> r_conn r = Some (self (conn w))).

(** The requests [d] of the stream are done with, [rs] are not yet parsed. *)
Record woken (d rs : list req) (os : list outcome) (w : world) (own : gmap ptr place) (Qu Rd : Z -> list ptr) (A : docs) : Prop := mkWoken {
  wk_stream : rs0 = d ++ rs /\ contents (readBuf_ (conn w)) = stream rs ++ rest;
  wk_state : conn_state w own (fun _ => []) Qu Rd A (fs0 ++ frames os);
  wk_history : history (echoResponseBuf_ (conn w0)) (hasCache w0) (durable cfg) A0 d os A;
  wk_queued : Forall2 (delivered w own) d os;
  wk_fresh : Forall (not_queued own0) (requests os) /\ NoDup (requests os);
  wk_count : outstandingRequests_ (conn w) = outstandingRequests_ (conn w0) + waiting os;
  wk_self : self (conn w) = self (conn w0);
}.

Definition wakes (w : world) (more : world -> Prop) : Prop := exists d rs os own Qu Rd A, woken d rs os w own Qu Rd A /\ (rs = [] \/ more w).

Lemma woken_conn d rs os w own Qu Rd A w' : woken d rs os w own Qu Rd A -> live (conn w') -> mem w' = mem w -> cache w' = cache w ->
  out_rep w' (fs0 ++ frames os) -> outstandingRequests_ (conn w') = outstandingRequests_ (conn w) -> self (conn w') = self (conn w) ->
  readBuf_ (conn w') = readBuf_ (conn w) -> woken d rs os w' own Qu Rd A.
Proof.
  intros [[E1 E2] [Hl Hi Hc Hd Ho] Hh H2 Hfr Hn Hse] Hl' Em Ec Ho' En Es Eb. assert (Ebk : bucket w' = bucket w) by (unfold mem in Em; congruence).
  split; [by rewrite Eb|split; [done|by rewrite Em|by rewrite Ec|done|done]|done| |done|congruence|congruence].
  eapply Forall2_impl; [exact H2|]. intros x o Hx p Hp. destruct (Hx p Hp) as [Hpl (r & Hr & E3 & E4)]. split; [done|]. exists r. by rewrite Ebk, Es.
Qed.

Lemma flushStaged_wakes w : stopped w -> wp (flushStaged cfg now) (fun _ w' => wakes w' (fun w' => stageFull_ (conn w') = true) /\ fixedPart w' = fixedPart w0) w.
Proof using All.
  intros (d & rs & (E & (os & own & St & Rd & A & H) & Hb) & Hst). destruct H as [[Hl Hi Hc Hd Ho] Hhi H2 Hf Hk Hfr Hnd Hn HS HP].
  eapply wp_mono; [by apply flushStaged_spec|]. intros u w' (b' & t' & E' & Hi' & Hh & _). split; [|by rewrite <- Hf; rewrite E'].
  exists d, rs, os, (push <$> own), (fun v => St v ++ Qu0 v), Rd, A. split; [|by rewrite E']. split; try (by rewrite E'); try done.
  - split; [by rewrite E'|done|by rewrite E'|done|]. eapply out_rep_ext; [..|exact Ho]; by rewrite E'.
  - eapply Forall2_impl; [exact H2|]. intros x o Hx p Hp. destruct (Hx p Hp) as [Hpl (r & Hr & Ha & Ec)]. split.
    + rewrite !lookup_fmap. destruct Hpl as [->| ->]; [by left|by right].
    + apply (hooks_only_lookup _ _ _ _ Hh) in Hr as (u' & Hr). exists (set_hook u' r). rewrite E'. done.
  - rewrite E'. unfold fixedPart in Hf. cbn. congruence.
Qed.

Definition paused (w : world) : Prop := migrating_ (conn w0) = true \/ readPaused_ (conn w0) = true \/
  (readPaused_ (conn w) = true /\ readCB (conn w) = false /\ resumeTimeout_ (conn w) = true).

Lemma pauseForQueue_wakes w : wakes w (fun _ => True) -> fixedPart w = fixedPart w0 -> wp pauseForQueue (fun _ w' => wakes w' paused) w.
Proof using All.
  intros (d & rs & os & own & Qu & Rd & A & H & _) Hf. pose proof (wk_state _ _ _ _ _ _ _ _ H) as Hs. pose proof (cs_live _ _ _ _ _ _ _ Hs) as Hl.
  unfold pauseForQueue. apply wp_bind, wp_upd; [apply Hl|]. set (w1 := { w with conn := _ }). assert (Hl1 : live (conn w1)) by (destruct Hl; by split).
  assert (H1 : woken d rs os w1 own Qu Rd A) by (eapply woken_conn; [exact H|exact Hl1|..]; try done; apply Hs).
  apply wp_bind, wp_this; [apply Hl1|]. rewrite (live_open _ Hl1). cbn [orb].
  assert (Ef : migrating_ (conn w1) = migrating_ (conn w0) /\ readPaused_ (conn w1) = readPaused_ (conn w0)) by (unfold fixedPart in Hf; cbn; split; congruence).
  destruct Ef as [-> ->]. apply wp_when.
  - intros _. apply wp_upd; [apply Hl1|]. set (w2 := { w1 with conn := _ }). assert (Hl2 : live (conn w2)) by (destruct Hl1; by split).
    exists d, rs, os, own, Qu, Rd, A. split; [|by right; right; right]. eapply woken_conn; [exact H1|exact Hl2|..]; try done. apply H1.
  - intros E. exists d, rs, os, own, Qu, Rd, A. split; [done|]. right. unfold paused. destruct (migrating_ (conn w0)); [by left|].
    destruct (readPaused_ (conn w0)); [by right; left|]. destruct (live_loop _ Hl1) as [l El]. rewrite El in E. done.
Qed.

Lemma woken_io w w' : wakes w paused -> io w w' -> (forall fs, out_rep w fs -> out_rep w' fs) -> wakes w' paused.
Proof.
  intros (d & rs & os & own & Qu & Rd & A & H & Hm) Hio Ho. pose proof (wk_state _ _ _ _ _ _ _ _ H) as Hs. pose proof (io_fields _ _ Hio) as (Ek & _ & _ & _ & Ec & _).
  unfold kept in Ek. exists d, rs, os, own, Qu, Rd, A. split.
  - eapply woken_conn; [exact H|by eapply io_live, Hs|by apply io_mem|done|apply Ho, Hs|..]; congruence.
  - destruct Hm as [->|Hm]; [by left|]. right. unfold paused in *. destruct Hm as [?|[?|Hm]]; [by left|by right; left|]. right; right. split_and!; destruct Hm as (? & ? & ?); congruence.
Qed.

Lemma parseBuffered_wakes w : parsed w -> wp (parseBuffered cfg crypto junk copyCapacity now) (fun _ w' => wakes w' paused) w.
Proof using All.
  intros Hw. unfold parseBuffered. apply wp_bind. eapply wp_mono; [by apply parseLoop_spec|]. intros u w1 H1.
  apply wp_bind. eapply wp_mono; [by apply flushStaged_wakes|]. intros u' w2 [(d & rs & os & own & Qu & Rd & A & H & Hm) Hf].
  assert (Hl : live (conn w2)) by apply H. apply wp_bind, wp_this; [apply Hl|]. apply wp_when; intros Ef.
  - apply pauseForQueue_wakes; [|done]. exists d, rs, os, own, Qu, Rd, A. split; [done|by right].
  - exists d, rs, os, own, Qu, Rd, A. split; [done|]. destruct Hm; [by left|congruence].
Qed.

Lemma flushOrDefer_wakes w : wakes w paused -> wp (flushOrDefer cfg) (fun _ w' => wakes w' paused /\ (flushDelayUs cfg <= 0 -> pendingWriteBuf_ (conn w') = [])) w.
Proof using All.
  intros H. assert (Hl : live (conn w)) by (destruct H as (d & rs & os & own & Qu & Rd & A & H & _); apply H). unfold flushOrDefer. destruct (Z.ltb_spec 0 (flushDelayUs cfg)).
  - apply wp_bind, wp_this; [apply Hl|]. apply wp_when; [|intros _; split; [done|lia]]. intros _. eapply wp_mono; [by apply scheduleFlush_spec|].
    intros u w' [Hio Ho]. split; [by eapply woken_io|lia].
  - eapply wp_mono; [by apply flushPending_spec|]. intros u w' (Hio & E1 & E2). split; [|done]. eapply woken_io; [exact H|done|]. intros fs. by apply out_rep_flush.
Qed.
End progress.

End parse.
