(* ===== verification/ConnExamples.v ===== *)
(** * A concrete connection

    A new connection to an idle bucket with the S3-FIFO cache, an event loop
    buffer made of chunks and a socket that takes every byte. *)
From stdpp Require Import prelude gmap list strings.
From Stdlib Require Import ZArith Lia.
From coqutil Require Import Datatypes.RecordSettersUsingExistingGetters.
From S2P Require Import Prelude Protocol FlatIndex SeqnoIndex DocCache S3Fifo Cache CacheLaws Eff Request Magma PersistExamples Dispatch ReadPath ConnState Connection ConnInv ConnIO ConnSpec ConnParse.
Open Scope Z_scope.

#[local] Instance connDocCache : DocCache FluxCache := s3fifo_cache sampleHash.
#[local] Instance connDocCacheLaws : DocCacheLaws FluxCache := s3fifo_laws sampleHash.
#[local] Instance openSocket : AsyncSocket unit := {
  sock_write k _ := (k, WriteDone);
  sock_sendmsg k b := (k, Sent (length b));
}.

Definition sampleConfig (durable : bool) : ConnConfig :=
  mkConnConfig false 0 65536 durable 320 (mkEngineConfig 0 64) 1 64 (chars "{}") (chars "{}").
Definition sampleCrypto : Crypto := mkCrypto (fun _ => []) (fun _ _ _ => []) (fun s => s) (fun _ => [48]).
Definition zeros (n : nat) : list Z := replicate n 0.

Definition idleBucket : Bucket := mkBucket ∅ [emptyEShard; emptyEShard] 0 100000.
Definition idleReaders : Readers := mkReaders (replicate kMaxVBuckets emptyRQueue) [].
Definition sampleConn : Connection (list (list Z)) := newConnection 1 2 [] 0 [].
Definition sampleWorld (ca : option FluxCache) : World (list (list Z)) unit FluxCache :=
  mkWorld _ _ _ sampleConn idleBucket false 0 emptyStaging idleReaders ca None tt 0 [].

Lemma idle_inv ca : inv (mem (sampleWorld ca)) ∅ (fun _ => []) (fun _ => []) (fun _ => []).
Proof.
  split.
  - exists [], [], [[]; []]. split; [split; [done|done|repeat constructor]|]. split; [constructor|]. intros p. cbn. split; [set_solver|]. by rewrite lookup_empty.
  - intros p r. by rewrite lookup_empty.
  - intros p. cbn. by rewrite !lookup_empty.
  - apply emptyStaging_rep.
  - apply idle_queue_rep; [done|]. repeat constructor.
  - intros v Hv. exists emptyRQueue, [], []. split; [apply (lookup_replicate_2 kMaxVBuckets); unfold vb_ok in Hv; lia|].
    split; [split; [done|done|done|constructor]|done].
  - split; constructor.
  - intros v p. rewrite lookup_empty. set_solver.
  - intros v p. rewrite lookup_empty. set_solver.
  - intros v p. rewrite lookup_empty. set_solver.
Qed.

Lemma sample_state ca : opt_rep ca ∅ -> conn_state (sampleWorld ca) ∅ (fun _ => []) (fun _ => []) (fun _ => []) ∅ [].
Proof.
  intros Hc. split; [by split|apply idle_inv|done|apply map_Forall_empty|]. exists [], []. done.
Qed.

(** A SET, a GET of the same key and a GET of another, then half a header. *)
Definition reqHeader (op : Opcode) (klen elen vb blen opq : Z) : McbpHeader :=
  mkMcbpHeader kRequestMagic (opcode_value op) klen elen 0 vb blen opq 0.
Definition sampleStream : list req :=
  [(reqHeader OpSet 1 8 7 12 101, [0; 0; 0; 5; 0; 0; 0; 0; 97; 1; 2; 3]);
   (reqHeader OpGet 1 0 7 1 102, [97]); (reqHeader OpGet 1 0 9 1 103, [98])].
Lemma sampleStream_good : Forall good_req sampleStream.
Proof.
  repeat apply Forall_cons_2; [..|constructor]; (split; [split|reflexivity|eexists; vm_compute; reflexivity]); cbn;
    try (vm_compute; intuition congruence); repeat (constructor; [vm_compute; intuition congruence|]); constructor.
Qed.
Definition halfHeader : list Z := [0x80; 0; 0; 1].
Lemma halfHeader_incomplete : incomplete halfHeader.
Proof. left. vm_compute. lia. Qed.
Lemma sampleCrypto_ok : crypto_ok sampleCrypto.
Proof. split; intros; cbn; lia. Qed.
Lemma open_writes (k : unit) b : (sock_write k b).2 <> WriteFailed.
Proof. done. Qed.
Lemma sample_small n : Z.of_nat n < 2 ^ 32 -> small (fun _ => []) ∅ n.
Proof. intros Hn. split; [intros v; cbn; lia|]. intros k. unfold pendingOf. by rewrite lookup_empty. Qed.

Definition wake (cfg : ConnConfig) (data : list Z) : eff (World (list (list Z)) unit FluxCache) unit :=
  readDataAvailable cfg sampleCrypto zeros Z.of_nat (fun _ => 0) data.
Definition cachedWorld := sampleWorld (Some (newCache 100000 1)).

