(* ===== verification/ConnLoop.v ===== *)
(** * The parse loop ends on any input (connection.cc)

    Whatever the client sends, every round of the parse loop that continues has
    taken bytes off the queue, so the bound the model puts on the rounds is
    never what stops it. *)
From stdpp Require Import prelude gmap list strings.
From Stdlib Require Import ZArith Lia.
From coqutil Require Import Datatypes.RecordSettersUsingExistingGetters.
From S2P Require Import Prelude Protocol DocCache Eff Request Dispatch Magma PersistExamples ReadPath ConnState Connection ConnParse ConnExamples.
Open Scope Z_scope.

Section loop.
Context {Q K C : Type} `{IQ : IOBufQueue Q, IQL : !IOBufQueueLaws Q} `{SK : AsyncSocket K} `{DC : DocCache C}.
Context (cfg : ConnConfig) (crypto : Crypto) (junk : nat -> list Z) (copyCapacity : nat -> Z) (now : Z -> Z).
Abbreviation world := (World Q K C).
Definition buf (w : world) : Q := readBuf_ (conn w).
Abbreviation keepsbuf m := (keeps_field buf m).

Lemma keeps_this : keepsbuf this.
Proof. unfold this. keep. Qed.
Hint Resolve keeps_this : fields.
Lemma keeps_upd f : (forall c, readBuf_ (f c) = readBuf_ c) -> keepsbuf (upd f).
Proof.
  intros Hf w a w'. unfold upd, this, gets, modify, mbind, eff_bind. destruct (deleted (conn w)); [done|].
  cbn. intros [= _ <-]. apply Hf.
Qed.
Ltac kept := intros; keep_with ltac:(idtac; lazymatch goal with |- keeps_field _ (upd _) => apply keeps_upd; intros; first [reflexivity | repeat case_match; reflexivity] end).

Lemma kb_emit e : keepsbuf (emit e). Proof. unfold emit. kept. Qed.
Lemma kb_heap : keepsbuf heap. Proof. unfold heap. kept. Qed.
Lemma kb_setHeap h : keepsbuf (setHeap h). Proof. unfold setHeap. kept. Qed.
Hint Resolve kb_emit kb_heap kb_setHeap : fields.
Lemma kb_rget p : keepsbuf (rget p). Proof. unfold rget. kept. Qed.
Lemma kb_rput p r : keepsbuf (rput p r). Proof. unfold rput. kept. Qed.
Lemma kb_takeChain p : keepsbuf (takeChain p). Proof. unfold takeChain. kept. Qed.
Hint Resolve kb_rget kb_rput kb_takeChain : fields.
Lemma kb_newRequest : keepsbuf newRequest. Proof. unfold newRequest. kept. Qed.
Lemma kb_deleteRequest p : keepsbuf (deleteRequest p). Proof. unfold deleteRequest. kept. Qed.
Hint Resolve kb_newRequest kb_deleteRequest : fields.
Lemma kb_poolReturned p : keepsbuf (poolReturned p). Proof. unfold poolReturned. kept. Qed.
Hint Resolve kb_poolReturned : fields.
Lemma kb_refillPool : keepsbuf refillPool. Proof. unfold refillPool. kept. Qed.
Hint Resolve kb_refillPool : fields.
Lemma kb_acquireRequest : keepsbuf acquireRequest. Proof. unfold acquireRequest. kept. Qed.
Hint Resolve kb_acquireRequest : fields.
Lemma kb_acquireRequestFor v : keepsbuf (acquireRequestFor v). Proof. unfold acquireRequestFor, takeShardChain. kept. Qed.
Lemma kb_releaseRequest p : keepsbuf (releaseRequest p). Proof. unfold releaseRequest. kept. Qed.
Hint Resolve kb_acquireRequestFor kb_releaseRequest : fields.
Lemma kb_dropOutstanding k : keepsbuf (dropOutstanding k).
Proof. unfold dropOutstanding, onDrained, deleteThis, scheduleMigrateCheck. kept. Qed.
Lemma kb_scheduleMigrateCheck : keepsbuf scheduleMigrateCheck. Proof. unfold scheduleMigrateCheck. kept. Qed.
Hint Resolve kb_dropOutstanding kb_scheduleMigrateCheck : fields.
Lemma kb_writeDirectLocked l : keepsbuf (writeDirectLocked l). Proof. unfold writeDirectLocked, trySend. kept. Qed.
Lemma kb_releaseOutstanding k e : keepsbuf (releaseOutstanding k e). Proof. unfold releaseOutstanding. kept. Qed.
Hint Resolve kb_writeDirectLocked kb_releaseOutstanding : fields.
Lemma kb_chainReset l : forall h, keepsbuf (chainReset h l).
Proof. induction l as [|p l IH]; intros h; cbn; [kept|]. do 2 (apply keeps_bind; [kept|intros]). apply IH. Qed.
Hint Resolve kb_chainReset : fields.
Lemma kb_finishBatch l b : keepsbuf (finishBatch l b). Proof. unfold finishBatch, finishDirect. kept. Qed.
Lemma kb_sendChunks l : keepsbuf (sendChunks l).
Proof. induction l as [|x l IH]; cbn; kept. Qed.
Hint Resolve kb_finishBatch kb_sendChunks : fields.
Lemma kb_sendHeld l : keepsbuf (sendHeld l). Proof. unfold sendHeld. kept. Qed.
Hint Resolve kb_sendHeld : fields.
Lemma kb_drainPendingSends : keepsbuf drainPendingSends. Proof. unfold drainPendingSends. kept. Qed.
Hint Resolve kb_drainPendingSends : fields.
Lemma kb_destroy : keepsbuf destroy. Proof. unfold destroy. kept. Qed.
Hint Resolve kb_destroy : fields.
Lemma kb_writeSuccess : keepsbuf writeSuccess. Proof. unfold writeSuccess. kept. Qed.
Lemma kb_writeErr : keepsbuf writeErr. Proof. unfold writeErr. kept. Qed.
Hint Resolve kb_writeSuccess kb_writeErr : fields.
Lemma kb_socketWrite k b : keepsbuf (socketWrite k b). Proof. unfold socketWrite. kept. Qed.
Hint Resolve kb_socketWrite : fields.
Lemma kb_writeSpill : keepsbuf writeSpill. Proof. unfold writeSpill, writeOwned. kept. Qed.
Hint Resolve kb_writeSpill : fields.
Lemma kb_flushPending : keepsbuf (flushPending cfg). Proof. unfold flushPending, flushPendingImpl, writeOwned. kept. Qed.
Lemma kb_writeChainLocked b : keepsbuf (writeChainLocked cfg b). Proof. unfold writeChainLocked. kept. Qed.
Hint Resolve kb_flushPending kb_writeChainLocked : fields.
Lemma kb_scheduleFlush : keepsbuf (scheduleFlush cfg). Proof. unfold scheduleFlush. kept. Qed.
Hint Resolve kb_scheduleFlush : fields.
Lemma kb_respond h s v : keepsbuf (respond cfg junk h s v). Proof. unfold respond. kept. Qed.
Lemma kb_respondEmpty h s : keepsbuf (respondEmpty cfg junk h s). Proof. unfold respondEmpty. kept. Qed.
Lemma kb_saslBody h b : keepsbuf (saslBody h b). Proof. unfold saslBody. kept. Qed.
Lemma kb_addPending f : keepsbuf (addPending f). Proof. unfold addPending. kept. Qed.
Lemma kb_rupd p f : keepsbuf (rupd p f). Proof. unfold rupd. kept. Qed.
Lemma kb_withCache f : keepsbuf (withCache f). Proof. unfold withCache. kept. Qed.
Lemma kb_stageWrite p : keepsbuf (stageWrite cfg p). Proof. unfold stageWrite. kept. Qed.
Lemma kb_enqueueRead p : keepsbuf (enqueueRead cfg p). Proof. unfold enqueueRead. kept. Qed.
Hint Resolve kb_respond kb_respondEmpty kb_saslBody kb_addPending kb_rupd kb_withCache kb_stageWrite kb_enqueueRead : fields.
Lemma kb_sendWriteResponse p : keepsbuf (sendWriteResponse cfg p). Proof. unfold sendWriteResponse. kept. Qed.
Hint Resolve kb_sendWriteResponse : fields.
Lemma kb_stage h p b : keepsbuf (stage cfg h p b). Proof. unfold stage, stageDurable, stageAsync. kept. Qed.
Hint Resolve kb_stage : fields.
Lemma kb_handleGet h b : keepsbuf (handleGet cfg copyCapacity h b). Proof. unfold handleGet, getCached, queueGet. kept. Qed.
Hint Resolve kb_handleGet : fields.
Lemma kb_handleHello h b : keepsbuf (handleHello cfg junk h b). Proof. unfold handleHello. kept. Qed.
Lemma kb_handleSaslAuth h b : keepsbuf (handleSaslAuth cfg crypto junk h b). Proof. unfold handleSaslAuth. kept. Qed.
Lemma kb_handleSaslStep h b : keepsbuf (handleSaslStep cfg crypto junk h b). Proof. unfold handleSaslStep. kept. Qed.
Lemma kb_handleSet h b : keepsbuf (handleSet cfg copyCapacity h b). Proof. unfold handleSet. kept. Qed.
Lemma kb_handleDelete h b : keepsbuf (handleDelete cfg copyCapacity h b). Proof. unfold handleDelete. kept. Qed.
Lemma kb_dispatch h b : keepsbuf (dispatch cfg crypto junk copyCapacity h b).
Proof.
  unfold dispatch. destruct (opcode_of (opcode h)) as [[]|];
    [apply kb_handleGet|apply kb_handleSet|apply kb_handleDelete|apply kb_respondEmpty|apply kb_handleHello|apply kb_respond|apply kb_handleSaslAuth
    |apply kb_handleSaslStep|apply kb_respondEmpty|apply kb_respond|apply kb_respond|apply kb_respondEmpty].
Qed.
Hint Resolve kb_dispatch : fields.
Lemma kb_cachedRun fuel : forall b off, keepsbuf (cachedRun cfg fail fuel b off).
Proof. induction fuel as [|fuel IH]; intros b off; cbn [cachedRun]; kept. Qed.
Hint Resolve kb_cachedRun : fields.

(** ** Rounds that continue have consumed *)
Abbreviation left w := (length (contents (buf w))).

Lemma trim_inv n (w : world) a w' : upd (fun c => { c with readBuf_ := trimStart (readBuf_ c) n }) w = Some (a, w') -> left w' = (left w - n)%nat.
Proof using IQL. intros H%upd_inv. unfold buf. rewrite H. cbn. unfold const. by rewrite trimStart_law, length_drop. Qed.

Lemma consume_takes h (w : world) a w' : consume cfg crypto junk copyCapacity h w = Some (a, w') -> (0 < left w)%nat -> (left w' < left w)%nat.
Proof using IQL.
  intros (u & w1 & H1%trim_inv & (c & w2 & [-> ->]%this_inv & H3)%bind_inv)%bind_inv Hl. unfold kHeaderSize in H1.
  assert (Hlt : (left w' <= left w1)%nat); [|lia]. destruct (0 <? bodyLen h); [|by rewrite (kb_dispatch _ _ _ _ _ H3)].
  destruct (qsplit_law (readBuf_ (conn w1)) (Z.to_nat (bodyLen h))) as (_ & E & _). destruct (qsplit _ _) as [b q]. cbn in E.
  apply bind_inv in H3 as (u' & w3 & H3%upd_inv & H4). rewrite (kb_dispatch _ _ _ _ _ H4). unfold buf at 1. rewrite H3. cbn. unfold const.
  rewrite E, length_drop. unfold buf. lia.
Qed.

Lemma serveCachedGets_takes (w : world) n w' : serveCachedGets cfg w = Some (n, w') ->
  if (0 <? n)%nat then (0 < left w)%nat -> (left w' < left w)%nat else buf w' = buf w.
Proof using IQL.
  intros (c & w1 & [-> ->]%this_inv & H2)%bind_inv. destruct (front (readBuf_ (conn w))) as [b|]; [|apply ret_inv in H2 as [<- <-]; done].
  apply bind_inv in H2 as (off & w2 & H3 & H4). apply kb_cachedRun in H3. apply bind_inv in H4 as (u & w3 & H4 & [<- <-]%ret_inv).
  destruct (Nat.ltb_spec 0 off); cbn [when] in H4.
  - apply bind_inv in H4 as (u' & w4 & H4%trim_inv & H5%kb_scheduleFlush). rewrite H5. rewrite H3 in H4. lia.
  - apply ret_inv in H4 as [_ <-]. done.
Qed.

Lemma serve_takes h op (w : world) w' : serve cfg crypto junk copyCapacity h op w = Some (true, w') -> (0 < left w)%nat -> (left w' < left w)%nat.
Proof using IQL.
  intros (c & w1 & [-> ->]%this_inv & H)%bind_inv Hl. destruct (bool_decide (op = OpGet) && bool_decide (echoResponseBuf_ (conn w) <> [])).
  - apply bind_inv in H as (u & w2 & H2%trim_inv & (u' & w3 & H3%kb_handleGet & [_ <-]%ret_inv)%bind_inv). rewrite H3. unfold kHeaderSize in H2. lia.
  - apply bind_inv in H as (ca & w2 & [= _ <-] & (n & w3 & H3 & H4)%bind_inv).
    assert (Hn : if (0 <? n)%nat then (0 < left w)%nat -> (left w3 < left w)%nat else buf w3 = buf w).
    { destruct (bool_decide (op = OpGet) && bool_decide (is_Some _)); [by apply serveCachedGets_takes|]. apply ret_inv in H3 as [<- <-]. done. }
    destruct (0 <? n)%nat; [apply ret_inv in H4 as [_ <-]; by apply Hn|]. apply bind_inv in H4 as (u & w4 & H4 & [_ <-]%ret_inv).
    rewrite <- Hn in *. by eapply consume_takes.
Qed.

Lemma parseStep_takes (w w' : world) : parseStep cfg crypto junk copyCapacity w = Some (true, w') -> (left w' < left w)%nat.
Proof using IQL.
  intros (c & w1 & [-> ->]%this_inv & H)%bind_inv. destruct (closing_ (conn w) || stageFull_ (conn w)); [by apply ret_inv in H as [? _]|].
  apply bind_inv in H as (c & w1 & [-> ->]%this_inv & H). fold (buf w) in H. cbv zeta in H. destruct (Nat.ltb_spec (left w) kHeaderSize) as [|Hl]; [by apply ret_inv in H as [? _]|].
  assert (Hpos : (0 < left w)%nat) by (unfold kHeaderSize in Hl; lia).
  assert (Hrej : reject w = Some (true, w') -> False).
  { intros (u & w2 & _ & (u' & w3 & _ & [? _]%ret_inv)%bind_inv)%bind_inv. done. }
  destruct (negb _); [done|]. destruct (opcode_of _) as [op|]; [|done]. destruct (_ <? _)%nat; [by apply ret_inv in H as [? _]|].
  apply bind_inv in H as (ok & w2 & H2 & H3). assert (Eb : buf w2 = buf w).
  { destruct (bool_decide (op = OpSet)); [|by apply ret_inv in H2 as [_ <-]]. revert H2. apply (keeps_bind buf); [keep|]. intros x. keep. }
  destruct ok; [|apply bind_inv in H3 as (u & w3 & _ & [? _]%ret_inv); done]. rewrite <- Eb in *. by eapply serve_takes.
Qed.

Lemma cachedRun_fuel fuel : forall fuel' out out' b off (w : world), (length b < fuel)%nat -> (length b < fuel')%nat ->
  cachedRun cfg out fuel b off w = cachedRun cfg out' fuel' b off w.
Proof.
  induction fuel as [|fuel IH]; intros [|fuel'] out out' b off w H1 H2; try lia. cbn [cachedRun]. cbv zeta.
  destruct (_ || _) eqn:Eg; [done|]. rewrite !orb_false_iff in Eg. destruct Eg as [[[[G1 _] _] G4] _]. apply Nat.ltb_ge in G1, G4.
  apply bind_ext. intros ca w1. apply bind_ext. intros x w2. apply bind_ext. intros y w3. apply bind_ext. intros u w4. destruct (y.1.2), (y.2); try done;
    do 4 (apply bind_ext; intros); (case_match; [done|]); apply IH; rewrite length_drop; unfold kHeaderSize in *; lia.
Qed.

(** C17: The loops of the parser end on every input.  For any bytes, well-formed
    or not, in any state, each round of
    [while (!closing_ && !stageFull_ && parseAndDispatch())] that continues has
    taken bytes off the read buffer, and each round of the run of cached GETs
    advances in its buffer; so once more rounds are allowed than there are bytes,
    the run is that of the model whatever number is allowed, and whatever ([out],
    [outRun]) would come of a loop that used them up: none does. *)
Theorem parse_loop_ends (w : world) out outRun fuel : (left w < fuel)%nat ->
  while out fuel (parseStep cfg crypto junk copyCapacity) w = while fail (1 + left w) (parseStep cfg crypto junk copyCapacity) w /\
  forall b off, (length b < fuel)%nat -> cachedRun cfg outRun fuel b off w = cachedRun cfg fail (1 + length b) b off w.
Proof using IQL.
  intros Hf. split; [|intros b off Hb; apply cachedRun_fuel; lia]. apply (while_fuel _ (fun w => left w)); [|lia|lia]. intros w0 w1. apply parseStep_takes.
Qed.
End loop.

#[local] Existing Instances connDocCache openSocket.
Definition junkWorld := { cachedWorld with conn := { sampleConn with readBuf_ := [[0x80; 0]; [7; 7]] } }.
(** Half a message and a byte no request starts with. *)
Lemma parse_loop_ends_witness :
  while (mret tt) 9 (parseStep (sampleConfig false) sampleCrypto zeros Z.of_nat) junkWorld =
    while fail (1 + length (contents (buf junkWorld))) (parseStep (sampleConfig false) sampleCrypto zeros Z.of_nat) junkWorld /\
  forall b off, (length b < 9)%nat ->
    cachedRun (sampleConfig false) (mret 0%nat) 9 b off junkWorld = cachedRun (sampleConfig false) fail (1 + length b) b off junkWorld.
Proof. apply (parse_loop_ends (sampleConfig false) sampleCrypto zeros Z.of_nat junkWorld (mret tt) (mret 0%nat) 9). vm_compute. lia. Defined.
