(* ===== verification/ConnErr.v ===== *)
(** * What the handlers do not check (connection.cc)

    A message whose lengths do not fit its body, or whose vbucket the engine
    does not have, is not rejected. *)
From stdpp Require Import prelude gmap list strings.
From Stdlib Require Import ZArith Lia.
From coqutil Require Import Datatypes.RecordSettersUsingExistingGetters.
From S2P Require Import Prelude Protocol FlatIndex SeqnoIndex DocCache S3Fifo Cache CacheLaws Eff Request Magma PersistExamples Dispatch ReadPath ConnState Connection ConnInv ConnIO ConnSpec ConnParse ConnExamples.
Open Scope Z_scope.

Section err.
Context {Q K C : Type} `{IQ : IOBufQueue Q} `{SK : AsyncSocket K} `{DC : DocCache C, DCL : !DocCacheLaws C}.
Context (cfg : ConnConfig) (copyCapacity : nat -> Z).
Abbreviation world := (World Q K C).

Lemma wp_none {A B} (m : eff world A) (f : A -> eff world B) w : wp m (fun a w1 => f a w1 = None) w -> (m ≫= f) w = None.
Proof. intros (a & w1 & E & H). unfold mbind, eff_bind. by rewrite E. Qed.

Lemma outside data off n : Z.of_nat (length data) < off + n -> bytesAt data off n = None.
Proof. intros H. unfold bytesAt. by rewrite (proj2 (Z.leb_gt _ _)). Qed.

Lemma ownBody_data b : io_data (ownBody copyCapacity b) = io_data b.
Proof. unfold ownBody. by case_match. Qed.
Lemma storeBody_data b : (storeBody copyCapacity b).1 = io_data b.
Proof. unfold storeBody. case_match; [done|]. apply ownBody_data. Qed.

(** A SET, DELETE or GET whose extras and key are longer than its body is
    not rejected: on every open connection the handler goes on to read bytes
    the message does not have (a GET, unless the server echoes).  Only the
    shortcut for cached GETs checks the lengths. *)
Theorem overlong_request_unchecked (w : world) own St Qu Rd A fs hdr (b : IOBuf) :
  conn_state w own St Qu Rd A fs -> Z.of_nat (length (io_data b)) < extrasLen hdr + keyLen hdr -> echoResponseBuf_ (conn w) = [] ->
  handleSet cfg copyCapacity hdr (Some b) w = None /\ handleDelete cfg copyCapacity hdr (Some b) w = None /\ handleGet cfg copyCapacity hdr (Some b) w = None.
Proof using DCL.
  intros Hs Hlen He. pose proof (outside _ _ _ Hlen) as Hout.
  assert (Hset : forall r, setFields hdr (io_data b) r = None).
  { intros r. unfold setFields. rewrite Hout. destruct (4 <=? extrasLen hdr), (8 <=? extrasLen hdr), (u32At (io_data b) 0), (u32At (io_data b) 4); done. }
  pose proof (storeBody_data b) as Esb. destruct (storeBody copyCapacity b) as [d cap] eqn:Est. cbn in Esb. subst d. split; [|split].
  - unfold handleSet. apply wp_none. eapply wp_mono; [apply acquireRequestFor_spec; apply Hs|]. intros p w1 Ha.
    destruct (acquired _ _ _ _ _ _ _ _ _ Hs Ha) as (own1 & Hs1 & _ & _ & _ & [Hp (r & Hr & _)] & _).
    apply wp_none. eapply rupd_spec; [exact Hr|]. apply wp_none. eapply wp_rget; [apply req_lookup|]. rewrite Est.
    unfold mbind, eff_bind, lift. by rewrite Hset.
  - unfold handleDelete. apply wp_none. eapply wp_mono; [apply acquireRequest_spec; apply Hs|]. intros p w1 Ha.
    destruct (acquired _ _ _ _ _ _ _ _ _ Hs Ha) as (own1 & Hs1 & _ & _ & _ & [Hp (r & Hr & _)] & _).
    apply wp_none. eapply wp_rget; [exact Hr|]. apply wp_none, wp_rput. rewrite ownBody_data, Hout. done.
  - unfold handleGet. apply wp_none, wp_this; [apply Hs|]. rewrite He. unfold getCached. destruct (cache w) as [x|] eqn:Ec.
    + unfold mbind, eff_bind, gets, lift. by rewrite Ec, Hout.
    + apply wp_none. unfold wp. exists false, w. unfold mbind, eff_bind, gets. rewrite Ec. split; [done|]. unfold queueGet.
      apply wp_none, wp_upd; [apply Hs|]. destruct (counted _ _ _ _ _ _ _ (outstandingRequests_ (conn w) + 1) Hs) as [Hs0 _]. set (w0 := { w with conn := _ }) in *.
      apply wp_none. eapply wp_mono; [apply acquireRequest_spec; apply Hs0|]. intros p w1 Ha.
      destruct (acquired _ _ _ _ _ _ _ _ _ Hs0 Ha) as (own1 & Hs1 & _ & _ & _ & [Hp (r & Hr & _)] & _).
      apply wp_none, wp_this; [apply Hs1|]. apply wp_none. eapply wp_rget; [exact Hr|]. apply wp_none, wp_rput. rewrite Est. unfold mbind, eff_bind, lift. by rewrite Hout.
Qed.
End err.

(** ** Concrete runs *)
#[local] Existing Instances connDocCache connDocCacheLaws openSocket.

(** A SET of one byte that claims a key of nine. *)
Definition overlongSet : req := (reqHeader OpSet 9 0 7 1 104, [97]).
Lemma overlong_request_unchecked_witness :
  handleSet (sampleConfig false) Z.of_nat overlongSet.1 (Some (mkIOBuf [97] true 1)) cachedWorld = None /\
  handleDelete (sampleConfig false) Z.of_nat overlongSet.1 (Some (mkIOBuf [97] true 1)) cachedWorld = None /\
  handleGet (sampleConfig false) Z.of_nat overlongSet.1 (Some (mkIOBuf [97] true 1)) cachedWorld = None.
Proof.
  apply (overlong_request_unchecked (sampleConfig false) Z.of_nat cachedWorld ∅ (fun _ => []) (fun _ => []) (fun _ => []) ∅ []).
  - apply sample_state, newCache_rep.
  - vm_compute. reflexivity.
  - reflexivity.
Defined.

(** A vbucket the engine's tables do not have. *)
Lemma unknown_vbucket : wake (sampleConfig false) (stream [(reqHeader OpSet 1 8 1024 9 105, [0; 0; 0; 0; 0; 0; 0; 0; 97])]) cachedWorld = None.
Proof. vm_compute. reflexivity. Qed.

(** ** A connection deleted under its own parse loop *)
#[local] Instance closedSocket : AsyncSocket bool := {| sock_write k _ := (k, WriteFailed); sock_sendmsg k _ := (k, SendFailed) |}.
Definition delayedConfig : ConnConfig := mkConnConfig false 100 40 true 320 (mkEngineConfig 0 64) 1 64 [] [].
Definition fullWorld : World (list (list Z)) bool FluxCache :=
  mkWorld _ _ _ sampleConn (mkBucket ∅ [emptyEShard] 0 0) false 0 emptyStaging idleReaders None None false 0 [].
Definition twoSets : list req := [(reqHeader OpSet 1 0 7 1 1, [97]); (reqHeader OpSet 1 0 7 1 2, [98])].

Definition wakeClosed (data : list Z) : eff (World (list (list Z)) bool FluxCache) unit :=
  readDataAvailable delayedConfig sampleCrypto zeros Z.of_nat (fun _ => 0) data.

