(* ===== verification/ConnMigrate.v ===== *)
(** * Moving a connection to another loop (connection.cc)

    Everything that can happen to a connection on its loop, in any order.  A
    migration that was started always has something left that will continue it:
    a scheduled check, a request still out, or a write in flight; and once
    nothing is out and nothing is in flight, the check hands the connection
    over. *)
From stdpp Require Import prelude gmap list strings.
From Stdlib Require Import ZArith Lia.
From coqutil Require Import Datatypes.RecordSettersUsingExistingGetters.
From S2P Require Import Prelude Protocol DocCache Eff Request Magma PersistExamples Dispatch ReadPath ConnState Connection ConnParse ConnExamples.
Open Scope Z_scope.

Section migrate.
Context {Q K C : Type} `{IQ : IOBufQueue Q} `{SK : AsyncSocket K} `{DC : DocCache C}.
Context (cfg : ConnConfig) (crypto : Crypto) (junk : nat -> list Z) (copyCapacity : nat -> Z) (now : Z -> Z).
Abbreviation world := (World Q K C).

(** A migration under way on an open connection that is on a loop. *)
Definition moving (c : Connection Q) : Prop := migrating_ c = true /\ closing_ c = false /\ loop c <> None.
Definition continues (c : Connection Q) : Prop := migrateCb_ c = true \/ outstandingRequests_ c <> 0 \/ inflightBufs_ c <> [].
Definition flags_ok (c : Connection Q) : Prop :=
  (migrating_ c = true -> drainWatch_ c = true /\ (loop c <> None -> migrateTarget_ c <> None)) /\ (closing_ c = false -> migrateCheckPending_ c = migrateCb_ c).
(** [n] is a lower bound of the requests that are out. *)
Definition migrate_ok (n : Z) (c : Connection Q) : Prop :=
  flags_ok c /\ (closing_ c = false -> n <= outstandingRequests_ c) /\ (moving c -> continues c).
Definition onConn (P : Connection Q -> Prop) (w : world) : Prop := P (conn w).

Lemma pres_this P : pres (onConn P) this.
Proof. intros w a w' HP. unfold this, gets, mbind, eff_bind. destruct (deleted (conn w)); [done|]. by intros [= _ <-]. Qed.
Lemma pres_upd P f : (forall c, P c -> P (f c)) -> pres (onConn P) (upd f).
Proof.
  intros Hf w a w' HP. unfold upd, this, gets, modify, mbind, eff_bind. destruct (deleted (conn w)); [done|].
  cbn. intros [= _ <-]. by apply Hf.
Qed.
Hint Resolve pres_this : invs.

(** ** What direct sends leave alone *)
Lemma keeps_emit_conn e : keeps_field (fun w : world => conn w) (emit e).
Proof. unfold emit. keep. Qed.
Definition open (w : world) : bool * bool := (closing_ (conn w), migrating_ (conn w)).
Lemma keeps_upd_open f : (forall c, closing_ (f c) = closing_ c) -> (forall c, migrating_ (f c) = migrating_ c) -> keeps_field open (upd f).
Proof. intros H1 H2 w a w' ->%upd_inv. unfold open. cbn. unfold const. by rewrite H1, H2. Qed.
Lemma op_this : keeps_field open this.
Proof. by intros w a w' [_ ->]%this_inv. Qed.
Hint Resolve op_this : fields.
Ltac kept := intros; keep_with ltac:(idtac; lazymatch goal with |- keeps_field _ (upd _) => apply keeps_upd_open; intros; reflexivity end).
Lemma op_rget p : keeps_field open (rget p). Proof. unfold rget, heap. kept. Qed.
Lemma op_rput p r : keeps_field open (rput p r). Proof. unfold rput, heap, setHeap. kept. Qed.
Lemma op_emit e : keeps_field open (emit e). Proof. unfold emit. kept. Qed.
Hint Resolve op_rget op_rput op_emit : fields.
Lemma op_writeDirectLocked l : keeps_field open (writeDirectLocked l).
Proof. unfold writeDirectLocked, trySend. kept. Qed.
Lemma op_chainReset l : forall h, keeps_field open (chainReset h l).
Proof. induction l as [|p l IH]; intros h; cbn; [kept|]. do 2 (apply keeps_bind; [kept|intros]). apply IH. Qed.
Hint Resolve op_writeDirectLocked op_chainReset : fields.
Lemma op_finishBatch l b : keeps_field open (finishBatch l b).
Proof. unfold finishBatch, finishDirect, releaseOutstanding. kept. Qed.
Lemma op_sendChunks l : keeps_field open (sendChunks l).
Proof. induction l as [|x l IH]; cbn; kept. Qed.
Hint Resolve op_finishBatch op_sendChunks : fields.
Lemma op_drainPendingSends : keeps_field open drainPendingSends.
Proof. unfold drainPendingSends, sendHeld, takeChain, heap, setHeap. kept. Qed.
Hypothesis direct_off : gDirectSend cfg = false.

Section counted.
Context (n : Z) (Hn : 0 <= n).
Abbreviation okM m := (pres (onConn (migrate_ok n)) m).
Ltac closeupd := let c := fresh in let H := fresh in intros c H; try exact H; unfold migrate_ok, flags_ok, moving, continues in *; cbn; unfold const; repeat case_match; cbn; unfold const; naive_solver.
Ltac ok := intros; preserve_with ltac:(idtac; lazymatch goal with
  | |- pres (onConn _) (upd _) => apply pres_upd; closeupd
  | |- pres (onConn _) (modify _) => apply pres_modify; intros ? ?; assumption end).

Lemma mo_emit e : okM (emit e). Proof. unfold emit. ok. Qed.
Lemma mo_heap : okM heap. Proof. unfold heap. ok. Qed.
Lemma mo_setHeap h : okM (setHeap h). Proof. unfold setHeap. ok. Qed.
Hint Resolve mo_emit mo_heap mo_setHeap : invs.
Lemma mo_rget p : okM (rget p). Proof. unfold rget. ok. Qed.
Lemma mo_rput p r : okM (rput p r). Proof. unfold rput. ok. Qed.
Lemma mo_takeChain p : okM (takeChain p). Proof. unfold takeChain. ok. Qed.
Hint Resolve mo_rget mo_rput mo_takeChain : invs.
Lemma mo_newRequest : okM newRequest. Proof. unfold newRequest. ok. Qed.
Lemma mo_deleteRequest p : okM (deleteRequest p). Proof. unfold deleteRequest. ok. Qed.
Hint Resolve mo_newRequest mo_deleteRequest : invs.
Lemma mo_poolReturned p : okM (poolReturned p). Proof. unfold poolReturned. ok. Qed.
Hint Resolve mo_poolReturned : invs.
Lemma mo_refillPool : okM refillPool. Proof. unfold refillPool. ok. Qed.
Hint Resolve mo_refillPool : invs.
Lemma mo_acquireRequest : okM acquireRequest. Proof. unfold acquireRequest. ok. Qed.
Hint Resolve mo_acquireRequest : invs.
Lemma mo_acquireRequestFor v : okM (acquireRequestFor v). Proof. unfold acquireRequestFor, takeShardChain. ok. Qed.
Lemma mo_releaseRequest p : okM (releaseRequest p). Proof. unfold releaseRequest. ok. Qed.
Hint Resolve mo_acquireRequestFor mo_releaseRequest : invs.
Lemma mo_deleteThis : okM deleteThis. Proof. unfold deleteThis. ok. Qed.
Hint Resolve mo_deleteThis : invs.

(** ** Where a migration is continued *)
Definition lax (c : Connection Q) : Prop := flags_ok c /\ (closing_ c = false -> n <= outstandingRequests_ c).
Definition restores (m : eff world unit) : Prop := forall w a w', lax (conn w) -> m w = Some (a, w') -> migrate_ok n (conn w').
Lemma ok_lax c : migrate_ok n c -> lax c.
Proof. intros (H1 & H2 & _). by split. Qed.

Lemma scheduleMigrateCheck_restores : restores scheduleMigrateCheck.
Proof.
  intros w a w' [[H1 H2] H3] (c & w1 & [-> ->]%this_inv & H)%bind_inv.
  apply when_inv in H as [[_ ->%upd_inv]|[E ->]]; cbn; unfold const.
  - split; [by split|]. split; [done|]. intros _. by left.
  - split; [by split|]. split; [done|]. intros (Hm & Hcl & Hl). left. rewrite Hm in E. rewrite bool_decide_true in E by done. rewrite <- H2 by done.
    by destruct (migrateCheckPending_ (conn w)).
Qed.
Lemma mo_scheduleMigrateCheck : okM scheduleMigrateCheck.
Proof. intros w a w' H%ok_lax. by apply scheduleMigrateCheck_restores. Qed.
Hint Resolve mo_scheduleMigrateCheck : invs.

Lemma mo_writeSuccess : okM writeSuccess.
Proof.
  intros w a w' (Hf & Hk & Hc) (u & w1 & ->%upd_inv & (c & w2 & [-> ->]%this_inv & H)%bind_inv)%bind_inv. cbn in H. unfold const in H.
  apply when_inv in H as [[_ H]|[E ->]].
  - eapply scheduleMigrateCheck_restores; [|exact H]. cbn. unfold const. destruct (inflightBufs_ (conn w)); done.
  - cbn. unfold const. destruct (inflightBufs_ (conn w)) as [|b l]; [done|]. cbn in *. unfold const in *. split; [done|]. split; [done|]. intros (Hm & H2).
    right; right. cbn in Hm. unfold const in Hm. rewrite Hm in E. cbn in E. by apply bool_decide_eq_false in E.
Qed.
Hint Resolve mo_writeSuccess : invs.

Lemma closed_ok c : closing_ c = true -> migrating_ c = false -> migrate_ok n c.
Proof. intros H1 H2. split; [split; congruence|]. split; [congruence|]. intros (_ & H & _). congruence. Qed.

Lemma destroy_restores : restores destroy.
Proof.
  intros w a w' [Hf Hk] (c & w1 & [-> ->]%this_inv & H)%bind_inv. destruct (closing_ (conn w)) eqn:Ec.
  { apply ret_inv in H as [_ <-]. split; [done|]. split; [congruence|]. intros (_ & Hx & _). congruence. }
  apply bind_inv in H as (u1 & w2 & H1 & (u2 & w3 & H2 & (u3 & w4 & ->%upd_inv & H4)%bind_inv)%bind_inv).
  assert (E : (closing_ (conn w'), migrating_ (conn w')) = (true, false)); [|by injection E; intros; apply closed_ok].
  change (open w' = (true, false)). revert H4. set (w4 := { w3 with conn := _ }). intros H4. change (true, false) with (open w4). revert H4.
  apply (keeps_bind open); [apply op_drainPendingSends|]. intros x. kept.
Qed.
Lemma writeErr_restores : restores writeErr.
Proof. intros w a w' Hf (u & w1 & ->%upd_inv & H)%bind_inv. by eapply destroy_restores; [|exact H]. Qed.
Lemma mo_writeErr : okM writeErr.
Proof. intros w a w' H%ok_lax. by apply writeErr_restores. Qed.
Lemma mo_destroy : okM destroy.
Proof. intros w a w' H%ok_lax. by apply destroy_restores. Qed.
Hint Resolve mo_writeErr mo_destroy : invs.

(** A write in flight continues the migration when it completes. *)
Lemma socketWrite_restores k b : restores (socketWrite k b).
Proof.
  intros w a w' [Hf Hk] (u & w1 & ->%upd_inv & H)%bind_inv. revert H.
  apply (pres_bind (onConn (migrate_ok n))); [ok| |split; [done|]].
  - intros c. apply pres_bind; [ok|]. intros w1. destruct (sock_write (socket w1) b). ok.
  - split; [done|]. intros _. right; right. cbn. unfold const. by destruct (inflightBufs_ (conn w)).
Qed.
Lemma mo_socketWrite k b : okM (socketWrite k b).
Proof. intros w a w' H%ok_lax. by apply socketWrite_restores. Qed.
Hint Resolve mo_socketWrite : invs.
Lemma mo_flushPending : okM (flushPending cfg).
Proof. unfold flushPending, flushPendingImpl, writeOwned. rewrite direct_off. cbn [when]. ok. Qed.
Lemma mo_writeChainLocked b : okM (writeChainLocked cfg b).
Proof. unfold writeChainLocked. rewrite direct_off. cbn [when]. ok. Qed.
Hint Resolve mo_flushPending mo_writeChainLocked : invs.
Lemma mo_scheduleFlush : okM (scheduleFlush cfg). Proof. unfold scheduleFlush. ok. Qed.
Hint Resolve mo_scheduleFlush : invs.

(** ** The handlers *)
Lemma mo_respond h s v : okM (respond cfg junk h s v). Proof. unfold respond. ok. Qed.
Lemma mo_respondEmpty h s : okM (respondEmpty cfg junk h s). Proof. unfold respondEmpty. ok. Qed.
Lemma mo_saslBody h b : okM (saslBody h b). Proof. unfold saslBody. ok. Qed.
Lemma mo_addPending f : okM (addPending f). Proof. unfold addPending. ok. Qed.
Lemma mo_rupd p f : okM (rupd p f). Proof. unfold rupd. ok. Qed.
Lemma mo_withCache f : okM (withCache f). Proof. unfold withCache. ok. Qed.
Lemma mo_stageWrite p : okM (stageWrite cfg p). Proof. unfold stageWrite. ok. Qed.
Lemma mo_enqueueRead p : okM (enqueueRead cfg p). Proof. unfold enqueueRead. ok. Qed.
Hint Resolve mo_respond mo_respondEmpty mo_saslBody mo_addPending mo_rupd mo_withCache mo_stageWrite mo_enqueueRead : invs.
End counted.

(** ** Requests come and go *)
Definition moves {A} (n n' : Z) (m : eff world A) : Prop := forall w a w', migrate_ok n (conn w) -> m w = Some (a, w') -> migrate_ok n' (conn w').
Lemma moves_bind {A B} n n1 n2 (m : eff world A) (f : A -> eff world B) : moves n n1 m -> (forall a, moves n1 n2 (f a)) -> moves n n2 (m ≫= f).
Proof. intros Hm Hf w b w' HI (a & w1 & H1 & H2)%bind_inv. eapply Hf; [|exact H2]. by eapply Hm. Qed.
Lemma moves_less {A} n n1 n2 (m : eff world A) : n2 <= n1 -> moves n n1 m -> moves n n2 m.
Proof. intros Hle Hm w b w' HI E. destruct (Hm _ _ _ HI E) as (H1 & H2 & H3). split; [done|]. split; [intros Hc; specialize (H2 Hc); lia|done]. Qed.
Lemma moves_pres {A} n (m : eff world A) : pres (onConn (migrate_ok n)) m <-> moves n n m.
Proof. done. Qed.

Lemma raise_ok n : 0 <= n -> moves n (n + 1) (upd (fun c => { c with outstandingRequests_ := outstandingRequests_ c + 1 })).
Proof.
  intros Hn w a w' (Hf & Hk & Hc) ->%upd_inv. split; [done|]. split; [intros Hcl; specialize (Hk Hcl); cbn; unfold const; lia|].
  intros Hm. right; left. destruct Hm as (_ & Hcl & _). specialize (Hk Hcl). cbn. unfold const. lia.
Qed.

Lemma drop_ok n k : 0 <= n - k -> moves n (n - k) (dropOutstanding k).
Proof.
  intros Hn w a w' (Hf & Hk & Hc) (c & w1 & [-> ->]%this_inv & (u & w2 & ->%upd_inv & H)%bind_inv)%bind_inv.
  assert (Hk' : closing_ (conn w) = false -> n - k <= outstandingRequests_ (conn w) - k) by (intros Hcl; specialize (Hk Hcl); lia).
  apply when_inv in H as [[Ek H]|[Ek ->]].
  - apply bind_inv in H as (c & w3 & [-> ->]%this_inv & H). cbn in H. unfold const in H. destruct (closing_ (conn w)) eqn:Ecl.
    + eapply mo_deleteThis; [|exact H]. split; [done|]. split; [cbn; congruence|]. intros (_ & Hx & _). cbn in Hx. congruence.
    + apply when_inv in H as [[_ H]|[Em ->]].
      * eapply scheduleMigrateCheck_restores; [|exact H]. split; [done|]. cbn. unfold const. intros _. by apply Hk'.
      * split; [done|]. split; [intros _; by apply Hk'|]. intros (Hx & _). cbn in *. congruence.
  - split; [done|]. split; [exact Hk'|]. intros Hm. destruct (Hc Hm) as [?|[?|?]]; [by left| |by right; right]. right; left. cbn. unfold const. lia.
Qed.

Ltac okr := apply (proj1 (moves_pres _ _)); preserve_with ltac:(idtac; lazymatch goal with
  | |- pres _ (emit _) => apply mo_emit | |- pres _ (rget _) => apply mo_rget | |- pres _ (releaseRequest _) => apply mo_releaseRequest
  | |- pres _ (addPending _) => apply mo_addPending | |- pres _ (scheduleFlush _) => apply mo_scheduleFlush; lia
  | |- pres _ (rupd _ _) => apply mo_rupd | |- pres _ (withCache _) => apply mo_withCache | |- pres _ (stageWrite _ _) => apply mo_stageWrite
  | |- pres _ (rput _ _) => apply mo_rput
  | |- pres _ (upd _) => apply pres_upd; intros ? ?; assumption
  | |- pres (onConn _) (modify _) => apply pres_modify; intros ? ?; assumption end).

Lemma sendWriteResponse_ok n p : 0 <= n - 1 -> moves n (n - 1) (sendWriteResponse cfg p).
Proof.
  intros Hn. unfold sendWriteResponse. apply (moves_bind n n); [okr|]. intros r. apply (moves_bind n n); [okr|]. intros c.
  apply (moves_bind n n); [okr|]. intros _. apply (moves_bind n n); [okr|]. intros _. apply (moves_bind n n); [okr|]. intros _. by apply drop_ok.
Qed.
Lemma sendGetResponse_ok n p : 0 <= n - 1 -> moves n (n - 1) (sendGetResponse cfg p).
Proof.
  intros Hn. unfold sendGetResponse. apply (moves_bind n n); [okr|]. intros r. apply (moves_bind n n); [okr|]. intros c.
  apply (moves_bind n n); [okr|]. intros _. apply (moves_bind n n); [okr|]. intros _. by apply drop_ok.
Qed.

Lemma stage_ok h p b : moves 0 0 (stage cfg h p b).
Proof.
  unfold stage. destruct (durable cfg).
  - unfold stageDurable. apply (moves_bind 0 1); [by apply (raise_ok 0)|]. intros _. apply (moves_bind 1 1); [okr|]. intros c. apply (moves_bind 1 1); [okr|]. intros _.
    apply (moves_bind 1 1); [okr|]. intros _. apply (moves_bind 1 1); [okr|]. intros []; cbn [negb when]; [apply (moves_less 1 1); [done|okr]|].
    apply (moves_bind 1 1); [okr|]. intros r. apply (moves_bind 1 1); [okr|]. intros _. apply (moves_bind 1 1); [okr|]. intros _. by apply (sendWriteResponse_ok 1).
  - unfold stageAsync. okr.
Qed.

(** ** Everything on the loop *)
Abbreviation okM m := (pres (onConn (migrate_ok 0)) m).
Hint Resolve mo_emit mo_rget mo_rput mo_acquireRequest mo_acquireRequestFor mo_releaseRequest mo_destroy mo_respond mo_respondEmpty mo_saslBody
  mo_addPending mo_rupd mo_withCache mo_stageWrite mo_enqueueRead mo_scheduleFlush mo_flushPending mo_scheduleMigrateCheck mo_writeSuccess mo_writeErr Z.le_refl : invs.
Ltac closeupd := let c := fresh in let H := fresh in intros c H; try exact H; unfold migrate_ok, flags_ok, moving, continues in *; cbn; unfold const; repeat case_match; cbn; unfold const; naive_solver.
Ltac ok := intros; preserve_with ltac:(idtac; lazymatch goal with
  | |- pres (onConn _) (upd _) => apply pres_upd; closeupd
  | |- pres (onConn _) (modify _) => apply pres_modify; intros ? ?; assumption end).

Lemma mo_stage h p b : okM (stage cfg h p b).
Proof. apply stage_ok. Qed.
Lemma mo_raise : okM (upd (fun c => { c with outstandingRequests_ := outstandingRequests_ c + 1 })).
Proof. apply (moves_less 0 1); [done|]. by apply (raise_ok 0). Qed.
Hint Resolve mo_stage mo_raise : invs.
Lemma mo_handleGet h b : okM (handleGet cfg copyCapacity h b). Proof. unfold handleGet, getCached, queueGet. ok. Qed.
Lemma mo_handleHello h b : okM (handleHello cfg junk h b). Proof. unfold handleHello. ok. Qed.
Lemma mo_handleSaslAuth h b : okM (handleSaslAuth cfg crypto junk h b). Proof. unfold handleSaslAuth. ok. Qed.
Lemma mo_handleSaslStep h b : okM (handleSaslStep cfg crypto junk h b). Proof. unfold handleSaslStep. ok. Qed.
Lemma mo_handleSet h b : okM (handleSet cfg copyCapacity h b). Proof. unfold handleSet. ok. Qed.
Lemma mo_handleDelete h b : okM (handleDelete cfg copyCapacity h b). Proof. unfold handleDelete. ok. Qed.
Lemma mo_dispatch h b : okM (dispatch cfg crypto junk copyCapacity h b).
Proof.
  unfold dispatch. destruct (opcode_of (opcode h)) as [[]|];
    [apply mo_handleGet|apply mo_handleSet|apply mo_handleDelete|apply mo_respondEmpty|apply mo_handleHello|apply mo_respond|apply mo_handleSaslAuth
    |apply mo_handleSaslStep|apply mo_respondEmpty|apply mo_respond|apply mo_respond|apply mo_respondEmpty]; lia.
Qed.
Hint Resolve mo_handleGet mo_dispatch : invs.
Lemma mo_cachedRun fuel : forall b off, okM (cachedRun cfg fail fuel b off).
Proof. induction fuel as [|fuel IH]; intros b off; cbn [cachedRun]; ok. Qed.
Hint Resolve mo_cachedRun : invs.
Lemma mo_serveCachedGets : okM (serveCachedGets cfg). Proof. unfold serveCachedGets. ok. Qed.
Lemma mo_consume h : okM (consume cfg crypto junk copyCapacity h). Proof. unfold consume. ok. Qed.
Lemma mo_reject : okM reject. Proof. unfold reject. ok. Qed.
Hint Resolve mo_serveCachedGets mo_consume mo_reject : invs.
Lemma mo_serve h op : okM (serve cfg crypto junk copyCapacity h op). Proof. unfold serve. ok. Qed.
Lemma mo_TakeWriteToken : okM TakeWriteToken. Proof. unfold TakeWriteToken. ok. Qed.
Hint Resolve mo_serve mo_TakeWriteToken : invs.
Lemma mo_parseAndDispatch : okM (parseAndDispatch cfg crypto junk copyCapacity). Proof. unfold parseAndDispatch. ok. Qed.
Hint Resolve mo_parseAndDispatch : invs.
Lemma mo_parseBuffered : okM (parseBuffered cfg crypto junk copyCapacity now).
Proof. unfold parseBuffered, parseLoop, parseStep, flushStaged, pauseForQueue. ok. Qed.
Lemma mo_flushOrDefer : okM (flushOrDefer cfg). Proof. unfold flushOrDefer. ok. Qed.
Hint Resolve mo_parseBuffered mo_flushOrDefer : invs.
Lemma mo_readDataAvailable data : okM (readDataAvailable cfg crypto junk copyCapacity now data). Proof. unfold readDataAvailable. ok. Qed.
Lemma mo_resumeTimeoutExpired : okM (resumeTimeoutExpired cfg crypto junk copyCapacity now). Proof. unfold resumeTimeoutExpired, resumeAfterQueue. ok. Qed.
Lemma mo_flushTimeoutExpired : okM (flushTimeoutExpired cfg). Proof. unfold flushTimeoutExpired. ok. Qed.
Lemma mo_runFlushCb : okM (runFlushCb cfg). Proof. unfold runFlushCb. ok. Qed.
Lemma mo_start o : okM (start o). Proof. unfold start. ok. Qed.

(** ** Migration itself *)
Lemma migrateTo_ok target : okM (migrateTo target).
Proof.
  intros w a w' (Hf & Hk & Hc) (c & w1 & [-> ->]%this_inv & H)%bind_inv. destruct (_ || _) eqn:E.
  { by apply ret_inv in H as [_ <-]. }
  rewrite !orb_false_iff in E. destruct E as [[[E1 E2] E3%bool_decide_eq_false] _].
  apply bind_inv in H as (u & w2 & ->%upd_inv & (u' & w3 & H & [_ <-]%ret_inv)%bind_inv). eapply scheduleMigrateCheck_restores; [|exact H].
  split; [|done]. split; [done|apply Hf].
Qed.

Lemma flushPending_restores (w : world) a w' : migrate_ok 0 (conn w) \/ (lax 0 (conn w) /\ closing_ (conn w) = false /\ pendingWriteBuf_ (conn w) <> []) ->
  flushPending cfg w = Some (a, w') -> migrate_ok 0 (conn w').
Proof using direct_off.
  intros [H|(Hl & Hcl & Hp)]; [by apply mo_flushPending|]. unfold flushPending, flushPendingImpl. rewrite direct_off. cbn [when].
  intros (u & w1 & (c & w2 & [-> ->]%this_inv & H)%bind_inv & [_ <-]%ret_inv)%bind_inv. rewrite Hcl in H. cbn [negb when] in H.
  apply bind_inv in H as (u1 & w3 & [_ <-]%ret_inv & (c & w4 & [-> ->]%this_inv & H)%bind_inv). rewrite bool_decide_true in H by done. cbn [when] in H.
  apply bind_inv in H as (u2 & w5 & [= _ <-] & (u3 & w6 & ->%upd_inv & H)%bind_inv). by eapply socketWrite_restores; [|exact H].
Qed.

Lemma runMigrateCb_ok : okM (runMigrateCb cfg).
Proof using direct_off.
  intros w a w' (Hf & Hk & Hc) (u & w1 & E1%upd_inv & (c & w2 & [-> ->]%this_inv & H)%bind_inv)%bind_inv.
  assert (Hl : lax 0 (conn w1)) by (rewrite E1; split; [split; [apply Hf|done]|done]). clear E1 Hf Hk Hc.
  destruct (migrating_ (conn w1)) eqn:Em; cbn [negb] in H.
  2: { apply ret_inv in H as [_ <-]. split; [apply Hl|]. split; [apply Hl|]. intros (Hx & _). congruence. }
  destruct (closing_ (conn w1)) eqn:Ecl.
  { apply bind_inv in H as (u1 & w2 & E2%upd_inv & H).
    assert (Hok : migrate_ok 0 (conn w2)) by (rewrite E2; split; [split; [done|by intros Hx; cbn in Hx; congruence]|]; split; [intros Hx; cbn in Hx; congruence|]; by intros (Hx & _)).
    revert H. destruct (migrateTarget_ (conn w1)); [by apply mo_emit|]. by intros [_ <-]%ret_inv. }
  destruct (Z.eqb_spec (outstandingRequests_ (conn w1)) 0) as [Eo|Eo]; cbn [negb] in H.
  2: { apply ret_inv in H as [_ <-]. split; [apply Hl|]. split; [apply Hl|]. intros _. by right; left. }
  destruct (bool_decide (pendingWriteBuf_ (conn w1) <> [])) eqn:Ep.
  { apply bind_inv in H as (u1 & w2 & E2%upd_inv & H). apply bool_decide_eq_true in Ep. eapply flushPending_restores; [|exact H]. right. by rewrite E2. }
  destruct (bool_decide (inflightBufs_ (conn w1) <> [])) eqn:Ei.
  { apply ret_inv in H as [_ <-]. apply bool_decide_eq_true in Ei. split; [apply Hl|]. split; [apply Hl|]. intros _. by right; right. }
  apply bind_inv in H as (c & w3 & [-> ->]%this_inv & (u1 & w4 & H1 & (tg & w5 & H2 & (u2 & w6 & E6%upd_inv & H3)%bind_inv)%bind_inv)%bind_inv).
  assert (E5 : w5 = w4) by (revert H2; unfold lift; destruct (migrateTarget_ (conn w1)); [|done]; intros [=]; done). subst w5.
  assert (E4 : conn w4 = conn w1). { destruct (owner_ (conn w1)); [by apply keeps_emit_conn in H1|by apply ret_inv in H1 as [_ <-]]. }
  eapply mo_emit; [|exact H3]. unfold onConn. rewrite E6. cbn. unfold const. rewrite E4. split; [split; [|done]|].
  - intros _. cbn. split; [by apply Hl|done].
  - split; [apply Hl|]. by intros (_ & _ & Hx).
Qed.

(** ** Any sequence of events *)
Inductive event :=
  | Readable (data : list Z) | FlushCallback | FlushTimer | ResumeTimer | MigrateCallback | WriteCompleted | WriteErrored
  | WriteDelivered (p : ptr) | GetDelivered (p : ptr) | MigrateRequested (target : option ptr) | Attached (target evb : ptr).
Definition step (e : event) : eff world unit :=
  match e with
  | Readable data => readDataAvailable cfg crypto junk copyCapacity now data
  | FlushCallback => runFlushCb cfg
  | FlushTimer => flushTimeoutExpired cfg
  | ResumeTimer => resumeTimeoutExpired cfg crypto junk copyCapacity now
  | MigrateCallback => runMigrateCb cfg
  | WriteCompleted => writeSuccess
  | WriteErrored => writeErr
  | WriteDelivered p => sendWriteResponse cfg p
  | GetDelivered p => sendGetResponse cfg p
  | MigrateRequested t => migrateTo t;; mret tt
  | Attached t e => finishAttach cfg crypto junk copyCapacity now t e
  end.
(** A response is for a request that was counted. *)
Definition enabled (w : world) (e : event) : Prop :=
  match e with WriteDelivered _ | GetDelivered _ => 1 <= outstandingRequests_ (conn w) | _ => True end.
Inductive reaches (w0 : world) : world -> Prop :=
  | reaches_refl : reaches w0 w0
  | reaches_step w e w' : reaches w0 w -> enabled w e -> step e w = Some (tt, w') -> reaches w0 w'.

Lemma finishAttach_ok t e : okM (finishAttach cfg crypto junk copyCapacity now t e).
Proof using direct_off.
  intros w a w' (Hf & Hk & Hc) (u & w1 & ->%upd_inv & (u1 & w2 & H1 & (u2 & w3 & ->%upd_inv & H)%bind_inv)%bind_inv)%bind_inv.
  unfold emit, modify in H1. injection H1 as _ <-. revert H. apply (pres_bind (onConn (migrate_ok 0))); [apply mo_parseBuffered|intros _; apply mo_flushOrDefer|].
  split; [by split; [|apply Hf]|]. split; [exact Hk|]. by intros (Hx & _).
Qed.

Lemma step_ok w e w' : migrate_ok 0 (conn w) -> enabled w e -> step e w = Some (tt, w') -> migrate_ok 0 (conn w').
Proof using direct_off.
  intros H He. destruct e; cbn [step].
  - by apply mo_readDataAvailable.
  - by apply mo_runFlushCb.
  - by apply mo_flushTimeoutExpired.
  - by apply mo_resumeTimeoutExpired.
  - by apply runMigrateCb_ok.
  - by apply mo_writeSuccess.
  - by apply mo_writeErr.
  - apply (sendWriteResponse_ok 1); [done|]. destruct H as (Hf & _ & Hc). done.
  - apply (sendGetResponse_ok 1); [done|]. destruct H as (Hf & _ & Hc). done.
  - intros (b & w1 & H1 & [_ <-]%ret_inv)%bind_inv. by eapply migrateTo_ok.
  - by apply finishAttach_ok.
Qed.
Lemma reaches_ok w0 w : migrate_ok 0 (conn w0) -> reaches w0 w -> migrate_ok 0 (conn w).
Proof using direct_off. intros H0. induction 1 as [|w e w' _ IH He Hs]; [done|]. by eapply step_ok. Qed.

Lemma new_ok s e q g v : migrate_ok 0 (newConnection s e q g v).
Proof. split; [by split|]. split; [done|]. by intros (Hx & _). Qed.

(** The check of a connection with nothing left to wait for. *)
Lemma runMigrateCb_detaches (w : world) : migrate_ok 0 (conn w) -> moving (conn w) -> deleted (conn w) = false ->
  outstandingRequests_ (conn w) = 0 -> pendingWriteBuf_ (conn w) = [] -> inflightBufs_ (conn w) = [] ->
  wp (runMigrateCb cfg) (fun _ w' => loop (conn w') = None /\ exists t, migrateTarget_ (conn w) = Some t /\ last (log w') = Some (PostAttach t)) w.
Proof.
  intros (Hf & _ & _) (Hm & Hcl & Hlo) Hd Ho Hp Hi. destruct Hf as [Hf _]. destruct (Hf Hm) as [_ Ht]. destruct (migrateTarget_ (conn w)) as [t|] eqn:Et; [|by destruct Ht].
  assert (Hthis : forall w1 : world, deleted (conn w1) = false -> this w1 = Some (conn w1, w1)) by (intros w1 Hd1; unfold this, gets, mbind, eff_bind; by rewrite Hd1).
  assert (Hupd : forall f (w1 : world), deleted (conn w1) = false -> upd f w1 = Some (tt, { w1 with conn := f (conn w1) })) by (intros f w1 Hd1; unfold upd, mbind, eff_bind; by rewrite (Hthis _ Hd1)).
  unfold runMigrateCb, tryFinishMigrate, detach. apply wp_bind. eexists _, _. split; [by apply Hupd|]. set (w1 := { w with conn := _ }).
  apply wp_bind. eexists _, _. split; [by apply Hthis|]. change (migrating_ (conn w1)) with (migrating_ (conn w)). change (closing_ (conn w1)) with (closing_ (conn w)).
  change (outstandingRequests_ (conn w1)) with (outstandingRequests_ (conn w)). change (pendingWriteBuf_ (conn w1)) with (pendingWriteBuf_ (conn w)).
  change (inflightBufs_ (conn w1)) with (inflightBufs_ (conn w)). rewrite Hm, Hcl, Ho, Hp, Hi. cbn [negb Z.eqb].
  rewrite !bool_decide_false by auto. apply wp_bind. eexists _, _. split; [by apply Hthis|]. apply wp_bind.
  apply (wp_mono _ (fun _ w2 => conn w2 = conn w1)).
  { destruct (owner_ (conn w1)); [unfold emit; by apply wp_modify|by apply wp_ret]. }
  intros _ w2 E2. apply wp_bind. eapply wp_lift; [exact Et|]. apply wp_bind. eexists _, _. split; [apply Hupd; by rewrite E2|]. unfold emit. apply wp_modify.
  cbn. split; [done|]. exists t. split; [done|]. unfold const. by rewrite last_snoc.
Qed.

(** C12: A migration never gets stuck (without direct sends).  Whatever happens
    on a connection's loop, in any order (data, timers, callbacks, completed and
    failed writes, responses to counted requests, migration requests, attaches),
    while an open connection on a loop is migrating, a check of the migration is
    scheduled, or a request is out, or a write is in flight, each of which
    schedules the check when it ends; and a check that finds none of them left
    and nothing to flush takes the connection off its loop and posts it to the
    target. *)
Theorem migration_never_stuck w0 w : (exists s e q g v, conn w0 = newConnection s e q g v) -> reaches w0 w -> moving (conn w) ->
  continues (conn w) /\
  (deleted (conn w) = false -> outstandingRequests_ (conn w) = 0 -> pendingWriteBuf_ (conn w) = [] -> inflightBufs_ (conn w) = [] ->
   wp (runMigrateCb cfg) (fun _ w' => loop (conn w') = None /\ exists t, migrateTarget_ (conn w) = Some t /\ last (log w') = Some (PostAttach t)) w).
Proof using direct_off.
  intros (s & e & q & g & v & E) Hr Hm. assert (H0 : migrate_ok 0 (conn w0)) by (rewrite E; apply new_ok).
  pose proof (reaches_ok _ _ H0 Hr) as H. split; [by apply H|]. intros. by apply runMigrateCb_detaches.
Qed.
End migrate.

(** A GET that waits, then a request to move to loop 9. *)
#[local] Existing Instances connDocCache openSocket.
Abbreviation sampleStep := (step (sampleConfig false) sampleCrypto zeros Z.of_nat (fun _ => 0)).
Definition waitingWorld := default cachedWorld (snd <$> sampleStep (Readable (reqBytes (reqHeader OpGet 1 0 9 1 103, [98]))) cachedWorld).
Definition movingWorld := default cachedWorld (snd <$> sampleStep (MigrateRequested (Some 9%positive)) waitingWorld).

Lemma migration_never_stuck_witness : outstandingRequests_ (conn movingWorld) = 1 /\ continues (conn movingWorld) /\
  (deleted (conn movingWorld) = false -> outstandingRequests_ (conn movingWorld) = 0 -> pendingWriteBuf_ (conn movingWorld) = [] -> inflightBufs_ (conn movingWorld) = [] ->
   wp (runMigrateCb (sampleConfig false)) (fun _ w' => loop (conn w') = None /\ exists t, migrateTarget_ (conn movingWorld) = Some t /\ last (log w') = Some (PostAttach t)) movingWorld).
Proof.
  split; [vm_compute; reflexivity|]. apply (migration_never_stuck (sampleConfig false) sampleCrypto zeros Z.of_nat (fun _ => 0) eq_refl cachedWorld movingWorld).
  - by exists 1%positive, 2%positive, [], 0, [].
  - apply (reaches_step _ _ _ _ _ _ waitingWorld (MigrateRequested (Some 9%positive))); [|exact I|vm_compute; reflexivity].
    apply (reaches_step _ _ _ _ _ _ cachedWorld (Readable (reqBytes (reqHeader OpGet 1 0 9 1 103, [98])))); [apply reaches_refl|exact I|vm_compute; reflexivity].
  - vm_compute. by split_and!.
Defined.
