(* ===== verification/Combining.v ===== *)
(** * Reader threads that share a socket (connection.cc, --direct-send)

    With direct sends, reader threads write their responses themselves under
    [sendMu_], which nobody waits for: a sender that finds it taken pushes its
    responses on [sendPending_], tries once more and leaves; a holder sends what
    it finds there, unlocks, and looks again.  Threads are interleaved at every
    atomic operation ([sendDirect], [sendHeld], [drainPendingSends],
    [writeChainLocked], [flushPending]; [releaseOutstanding] and [migrateTo] as
    holders that do not look).  The operations are sequentially consistent, as
    the fences of the source make them. *)
From stdpp Require Import prelude list.
From S2P Require Import Prelude.
Open Scope nat_scope.

Abbreviation resp := nat.
Abbreviation tid := nat.

Inductive pc :=
  | Idle
  | Trying (rs : list resp)     (* sendDirect: the first try_lock *)
  | Pushing (rs : list resp)    (* it failed: the exchange on sendPending_ *)
  | Retrying                    (* the second try_lock *)
  | Locked (rs : list resp)     (* sendHeld: about to take sendPending_ *)
  | Writing (rs : list resp)    (* writeDirectLocked *)
  | Written                     (* about to unlock *)
  | LoopLocked                  (* the loop, writing under the lock *)
  | Checking                    (* unlocked: the look at sendPending_ *)
  | Relocking                   (* it was not empty: try_lock *)
  | Releasing                   (* releaseOutstanding: try_lock *)
  | Brief.                      (* releaseOutstanding, migrateTo: holding *)

Definition inhand (p : pc) : list resp := match p with Trying rs | Pushing rs | Locked rs | Writing rs => rs | _ => [] end.
Definition holds_lock (p : pc) : bool := match p with Locked _ | Writing _ | Written | LoopLocked | Brief => true | _ => false end.

Record state := mkState {
  lock : option tid;
  pending : list resp;
  sent : list resp;
  threads : list pc;
}.
Definition at_pc (s : state) (t : tid) (p : pc) : Prop := threads s !! t = Some p.
Definition goto (s : state) (t : tid) (p : pc) : list pc := <[t := p]> (threads s).

(** [brief]: whether [releaseOutstanding] and [migrateTo] take the lock. *)
Inductive step (brief : bool) (s : state) : list resp -> state -> Prop :=
  | send t rs : at_pc s t Idle -> rs <> [] -> step brief s rs (mkState (lock s) (pending s) (sent s) (goto s t (Trying rs)))
  | try_ok t rs : at_pc s t (Trying rs) -> lock s = None -> step brief s [] (mkState (Some t) (pending s) (sent s) (goto s t (Locked rs)))
  | try_fail t rs : at_pc s t (Trying rs) -> lock s <> None -> step brief s [] (mkState (lock s) (pending s) (sent s) (goto s t (Pushing rs)))
  | push t rs : at_pc s t (Pushing rs) -> step brief s [] (mkState (lock s) (rs ++ pending s) (sent s) (goto s t Retrying))
  | retry_ok t : at_pc s t Retrying -> lock s = None -> step brief s [] (mkState (Some t) (pending s) (sent s) (goto s t (Locked [])))
  | retry_fail t : at_pc s t Retrying -> lock s <> None -> step brief s [] (mkState (lock s) (pending s) (sent s) (goto s t Releasing))
  | exchange t rs : at_pc s t (Locked rs) -> step brief s [] (mkState (lock s) [] (sent s) (goto s t (Writing (rs ++ pending s))))
  | write t rs : at_pc s t (Writing rs) -> step brief s [] (mkState (lock s) (pending s) (sent s ++ rs) (goto s t Written))
  | unlock t : at_pc s t Written -> step brief s [] (mkState None (pending s) (sent s) (goto s t Checking))
  | check_empty t : at_pc s t Checking -> pending s = [] -> step brief s [] (mkState (lock s) (pending s) (sent s) (goto s t Releasing))
  | check_more t : at_pc s t Checking -> pending s <> [] -> step brief s [] (mkState (lock s) (pending s) (sent s) (goto s t Relocking))
  | relock_ok t : at_pc s t Relocking -> lock s = None -> step brief s [] (mkState (Some t) (pending s) (sent s) (goto s t (Locked [])))
  | relock_fail t : at_pc s t Relocking -> lock s <> None -> step brief s [] (mkState (lock s) (pending s) (sent s) (goto s t Releasing))
  | loop_lock t : at_pc s t Idle -> lock s = None -> step brief s [] (mkState (Some t) (pending s) (sent s) (goto s t LoopLocked))
  | loop_unlock t : at_pc s t LoopLocked -> step brief s [] (mkState None (pending s) (sent s) (goto s t Checking))
  | drain t : at_pc s t Idle -> step brief s [] (mkState (lock s) (pending s) (sent s) (goto s t Checking))
  | brief_lock t p : brief = true -> at_pc s t p -> p = Releasing \/ p = Idle -> lock s = None ->
      step brief s [] (mkState (Some t) (pending s) (sent s) (goto s t Brief))
  | release t : at_pc s t Releasing -> step brief s [] (mkState (lock s) (pending s) (sent s) (goto s t Idle))
  | brief_unlock t : at_pc s t Brief -> step brief s [] (mkState None (pending s) (sent s) (goto s t Idle)).

(** From [n] idle threads, after the responses [sub] were given to send. *)
Inductive reach (brief : bool) (n : nat) : list resp -> state -> Prop :=
  | reach_start : reach brief n [] (mkState None [] [] (replicate n Idle))
  | reach_step sub s rs s' : reach brief n sub s -> step brief s rs s' -> reach brief n (sub ++ rs) s'.

Definition hands (s : state) : list resp := concat (inhand <$> threads s).
Definition idle (s : state) : Prop := Forall (eq Idle) (threads s).
(** Someone who will look at [sendPending_] again. *)
Definition looks (p : pc) : bool :=
  match p with Retrying | Locked _ | LoopLocked | Writing _ | Written | Checking | Relocking => true | _ => false end.

(** ** Invariants *)
Record combining_ok (brief : bool) (sub : list resp) (s : state) : Prop := mkOk {
  ok_once : sent s ++ hands s ++ pending s ≡ₚ sub;
  ok_lock t : lock s = Some t <-> exists p, at_pc s t p /\ holds_lock p = true;
  ok_looks : brief = false -> pending s <> [] -> exists t p, at_pc s t p /\ looks p = true;
  ok_brief t p : brief = false -> at_pc s t p -> p <> Brief;
}.

Lemma hands_goto s t p q : at_pc s t p -> concat (inhand <$> goto s t q) ++ inhand p ≡ₚ hands s ++ inhand q.
Proof. apply concat_insert. Qed.
Lemma at_goto s t t' p q : is_Some (threads s !! t) -> goto s t p !! t' = Some q <-> (t' = t /\ q = p) \/ (t' <> t /\ at_pc s t' q).
Proof.
  intros [x Hx]. unfold goto, at_pc. destruct (decide (t' = t)) as [->|Hne].
  - rewrite list_lookup_insert_eq by by eapply lookup_lt_Some. naive_solver.
  - rewrite list_lookup_insert_ne by done. naive_solver.
Qed.

Lemma move_ok brief sub rs s t p q l' pend' sent' : combining_ok brief sub s -> at_pc s t p ->
  sent' ++ inhand q ++ pend' ≡ₚ (sent s ++ inhand p ++ pending s) ++ rs ->
  (l' = lock s /\ holds_lock q = holds_lock p \/ lock s = None /\ l' = Some t /\ holds_lock q = true \/
   holds_lock p = true /\ holds_lock q = false /\ l' = None) ->
  (brief = false -> q <> Brief) ->
  (brief = false -> pend' <> [] -> looks q = true \/ exists t' p', t' <> t /\ at_pc s t' p' /\ looks p' = true) ->
  combining_ok brief (sub ++ rs) (mkState l' pend' sent' (goto s t q)).
Proof.
  intros [H1 H2 H3 H4] Hp Hperm Hlock Hb Hlooks. assert (Hsome : is_Some (threads s !! t)) by (by exists p). split; cbn.
  - pose proof (hands_goto s t p q Hp) as Hh. apply (Permutation_app_inv_r (inhand p)).
    change (hands (mkState l' pend' sent' (goto s t q))) with (concat (inhand <$> goto s t q)).
    transitivity ((sent' ++ inhand q ++ pend') ++ hands s); [|rewrite Hperm, <- H1]; [|solve_Permutation].
    transitivity (sent' ++ pend' ++ (concat (inhand <$> goto s t q) ++ inhand p)); [solve_Permutation|]. rewrite Hh. solve_Permutation.
  - intros t'. unfold at_pc. cbn [threads]. setoid_rewrite at_goto; [|done].
    assert (Hin : (exists p', (t' = t /\ p' = q \/ t' <> t /\ at_pc s t' p') /\ holds_lock p' = true) <->
      (t' = t /\ holds_lock q = true \/ t' <> t /\ lock s = Some t')) by (rewrite H2; naive_solver).
    rewrite Hin. assert (Ht : lock s = Some t <-> holds_lock p = true) by (rewrite H2; unfold at_pc in *; naive_solver).
    destruct Hlock as [[-> E]|[(E1 & -> & E2)|(E1 & E2 & ->)]].
    + rewrite E. destruct (decide (t' = t)) as [->|]; naive_solver.
    + rewrite E1, E2. split; [intros [= ->]; by left|]. intros [[-> _]|[_ ?]]; done.
    + rewrite E2. split; [done|]. intros [[_ ?]|[Hne Hl]]; [done|]. apply Ht in E1. congruence.
  - intros Hbr Hpend. destruct (Hlooks Hbr Hpend) as [Hq|(t' & p' & Hne & Hp' & Hl)].
    + exists t, q. split; [|done]. unfold at_pc. cbn. apply at_goto; [done|]. by left.
    + exists t', p'. split; [|done]. unfold at_pc. cbn. apply at_goto; [done|]. by right.
  - intros t' p' Hbr Hp'. apply at_goto in Hp' as [[-> ->]|[_ Hp']]; [by apply Hb|by eapply H4|done].
Qed.

(** Another thread looks: whoever looked before, or the holder of the lock. *)
Lemma other_looks brief sub s t p : combining_ok brief sub s -> at_pc s t p -> looks p = false ->
  brief = false -> pending s <> [] -> exists t' p', t' <> t /\ at_pc s t' p' /\ looks p' = true.
Proof.
  intros H Hp Hl Hb Hne. destruct (ok_looks _ _ _ H Hb Hne) as (t' & p' & Hp' & Hl'). exists t', p'. split; [|done].
  intros ->. unfold at_pc in *. congruence.
Qed.
Lemma holder_looks brief sub s t p : combining_ok brief sub s -> at_pc s t p -> holds_lock p = false -> lock s <> None ->
  brief = false -> exists t' p', t' <> t /\ at_pc s t' p' /\ looks p' = true.
Proof.
  intros H Hp Hh Hl Hb. destruct (lock s) as [t'|] eqn:E; [|done]. apply (ok_lock _ _ _ H) in E as (p' & Hp' & Hh').
  exists t', p'. split; [intros ->; unfold at_pc in *; congruence|]. split; [done|]. pose proof (ok_brief _ _ _ H t' p' Hb Hp'). by destruct p'.
Qed.

Lemma combining_step_ok brief sub s rs s' : combining_ok brief sub s -> step brief s rs s' -> combining_ok brief (sub ++ rs) s'.
Proof.
  intros H Hs. destruct Hs as [| | | | | | | | | | | | | | | |t p Hbr Hp Hor Hl| |];
    [..|destruct Hor as [-> | ->]| |];
    (eapply move_ok; [exact H|eassumption|cbn; rewrite ?app_nil_r, ?app_nil_l, <- ?app_assoc; try done; solve_Permutation|cbn; auto 6|congruence|]); cbn; intros Hb Hne; try (by left); right;
    first [congruence | by eapply other_looks | by eapply holder_looks].
Qed.

Lemma reach_ok brief n sub s : reach brief n sub s -> combining_ok brief sub s.
Proof.
  induction 1 as [|sub s rs s' _ IH Hs]; [|by eapply combining_step_ok]. split; cbn.
  - unfold hands. cbn. induction n; cbn; [done|]. by rewrite IHn at 1.
  - intros t. split; [done|]. intros (p & Hp & Hh). unfold at_pc in Hp. cbn in Hp. apply lookup_replicate in Hp as [-> _]. done.
  - done.
  - intros t p _ Hp. unfold at_pc in Hp. cbn in Hp. by apply lookup_replicate in Hp as [-> _].
Qed.

(** C15: Responses sent directly are sent exactly once.  However reader threads
    and the loop interleave, every response given to [sendDirect] is written, or
    in the hands of one thread, or on [sendPending_], and in one of these places
    only; at most one thread writes to the socket; and as long as
    [releaseOutstanding] and [migrateTo] do not take the lock, no response is
    left behind: when every thread has returned, all have been written. *)
Theorem combining_sends_once brief n sub s : reach brief n sub s ->
  sent s ++ hands s ++ pending s ≡ₚ sub /\
  (forall t t' p p', at_pc s t p -> at_pc s t' p' -> holds_lock p = true -> holds_lock p' = true -> t = t') /\
  (brief = false -> idle s -> sent s ≡ₚ sub).
Proof.
  intros H%reach_ok. split; [apply H|]. split.
  - intros t t' p p' Hp Hp' Hh Hh'. assert (lock s = Some t) as E by (apply (ok_lock _ _ _ H); by exists p).
    assert (lock s = Some t') as E' by (apply (ok_lock _ _ _ H); by exists p'). congruence.
  - intros Hb Hi. assert (Hh : hands s = []).
    { unfold hands. unfold idle in Hi. induction Hi as [|p ps <- _ IH]; cbn; [done|]. exact IH. }
    destruct (decide (pending s = [])) as [Hp|Hp].
    + pose proof (ok_once _ _ _ H) as Ho. rewrite Hh, Hp, !app_nil_r in Ho. done.
    + destruct (ok_looks _ _ _ H Hb Hp) as (t & p & Ht & Hl). unfold idle in Hi. rewrite Forall_lookup in Hi. by rewrite <- (Hi _ _ Ht) in Hl.
Qed.

(** One sender finds the lock taken, pushes, and gets it on its second try. *)
Lemma run1 brief n sub s s' : reach brief n sub s -> step brief s [] s' -> reach brief n sub s'.
Proof. intros H Hs. rewrite <- (app_nil_r sub). by eapply reach_step. Qed.
Ltac settle := solve [reflexivity | done | by left | by right].
Tactic Notation "run" hyp(H) "with" uconstr(c) := eapply run1 in H; [|eapply c; settle]; cbn in H.
Tactic Notation "run" hyp(H) "sending" uconstr(c) := eapply reach_step in H; [|eapply c; settle]; cbn in H.

Lemma combining_sends_once_witness : exists s, idle s /\ pending s = [] /\ sent s = [1; 2] /\
  (sent s ++ hands s ++ pending s ≡ₚ [1; 2] /\
   (forall t t' p p', at_pc s t p -> at_pc s t' p' -> holds_lock p = true -> holds_lock p' = true -> t = t') /\
   (false = false -> idle s -> sent s ≡ₚ [1; 2])).
Proof.
  pose proof (reach_start false 2) as H. cbn in H.
  run H sending (send _ _ 0 [1]).
  run H with (try_ok _ _ 0 [1]).
  run H sending (send _ _ 1 [2]).
  run H with (try_fail _ _ 1 [2]).
  run H with (exchange _ _ 0 [1]). run H with (push _ _ 1 [2]). run H with (write _ _ 0 [1]).
  run H with (unlock _ _ 0). run H with (retry_ok _ _ 1). run H with (check_more _ _ 0).
  run H with (relock_fail _ _ 0). run H with (exchange _ _ 1 []). run H with (write _ _ 1 [2]).
  run H with (unlock _ _ 1). run H with (check_empty _ _ 1). run H with (release _ _ 0). run H with (release _ _ 1).
  eexists. split; [|split; [|split; [|exact (combining_sends_once false 2 [1; 2] _ H)]]]; [|reflexivity|reflexivity]. repeat constructor.
Defined.

(** C38: A response can be stranded.  [releaseOutstanding] takes the lock to drop
    its counts and does not look at [sendPending_] when it gives it back: a
    sender whose two tries fall in that time leaves its response to a thread
    that will not send it.  Both threads have returned, the response is on
    [sendPending_], and nobody will look until the next send or flush of the
    connection, which may never come, as the client waits for this response. *)
Theorem stranded_response : exists s, reach true 2 [1; 2] s /\ idle s /\ lock s = None /\ sent s = [1] /\ pending s = [2].
Proof.
  pose proof (reach_start true 2) as H. cbn in H.
  run H sending (send _ _ 0 [1]).
  run H with (try_ok _ _ 0 [1]). run H with (exchange _ _ 0 [1]). run H with (write _ _ 0 [1]).
  run H with (unlock _ _ 0). run H with (check_empty _ _ 0).
  run H with (brief_lock _ _ 0 Releasing).
  run H sending (send _ _ 1 [2]).
  run H with (try_fail _ _ 1 [2]). run H with (push _ _ 1 [2]). run H with (retry_fail _ _ 1).
  run H with (brief_unlock _ _ 0). run H with (release _ _ 1).
  eexists. split; [exact H|]. split; [repeat constructor|done].
Qed.
