(* ===== verification/ConnDirect.v ===== *)
(** * Direct sends (connection.cc, --direct-send)

    What one holder of the send lock does: the bytes it writes are those of the
    buffered path, in order, however much of them the socket takes; and the
    count of outstanding requests never reaches zero off the loop while someone
    waits for zero. *)
From stdpp Require Import prelude gmap list strings.
From Stdlib Require Import ZArith Lia.
From coqutil Require Import Datatypes.RecordSettersUsingExistingGetters.
From S2P Require Import Prelude Protocol DocCache Eff Request Magma PersistExamples Dispatch ReadPath ConnState Connection ConnInv ConnIO ConnExamples.
Open Scope Z_scope.

(** A read's result, as the engine leaves it. *)
Definition result_ok (r : Request) : Prop :=
  is_uint 8 (r_resultDatatype r) /\ Z.of_nat (4 + length (r_responseBuf r)) < 2 ^ 32.

Lemma iov_reply r out : result_ok r -> getReply r out = out ++ concat (iovOf r).
Proof.
  intros [H8 Hl]. unfold getReply, iovOf, directHeader. destruct (IsOK (r_resultStatus r)); cbn [andb].
  - assert (E : appendGetResponse out (r_opaque r) (r_resultSeqno r) (r_resultFlags r) (match r_responseBuf r with [] => None | b => Some b end) (length (r_responseBuf r)) (r_resultDatatype r)
      = out ++ frame (opcode_value OpGet) StSuccess (r_opaque r) (r_resultSeqno r) (r_resultDatatype r) (le_bytes 4 (bswap 4 (r_resultFlags r))) [] (r_responseBuf r)).
    { destruct (r_responseBuf r) as [|b l] eqn:Eb; [|by apply appendGetResponse_frame]. rewrite <- (appendGetResponse_frame out _ _ _ [] _ H8 Hl). reflexivity. }
    rewrite E. unfold frame. rewrite length_le_bytes. cbn [length]. rewrite Nat.add_0_r, u32_small by lia.
    replace (Z.of_nat (4 + length (r_responseBuf r))) with (4 + Z.of_nat (length (r_responseBuf r))) by lia.
    case_bool_decide as Hb; cbn [concat]; rewrite ?app_nil_r, <- ?app_assoc; [done|]. rewrite Hb. by rewrite app_nil_r.
  - cbn [concat]. rewrite app_nil_r. unfold appendEmptyResponse. rewrite response_frame by (simpl; lia). unfold frame. cbn. done.
Qed.

Lemma spillTail_drop skip iov : spillTail skip iov = drop skip (concat iov).
Proof.
  revert skip. induction iov as [|v iov IH]; intros skip; cbn [spillTail concat]; [by rewrite drop_nil|].
  rewrite drop_app. destruct (Nat.leb_spec (length v) skip).
  - rewrite IH, (drop_ge v) by lia. done.
  - rewrite IH, drop_0. by replace (skip - length v)%nat with 0%nat by lia.
Qed.

Lemma chunks_all n l : (length l <= n)%nat -> concat (chunks n l) = l /\ Forall (fun x => x <> []) (chunks n l).
Proof.
  revert l. induction n as [|n IH]; intros [|p l] Hl; cbn in Hl; try lia; try done. cbn [chunks concat].
  destruct (IH (drop kMaxPerSend (p :: l))) as [E1 E2]; [rewrite length_drop; unfold kMaxPerSend; cbn; lia|]. rewrite E1, take_drop. split; [done|]. by constructor.
Qed.

Section direct.
Context {Q K C : Type} `{IQ : IOBufQueue Q} `{SK : AsyncSocket K, SKL : !AsyncSocketLaws K} `{DC : DocCache C}.
Abbreviation world := (World Q K C).
Implicit Types (w : world).
Hypothesis sends_succeed : forall (k : K) b, (sock_sendmsg k b).2 <> SendFailed.

(** The response stream: on the wire, then spilled. *)
Definition stream_out (w : world) : list Z := wrote (log w) ++ spill_ (conn w).
(** What is posted to the loop will drop the rest of the count there. *)
Definition postedBy (e : Effect) : Z := match e with PostFinish _ b => Z.of_nat (length b) | PostRelease _ k => k | _ => 0 end.
Definition posted (l : list Effect) : Z := foldr (fun e n => postedBy e + n) 0 l.
Arguments posted l : simpl never.
Definition owed (w : world) : Z := outstandingRequests_ (conn w) - posted (log w).
Definition handedOff (w : world) : Prop := exists evb b, PostFinish evb b ∈ log w.

(** The requests newly handed to the loop. *)
Definition postedReqs (e : Effect) : list ptr := match e with PostFinish _ b => b | _ => [] end.
Definition hands (w w' : world) (ps : list ptr) : Prop := exists es, log w' = log w ++ es /\ es ≫= postedReqs = ps.
Lemma hands_nil w w' : log w' = log w -> hands w w' [].
Proof. intros E. exists []. by rewrite app_nil_r. Qed.
Lemma hands_one w w' e : log w' = log w ++ [e] -> hands w w' (postedReqs e).
Proof. intros E. exists [e]. split; [done|]. cbn. by rewrite app_nil_r. Qed.
Lemma hands_trans w w1 w2 ps qs : hands w w1 ps -> hands w1 w2 qs -> hands w w2 (ps ++ qs).
Proof. intros (e1 & E1 & <-) (e2 & E2 & <-). exists (e1 ++ e2). by rewrite E2, E1, app_assoc, bind_app. Qed.
Lemma hands_off w w' ps : hands w w' ps -> forall evb b, PostFinish evb b ∈ log w -> PostFinish evb b ∈ log w'.
Proof. intros (es & -> & _) evb b Hb. set_solver. Qed.

Lemma posted_snoc l e : posted (l ++ [e]) = posted l + postedBy e.
Proof. unfold posted. induction l as [|e' l IH]; cbn; lia. Qed.

Definition unsent (c : Connection Q) := (self c, loop c, closing_ c, deleted c, sendClosed_ c, drainWatch_ c, sendPending_ c, returned_ c, outstandingRequests_ c).

Lemma mapM_rget w ps rs : Forall2 (fun p r => b_heap (bucket w) !! p = Some r) ps rs ->
  mapM rget ps w = Some (rs, w).
Proof.
  induction 1 as [|p r ps rs Hp _ IH]; [done|]. cbn [mapM]. unfold mbind, eff_bind in *. unfold rget at 1, heap, gets, lift, mbind, eff_bind. cbn. rewrite Hp. rewrite IH. done.
Qed.

Lemma writeDirectLocked_spec w ps rs : Forall2 (fun p r => b_heap (bucket w) !! p = Some r) ps rs -> deleted (conn w) = false -> sendClosed_ (conn w) = false ->
  wp (writeDirectLocked ps) (fun post w' => stream_out w' = stream_out w ++ concat (rs ≫= iovOf) /\ bucket w' = bucket w /\ unsent (conn w') = unsent (conn w) /\
    posted (log w') = posted (log w) /\ hands w w' [] /\
    (spillPosted_ (conn w) = true -> spillPosted_ (conn w') = true) /\
    (spillPosted_ (conn w) = false -> spillPosted_ (conn w') = true -> post = true) /\
    ((spill_ (conn w) <> [] -> spillPosted_ (conn w) = true) -> spill_ (conn w') <> [] -> spillPosted_ (conn w') = true)) w.
Proof using SKL sends_succeed.
  intros Hrs Hd Hc. unfold writeDirectLocked. apply wp_bind. exists rs, w. split; [by apply mapM_rget|]. apply wp_bind, wp_this; [done|]. rewrite Hc. cbn zeta.
  set (iov := rs ≫= iovOf). apply wp_bind.
  apply (wp_mono _ (fun n w1 => (n <= length (concat iov))%nat /\ conn w1 = conn w /\ bucket w1 = bucket w /\ posted (log w1) = posted (log w) /\ hands w w1 [] /\
    ((n = 0%nat /\ wrote (log w1) = wrote (log w)) \/ (spill_ (conn w) = [] /\ wrote (log w1) = wrote (log w) ++ take n (concat iov))))).
  { destruct (bool_decide (spill_ (conn w) = []) && (follyWrites_ (conn w) =? 0)) eqn:Eg.
    - apply andb_prop in Eg as [Eg%bool_decide_eq_true _]. unfold trySend. apply wp_bind, wp_get. pose proof (sendmsg_law (socket w) (concat iov)) as Hlaw.
      pose proof (sends_succeed (socket w) (concat iov)) as Hok. destruct (sock_sendmsg (socket w) (concat iov)) as [k res]. apply wp_bind, wp_modify.
      destruct res as [n| |]; [|apply wp_ret; cbn; split_and!; try done; [lia|by apply hands_nil|by left]|done].
      apply wp_bind, wp_emit, wp_ret. cbn. unfold const. split; [by eapply Hlaw|]. split; [done|]. split; [done|]. split; [rewrite posted_snoc; cbn; lia|].
      split; [by apply (hands_one _ _ (Wrote (take n (concat iov))))|]. right. split; [done|]. rewrite wrote_app. cbn. by rewrite app_nil_r.
    - apply wp_ret. split_and!; try done; [lia|by apply hands_nil|by left]. }
  intros n w1 (Hn & Ec & Eb & Ep & Hpre & Hw).
  assert (Hstream : stream_out w ++ concat iov = wrote (log w1) ++ spill_ (conn w) ++ drop n (concat iov)).
  { unfold stream_out. destruct Hw as [[-> ->]|[-> ->]]; [by rewrite drop_0, <- app_assoc|]. rewrite app_nil_r, app_nil_l. rewrite <- (take_drop n (concat iov)) at 1. by rewrite app_assoc. }
  destruct (Nat.ltb_spec n (length (concat iov))).
  - apply wp_bind, wp_upd; [by rewrite Ec|]. apply wp_ret. rewrite spillTail_drop, Hstream. unfold stream_out, unsent. cbn. unfold const. rewrite Ec, Eb.
    split_and!; try done. by intros ->.
  - apply wp_ret. rewrite Hstream. unfold stream_out. rewrite Ec, Eb, drop_ge, app_nil_r by lia. split_and!; try done. congruence.
Qed.

(** ** Finishing *)
Lemma chainReset_spec ps : forall head l w, NoDup ps -> (forall p, p ∈ ps -> is_Some (b_heap (bucket w) !! p)) -> chain (b_heap (bucket w)) head l None ->
  (forall p, p ∈ ps -> p ∉ l) ->
  wp (chainReset head ps) (fun head' w' => exists h', w' = { w with bucket := with_heap (bucket w) h' } /\ chain h' head' (reverse ps ++ l) None /\
    (forall p, p ∉ ps -> h' !! p = b_heap (bucket w) !! p) /\ (forall p, is_Some (h' !! p) <-> is_Some (b_heap (bucket w) !! p))) w.
Proof.
  induction ps as [|p ps IH]; intros head l w Hnd Hin Hc Hdis; cbn [chainReset].
  - apply wp_ret. exists (b_heap (bucket w)). split; [by destruct w as [? []]|done].
  - apply NoDup_cons in Hnd as [Hp Hnd]. destruct (Hin p) as [r Hr]; [by left|]. apply wp_bind. eapply wp_rget; [exact Hr|]. apply wp_bind, wp_rput.
    set (h1 := <[p := set_hook head (reset r)]> (b_heap (bucket w))).
    eapply wp_mono; [apply (IH (Some p) (p :: l)); [done|..]|].
    + intros q Hq. change (is_Some (h1 !! q)). unfold h1. destruct (decide (q = p)) as [->|]; [by rewrite lookup_insert_eq|]. rewrite lookup_insert_ne by done. apply Hin. by right.
    + split; [done|]. exists (set_hook head (reset r)). split; [apply lookup_insert_eq|]. cbn. apply chain_insert; [|done]. apply Hdis. by left.
    + intros q Hq [->|Hql]%elem_of_cons; [done|]. apply (Hdis q); [by right|done].
    + intros head' w' (h' & -> & Hch & Hfr & Hdom). exists h'. split; [done|]. split; [|split].
      * rewrite reverse_cons, <- app_assoc. exact Hch.
      * intros q [Hne Hq]%not_elem_of_cons. rewrite (Hfr q Hq). change (h1 !! q = b_heap (bucket w) !! q). unfold h1. by rewrite lookup_insert_ne.
      * intros q. rewrite Hdom. change (is_Some (h1 !! q) <-> is_Some (b_heap (bucket w) !! q)). unfold h1.
        destruct (decide (q = p)) as [->|]; [rewrite lookup_insert_eq, Hr; done|by rewrite lookup_insert_ne].
Qed.

(** What finishing leaves alone. *)
Definition sending (w : world) := (deleted (conn w), sendClosed_ (conn w), drainWatch_ (conn w), spill_ (conn w), spillPosted_ (conn w), sendPending_ (conn w), wrote (log w)).
(** The requests of [ps], finished: back in the pool or handed to the loop. *)
Record finished (w : world) (ret ps : list ptr) (w' : world) (ret' ps' : list ptr) : Prop := mkFinished {
  fi_sending : sending w' = sending w;
  fi_owed : owed w' = owed w - Z.of_nat (length ps);
  fi_watch : drainWatch_ (conn w) = true -> 1 <= outstandingRequests_ (conn w) -> 1 <= outstandingRequests_ (conn w');
  fi_ret : chain (b_heap (bucket w')) (returned_ (conn w')) ret' None;
  fi_all : ret' ++ ps' ≡ₚ ret ++ ps;
  fi_frame p : p ∉ ps -> b_heap (bucket w') !! p = b_heap (bucket w) !! p;
  fi_dom p : is_Some (b_heap (bucket w') !! p) <-> is_Some (b_heap (bucket w) !! p);
  fi_log : hands w w' ps';
}.

Lemma releaseOutstanding_spec w k evb : deleted (conn w) = false -> 0 <= k ->
  wp (releaseOutstanding k evb) (fun _ w' => sending w' = sending w /\ owed w' = owed w - k /\
    (drainWatch_ (conn w) = true -> 1 <= outstandingRequests_ (conn w) -> 1 <= outstandingRequests_ (conn w')) /\
    returned_ (conn w') = returned_ (conn w) /\ bucket w' = bucket w /\ hands w w' []) w.
Proof.
  intros Hd Hk0. unfold releaseOutstanding. apply wp_bind, wp_this; [done|]. destruct (negb (sendClosed_ (conn w)) && negb (drainWatch_ (conn w))) eqn:Eg.
  - apply wp_upd; [done|]. unfold owed. cbn. unfold const. split_and!; try done; [lia| |by apply hands_nil]. intros Hx. rewrite Hx, andb_false_r in Eg. done.
  - cbn zeta. set (v := outstandingRequests_ (conn w)). set (d := if (0 <? k) && (1 <? v) then k `min` (v - 1) else 0). apply wp_bind, wp_upd; [done|].
    assert (Hwatch : 1 <= v -> 1 <= v - d) by (unfold d; case_match; lia). apply wp_when.
    + intros _. apply wp_emit. unfold owed, sending. cbn. unfold const. rewrite wrote_app, posted_snoc. cbn. rewrite app_nil_r. fold v. split_and!; try done; [lia|].
      by apply (hands_one _ _ (PostRelease evb (k - d))).
    + intros Hk. unfold owed. cbn. unfold const. fold v. split_and!; try done; [|by apply hands_nil]. assert (k - d = 0) as E; [|lia]. unfold d in *. case_match; lia.
Qed.

Lemma finishBatch_spec w ret ps post : ps <> [] -> NoDup ps -> (forall p, p ∈ ps -> is_Some (b_heap (bucket w) !! p)) -> deleted (conn w) = false ->
  chain (b_heap (bucket w)) (returned_ (conn w)) ret None -> (forall p, p ∈ ps -> p ∉ ret) ->
  wp (finishBatch ps post) (fun _ w' => exists ret' ps', finished w ret ps w' ret' ps' /\ (if (post : bool) then ret' = ret /\ ps' = ps /\ handedOff w' else ps' = [])) w.
Proof.
  intros Hne Hnd Hin Hd Hc Hdis. destruct ps as [|p ps]; [done|]. destruct (Hin p) as [r Hr]; [by left|]. unfold finishBatch. destruct post.
  - apply wp_bind. eapply wp_rget; [exact Hr|]. apply wp_emit. exists ret, (p :: ps). split; [|split; [done|split; [done|]]].
    + split; try done; cbn; unfold const.
      * unfold sending. cbn. unfold const. rewrite wrote_app. cbn. by rewrite app_nil_r.
      * unfold owed. cbn. unfold const. rewrite posted_snoc. cbn. lia.
      * by apply (hands_one _ _ (PostFinish (r_evb r) (p :: ps))).
    + exists (r_evb r), (p :: ps). cbn. unfold const. set_solver.
  - unfold finishDirect. apply wp_bind. eapply wp_rget; [exact Hr|]. apply wp_bind, wp_this; [done|]. apply wp_bind.
    eapply wp_mono; [by apply chainReset_spec|]. intros head w1 (h' & -> & Hch & Hfr & Hdom). apply wp_bind, wp_upd; [done|].
    eapply wp_mono; [apply releaseOutstanding_spec; [done|lia]|]. intros _ w2 (E1 & E2 & E3 & E4 & E5 & E6). exists (reverse (p :: ps) ++ ret), []. split; [|done].
    split.
    + rewrite E1. done.
    + rewrite E2. done.
    + exact E3.
    + rewrite E4, E5. exact Hch.
    + rewrite app_nil_r, reverse_Permutation. apply Permutation_app_comm.
    + intros q Hq. rewrite E5. by apply Hfr.
    + intros q. rewrite E5. apply Hdom.
    + exact E6.
Qed.

(** ** All of them *)
Lemma sendChunks_spec ls : forall w rs, Forall2 (fun p r => b_heap (bucket w) !! p = Some r) (concat ls) rs -> deleted (conn w) = false -> sendClosed_ (conn w) = false ->
  wp (sendChunks ls) (fun res w' => res.*1 = ls /\ stream_out w' = stream_out w ++ concat (rs ≫= iovOf) /\ bucket w' = bucket w /\ unsent (conn w') = unsent (conn w) /\
    posted (log w') = posted (log w) /\ hands w w' [] /\ (spillPosted_ (conn w) = true -> spillPosted_ (conn w') = true) /\
    (spillPosted_ (conn w) = false -> spillPosted_ (conn w') = true -> exists x, (x, true) ∈ res) /\
    ((spill_ (conn w) <> [] -> spillPosted_ (conn w) = true) -> spill_ (conn w') <> [] -> spillPosted_ (conn w') = true)) w.
Proof using SKL sends_succeed.
  induction ls as [|x ls IH]; intros w rs Hrs Hd Hc; cbn [sendChunks concat].
  - apply Forall2_nil_inv_l in Hrs as ->. apply wp_ret. cbn. rewrite app_nil_r. split_and!; try done; [by apply hands_nil|congruence].
  - apply Forall2_app_inv_l in Hrs as (r1 & r2 & H1 & H2 & ->). apply wp_bind. eapply wp_mono; [by apply writeDirectLocked_spec|].
    intros post w1 (E1 & E2 & E3 & E4 & E5 & E6 & E7 & E8). apply wp_bind. eapply wp_mono; [apply (IH w1 r2)|].
    { by rewrite E2. } { unfold unsent in E3. congruence. } { unfold unsent in E3. congruence. }
    intros res w2 (F0 & F1 & F2 & F3 & F4 & F5 & F6 & F7 & F8). apply wp_ret. split; [cbn; by f_equal|].
    split; [by rewrite F1, E1, bind_app, concat_app, app_assoc|]. split; [congruence|]. split; [congruence|]. split; [congruence|]. split; [by apply (hands_trans w w1 w2 [] [])|].
    split; [by intros; apply F6, E6|]. split; [|by intros; apply F8; [|done]; intros; apply E8].
    intros Hf Ht. destruct (spillPosted_ (conn w1)) eqn:Ew1; [|destruct (F7 eq_refl Ht) as [y Hy]; exists y; by right].
    exists x. rewrite (E7 Hf eq_refl). by left.
Qed.

Lemma finished_nil w ret : chain (b_heap (bucket w)) (returned_ (conn w)) ret None -> finished w ret [] w ret [].
Proof. intros Hc. split; try done; [cbn; lia|by apply hands_nil]. Qed.
Lemma finished_trans w ret ps w1 ret1 h1 qs w2 ret2 h2 : finished w ret ps w1 ret1 h1 -> finished w1 ret1 qs w2 ret2 h2 -> finished w ret (ps ++ qs) w2 ret2 (h1 ++ h2).
Proof.
  intros [A1 A2 A3 A4 A5 A6 A7 A8] [B1 B2 B3 B4 B5 B6 B7 B8]. unfold sending in *. split.
  - unfold sending. congruence.
  - rewrite B2, A2, length_app. lia.
  - intros H1 H2. apply B3; [congruence|]. by apply A3.
  - done.
  - transitivity ((ret2 ++ h2) ++ h1); [solve_Permutation|]. rewrite B5. transitivity ((ret1 ++ h1) ++ qs); [solve_Permutation|]. rewrite A5. solve_Permutation.
  - intros p [Hp Hq]%not_elem_of_app. by rewrite B6, A6.
  - intros p. by rewrite B7, A7.
  - by eapply hands_trans.
Qed.

Lemma finishAll_spec res : forall w ret, Forall (fun x => x.1 <> []) res -> NoDup (concat res.*1) -> (forall p, p ∈ concat res.*1 -> is_Some (b_heap (bucket w) !! p)) ->
  deleted (conn w) = false -> chain (b_heap (bucket w)) (returned_ (conn w)) ret None -> (forall p, p ∈ concat res.*1 -> p ∉ ret) ->
  wp (each (fun x => finishBatch x.1 x.2) res) (fun _ w' => exists ret' ps', finished w ret (concat res.*1) w' ret' ps' /\ ((exists x, (x, true) ∈ res) -> handedOff w')) w.
Proof.
  induction res as [|[ps post] res IH]; intros w ret Hne Hnd Hin Hd Hc Hdis; cbn [each].
  - apply wp_ret. exists ret, []. split; [by apply finished_nil|]. intros [x Hx]. set_solver.
  - apply Forall_cons in Hne as [Hn Hne]. cbn [fmap list_fmap concat fst] in *. apply NoDup_app in Hnd as (Hnd1 & Hd12 & Hnd2).
    apply wp_bind. eapply wp_mono; [apply finishBatch_spec; try done; intros p Hp; [apply Hin|apply Hdis]; set_solver|].
    intros _ w1 (ret1 & ps1 & Hf1 & Hp1). eapply wp_mono; [apply (IH w1 ret1); try done|].
    + intros p Hp. apply (fi_dom _ _ _ _ _ _ Hf1). apply Hin. set_solver.
    + pose proof (fi_sending _ _ _ _ _ _ Hf1) as E. unfold sending in E. congruence.
    + apply Hf1.
    + intros p Hp Hr. assert (p ∈ ret1 ++ ps1) as Hr' by set_solver. rewrite (fi_all _ _ _ _ _ _ Hf1) in Hr'. apply elem_of_app in Hr' as [Hr'|Hr'].
      * apply (Hdis p); [set_solver|done].
      * by apply (Hd12 p).
    + intros _ w2 (ret2 & ps2 & Hf2 & Hh2). exists ret2, (ps1 ++ ps2). split; [by eapply finished_trans|]. intros [x [Hx|Hx]%elem_of_cons].
      * injection Hx as -> <-. destruct Hp1 as (_ & _ & evb & b & Hb). exists evb, b. by eapply hands_off; [apply Hf2|].
      * apply Hh2. by exists x.
Qed.

Lemma replies_iov rs out : Forall result_ok rs -> foldl (fun out r => getReply r out) out rs = out ++ concat (rs ≫= iovOf).
Proof.
  intros H. revert out. induction H as [|r rs Hr _ IH]; intros out; cbn [foldl]; [cbn; by rewrite app_nil_r|].
  by rewrite IH, (iov_reply r out Hr), bind_cons, concat_app, app_assoc.
Qed.

(** Taking the requests off [sendPending_] changes their links only. *)
Lemma unlinked_reads h h' ps rs : hooks_only h h' -> Forall2 (fun p r => h !! p = Some r) ps rs ->
  exists rs', Forall2 (fun p r => h' !! p = Some r) ps rs' /\ rs' ≫= iovOf = rs ≫= iovOf /\ length rs' = length rs.
Proof.
  intros Hh. induction 1 as [|p r ps rs Hp _ (rs' & H1 & H2 & H3)]; [by exists []|]. destruct (hooks_only_lookup _ _ _ _ Hh Hp) as [v Hv].
  exists (set_hook v r :: rs'). split; [by constructor|]. rewrite !bind_cons, H2. split; [done|]. cbn. by rewrite H3.
Qed.

End direct.

(** A socket that takes 30 bytes at a time, a document read by one reader and a
    miss left by another. *)
#[local] Existing Instance connDocCache.
#[local] Instance slowSocket : AsyncSocket nat := { sock_write k _ := (k, WriteQueued); sock_sendmsg k b := (k, Sent (Nat.min k (length b))) }.
#[local] Instance slowSocket_laws : AsyncSocketLaws nat.
Proof. split. intros k b k' n [= _ <-]. lia. Qed.

Definition readResult (st : Status) (opq : Z) (value : list Z) : Request :=
  mkRequest None [] [] 0 0 7 0 0 opq 0 (Some 1%positive) (Some 2%positive) None st 5 0 0 0 value 0.
Definition readRequests : rheap := <[1%positive := readResult StOK 7 [1; 2; 3]]> (<[2%positive := readResult (StError kInternal) 8 []]> ∅).
Definition directWorld : World (list (list Z)) nat FluxCache :=
  mkWorld _ _ _ { sampleConn with outstandingRequests_ := 2; sendPending_ := Some 2%positive } (with_heap idleBucket readRequests) false 0 emptyStaging idleReaders None None 30%nat 0 [].

Lemma slow_sends (k : nat) b : (sock_sendmsg k b).2 <> SendFailed.
Proof. done. Qed.

