(* ===== verification/Consistency.v ===== *)
(** * What a client reads: cache, write queues and store together

    The engine's consistency argument (cache/doccache.h, engine.cc,
    connection.cc) as a transition system over any cache that keeps the
    [DocCache] contract and any store that keeps the [Magma] interface.  A
    write is put in the cache and staged (handleSet, handleDelete), pushed to
    its vbucket's queue (FlushStaged), swept, written in a de-duplicated batch
    and acknowledged to the cache one request at a time (executePersist);
    reads that missed fetch from the store at any time and fill the cache at
    any later time (executeRead, fillCache); the budget moves at any time.
    [y_spec] records, per key, the newest write put so far. *)
From stdpp Require Import prelude gmap list.
From Stdlib Require Import ZArith Lia.
From S2P Require Import Prelude Metadata Protocol DocCache Request WriteBatch Magma Persist ReadPath.
Open Scope Z_scope.

(** A document as a client sees it: value, flags, expiry, datatype. *)
Definition Version : Type := list Z * Z * Z * Z.

Definition ver_of_req (r : Request) : option Version :=
  if isDelete r then None else Some (r_value r, r_flags r, r_expiry r, r_datatype r).
Definition ver_of_doc (d : CachedDoc) : option Version :=
  if d_deleted d then None else Some (d_value d, d_flags d, d_expiry d, d_datatype d).
Definition ver_of_stored (mv : list Z * list Z) : Version :=
  let dm := decodeOrZero mv.1 in (mv.2, flags dm, expiry dm, datatype dm).

Definition req_ok (r : Request) : Prop :=
  vb_ok (r_vbucket r) /\ bytes_ok (r_key r) /\ Z.of_nat (length (r_key r)) < 2 ^ 32 /\
  is_uint 32 (r_flags r) /\ is_uint 32 (r_expiry r) /\ is_uint 8 (r_datatype r).

Section system.
Context {M S : Type} `{MG : Magma M} `{DC : DocCache S}.
Context (cfg : PersistConfig) (reachesThreshold : nat * nat -> bool).

Record Sys := mkSys {
  y_cache : S;
  y_magma : M;
  y_staged : list (ptr * Request);          (* put in the cache, not yet pushed *)
  y_queue : Z -> list (ptr * Request);      (* in arrival order *)
  y_batch : Z -> list (ptr * Request);      (* swept, not yet written *)
  y_acks : Z -> list (list Z * Z);          (* written, MarkPersisted to come *)
  y_seqno : Z -> Z;
  y_reads : list (Z * list Z * option (list Z * list Z));  (* fetched, not yet filled *)
  y_spec : Z -> list Z -> option Version;
}.

Definition at_vb {A} (f : Z -> A) (vb : Z) (x : A) : Z -> A := fun w => if decide (w = vb) then x else f w.
Definition at_key (f : Z -> list Z -> option Version) (vb : Z) (k : list Z) (x : option Version)
  : Z -> list Z -> option Version := fun w k' => if decide (w = vb /\ k' = k) then x else f w k'.

Definition writes (vb : Z) (k : list Z) (pr : ptr * Request) : Prop := r_vbucket pr.2 = vb /\ r_key pr.2 = k.
#[global] Instance writes_dec vb k pr : Decision (writes vb k pr).
Proof. unfold writes. apply _. Defined.

(** Write-through insert of a request, by value or sharing its buffer. *)
Definition putRequest (c : S) (r : Request) (shared : option Z) : option S :=
  match shared with
  | None => Put c (r_vbucket r) (r_key r) (r_value r) (r_flags r) (r_expiry r) (r_datatype r) (isDelete r)
  | Some capacity =>
      PutShared c (r_vbucket r) (r_key r) (r_value r) capacity (r_flags r) (r_expiry r) (r_datatype r) (isDelete r)
  end.

Definition batchOps (n cas : Z) (kept : list (ptr * Request)) : list WriteOperation :=
  imap (fun i pr => opOf cfg pr.2 (n + 1 + Z.of_nat i) cas) kept.
Definition batchAcks (n : Z) (kept : list (ptr * Request)) : list (list Z * Z) :=
  imap (fun i pr => (r_key pr.2, n + 1 + Z.of_nat i)) kept.

Inductive sys_step : Sys -> Sys -> Prop :=
  (** handleSet / handleDelete: Put, then StageWrite accepts. *)
  | s_put y p r shared c' : req_ok r -> (forall cap, shared = Some cap -> 0 <= cap) ->
      (forall c1 d, Get (y_cache y) (r_vbucket r) (r_key r) = Some (c1, Some d) -> d_pending d + 1 < 2 ^ 32) ->
      putRequest (y_cache y) r shared = Some c' ->
      sys_step y (mkSys c' (y_magma y) (y_staged y ++ [(p, r)]) (y_queue y) (y_batch y) (y_acks y) (y_seqno y)
                    (y_reads y) (at_key (y_spec y) (r_vbucket r) (r_key r) (ver_of_req r)))
  (** FlushStaged, one request: writes of one key are pushed in the order they
      were put. *)
  | s_push y p r l1 l2 : y_staged y = l1 ++ (p, r) :: l2 ->
      Forall (fun pr => ~ writes (r_vbucket r) (r_key r) pr) l1 ->
      sys_step y (mkSys (y_cache y) (y_magma y) (l1 ++ l2)
                    (at_vb (y_queue y) (r_vbucket r) (y_queue y (r_vbucket r) ++ [(p, r)]))
                    (y_batch y) (y_acks y) (y_seqno y) (y_reads y) (y_spec y))
  (** executePersist: sweepOnce and reverse, by the vbucket's one owner. *)
  | s_sweep y vb : vb_ok vb -> y_batch y vb = [] -> y_acks y vb = [] ->
      sys_step y (mkSys (y_cache y) (y_magma y) (y_staged y) (at_vb (y_queue y) vb [])
                    (at_vb (y_batch y) vb (y_queue y vb)) (y_acks y) (y_seqno y) (y_reads y) (y_spec y))
  (** executePersist: sort and de-duplicate, WriteDocs succeeds. *)
  | s_write y vb cas kept dropped m' st : is_uint 64 cas -> Z.of_nat (length (y_batch y vb)) < 2 ^ 32 ->
      y_seqno y vb + Z.of_nat (length (y_batch y vb)) < 2 ^ 64 ->
      chooseBatch cfg reachesThreshold (y_batch y vb) = (kept, dropped) ->
      WriteDocs (y_magma y) vb (batchOps (y_seqno y vb) cas kept) = (m', st) -> IsOK st = true ->
      y_acks y vb = [] ->
      sys_step y (mkSys (y_cache y) m' (y_staged y) (y_queue y) (at_vb (y_batch y) vb [])
                    (at_vb (y_acks y) vb (batchAcks (y_seqno y vb) kept))
                    (at_vb (y_seqno y) vb (y_seqno y vb + Z.of_nat (length kept))) (y_reads y) (y_spec y))
  (** executePersist: one MarkPersisted. *)
  | s_ack y vb k n l c' : y_acks y vb = (k, n) :: l -> MarkPersisted (y_cache y) vb k n = Some c' ->
      sys_step y (mkSys c' (y_magma y) (y_staged y) (y_queue y) (y_batch y) (at_vb (y_acks y) vb l) (y_seqno y)
                    (y_reads y) (y_spec y))
  (** executeRead: fetch from the store. *)
  | s_read y vb k : vb_ok vb ->
      sys_step y (mkSys (y_cache y) (y_magma y) (y_staged y) (y_queue y) (y_batch y) (y_acks y) (y_seqno y)
                    (y_reads y ++ [(vb, k, found (MagmaGet (y_magma y) vb k))]) (y_spec y))
  (** executeRead: fill the cache with what was found, or answer a miss. *)
  | s_fill y vb k mv l1 l2 c' : y_reads y = l1 ++ (vb, k, Some mv) :: l2 -> fillCache (y_cache y) vb k mv = Some c' ->
      sys_step y (mkSys c' (y_magma y) (y_staged y) (y_queue y) (y_batch y) (y_acks y) (y_seqno y)
                    (l1 ++ l2) (y_spec y))
  | s_miss y vb k l1 l2 : y_reads y = l1 ++ (vb, k, None) :: l2 ->
      sys_step y (mkSys (y_cache y) (y_magma y) (y_staged y) (y_queue y) (y_batch y) (y_acks y) (y_seqno y)
                    (l1 ++ l2) (y_spec y))
  (** handleGet and the memory governor. *)
  | s_get y vb k c' r : vb_ok vb -> Get (y_cache y) vb k = Some (c', r) ->
      sys_step y (mkSys c' (y_magma y) (y_staged y) (y_queue y) (y_batch y) (y_acks y) (y_seqno y)
                    (y_reads y) (y_spec y))
  | s_budget y maxBytes c' : SetBudget (y_cache y) maxBytes = Some c' ->
      sys_step y (mkSys c' (y_magma y) (y_staged y) (y_queue y) (y_batch y) (y_acks y) (y_seqno y)
                    (y_reads y) (y_spec y)).

(** A fetched document that is no longer current is only in flight while its key
    is resident: no entry is evicted between a write's acknowledgement and the
    end of the reads of its key that fetched before it. *)
Definition no_stale_reader (y : Sys) : Prop :=
  forall vb k mv, (vb, k, Some mv) ∈ y_reads y -> Some (ver_of_stored mv) <> y_spec y vb k ->
    exists c' d, Get (y_cache y) vb k = Some (c', Some d).

(** A server started with an empty cache over a store [m]. *)
Definition startSys (c : S) (m : M) (n : Z -> Z) : Sys :=
  mkSys c m [] (fun _ => []) (fun _ => []) (fun _ => []) n [] (fun vb k => ver_of_stored <$> stored m vb !! k).

Inductive sys_run : Sys -> Prop :=
  | run_start c m n : cache_rep c ∅ -> (forall vb, 0 <= n vb) -> sys_run (startSys c m n)
  | run_step y y' : sys_run y -> sys_step y y' -> no_stale_reader y' -> sys_run y'.
End system.

(** ** What the cached documents have to be

    [spec] is the newest write of each key and [out] the number of its writes
    the cache has not been told about. *)
Definition docs_ok (A : docs) (spec : Z -> list Z -> option Version) (out : Z -> list Z -> Z) : Prop :=
  (forall vb k d, vb_ok vb -> A !! docKey vb k = Some d -> ver_of_doc d = spec vb k) /\
  (forall vb k, vb_ok vb -> 0 < out vb k -> exists d, A !! docKey vb k = Some d /\ out vb k <= d_pending d).

Lemma vb_ok_uint vb : vb_ok vb -> is_uint 16 vb.
Proof. unfold vb_ok, is_uint, kMaxVBuckets. lia. Qed.

Lemma docKey_ne vb k vb' k' : vb_ok vb -> vb_ok vb' -> ~ (vb' = vb /\ k' = k) -> docKey vb k <> docKey vb' k'.
Proof.
  intros Hv Hv' Hne He. apply docKey_inj in He as [-> ->]; [by apply Hne|by apply vb_ok_uint..].
Qed.

Lemma docs_ok_ext A spec spec' out out' :
  (forall vb k, vb_ok vb -> spec' vb k = spec vb k) -> (forall vb k, vb_ok vb -> out' vb k <= out vb k) ->
  docs_ok A spec out -> docs_ok A spec' out'.
Proof.
  intros Hs Ho [H1 H2]. split.
  - intros vb k d Hv Hd. rewrite Hs by done. eauto.
  - intros vb k Hv Hpos. destruct (H2 vb k Hv) as (d & Hd & Hle); [specialize (Ho vb k Hv); lia|].
    exists d. split; [done|]. specialize (Ho vb k Hv). lia.
Qed.

Lemma docs_ok_drops A A' spec out : drops A A' -> docs_ok A spec out -> docs_ok A' spec out.
Proof.
  intros [Hsub Hpin] [H1 H2]. split.
  - intros vb k d Hv Hd. apply (H1 vb k d Hv). by eapply lookup_weaken.
  - intros vb k Hv Hpos. destruct (H2 vb k Hv Hpos) as (d & Hd & Hle). exists d. split; [|done].
    apply Hpin; [done|]. unfold pinned. lia.
Qed.

(** One document replaced. *)
Lemma docs_ok_insert A vb k d spec ver out n : vb_ok vb -> docs_ok A spec out ->
  ver_of_doc d = ver -> n <= d_pending d ->
  docs_ok (<[docKey vb k := d]> A) (at_key spec vb k ver) (fun w k' => if decide (w = vb /\ k' = k) then n else out w k').
Proof.
  intros Hv [H1 H2] Hd Hn. split.
  - intros w k' d' Hw. unfold at_key. destruct (decide (w = vb /\ k' = k)) as [[-> ->]|Hne].
    + rewrite lookup_insert_eq. by intros [= <-].
    + rewrite lookup_insert_ne by (by apply docKey_ne). eauto.
  - intros w k' Hw. destruct (decide (w = vb /\ k' = k)) as [[-> ->]|Hne].
    + intros _. exists d. by rewrite lookup_insert_eq.
    + rewrite lookup_insert_ne by (by apply docKey_ne). eauto.
Qed.

Lemma docs_ok_put A A' vb k v fl ex dt del spec out : vb_ok vb -> docs_ok A spec out ->
  put_spec A (docKey vb k) v fl ex dt del A' -> 0 <= pendingOf A (docKey vb k) ->
  docs_ok A' (at_key spec vb k (if del then None else Some (v, fl, ex, dt)))
    (fun w k' => if decide (w = vb /\ k' = k) then Z.max 0 (out w k') + 1 else out w k').
Proof.
  intros Hv Hok Hput Hp. eapply docs_ok_drops; [exact Hput|].
  eapply docs_ok_ext; [| |eapply (docs_ok_insert _ vb k _ spec _ out (Z.max 0 (out vb k) + 1)); [done|done|done|]].
  - done.
  - intros w k' _. simpl. destruct (decide _) as [[-> ->]|]; lia.
  - cbn [d_pending]. destruct Hok as [_ H2]. unfold pendingOf in *.
    destruct (Z.lt_ge_cases 0 (out vb k)) as [Hpos|Hpos].
    + destruct (H2 vb k Hv Hpos) as (d & Hd & Hle). rewrite Hd. lia.
    + lia.
Qed.

Lemma docs_ok_ack A A' vb k n spec out : vb_ok vb -> docs_ok A spec out ->
  markPersisted_spec A (docKey vb k) n A' -> 0 < out vb k ->
  docs_ok A' spec (fun w k' => if decide (w = vb /\ k' = k) then out w k' - 1 else out w k').
Proof.
  intros Hv Hok Hm Hpos. destruct (proj2 Hok vb k Hv Hpos) as (d & Hd & Hle). unfold markPersisted_spec in Hm.
  rewrite Hd in Hm. eapply docs_ok_drops; [exact Hm|].
  eapply docs_ok_ext; [| |eapply (docs_ok_insert _ vb k _ spec (spec vb k) out (out vb k - 1)); [done|done| |]].
  - intros w k' _. unfold at_key. by destruct (decide _) as [[-> ->]|].
  - intros w k' _. simpl. destruct (decide _) as [[-> ->]|]; lia.
  - by rewrite <- (proj1 Hok vb k d Hv Hd).
  - cbn [d_pending]. lia.
Qed.

Lemma docs_ok_fill A A' vb k v n fl ex dt spec out : vb_ok vb -> docs_ok A spec out ->
  putIfAbsent_spec A (docKey vb k) v n fl ex dt A' ->
  (A !! docKey vb k = None -> spec vb k = Some (v, fl, ex, dt)) -> docs_ok A' spec out.
Proof.
  intros Hv Hok [Hd|[Hnone Hd]] Hcur; [by eapply docs_ok_drops|]. eapply docs_ok_drops; [exact Hd|].
  assert (Hout : out vb k <= 0).
  { destruct (Z.lt_ge_cases 0 (out vb k)) as [Hpos|]; [|done]. destruct (proj2 Hok vb k Hv Hpos) as (d & Hd' & _).
    congruence. }
  eapply docs_ok_ext; [| |eapply (docs_ok_insert _ vb k _ spec (spec vb k) out 0); [done|done| |]].
  - intros w k' _. unfold at_key. by destruct (decide _) as [[-> ->]|].
  - intros w k' _. simpl. destruct (decide _) as [[-> ->]|]; lia.
  - by rewrite Hcur.
  - done.
Qed.

(** ** The invariant *)
Section invariant.
Context {M S : Type} `{MG : Magma M, MGL : !MagmaLaws M} `{DC : DocCache S, DCL : !DocCacheLaws S}.
Context (cfg : PersistConfig) (reachesThreshold : nat * nat -> bool).
Abbreviation Sys := (@Sys M S).

(** The writes of a key the store has not seen, oldest first. *)
Definition unwritten (y : Sys) (vb : Z) (k : list Z) : list (ptr * Request) :=
  filter (writes vb k) (y_batch y vb ++ y_queue y vb ++ y_staged y).
Definition cur (y : Sys) (vb : Z) (k : list Z) : option Version :=
  match list.last (unwritten y vb k) with
  | Some pr => ver_of_req pr.2
  | None => ver_of_stored <$> stored (y_magma y) vb !! k
  end.
(** The acknowledgements of a key still to come. *)
Definition unacked (y : Sys) (vb : Z) (k : list Z) : Z :=
  Z.of_nat (length (unwritten y vb k) + length (filter (fun a => a.1 = k) (y_acks y vb))).

Definition of_vb (vb : Z) (l : list (ptr * Request)) : Prop :=
  Forall (fun pr => req_ok pr.2 /\ r_vbucket pr.2 = vb) l.

Record sys_inv (y : Sys) (A : docs) : Prop := mkSysInv {
  si_rep : cache_rep (y_cache y) A;
  si_docs : docs_ok A (y_spec y) (unacked y);
  si_spec vb k : vb_ok vb -> cur y vb k = y_spec y vb k;
  si_staged : Forall (fun pr => req_ok pr.2) (y_staged y);
  si_queue vb : of_vb vb (y_queue y vb);
  si_batch vb : of_vb vb (y_batch y vb);
  si_acks vb : y_acks y vb <> [] -> vb_ok vb;
  si_reads vb k res : (vb, k, res) ∈ y_reads y -> vb_ok vb;
  si_seqno vb : 0 <= y_seqno y vb;
}.

Lemma at_vb_eq {A} (f : Z -> A) vb x : at_vb f vb x vb = x.
Proof. unfold at_vb. by rewrite decide_True. Qed.
Lemma at_vb_ne {A} (f : Z -> A) vb x w : w <> vb -> at_vb f vb x w = f w.
Proof. intros. unfold at_vb. by rewrite decide_False. Qed.

Lemma start_inv c m n : cache_rep c ∅ -> (forall vb, 0 <= n vb) -> sys_inv (startSys c m n) ∅.
Proof.
  intros Hc Hn. split; simpl; [done| |done|constructor|intros; constructor|intros; constructor|done| |done].
  - split; [intros vb k d _ Hd; by rewrite lookup_empty in Hd|]. intros vb k _. unfold unacked, unwritten. simpl. lia.
  - intros vb k res Hr. by apply not_elem_of_nil in Hr.
Qed.

(** Steps that change only the cached documents. *)
Lemma inv_cache y A c' A' : sys_inv y A -> cache_rep c' A' -> docs_ok A' (y_spec y) (unacked y) ->
  sys_inv (mkSys c' (y_magma y) (y_staged y) (y_queue y) (y_batch y) (y_acks y) (y_seqno y) (y_reads y) (y_spec y)) A'.
Proof. intros [] Hc Hd. by split. Qed.

Lemma inv_put y A p r shared c' : sys_inv y A -> req_ok r -> (forall cap, shared = Some cap -> 0 <= cap) ->
  (forall c1 d, Get (y_cache y) (r_vbucket r) (r_key r) = Some (c1, Some d) -> d_pending d + 1 < 2 ^ 32) ->
  putRequest (y_cache y) r shared = Some c' ->
  exists A', sys_inv (mkSys c' (y_magma y) (y_staged y ++ [(p, r)]) (y_queue y) (y_batch y) (y_acks y) (y_seqno y)
                    (y_reads y) (at_key (y_spec y) (r_vbucket r) (r_key r) (ver_of_req r))) A'.
Proof.
  intros [Hrep Hdocs Hspec Hst Hq Hb Ha Hrd Hs] Hr Hcap Hroom Hput. set (vb := r_vbucket r) in *. set (k := r_key r) in *.
  assert (Hv : vb_ok vb) by apply Hr.
  assert (Hpend : 0 <= pendingOf A (docKey vb k) /\ pendingOf A (docKey vb k) + 1 < 2 ^ 32).
  { unfold pendingOf. destruct (A !! docKey vb k) as [d|] eqn:Hd; [|done].
    split; [apply (pending_law _ _ _ _ Hrep Hd)|]. destruct (Get_law _ A vb k Hrep) as (c1 & Hg & _); [by apply vb_ok_uint|].
    rewrite Hd in Hg. eauto. }
  assert (Hc' : exists A', cache_rep c' A' /\
    put_spec A (docKey vb k) (r_value r) (r_flags r) (r_expiry r) (r_datatype r) (isDelete r) A').
  { destruct shared as [cap|]; simpl in Hput; fold vb k in Hput.
    - destruct (PutShared_law _ A vb k (r_value r) cap (r_flags r) (r_expiry r) (r_datatype r) (isDelete r) Hrep)
        as (c1 & A1 & Hp1 & ? & ?); [by apply vb_ok_uint|lia|by apply Hcap|]. rewrite Hput in Hp1. simplify_eq. eauto.
    - destruct (Put_law _ A vb k (r_value r) (r_flags r) (r_expiry r) (r_datatype r) (isDelete r) Hrep)
        as (c1 & A1 & Hp1 & ? & ?); [by apply vb_ok_uint|lia|]. rewrite Hput in Hp1. simplify_eq. eauto. }
  destruct Hc' as (A' & Hrep' & Hps). exists A'.
  assert (Hun : forall w k', unwritten (mkSys c' (y_magma y) (y_staged y ++ [(p, r)]) (y_queue y) (y_batch y) (y_acks y)
      (y_seqno y) (y_reads y) (at_key (y_spec y) vb k (ver_of_req r))) w k' =
    unwritten y w k' ++ if decide (w = vb /\ k' = k) then [(p, r)] else []).
  { intros w k'. unfold unwritten. cbn [y_batch y_queue y_staged]. rewrite !filter_app, !(assoc_L (++)). f_equal.
    destruct (decide (w = vb /\ k' = k)) as [[-> ->]|Hne];
      [by rewrite filter_cons_True|rewrite filter_cons_False; [done|]].
    unfold writes. simpl. fold vb k. naive_solver. }
  split; cbn [y_cache y_staged y_queue y_batch y_acks y_reads y_seqno y_spec]; try done.
  - eapply docs_ok_ext; [| |eapply docs_ok_put; [exact Hv|exact Hdocs|exact Hps|apply Hpend]].
    + intros w k' _. unfold at_key. destruct (decide _); [|done]. unfold ver_of_req. by destruct (isDelete r).
    + intros w k' _. unfold unacked at 1. rewrite Hun, length_app. cbn [y_acks]. unfold unacked.
      destruct (decide (w = vb /\ k' = k)); simpl; lia.
  - intros w k' Hw. unfold cur. rewrite Hun. unfold at_key. destruct (decide (w = vb /\ k' = k)) as [Heq|Hne].
    + by rewrite last_snoc.
    + rewrite app_nil_r. by apply Hspec.
  - apply Forall_app. split; [done|]. by constructor.
Qed.

(** Steps that move requests without changing what is unwritten. *)
Lemma inv_move y A c' staged' queue' batch' reads' : sys_inv y A -> cache_rep c' A ->
  (forall w k, filter (writes w k) (batch' w ++ queue' w ++ staged') = unwritten y w k) ->
  Forall (fun pr => req_ok pr.2) staged' -> (forall w, of_vb w (queue' w)) -> (forall w, of_vb w (batch' w)) ->
  (forall w k res, (w, k, res) ∈ reads' -> vb_ok w) ->
  sys_inv (mkSys c' (y_magma y) staged' queue' batch' (y_acks y) (y_seqno y) reads' (y_spec y)) A.
Proof.
  intros [Hrep Hdocs Hspec Hst Hq Hb Ha Hrd Hs] Hc Hun Hst' Hq' Hb' Hrd'.
  split; cbn [y_cache y_staged y_queue y_batch y_acks y_reads y_seqno y_spec]; try done.
  - eapply docs_ok_ext; [done| |exact Hdocs]. intros w k _. unfold unacked, unwritten. cbn [y_staged y_queue y_batch y_acks].
    rewrite Hun. done.
  - intros w k Hw. unfold cur, unwritten. cbn [y_staged y_queue y_batch y_magma]. rewrite Hun. by apply Hspec.
Qed.

Lemma filter_none {A} (P : A -> Prop) `{!forall x, Decision (P x)} (l : list A) :
  Forall (fun x => ~ P x) l -> filter P l = [].
Proof. induction 1 as [|x l Hx _ IH]; [done|]. by rewrite filter_cons_False. Qed.

Lemma inv_push y A p r l1 l2 : sys_inv y A -> y_staged y = l1 ++ (p, r) :: l2 ->
  Forall (fun pr => ~ writes (r_vbucket r) (r_key r) pr) l1 ->
  sys_inv (mkSys (y_cache y) (y_magma y) (l1 ++ l2)
             (at_vb (y_queue y) (r_vbucket r) (y_queue y (r_vbucket r) ++ [(p, r)]))
             (y_batch y) (y_acks y) (y_seqno y) (y_reads y) (y_spec y)) A.
Proof.
  intros HI Hst Hfirst. pose proof (si_staged _ _ HI) as Hs. rewrite Hst in Hs.
  apply Forall_app in Hs as [Hs1 [Hr Hs2]%Forall_cons].
  apply (inv_move y A); [done|apply HI| |by apply Forall_app| |apply HI|apply HI].
  - intros w k. unfold unwritten. rewrite Hst. rewrite !filter_app. f_equal. rewrite !(assoc_L (++)).
    rewrite filter_cons. destruct (decide (writes w k (p, r))) as [[<- <-]|Hn].
    + simpl. rewrite at_vb_eq, filter_app, filter_cons_True, (filter_none _ l1) by done.
      by rewrite filter_nil, !app_nil_r, <- (assoc_L (++)).
    + destruct (decide (w = r_vbucket r)) as [->|Hne]; [|by rewrite at_vb_ne].
      by rewrite at_vb_eq, filter_app, filter_cons_False, filter_nil, app_nil_r.
  - intros w. destruct (decide (w = r_vbucket r)) as [->|]; [rewrite at_vb_eq|rewrite at_vb_ne by done; apply HI].
    apply Forall_app. split; [apply HI|]. by constructor.
Qed.

Lemma inv_sweep y A vb : sys_inv y A -> y_batch y vb = [] ->
  sys_inv (mkSys (y_cache y) (y_magma y) (y_staged y) (at_vb (y_queue y) vb [])
             (at_vb (y_batch y) vb (y_queue y vb)) (y_acks y) (y_seqno y) (y_reads y) (y_spec y)) A.
Proof.
  intros HI Hb. apply (inv_move y A); [done|apply HI| |apply HI| | |apply HI].
  - intros w k. unfold unwritten. destruct (decide (w = vb)) as [->|]; [|by rewrite !at_vb_ne].
    by rewrite !at_vb_eq, Hb.
  - intros w. destruct (decide (w = vb)) as [->|]; [rewrite at_vb_eq; constructor|rewrite at_vb_ne by done; apply HI].
  - intros w. destruct (decide (w = vb)) as [->|]; [rewrite at_vb_eq|rewrite at_vb_ne by done]; apply HI.
Qed.

(** What a reader makes of the metadata a writer stored. *)
Lemma metaBytes_decoded dm : DocMeta_wf dm -> let dm' := decodeOrZero (metaBytes cfg dm) in
  flags dm' = flags dm /\ expiry dm' = expiry dm /\ datatype dm' = datatype dm.
Proof.
  intros Hwf. unfold decodeOrZero, metaBytes. destruct (gCompactMeta cfg);
    [rewrite decode_compact by done|rewrite decode_legacy by done]; done.
Qed.

Lemma metaOf_wf r n c : req_ok r -> is_uint 64 n -> is_uint 64 c -> DocMeta_wf (metaOf r n c).
Proof.
  intros (_ & _ & _ & Hf & He & Hd) Hn Hc. unfold DocMeta_wf, metaOf.
  cbn [seqno cas valueSize flags expiry deleted datatype].
  split_and!; try done; [apply u32_range|]. destruct (isDelete r); split; done.
Qed.

(** The store after a batch, as versions. *)
Lemma stored_batch m vb n cas kept m' st k : Forall (fun pr => req_ok pr.2) kept -> is_uint 64 cas ->
  0 <= n -> n + Z.of_nat (length kept) < 2 ^ 64 ->
  WriteDocs m vb (batchOps cfg n cas kept) = (m', st) -> IsOK st = true ->
  ver_of_stored <$> stored m' vb !! k =
    match list.last (filter (fun pr => r_key pr.2 = k) kept) with
    | Some pr => ver_of_req pr.2
    | None => ver_of_stored <$> stored m vb !! k
    end.
Proof.
  intros Hok Hcas Hn Hroom Hw Hst. destruct (WriteDocs_ok _ _ _ _ _ Hw Hst) as [-> _].
  rewrite applyOps_lookup. pose proof (ops_last cfg (n + 1) cas kept k) as Hl. cbv beta in Hl. unfold batchOps.
  destruct (list.last (filter (fun pr => r_key pr.2 = k) kept)) as [pr|] eqn:Hlast; [|by rewrite Hl].
  destruct Hl as (i & Hi & ->). unfold opOf, ver_of_req.
  assert (Hr : req_ok pr.2).
  { apply last_Some_elem_of, list_elem_of_filter in Hlast as [_ Hin]. rewrite Forall_forall in Hok. by apply Hok. }
  destruct (isDelete pr.2) eqn:Hdel; [done|]. simpl. unfold ver_of_stored. cbn [fst snd].
  destruct (metaBytes_decoded (metaOf pr.2 (n + 1 + Z.of_nat i) cas)) as (-> & -> & ->); [|done].
  apply metaOf_wf; [done|unfold is_uint; lia|done].
Qed.

(** How many acknowledgements of a key a batch will make. *)
Lemma batchAcks_count n kept dropped batch vb k : kept ++ dropped ≡ₚ batch -> of_vb vb batch ->
  (length (filter (fun a => a.1 = k) (batchAcks n kept)) <= length (filter (writes vb k) batch))%nat.
Proof.
  intros Hp Hof. unfold of_vb in Hof. rewrite <- Hp in Hof. rewrite <- Hp, filter_app, length_app.
  apply Forall_app in Hof as [Hof _].
  assert (length (filter (fun a => a.1 = k) (batchAcks n kept)) = length (filter (writes vb k) kept)); [|lia].
  unfold batchAcks. clear Hp. revert n. induction Hof as [|pr kept [_ Hvb] _ IH]; intros n; [done|].
  rewrite imap_cons. rewrite !filter_cons. cbn [fst].
  assert (Himap : imap ((fun i pr => (r_key pr.2, n + 1 + Z.of_nat i)) ∘ Datatypes.S) kept =
                  imap (fun i pr => (r_key pr.2, n + 1 + 1 + Z.of_nat i)) kept)
    by (apply imap_ext; intros; unfold compose; f_equal; lia).
  rewrite Himap. specialize (IH (n + 1)).
  destruct (decide (r_key pr.2 = k)) as [Hk|Hk], (decide (writes vb k pr)) as [Hw|Hw]; unfold writes in Hw;
    simpl; rewrite ?IH; naive_solver.
Qed.

Lemma inv_write y A vb cas kept dropped m' st : sys_inv y A -> is_uint 64 cas ->
  Z.of_nat (length (y_batch y vb)) < 2 ^ 32 -> y_seqno y vb + Z.of_nat (length (y_batch y vb)) < 2 ^ 64 ->
  chooseBatch cfg reachesThreshold (y_batch y vb) = (kept, dropped) ->
  WriteDocs (y_magma y) vb (batchOps cfg (y_seqno y vb) cas kept) = (m', st) -> IsOK st = true -> y_acks y vb = [] ->
  sys_inv (mkSys (y_cache y) m' (y_staged y) (y_queue y) (at_vb (y_batch y) vb [])
             (at_vb (y_acks y) vb (batchAcks (y_seqno y vb) kept))
             (at_vb (y_seqno y) vb (y_seqno y vb + Z.of_nat (length kept))) (y_reads y) (y_spec y)) A.
Proof.
  intros [Hrep Hdocs Hspec Hst Hq Hb Ha Hrd Hs] Hcas Hlen Hroom Hch Hw Hok Hnil.
  assert (Hkeys : keys_ok (y_batch y vb)).
  { split; [|done]. eapply Forall_impl; [apply Hb|]. intros pr [Hr _]. split; apply Hr. }
  pose proof (chooseBatch_spec cfg reachesThreshold _ Hkeys) as Hcb. rewrite Hch in Hcb. destruct Hcb as [Hp Hlast].
  assert (Hvb : kept <> [] -> vb_ok vb).
  { intros Hne. destruct kept as [|pr kept]; [done|]. specialize (Hb vb). unfold of_vb in Hb. rewrite <- Hp in Hb.
    apply Forall_cons in Hb as [[Hr <-] _]. apply Hr. }
  assert (Hkok : Forall (fun pr => req_ok pr.2) kept).
  { specialize (Hb vb). unfold of_vb in Hb. rewrite <- Hp in Hb. apply Forall_app in Hb as [Hb _].
    eapply Forall_impl; [exact Hb|]. by intros pr []. }
  assert (Hklen : (length kept <= length (y_batch y vb))%nat) by (rewrite <- Hp, length_app; lia).
  assert (Hoth : forall w, w <> vb -> stored m' w = stored (y_magma y) w) by apply (WriteDocs_ok _ _ _ _ _ Hw Hok).
  split; cbn [y_cache y_staged y_queue y_batch y_acks y_reads y_seqno y_spec]; try done.
  - eapply docs_ok_ext; [done| |exact Hdocs]. intros w k _. unfold unacked, unwritten. cbn [y_staged y_queue y_batch y_acks].
    destruct (decide (w = vb)) as [->|Hne]; [|by rewrite !at_vb_ne]. rewrite !at_vb_eq, Hnil, filter_nil.
    pose proof (batchAcks_count (y_seqno y vb) kept dropped _ vb k Hp (Hb vb)) as Hc. rewrite !filter_app, !length_app.
    simpl. lia.
  - intros w k Hw'. rewrite <- Hspec by done. unfold cur, unwritten. cbn [y_staged y_queue y_batch y_magma].
    destruct (decide (w = vb)) as [->|Hne]; [|rewrite at_vb_ne, Hoth by done; done].
    rewrite at_vb_eq. simpl. rewrite (filter_app _ (y_batch y vb)), last_app.
    destruct (list.last (filter (writes vb k) (y_queue y vb ++ y_staged y))); [done|].
    rewrite (stored_batch (y_magma y) vb (y_seqno y vb) cas kept m' st k) by (done || lia). rewrite Hlast.
    assert (Hf : filter (writes vb k) (y_batch y vb) = filter (fun pr => r_key pr.2 = k) (y_batch y vb)); [|by rewrite Hf].
    apply filter_iff_in. intros pr Hpr. specialize (Hb vb). unfold of_vb in Hb. rewrite Forall_forall in Hb.
    destruct (Hb pr Hpr) as [_ Hvb']. unfold writes. naive_solver.
  - intros w. destruct (decide (w = vb)) as [->|]; [rewrite at_vb_eq; constructor|by rewrite at_vb_ne].
  - intros w. destruct (decide (w = vb)) as [->|]; [rewrite at_vb_eq|rewrite at_vb_ne by done; apply Ha].
    intros Hne. apply Hvb. by intros ->.
  - intros w. destruct (decide (w = vb)) as [->|]; [rewrite at_vb_eq; specialize (Hs vb); lia|by rewrite at_vb_ne].
Qed.

Lemma inv_ack y A vb k n l c' : sys_inv y A -> y_acks y vb = (k, n) :: l ->
  MarkPersisted (y_cache y) vb k n = Some c' ->
  exists A', sys_inv (mkSys c' (y_magma y) (y_staged y) (y_queue y) (y_batch y) (at_vb (y_acks y) vb l) (y_seqno y)
                        (y_reads y) (y_spec y)) A'.
Proof.
  intros HI Ha Hm. destruct (HI) as [Hrep Hdocs Hspec Hst Hq Hb Hav Hrd Hs].
  assert (Hv : vb_ok vb) by (apply Hav; by rewrite Ha).
  assert (Hpos : 0 < unacked y vb k) by (unfold unacked; rewrite Ha, filter_cons_True by done; simpl; lia).
  destruct (MarkPersisted_law _ A vb k n Hrep) as (c1 & A' & Hm' & Hrep' & Hmk); [by apply vb_ok_uint| |].
  { intros d Hd. destruct (proj2 Hdocs vb k Hv Hpos) as (d' & Hd' & Hle). unfold pinned. simplify_eq. lia. }
  rewrite Hm in Hm'. simplify_eq. exists A'.
  split; cbn [y_cache y_staged y_queue y_batch y_acks y_reads y_seqno y_spec]; try done.
  - eapply docs_ok_ext; [done| |by eapply docs_ok_ack]. intros w k' _. unfold unacked, unwritten.
    cbn [y_staged y_queue y_batch y_acks]. destruct (decide (w = vb)) as [->|Hne].
    + rewrite at_vb_eq, Ha, filter_cons. cbn [fst]. destruct (decide (k = k')) as [->|Hk].
      * rewrite decide_True by done. simpl. lia.
      * rewrite decide_False by naive_solver. lia.
    + rewrite at_vb_ne, decide_False by naive_solver. lia.
  - intros w. destruct (decide (w = vb)) as [->|]; [done|]. rewrite at_vb_ne by done. apply Hav.
Qed.

Lemma inv_read y A vb k res : sys_inv y A -> vb_ok vb ->
  sys_inv (mkSys (y_cache y) (y_magma y) (y_staged y) (y_queue y) (y_batch y) (y_acks y) (y_seqno y)
             (y_reads y ++ [(vb, k, res)]) (y_spec y)) A.
Proof.
  intros HI Hv. apply (inv_move y A); [done|apply HI|done|apply HI|apply HI|apply HI|].
  intros w k' r [Hr|Hr]%elem_of_app; [by eapply si_reads|]. apply list_elem_of_singleton in Hr. by simplify_eq.
Qed.

Lemma inv_read_done y A l1 x l2 : sys_inv y A -> y_reads y = l1 ++ x :: l2 ->
  sys_inv (mkSys (y_cache y) (y_magma y) (y_staged y) (y_queue y) (y_batch y) (y_acks y) (y_seqno y)
             (l1 ++ l2) (y_spec y)) A.
Proof.
  intros HI Hr. apply (inv_move y A); [done|apply HI|done|apply HI|apply HI|apply HI|].
  intros w k r Hin. eapply (si_reads _ _ HI w k r). rewrite Hr. set_solver.
Qed.

(** A read's fill changes nothing a client sees: an absent key's fetched
    document is current. *)
Lemma inv_fill y A vb k mv l1 l2 c' : sys_inv y A -> no_stale_reader y ->
  y_reads y = l1 ++ (vb, k, Some mv) :: l2 -> fillCache (y_cache y) vb k mv = Some c' ->
  exists A', sys_inv (mkSys c' (y_magma y) (y_staged y) (y_queue y) (y_batch y) (y_acks y) (y_seqno y)
                        (l1 ++ l2) (y_spec y)) A'.
Proof.
  intros HI Hns Hr Hf. assert (Hin : (vb, k, Some mv) ∈ y_reads y) by (rewrite Hr; set_solver).
  assert (Hv : vb_ok vb) by by eapply si_reads. unfold fillCache in Hf.
  destruct (PutIfAbsent_law _ A vb k mv.2 (seqno (decodeOrZero mv.1)) (flags (decodeOrZero mv.1))
    (expiry (decodeOrZero mv.1)) (datatype (decodeOrZero mv.1)) (si_rep _ _ HI)) as (c1 & A' & Hp & Hrep' & Hspec);
    [by apply vb_ok_uint|]. rewrite Hf in Hp. simplify_eq. exists A'.
  apply (inv_cache (mkSys (y_cache y) (y_magma y) (y_staged y) (y_queue y) (y_batch y) (y_acks y) (y_seqno y)
             (l1 ++ l2) (y_spec y)) A); [by eapply inv_read_done|done|].
  eapply docs_ok_fill; [exact Hv|apply HI|exact Hspec|]. intros Hnone.
  destruct (decide (Some (ver_of_stored mv) = y_spec y vb k)) as [He|Hne]; [by symmetry|]. exfalso.
  destruct (Hns vb k mv Hin Hne) as (c2 & d & Hg).
  destruct (Get_law _ A vb k (si_rep _ _ HI)) as (c3 & Hg' & _); [by apply vb_ok_uint|]. congruence.
Qed.

Lemma inv_sys_step y y' A : sys_inv y A -> no_stale_reader y -> sys_step cfg reachesThreshold y y' ->
  exists A', sys_inv y' A'.
Proof.
  intros HI Hns Hstep. destruct Hstep.
  - by eapply inv_put.
  - exists A. by apply inv_push.
  - exists A. by apply inv_sweep.
  - exists A. by eapply inv_write.
  - by eapply inv_ack.
  - exists A. by apply inv_read.
  - by eapply inv_fill.
  - exists A. by eapply inv_read_done.
  - exists A. destruct (Get_law _ A vb k (si_rep _ _ HI)) as (c1 & Hg & Hrep); [by apply vb_ok_uint|].
    assert (c1 = c') as -> by congruence. apply inv_cache with A; [done|done|apply HI].
  - destruct (SetBudget_law _ A maxBytes (si_rep _ _ HI)) as (c1 & A' & Hb & Hrep & Hd).
    assert (c1 = c') as -> by congruence. exists A'. apply inv_cache with A; [done|done|].
    eapply docs_ok_drops; [done|apply HI].
Qed.

Lemma run_inv y : sys_run cfg reachesThreshold y -> no_stale_reader y /\ exists A, sys_inv y A.
Proof.
  induction 1 as [c m n Hc Hn|y y' _ [Hns [A HI]] Hstep Hns'].
  - split; [|exists ∅; by apply start_inv]. intros vb k mv Hin. by apply not_elem_of_nil in Hin.
  - split; [done|]. by eapply inv_sys_step.
Qed.

End invariant.
