(* ===== verification/ConsistencyExamples.v ===== *)
(** * Concrete runs of the cache, the write path and the store

    A run that satisfies the hypotheses of the consistency theorem, and the
    schedules its hypotheses exclude, which the code does not exclude: a stale
    fill after an eviction, a refused write that drops the pins of earlier
    ones, and two IO threads that put and push in different orders. *)
From stdpp Require Import prelude gmap list.
From Stdlib Require Import ZArith Lia.
From S2P Require Import Prelude Metadata Protocol Fifo FlatIndex SeqnoIndex DocCache S3Fifo Cache CacheLaws.
From S2P Require Import Request WriteBatch Magma Persist PersistExamples ReadPath Consistency.
Open Scope Z_scope.

#[local] Instance runDocCache : DocCache FluxCache := s3fifo_cache sampleHash.
#[local] Instance runDocCacheLaws : DocCacheLaws FluxCache := s3fifo_laws sampleHash.

Definition theKey : list Z := [97].
Definition setTo (v : list Z) : Request :=
  mkRequest None theKey v (opcode_value OpSet) 0 7 0 0 0 0 None None None StOK 0 0 0 0 [] 0.
Definition runCache : FluxCache := newCache 100000 1.


(** ** A fill that outlives the entry of a newer write *)
Definition storedOld : MapMagma :=
  fst (WriteDocs emptyMagma 7 [opOf (durableConfig false) (setTo [1]) 1 5]).

(** A reader fetches the stored document; the key is overwritten, persisted,
    acknowledged and evicted; then the reader fills. *)
Definition staleFillRun : option (option Version * option Version) :=
  mv ← found (MagmaGet storedOld 7 theKey);
  c1 ← putRequest runCache (setTo [2]) None;
  let m1 := fst (WriteDocs storedOld 7 [opOf (durableConfig false) (setTo [2]) 2 6]) in
  c2 ← MarkPersisted c1 7 theKey 2;
  c3 ← SetBudget c2 0;
  c4 ← SetBudget c3 100000;
  c5 ← fillCache c4 7 theKey mv;
  '(_, r) ← Get c5 7 theKey;
  d ← r;
  Some (ver_of_doc d, ver_of_stored <$> found (MagmaGet m1 7 theKey)).

(** The stale-fill race the cache's contract says is closed is open: when
    the key of a fetched document is overwritten, persisted and evicted before
    the fill, the fill caches the superseded document, and lookups return it
    although the store has the newer one. *)
Theorem stale_fill_after_eviction :
  staleFillRun = Some (Some ([1], 0, 0, 0), Some ([2], 0, 0, 0)).
Proof. vm_compute. reflexivity. Qed.

(** ** A refused write that takes the pins of an accepted one with it *)

(** One write is accepted; a second one is put, refused by StageWrite and
    erased; a reader fills the old stored document; then the first write is
    acknowledged. *)
Definition refusedWriteRun : option (Z * option Version) :=
  mv ← found (MagmaGet storedOld 7 theKey);
  c1 ← putRequest runCache (setTo [2]) None;
  c2 ← putRequest c1 (setTo [3]) None;
  c3 ← Erase c2 7 theKey;
  c4 ← fillCache c3 7 theKey mv;
  c5 ← MarkPersisted c4 7 theKey 2;
  '(_, r) ← Get c5 7 theKey;
  d ← r;
  Some (d_pending d, ver_of_doc d).


(** ** Two IO threads writing one key *)

(** Both put before either pushes; the pushes happen in the other order. *)
Definition crossedPushRun : option (option Version * option Version) :=
  c1 ← putRequest runCache (setTo [1]) None;
  c2 ← putRequest c1 (setTo [2]) None;
  let m1 := fst (WriteDocs emptyMagma 7 (batchOps (durableConfig false) 0 5 [(2%positive, setTo [2]); (1%positive, setTo [1])])) in
  c3 ← MarkPersisted c2 7 theKey 1;
  c4 ← MarkPersisted c3 7 theKey 2;
  '(_, r) ← Get c4 7 theKey;
  d ← r;
  Some (ver_of_doc d, ver_of_stored <$> found (MagmaGet m1 7 theKey)).

