(* ===== verification/ElasticPool.v ===== *)
(** * Pools whose size changes at run time (tuner.h, engine.h, engine.cc)

    [ElasticPool] is what the tuner asks of a pool, [ElasticPoolLaws] what it can
    rely on: a change by whole steps changes [Size] by just that.  [WorkerPool] is
    the sizing of [WriterPool] and [ReaderPool]; a [ShardedPoolGroup] presents the
    pools of all shards as one.  Thread counts stay far below 2^64 and are not
    wrapped; what a subtraction could take below zero is. *)
From stdpp Require Import prelude list.
From Stdlib Require Import ZArith Lia.
From coqutil Require Import Datatypes.RecordSettersUsingExistingGetters.
From S2P Require Import Prelude Double.
Open Scope Z_scope.

Record PoolSample := mkPoolSample {
  ps_size : Z;
  busyMean : double;
  busyMax : double;
  avgBatch : double;
  waitUs : double;
}.
Definition noSample : PoolSample := mkPoolSample 0 d0 d0 d0 d0.

Class ElasticPool (P : Type) := {
  Size : P -> Z;
  Step : P -> Z;
  Grow : P -> Z -> P;
  Shrink : P -> Z -> P;
  Sample : P -> double -> P * PoolSample;
  Reap : P -> P;
  Settled : P -> bool;
}.
(** What a step of [p] is for the tuner. *)
Definition stepOf `{ElasticPool P} (p : P) : Z := Z.max 1 (Step p).

Class ElasticPoolLaws (P : Type) `{ElasticPool P} := {
  (** An invariant of the pool; its other threads keep it, its size and step. *)
  pool_inv : P -> Prop;
  grow_size p n : pool_inv p -> 0 < n -> (stepOf p | n) -> Size (Grow p n) = Size p + n;
  grow_step p n : pool_inv p -> 0 < n -> (stepOf p | n) -> pool_inv (Grow p n) /\ Step (Grow p n) = Step p;
  shrink_size p n : pool_inv p -> 0 < n < Size p -> (stepOf p | n) -> Size (Shrink p n) = Size p - n;
  shrink_step p n : pool_inv p -> 0 < n < Size p -> (stepOf p | n) -> pool_inv (Shrink p n) /\ Step (Shrink p n) = Step p;
  reap_same p : pool_inv p -> pool_inv (Reap p) /\ Size (Reap p) = Size p /\ Step (Reap p) = Step p;
  sample_same p d : pool_inv p -> pool_inv (Sample p d).1 /\ Size (Sample p d).1 = Size p /\ Step (Sample p d).1 = Step p;
}.

(** ** One worker pool *)
Record WorkSample := mkWorkSample { busyNs : Z; waitNs : Z; tasks : Z; items : Z }.
Definition zeroWork : WorkSample := mkWorkSample 0 0 0 0.

Inductive Role := Readers | Writers.
Record WorkerPool := mkWorkerPool {
  role : Role;
  workers_ : list bool;       (* whether each worker is done *)
  live_ : Z;
  retires : Z;                (* retire sentinels put on the task queue *)
  acct_ : WorkSample;         (* the sum over the account slots *)
  lastSample_ : WorkSample;
}.
Definition spawn (p : WorkerPool) : WorkerPool := { p with workers_ := workers_ p ++ [false]; live_ := live_ p + 1 }.
Definition growPool (p : WorkerPool) (n : Z) : WorkerPool := Nat.iter (Z.to_nat n) spawn p.
(** How many a shrink by [n] retires: [WriterPool::Shrink] keeps the last writer,
    [ReaderPool::Shrink] keeps none. *)
Definition shrinkBy (r : Role) (live n : Z) : Z :=
  Z.min n (match r with Writers => if 1 <? live then live - 1 else 0 | Readers => live end).
Definition shrinkPool (p : WorkerPool) (n : Z) : WorkerPool :=
  let k := shrinkBy (role p) (live_ p) n in
  { p with live_ := live_ p - k; retires := retires p + k }.
Definition reapPool (p : WorkerPool) : WorkerPool := { p with workers_ := filter (fun d => d = false) (workers_ p) }.
Definition TakeSample (p : WorkerPool) : WorkerPool * WorkSample :=
  let t := acct_ p in
  let l := lastSample_ p in
  ({ p with lastSample_ := t },
   mkWorkSample (u64 (busyNs t - busyNs l)) (u64 (waitNs t - waitNs l)) (u64 (tasks t - tasks l)) (u64 (items t - items l))).
Definition newPool (r : Role) (n : Z) : WorkerPool := growPool (mkWorkerPool r [] 0 0 zeroWork zeroWork) n.

(** ** The pools of all shards *)
Definition Group := list WorkerPool.
Definition groupSize (g : Group) : Z := sumOf live_ g.
Definition perPool (g : Group) (n : Z) : Z := Z.max 1 (n / Z.of_nat (length g)).

(** One pool's turn in [Sample]: the sums, the busiest pool and the size. *)
Definition sampleOne (wallSec : double) (acc : Group * WorkSample * Z * double) (p : WorkerPool) : Group * WorkSample * Z * double :=
  let '(done, sum, size, bmax) := acc in
  let '(p', d) := TakeSample p in
  let sum' := mkWorkSample (u64 (busyNs sum + busyNs d)) (u64 (waitNs sum + waitNs d)) (u64 (tasks sum + tasks d)) (u64 (items sum + items d)) in
  let bmax' := if (0 <? live_ p') && d_lt d0 wallSec
               then d_max bmax (dZ (busyNs d) / (wallSec * dZ 1000000000 * dZ (live_ p')))%D else bmax in
  (done ++ [p'], sum', size + live_ p', bmax').
Definition sampleGroup (g : Group) (wallSec : double) : Group * PoolSample :=
  let '(g', sum, size, bmax) := foldl (sampleOne wallSec) ([], zeroWork, 0, d0) g in
  (g', mkPoolSample size
         (if (0 <? size) && d_lt d0 wallSec then (dZ (busyNs sum) / (wallSec * dZ 1000000000 * dZ size))%D else d0)
         bmax
         (if 0 <? tasks sum then (dZ (items sum) / dZ (tasks sum))%D else d0)
         (if 0 <? tasks sum then (dZ (waitNs sum) / dZ 1000 / dZ (tasks sum))%D else d0)).

#[global] Instance ShardedPoolGroup : ElasticPool Group := {|
  Size := groupSize;
  Step g := Z.of_nat (length g);
  Grow g n := (fun p => growPool p (perPool g n)) <$> g;
  Shrink g n := (fun p => shrinkPool p (perPool g n)) <$> g;
  Sample := sampleGroup;
  Reap g := reapPool <$> g;
  Settled _ := true;
|}.

(** [Bucket::Bucket]: how many threads each shard's pool gets. *)
Definition poolShare (total shards : Z) (i : nat) : Z :=
  Z.max 1 (total / shards) + (if Z.of_nat i <? (if shards <? total then total mod shards else 0) then 1 else 0).
Definition newGroup (r : Role) (total : Z) (shards : nat) : Group :=
  (fun i => newPool r (poolShare total (Z.of_nat shards) i)) <$> seq 0 shards.

(** ** Lemmas *)
Lemma iter_spawn n p : live_ (Nat.iter n spawn p) = live_ p + Z.of_nat n /\ role (Nat.iter n spawn p) = role p.
Proof.
  induction n as [|n [IH1 IH2]]; [split; [cbn; lia|done]|]. change (Nat.iter (S n) spawn p) with (spawn (Nat.iter n spawn p)).
  set (q := Nat.iter n spawn p) in *. cbn. unfold const. split; [lia|done].
Qed.
Lemma growPool_live p n : 0 <= n -> live_ (growPool p n) = live_ p + n.
Proof. intros Hn. unfold growPool. destruct (iter_spawn (Z.to_nat n) p) as [-> _]. lia. Qed.
Lemma shrinkPool_live p n : 0 <= n < live_ p -> live_ (shrinkPool p n) = live_ p - n.
Proof. intros Hn. unfold shrinkPool, shrinkBy. cbn. unfold const. destruct (role p); [lia|]. destruct (Z.ltb_spec 1 (live_ p)); lia. Qed.

(** The shards are kept the same size, with a thread each. *)
Definition even (g : Group) : Prop := g <> [] /\ exists k, 1 <= k /\ Forall (fun p => live_ p = k) g.
Lemma even_size g k : Forall (fun p => live_ p = k) g -> groupSize g = k * Z.of_nat (length g).
Proof. apply sumOf_const. Qed.
Lemma stepOf_group (g : Group) : g <> [] -> stepOf g = Z.of_nat (length g).
Proof. intros Hg. unfold stepOf. cbn. destruct g; [done|]. cbn. lia. Qed.
Lemma perPool_whole (g : Group) q : g <> [] -> 1 <= q -> perPool g (q * stepOf g) = q.
Proof. intros Hg Hq. unfold perPool. rewrite (stepOf_group g Hg), Z.div_mul; [lia|]. destruct g; [done|]. cbn. lia. Qed.
Lemma sampleOne_foldl d g : forall done sum size bmax,
  (foldl (sampleOne d) (done, sum, size, bmax) g).1.1.1 = done ++ ((fun p => (TakeSample p).1) <$> g).
Proof.
  induction g as [|p g IH]; intros; [by rewrite app_nil_r|]. cbn [foldl fmap list_fmap]. unfold sampleOne at 2. destruct (TakeSample p) as [p' w].
  rewrite IH, <- app_assoc. done.
Qed.
Lemma sampleGroup_pools g d : (sampleGroup g d).1 = (fun p => (TakeSample p).1) <$> g.
Proof.
  unfold sampleGroup. pose proof (sampleOne_foldl d g [] zeroWork 0 d0) as E.
  by destruct (foldl (sampleOne d) _ g) as [[[g' sum] size] bmax].
Qed.

(** Pools of one size change by whole steps, and stay of one size. *)
Lemma even_map (g : Group) f q k : g <> [] -> 1 <= k + q -> Forall (fun p => live_ p = k) g -> (forall p, live_ p = k -> live_ (f p) = k + q) ->
  even (f <$> g) /\ groupSize (f <$> g) = groupSize g + q * Z.of_nat (length g).
Proof.
  intros Hg Hk Hf Hq. assert (Hf' : Forall (fun p => live_ p = k + q) (f <$> g)) by (apply Forall_fmap; eapply Forall_impl; [exact Hf|]; intros p Hp; by apply Hq).
  split; [split; [by destruct g|exists (k + q); by split]|]. rewrite (even_size _ _ Hf'), (even_size _ _ Hf), length_fmap. lia.
Qed.
#[global] Program Instance ShardedPoolGroupLaws : ElasticPoolLaws Group := {| pool_inv := even |}.
Next Obligation.
  intros g n (Hg & k & Hk & Hf) Hn [q ->]. assert (Hq : 1 <= q) by (rewrite (stepOf_group g Hg) in Hn; nia). cbn [Grow ShardedPoolGroup Size].
  rewrite (perPool_whole g q Hg Hq), (stepOf_group g Hg). edestruct (even_map g (fun p => growPool p q) q k) as [_ E]; try done; [lia|intros p <-; apply growPool_live; lia].
Qed.
Next Obligation.
  intros g n (Hg & k & Hk & Hf) Hn [q ->]. assert (Hq : 1 <= q) by (rewrite (stepOf_group g Hg) in Hn; nia). cbn [Grow ShardedPoolGroup Step].
  rewrite (perPool_whole g q Hg Hq). edestruct (even_map g (fun p => growPool p q) q k) as [Hev E]; try done; [lia|intros p <-; apply growPool_live; lia|].
  split; [done|]. by rewrite length_fmap.
Qed.
Next Obligation.
  intros g n (Hg & k & Hk & Hf) Hn [q ->]. cbn [Size ShardedPoolGroup] in Hn. rewrite (stepOf_group g Hg), (even_size _ _ Hf) in Hn.
  assert (Hq : 1 <= q < k) by nia. cbn [Shrink ShardedPoolGroup Size].
  rewrite (perPool_whole g q Hg), (stepOf_group g Hg) by lia. edestruct (even_map g (fun p => shrinkPool p q) (- q) k) as [_ E]; try done; [lia|intros p <-; rewrite shrinkPool_live; lia|].
  lia.
Qed.
Next Obligation.
  intros g n (Hg & k & Hk & Hf) Hn [q ->]. cbn [Size ShardedPoolGroup] in Hn. rewrite (stepOf_group g Hg), (even_size _ _ Hf) in Hn.
  assert (Hq : 1 <= q < k) by nia. cbn [Shrink ShardedPoolGroup Step].
  rewrite (perPool_whole g q Hg) by lia. edestruct (even_map g (fun p => shrinkPool p q) (- q) k) as [Hev E]; try done; [lia|intros p <-; rewrite shrinkPool_live; lia|].
  split; [done|]. by rewrite length_fmap.
Qed.
Next Obligation.
  intros g (Hg & k & Hk & Hf). edestruct (even_map g reapPool 0 k) as [Hev E]; try done; [lia|intros p <-; cbn; unfold const; lia|].
  cbn [Reap Size Step ShardedPoolGroup]. rewrite length_fmap, E. split; [done|]. split; [lia|done].
Qed.
Next Obligation.
  intros g d (Hg & k & Hk & Hf). cbn [Sample Size Step ShardedPoolGroup]. rewrite sampleGroup_pools.
  edestruct (even_map g (fun p => (TakeSample p).1) 0 k) as [Hev E]; try done; [lia|intros p <-; cbn; unfold const; lia|].
  rewrite length_fmap, E. split; [done|]. split; [lia|done].
Qed.
