(* ===== verification/PoolThreads.v ===== *)
(** * The threads of a worker pool (engine.h, engine.cc)

    The workers of [WriterPool] and [ReaderPool] with their task queue, the thread that
    holds writes back for coalescing, the tuner's changes of the pool's size and
    [Shutdown], interleaved in any order.  A step is one operation on a queue.  The
    queues are FIFO and taken as unbounded: a vbucket has at most one write task and
    [gMaxReadOwners] read tasks in them ([VBQueue]), fewer than they have room for.
    [ElasticPool] is the tuner's view of this. *)
From stdpp Require Import prelude list.
From Stdlib Require Import ZArith Lia.
From coqutil Require Import Datatypes.RecordSettersUsingExistingGetters.
From S2P Require Import Prelude Double ElasticPool.
Open Scope Z_scope.

(** A task of a vbucket, or a task without a shard, which ends the worker that reads it. *)
Inductive task := Work (vb : nat) | StopWorker | RetireWorker.
(** A worker waits for a task, or runs the tasks it has read (a reader with
    [FLUXKV_READER_MULTI] reads several) and may have met a sentinel on the way. *)
Inductive worker := Idle | Busy (vbs : list nat) (stopAfter : bool) | Done.
(** The coalescing thread: at its queue, waiting out a task's interval, handing over
    what is left, ended (or never started). *)
Inductive deferPc := DWait | DHold (vb : nat) | DFlush | DEnd.
(** [Shutdown]: not called, joining the coalescing thread, joining the workers, back. *)
Inductive stage := Running | Draining | Stopping | Closed.
Record threads := mkThreads {
  poolRole : Role;
  taskQueue_ : list task;
  deferQueue_ : list (option nat);
  coalescing : bool;              (* [gWriteCoalesceNs] is set *)
  deferThread_ : deferPc;
  workers : list worker;
  live : Z;
  shutdown_ : stage;
  work : WorkSample;              (* the sum of [acct_] *)
  sampled : WorkSample;           (* [lastSample_] *)
  retired : Z;                    (* retire sentinels put on the queue so far *)
  submitted : list nat;           (* every task given to the pool, *)
  executed : list nat;            (* and those that have run *)
}.

Definition push (t : task) (s : threads) : threads := { s with taskQueue_ := taskQueue_ s ++ [t] }.
Definition Submit (vb : nat) (s : threads) : threads := push (Work vb) { s with submitted := submitted s ++ [vb] }.
(** [SubmitOrDefer] of a task that is held back. *)
Definition Defer (vb : nat) (s : threads) : threads :=
  { s with submitted := submitted s ++ [vb]; deferQueue_ := deferQueue_ s ++ [Some vb] }.
(** One step of [deferLoop]. *)
Definition deferLoop (s : threads) : option threads :=
  match deferThread_ s, deferQueue_ s with
  | DWait, Some vb :: q => Some { s with deferQueue_ := q; deferThread_ := DHold vb }
  | DWait, None :: q => Some { s with deferQueue_ := q; deferThread_ := DFlush }
  | DHold vb, _ => Some (push (Work vb) { s with deferThread_ := DWait })
  | DFlush, Some vb :: q => Some (push (Work vb) { s with deferQueue_ := q })
  | DFlush, None :: q => Some { s with deferQueue_ := q }
  | DFlush, [] => Some { s with deferThread_ := DEnd }
  | _, _ => None
  end.

Definition setWorker (i : nat) (w : worker) (s : threads) : threads := { s with workers := <[i := w]> (workers s) }.
(** [workerLoop]: an idle worker reads a task, *)
Definition readTask (i : nat) (s : threads) : option threads :=
  match workers s !! i, taskQueue_ s with
  | Some Idle, t :: q =>
      Some (setWorker i (match t with Work vb => Busy [vb] false | _ => Done end) { s with taskQueue_ := q })
  | _, _ => None
  end.
(** a reader may read more before it starts, *)
Definition readMore (kMulti : nat) (i : nat) (s : threads) : option threads :=
  match poolRole s, workers s !! i, taskQueue_ s with
  | Readers, Some (Busy vbs false), t :: q =>
      if (length vbs <? kMulti)%nat
      then Some (setWorker i (match t with Work vb => Busy (vbs ++ [vb]) false | _ => Busy vbs true end) { s with taskQueue_ := q })
      else None
  | _, _, _ => None
  end.
(** a worker finishes what it read: [items] requests in [busy] ns, after [wait] ns, *)
Definition addWork (w : WorkSample) (busy wait n : Z) : WorkSample :=
  mkWorkSample (u64 (busyNs w + busy)) (u64 (waitNs w + wait)) (u64 (tasks w + 1)) (u64 (items w + n)).
Definition finish (i : nat) (busy wait n : Z) (s : threads) : option threads :=
  match workers s !! i with
  | Some (Busy vbs stopAfter) =>
      Some (setWorker i (if stopAfter then Done else Idle) { s with executed := executed s ++ vbs; work := addWork (work s) busy wait n })
  | _ => None
  end.
(** and a reader leaves when it sees that the pool is shutting down. *)
Definition quit (i : nat) (s : threads) : option threads :=
  match poolRole s, shutdown_ s, workers s !! i with
  | Readers, Running, _ => None
  | Readers, _, Some Idle => Some (setWorker i Done s)
  | _, _, _ => None
  end.

Definition isDone (w : worker) : bool := match w with Done => true | _ => false end.
Definition spawnThread (s : threads) : threads := { s with workers := workers s ++ [Idle]; live := live s + 1 }.
Definition GrowThreads (n : Z) (s : threads) : threads := Nat.iter (Z.to_nat n) spawnThread s.
Definition ShrinkThreads (n : Z) (s : threads) : threads :=
  let k := shrinkBy (poolRole s) (live s) n in
  { s with live := live s - k; retired := retired s + k; taskQueue_ := taskQueue_ s ++ replicate (Z.to_nat k) RetireWorker }.
Definition ReapThreads (s : threads) : threads := { s with workers := filter (fun w => isDone w = false) (workers s) }.
Definition SampleThreads (s : threads) : threads := { s with sampled := work s }.

(** [Shutdown], in three parts: up to the join of the coalescing thread, the sentinels, and
    the join of the workers. *)
Definition shutdownBegin (s : threads) : option threads :=
  match shutdown_ s with
  | Running => Some { s with shutdown_ := Draining; deferQueue_ := match deferThread_ s with DEnd => deferQueue_ s | _ => deferQueue_ s ++ [None] end }
  | _ => None
  end.
Definition shutdownStop (s : threads) : option threads :=
  match shutdown_ s, deferThread_ s with
  | Draining, DEnd => Some { s with shutdown_ := Stopping; taskQueue_ := taskQueue_ s ++ replicate (length (workers s)) StopWorker }
  | _, _ => None
  end.
Definition shutdownJoin (s : threads) : option threads :=
  match shutdown_ s with
  | Stopping => if forallb isDone (workers s) then Some { s with shutdown_ := Closed; workers := []; live := 0 } else None
  | _ => None
  end.

Inductive event :=
| ESubmit (vb : nat) | EDefer (vb : nat) | EDeferLoop
| ERead (i : nat) | EMore (i : nat) | EFinish (i : nat) (busy wait n : Z) | EQuit (i : nat)
| EGrow (n : Z) | EShrink (n : Z) | EReap | ESample
| EShutdown | EStop | EJoin.
#[global] Instance event_eq_dec : EqDecision event.
Proof. solve_decision. Defined.
(** The tuner is stopped before the pools are. *)
Definition tuning (s : threads) : bool := match shutdown_ s with Running => true | _ => false end.
Definition step (kMulti : nat) (e : event) (s : threads) : option threads :=
  match e with
  | ESubmit vb => Some (Submit vb s)
  | EDefer vb => if coalescing s then Some (Defer vb s) else None
  | EDeferLoop => deferLoop s
  | ERead i => readTask i s
  | EMore i => readMore kMulti i s
  | EFinish i busy wait n => finish i busy wait n s
  | EQuit i => quit i s
  | EGrow n => if tuning s then Some (GrowThreads n s) else None
  | EShrink n => if tuning s && (0 <=? n) then Some (ShrinkThreads n s) else None
  | EReap => if tuning s then Some (ReapThreads s) else None
  | ESample => if tuning s then Some (SampleThreads s) else None
  | EShutdown => shutdownBegin s
  | EStop => shutdownStop s
  | EJoin => shutdownJoin s
  end.
Definition startThreads (r : Role) (n : nat) (coalesce : bool) : threads :=
  mkThreads r [] [] coalesce (if coalesce then DWait else DEnd) (replicate n Idle) (Z.of_nat n) Running zeroWork zeroWork 0 [] [].

(** ** Where every task is *)
Definition busyOf (w : worker) : list nat := match w with Busy vbs _ => vbs | _ => [] end.
Definition inTask (vb : nat) (t : task) : Z := match t with Work v => b2z (v = vb) | _ => 0 end.
Definition inDefer (vb : nat) (d : option nat) : Z := match d with Some v => b2z (v = vb) | None => 0 end.
Definition inHold (vb : nat) (d : deferPc) : Z := match d with DHold v => b2z (v = vb) | _ => 0 end.
Definition inBusy (vb : nat) (w : worker) : Z := occ vb (busyOf w).
Definition pendingIn (vb : nat) (s : threads) : Z :=
  sumOf (inBusy vb) (workers s) + sumOf (inTask vb) (taskQueue_ s) + inHold vb (deferThread_ s) + sumOf (inDefer vb) (deferQueue_ s).
(** A worker that will read another task, and a sentinel of each kind. *)
Definition alive (w : worker) : Z := match w with Idle | Busy _ false => 1 | _ => 0 end.
Definition isRetire (t : task) : Z := match t with RetireWorker => 1 | _ => 0 end.
Definition isStop (t : task) : Z := match t with StopWorker => 1 | _ => 0 end.
Definition isEnd (d : option nat) : Z := match d with None => 1 | _ => 0 end.

(** No task is lost or run twice; while the pool runs, the workers that will read
    another task are those counted as live and one for each retire sentinel on the queue,
    and the last writer is not retired. *)
Record threads_ok (s : threads) : Prop := {
  ok_tasks vb : occ vb (executed s) + pendingIn vb s = occ vb (submitted s);
  ok_live : poolRole s = Writers \/ shutdown_ s = Running -> shutdown_ s = Running \/ shutdown_ s = Draining ->
    sumOf alive (workers s) = live s + sumOf isRetire (taskQueue_ s) /\ sumOf isStop (taskQueue_ s) = 0;
  ok_last : poolRole s = Writers -> shutdown_ s <> Closed -> 1 <= live s;
  ok_readers : 0 <= live s;
  ok_alone : coalescing s = false -> deferQueue_ s = [];
  ok_defer : shutdown_ s = Running -> (deferThread_ s = DEnd <-> coalescing s = false) /\ deferThread_ s <> DFlush /\ sumOf isEnd (deferQueue_ s) = 0;
}.
Lemma sumOf_nil {A} (f : A -> Z) : sumOf f [] = 0.
Proof. done. Qed.
(** Sums over the parts of a state after a step, by arithmetic. *)
Ltac tally := cbn in *; unfold const in *; rewrite ?sumOf_app, ?occ_app, ?sumOf_cons, ?occ_cons, ?occ_nil, ?sumOf_nil in *; cbn in *; rewrite ?occ_nil in *; try lia.
Lemma submit_ok vb s : threads_ok s -> threads_ok (Submit vb s).
Proof.
  intros [H1 H2 H3 H4 H0 H5]. split; try done.
  - intros v. specialize (H1 v). unfold pendingIn in *. tally.
  - intros Ha Hb. destruct (H2 Ha Hb). tally.
Qed.
Lemma defer_ok vb s : coalescing s = true -> threads_ok s -> threads_ok (Defer vb s).
Proof.
  intros Hc [H1 H2 H3 H4 H0 H5]. split; try done.
  - intros v. specialize (H1 v). unfold pendingIn in *. tally.
  - cbn. intros. congruence.
  - intros Hr. destruct (H5 Hr) as (H6 & H7 & H8). repeat split; try done; try apply H6; tally.
Qed.
Lemma deferLoop_ok s s' : deferLoop s = Some s' -> threads_ok s -> threads_ok s'.
Proof.
  intros Hs [H1 H2 H3 H4 H0 H5]. unfold deferLoop in Hs.
  destruct (deferThread_ s) as [|h| |] eqn:Ed; [destruct (deferQueue_ s) as [|[v|] q] eqn:Eq| |destruct (deferQueue_ s) as [|[v|] q] eqn:Eq|]; simplify_eq.
  all: split; try done.
  all: try (intros w; specialize (H1 w); unfold pendingIn in *; cbn; unfold const; rewrite ?Ed, ?Eq in *; by tally).
  all: try (intros Ha Hb; specialize (H2 Ha Hb); by tally).
  all: try (cbn; unfold const; intros E; specialize (H0 E); congruence).
  all: intros Hr; destruct (H5 Hr) as (H6 & H7 & H8); rewrite ?Ed, ?Eq in *; cbn; unfold const; split; try done.
  all: try (split; [done|]); try tally; try (intros E; by apply H6 in E).
  all: exfalso; assert (0 <= sumOf isEnd q) by (apply sumOf_pos; by intros []); lia.
Qed.
(** A step of a worker: it takes [q] off the queue and may add to what was executed. *)
Record wstep (s s' : threads) (i : nat) (w w' : worker) (q : list task) (ex : list nat) : Prop := {
  ws_at : workers s !! i = Some w;
  ws_workers : workers s' = <[i := w']> (workers s);
  ws_queue : taskQueue_ s = q ++ taskQueue_ s';
  ws_one : q = [] \/ exists t, q = [t];
  ws_executed : executed s' = executed s ++ ex;
  ws_same : (poolRole s', shutdown_ s', live s', deferThread_ s', deferQueue_ s', coalescing s', submitted s') =
            (poolRole s, shutdown_ s, live s, deferThread_ s, deferQueue_ s, coalescing s, submitted s);
  ws_count vb : occ vb ex + inBusy vb w' = inBusy vb w + sumOf (inTask vb) q;
  ws_alive : poolRole s = Writers \/ shutdown_ s = Running -> alive w - alive w' = sumOf isRetire q + sumOf isStop q;
}.
Definition worked (s s' : threads) : Prop := exists i w w' q ex, wstep s s' i w w' q ex.
Lemma stops_pos q : 0 <= sumOf isStop q.
Proof. apply sumOf_pos. by intros []. Qed.
Lemma retires_pos q : 0 <= sumOf isRetire q.
Proof. apply sumOf_pos. by intros []. Qed.
Lemma worked_ok s s' : worked s s' -> threads_ok s -> threads_ok s'.
Proof.
  intros (i & w & w' & q & ex & [Hi Ew Eq _ Ee [= Er Est El Edt Edq Ec Es] Hc Ha]) [H1 H2 H3 H4 H0 H5]. split; rewrite ?Er, ?Est, ?El, ?Edt, ?Edq, ?Ec; try done.
  - intros vb. specialize (H1 vb). specialize (Hc vb). unfold pendingIn in *. rewrite Ee, Es, Edt, Edq, Ew, (sumOf_insert _ _ _ _ _ Hi), occ_app. rewrite Eq, sumOf_app in H1. lia.
  - intros Hb Hc'. destruct (H2 Hb Hc') as [H7 H8]. specialize (Ha Hb). rewrite Eq, !sumOf_app in *. pose proof (stops_pos q). pose proof (stops_pos (taskQueue_ s')).
    rewrite Ew, (sumOf_insert _ _ _ _ _ Hi). lia.
Qed.
Lemma readTask_worked i s s' : readTask i s = Some s' -> worked s s'.
Proof.
  unfold readTask. destruct (workers s !! i) as [[| |]|] eqn:Hi; try done. destruct (taskQueue_ s) as [|t q] eqn:Eq; [done|]. intros [= <-].
  eexists i, Idle, _, [t], []. split; try done; [by right; eexists|by rewrite app_nil_r|..]; destruct t; intros; unfold inBusy; tally.
Qed.
Lemma readMore_worked k i s s' : readMore k i s = Some s' -> worked s s'.
Proof.
  unfold readMore. destruct (poolRole s) eqn:Er; [|done]. destruct (workers s !! i) as [[|vbs []|]|] eqn:Hi; try done.
  destruct (taskQueue_ s) as [|t q] eqn:Eq; [done|]. destruct (_ <? _)%nat; [|done]. intros [= <-].
  eexists i, (Busy vbs false), _, [t], []. split; try done; [by right; eexists|by rewrite app_nil_r|..]; destruct t; intros; unfold inBusy; tally.
Qed.
Lemma finish_worked i b w n s s' : finish i b w n s = Some s' -> worked s s'.
Proof.
  unfold finish. destruct (workers s !! i) as [[|vbs l|]|] eqn:Hi; try done. intros [= <-].
  eexists i, (Busy vbs l), _, [], vbs. split; try done; [by left|..]; destruct l; intros; unfold inBusy; tally.
Qed.
Lemma quit_worked i s s' : quit i s = Some s' -> worked s s'.
Proof.
  unfold quit. destruct (poolRole s) eqn:Er; [|done]. destruct (shutdown_ s) eqn:Es; try done; destruct (workers s !! i) as [[| |]|] eqn:Hi; try done; intros [= <-].
  all: eexists i, Idle, _, [], []; split; try done; [by left|by rewrite app_nil_r|]; intros [?|?]; congruence.
Qed.
Lemma grow_ok n s : threads_ok s -> threads_ok (GrowThreads n s).
Proof.
  unfold GrowThreads. generalize (Z.to_nat n). intros k Hs. induction k as [|k [H1 H2 H3 H4 H0 H5]]; [done|]. rewrite Nat.iter_succ.
  set (t := Nat.iter k spawnThread s) in *. clearbody t. split; try done.
  - intros vb. specialize (H1 vb). unfold pendingIn, inBusy in *. tally.
  - intros Ha Hb. specialize (H2 Ha Hb). tally.
  - intros Ha Hb. specialize (H3 Ha Hb). tally.
  - tally.
Qed.
Lemma sumOf_replicate {A} (f : A -> Z) n x : sumOf f (replicate n x) = Z.of_nat n * f x.
Proof. induction n as [|n IH]; [done|]. cbn [replicate]. rewrite sumOf_cons, IH. lia. Qed.
Lemma shrink_ok n s : 0 <= n -> tuning s = true -> threads_ok s -> threads_ok (ShrinkThreads n s).
Proof.
  intros Hn Ht [H1 H2 H3 H4 H0 H5]. assert (Hr : shutdown_ s = Running) by (unfold tuning in Ht; by destruct (shutdown_ s)).
  assert (Hk : 0 <= shrinkBy (poolRole s) (live s) n <= live s /\ (poolRole s = Writers -> shrinkBy (poolRole s) (live s) n < live s)).
  { unfold shrinkBy. destruct (poolRole s); [split; [lia|done]|]. specialize (H3 eq_refl). destruct (Z.ltb_spec 1 (live s)); rewrite Hr in H3; lia || (split; [|intros _]; assert (1 <= live s) by (by apply H3); lia). }
  unfold ShrinkThreads. set (k := shrinkBy _ _ _) in *. clearbody k. split; try done.
  - intros vb. specialize (H1 vb). unfold pendingIn in *. cbn. unfold const. rewrite sumOf_app, sumOf_replicate. cbn. lia.
  - intros Ha Hb. specialize (H2 Ha Hb). cbn. unfold const. rewrite !sumOf_app, !sumOf_replicate. cbn. lia.
  - intros Ha _. destruct Hk as [_ Hk]. specialize (Hk Ha). cbn. unfold const. lia.
  - cbn. unfold const. lia.
Qed.
Lemma reap_keeps (f : worker -> Z) ws : f Done = 0 -> sumOf f (filter (fun w => isDone w = false) ws) = sumOf f ws.
Proof.
  intros Hf. induction ws as [|w ws IH]; [done|]. rewrite filter_cons. destruct (decide _) as [Hd|Hd]; rewrite !sumOf_cons, IH; [done|]. destruct w; try done. lia.
Qed.
Lemma reap_ok s : threads_ok s -> threads_ok (ReapThreads s).
Proof.
  intros [H1 H2 H3 H4 H0 H5]. split; try done.
  - intros vb. specialize (H1 vb). unfold pendingIn in *. cbn. unfold const. rewrite reap_keeps; done.
  - intros Ha Hb. specialize (H2 Ha Hb). cbn. unfold const. rewrite reap_keeps; done.
Qed.
Lemma done_sum (f : worker -> Z) ws : forallb isDone ws = true -> f Done = 0 -> sumOf f ws = 0.
Proof. intros Hd Hf. induction ws as [|[| |] ws IH]; try done. rewrite sumOf_cons, Hf, IH; done. Qed.
Lemma shutdown_ok s s' : shutdownBegin s = Some s' \/ shutdownStop s = Some s' \/ shutdownJoin s = Some s' -> threads_ok s -> threads_ok s'.
Proof.
  intros Hs [H1 H2 H3 H4 H0 H5]. destruct Hs as [Hs|[Hs|Hs]].
  - unfold shutdownBegin in Hs. destruct (shutdown_ s) eqn:Er; try done. injection Hs as <-. split; try done.
    + intros vb. specialize (H1 vb). unfold pendingIn in *. cbn. unfold const. destruct (deferThread_ s); tally.
    + intros _ _. apply H2; [by right|by left].
    + intros Hw _. by apply H3.
    + cbn. unfold const. intros E. destruct (H5 eq_refl) as [H6 _]. rewrite (proj2 H6 E). by apply H0.
  - unfold shutdownStop in Hs. destruct (shutdown_ s) eqn:Er; try done. destruct (deferThread_ s) eqn:Ed; try done. injection Hs as <-. split; try done.
    + intros vb. specialize (H1 vb). unfold pendingIn in *. cbn. unfold const. rewrite Ed in *. rewrite sumOf_app, sumOf_replicate. cbn in *. lia.
    + by intros _ [|].
    + intros Hw _. by apply H3.
  - unfold shutdownJoin in Hs. destruct (shutdown_ s) eqn:Er; try done. destruct (forallb _ _) eqn:Ef; [|done]. injection Hs as <-. split; try done.
    + intros vb. specialize (H1 vb). unfold pendingIn in *. cbn. unfold const. assert (Hz : sumOf (inBusy vb) (workers s) = 0); [|rewrite Hz in H1; rewrite sumOf_nil; lia].
      by eapply done_sum.
    + by intros _ [|].
Qed.
Lemma step_ok_threads k e s s' : step k e s = Some s' -> threads_ok s -> threads_ok s'.
Proof.
  destruct e; cbn; intros Hs Hok; repeat case_match; simplify_eq; eauto using submit_ok, defer_ok, deferLoop_ok, worked_ok, readTask_worked, readMore_worked, finish_worked, quit_worked, grow_ok, reap_ok, shutdown_ok.
  all: try (apply shrink_ok; [lia|lia || by destruct (tuning s)|done]).
  by destruct Hok; split.
Qed.
