(* ===== verification/PoolSpec.v ===== *)
(** * What the pool's threads guarantee

    Every task given to a running pool is run exactly once, whatever the tuner does to
    its size; a pool of writers always has a worker that will run what is queued; and
    [Shutdown] of the writers returns, after every task given before it has run. *)
From stdpp Require Import prelude list.
From Stdlib Require Import ZArith Lia.
From coqutil Require Import Datatypes.RecordSettersUsingExistingGetters.
From S2P Require Import Prelude Double ElasticPool PoolThreads.
Open Scope Z_scope.

Definition run (kMulti : nat) (es : list event) (s : threads) : option threads := foldl (fun o e => o ≫= step kMulti e) (Some s) es.
Lemma run_cons k e es s : run k (e :: es) s = step k e s ≫= run k es.
Proof. unfold run. cbn. destruct (step k e s) as [s'|]; cbn; [done|]. by induction es. Qed.
Lemma run_keeps k (P : threads -> Prop) es : (forall e s s', P s -> step k e s = Some s' -> P s') -> forall s s', P s -> run k es s = Some s' -> P s'.
Proof.
  intros Hp. induction es as [|e es IH]; intros s s' Hs Hr; [by injection Hr as <-|]. rewrite run_cons in Hr. destruct (step k e s) as [s1|] eqn:E; [|done]. by eapply IH; [eapply Hp|].
Qed.
Lemma start_ok r n c : (r = Writers -> (0 < n)%nat) -> threads_ok (startThreads r n c).
Proof.
  intros Hn. split; try done.
  - intros vb. unfold pendingIn. cbn. rewrite sumOf_replicate, !sumOf_nil, occ_nil. unfold inBusy. cbn. rewrite occ_nil. by destruct c; cbn; lia.
  - intros _ _. cbn. rewrite sumOf_replicate, !sumOf_nil. cbn. lia.
  - cbn. intros Hr _. specialize (Hn Hr). lia.
  - cbn. lia.
  - intros _. cbn. by destruct c.
Qed.
Lemma run_role k es s s' : run k es s = Some s' -> poolRole s' = poolRole s.
Proof.
  intros Hr. apply (run_keeps k (fun x => poolRole x = poolRole s) es) with (s := s); try done. intros e x y Hx Hs. rewrite <- Hx. clear Hr Hx.
  destruct e; cbn in Hs; unfold deferLoop, readTask, readMore, finish, quit, shutdownBegin, shutdownStop, shutdownJoin in Hs; repeat case_match; simplify_eq; try done.
  unfold GrowThreads. by induction (Z.to_nat n) as [|m IH]; [|rewrite Nat.iter_succ].
Qed.

(** ** Shutdown *)
Definition taken (vb : nat) (s : threads) : Z := occ vb (executed s) + sumOf (inBusy vb) (workers s).
Lemma worked_taken vb s s' : worked s s' -> taken vb s' + sumOf (inTask vb) (taskQueue_ s') = taken vb s + sumOf (inTask vb) (taskQueue_ s).
Proof.
  intros (i & w & w' & q & ex & [Hi Ew Eq _ Ee _ Hc _]). specialize (Hc vb). unfold taken. rewrite Ew, Eq, Ee, sumOf_app, occ_app, (sumOf_insert _ _ _ _ _ Hi). lia.
Qed.
(** Where the tasks of [old] are once [Shutdown] has been called: ahead of the sentinels,
    in the coalescing queue and then in the task queue, or with a worker. *)
Definition draining (old : nat -> Z) (s : threads) : Prop :=
  match deferThread_ s with
  | DWait | DHold _ => exists d1 d2, deferQueue_ s = d1 ++ None :: d2 /\ sumOf isEnd d1 = 0 /\
      forall vb, old vb <= taken vb s + sumOf (inTask vb) (taskQueue_ s) + inHold vb (deferThread_ s) + sumOf (inDefer vb) d1
  | _ => forall vb, old vb <= taken vb s + sumOf (inTask vb) (taskQueue_ s)
  end.
Record stopping (old : nat -> Z) (s : threads) (q1 : list task) (m : nat) (q2 : list task) (total : Z) : Prop := {
  sp_queue : taskQueue_ s = q1 ++ replicate m StopWorker ++ q2;
  sp_first : sumOf isStop q1 = 0;
  sp_last : sumOf isStop q2 = 0 /\ sumOf isRetire q2 = 0;
  sp_old vb : old vb <= taken vb s + sumOf (inTask vb) q1;
  sp_alive : sumOf alive (workers s) = live s + sumOf isRetire q1 - (total - Z.of_nat m);
  sp_order : Z.of_nat m < total -> q1 = [];
  sp_enough : Z.of_nat m <= total;
  sp_total : live s + sumOf isRetire q1 <= total;
}.
Definition covered (old : nat -> Z) (s : threads) : Prop :=
  match shutdown_ s with
  | Running => False
  | Draining => draining old s
  | Stopping => deferThread_ s = DEnd /\ exists q1 m q2 total, stopping old s q1 m q2 total
  | Closed => forall vb, old vb <= occ vb (executed s)
  end.
Lemma worked_alive s s' i w w' q ex : wstep s s' i w w' q ex -> poolRole s = Writers ->
  sumOf alive (workers s') = sumOf alive (workers s) - (sumOf isRetire q + sumOf isStop q).
Proof. intros [Hi Ew _ _ _ _ _ Ha] Hr. rewrite Ew, (sumOf_insert _ _ _ _ _ Hi). specialize (Ha (or_introl Hr)). lia. Qed.
(** A worker's step while the sentinels are being read. *)
Lemma worked_stopping old s s' q1 m q2 total : poolRole s = Writers -> worked s s' -> stopping old s q1 m q2 total ->
  exists q1' m' q2', stopping old s' q1' m' q2' total.
Proof.
  intros Hr Hw [H1 H2 [H3 H3'] H4 H5 H6 H7 H8]. pose proof (fun vb => worked_taken vb s s' Hw) as Ht. destruct Hw as (i & w & w' & q & ex & Hw).
  pose proof (worked_alive _ _ _ _ _ _ _ Hw Hr) as Hal. destruct Hw as [_ _ Eq Hq _ [= _ _ El _ _ _ _] _ _].
  destruct Hq as [->|[t ->]]; [exists q1, m, q2; cbn [app] in Eq; rewrite Eq in Ht; rewrite !sumOf_nil in Hal; split; rewrite ?El, ?Hal; try done; try lia; [by rewrite <- Eq|intros vb; specialize (Ht vb); specialize (H4 vb); lia]|].
  rewrite Eq in H1. rewrite !sumOf_cons, !sumOf_nil in Hal. cbn [app] in *.
  assert (Ht' : forall vb, taken vb s' = taken vb s + inTask vb t) by (intros vb; specialize (Ht vb); rewrite Eq, sumOf_cons in Ht; lia). clear Ht.
  destruct q1 as [|t1 q1]; [destruct m as [|m]|].
  - cbn in H1. subst q2. rewrite sumOf_cons in *. pose proof (stops_pos (taskQueue_ s')). pose proof (retires_pos (taskQueue_ s')).
    exists [], O, (taskQueue_ s'). destruct t as [v| |]; cbn in *; try lia. split; try done; rewrite ?El, ?Hal, ?sumOf_nil in *; try lia. intros vb. specialize (H4 vb). rewrite sumOf_nil in *. rewrite Ht'. unfold b2z. case_decide; lia.
  - cbn in H1. injection H1 as -> H1. exists [], m, q2. split; rewrite ?El, ?Hal, ?sumOf_nil in *; try done; cbn; try lia. intros vb. specialize (H4 vb). rewrite Ht'. cbn. lia.
  - cbn in H1. injection H1 as -> H1. rewrite sumOf_cons in *. pose proof (stops_pos q1). exists q1, m, q2. split; rewrite ?El, ?Hal; try done; try lia.
    + destruct t1; cbn in *; lia.
    + intros vb. specialize (H4 vb). rewrite sumOf_cons in H4. rewrite Ht'. lia.
    + destruct t1; cbn in *; lia.
    + intros Hm. specialize (H6 Hm). done.
    + destruct t1; cbn in *; lia.
Qed.
Lemma worked_covered old s s' : poolRole s = Writers -> worked s s' -> covered old s -> covered old s'.
Proof.
  intros Hr Hw. pose proof (fun vb => worked_taken vb s s' Hw) as Ht. assert (Hs : (shutdown_ s', deferThread_ s', deferQueue_ s') = (shutdown_ s, deferThread_ s, deferQueue_ s) /\ exists ex, executed s' = executed s ++ ex).
  { destruct Hw as (i & w & w' & q & ex & [_ _ _ _ Ee [= _ E1 _ E2 E3 _ _] _ _]). split; [congruence|by exists ex]. }
  destruct Hs as [[= E1 E2 E3] [ex Ee]]. unfold covered. rewrite E1. destruct (shutdown_ s).
  - done.
  - unfold draining. rewrite E2, E3. destruct (deferThread_ s) as [|h| |]; try (intros H vb; specialize (H vb); specialize (Ht vb); lia).
    all: intros (d1 & d2 & H1 & H2 & H3); exists d1, d2; split; [done|]; split; [done|]; intros vb; specialize (H3 vb); specialize (Ht vb); lia.
  - rewrite E2. intros [Hd (q1 & m & q2 & total & H)]. split; [done|]. destruct (worked_stopping _ _ _ _ _ _ _ Hr Hw H) as (q1' & m' & q2' & H'). by exists q1', m', q2', total.
  - intros H vb. specialize (H vb). rewrite Ee, occ_app. pose proof (occ_pos vb ex). lia.
Qed.
(** Tasks put at the end of the queues. *)
Lemma inTask_pos vb q : 0 <= sumOf (inTask vb) q.
Proof. apply sumOf_pos. intros []; cbn; try lia. apply b2z_pos. Qed.
Lemma push_covered old ts s s' : sumOf isStop ts = 0 -> sumOf isRetire ts = 0 -> taskQueue_ s' = taskQueue_ s ++ ts ->
  (workers s', executed s', live s', shutdown_ s', deferThread_ s') = (workers s, executed s, live s, shutdown_ s, deferThread_ s) ->
  (exists d, deferQueue_ s' = deferQueue_ s ++ d) -> covered old s -> covered old s'.
Proof.
  intros Hst Hre Eq [= E1 E2 E3 E4 E5] [d Ed]. unfold covered, draining. rewrite E4, E5, Ed. destruct (shutdown_ s); [done|..].
  - pose proof (fun vb => inTask_pos vb ts) as Hpos.
    destruct (deferThread_ s) as [|h| |]; try (intros H vb; specialize (H vb); specialize (Hpos vb); unfold taken in *; rewrite E1, E2, Eq, sumOf_app; lia).
    all: intros (d1 & d2 & H1 & H2 & H3); exists d1, (d2 ++ d); rewrite H1, <- app_assoc; split; [done|]; split; [done|]; intros vb; specialize (H3 vb); specialize (Hpos vb);
      unfold taken in *; rewrite E1, E2, Eq, sumOf_app; lia.
  - intros [Hd (q1 & m & q2 & total & [H1 H2 [H3 H3'] H4 H5 H6 H7 H8])]. split; [done|]. exists q1, m, (q2 ++ ts), total.
    split; rewrite ?E1, ?E3; try done; [by rewrite Eq, H1, <- !app_assoc|rewrite !sumOf_app; lia|]. intros vb. unfold taken. rewrite E1, E2. apply H4.
  - by rewrite E2.
Qed.
Lemma deferLoop_covered old s s' : deferLoop s = Some s' -> covered old s -> covered old s'.
Proof.
  intros Hs. unfold covered, draining. assert (E : shutdown_ s' = shutdown_ s) by (unfold deferLoop in Hs; repeat case_match; by simplify_eq). rewrite E. clear E.
  unfold deferLoop in Hs. destruct (shutdown_ s); [done| |intros [Hd _]; by rewrite Hd in Hs|].
  - destruct (deferThread_ s) as [|h| |] eqn:Ed; [destruct (deferQueue_ s) as [|[v|] q]| |destruct (deferQueue_ s) as [|[v|] q]|]; simplify_eq; cbn; unfold const; rewrite ?Ed.
    + intros (d1 & d2 & H1 & H2 & H3). destruct d1 as [|x d1]; [done|]. injection H1 as <- ->. rewrite sumOf_cons in H2. exists d1, d2. split; [done|]. split; [cbn in H2; lia|].
      intros vb. specialize (H3 vb). rewrite sumOf_cons in H3. unfold taken in *. cbn in *. lia.
    + intros (d1 & d2 & H1 & H2 & H3). destruct d1 as [|x d1]; [|injection H1 as <- ->; rewrite sumOf_cons in H2; cbn in H2; assert (0 <= sumOf isEnd d1) by (apply sumOf_pos; by intros []); lia].
      intros vb. specialize (H3 vb). rewrite sumOf_nil in H3. unfold taken in *. cbn in *. lia.
    + intros (d1 & d2 & H1 & H2 & H3). exists d1, d2. split; [done|]. split; [done|]. intros vb. specialize (H3 vb). unfold taken in *. cbn in *. unfold const in *. rewrite sumOf_app, sumOf_cons, sumOf_nil. cbn. lia.
    + intros H vb. apply H.
    + intros H vb. specialize (H vb). pose proof (b2z_pos (v = vb)). unfold taken in *. cbn in *. unfold const. rewrite sumOf_app, sumOf_cons, sumOf_nil. cbn. lia.
    + intros H vb. apply H.
  - intros H. assert (E : executed s' = executed s) by (repeat case_match; by simplify_eq). by rewrite E.
Qed.
Lemma alive_length ws : sumOf alive ws <= Z.of_nat (length ws).
Proof. induction ws as [|w ws IH]; [done|]. rewrite sumOf_cons. cbn [length]. assert (alive w <= 1) by (destruct w as [|? []|]; cbn; lia). lia. Qed.
Lemma stop_covered old s s' : poolRole s = Writers -> threads_ok s -> shutdownStop s = Some s' -> covered old s -> covered old s'.
Proof.
  intros Hr [_ H2 _ _ _ _] Hs Hc. unfold shutdownStop in Hs. unfold covered in Hc. destruct (shutdown_ s) eqn:Es; try done. destruct (deferThread_ s) eqn:Ed; try done. injection Hs as <-.
  unfold draining in Hc. rewrite Ed in Hc. destruct H2 as [Ha Hst]; [by left|by right|]. split; [exact Ed|].
  exists (taskQueue_ s), (length (workers s)), [], (Z.of_nat (length (workers s))). split; try done; cbn; unfold const; try lia; try (by rewrite app_nil_r); try exact Hc. pose proof (alive_length (workers s)). lia.
Qed.
Lemma join_covered old s s' : poolRole s = Writers -> threads_ok s -> shutdownJoin s = Some s' -> covered old s -> covered old s'.
Proof.
  intros Hr [_ _ H3 _ _ _] Hs Hc. unfold shutdownJoin in Hs. unfold covered in Hc. destruct (shutdown_ s) eqn:Es; try done. destruct (forallb _ _) eqn:Ef; [|done]. injection Hs as <-.
  destruct Hc as [_ (q1 & m & q2 & total & [H1 H2 _ H4 H5 H6 H7 _])]. cbn. unfold const. specialize (H3 Hr ltac:(done)).
  rewrite (done_sum alive _ Ef eq_refl) in H5. pose proof (retires_pos q1). rewrite H6 in H4 by lia. intros vb. specialize (H4 vb). unfold taken in H4.
  rewrite (done_sum (inBusy vb) _ Ef) in H4 by apply occ_nil. rewrite sumOf_nil in H4. lia.
Qed.
Lemma step_covered k old e s s' : poolRole s = Writers -> threads_ok s -> step k e s = Some s' -> covered old s -> covered old s'.
Proof.
  intros Hr Hok Hs. assert (Hrun : tuning s = true -> covered old s -> covered old s') by (unfold tuning, covered; by destruct (shutdown_ s)).
  destruct e; cbn in Hs; try (by destruct (tuning s); [apply Hrun|]).
  - injection Hs as <-. apply (push_covered old [Work vb]); try done. exists []. by rewrite app_nil_r.
  - destruct (coalescing s); [|done]. injection Hs as <-. apply (push_covered old []); try done; [by rewrite app_nil_r|by eexists].
  - by apply deferLoop_covered.
  - eauto using worked_covered, readTask_worked.
  - eauto using worked_covered, readMore_worked.
  - eauto using worked_covered, finish_worked.
  - eauto using worked_covered, quit_worked.
  - unfold shutdownBegin in Hs. unfold covered at 1. by destruct (shutdown_ s).
  - by apply stop_covered.
  - by apply join_covered.
Qed.
Lemma begin_covered s s' : threads_ok s -> shutdownBegin s = Some s' -> covered (fun vb => occ vb (submitted s)) s'.
Proof.
  intros [H1 _ _ _ H0 H5] Hs. unfold shutdownBegin in Hs. destruct (shutdown_ s) eqn:Es; try done. injection Hs as <-. destruct (H5 eq_refl) as (H6 & H7 & H8).
  unfold covered, draining. cbn. unfold const. destruct (deferThread_ s) as [|h| |] eqn:Ed; try done.
  1, 2: exists (deferQueue_ s), []; split; [done|]; split; [done|]; intros vb; specialize (H1 vb); unfold pendingIn, taken in *; rewrite Ed in *; cbn in *; lia.
  intros vb. specialize (H1 vb). unfold pendingIn, taken in *. rewrite Ed, (H0 (proj1 H6 eq_refl)), sumOf_nil in H1. cbn in *. lia.
Qed.

(** C6: A shutdown loses no write: in a pool started with at least one writer, whatever
    the tuner and the callers did before and whatever happens meanwhile, once [Shutdown]
    has returned every task that had been given to the pool when it was called has been
    run, those held back for coalescing included. *)
Theorem shutdown_runs_queued kMulti n coalesce before s1 s2 after s3 : (0 < n)%nat ->
  run kMulti before (startThreads Writers n coalesce) = Some s1 -> step kMulti EShutdown s1 = Some s2 ->
  run kMulti after s2 = Some s3 -> shutdown_ s3 = Closed ->
  forall vb, occ vb (submitted s1) <= occ vb (executed s3).
Proof.
  intros Hn H1 H2 H3 Hc vb. assert (Hok : threads_ok s1) by (eapply (run_keeps _ threads_ok); [intros; by eapply step_ok_threads|by apply start_ok|exact H1]).
  pose proof (run_role _ _ _ _ H1) as Hr. cbn in Hr. set (old := fun vb => occ vb (submitted s1)).
  assert (Hinv : poolRole s3 = Writers /\ threads_ok s3 /\ covered old s3).
  { eapply (run_keeps _ (fun s => poolRole s = Writers /\ threads_ok s /\ covered old s)); [|split; [|split]|exact H3].
    - intros e s s' (Ha & Hb & Hd) Hs. split; [|split; [by eapply step_ok_threads|by eapply step_covered]]. rewrite <- Ha. apply (run_role kMulti [e]). by rewrite run_cons, Hs.
    - rewrite <- Hr. apply (run_role kMulti [EShutdown]). by rewrite run_cons, H2.
    - by eapply step_ok_threads.
    - by apply begin_covered. }
  destruct Hinv as (_ & _ & Hcov). unfold covered in Hcov. rewrite Hc in Hcov. apply Hcov.
Qed.

(** ** Progress *)
(** The steps the pool's own threads and a caller of [Shutdown] take by themselves. *)
Definition internal (e : event) : bool :=
  match e with EDeferLoop | ERead _ | EFinish _ _ _ _ | EStop | EJoin => true | _ => false end.
Definition stuck (kMulti : nat) (s : threads) : Prop := forall e, internal e = true -> step kMulti e s = None.
(** An upper bound of what they can still do. *)
Definition taskWeight (t : task) : Z := match t with Work _ => 2 | _ => 1 end.
Definition workerWeight (w : worker) : Z := match w with Busy _ _ => 1 | _ => 0 end.
Definition deferWeight (d : option nat) : Z := match d with Some _ => 4 | None => 1 end.
Definition holdWeight (d : deferPc) : Z := match d with DHold _ => 4 | DWait | DFlush => 1 | DEnd => 0 end.
Definition stageWeight (s : threads) : Z := match shutdown_ s with Draining => 2 + Z.of_nat (length (workers s)) | Stopping => 1 | _ => 0 end.
Definition weight (s : threads) : Z :=
  sumOf taskWeight (taskQueue_ s) + sumOf workerWeight (workers s) + sumOf deferWeight (deferQueue_ s) + holdWeight (deferThread_ s) + stageWeight s.
Lemma weight_pos s : 0 <= weight s.
Proof.
  unfold weight. assert (0 <= sumOf taskWeight (taskQueue_ s)) by (apply sumOf_pos; by intros []). assert (0 <= sumOf workerWeight (workers s)) by (apply sumOf_pos; by intros []).
  assert (0 <= sumOf deferWeight (deferQueue_ s)) by (apply sumOf_pos; by intros []). assert (0 <= holdWeight (deferThread_ s)) by by destruct (deferThread_ s).
  assert (0 <= stageWeight s) by (unfold stageWeight; destruct (shutdown_ s); lia). lia.
Qed.
Lemma internal_weight k e s s' : internal e = true -> step k e s = Some s' -> weight s' < weight s.
Proof.
  intros Hi Hs. unfold weight, stageWeight. destruct e; try done; cbn in Hs.
  - unfold deferLoop in Hs. destruct (deferThread_ s) as [|h| |] eqn:Ed; [destruct (deferQueue_ s) as [|[v|] q] eqn:Eq| |destruct (deferQueue_ s) as [|[v|] q] eqn:Eq|]; simplify_eq; cbn; unfold const;
      rewrite ?Ed, ?Eq, ?sumOf_app, ?sumOf_cons, ?sumOf_nil; cbn; lia.
  - unfold readTask in Hs. destruct (workers s !! i) as [[| |]|] eqn:Hw; try done. destruct (taskQueue_ s) as [|t q] eqn:Eq; [done|]. injection Hs as <-. cbn. unfold const.
    rewrite length_insert, sumOf_cons, (sumOf_insert _ _ _ _ _ Hw). destruct t; cbn; lia.
  - unfold finish in Hs. destruct (workers s !! i) as [[|vbs l|]|] eqn:Hw; try done. injection Hs as <-. cbn. unfold const.
    rewrite length_insert, (sumOf_insert _ _ _ _ _ Hw). destruct l; cbn; lia.
  - unfold shutdownStop in Hs. destruct (shutdown_ s), (deferThread_ s) eqn:Ed; try done. injection Hs as <-. cbn. unfold const. rewrite Ed, sumOf_app, sumOf_replicate. cbn. lia.
  - unfold shutdownJoin in Hs. destruct (shutdown_ s); try done. destruct (forallb _ _); [|done]. injection Hs as <-. cbn. unfold const.
    assert (0 <= sumOf workerWeight (workers s)) by (apply sumOf_pos; by intros []). rewrite sumOf_nil. lia.
Qed.
Lemma internal_bound k es : forall s s', Forall (fun e => internal e = true) es -> run k es s = Some s' -> Z.of_nat (length es) <= weight s.
Proof.
  induction es as [|e es IH]; intros s s' Hf Hr; [cbn; apply weight_pos|]. inversion Hf as [|? ? H1 H2]; subst. rewrite run_cons in Hr. destruct (step k e s) as [s1|] eqn:E; [|done].
  specialize (IH s1 s' H2 Hr). pose proof (internal_weight k e s s1 H1 E). cbn [length]. lia.
Qed.
Lemma busy_none k s : stuck k s -> forall i w, workers s !! i = Some w -> workerWeight w = 0.
Proof.
  intros Hst i w Hw. destruct w as [|vbs l|]; try done. specialize (Hst (EFinish i 0 0 0) eq_refl). cbn in Hst. unfold finish in Hst. by rewrite Hw in Hst.
Qed.
(** With a worker left, a stuck pool has an idle one and an empty queue. *)
Lemma stuck_idle k s : stuck k s -> 0 < sumOf alive (workers s) -> (exists i, workers s !! i = Some Idle) /\ taskQueue_ s = [].
Proof.
  intros Hst Ha. assert (Hi : exists i, workers s !! i = Some Idle).
  { pose proof (busy_none k s Hst) as Hb. clear Hst. revert Ha Hb. generalize (workers s). induction l as [|w l IH]; intros Ha Hb; [by rewrite sumOf_nil in Ha|].
    rewrite sumOf_cons in Ha. destruct w as [|vbs b|]; [by exists O|by specialize (Hb O _ eq_refl)|]. destruct IH as [i Hi]; [cbn in Ha; lia|intros j; apply (Hb (S j))|by exists (S i)]. }
  split; [done|]. destruct Hi as [i Hi]. specialize (Hst (ERead i) eq_refl). cbn in Hst. unfold readTask in Hst. rewrite Hi in Hst. by destruct (taskQueue_ s).
Qed.
Lemma stuck_done k s : stuck k s -> sumOf alive (workers s) = 0 -> forallb isDone (workers s) = true.
Proof.
  intros Hst. pose proof (busy_none k s Hst) as Hb. clear Hst. revert Hb. generalize (workers s). induction l as [|w l IH]; intros Hb Ha; [done|].
  rewrite sumOf_cons in Ha. assert (0 <= sumOf alive l) by (apply sumOf_pos; by intros [|? []|]). destruct w as [|vbs b|]; [cbn in Ha; lia|by specialize (Hb O _ eq_refl)|].
  cbn. apply IH; [intros j; apply (Hb (S j))|cbn in Ha; lia].
Qed.
Lemma stuck_closing k s : poolRole s = Writers -> stuck k s -> covered (fun _ => 0) s -> shutdown_ s = Closed.
Proof.
  intros Hr Hst Hc. unfold covered in Hc. destruct (shutdown_ s) eqn:Es; try done; exfalso.
  - pose proof (Hst EDeferLoop eq_refl) as Hd. pose proof (Hst EStop eq_refl) as Hp. cbn in Hd, Hp. unfold deferLoop in Hd. unfold shutdownStop in Hp. rewrite Es in Hp. unfold draining in Hc.
    destruct (deferThread_ s); try done; [|by destruct (deferQueue_ s) as [|[]]]. destruct Hc as (d1 & d2 & E & _). rewrite E in Hd. by destruct d1 as [|[] d1].
  - destruct Hc as [_ (q1 & m & q2 & total & [H1 _ _ _ H5 _ H7 H8])]. destruct (decide (0 < sumOf alive (workers s))) as [Ha|Ha].
    + destruct (stuck_idle k s Hst Ha) as [_ Hq]. rewrite H1 in Hq. apply app_eq_nil in Hq as [_ Hq]. apply app_eq_nil in Hq as [Hq _]. destruct m; [lia|done].
    + pose proof (Hst EJoin eq_refl) as Hj. cbn in Hj. unfold shutdownJoin in Hj. rewrite Es in Hj. rewrite (stuck_done k s Hst) in Hj; [done|].
      assert (0 <= sumOf alive (workers s)) by (apply sumOf_pos; by intros [|? []|]). lia.
Qed.
Lemma stuck_running k s : poolRole s = Writers -> threads_ok s -> stuck k s -> shutdown_ s = Running -> executed s ≡ₚ submitted s /\ exists i, workers s !! i = Some Idle.
Proof.
  intros Hr [H1 H2 H3 H4 H0 H5] Hst Es. destruct H2 as [Ha _]; [by left|by left|]. specialize (H3 Hr). rewrite Es in H3. specialize (H3 ltac:(done)).
  pose proof (retires_pos (taskQueue_ s)). destruct (stuck_idle k s Hst) as [Hi Hq]; [lia|]. split; [|done]. apply occ_perm. intros vb. specialize (H1 vb). unfold pendingIn in H1.
  rewrite Hq, sumOf_nil in H1. assert (Hb : sumOf (inBusy vb) (workers s) = 0).
  { apply sumOf_0, Forall_lookup. intros i w Hw. pose proof (busy_none k s Hst i w Hw). by destruct w. }
  pose proof (Hst EDeferLoop eq_refl) as Hd. cbn in Hd. unfold deferLoop in Hd. destruct (H5 Es) as (H6 & H7 & H8).
  assert (Hdq : inHold vb (deferThread_ s) = 0 /\ deferQueue_ s = []); [|destruct Hdq as [E1 E2]; rewrite Hb, E1, E2, sumOf_nil in H1; lia].
  destruct (deferThread_ s); try done; [by destruct (deferQueue_ s) as [|[]]|]. split; [done|]. by apply H0, H6.
Qed.
Lemma covered_less (old new : nat -> Z) s : (forall vb, new vb <= old vb) -> covered old s -> covered new s.
Proof.
  intros Hle. unfold covered, draining. destruct (shutdown_ s); [done|destruct (deferThread_ s) as [|h| |]| |].
  1, 2: intros (d1 & d2 & H1 & H2 & H3); exists d1, d2; split; [done|]; split; [done|]; intros v; specialize (H3 v); specialize (Hle v); lia.
  1, 2: intros H v; specialize (H v); specialize (Hle v); lia.
  - intros [Hd (q1 & m & q2 & total & [H1 H2 H3 H4 H5 H6 H7 H8])]. split; [done|]. exists q1, m, q2, total. split; try done. intros v. specialize (H4 v). specialize (Hle v). lia.
  - intros H v. specialize (H v). specialize (Hle v). lia.
Qed.
Lemma step_running k e s s' : threads_ok s -> shutdown_ s = Running -> step k e s = Some s' -> shutdown_ s' = Running \/ covered (fun _ => 0) s'.
Proof.
  intros Hok Hr Hs. destruct (decide (e = EShutdown)) as [->|He].
  - right. eapply covered_less; [|by apply begin_covered]. intros vb. cbn. apply occ_pos.
  - left. rewrite <- Hr. destruct e; cbn in Hs; unfold deferLoop, readTask, readMore, finish, quit, shutdownBegin, shutdownStop, shutdownJoin in Hs; rewrite ?Hr in Hs; repeat case_match; simplify_eq; try done.
    unfold GrowThreads. by induction (Z.to_nat n) as [|m IH]; [|rewrite Nat.iter_succ].
Qed.

(** C7: The writers always get on: from any state that a pool started with at least one
    writer reaches, its threads (and a [Shutdown] in progress) can take only boundedly many
    steps by themselves, and when they can take none, either the pool is running, every
    task ever given to it has been run exactly once and a worker waits for the next, or
    [Shutdown] has returned. *)
Theorem writers_get_on kMulti n coalesce es s : (0 < n)%nat -> run kMulti es (startThreads Writers n coalesce) = Some s ->
  (forall es' s', Forall (fun e => internal e = true) es' -> run kMulti es' s = Some s' -> Z.of_nat (length es') <= weight s) /\
  (stuck kMulti s -> (shutdown_ s = Running /\ executed s ≡ₚ submitted s /\ exists i, workers s !! i = Some Idle) \/ shutdown_ s = Closed).
Proof.
  intros Hn Hr. split; [intros es' s'; apply internal_bound|]. pose proof (run_role _ _ _ _ Hr) as Hw. cbn in Hw.
  assert (Hinv : threads_ok s /\ (shutdown_ s = Running \/ covered (fun _ => 0) s)).
  { eapply (run_keeps _ (fun s => poolRole s = Writers /\ threads_ok s /\ (shutdown_ s = Running \/ covered (fun _ => 0) s))) in Hr; [by destruct Hr| |by split; [|split; [apply start_ok|left]]].
    intros e x y (Ha & Hb & Hc) Hs. split; [rewrite <- Ha; apply (run_role kMulti [e]); by rewrite run_cons, Hs|]. split; [by eapply step_ok_threads|].
    destruct Hc as [Hc|Hc]; [|right; by eapply step_covered]. by eapply step_running. }
  destruct Hinv as [Hok [Hs|Hs]]; intros Hst; [left|right; by eapply stuck_closing]. split; [done|]. by eapply stuck_running.
Qed.

(** ** The tuner's view *)
Definition view (s : threads) : WorkerPool := mkWorkerPool (poolRole s) (isDone <$> workers s) (live s) (retired s) (work s) (sampled s).
(** What happens to a pool as [ElasticPool] has it: an operation of the tuner, or workers
    that end and account for what they did. *)
Inductive pool_step : WorkerPool -> WorkerPool -> Prop :=
| pool_grow p n : pool_step p (growPool p n)
| pool_shrink p n : 0 <= n -> pool_step p (shrinkPool p n)
| pool_reap p : pool_step p (reapPool p)
| pool_sample p : pool_step p (TakeSample p).1
| pool_work p ws w : Forall2 (fun d d' => d = true -> d' = true) (workers_ p) ws -> pool_step p { p with workers_ := ws; acct_ := w }.
Lemma view_grow n s : view (GrowThreads n s) = growPool (view s) n.
Proof.
  unfold GrowThreads, growPool. induction (Z.to_nat n) as [|m IH]; [done|]. rewrite !Nat.iter_succ, <- IH. unfold view, spawnThread, spawn. cbn. unfold const. by rewrite fmap_app.
Qed.
Lemma done_filter (ws : list worker) : isDone <$> filter (fun w => isDone w = false) ws = filter (fun d => d = false) (isDone <$> ws).
Proof.
  induction ws as [|w ws IH]; [done|]. rewrite filter_cons. cbn [fmap list_fmap]. rewrite filter_cons. destruct (decide (isDone w = false)); [|done]. cbn. by rewrite IH.
Qed.
Lemma view_reap s : view (ReapThreads s) = reapPool (view s).
Proof. unfold view, reapPool, ReapThreads. cbn. unfold const. by rewrite done_filter. Qed.
Lemma done_mono ws : Forall2 (fun d d' => d = true -> d' = true) (isDone <$> ws) (isDone <$> ws).
Proof. induction ws; constructor; done. Qed.
Lemma done_insert ws i w w' : ws !! i = Some w -> isDone w = false -> Forall2 (fun d d' => d = true -> d' = true) (isDone <$> ws) (isDone <$> <[i := w']> ws).
Proof.
  revert i. induction ws as [|x ws IH]; intros [|i] Hi Hd; try done; cbn in *.
  - injection Hi as ->. constructor; [by rewrite Hd|apply done_mono].
  - constructor; [done|by apply IH].
Qed.
Lemma view_same s s' : (poolRole s', live s', retired s', sampled s') = (poolRole s, live s, retired s, sampled s) ->
  Forall2 (fun d d' => d = true -> d' = true) (isDone <$> workers s) (isDone <$> workers s') -> pool_step (view s) (view s').
Proof.
  intros [= E1 E2 E3 E4] Hw. replace (view s') with ({ view s with workers_ := isDone <$> workers s'; acct_ := work s' }); [by constructor|].
  unfold view. cbn. by rewrite E1, E2, E3, E4.
Qed.
(** The threads of a running pool implement the pool the tuner sees. *)
Theorem threads_refine_pool k e s s' : step k e s = Some s' -> shutdown_ s' = Running -> pool_step (view s) (view s').
Proof.
  intros Hs Hr. destruct e; cbn in Hs.
  8-11: destruct (tuning s); try done; cbn in Hs.
  8: { injection Hs as <-. rewrite view_grow. constructor. }
  8: { destruct (Z.leb_spec 0 n); [|done]. injection Hs as <-. change (view (ShrinkThreads n s)) with (shrinkPool (view s) n). by constructor. }
  8: { injection Hs as <-. rewrite view_reap. constructor. }
  8: { injection Hs as <-. change (view (SampleThreads s)) with (TakeSample (view s)).1. constructor. }
  all: unfold deferLoop, readTask, readMore, finish, quit, shutdownBegin, shutdownStop, shutdownJoin in Hs; repeat case_match; simplify_eq; try done; apply view_same; try done; try apply done_mono; by eapply done_insert.
Qed.

(** ** Runs of a pool *)
(** Two writers; a task held back and two queued, one writer more and one retired, then a
    shutdown in which a task is still to run. *)
Definition usedPool : list event :=
  [ESubmit 1; EDefer 2; ESubmit 3; EGrow 1; ERead 0; EShrink 1; EDeferLoop; EFinish 0 5 1 1; ERead 1].
Definition closing : list event :=
  [EDeferLoop; EFinish 1 5 1 1; ERead 0; EDeferLoop; EDeferLoop; EStop; ERead 1; EFinish 1 5 1 1; ERead 1; ERead 2; EJoin].
Lemma shutdown_runs_queued_witness : exists s1 s2 s3,
  run 1 usedPool (startThreads Writers 2 true) = Some s1 /\ step 1 EShutdown s1 = Some s2 /\
  run 1 closing s2 = Some s3 /\ submitted s1 = [1; 2; 3]%nat /\ executed s1 = [1]%nat /\
  forall vb, occ vb (submitted s1) <= occ vb (executed s3).
Proof.
  eexists _, _, _. split; [vm_compute; reflexivity|]. split; [vm_compute; reflexivity|]. split; [vm_compute; reflexivity|]. split; [reflexivity|]. split; [reflexivity|].
  eapply (shutdown_runs_queued 1 2 true usedPool _ _ closing); [lia|vm_compute; reflexivity..].
Defined.
Lemma writers_get_on_witness : exists s, run 1 (usedPool ++ [EFinish 1 5 1 1; ERead 0; EDeferLoop; ERead 2; EFinish 2 5 1 1]) (startThreads Writers 2 true) = Some s /\
  stuck 1 s /\ shutdown_ s = Running /\ executed s ≡ₚ submitted s.
Proof.
  eexists. split; [vm_compute; reflexivity|].
  match goal with |- stuck 1 ?x /\ _ => assert (Hst : stuck 1 x) by (intros []; intros; try done; cbn; unfold readTask, finish; cbn; by destruct i as [|[|[|]]]); set (s := x) in * end.
  split; [exact Hst|]. assert (Hr : run 1 (usedPool ++ [EFinish 1 5 1 1; ERead 0; EDeferLoop; ERead 2; EFinish 2 5 1 1]) (startThreads Writers 2 true) = Some s) by (vm_compute; reflexivity).
  destruct (proj2 (writers_get_on 1 2 true _ s ltac:(lia) Hr) Hst) as [(H1 & H2 & _)|H1]; [by split|discriminate H1].
Defined.
