(* ===== verification/IOPool.v ===== *)
(** * The IO threads (server.cc, iothread.h)

    [Server] is the list of event loops with their connection counts,
    reservations and mailboxes, and the operations of [Server::IOPool] on it.
    Every assignment of a connection to a loop is reserved first; a plan to move
    connections is a closure posted to the loop they are on, which
    [IOThreads] runs.  Loops have an identity ([lid]) where the source has their
    address.  A tuner operation is one step with respect to the loops; where
    [std::sort] may order loops of equal load in any way they stay in list
    order.  Thread start, CPU clocks and the loop's smoothed iteration time are
    inputs. *)
From stdpp Require Import prelude list sorting.
From Stdlib Require Import ZArith Lia.
From coqutil Require Import Datatypes.RecordSettersUsingExistingGetters.
From S2P Require Import Prelude Double ElasticPool.
Open Scope Z_scope.

(** What is posted to a loop: a socket just accepted, a connection that arrives
    from another loop, and a plan with the destinations reserved for it. *)
Inductive Mail := MAccept | MAttach (c : nat) | MPlan (dests : list nat).

Record IOThread := mkIOThread {
  lid : nat;
  retiring : bool;
  connCount : Z;
  pending : Z;
  holds : Z;
  emptyTicks : Z;
  conns : list nat;
  mail : list Mail;
  lastCpuNs : Z;
  cpuNs : Z;              (* the loop thread's CPU clock *)
  avgLoopTime : double;
}.
Definition Load (t : IOThread) : Z := connCount t + pending t.
Definition Reserve (t : IOThread) : IOThread := { t with pending := pending t + 1 }.
Definition Unreserve (t : IOThread) : IOThread := { t with pending := pending t - 1 }.
Definition Hold (t : IOThread) : IOThread := { t with holds := holds t + 1 }.
Definition Release (t : IOThread) : IOThread := { t with holds := holds t - 1 }.
Definition Post (m : Mail) (t : IOThread) : IOThread := { t with mail := mail t ++ [m] }.
Definition Add (c : nat) (t : IOThread) : IOThread :=
  { t with conns := conns t ++ [c]; connCount := connCount t + 1; pending := pending t - 1 }.
(** The last connection takes the place of the one removed. *)
Definition Remove (c : nat) (t : IOThread) : IOThread :=
  match list_find (fun x => x = c) (conns t) with
  | Some (i, _) =>
      let n := pred (length (conns t)) in
      { t with conns := take n (<[i := nth n (conns t) 0%nat]> (conns t)); connCount := connCount t - 1 }
  | None => t
  end.

Record Server := mkServer {
  ioThreads_ : list IOThread;
  nextLoop : nat;
  lost : list Mail;       (* what was in the mailboxes of loops that were stopped *)
}.
(** The loop at an address, changed. *)
Definition onLoop (i : nat) (f : IOThread -> IOThread) (s : Server) : Server :=
  { s with ioThreads_ := map (fun t => if (lid t =? i)%nat then f t else t) (ioThreads_ s) }.
Definition findLoop (i : nat) (s : Server) : option IOThread := List.find (fun t => (lid t =? i)%nat) (ioThreads_ s).
Definition loadOf (s : Server) (i : nat) : Z := match findLoop i s with Some t => Load t | None => 0 end.

Definition addIOThread (s : Server) : Server :=
  { s with ioThreads_ := ioThreads_ s ++ [mkIOThread (nextLoop s) false 0 0 0 0 [] [] 0 0 d0]; nextLoop := S (nextLoop s) }.

(** The first of least load among those in the list. *)
Definition leastOf (s : Server) (l : list nat) : option nat :=
  foldl (fun best i => match best with
                       | Some b => if loadOf s i <? loadOf s b then Some i else best
                       | None => Some i
                       end) None l.
Definition live (s : Server) : list nat := lid <$> filter (fun t => retiring t = false) (ioThreads_ s).
Definition pickIOThread (s : Server) : option nat * Server :=
  match leastOf s (live s) with
  | Some b => (Some b, onLoop b Reserve s)
  | None => (None, s)
  end.

Definition postMigrations (from : nat) (dests : list nat) (s : Server) : Server :=
  match dests with [] => s | _ => onLoop from (Post (MPlan dests)) s end.
(** Up to [k] reservations on the emptiest of [to] ([fillTo] is always left at its
    default, which no load reaches). *)
Fixpoint planMoves (k : nat) (to : list nat) (s : Server) : list nat * Server :=
  match k with
  | O => ([], s)
  | S k =>
      match leastOf s to with
      | None => ([], s)
      | Some d => let '(ds, s') := planMoves k to (onLoop d Reserve s) in (d :: ds, s')
      end
  end.

(** ** Levelling *)
(** The first position of the largest, and of the smallest, element. *)
Definition argBy (better : Z -> Z -> bool) (l : list Z) : nat :=
  (foldl (fun '(best, i) x => if better x (nth best l 0) then (i, S i) else (best, S i)) (0%nat, 0%nat) l).1.
Definition maxIndex (l : list Z) : nat := argBy (fun x y => y <? x) l.
Definition minIndex (l : list Z) : nat := argBy (fun x y => x <? y) l.
(** One round: the positions of the loop that gives a connection and the one that gets it. *)
Definition levelRound (load : list Z) : option (nat * nat * list Z) :=
  let mx := maxIndex load in
  let mn := minIndex load in
  if nth mx load 0 - nth mn load 0 <=? 1 then None
  else let l1 := <[mx := nth mx load 0 - 1]> load in Some (mx, mn, <[mn := nth mn l1 0 + 1]> l1).
Fixpoint level (fuel : nat) (load : list Z) : list (nat * nat) * list Z :=
  match fuel with
  | O => ([], load)
  | S k => match levelRound load with
           | None => ([], load)
           | Some (di, ri, load') => let '(moves, l) := level k load' in ((di, ri) :: moves, l)
           end
  end.
Definition sumSq (l : list Z) : Z := sumOf (fun x => x * x) l.
Definition levelFuel (l : list Z) : nat := Z.to_nat (sumSq l).

Definition rebalance (s : Server) : Server :=
  let lv := live s in
  if (length lv <? 2)%nat then s
  else
    let load := loadOf s <$> lv in
    let moves := (level (levelFuel load) load).1 in
    let s1 := foldl (fun s m => onLoop (nth m.2 lv 0%nat) Reserve s) s moves in
    foldl (fun s i => postMigrations (nth i lv 0%nat) ((fun m => nth m.2 lv 0%nat) <$> filter (fun m => m.1 = i) moves) s)
          s1 (seq 0 (length lv)).

(** ** The pool operations *)
Definition GrowIO (s : Server) (n : Z) : Server := rebalance (Nat.iter (Z.to_nat n) addIOThread s).

Definition byLoad (s : Server) (i j : nat) : Prop := loadOf s i <= loadOf s j.
#[global] Instance byLoad_dec s i j : Decision (byLoad s i j) := Z.le_dec _ _.
Definition retire (victims : list nat) (t : IOThread) : IOThread :=
  if bool_decide (lid t ∈ victims) then { t with retiring := true; emptyTicks := 0 } else t.
Definition ShrinkIO (s : Server) (n : Z) : Server :=
  let lv := live s in
  if (length lv <=? 1)%nat then s
  else
    let k := Nat.min (Z.to_nat n) (length lv - 1) in
    let sorted := merge_sort (byLoad s) lv in
    let victims := take k sorted in
    let remaining := drop k sorted in
    let s1 := { s with ioThreads_ := retire victims <$> ioThreads_ s } in
    foldl (fun s i => let '(ds, s') := planMoves (Z.to_nat (loadOf s i)) remaining s in postMigrations i ds s') s1 victims.

(** One loop in [Reap]: kept, changed, or stopped. *)
Definition isStuck (t : IOThread) : bool := retiring t && (0 <? Load t).
Definition reapOne (t : IOThread) : option IOThread :=
  if negb (retiring t) then Some t
  else if 0 <? Load t then Some { t with emptyTicks := 0 }
  else if 0 <? holds t then Some { t with emptyTicks := 0 }
  else if emptyTicks t + 1 <? 2 then Some { t with emptyTicks := emptyTicks t + 1 }
  else None.
Definition reapedMail (t : IOThread) : list Mail := match reapOne t with None => mail t | Some _ => [] end.
Definition ReapIO (s : Server) : Server :=
  let s1 := { s with ioThreads_ := omap reapOne (ioThreads_ s); lost := lost s ++ (ioThreads_ s ≫= reapedMail) } in
  let stuck := lid <$> filter (fun t => isStuck t = true) (ioThreads_ s1) in
  let lv := live s1 in
  if (length lv =? 0)%nat then s1
  else
    let inFlight := sumOf pending (filter (fun t => retiring t = false \/ isStuck t = true) (ioThreads_ s1)) in
    if 0 <? inFlight then s1
    else
      let s2 := foldl (fun s i => let k := match findLoop i s with Some t => connCount t | None => 0 end in
                                  let '(ds, s') := planMoves (Z.to_nat k) lv s in postMigrations i ds s') s1 stuck in
      if (length stuck =? 0)%nat then rebalance s2 else s2.

Definition SettledIO (s : Server) : bool :=
  forallb (fun t => negb (0 <? pending t) && negb (retiring t && (0 <? connCount t))) (ioThreads_ s).

Definition sampleLoop (wallSec : double) (t : IOThread) : IOThread * double :=
  let d := if lastCpuNs t <=? cpuNs t then cpuNs t - lastCpuNs t else 0 in
  ({ t with lastCpuNs := cpuNs t }, if d_lt d0 wallSec then (dZ d / (wallSec * dZ 1000000000))%D else d0).
Definition SampleIO (s : Server) (wallSec : double) : Server * PoolSample :=
  let l := sampleLoop wallSec <$> ioThreads_ s in
  let on := filter (fun tb => retiring tb.1 = false) l in
  let size := Z.of_nat (length on) in
  ({ s with ioThreads_ := fst <$> l },
   mkPoolSample size (if 0 <? size then (foldl (fun sum tb => sum + tb.2) d0 on / dZ size)%D else d0)
     (foldl (fun m tb => d_max m tb.2) d0 on) d0 (foldl (fun m tb => d_max m (avgLoopTime tb.1)) d0 on)).

#[global] Instance IOPool : ElasticPool Server := {|
  Size s := Z.of_nat (length (live s));
  Step _ := 1;
  Grow := GrowIO;
  Shrink := ShrinkIO;
  Sample := SampleIO;
  Reap := ReapIO;
  Settled := SettledIO;
|}.

(** ** Which loops there are *)
Definition shape (s : Server) : list (nat * bool) := (fun t => (lid t, retiring t)) <$> ioThreads_ s.
Definition loops_ok (s : Server) : Prop := NoDup (lid <$> ioThreads_ s) /\ Forall (fun t => (lid t < nextLoop s)%nat) (ioThreads_ s).

Lemma live_shape s s' : shape s' = shape s -> live s' = live s.
Proof.
  unfold shape, live. generalize (ioThreads_ s) as l, (ioThreads_ s') as l'. intros l. induction l as [|t l IH]; intros [|t' l'] E; try done.
  injection E as E1 E2 E3. specialize (IH _ E3). rewrite !filter_cons, E2. destruct (decide (retiring t = false)); [|exact IH]. cbn [fmap list_fmap]. by rewrite E1, IH.
Qed.
Lemma lids_shape s s' : shape s' = shape s -> lid <$> ioThreads_ s' = lid <$> ioThreads_ s.
Proof.
  intros E. apply (f_equal (fmap fst)) in E. unfold shape in E. rewrite <- !list_fmap_compose in E. exact E.
Qed.
(** The loops and the next address are as they were. *)
Definition same_loops (s s' : Server) : Prop := shape s' = shape s /\ nextLoop s' = nextLoop s.
#[global] Instance same_loops_pre : PreOrder same_loops.
Proof. split; [done|]. intros s1 s2 s3 [E1 E2] [E3 E4]. split; congruence. Qed.
Lemma same_loops_ok s s' : same_loops s s' -> loops_ok s -> loops_ok s'.
Proof.
  intros [E1 E2] [H1 H2]. pose proof (lids_shape _ _ E1) as E. split; [by rewrite E|]. rewrite E2.
  assert (Hf : Forall (fun i => (i < nextLoop s)%nat) (lid <$> ioThreads_ s')) by (rewrite E; by apply Forall_fmap). by apply Forall_fmap in Hf.
Qed.
Lemma onLoop_same i f s : (forall t, lid (f t) = lid t /\ retiring (f t) = retiring t) -> same_loops s (onLoop i f s).
Proof.
  intros Hf. split; [|done]. unfold shape, onLoop. cbn. unfold const. induction (ioThreads_ s) as [|t l IH]; [done|]. cbn. f_equal; [|exact IH].
  destruct (_ =? _)%nat; [|done]. by destruct (Hf t) as [-> ->].
Qed.
Lemma reserve_same i s : same_loops s (onLoop i Reserve s).
Proof. by apply onLoop_same. Qed.
Lemma postMigrations_same i ds s : same_loops s (postMigrations i ds s).
Proof. destruct ds; [done|]. by apply onLoop_same. Qed.
Lemma planMoves_same k to s : same_loops s (planMoves k to s).2.
Proof.
  revert s. induction k as [|k IH]; intros s; [done|]. cbn. destruct (leastOf s to) as [d|]; [|done].
  specialize (IH (onLoop d Reserve s)). destruct (planMoves k to _) as [ds s']. cbn in *. etrans; [apply reserve_same|exact IH].
Qed.
Lemma foldl_same {A} (f : Server -> A -> Server) l s : (forall s x, same_loops s (f s x)) -> same_loops s (foldl f s l).
Proof. intros Hf. revert s. induction l as [|x l IH]; intros s; [done|]. cbn. etrans; [apply Hf|apply IH]. Qed.
Lemma rebalance_same s : same_loops s (rebalance s).
Proof.
  unfold rebalance. destruct (_ <? 2)%nat; [done|]. etrans; [|apply foldl_same; intros; apply postMigrations_same].
  apply foldl_same. intros. apply reserve_same.
Qed.
Lemma planPost_same s i k to : same_loops s (let '(ds, s') := planMoves k to s in postMigrations i ds s').
Proof. pose proof (planMoves_same k to s) as H. destruct (planMoves k to s) as [ds s']. etrans; [exact H|apply postMigrations_same]. Qed.

(** ** Growing and retiring *)
Lemma addIOThread_ok s : loops_ok s -> loops_ok (addIOThread s) /\ live (addIOThread s) = live s ++ [nextLoop s].
Proof.
  intros [H1 H2]. unfold loops_ok, live. cbn. unfold const. rewrite filter_app, !fmap_app. cbn. split; [|done]. split.
  - apply NoDup_app. split; [done|]. split; [|repeat constructor; by intros ?%elem_of_nil].
    intros i Hi ->%list_elem_of_singleton. apply list_elem_of_fmap in Hi as (t & E & Ht). rewrite Forall_forall in H2. specialize (H2 t Ht). lia.
  - apply Forall_app. split; [|repeat constructor; cbn; lia]. eapply Forall_impl; [exact H2|]. cbn. lia.
Qed.
Lemma addIOThreads_ok n s : loops_ok s ->
  loops_ok (Nat.iter n addIOThread s) /\ length (live (Nat.iter n addIOThread s)) = (length (live s) + n)%nat.
Proof.
  intros Hs. induction n as [|n [IH1 IH2]]; [split; [done|cbn; lia]|]. rewrite Nat.iter_succ. destruct (addIOThread_ok _ IH1) as [H1 H2].
  split; [done|]. rewrite H2, length_app, IH2. cbn. lia.
Qed.
Lemma live_NoDup s : loops_ok s -> NoDup (live s).
Proof. intros [H _]. unfold live. eapply sublist_NoDup; [exact H|]. apply fmap_sublist, sublist_filter. Qed.
Lemma retire_facts v t : lid (retire v t) = lid t /\ (retiring (retire v t) = false <-> retiring t = false /\ lid t ∉ v).
Proof. unfold retire. destruct (bool_decide_reflect (lid t ∈ v)); cbn; unfold const; split; intuition discriminate. Qed.
Lemma retired_live s v : live { s with ioThreads_ := retire v <$> ioThreads_ s } = filter (fun i => i ∉ v) (live s).
Proof.
  unfold live. cbn. unfold const. induction (ioThreads_ s) as [|t l IH]; [done|]. rewrite fmap_cons, !filter_cons. destruct (retire_facts v t) as [E1 E2].
  destruct (decide (retiring (retire v t) = false)) as [Hr|Hr]; destruct (decide (retiring t = false)) as [Ht|Ht]; rewrite ?fmap_cons, ?filter_cons, ?E1.
  - rewrite decide_True by tauto. by rewrite IH.
  - tauto.
  - rewrite decide_False by tauto. exact IH.
  - exact IH.
Qed.
Lemma retired_size s v : v ⊆+ live s -> loops_ok s ->
  (length (live { s with ioThreads_ := retire v <$> ioThreads_ s }) + length v = length (live s))%nat.
Proof.
  intros Hv Hs. pose proof (live_NoDup s Hs) as Hn. rewrite retired_live, <- (length_filter_split (fun i => i ∈ v) (live s)), Nat.add_comm. f_equal.
  apply Permutation_length, NoDup_Permutation; [destruct (submseteq_Permutation _ _ Hv) as [k Hk]; rewrite Hk in Hn; by apply NoDup_app in Hn as [? _]|by apply NoDup_filter|].
  intros i. rewrite list_elem_of_filter. split; [intros Hi; split; [done|]|tauto]. by eapply elem_of_submseteq.
Qed.
Lemma retire_ok s v : loops_ok s -> loops_ok { s with ioThreads_ := retire v <$> ioThreads_ s }.
Proof.
  intros [H1 H2]. unfold loops_ok. cbn. unfold const. rewrite <- list_fmap_compose. split.
  - erewrite list_fmap_ext; [exact H1|]. intros i t _. apply (retire_facts v t).
  - apply Forall_fmap. eapply Forall_impl; [exact H2|]. intros t Ht. unfold compose. by rewrite (proj1 (retire_facts v t)).
Qed.
Lemma shrink_victims s n : loops_ok s -> 0 < n < Z.of_nat (length (live s)) ->
  let sorted := merge_sort (byLoad s) (live s) in
  (live s = [] -> False) /\ take (Z.to_nat n) sorted ⊆+ live s /\ length (take (Z.to_nat n) sorted) = Z.to_nat n.
Proof.
  intros Hs Hn sorted. assert (Hp : sorted ≡ₚ live s) by apply merge_sort_Permutation. split; [intros E; rewrite E in Hn; cbn in Hn; lia|].
  split; [rewrite <- Hp; apply sublist_submseteq, sublist_take|]. rewrite length_take. apply Permutation_length in Hp. lia.
Qed.
Lemma ShrinkIO_size s n : loops_ok s -> 0 < n < Z.of_nat (length (live s)) ->
  loops_ok (ShrinkIO s n) /\ Z.of_nat (length (live (ShrinkIO s n))) = Z.of_nat (length (live s)) - n.
Proof.
  intros Hs Hn. unfold ShrinkIO. destruct (Nat.leb_spec (length (live s)) 1); [lia|]. rewrite (Nat.min_l (Z.to_nat n)) by lia.
  destruct (shrink_victims s n Hs Hn) as (_ & H1 & H2). set (v := take (Z.to_nat n) _) in *. set (s1 := { s with ioThreads_ := _ }).
  set (s2 := foldl _ s1 v). assert (Hsm : same_loops s1 s2) by (apply foldl_same; intros; apply planPost_same).
  split; [by eapply same_loops_ok, retire_ok|]. rewrite (live_shape _ _ (proj1 Hsm)). pose proof (retired_size s v H1 Hs). subst s1. lia.
Qed.

(** ** Stopping *)
Lemma reapOne_facts t t' : reapOne t = Some t' -> lid t' = lid t /\ retiring t' = retiring t.
Proof. unfold reapOne. repeat case_match; intros; simplify_eq; done. Qed.
Lemma reaped_live (l : list IOThread) : lid <$> filter (fun t => retiring t = false) (omap reapOne l) = lid <$> filter (fun t => retiring t = false) l.
Proof.
  induction l as [|t l IH]; [done|]. cbn [omap list_omap]. rewrite filter_cons. destruct (reapOne t) as [t'|] eqn:E.
  - destruct (reapOne_facts _ _ E) as [E1 E2]. rewrite filter_cons, E2. destruct (decide (retiring t = false)); [|exact IH]. rewrite !fmap_cons, E1. by f_equal.
  - assert (retiring t = true) as -> by (revert E; unfold reapOne; by destruct (retiring t)). exact IH.
Qed.
Lemma reaped_sublist (l : list IOThread) : lid <$> omap reapOne l `sublist_of` lid <$> l.
Proof.
  induction l as [|t l IH]; [constructor|]. cbn [omap list_omap]. destruct (reapOne t) as [t'|] eqn:E; rewrite ?fmap_cons.
  - rewrite (proj1 (reapOne_facts _ _ E)). by constructor.
  - by constructor.
Qed.
Lemma ReapIO_size s : loops_ok s -> loops_ok (ReapIO s) /\ live (ReapIO s) = live s.
Proof.
  intros [H1 H2]. unfold ReapIO. set (s1 := { s with ioThreads_ := _; lost := _ }).
  assert (Hs1 : loops_ok s1 /\ live s1 = live s).
  { split; [split|apply reaped_live]; [eapply sublist_NoDup; [exact H1|apply reaped_sublist]|]. cbn. unfold const.
    apply Forall_forall. intros t' (t & Ht & E)%list_elem_of_omap. rewrite (proj1 (reapOne_facts _ _ E)). by apply (proj1 (Forall_forall _ _) H2). }
  clearbody s1. destruct Hs1 as [Hok El]. destruct (_ =? 0)%nat; [done|]. destruct (0 <? _); [done|].
  set (s2 := foldl _ s1 _). assert (Hsm : same_loops s1 s2) by (apply foldl_same; intros; apply planPost_same).
  destruct (_ =? 0)%nat; [pose proof (transitivity Hsm (rebalance_same s2)) as Hsm'|rename Hsm into Hsm'];
    (split; [by eapply same_loops_ok|]; by rewrite (live_shape _ _ (proj1 Hsm'))).
Qed.

(** The IO pool keeps what the tuner relies on. *)
#[global] Program Instance IOPoolLaws : ElasticPoolLaws Server := {| pool_inv := loops_ok |}.
Next Obligation.
  intros s n Hs Hn _. cbn [Size Grow IOPool]. unfold GrowIO. rewrite (live_shape _ _ (proj1 (rebalance_same _))).
  destruct (addIOThreads_ok (Z.to_nat n) s Hs) as [_ ->]. lia.
Qed.
Next Obligation.
  intros s n Hs Hn _. split; [|done]. eapply same_loops_ok; [apply rebalance_same|]. by apply addIOThreads_ok.
Qed.
Next Obligation. intros s n Hs Hn _. by apply ShrinkIO_size. Qed.
Next Obligation. intros s n Hs Hn _. split; [|done]. by apply ShrinkIO_size. Qed.
Next Obligation. intros s Hs. destruct (ReapIO_size s Hs) as [H1 H2]. cbn [Size Step Reap IOPool]. rewrite H2. done. Qed.
Next Obligation.
  intros s d Hs. assert (Hsm : same_loops s (SampleIO s d).1).
  { split; [|done]. unfold shape, SampleIO. cbn. unfold const. rewrite <- !list_fmap_compose. done. }
  split; [by eapply same_loops_ok|]. cbn [Size Sample Step IOPool]. by rewrite (live_shape _ _ (proj1 Hsm)).
Qed.
