(* ===== verification/IOLevel.v ===== *)
(** * Levelling the IO threads (server.cc)

    The loop of [IOPool::rebalance] ends, leaves the loads within one of each
    other, and plans exactly the moves that get them there. *)
From stdpp Require Import prelude list.
From Stdlib Require Import ZArith Lia.
From coqutil Require Import Datatypes.RecordSettersUsingExistingGetters.
From S2P Require Import Prelude IOPool.
Open Scope Z_scope.

Section arg.
Context (better : Z -> Z -> bool).
Hypothesis better_trans : forall x y z, better x y = false -> better y z = false -> better x z = false.
Hypothesis better_asym : forall x y, better x y = true -> better y x = false.
Lemma argBy_ok l : l <> [] -> (argBy better l < length l)%nat /\ forall j, (j < length l)%nat -> better (nth j l 0) (nth (argBy better l) l 0) = false.
Proof.
  intros Hl. unfold argBy.
  assert (H : forall post pre best, l = pre ++ post -> (best < length l)%nat -> (best <= length pre)%nat ->
    (forall j, (j < length pre)%nat -> better (nth j l 0) (nth best l 0) = false) ->
    let b := (foldl (fun '(best, i) x => if better x (nth best l 0) then (i, S i) else (best, S i)) (best, length pre) post).1 in
    (b < length l)%nat /\ forall j, (j < length l)%nat -> better (nth j l 0) (nth b l 0) = false).
  { intros post. induction post as [|x post IH]; intros pre best E Hb Hp Hj; [cbn; rewrite app_nil_r in E; subst pre; done|].
    assert (Ex : nth (length pre) l 0 = x) by (rewrite E, nth_middle; done). cbn [foldl].
    replace (if better x (nth best l 0) then (length pre, S (length pre)) else (best, S (length pre)))
      with ((if better x (nth best l 0) then length pre else best, length (pre ++ [x]))) by (rewrite length_app, Nat.add_1_r; by destruct (better _ _)).
    apply IH; [by rewrite <- app_assoc|..].
    - destruct (better _ _); [|done]. rewrite E, length_app. cbn. lia.
    - rewrite length_app. destruct (better _ _); lia.
    - rewrite length_app. cbn. intros j Hlt. destruct (better x (nth best l 0)) eqn:Eb.
      + rewrite Ex. destruct (decide (j = length pre)) as [->|]; [rewrite Ex; destruct (better x x) eqn:E1; [by rewrite (better_asym _ _ E1) in E1|done]|].
        apply better_asym in Eb. eapply better_trans; [apply Hj; lia|done].
      + destruct (decide (j = length pre)) as [->|]; [by rewrite Ex|]. apply Hj. lia. }
  apply (H l [] 0%nat); [done|destruct l; [done|cbn; lia]|cbn; lia|cbn; lia].
Qed.
End arg.
Lemma maxIndex_ok l : l <> [] -> (maxIndex l < length l)%nat /\ forall j, (j < length l)%nat -> nth j l 0 <= nth (maxIndex l) l 0.
Proof. intros Hl. destruct (argBy_ok (fun x y => y <? x)) with (l := l) as [H1 H2]; [lia|lia|exact Hl|]. split; [done|]. intros j Hj. specialize (H2 j Hj). by apply Z.ltb_ge in H2. Qed.
Lemma minIndex_ok l : l <> [] -> (minIndex l < length l)%nat /\ forall j, (j < length l)%nat -> nth (minIndex l) l 0 <= nth j l 0.
Proof. intros Hl. destruct (argBy_ok (fun x y => x <? y)) with (l := l) as [H1 H2]; [lia|lia|exact Hl|]. split; [done|]. intros j Hj. specialize (H2 j Hj). by apply Z.ltb_ge in H2. Qed.

(** ** One round *)
Lemma levelRound_Some load mx mn load' : load <> [] -> levelRound load = Some (mx, mn, load') ->
  (mx < length load)%nat /\ (mn < length load)%nat /\ mx <> mn /\ length load' = length load /\ sumSq load' < sumSq load /\
  forall i, (i < length load)%nat -> nth i load' 0 = nth i load 0 - (if (mx =? i)%nat then 1 else 0) + (if (mn =? i)%nat then 1 else 0).
Proof.
  intros Hl. unfold levelRound. destruct (maxIndex_ok load Hl) as [Hx1 Hx2]. destruct (minIndex_ok load Hl) as [Hn1 Hn2].
  destruct (Z.leb_spec (nth (maxIndex load) load 0 - nth (minIndex load) load 0) 1) as [|Hd]; [done|]. intros [= <- <- <-].
  set (mx := maxIndex load) in *. set (mn := minIndex load) in *. clearbody mx mn. assert (Hne : mx <> mn) by (intros ->; lia).
  destruct (lookup_lt_is_Some_2 load mx Hx1) as [x Ex]. destruct (lookup_lt_is_Some_2 load mn Hn1) as [n En].
  rewrite (nth_lookup_Some _ _ 0 _ Ex) in *. rewrite (nth_lookup_Some _ _ 0 _ En) in Hd.
  assert (E1 : <[mx := x - 1]> load !! mn = Some n) by (by rewrite list_lookup_insert_ne). rewrite (nth_lookup_Some _ _ 0 _ E1).
  split; [done|]. split; [done|]. split; [done|]. split; [by rewrite !length_insert|]. split.
  - unfold sumSq. rewrite (sumOf_insert _ _ _ _ _ E1), (sumOf_insert _ _ _ _ _ Ex). lia.
  - intros i Hi. destruct (lookup_lt_is_Some_2 load i Hi) as [v Ev]. rewrite (nth_lookup_Some _ _ 0 _ Ev).
    erewrite nth_lookup_Some; [reflexivity|]. destruct (Nat.eqb_spec mn i) as [->|]; [rewrite list_lookup_insert_eq by (by rewrite length_insert)|rewrite list_lookup_insert_ne by done].
    + destruct (Nat.eqb_spec mx i); [done|]. f_equal. rewrite En in Ev. injection Ev as <-. lia.
    + destruct (Nat.eqb_spec mx i) as [->|]; [rewrite list_lookup_insert_eq by done|by rewrite list_lookup_insert_ne, Ev by done; f_equal; lia].
      f_equal. rewrite Ex in Ev. injection Ev as <-. lia.
Qed.
Lemma levelRound_None load i j : levelRound load = None -> load <> [] -> (i < length load)%nat -> (j < length load)%nat -> nth i load 0 - nth j load 0 <= 1.
Proof.
  unfold levelRound. intros E Hl Hi Hj. destruct (Z.leb_spec (nth (maxIndex load) load 0 - nth (minIndex load) load 0) 1); [|done].
  destruct (maxIndex_ok load Hl) as [_ Hx]. destruct (minIndex_ok load Hl) as [_ Hn]. specialize (Hx i Hi). specialize (Hn j Hj). lia.
Qed.
Lemma sumSq_pos l : 0 <= sumSq l.
Proof. unfold sumSq, sumOf. induction l as [|x l IH]; cbn; [lia|]. nia. Qed.

(** ** The loop *)
Definition gives (moves : list (nat * nat)) (i : nat) : Z := Z.of_nat (length (filter (fun m => m.1 = i) moves)).
Definition gets (moves : list (nat * nat)) (i : nat) : Z := Z.of_nat (length (filter (fun m => m.2 = i) moves)).
Lemma gives_cons d r m i : gives ((d, r) :: m) i = (if (d =? i)%nat then 1 else 0) + gives m i.
Proof. unfold gives. rewrite filter_cons. cbn. destruct (decide (d = i)), (Nat.eqb_spec d i); try done; cbn [length]; lia. Qed.
Lemma gets_cons d r m i : gets ((d, r) :: m) i = (if (r =? i)%nat then 1 else 0) + gets m i.
Proof. unfold gets. rewrite filter_cons. cbn. destruct (decide (r = i)), (Nat.eqb_spec r i); try done; cbn [length]; lia. Qed.
Lemma level_ok fuel load : load <> [] -> sumSq load <= Z.of_nat fuel ->
  let '(moves, l) := level fuel load in
  length l = length load /\ levelRound l = None /\ Forall (fun m => (m.1 < length load)%nat /\ (m.2 < length load)%nat /\ m.1 <> m.2) moves /\
  forall i, (i < length load)%nat -> nth i l 0 = nth i load 0 - gives moves i + gets moves i.
Proof.
  revert load. induction fuel as [|fuel IH]; intros load Hl Hf.
  - cbn. split; [done|]. split; [|split; [constructor|intros; unfold gives, gets; cbn; lia]].
    destruct (levelRound load) as [[[mx mn] l']|] eqn:E; [|done]. destruct (levelRound_Some _ _ _ _ Hl E) as (_ & _ & _ & _ & Hs & _). pose proof (sumSq_pos l'). lia.
  - cbn [level]. destruct (levelRound load) as [[[mx mn] l']|] eqn:E.
    + destruct (levelRound_Some _ _ _ _ Hl E) as (H1 & H2 & H3 & H4 & H5 & H6). specialize (IH l'). destruct (level fuel l') as [moves l].
      destruct IH as (I1 & I2 & I3 & I4); [intros ->; destruct load; done|lia|]. rewrite H4 in *. split; [done|]. split; [done|]. split; [by constructor|].
      intros i Hi. rewrite I4, H6, gives_cons, gets_cons by done. lia.
    + split; [done|]. split; [done|]. split; [constructor|]. intros. unfold gives, gets. cbn. lia.
Qed.

(** ** The server after [rebalance] *)
Definition planSize (m : Mail) : Z := match m with MPlan ds => Z.of_nat (length ds) | _ => 0 end.
(** The connections that the plans in a loop's mailbox are to move away. *)
Definition planned (s : Server) (i : nat) : Z := match findLoop i s with Some t => sumOf planSize (mail t) | None => 0 end.

Lemma findLoop_onLoop i f s j : (forall t, lid (f t) = lid t) ->
  findLoop j (onLoop i f s) = (fun t => if (lid t =? i)%nat then f t else t) <$> findLoop j s.
Proof.
  intros Hf. unfold findLoop, onLoop. cbn. unfold const. induction (ioThreads_ s) as [|t l IH]; [done|]. cbn.
  replace (lid (if (lid t =? i)%nat then f t else t)) with (lid t) by (destruct (_ =? i)%nat; by rewrite ?Hf).
  destruct (lid t =? j)%nat; [done|exact IH].
Qed.
Lemma findLoop_lid i s t : findLoop i s = Some t -> lid t = i /\ t ∈ ioThreads_ s.
Proof. unfold findLoop. intros [H1 H2]%List.find_some. split; [by apply Nat.eqb_eq|by apply list_elem_of_In]. Qed.
Lemma reserve_load i s j t : findLoop j s = Some t -> exists t', findLoop j (onLoop i Reserve s) = Some t' /\ Load t' = Load t + (if (i =? j)%nat then 1 else 0) /\ mail t' = mail t.
Proof.
  intros E. destruct (findLoop_lid _ _ _ E) as [El _]. rewrite findLoop_onLoop, E by done. cbn. rewrite El. rewrite (Nat.eqb_sym i j).
  destruct (Nat.eqb_spec j i); eexists; (split; [done|]); unfold Load; cbn; unfold const; (split; [lia|done]).
Qed.
Lemma reserves_load (g : nat * nat -> nat) moves j : forall s t, findLoop j s = Some t ->
  exists t', findLoop j (foldl (fun s m => onLoop (g m) Reserve s) s moves) = Some t' /\
    Load t' = Load t + Z.of_nat (length (filter (fun m => g m = j) moves)) /\ mail t' = mail t.
Proof.
  induction moves as [|m moves IH]; intros s t E; [exists t; split; [done|]; cbn; split; [lia|done]|]. cbn [foldl].
  destruct (reserve_load (g m) s j t E) as (t1 & E1 & E2 & E3). destruct (IH _ _ E1) as (t' & E4 & E5 & E6). exists t'. split; [done|]. rewrite E5, E6, E2.
  split; [|done]. rewrite filter_cons. destruct (decide (g m = j)), (Nat.eqb_spec (g m) j); try done; cbn [length]; lia.
Qed.
Lemma post_load i ds s j t : findLoop j s = Some t ->
  exists t', findLoop j (postMigrations i ds s) = Some t' /\ Load t' = Load t /\
    sumOf planSize (mail t') = sumOf planSize (mail t) + (if (i =? j)%nat then Z.of_nat (length ds) else 0).
Proof.
  intros E. destruct (findLoop_lid _ _ _ E) as [El _]. destruct ds as [|d ds]; [exists t; split; [done|]; split; [done|]; destruct (_ =? _)%nat; cbn; lia|].
  unfold postMigrations. rewrite findLoop_onLoop, E by done. cbn [fmap option_fmap option_map]. rewrite El, (Nat.eqb_sym i j).
  destruct (j =? i)%nat; eexists; (split; [done|]); (split; [done|]); [|lia]. cbn. unfold const. rewrite sumOf_app. unfold sumOf at 2. cbn. lia.
Qed.
Lemma posts_load (src : nat -> nat) (ds : nat -> list nat) j l : forall s t, findLoop j s = Some t ->
  exists t', findLoop j (foldl (fun s i => postMigrations (src i) (ds i) s) s l) = Some t' /\ Load t' = Load t /\
    sumOf planSize (mail t') = sumOf planSize (mail t) + sumOf (fun i => if (src i =? j)%nat then Z.of_nat (length (ds i)) else 0) l.
Proof.
  induction l as [|i l IH]; intros s t E; [exists t; split; [done|]; split; [done|]; unfold sumOf at 3; cbn; lia|]. cbn [foldl].
  destruct (post_load (src i) (ds i) s j t E) as (t1 & E1 & E2 & E3). destruct (IH _ _ E1) as (t' & E4 & E5 & E6). exists t'. split; [done|]. split; [congruence|].
  rewrite E6, E3. unfold sumOf at 4. cbn. unfold sumOf. lia.
Qed.
Lemma sumOf_single (f : nat -> Z) l k : NoDup l -> k ∈ l -> (forall i, i ∈ l -> i <> k -> f i = 0) -> sumOf f l = f k.
Proof.
  intros Hn Hk H0. rewrite (sumOf_ext f (fun i => if decide (i = k) then f k else 0)).
  - rewrite (sumOf_change (fun _ => 0) _ l k Hn); [rewrite sumOf_0, decide_True by (done || by apply Forall_forall); lia| |by left].
    intros y Hy. by rewrite decide_False.
  - intros i Hi. destruct (decide (i = k)) as [->|]; [done|]. by apply H0.
Qed.
Lemma live_find s j : j ∈ live s -> exists t, findLoop j s = Some t.
Proof.
  unfold live. intros (t & -> & [_ Ht]%list_elem_of_filter)%list_elem_of_fmap. unfold findLoop. destruct (List.find _ _) as [t'|] eqn:E; [eauto|].
  apply list_elem_of_In in Ht. pose proof (List.find_none _ _ E t Ht) as Hf. cbn in Hf. by rewrite Nat.eqb_refl in Hf.
Qed.
Lemma NoDup_nth_eq (l : list nat) i j : NoDup l -> (i < length l)%nat -> (j < length l)%nat -> nth i l 0%nat = nth j l 0%nat <-> i = j.
Proof.
  intros Hn Hi Hj. split; [|by intros ->]. destruct (lookup_lt_is_Some_2 l i Hi) as [x Ex]. destruct (lookup_lt_is_Some_2 l j Hj) as [y Ey].
  rewrite (nth_lookup_Some _ _ 0%nat _ Ex), (nth_lookup_Some _ _ 0%nat _ Ey). intros ->. by eapply NoDup_lookup.
Qed.
Lemma filter_moves_eq (P Q : nat * nat -> Prop) `{!forall m, Decision (P m), !forall m, Decision (Q m)} moves :
  Forall (fun m => P m <-> Q m) moves -> filter P moves = filter Q moves.
Proof. induction 1 as [|m moves Hm _ IH]; [done|]. rewrite !filter_cons, IH. destruct (decide (P m)), (decide (Q m)); tauto || done. Qed.

(** What a loop's load comes to once the moves planned by [rebalance] have been made. *)
Definition afterMoves (s : Server) (i : nat) : Z := loadOf (rebalance s) i - (planned (rebalance s) i - planned s i).
Lemma afterMoves_level s k : loops_ok s -> (2 <= length (live s))%nat -> (k < length (live s))%nat ->
  afterMoves s (nth k (live s) 0%nat) = nth k (level (levelFuel (loadOf s <$> live s)) (loadOf s <$> live s)).2 0.
Proof.
  intros Hs H2 Hk. unfold afterMoves, rebalance. destruct (Nat.ltb_spec (length (live s)) 2); [lia|].
  set (lv := live s) in *. set (load := loadOf s <$> lv). assert (Hlen : length load = length lv) by (subst load; apply length_fmap).
  pose proof (live_NoDup s Hs) as Hnd. fold lv in Hnd.
  pose proof (level_ok (levelFuel load) load) as Hlv. destruct (level (levelFuel load) load) as [moves l].
  destruct Hlv as (_ & _ & Hm & Hn); [intros E; rewrite E in Hlen; cbn in Hlen; lia|unfold levelFuel; pose proof (sumSq_pos load); lia|].
  rewrite Hlen in Hm, Hn. cbn [fst snd]. set (j := nth k lv 0%nat). assert (Hj : j ∈ live s) by (apply list_elem_of_In, nth_In; done).
  destruct (live_find s j Hj) as [t Et].
  destruct (reserves_load (fun m => nth m.2 lv 0%nat) moves j s t Et) as (t1 & E1 & E2 & E3).
  destruct (posts_load (fun i => nth i lv 0%nat) (fun i => (fun m => nth m.2 lv 0%nat) <$> filter (fun m => m.1 = i) moves) j (seq 0 (length lv)) _ _ E1) as (t2 & E4 & E5 & E6).
  unfold planned, loadOf at 1. rewrite E4, Et, E6, E3, E5, E2, (Hn k Hk).
  rewrite (sumOf_single _ _ k); [|apply NoDup_seq|apply elem_of_seq; lia|].
  - unfold j at 2. rewrite Nat.eqb_refl, length_fmap. fold (gives moves k).
    rewrite (filter_moves_eq (fun m => nth m.2 lv 0%nat = j) (fun m => m.2 = k)); [fold (gets moves k)|].
    + assert (El : nth k load 0 = Load t); [|lia]. destruct (lookup_lt_is_Some_2 lv k Hk) as [x Ex]. apply (nth_lookup_Some _ _ 0).
      subst load. rewrite list_lookup_fmap, Ex. cbn. rewrite (nth_lookup_Some _ _ 0%nat _ Ex : j = x) in Et. unfold loadOf. by rewrite Et.
    + eapply Forall_impl; [exact Hm|]. intros m (_ & Hm2 & _). unfold j. by apply NoDup_nth_eq.
  - intros i Hi%elem_of_seq Hik. destruct (Nat.eqb_spec (nth i lv 0%nat) j) as [E|]; [|done]. apply NoDup_nth_eq in E; [done..|lia|done].
Qed.

(** Once the moves that [rebalance] plans have been made, the loads of any two
    loops in service differ by at most one, whatever they were before; its loop of
    single moves always ends. *)
Theorem rebalance_levels s i j : loops_ok s -> i ∈ live s -> j ∈ live s -> afterMoves s i - afterMoves s j <= 1.
Proof.
  intros Hs (a & Ha)%list_elem_of_lookup (b & Hb)%list_elem_of_lookup. pose proof (lookup_lt_Some _ _ _ Ha) as La. pose proof (lookup_lt_Some _ _ _ Hb) as Lb.
  destruct (decide (2 <= length (live s))%nat) as [H2|H2].
  - rewrite <- (nth_lookup_Some _ _ 0%nat _ Ha), <- (nth_lookup_Some _ _ 0%nat _ Hb), !afterMoves_level by done.
    set (load := loadOf s <$> live s). assert (Hlen : length load = length (live s)) by (subst load; apply length_fmap).
    pose proof (level_ok (levelFuel load) load) as Hlv. destruct (level (levelFuel load) load) as [moves l].
    assert (Hne : load <> []) by (intros E; rewrite E in Hlen; cbn in Hlen; lia).
    destruct Hlv as (El & En & _); [done|unfold levelFuel; pose proof (sumSq_pos load); lia|]. cbn [snd]. apply levelRound_None; [done| |lia|lia].
    intros ->. destruct load; done.
  - assert (a = b) as -> by lia. rewrite Ha in Hb. injection Hb as ->. lia.
Qed.
