(* ===== verification/IOThreads.v ===== *)
(** * Loops, connections and reservations (server.cc, iothread.h, connection.cc)

    Everything that moves connections between loops, in any order: accepts, the
    mailboxes, plans, migrations that finish, connections that close, durable
    writes that hold a loop, and the tuner's operations on the pool.  A
    connection is here only what this depends on; what makes it quiescent is
    [ConnMigrate].  The counters of a loop always say exactly what still refers
    to it, so a loop that is stopped has nothing on it and nothing on its way. *)
From stdpp Require Import prelude list.
From Stdlib Require Import ZArith Lia.
From coqutil Require Import Datatypes.RecordSettersUsingExistingGetters.
From S2P Require Import Prelude ElasticPool IOPool IOLevel.
Open Scope Z_scope.

Record Conn := mkConn { closing_ : bool; migrating_ : bool; migrateTarget_ : option nat; owner_ : option nat }.
Record World := mkWorld {
  srv : Server;
  cs : list Conn;          (* connections, by number *)
  held : list nat;         (* the loops that durable writes still to be answered hold *)
  hand : list nat;         (* the loops reserved by a thread that has not posted yet *)
}.
Definition onSrv (f : Server -> Server) (w : World) : World := { w with srv := f (srv w) }.
Definition setConn (c : nat) (k : Conn) (w : World) : World := { w with cs := <[c := k]> (cs w) }.

(** ** Connections *)
Definition migrateTo (c target : nat) (w : World) : option World :=
  match cs w !! c with
  | Some k => if closing_ k || migrating_ k || bool_decide (owner_ k = Some target) then None
              else Some (setConn c { k with migrating_ := true; migrateTarget_ := Some target } w)
  | None => None
  end.
(** The closure of [postMigrations]: a move per destination, the rest given back. *)
Fixpoint runPlan (conns : list nat) (dests : list nat) (w : World) : World :=
  match dests, conns with
  | [], _ => w
  | _, [] => foldl (fun w d => onSrv (onLoop d Unreserve) w) w dests
  | d :: ds, c :: conns => match migrateTo c d w with
                           | Some w' => runPlan conns ds w'
                           | None => runPlan conns dests w
                           end
  end.
(** [start] of a new connection, and [finishAttach]. *)
Definition acceptOn (i : nat) (w : World) : World :=
  let c := length (cs w) in onSrv (onLoop i (Add c)) { w with cs := cs w ++ [mkConn false false None (Some i)] }.
Definition finishAttach (c i : nat) (w : World) : World :=
  match cs w !! c with
  | Some k => onSrv (onLoop i (Add c)) (setConn c { k with owner_ := Some i; migrating_ := false } w)
  | None => w
  end.
(** The loop takes the next closure from its mailbox and runs it. *)
Definition popMail (t : IOThread) : IOThread := { t with mail := drop 1 (mail t) }.
Definition runMail (i : nat) (w : World) : option World :=
  match findLoop i (srv w) with
  | Some t =>
      match mail t with
      | m :: _ =>
          let w' := onSrv (onLoop i popMail) w in
          Some match m with MAccept => acceptOn i w' | MAttach c => finishAttach c i w' | MPlan ds => runPlan (conns t) ds w' end
      | [] => None
      end
  | None => None
  end.
(** The end of [tryFinishMigrate], on a quiescent connection. *)
Definition finishMigrate (c : nat) (w : World) : option World :=
  match cs w !! c with
  | Some (mkConn false true (Some d) (Some o)) =>
      Some (onSrv (onLoop d (Post (MAttach c))) (onSrv (onLoop o (Remove c)) (setConn c (mkConn false true None None) w)))
  | _ => None
  end.
(** [destroy], which a loop only calls on its own connections. *)
Definition destroy (c : nat) (w : World) : option World :=
  match cs w !! c with
  | Some k =>
      match owner_ k with
      | Some o =>
          if closing_ k then Some w
          else
            let w1 := match migrating_ k, migrateTarget_ k with
                      | true, Some d => onSrv (onLoop d Unreserve) w
                      | _, _ => w
                      end in
            Some (onSrv (onLoop o (Remove c)) (setConn c (mkConn true false (if migrating_ k then None else migrateTarget_ k) None) w1))
      | None => None
      end
  | None => None
  end.

(** ** The system *)
Inductive event :=
| EPick                    (* the accept loop picks a loop for a socket, *)
| EPost (i : nat)          (* and posts to it *)
| ERun (i : nat)
| EFinish (c : nat)
| EClose (c : nat)
| EHold (c : nat)          (* a durable write is staged *)
| ERelease (i : nat)       (* and answered *)
| EGrow (n : Z)
| EShrink (n : Z)
| EReap.
Definition removeOne (i : nat) (l : list nat) : list nat :=
  match list_find (fun x => x = i) l with Some (k, _) => delete k l | None => l end.
Definition step (e : event) (w : World) : option World :=
  match e with
  | EPick => match pickIOThread (srv w) with
             | (Some b, s) => Some { w with srv := s; hand := b :: hand w }
             | (None, _) => Some w
             end
  | EPost i => if bool_decide (i ∈ hand w) then Some { onSrv (onLoop i (Post MAccept)) w with hand := removeOne i (hand w) } else None
  | ERun i => runMail i w
  | EFinish c => finishMigrate c w
  | EClose c => destroy c w
  | EHold c => match cs w !! c ≫= owner_ with
               | Some i => Some { onSrv (onLoop i Hold) w with held := i :: held w }
               | None => None
               end
  | ERelease i => if bool_decide (i ∈ held w) then Some { onSrv (onLoop i Release) w with held := removeOne i (held w) } else None
  | EGrow n => Some (onSrv (fun s => GrowIO s n) w)
  | EShrink n => Some (onSrv (fun s => ShrinkIO s n) w)
  | EReap => Some (onSrv ReapIO w)
  end.
Inductive reaches (w0 : World) : World -> Prop :=
| reaches_refl : reaches w0 w0
| reaches_step w w' e : reaches w0 w -> step e w = Some w' -> reaches w0 w'.
Definition startWorld (numIOThreads : nat) : World := mkWorld (Nat.iter numIOThreads addIOThread (mkServer [] 0 [])) [] [] [].
