(* ===== verification/IOAcct.v ===== *)
(** * The accounting of the loops

    What each counter of a loop counts ([acct]), and that every event keeps it. *)
From stdpp Require Import prelude list.
From Stdlib Require Import ZArith Lia.
From coqutil Require Import Datatypes.RecordSettersUsingExistingGetters.
From S2P Require Import Prelude ElasticPool IOPool IOLevel IOThreads.
Open Scope Z_scope.

#[global] Instance Mail_eq_dec : EqDecision Mail.
Proof. solve_decision. Defined.

(** ** What refers to a loop *)
Definition planRefs (i : nat) (m : Mail) : Z := match m with MPlan ds => occ i ds | _ => 0 end.
(** An accepted socket or an arriving connection counts for the loop it was posted to. *)
Definition mailRef (i : nat) (to : nat) (m : Mail) : Z := match m with MPlan ds => occ i ds | _ => b2z (to = i) end.
Definition mailRefs (i : nat) (t : IOThread) : Z := sumOf (mailRef i (lid t)) (mail t).
Definition targetRef (i : nat) (k : Conn) : Z := b2z (migrateTarget_ k = Some i).
Definition refs (w : World) (i : nat) : Z :=
  occ i (hand w) + sumOf (mailRefs i) (ioThreads_ (srv w)) + sumOf (planRefs i) (lost (srv w)) + sumOf (targetRef i) (cs w).
Definition ownerIs (w : World) (c i : nat) : Z := b2z (cs w !! c ≫= owner_ = Some i).
(** A connection is between loops. *)
Definition between (k : Conn) : bool := negb (closing_ k) && bool_decide (owner_ k = None).
Definition transit (w : World) (c : nat) : Z := b2z (between <$> cs w !! c = Some true).
Definition attachRefs (c : nat) (t : IOThread) : Z := occ (MAttach c) (mail t).
Definition isPlan (m : Mail) : Prop := match m with MPlan _ => True | _ => False end.

Definition conn_ok (k : Conn) : Prop :=
  (migrateTarget_ k <> None -> migrating_ k = true /\ owner_ k <> None) /\ (closing_ k = true -> owner_ k = None) /\
  (owner_ k = None -> closing_ k = true \/ migrating_ k = true).

(** [fl] are connections taken off a loop and not yet posted to the next. *)
Record acct (fl : list nat) (w : World) : Prop := {
  ac_loops : loops_ok (srv w);
  ac_pending t : t ∈ ioThreads_ (srv w) -> pending t = refs w (lid t);
  ac_count t : t ∈ ioThreads_ (srv w) -> connCount t = Z.of_nat (length (conns t));
  ac_holds t : t ∈ ioThreads_ (srv w) -> holds t = occ (lid t) (held w);
  ac_conns t c : t ∈ ioThreads_ (srv w) -> occ c (conns t) = ownerIs w c (lid t);
  ac_gone i : i ∉ (lid <$> ioThreads_ (srv w)) -> refs w i = 0 /\ occ i (held w) = 0 /\ forall c, ownerIs w c i = 0;
  ac_attach c : sumOf (attachRefs c) (ioThreads_ (srv w)) + occ c fl = transit w c;
  ac_conn c k : cs w !! c = Some k -> conn_ok k;
  ac_lost : Forall isPlan (lost (srv w));
}.

(** ** One loop changes *)
Lemma find_unique s t : loops_ok s -> t ∈ ioThreads_ s -> findLoop (lid t) s = Some t.
Proof.
  intros [Hn _]. unfold findLoop. induction (ioThreads_ s) as [|x l IH]; [by intros ?%elem_of_nil|]. cbn in Hn. apply NoDup_cons in Hn as [Hx Hn].
  intros [->|Ht]%elem_of_cons; cbn; [by rewrite Nat.eqb_refl|]. destruct (Nat.eqb_spec (lid x) (lid t)) as [E|]; [|by apply IH].
  destruct Hx. rewrite E. by apply list_elem_of_fmap_2.
Qed.
Lemma onLoop_elem i f s t' : t' ∈ ioThreads_ (onLoop i f s) <-> exists t, t ∈ ioThreads_ s /\ t' = if (lid t =? i)%nat then f t else t.
Proof.
  unfold onLoop. cbn. unfold const. rewrite list_elem_of_In, in_map_iff. split; intros (t & H1 & H2).
  - exists t. split; [by apply list_elem_of_In|done].
  - exists t. split; [done|by apply list_elem_of_In].
Qed.
Lemma onLoop_lids i f s : (forall t, lid (f t) = lid t) -> lid <$> ioThreads_ (onLoop i f s) = lid <$> ioThreads_ s.
Proof.
  intros Hf. unfold onLoop. cbn. unfold const. induction (ioThreads_ s) as [|t l IH]; [done|]. cbn. f_equal; [|exact IH]. destruct (_ =? _)%nat; [apply Hf|done].
Qed.
Lemma onLoop_none i f s : i ∉ (lid <$> ioThreads_ s) -> ioThreads_ (onLoop i f s) = ioThreads_ s.
Proof.
  unfold onLoop. cbn. unfold const. induction (ioThreads_ s) as [|t l IH]; [done|]. cbn. rewrite not_elem_of_cons. intros [Ht Hl].
  rewrite (IH Hl). by rewrite (proj2 (Nat.eqb_neq _ _)) by congruence.
Qed.
Lemma sumOf_onLoop g i f s t : loops_ok s -> findLoop i s = Some t -> sumOf g (ioThreads_ (onLoop i f s)) = sumOf g (ioThreads_ s) - g t + g (f t).
Proof.
  intros [Hn _]. unfold findLoop. pose proof (onLoop_none i f) as Hnone. unfold onLoop in *. cbn in *. unfold const in *.
  induction (ioThreads_ s) as [|x l IH]; [done|]. cbn. apply NoDup_cons in Hn as [Hx Hn]. change (sumOf g (?a :: ?b)) with (g a + sumOf g b).
  destruct (Nat.eqb_spec (lid x) i) as [E|].
  - intros [= <-]. specialize (Hnone (mkServer l 0 [])). cbn in Hnone. rewrite Hnone by (by rewrite <- E). lia.
  - intros Ef. rewrite (IH Hn Ef). lia.
Qed.
Lemma refs_onLoop w i f t cs' held' hand' j : loops_ok (srv w) -> findLoop i (srv w) = Some t ->
  refs (mkWorld (onLoop i f (srv w)) cs' held' hand') j =
  refs w j + (occ j hand' - occ j (hand w)) + (mailRefs j (f t) - mailRefs j t) + (sumOf (targetRef j) cs' - sumOf (targetRef j) (cs w)).
Proof. intros Hs Hf. unfold refs. cbn [srv cs hand]. rewrite (sumOf_onLoop _ _ _ _ _ Hs Hf). cbn. unfold const. lia. Qed.

Section one_loop.
Context (fl fl' : list nat) (w : World) (i : nat) (t : IOThread) (f : IOThread -> IOThread) (cs' : list Conn) (held' hand' : list nat).
Hypothesis Hac : acct fl w.
Hypothesis Hfind : findLoop i (srv w) = Some t.
Hypothesis Hlid : forall x, lid (f x) = lid x /\ retiring (f x) = retiring x.
Let w' := mkWorld (onLoop i f (srv w)) cs' held' hand'.
Hypothesis Hpend : forall j, (occ j hand' - occ j (hand w)) + (mailRefs j (f t) - mailRefs j t) + (sumOf (targetRef j) cs' - sumOf (targetRef j) (cs w)) =
  if decide (j = i) then pending (f t) - pending t else 0.
Hypothesis Hcount : connCount (f t) - connCount t = Z.of_nat (length (conns (f t))) - Z.of_nat (length (conns t)).
Hypothesis Hheld : forall j, occ j held' - occ j (held w) = if decide (j = i) then holds (f t) - holds t else 0.
Hypothesis Hown : forall c j, ownerIs w' c j - ownerIs w c j = if decide (j = i) then occ c (conns (f t)) - occ c (conns t) else 0.
Hypothesis Hatt : forall c, (attachRefs c (f t) - attachRefs c t) + (occ c fl' - occ c fl) = transit w' c - transit w c.
Hypothesis Hconn : forall c k, cs' !! c = Some k -> conn_ok k.
Lemma acct_loop : acct fl' w'.
Proof using All.
  destruct (findLoop_lid _ _ _ Hfind) as [Hl Hin]. pose proof (ac_loops _ _ Hac) as Hs.
  assert (Hr : forall j, refs w' j = refs w j + if decide (j = i) then pending (f t) - pending t else 0).
  { intros j. unfold w'. rewrite (refs_onLoop _ _ _ _ _ _ _ _ Hs Hfind). specialize (Hpend j). lia. }
  assert (Hx : forall x', x' ∈ ioThreads_ (srv w') -> exists x, x ∈ ioThreads_ (srv w) /\ lid x' = lid x /\ (lid x = i -> x = t /\ x' = f t) /\ (lid x <> i -> x' = x)).
  { intros x' (x & Hxin & ->)%onLoop_elem. exists x. split; [done|]. destruct (Nat.eqb_spec (lid x) i) as [E|E].
    - pose proof (find_unique _ _ Hs Hxin) as Hu. rewrite E, Hfind in Hu. injection Hu as <-. split; [apply Hlid|]. done.
    - done. }
  split.
  - eapply same_loops_ok; [by apply onLoop_same|done].
  - intros x' (x & Hxin & El & H1 & H2)%Hx. rewrite Hr, El. pose proof (ac_pending _ _ Hac x Hxin). destruct (decide (lid x = i)) as [E|E]; [destruct (H1 E); subst; lia|rewrite (H2 E); lia].
  - intros x' (x & Hxin & El & H1 & H2)%Hx. pose proof (ac_count _ _ Hac x Hxin). destruct (decide (lid x = i)) as [E|E]; [destruct (H1 E); subst; lia|by rewrite (H2 E)].
  - intros x' (x & Hxin & El & H1 & H2)%Hx. pose proof (ac_holds _ _ Hac x Hxin). specialize (Hheld (lid x)). cbn [held w']. rewrite El. destruct (decide (lid x = i)) as [E|E]; [destruct (H1 E); subst; lia|rewrite (H2 E); lia].
  - intros x' c (x & Hxin & El & H1 & H2)%Hx. pose proof (ac_conns _ _ Hac x c Hxin). specialize (Hown c (lid x)). rewrite El. destruct (decide (lid x = i)) as [E|E]; [destruct (H1 E); subst; lia|rewrite (H2 E); lia].
  - intros j Hj. unfold w' in Hj. cbn [srv] in Hj. rewrite onLoop_lids in Hj by apply Hlid. destruct (ac_gone _ _ Hac j Hj) as (G1 & G2 & G3).
    assert (Hji : j <> i) by (intros ->; destruct Hj; rewrite <- Hl; by apply list_elem_of_fmap_2).
    rewrite Hr, decide_False by done. split; [lia|]. specialize (Hheld j). rewrite decide_False in Hheld by done. split; [cbn; lia|].
    intros c. specialize (Hown c j). rewrite decide_False in Hown by done. rewrite G3 in Hown. lia.
  - intros c. unfold w' at 1. cbn [srv]. rewrite (sumOf_onLoop _ _ _ _ _ Hs Hfind). pose proof (ac_attach _ _ Hac c). specialize (Hatt c). lia.
  - exact Hconn.
  - exact (ac_lost _ _ Hac).
Qed.
End one_loop.

(** ** Counting *)
Lemma occ_removeOne i j l : i ∈ l -> occ j (removeOne i l) = occ j l - b2z (i = j).
Proof.
  intros Hi. unfold removeOne. destruct (list_find _ l) as [[k x]|] eqn:E.
  - apply list_find_Some in E as (E & -> & _). assert (Hp : l ≡ₚ i :: delete k l) by (by apply delete_Permutation).
    rewrite (proj1 (occ_perm _ _) Hp j), occ_cons. lia.
  - apply list_find_None in E. rewrite Forall_forall in E. by destruct (E i Hi).
Qed.
Lemma mailRef_pos i to m : 0 <= mailRef i to m.
Proof. destruct m; cbn; [apply b2z_pos..|apply occ_pos]. Qed.
Lemma mailRefs_pos i t : 0 <= mailRefs i t.
Proof. apply sumOf_pos. intros. apply mailRef_pos. Qed.
Lemma refs_pos w i : 0 <= refs w i.
Proof.
  unfold refs. pose proof (occ_pos i (hand w)). pose proof (sumOf_pos (mailRefs i) (ioThreads_ (srv w)) (mailRefs_pos i)).
  assert (0 <= sumOf (planRefs i) (lost (srv w))) by (apply sumOf_pos; intros [| |]; cbn; [lia..|apply occ_pos]).
  assert (0 <= sumOf (targetRef i) (cs w)) by (apply sumOf_pos; intros; apply b2z_pos). lia.
Qed.
Lemma refs_split w i : occ i (hand w) <= refs w i /\ forall c k, cs w !! c = Some k -> targetRef i k <= refs w i.
Proof.
  unfold refs. pose proof (occ_pos i (hand w)). pose proof (sumOf_pos (mailRefs i) (ioThreads_ (srv w)) (mailRefs_pos i)).
  assert (0 <= sumOf (planRefs i) (lost (srv w))) by (apply sumOf_pos; intros [| |]; cbn; [lia..|apply occ_pos]).
  assert (0 <= sumOf (targetRef i) (cs w)) by (apply sumOf_pos; intros; apply b2z_pos). split; [lia|]. intros c k Hk.
  pose proof (sumOf_insert (targetRef i) (cs w) c k (mkConn false false None None) Hk) as E.
  assert (0 <= sumOf (targetRef i) (<[c := mkConn false false None None]> (cs w))) by (apply sumOf_pos; intros; apply b2z_pos).
  assert (targetRef i (mkConn false false None None) = 0) by done. lia.
Qed.

(** Whatever is referred to is there. *)
Lemma find_lids i s : i ∈ (lid <$> ioThreads_ s) -> exists t, findLoop i s = Some t.
Proof.
  intros (t & -> & Ht)%list_elem_of_fmap. unfold findLoop. destruct (List.find _ _) as [t'|] eqn:E; [eauto|].
  apply list_elem_of_In in Ht. pose proof (List.find_none _ _ E t Ht) as Hf. cbn in Hf. by rewrite Nat.eqb_refl in Hf.
Qed.
Lemma live_lids s i : i ∈ live s -> i ∈ (lid <$> ioThreads_ s).
Proof. unfold live. intros (t & -> & [_ Ht]%list_elem_of_filter)%list_elem_of_fmap. by apply list_elem_of_fmap_2. Qed.
Lemma referred fl w i : acct fl w -> 0 < refs w i \/ 0 < occ i (held w) \/ (exists c, ownerIs w c i <> 0) -> i ∈ (lid <$> ioThreads_ (srv w)).
Proof.
  intros Hac Hr. destruct (decide (i ∈ lid <$> ioThreads_ (srv w))) as [|Hn]; [done|]. destruct (ac_gone _ _ Hac i Hn) as (G1 & G2 & G3).
  destruct Hr as [?|[?|[c Hc]]]; [lia..|]. by rewrite G3 in Hc.
Qed.
(** Only how often a loop is in hand matters. *)
Lemma acct_hand fl w hand' : acct fl w -> (forall j, occ j hand' = occ j (hand w)) -> acct fl { w with hand := hand' }.
Proof.
  intros [H1 H2 H3 H4 H5 H6 H7 H8 H9] Hh. assert (Hr : forall j, refs { w with hand := hand' } j = refs w j) by (intros j; unfold refs; cbn; unfold const; by rewrite Hh).
  split; try done; intros; rewrite Hr; auto.
Qed.
(** The connections change, and hands, but not what refers to which loop. *)
Lemma acct_cs fl w cs' hand' : acct fl w ->
  (forall j, occ j hand' + sumOf (targetRef j) cs' = occ j (hand w) + sumOf (targetRef j) (cs w)) ->
  (forall c, cs' !! c ≫= owner_ = cs w !! c ≫= owner_) -> (forall c, between <$> cs' !! c = between <$> cs w !! c) ->
  (forall c k, cs' !! c = Some k -> conn_ok k) ->
  acct fl (mkWorld (srv w) cs' (held w) hand').
Proof.
  intros [H1 H2 H3 H4 H5 H6 H7 H8 H9] Hh Ho Hb Hc. set (w' := mkWorld _ _ _ _).
  assert (Hr : forall j, refs w' j = refs w j) by (intros j; unfold refs; cbn; specialize (Hh j); lia).
  assert (Hw : forall c j, ownerIs w' c j = ownerIs w c j) by (intros c j; unfold ownerIs; cbn; by rewrite Ho).
  assert (Ht : forall c, transit w' c = transit w c) by (intros c; unfold transit; cbn; by rewrite Hb).
  split; try done.
  - intros t Hin. rewrite Hr. by apply H2.
  - intros t c Hin. rewrite Hw. by apply H5.
  - intros i Hi. rewrite Hr. destruct (H6 i Hi) as (? & ? & G). split; [done|]. split; [done|]. intros c. by rewrite Hw.
  - intros c. rewrite Ht. apply H7.
Qed.

(** ** The primitives *)
Ltac same_world := intros; unfold ownerIs, transit, attachRefs; cbn; unfold const; solve [lia | case_decide; lia].

Lemma acct_reserve fl w d : acct fl w -> d ∈ (lid <$> ioThreads_ (srv w)) ->
  acct fl (mkWorld (onLoop d Reserve (srv w)) (cs w) (held w) (d :: hand w)).
Proof.
  intros Hac Hd. destruct (find_lids _ _ Hd) as [t Ht]. apply (acct_loop fl fl w d t Reserve); try done; try same_world.
  - intros j. rewrite occ_cons. unfold b2z, mailRefs. cbn. unfold const. destruct (decide (j = d)), (decide (d = j)); congruence || lia.
  - exact (ac_conn _ _ Hac).
Qed.
Lemma acct_unreserve fl w d h : acct fl w -> d ∈ hand w -> (forall j, occ j h = occ j (hand w) - b2z (d = j)) ->
  acct fl (mkWorld (onLoop d Unreserve (srv w)) (cs w) (held w) h).
Proof.
  intros Hac Hd Hh. assert (Hl : d ∈ (lid <$> ioThreads_ (srv w))).
  { apply (referred fl); [done|left]. pose proof (proj1 (refs_split w d)). apply occ_elem in Hd. lia. }
  destruct (find_lids _ _ Hl) as [t Ht]. apply (acct_loop fl fl w d t Unreserve); try done; try same_world.
  - intros j. rewrite Hh. unfold b2z, mailRefs. cbn. unfold const. destruct (decide (j = d)), (decide (d = j)); congruence || lia.
  - exact (ac_conn _ _ Hac).
Qed.
Lemma mailRefs_post j m t : mailRefs j (Post m t) = mailRefs j t + mailRef j (lid t) m.
Proof. unfold mailRefs. cbn. unfold const. rewrite sumOf_app, sumOf_cons. change (sumOf _ (@nil Mail)) with 0. lia. Qed.
Lemma attachRefs_post c m t : attachRefs c (Post m t) = attachRefs c t + b2z (m = MAttach c).
Proof. unfold attachRefs. cbn. unfold const. rewrite occ_app, occ_cons, occ_nil. lia. Qed.
Lemma acct_post fl fl' w i m h : acct fl w -> i ∈ (lid <$> ioThreads_ (srv w)) -> (forall j, occ j h = occ j (hand w) - mailRef j i m) ->
  (forall c, occ c fl' = occ c fl - b2z (m = MAttach c)) -> acct fl' (mkWorld (onLoop i (Post m) (srv w)) (cs w) (held w) h).
Proof.
  intros Hac Hi Hh Hf. destruct (find_lids _ _ Hi) as [t Ht]. pose proof (proj1 (findLoop_lid _ _ _ Ht)) as El.
  apply (acct_loop fl fl' w i t (Post m)); try done; try same_world.
  - intros j. rewrite Hh, mailRefs_post, El. cbn. unfold const. case_decide; lia.
  - intros c. rewrite attachRefs_post, Hf. unfold transit. cbn. lia.
  - exact (ac_conn _ _ Hac).
Qed.
(** A closure taken from a mailbox leaves what it refers to in hand. *)
Lemma acct_pop fl fl' w i t m l h : acct fl w -> findLoop i (srv w) = Some t -> mail t = m :: l -> (forall j, occ j h = occ j (hand w) + mailRef j i m) ->
  (forall c, occ c fl' = occ c fl + b2z (m = MAttach c)) -> acct fl' (mkWorld (onLoop i popMail (srv w)) (cs w) (held w) h).
Proof.
  intros Hac Ht Em Hh Hf. pose proof (proj1 (findLoop_lid _ _ _ Ht)) as El. apply (acct_loop fl fl' w i t popMail); try done; try same_world.
  - intros j. rewrite Hh. unfold mailRefs. cbn. unfold const. rewrite Em, El, sumOf_cons. cbn. rewrite drop_0. case_decide; lia.
  - intros c. rewrite Hf. unfold attachRefs, transit. cbn. unfold const. rewrite Em, occ_cons. cbn. rewrite drop_0. lia.
  - exact (ac_conn _ _ Hac).
Qed.
Lemma acct_hold fl w i : acct fl w -> i ∈ (lid <$> ioThreads_ (srv w)) -> acct fl (mkWorld (onLoop i Hold (srv w)) (cs w) (i :: held w) (hand w)).
Proof.
  intros Hac Hi. destruct (find_lids _ _ Hi) as [t Ht]. apply (acct_loop fl fl w i t Hold); try done; try same_world.
  - intros j. unfold mailRefs. cbn. case_decide; lia.
  - intros j. rewrite occ_cons. unfold b2z. cbn. unfold const. destruct (decide (j = i)), (decide (i = j)); congruence || lia.
  - exact (ac_conn _ _ Hac).
Qed.
Lemma acct_release fl w i h : acct fl w -> i ∈ held w -> (forall j, occ j h = occ j (held w) - b2z (i = j)) ->
  acct fl (mkWorld (onLoop i Release (srv w)) (cs w) h (hand w)).
Proof.
  intros Hac Hi Hh. assert (Hl : i ∈ (lid <$> ioThreads_ (srv w))) by (apply (referred fl); [done|right; left; by apply occ_elem]).
  destruct (find_lids _ _ Hl) as [t Ht]. apply (acct_loop fl fl w i t Release); try done; try same_world.
  - intros j. unfold mailRefs. cbn. case_decide; lia.
  - intros j. rewrite Hh. unfold b2z. cbn. unfold const. destruct (decide (j = i)), (decide (i = j)); congruence || lia.
  - exact (ac_conn _ _ Hac).
Qed.
