(* ===== verification/IOEvents.v ===== *)
(** * Every event keeps the accounting of the loops

    The events of [IOThreads], one by one, against [IOAcct.acct]; a loop that is
    stopped has nothing on it and nothing on its way to it. *)
From stdpp Require Import prelude list.
From Stdlib Require Import ZArith Lia.
From coqutil Require Import Datatypes.RecordSettersUsingExistingGetters.
From S2P Require Import Prelude ElasticPool IOPool IOLevel IOThreads IOAcct.
Open Scope Z_scope.

(** ** A connection changes *)
Section set_conn.
Context (l : list Conn) (c : nat) (k0 k : Conn).
Hypothesis Hc : l !! c = Some k0.
Lemma insert_owner c0 : <[c := k]> l !! c0 ≫= owner_ = if decide (c0 = c) then owner_ k else l !! c0 ≫= owner_.
Proof using Hc. apply lookup_lt_Some in Hc. case_decide as E; [subst; by rewrite list_lookup_insert_eq|by rewrite list_lookup_insert_ne]. Qed.
Lemma insert_between c0 : between <$> <[c := k]> l !! c0 = if decide (c0 = c) then Some (between k) else between <$> l !! c0.
Proof using Hc. apply lookup_lt_Some in Hc. case_decide as E; [subst; by rewrite list_lookup_insert_eq|by rewrite list_lookup_insert_ne]. Qed.
Lemma insert_conn_ok : (forall c k, l !! c = Some k -> conn_ok k) -> conn_ok k -> forall c0 k', <[c := k]> l !! c0 = Some k' -> conn_ok k'.
Proof using Hc. intros Hl Hk c0 k' [(_ & <- & _)|[_ H]]%list_lookup_insert_Some; [done|by eapply Hl]. Qed.
End set_conn.

(** ** Coming and going *)
Lemma Remove_facts c t : c ∈ conns t ->
  lid (Remove c t) = lid t /\ retiring (Remove c t) = retiring t /\ pending (Remove c t) = pending t /\ holds (Remove c t) = holds t /\ mail (Remove c t) = mail t /\
  connCount (Remove c t) = connCount t - 1 /\ conns t ≡ₚ c :: conns (Remove c t).
Proof.
  intros Hc. unfold Remove. destruct (list_find _ _) as [[i x]|] eqn:E.
  - repeat (split; [done|]). apply list_find_Some in E as (E & -> & _). cbn. unfold const. clear Hc.
    destruct (conns t) as [|y l'] using rev_ind; [done|]. clear IHl'. rewrite length_app, Nat.add_1_r. cbn [pred].
    rewrite app_nth2, Nat.sub_diag by lia. cbn [nth]. destruct (decide (i = length l')) as [->|Hi].
    + rewrite lookup_app_r, Nat.sub_diag in E by lia. injection E as <-. rewrite insert_app_r_alt, Nat.sub_diag by lia. cbn. rewrite take_app_length. by rewrite Permutation_app_comm.
    + assert (Hlt : (i < length l')%nat). { apply lookup_lt_Some in E. rewrite length_app in E. cbn in E. lia. }
      rewrite lookup_app_l in E by done. rewrite insert_app_l by done. rewrite take_app_le, take_ge by (rewrite length_insert; lia).
      rewrite (Permutation_app_comm l' [y]). cbn. rewrite <- (take_drop_middle l' i c E) at 1. rewrite insert_take_drop by done.
      rewrite <- !Permutation_middle. constructor 3.
  - apply list_find_None in E. rewrite Forall_forall in E. by destruct (E c Hc).
Qed.
Lemma Remove_lid c t : lid (Remove c t) = lid t /\ retiring (Remove c t) = retiring t.
Proof. unfold Remove. by destruct (list_find _ _) as [[? ?]|]. Qed.

(** A connection leaves its loop: it closes, or is between loops. *)
Lemma acct_remove fl fl' w c k0 k o h : acct fl w -> cs w !! c = Some k0 -> owner_ k0 = Some o -> owner_ k = None -> migrateTarget_ k = None -> closing_ k = true \/ migrating_ k = true ->
  (forall j, occ j h = occ j (hand w) + targetRef j k0) -> (forall x, occ x fl' = occ x fl + b2z (x = c /\ between k = true)) ->
  acct fl' (mkWorld (onLoop o (Remove c) (srv w)) (<[c := k]> (cs w)) (held w) h).
Proof.
  intros Hac Hc Ho Hk Ht Hcm Hh Hf. assert (Hw : ownerIs w c o = 1) by (unfold ownerIs; rewrite Hc; cbn; by rewrite Ho, b2z_true).
  destruct (find_lids o (srv w)) as [t Hfind]; [apply (referred fl); [done|]; right; right; exists c; lia|].
  destruct (findLoop_lid _ _ _ Hfind) as [El Hin].
  assert (Hcin : c ∈ conns t) by (apply occ_elem; rewrite (ac_conns _ _ Hac t c Hin), El; lia).
  destruct (Remove_facts c t Hcin) as (_ & _ & R1 & R2 & R3 & R4 & R5). pose proof (proj1 (occ_perm _ _) R5) as R6.
  assert (Ek : forall j, targetRef j k = 0) by (intros j; unfold targetRef; rewrite Ht; by apply b2z_false).
  apply (acct_loop fl fl' w o t (Remove c)); try done.
  - apply Remove_lid.
  - intros j. unfold mailRefs. rewrite Hh, R1, R3, (proj1 (Remove_lid c t)), (sumOf_insert _ _ _ _ _ Hc), Ek. destruct (decide (j = o)); lia.
  - rewrite R4. apply Permutation_length in R5. cbn in R5. lia.
  - intros j. rewrite R2. destruct (decide (j = o)); lia.
  - intros x j. unfold ownerIs. cbn [cs]. rewrite (insert_owner _ _ _ _ Hc). specialize (R6 x). rewrite occ_cons in R6. destruct (decide (x = c)) as [->|Hx].
    + rewrite Hk, Hc. cbn. rewrite Ho, (b2z_false (None = Some j)) by done. rewrite (b2z_true (c = c)) in R6 by done.
      destruct (decide (j = o)) as [->|]; [rewrite b2z_true by done; lia|rewrite b2z_false by congruence; lia].
    + rewrite (b2z_false (c = x)) in R6 by congruence. destruct (decide (j = o)); lia.
  - intros x. unfold attachRefs, transit. cbn [cs]. rewrite R3, Hf, (insert_between _ _ _ _ Hc). destruct (decide (x = c)) as [->|Hx].
    + assert (Eb : between k0 = false) by (unfold between; by rewrite Ho, bool_decide_false, andb_false_r).
      rewrite Hc. cbn [fmap option_fmap option_map]. rewrite Eb, (b2z_false (Some false = Some true)) by done. unfold b2z. destruct (decide (c = c /\ _)), (decide (Some (between k) = Some true)); intuition (congruence || lia).
    + rewrite (b2z_false (x = c /\ _)) by tauto. lia.
  - eapply insert_conn_ok; [exact Hc|exact (ac_conn _ _ Hac)|]. split; [by rewrite Ht|done].
Qed.
(** A connection arrives on the loop that was reserved for it. *)
Lemma in_hand_lids fl w i : acct fl w -> i ∈ hand w -> i ∈ (lid <$> ioThreads_ (srv w)).
Proof. intros Hac Hi%occ_elem. apply (referred fl); [done|left]. pose proof (proj1 (refs_split w i)). lia. Qed.
Lemma acct_add fl fl' w i c cs' h : acct fl w -> i ∈ hand w -> (forall j, occ j h = occ j (hand w) - b2z (i = j)) ->
  (forall j, sumOf (targetRef j) cs' = sumOf (targetRef j) (cs w)) ->
  cs w !! c ≫= owner_ = None -> (forall x, cs' !! x ≫= owner_ = if decide (x = c) then Some i else cs w !! x ≫= owner_) ->
  (forall x, occ x fl' - occ x fl = b2z (between <$> cs' !! x = Some true) - b2z (between <$> cs w !! x = Some true)) ->
  (forall c k, cs' !! c = Some k -> conn_ok k) ->
  acct fl' (mkWorld (onLoop i (Add c) (srv w)) cs' (held w) h).
Proof.
  intros Hac Hi Hh Hs Hn Ho Hf Hk. destruct (find_lids _ _ (in_hand_lids _ _ _ Hac Hi)) as [t Ht].
  apply (acct_loop fl fl' w i t (Add c)); try done; cbn; unfold const.
  - intros j. rewrite Hh, Hs. unfold mailRefs. cbn. unfold b2z. destruct (decide (j = i)), (decide (i = j)); congruence || lia.
  - rewrite length_app. cbn. lia.
  - intros j. destruct (decide (j = i)); lia.
  - intros x j. unfold ownerIs. cbn [cs]. rewrite Ho, occ_app, occ_cons, occ_nil. unfold b2z at 3. destruct (decide (x = c)) as [->|Hx].
    + rewrite Hn, (b2z_false (None = Some j)) by done. rewrite (decide_True (P := c = c)) by done.
      destruct (decide (j = i)) as [->|]; [rewrite b2z_true by done; lia|rewrite b2z_false by congruence; lia].
    + rewrite (decide_False (P := c = x)) by congruence. destruct (decide (j = i)); lia.
  - intros x. unfold attachRefs, transit. cbn. unfold const. specialize (Hf x). lia.
Qed.

(** ** The mailbox *)
Definition withHand (h : list nat) (w : World) : World := mkWorld (srv w) (cs w) (held w) h.
Lemma acct_giveBack fl ds h : forall w, acct fl (withHand (ds ++ h) w) -> acct fl (withHand h (foldl (fun w d => onSrv (onLoop d Unreserve) w) w ds)).
Proof.
  induction ds as [|d ds IH]; intros w Hac; [done|]. cbn [foldl]. apply IH.
  apply (acct_unreserve fl (withHand (d :: ds ++ h) w)); [done|left|]. intros j. cbn [hand withHand]. rewrite occ_cons. lia.
Qed.
Lemma acct_migrateTo fl c d h w w' : acct fl (withHand (d :: h) w) -> migrateTo c d w = Some w' -> acct fl (withHand h w').
Proof.
  intros Hac. unfold migrateTo. destruct (cs w !! c) as [k|] eqn:Hc; [|done]. destruct (closing_ k) eqn:Ec; [done|]. destruct (migrating_ k) eqn:Em; [done|].
  destruct (bool_decide _); [done|]. intros [= <-]. destruct (ac_conn _ _ Hac c k Hc) as (K1 & K2 & K3).
  assert (Ho : owner_ k <> None) by (intros E; destruct (K3 E); congruence). assert (Et : migrateTarget_ k = None) by (destruct (migrateTarget_ k); [destruct K1; congruence|done]).
  apply (acct_cs fl (withHand (d :: h) w)); [done|..]; cbn [cs hand withHand setConn]; cbn; unfold const.
  - intros j. rewrite occ_cons, (sumOf_insert _ _ _ _ _ Hc). unfold targetRef at 2 3. cbn. unfold const. rewrite Et, (b2z_false (None = Some j)) by done.
    unfold b2z. destruct (decide (d = j)), (decide (Some d = Some j)); congruence || lia.
  - intros x. rewrite (insert_owner _ _ _ _ Hc). destruct (decide (x = c)) as [->|]; [by rewrite Hc|done].
  - intros x. rewrite (insert_between _ _ _ _ Hc). destruct (decide (x = c)) as [->|]; [by rewrite Hc|done].
  - eapply insert_conn_ok; [exact Hc|exact (ac_conn _ _ Hac)|]. split; [done|]. split; [done|]. cbn. unfold const. tauto.
Qed.
Lemma acct_runPlan fl h conns ds w : acct fl (withHand (ds ++ h) w) -> acct fl (withHand h (runPlan conns ds w)).
Proof.
  revert ds w. induction conns as [|c conns IH]; intros [|d ds] w Hac; try done; [by apply acct_giveBack in Hac|]. cbn [runPlan].
  destruct (migrateTo c d w) as [w'|] eqn:E; [|by apply IH]. apply IH. by eapply acct_migrateTo.
Qed.
Lemma transit_conn w c : 0 < transit w c -> exists k, cs w !! c = Some k /\ closing_ k = false /\ owner_ k = None /\ between k = true.
Proof.
  unfold transit, b2z. case_decide as E; [|lia]. intros _. destruct (cs w !! c) as [k|]; [|done]. injection E as E. exists k. split; [done|].
  pose proof E as E'. unfold between in E. apply andb_prop in E as [E1%negb_true_iff E2%bool_decide_eq_true]. done.
Qed.
Lemma acct_acceptOn w i : acct [] (withHand (i :: hand w) w) -> acct [] (acceptOn i w).
Proof.
  intros Hac. apply (acct_add [] [] (withHand (i :: hand w) w) i (length (cs w)) (cs w ++ [mkConn false false None (Some i)]) (hand w) Hac); cbn [cs hand withHand].
  - left.
  - intros j. rewrite occ_cons. lia.
  - intros j. rewrite sumOf_app, sumOf_cons. unfold targetRef at 2. cbn. rewrite b2z_false by done. change (sumOf _ (@nil Conn)) with 0. lia.
  - by rewrite lookup_ge_None_2.
  - intros x. destruct (decide (x = length (cs w))) as [->|Hx]; [by rewrite lookup_app_r, Nat.sub_diag by lia|].
    destruct (decide (x < length (cs w))%nat); [by rewrite lookup_app_l|]. by rewrite !lookup_ge_None_2 by (rewrite ?length_app; cbn; lia).
  - intros x. destruct (decide (x < length (cs w))%nat); [rewrite lookup_app_l by done; lia|]. rewrite (lookup_ge_None_2 (cs w)) by lia.
    destruct (decide (x = length (cs w))) as [->|Hx]; [by rewrite lookup_app_r, Nat.sub_diag by lia|]. rewrite lookup_ge_None_2 by (rewrite length_app; cbn; lia). lia.
  - intros c k [Hk|[_ Hk]]%lookup_app_Some; [exact (ac_conn _ _ Hac c k Hk)|]. apply list_lookup_singleton_Some in Hk as [_ <-]. split; [done|]. split; [done|]. done.
Qed.
Lemma acct_finishAttach w c i : acct [c] (withHand (i :: hand w) w) -> acct [] (finishAttach c i w).
Proof.
  intros Hac. pose proof (ac_attach _ _ Hac c) as Ha. rewrite occ_cons, b2z_true in Ha by done.
  pose proof (sumOf_pos (attachRefs c) (ioThreads_ (srv w)) (fun t => occ_pos _ _)) as Hp. cbn [srv withHand] in Ha. rewrite occ_nil in Ha.
  destruct (transit_conn w c) as (k & Hc & Hcl & Ho & Hb); [change (0 < transit (withHand (i :: hand w) w) c); lia|].
  destruct (ac_conn _ _ Hac c k Hc) as (K1 & K2 & K3). assert (Et : migrateTarget_ k = None) by (destruct (migrateTarget_ k); [by destruct K1|done]).
  unfold finishAttach. rewrite Hc.
  apply (acct_add [c] [] (withHand (i :: hand w) w) i c (<[c := { k with owner_ := Some i; migrating_ := false }]> (cs w)) (hand w) Hac); cbn [cs hand withHand].
  - left.
  - intros j. rewrite occ_cons. lia.
  - intros j. rewrite (sumOf_insert _ _ _ _ _ Hc). unfold targetRef at 2 3. cbn. rewrite Et. lia.
  - by rewrite Hc.
  - intros x. by rewrite (insert_owner _ _ _ _ Hc).
  - intros x. rewrite (insert_between _ _ _ _ Hc), occ_nil, occ_cons, occ_nil. destruct (decide (x = c)) as [->|Hx].
    + rewrite Hc. cbn [fmap option_fmap option_map]. rewrite Hb. unfold between. cbn. unfold const. rewrite andb_false_r. rewrite b2z_true, b2z_false, (b2z_true (Some true = Some true)) by done. lia.
    + rewrite (b2z_false (c = x)) by congruence. lia.
  - eapply insert_conn_ok; [exact Hc|exact (ac_conn _ _ Hac)|]. split; cbn; unfold const; [by rewrite Et|]. split; [congruence|done].
Qed.
Lemma runPlan_hand conns ds w : hand (runPlan conns ds w) = hand w.
Proof.
  assert (Hf : forall ds w, hand (foldl (fun w d => onSrv (onLoop d Unreserve) w) w ds) = hand w) by (induction ds0 as [|d l IH]; intros w0; [done|]; cbn [foldl]; by rewrite IH).
  revert ds w. induction conns as [|c conns IH]; intros [|d ds] w; try done; [exact (Hf (d :: ds) w)|]. cbn [runPlan].
  unfold migrateTo. destruct (cs w !! c) as [k|]; [|apply IH]. destruct (_ || _); [apply IH|]. by rewrite IH.
Qed.
Lemma withHand_self h w : hand w = h -> withHand h w = w.
Proof. intros <-. by destruct w. Qed.
Lemma acct_runMail w i w' : acct [] w -> runMail i w = Some w' -> acct [] w'.
Proof.
  intros Hac. unfold runMail. destruct (findLoop i (srv w)) as [t|] eqn:Ht; [|done]. destruct (mail t) as [|m l] eqn:Em; [done|]. intros [= <-].
  destruct m as [|c|ds].
  - apply acct_acceptOn. apply (acct_pop [] [] w i t _ l (i :: hand w) Hac Ht Em); [intros j; rewrite occ_cons; cbn; lia|intros c; by rewrite b2z_false by done].
  - apply acct_finishAttach. apply (acct_pop [] [c] w i t _ l (i :: hand w) Hac Ht Em); [intros j; rewrite occ_cons; cbn; lia|].
    intros x. rewrite occ_cons. unfold b2z. destruct (decide (c = x)), (decide (MAttach c = MAttach x)); congruence || done.
  - assert (Hr : acct [] (withHand (hand w) (runPlan (conns t) ds (onSrv (onLoop i popMail) w)))).
    { apply acct_runPlan. apply (acct_pop [] [] w i t _ l (ds ++ hand w) Hac Ht Em); [intros j; rewrite occ_app; cbn; lia|intros c; by rewrite b2z_false by done]. }
    rewrite withHand_self in Hr; [done|]. by rewrite runPlan_hand.
Qed.

(** ** Connections move and close *)
Lemma Remove_lids o c s : lid <$> ioThreads_ (onLoop o (Remove c) s) = lid <$> ioThreads_ s.
Proof. apply onLoop_lids. intros t. apply Remove_lid. Qed.
Lemma acct_finishMigrate w c w' : acct [] w -> finishMigrate c w = Some w' -> acct [] w'.
Proof.
  intros Hac. unfold finishMigrate. destruct (cs w !! c) as [k|] eqn:Hc; [|done]. destruct k as [[|] [|] [d|] [o|]]; try done. intros [= <-].
  assert (Hd : d ∈ (lid <$> ioThreads_ (srv w))).
  { apply (referred []); [done|left]. pose proof (proj2 (refs_split w d) c _ Hc) as Hr. unfold targetRef in Hr. cbn in Hr. rewrite b2z_true in Hr by done. lia. }
  apply (acct_post [c] [] (mkWorld (onLoop o (Remove c) (srv w)) (<[c := mkConn false true None None]> (cs w)) (held w) (d :: hand w)) d (MAttach c) (hand w)).
  - eapply (acct_remove [] [c]); [done|exact Hc|done..|by right| |].
    + intros j. rewrite occ_cons. unfold targetRef, b2z. cbn. destruct (decide (d = j)), (decide (Some d = Some j)); congruence || lia.
    + intros x. assert (Hb : between (mkConn false true None None) = true) by done. rewrite Hb, occ_cons, occ_nil.
      unfold b2z. destruct (decide (c = x)), (decide (x = c /\ _)); intuition (congruence || lia).
  - cbn [srv]. by rewrite Remove_lids.
  - intros j. cbn [hand]. rewrite occ_cons. cbn. lia.
  - intros x. rewrite occ_cons, occ_nil. unfold b2z. destruct (decide (c = x)), (decide (MAttach c = MAttach x)); congruence || lia.
Qed.
Lemma onLoop_mk i f l n lo : onLoop i f (mkServer l n lo) = mkServer (map (fun t => if (lid t =? i)%nat then f t else t) l) n lo.
Proof. done. Qed.
Lemma onLoop_comm i j f g s : (forall t, lid (f t) = lid t) -> (forall t, lid (g t) = lid t) -> (forall t, f (g t) = g (f t)) ->
  onLoop i f (onLoop j g s) = onLoop j g (onLoop i f s).
Proof.
  intros Hf Hg Hfg. destruct s as [l n lo]. rewrite !onLoop_mk. f_equal. rewrite !map_map. apply map_ext. intros t.
  destruct (Nat.eqb_spec (lid t) i) as [E1|E1], (Nat.eqb_spec (lid t) j) as [E2|E2]; rewrite ?Hf, ?Hg, ?(proj2 (Nat.eqb_eq _ _) E1), ?(proj2 (Nat.eqb_eq _ _) E2), ?(proj2 (Nat.eqb_neq _ _) E1), ?(proj2 (Nat.eqb_neq _ _) E2); done.
Qed.
Lemma acct_destroy w c w' : acct [] w -> destroy c w = Some w' -> acct [] w'.
Proof.
  intros Hac. unfold destroy. destruct (cs w !! c) as [k|] eqn:Hc; [|done]. destruct (owner_ k) as [o|] eqn:Ho; [|done].
  destruct (closing_ k) eqn:Ecl; [by intros [= <-]|]. intros [= <-]. destruct (ac_conn _ _ Hac c k Hc) as (K1 & K2 & K3).
  assert (Hdead : forall h, (forall j, occ j h = occ j (hand w) + targetRef j k) ->
    acct [] (mkWorld (onLoop o (Remove c) (srv w)) (<[c := mkConn true false None None]> (cs w)) (held w) h)).
  { intros h Hh. eapply (acct_remove [] []); [done|exact Hc|done..|by left|done|]. intros x. rewrite occ_nil, b2z_false; [lia|]. by intros [_ ?]. }
  destruct (migrateTarget_ k) as [d|] eqn:Et.
  - destruct K1 as [-> _]; [done|]. assert (Hcomm : onLoop o (Remove c) (onLoop d Unreserve (srv w)) = onLoop d Unreserve (onLoop o (Remove c) (srv w))).
    { apply onLoop_comm; [intros t; apply Remove_lid|done|]. intros t. unfold Remove. cbn. by destruct (list_find _ _) as [[? ?]|]. }
    assert (Hac1 : acct [] (mkWorld (onLoop o (Remove c) (srv w)) (<[c := mkConn true false None None]> (cs w)) (held w) (d :: hand w))).
    { apply Hdead. intros j. rewrite occ_cons. unfold targetRef, b2z. rewrite Et. destruct (decide (d = j)), (decide (Some d = Some j)); congruence || lia. }
    pose proof (acct_unreserve [] _ d (hand w) Hac1) as Hu. cbn [srv cs held hand] in Hu. rewrite <- Hcomm in Hu. apply Hu; [left|]. intros j. rewrite occ_cons. lia.
  - assert (Hh : acct [] (mkWorld (onLoop o (Remove c) (srv w)) (<[c := mkConn true false None None]> (cs w)) (held w) (hand w))).
    { apply Hdead. intros j. unfold targetRef. rewrite Et, b2z_false by done. lia. }
    by destruct (migrating_ k).
Qed.

(** ** Accepts and holds *)
Lemma leastOf_elem s l b : leastOf s l = Some b -> b ∈ l.
Proof.
  unfold leastOf. assert (H : forall l best, foldl (fun best i => match best with Some b => if loadOf s i <? loadOf s b then Some i else best | None => Some i end) best l = Some b -> b ∈ l \/ best = Some b).
  { intros l'. induction l' as [|i l' IH]; intros best; cbn [foldl]; [by right|]. intros [H|H]%IH; [left; by right|].
    destruct best as [b'|]; [|injection H as ->; left; by left]. destruct (_ <? _); [injection H as ->; left; by left|by right]. }
  intros E. by destruct (H l None E).
Qed.
Lemma acct_pick w w' : acct [] w -> step EPick w = Some w' -> acct [] w'.
Proof.
  intros Hac. cbn. unfold pickIOThread. destruct (leastOf (srv w) (live (srv w))) as [b|] eqn:E; intros [= <-]; [|done].
  apply (acct_reserve [] w b Hac). by eapply live_lids, leastOf_elem.
Qed.
Lemma acct_simple w w' e : acct [] w -> step e w = Some w' -> match e with EPost _ | EHold _ | ERelease _ => True | _ => False end -> acct [] w'.
Proof.
  intros Hac Hst He. destruct e as [|i| | | |c|i| | |]; try done; cbn in Hst.
  - case_bool_decide as Hi; [|done]. injection Hst as <-. apply (acct_post [] [] w i MAccept (removeOne i (hand w)) Hac).
    + by eapply in_hand_lids.
    + intros j. by rewrite occ_removeOne.
    + intros c. rewrite b2z_false; [done|done].
  - destruct (cs w !! c) as [k|] eqn:Hc; [|done]. cbn in Hst. destruct (owner_ k) as [i|] eqn:Ho; [|done]. injection Hst as <-.
    apply (acct_hold [] w i Hac). apply (referred []); [done|]. right. right. exists c. unfold ownerIs. rewrite Hc. cbn. by rewrite Ho, b2z_true.
  - case_bool_decide as Hi; [|done]. injection Hst as <-. apply (acct_release [] w i (removeOne i (held w)) Hac Hi). intros j. by rewrite occ_removeOne.
Qed.
