(* ===== verification/IOTune.v ===== *)
(** * The tuner's operations keep the accounting of the loops

    Growing, levelling, retiring and stopping, and the theorems about every run. *)
From stdpp Require Import prelude list sorting.
From Stdlib Require Import ZArith Lia.
From coqutil Require Import Datatypes.RecordSettersUsingExistingGetters.
From S2P Require Import Prelude ElasticPool IOPool IOLevel IOThreads IOAcct IOEvents.
Open Scope Z_scope.

Section tune.
Context (cs0 : list Conn) (held0 : list nat).
(** The accounting, with [h] in the tuner's hands. *)
Abbreviation acctS h s := (acct [] (mkWorld s cs0 held0 h)).
Definition lids (s : Server) : list nat := lid <$> ioThreads_ s.
Lemma same_lids s s' : same_loops s s' -> lids s' = lids s.
Proof. intros [E _]. by apply lids_shape. Qed.

(** ** Plans *)
Lemma acct_planMoves h k to s : acctS h s -> to ⊆ lids s -> acctS ((planMoves k to s).1 ++ h) (planMoves k to s).2.
Proof.
  revert h s. induction k as [|k IH]; intros h s Hac Hto; [done|]. cbn [planMoves]. destruct (leastOf s to) as [d|] eqn:E; [|done].
  assert (Hd : d ∈ lids s) by (by eapply Hto, leastOf_elem). specialize (IH (d :: h) (onLoop d Reserve s)).
  destruct (planMoves k to _) as [ds s']. cbn [fst snd] in *. eapply acct_hand in IH; [exact IH|by apply (acct_reserve [] (mkWorld s cs0 held0 h))| |].
  - by rewrite (same_lids _ _ (reserve_same d s)).
  - intros j. cbn [hand]. rewrite !occ_app, !occ_cons. lia.
Qed.
Lemma acct_postMigrations h i ds s : acctS (ds ++ h) s -> i ∈ lids s -> acctS h (postMigrations i ds s).
Proof.
  intros Hac Hi. destruct ds as [|d ds]; [done|]. apply (acct_post [] [] (mkWorld s cs0 held0 ((d :: ds) ++ h)) i (MPlan (d :: ds)) h Hac Hi).
  - intros j. cbn [hand]. rewrite occ_app. cbn. lia.
  - intros c. by rewrite b2z_false.
Qed.
Lemma acct_planPost h k to i s : acctS h s -> to ⊆ lids s -> i ∈ lids s -> acctS h (let '(ds, s') := planMoves k to s in postMigrations i ds s').
Proof.
  intros Hac Hto Hi. pose proof (acct_planMoves h k to s Hac Hto) as Hp. pose proof (same_lids _ _ (planMoves_same k to s)) as El.
  destruct (planMoves k to s) as [ds s']. cbn [fst snd] in *. apply acct_postMigrations; [done|]. by rewrite El.
Qed.
Lemma acct_plans h (k : Server -> nat -> nat) to l : forall s, acctS h s -> to ⊆ lids s -> l ⊆ lids s ->
  acctS h (foldl (fun s i => let '(ds, s') := planMoves (k s i) to s in postMigrations i ds s') s l).
Proof.
  induction l as [|i l IH]; intros s Hac Hto Hl; [done|]. cbn [foldl]. pose proof (planPost_same s i (k s i) to) as Hs.
  apply IH; [apply acct_planPost; [done|done|apply Hl; left]|..]; rewrite (same_lids _ _ Hs); [done|]. intros x Hx. apply Hl. by right.
Qed.

(** ** Levelling *)
Lemma acct_reserves (g : nat * nat -> nat) moves : forall h s, acctS h s -> (forall m, m ∈ moves -> g m ∈ lids s) ->
  acctS ((g <$> moves) ++ h) (foldl (fun s m => onLoop (g m) Reserve s) s moves).
Proof.
  induction moves as [|m moves IH]; intros h s Hac Hg; [done|]. cbn [foldl fmap list_fmap].
  assert (H1 : acctS (g m :: h) (onLoop (g m) Reserve s)) by (apply (acct_reserve [] (mkWorld s cs0 held0 h)); [done|apply Hg; left]).
  specialize (IH _ _ H1). eapply acct_hand in IH; [exact IH| |].
  - intros x Hx. rewrite (same_lids _ _ (reserve_same (g m) s)). apply Hg. by right.
  - intros j. cbn [hand app]. rewrite occ_cons, !occ_app, occ_cons. lia.
Qed.
Lemma acct_posts (src : nat -> nat) (ds : nat -> list nat) h l : forall s, acctS (concat (ds <$> l) ++ h) s -> (forall i, i ∈ l -> src i ∈ lids s) ->
  acctS h (foldl (fun s i => postMigrations (src i) (ds i) s) s l).
Proof.
  induction l as [|i l IH]; intros s Hac Hl; [done|]. cbn [foldl fmap list_fmap concat] in *. rewrite <- app_assoc in Hac. apply IH.
  - apply acct_postMigrations; [done|]. apply Hl. left.
  - intros x Hx. rewrite (same_lids _ _ (postMigrations_same (src i) (ds i) s)). apply Hl. by right.
Qed.
(** The moves, sorted by the loop they leave. *)
Lemma occ_by_source (g : nat * nat -> nat) moves n j : Forall (fun m => (m.1 < n)%nat) moves ->
  occ j (concat ((fun i => g <$> filter (fun m => m.1 = i) moves) <$> seq 0 n)) = occ j (g <$> moves).
Proof.
  intros Hm. rewrite occ_concat. induction Hm as [|m moves Hm _ IH]; [by apply sumOf_0, Forall_forall|].
  rewrite fmap_cons, occ_cons, <- IH.
  assert (E : forall i, occ j (g <$> filter (fun m' => m'.1 = i) (m :: moves)) = (if decide (i = m.1) then b2z (g m = j) else 0) + occ j (g <$> filter (fun m' => m'.1 = i) moves)).
  { intros i. rewrite filter_cons. destruct (decide (m.1 = i)), (decide (i = m.1)); try congruence; [|lia]. by rewrite fmap_cons, occ_cons. }
  rewrite (sumOf_ext _ (fun i => (if decide (i = m.1) then b2z (g m = j) else 0) + occ j (g <$> filter (fun m' => m'.1 = i) moves))) by (intros; apply E).
  assert (Hadd : forall (f f' : nat -> Z) l, sumOf (fun i => f i + f' i) l = sumOf f l + sumOf f' l).
  { intros f f' l. induction l as [|x l IHl]; [done|]. rewrite !sumOf_cons, IHl. lia. }
  rewrite Hadd, (sumOf_single _ _ m.1); [rewrite decide_True by done; lia|apply NoDup_seq|apply elem_of_seq; lia|]. intros i _ Hi. by rewrite decide_False.
Qed.
Lemma acct_rebalance h s : acctS h s -> acctS h (rebalance s).
Proof.
  intros Hac. unfold rebalance. destruct (Nat.ltb_spec (length (live s)) 2); [done|].
  set (lv := live s) in *. set (load := loadOf s <$> lv). assert (Hlen : length load = length lv) by (subst load; apply length_fmap).
  pose proof (level_ok (levelFuel load) load) as Hlv. destruct (level (levelFuel load) load) as [moves l].
  destruct Hlv as (_ & _ & Hm & _); [intros E; rewrite E in Hlen; cbn in Hlen; lia|unfold levelFuel; pose proof (sumSq_pos load); lia|].
  rewrite Hlen in Hm. cbn [fst]. assert (Hin : forall i, (i < length lv)%nat -> nth i lv 0%nat ∈ lids s) by (intros i Hi; apply live_lids, list_elem_of_In, nth_In; done).
  set (g := fun m : nat * nat => nth m.2 lv 0%nat).
  assert (Hr : acctS ((g <$> moves) ++ h) (foldl (fun s m => onLoop (g m) Reserve s) s moves)).
  { apply acct_reserves; [done|]. intros m Hmm. apply Hin. rewrite Forall_forall in Hm. by apply Hm. }
  apply (acct_posts (fun i => nth i lv 0%nat) (fun i => g <$> filter (fun m => m.1 = i) moves)).
  - eapply acct_hand in Hr; [exact Hr|]. intros j. cbn [hand]. rewrite !occ_app, occ_by_source; [done|]. eapply Forall_impl; [exact Hm|]. cbn. tauto.
  - intros i Hi%elem_of_seq. rewrite (same_lids s); [apply Hin; lia|]. apply foldl_same. intros. apply reserve_same.
Qed.

(** ** The loops themselves *)
(** The same references, however the loops are arranged. *)
Lemma acct_loops h s s' : acctS h s -> loops_ok s' -> Forall isPlan (lost s') ->
  (forall j, sumOf (mailRefs j) (ioThreads_ s') + sumOf (planRefs j) (lost s') = sumOf (mailRefs j) (ioThreads_ s) + sumOf (planRefs j) (lost s)) ->
  (forall c, sumOf (attachRefs c) (ioThreads_ s') = sumOf (attachRefs c) (ioThreads_ s)) ->
  (forall t', t' ∈ ioThreads_ s' -> let w := mkWorld s cs0 held0 h in pending t' = refs w (lid t') /\ connCount t' = Z.of_nat (length (conns t')) /\
     holds t' = occ (lid t') held0 /\ forall c, occ c (conns t') = ownerIs w c (lid t')) ->
  (forall i, i ∉ lids s' -> let w := mkWorld s cs0 held0 h in refs w i = 0 /\ occ i held0 = 0 /\ forall c, ownerIs w c i = 0) ->
  acctS h s'.
Proof.
  intros Hac Hs Hlo Hm Ha Hl Hg. assert (Hr : forall i, refs (mkWorld s' cs0 held0 h) i = refs (mkWorld s cs0 held0 h) i) by (intros i; unfold refs; cbn; specialize (Hm i); lia).
  split; [done|..].
  - intros t Ht. rewrite Hr. by apply Hl.
  - intros t Ht. by apply Hl.
  - intros t Ht. by apply Hl.
  - intros t c Ht. by apply (Hl t Ht).
  - intros i Hi. rewrite Hr. by apply Hg.
  - intros c. cbn [srv]. rewrite Ha. exact (ac_attach _ _ Hac c).
  - exact (ac_conn _ _ Hac).
  - done.
Qed.
Lemma acct_same_counts h s : acctS h s -> forall t, t ∈ ioThreads_ s -> let w := mkWorld s cs0 held0 h in pending t = refs w (lid t) /\ connCount t = Z.of_nat (length (conns t)) /\
     holds t = occ (lid t) held0 /\ forall c, occ c (conns t) = ownerIs w c (lid t).
Proof. intros Hac t Ht. split; [by apply (ac_pending _ _ Hac)|]. split; [by apply (ac_count _ _ Hac)|]. split; [by apply (ac_holds _ _ Hac)|]. intros c. by apply (ac_conns _ _ Hac). Qed.

Lemma acct_addIOThread h s : acctS h s -> acctS h (addIOThread s).
Proof.
  intros Hac. pose proof (ac_loops _ _ Hac) as Hs. assert (Hn : nextLoop s ∉ lids s).
  { intros (t & E & Ht)%list_elem_of_fmap. destruct Hs as [_ Hs]. rewrite Forall_forall in Hs. specialize (Hs t Ht). cbn in Hs. lia. }
  destruct (ac_gone _ _ Hac _ Hn) as (G1 & G2 & G3). apply (acct_loops h s); [done|by apply addIOThread_ok|exact (ac_lost _ _ Hac)|..]; cbn; unfold const.
  - intros j. rewrite sumOf_app, sumOf_cons. change (sumOf _ (@nil IOThread)) with 0. change (mailRefs j _) with 0. lia.
  - intros c. rewrite sumOf_app, sumOf_cons. change (sumOf _ (@nil IOThread)) with 0. change (attachRefs c _) with 0. lia.
  - intros t [Ht|Ht%list_elem_of_singleton]%elem_of_app; [by apply acct_same_counts|]. subst t. cbn. split; [done|]. split; [done|]. split; [done|]. intros c. by rewrite G3.
  - intros i Hi. apply (ac_gone _ _ Hac). intros Hin. apply Hi. unfold lids. cbn. unfold const. rewrite fmap_app. apply elem_of_app. by left.
Qed.
Lemma acct_grow h s n : acctS h s -> acctS h (GrowIO s n).
Proof.
  intros Hac. unfold GrowIO. apply acct_rebalance. induction (Z.to_nat n) as [|k IH]; [done|]. rewrite Nat.iter_succ. by apply acct_addIOThread.
Qed.
Lemma retire_same v t : (lid (retire v t), connCount (retire v t), pending (retire v t), holds (retire v t), conns (retire v t), mail (retire v t)) =
  (lid t, connCount t, pending t, holds t, conns t, mail t).
Proof. unfold retire. by destruct (bool_decide _). Qed.
Lemma acct_retire h s v : acctS h s -> acctS h { s with ioThreads_ := retire v <$> ioThreads_ s }.
Proof.
  intros Hac. apply (acct_loops h s); [done|apply retire_ok, (ac_loops _ _ Hac)|exact (ac_lost _ _ Hac)|..]; cbn; unfold const.
  - intros j. rewrite sumOf_fmap. f_equal. apply sumOf_ext. intros t _. pose proof (retire_same v t) as E. injection E as E1 _ _ _ _ E2. unfold mailRefs. by rewrite E1, E2.
  - intros c. rewrite sumOf_fmap. apply sumOf_ext. intros t _. pose proof (retire_same v t) as E. injection E as _ _ _ _ _ E2. unfold attachRefs. by rewrite E2.
  - intros t' (t & -> & Ht)%list_elem_of_fmap. pose proof (retire_same v t) as E. injection E as E1 E2 E3 E4 E5 E6. rewrite E1, E2, E3, E4, E5. by apply acct_same_counts.
  - intros i Hi. apply (ac_gone _ _ Hac). intros Hin. apply Hi. unfold lids. cbn. unfold const. rewrite <- list_fmap_compose.
    erewrite list_fmap_ext; [exact Hin|]. intros ? t _. apply retire_facts.
Qed.
Lemma acct_shrink h s n : acctS h s -> acctS h (ShrinkIO s n).
Proof.
  intros Hac. unfold ShrinkIO. destruct (_ <=? 1)%nat; [done|]. set (sorted := merge_sort _ _). set (k := Nat.min _ _).
  assert (Hp : sorted ≡ₚ live s) by apply merge_sort_Permutation. set (s1 := { s with ioThreads_ := _ }).
  assert (El : lids s1 = lids s).
  { unfold lids. subst s1. cbn. unfold const. rewrite <- list_fmap_compose. apply list_fmap_ext. intros ? t _. apply retire_facts. }
  assert (Hsub : forall l, l `sublist_of` sorted -> l ⊆ lids s1).
  { intros l Hl x Hx. rewrite El. apply live_lids. rewrite <- Hp. by eapply elem_of_submseteq, sublist_submseteq. }
  apply (acct_plans h (fun s i => Z.to_nat (loadOf s i))); [by apply acct_retire|apply Hsub, sublist_drop|apply Hsub, sublist_take].
Qed.

(** ** Stopping *)
Lemma reapOne_None t : reapOne t = None -> Load t <= 0 /\ holds t <= 0.
Proof.
  unfold reapOne. destruct (retiring t); cbn; [|done]. destruct (Z.ltb_spec 0 (Load t)); [done|]. destruct (Z.ltb_spec 0 (holds t)); [done|]. done.
Qed.
Lemma reapOne_Some t t' : reapOne t = Some t' -> (lid t', connCount t', pending t', holds t', conns t', mail t') = (lid t, connCount t, pending t, holds t, conns t, mail t).
Proof. unfold reapOne. repeat case_match; intros; simplify_eq; done. Qed.
Lemma mail_plans t : mailRefs (lid t) t = 0 -> Forall isPlan (mail t).
Proof.
  unfold mailRefs. induction (mail t) as [|m l IH]; [constructor|]. rewrite sumOf_cons. intros E.
  pose proof (sumOf_pos (mailRef (lid t) (lid t)) l (fun m => mailRef_pos _ _ m)). pose proof (mailRef_pos (lid t) (lid t) m).
  constructor; [|apply IH; lia]. destruct m; cbn in *; [rewrite b2z_true in * by done; lia..|done].
Qed.
Lemma plans_refs l to j c : Forall isPlan l -> sumOf (mailRef j to) l = sumOf (planRefs j) l /\ occ (MAttach c) l = 0.
Proof.
  induction 1 as [|m l Hm _ [IH1 IH2]]; [done|]. rewrite !sumOf_cons, occ_cons, IH1, IH2. destruct m; [done..|]. split; [done|]. by rewrite b2z_false.
Qed.
Lemma reap_sums l j c : Forall (fun t => reapOne t = None -> Forall isPlan (mail t)) l ->
  sumOf (mailRefs j) (omap reapOne l) + sumOf (planRefs j) (l ≫= reapedMail) = sumOf (mailRefs j) l /\
  sumOf (attachRefs c) (omap reapOne l) = sumOf (attachRefs c) l.
Proof.
  induction 1 as [|t l Ht _ [IH1 IH2]]; [done|]. cbn [omap list_omap mbind list_bind]. unfold reapedMail at 1. rewrite sumOf_app, !(sumOf_cons _ t).
  destruct (reapOne t) as [t'|] eqn:E.
  - pose proof (reapOne_Some _ _ E) as Es. injection Es as E1 _ _ _ _ E2. rewrite !sumOf_cons. unfold mailRefs at 1, attachRefs at 1. rewrite E1, E2.
    change (sumOf (planRefs j) []) with 0. fold (mailRefs j t) (attachRefs c t).
    split; [rewrite Z.add_0_l, <- Z.add_assoc; f_equal; exact IH1|f_equal; exact IH2].
  - destruct (plans_refs (mail t) (lid t) j c (Ht eq_refl)) as [P1 P2]. unfold mailRefs at 2, attachRefs at 2. rewrite P1, P2, <- IH1, <- IH2.
    split; [|done]. rewrite Z.add_assoc, (Z.add_comm (sumOf (planRefs j) (mail t))), <- !Z.add_assoc. f_equal. apply Z.add_comm.
Qed.
Lemma sumOf_member {A} (f : A -> Z) l x : (forall y, 0 <= f y) -> x ∈ l -> f x <= sumOf f l.
Proof.
  intros Hf. induction l as [|y l IH]; [by intros ?%elem_of_nil|]. rewrite sumOf_cons. pose proof (sumOf_pos f l Hf). specialize (Hf y) as Hy.
  intros [->|Hx]%elem_of_cons; [lia|]. specialize (IH Hx). lia.
Qed.
Lemma mailRefs_refs w i t : t ∈ ioThreads_ (srv w) -> mailRefs i t <= refs w i.
Proof.
  intros Ht. pose proof (sumOf_member (mailRefs i) _ t (mailRefs_pos i) Ht). unfold refs. pose proof (occ_pos i (hand w)).
  assert (0 <= sumOf (planRefs i) (lost (srv w))) by (apply sumOf_pos; intros [| |]; cbn; [lia..|apply occ_pos]).
  assert (0 <= sumOf (targetRef i) (cs w)) by (apply sumOf_pos; intros; apply b2z_pos). lia.
Qed.
(** A loop that is stopped is referred to by nothing. *)
Lemma reaped_free h s t : acctS h s -> t ∈ ioThreads_ s -> reapOne t = None ->
  let w := mkWorld s cs0 held0 h in refs w (lid t) = 0 /\ occ (lid t) held0 = 0 /\ (forall c, ownerIs w c (lid t) = 0) /\ Forall isPlan (mail t).
Proof.
  intros Hac Ht [Hl Hh]%reapOne_None w. destruct (acct_same_counts h s Hac t Ht) as (C1 & C2 & C3 & C4). fold w in C1, C4.
  pose proof (refs_pos w (lid t)). pose proof (occ_pos (lid t) held0). unfold Load in Hl. assert (Hc : conns t = []) by (apply length_zero_iff_nil; lia).
  split; [lia|]. split; [lia|]. split; [intros c; by rewrite <- C4, Hc|]. apply mail_plans.
  pose proof (mailRefs_refs w (lid t) t Ht). pose proof (mailRefs_pos (lid t) t). lia.
Qed.
Lemma reaped_lids s i : loops_ok s -> i ∈ lids s -> i ∉ (lid <$> omap reapOne (ioThreads_ s)) -> exists t, t ∈ ioThreads_ s /\ lid t = i /\ reapOne t = None.
Proof.
  intros Hs (t & -> & Ht)%list_elem_of_fmap Hn. exists t. split; [done|]. split; [done|]. destruct (reapOne t) as [t'|] eqn:E; [|done].
  destruct Hn. rewrite <- (proj1 (reapOne_facts _ _ E)). apply list_elem_of_fmap_2, list_elem_of_omap. eauto.
Qed.
Lemma acct_stop h s : acctS h s -> acctS h { s with ioThreads_ := omap reapOne (ioThreads_ s); lost := lost s ++ (ioThreads_ s ≫= reapedMail) }.
Proof.
  intros Hac. pose proof (ac_loops _ _ Hac) as Hs. pose proof (fun t Ht Hr => reaped_free h s t Hac Ht Hr) as Hf.
  assert (Hpl : Forall (fun t => reapOne t = None -> Forall isPlan (mail t)) (ioThreads_ s)) by (apply Forall_forall; intros t Ht Hr; by apply Hf).
  apply (acct_loops h s); [done|..].
  - destruct Hs as [H1 H2]. split; [eapply sublist_NoDup; [exact H1|apply reaped_sublist]|]. cbn. unfold const.
    apply Forall_forall. intros t' (t & Ht & E)%list_elem_of_omap. rewrite (proj1 (reapOne_facts _ _ E)). by apply (proj1 (Forall_forall _ _) H2).
  - cbn. unfold const. apply Forall_app. split; [exact (ac_lost _ _ Hac)|]. apply Forall_forall. intros m (t & Hm & Ht)%list_elem_of_bind.
    unfold reapedMail in Hm. rewrite Forall_forall in Hpl. specialize (Hpl t Ht). destruct (reapOne t); [by apply elem_of_nil in Hm|]. specialize (Hpl eq_refl). rewrite Forall_forall in Hpl. by apply Hpl.
  - intros j. cbn. unfold const. rewrite sumOf_app. destruct (reap_sums _ j 0%nat Hpl) as [E _]. lia.
  - intros c. cbn. unfold const. by destruct (reap_sums _ 0%nat c Hpl) as [_ E].
  - cbn. unfold const. intros t' (t & Ht & E)%list_elem_of_omap. pose proof (reapOne_Some _ _ E) as Es. injection Es as E1 E2 E3 E4 E5 E6. rewrite E1, E2, E3, E4, E5. by apply acct_same_counts.
  - intros i Hi. destruct (decide (i ∈ lids s)) as [Hin|Hin]; [|by apply (ac_gone _ _ Hac)].
    destruct (reaped_lids s i Hs Hin Hi) as (t & Ht & <- & Hr). destruct (Hf t Ht Hr) as (? & ? & ? & _). done.
Qed.
Lemma reap_lids s : lids (ReapIO s) = lid <$> omap reapOne (ioThreads_ s).
Proof.
  unfold ReapIO. set (s1 := { s with ioThreads_ := _; lost := _ }) in *. assert (El : lids s1 = lid <$> omap reapOne (ioThreads_ s)) by done. clearbody s1.
  destruct (_ =? 0)%nat; [done|]. destruct (0 <? _); [done|]. set (s2 := foldl _ s1 _). assert (Hsm : same_loops s1 s2) by (apply foldl_same; intros; apply planPost_same).
  destruct (_ =? 0)%nat; [pose proof (transitivity Hsm (rebalance_same s2)) as Hsm'|rename Hsm into Hsm']; by rewrite (same_lids _ _ Hsm').
Qed.
Lemma acct_reap h s : acctS h s -> acctS h (ReapIO s).
Proof.
  intros Hac. unfold ReapIO. apply acct_stop in Hac. set (s1 := { s with ioThreads_ := _; lost := _ }) in *. clearbody s1.
  destruct (_ =? 0)%nat; [done|]. destruct (0 <? _); [done|].
  set (s2 := foldl _ s1 _). assert (H2 : acctS h s2).
  { apply (acct_plans h (fun s i => Z.to_nat match findLoop i s with Some t => connCount t | None => 0 end)); [done|intros x; apply live_lids|].
    intros x (t & -> & [_ Ht]%list_elem_of_filter)%list_elem_of_fmap. by apply list_elem_of_fmap_2. }
  destruct (_ =? 0)%nat; [by apply acct_rebalance|done].
Qed.
End tune.

(** ** Runs *)
Lemma acct_step e w w' : acct [] w -> step e w = Some w' -> acct [] w'.
Proof.
  intros Hac Hst. destruct e; [by eapply acct_pick|by eapply acct_simple|by eapply acct_runMail|by eapply acct_finishMigrate|by eapply acct_destroy|by eapply acct_simple..| | |];
    injection Hst as <-; destruct w as [s c hl h]; [apply acct_grow|apply acct_shrink|apply acct_reap]; done.
Qed.
Lemma acct_start n : acct [] (startWorld n).
Proof.
  unfold startWorld. induction n as [|n IH]; [|rewrite Nat.iter_succ; by apply acct_addIOThread].
  split; cbn; try done; [by split; constructor|by intros ? ?%elem_of_nil..|by intros ? ? ?%elem_of_nil].
Qed.
Lemma acct_reaches n w : reaches (startWorld n) w -> acct [] w.
Proof. induction 1; [apply acct_start|by eapply acct_step]. Qed.

(** Nothing but the tuner's operations changes which loops there are. *)
Lemma runPlan_same conns ds w : same_loops (srv w) (srv (runPlan conns ds w)).
Proof.
  assert (Hf : forall ds w, same_loops (srv w) (srv (foldl (fun w d => onSrv (onLoop d Unreserve) w) w ds))).
  { intros l. induction l as [|d l IH]; intros w0; [done|]. cbn [foldl]. etrans; [|apply IH]. by apply onLoop_same. }
  revert ds w. induction conns as [|c conns IH]; intros [|d ds] w; try done; [exact (Hf (d :: ds) w)|]. cbn [runPlan].
  unfold migrateTo. destruct (cs w !! c) as [k|]; [|apply IH]. destruct (_ || _); [apply IH|]. etrans; [|apply IH]. done.
Qed.
Definition tunes (e : event) : bool := match e with EGrow _ | EShrink _ | EReap => true | _ => false end.
Lemma step_same e w w' : tunes e = false -> step e w = Some w' -> same_loops (srv w) (srv w').
Proof.
  intros He Hst. destruct e as [|i|i|c|c|c|i|n|n|]; try done; cbn in Hst.
  - unfold pickIOThread in Hst. destruct (leastOf _ _) as [b|]; injection Hst as <-; [exact (reserve_same b (srv w))|done].
  - case_bool_decide; [|done]. injection Hst as <-. by apply (onLoop_same i (Post MAccept)).
  - unfold runMail in Hst. destruct (findLoop i (srv w)) as [t|]; [|done]. destruct (mail t) as [|m l]; [done|]. injection Hst as <-.
    assert (Hp : same_loops (srv w) (onLoop i popMail (srv w))) by (by apply onLoop_same). etrans; [exact Hp|]. destruct m as [|c|ds].
    + by apply (onLoop_same i (Add (length (cs w)))).
    + unfold finishAttach. cbn [cs onSrv]. destruct (_ !! c) as [k|]; [|done]. by apply (onLoop_same i (Add c)).
    + exact (runPlan_same (conns t) ds (onSrv (onLoop i popMail) w)).
  - unfold finishMigrate in Hst. destruct (cs w !! c) as [[[|] [|] [d|] [o|]]|]; try done. injection Hst as <-.
    etrans; [apply (onLoop_same o (Remove c)); intros; apply Remove_lid|]. by apply (onLoop_same d (Post (MAttach c))).
  - unfold destroy in Hst. destruct (cs w !! c) as [k|]; [|done]. destruct (owner_ k) as [o|]; [|done]. destruct (closing_ k); injection Hst as <-; [done|].
    destruct (migrating_ k), (migrateTarget_ k) as [d|]; try (apply (onLoop_same o (Remove c)); intros; apply Remove_lid).
    etrans; [by apply (onLoop_same d Unreserve)|]. apply (onLoop_same o (Remove c)). intros. apply Remove_lid.
  - destruct (_ ≫= owner_) as [i|]; [|done]. injection Hst as <-. by apply (onLoop_same i Hold).
  - case_bool_decide; [|done]. injection Hst as <-. by apply (onLoop_same i Release).
Qed.
Lemma ShrinkIO_live s n : loops_ok s -> live s <> [] -> live (ShrinkIO s n) <> [].
Proof.
  intros Hs Hl. unfold ShrinkIO. destruct (Nat.leb_spec (length (live s)) 1); [done|]. set (k := Nat.min _ _). assert (Hk : (k < length (live s))%nat) by lia. clearbody k.
  set (sorted := merge_sort _ _). assert (Hp : sorted ≡ₚ live s) by apply merge_sort_Permutation. set (s1 := { s with ioThreads_ := _ }). set (s2 := foldl _ s1 _).
  assert (Hsm : same_loops s1 s2) by (apply foldl_same; intros; apply planPost_same). rewrite (live_shape _ _ (proj1 Hsm)).
  assert (Hv : take k sorted ⊆+ live s) by (rewrite <- Hp; apply sublist_submseteq, sublist_take). pose proof (retired_size s _ Hv Hs) as E.
  intros E0. change (live { s with ioThreads_ := _ }) with (live s1) in E. rewrite E0, length_take in E. cbn in E. lia.
Qed.
Lemma step_live e w w' : acct [] w -> live (srv w) <> [] -> step e w = Some w' -> live (srv w') <> [].
Proof.
  intros Hac Hl Hst. pose proof (ac_loops _ _ Hac) as Hs. destruct (tunes e) eqn:Et; [|by rewrite (live_shape _ _ (proj1 (step_same _ _ _ Et Hst)))].
  destruct e as [| | | | | | |n|n|]; try done; injection Hst as <-.
  - change (live (GrowIO (srv w) n) <> []). unfold GrowIO. rewrite (live_shape _ _ (proj1 (rebalance_same _))).
    destruct (addIOThreads_ok (Z.to_nat n) _ Hs) as [_ E]. intros E0. rewrite E0 in E. destruct (live (srv w)); done.
  - by apply (ShrinkIO_live (srv w) n).
  - change (live (ReapIO (srv w)) <> []). by rewrite (proj2 (ReapIO_size _ Hs)).
Qed.
Lemma leastOf_Some s l : l <> [] -> exists b, leastOf s l = Some b.
Proof.
  intros Hl. unfold leastOf. destruct l as [|i l]; [done|]. cbn [foldl]. generalize i. induction l as [|j l IH]; intros b; [by exists b|]. cbn [foldl].
  destruct (_ <? _); [apply IH; done|apply IH; done].
Qed.
Lemma owner_sum w c k : acct [] w -> cs w !! c = Some k -> sumOf (fun t => occ c (conns t)) (ioThreads_ (srv w)) = b2z (owner_ k <> None).
Proof.
  intros Hac Hc. rewrite (sumOf_ext _ (fun t => ownerIs w c (lid t))) by (intros t Ht; by apply (ac_conns _ _ Hac)).
  rewrite <- (sumOf_fmap (ownerIs w c) lid). unfold ownerIs. rewrite Hc. cbn. destruct (owner_ k) as [o|] eqn:Ho.
  - rewrite (sumOf_single _ _ o); [by rewrite !b2z_true by done|apply (ac_loops _ _ Hac)| |intros i _ Hi; rewrite b2z_false; congruence].
    apply (referred []); [done|]. right. right. exists c. unfold ownerIs. rewrite Hc. cbn. by rewrite Ho, b2z_true.
  - rewrite (b2z_false (None <> None)) by tauto. apply sumOf_0, Forall_forall. intros i _. by rewrite b2z_false.
Qed.

(** C13: However accepts, closes, migrations and the tuner's growing, retiring, levelling
    and stopping of loops interleave, an open connection is never lost or duplicated: it
    is on exactly one loop that has not been stopped, or in exactly one such loop's
    mailbox to be attached; and there is always a loop in service for the next accept. *)
Theorem connections_kept n w : (0 < n)%nat -> reaches (startWorld n) w ->
  (forall c k, cs w !! c = Some k -> closing_ k = false ->
    sumOf (fun t => occ c (conns t)) (ioThreads_ (srv w)) + sumOf (fun t => occ (MAttach c) (mail t)) (ioThreads_ (srv w)) = 1) /\
  exists b, (pickIOThread (srv w)).1 = Some b.
Proof.
  intros Hn Hr. split.
  - intros c k Hc Hcl. pose proof (acct_reaches _ _ Hr) as Hac. pose proof (ac_attach _ _ Hac c) as Ha. rewrite occ_nil in Ha. unfold attachRefs in Ha.
    rewrite (owner_sum _ _ _ Hac Hc). unfold transit in Ha. rewrite Hc in Ha. cbn [fmap option_fmap option_map] in Ha. unfold between in Ha. rewrite Hcl in Ha. cbn in Ha.
    destruct (owner_ k) as [o|]; cbn in Ha; [rewrite b2z_true by done; rewrite b2z_false in Ha by done|rewrite b2z_false by tauto; rewrite b2z_true in Ha by done]; lia.
  - assert (Hl : live (srv w) <> []).
    { induction Hr as [|w w' e Hr IH Hst]; [|by eapply step_live; [eapply acct_reaches| |]]. destruct (addIOThreads_ok n (mkServer [] 0 [])) as [_ E]; [by split; constructor|].
      intros E0. unfold startWorld in E0. cbn [srv] in E0. rewrite E0 in E. cbn in E. lia. }
    unfold pickIOThread. destruct (leastOf_Some (srv w) _ Hl) as [b ->]. by exists b.
Qed.

(** C14: A loop that the tuner stops is out of use: no connection is on it or on its way
    to it, no accept or plan anywhere holds a reservation for it, no durable write will be
    answered through it, and its mailbox holds no connection. *)
Theorem stopped_loop_unused n w w' t : reaches (startWorld n) w -> step EReap w = Some w' ->
  t ∈ ioThreads_ (srv w) -> lid t ∉ (lid <$> ioThreads_ (srv w')) ->
  conns t = [] /\ (forall c k, cs w !! c = Some k -> owner_ k <> Some (lid t) /\ migrateTarget_ k <> Some (lid t)) /\
  lid t ∉ hand w /\ lid t ∉ held w /\ Forall isPlan (mail t) /\
  forall t2 ds, t2 ∈ ioThreads_ (srv w) -> MPlan ds ∈ mail t2 -> lid t ∉ ds.
Proof.
  intros Hr Hst Ht Hg. pose proof (acct_reaches _ _ Hr) as Hac. assert (Hn : reapOne t = None).
  { assert (El : lid t ∉ (lid <$> omap reapOne (ioThreads_ (srv w)))).
    { injection Hst as <-. rewrite <- (reap_lids (srv w)). exact Hg. }
    destruct (reapOne t) as [t'|] eqn:E; [|done]. destruct El. rewrite <- (proj1 (reapOne_facts _ _ E)). apply list_elem_of_fmap_2, list_elem_of_omap. eauto. }
  destruct w as [s c0 h0 hd]. destruct (reaped_free c0 h0 hd s t Hac Ht Hn) as (F1 & F2 & F3 & F4). set (w := mkWorld s c0 h0 hd) in *.
  destruct (refs_split w (lid t)) as [R1 R2]. split.
  { destruct (conns t) as [|c l] eqn:Ec; [done|]. pose proof (ac_conns _ _ Hac t c Ht) as E. rewrite F3, Ec, occ_cons, b2z_true in E by done. pose proof (occ_pos c l). lia. }
  split.
  { intros c k Hc. split; intros E.
    - specialize (F3 c). unfold ownerIs in F3. rewrite Hc in F3. cbn in F3. by rewrite E, b2z_true in F3.
    - specialize (R2 c k Hc). unfold targetRef in R2. rewrite E, b2z_true in R2 by done. lia. }
  split; [rewrite occ_elem; lia|]. split; [rewrite occ_elem; cbn; lia|]. split; [done|].
  intros t2 ds Ht2 Hm Hi%occ_elem. pose proof (mailRefs_refs w (lid t) t2 Ht2). pose proof (sumOf_member (mailRef (lid t) (lid t2)) (mail t2) (MPlan ds) (fun m => mailRef_pos _ _ m) Hm) as H2.
  cbn in H2. unfold mailRefs in *. lia.
Qed.
