(* ===== verification/IOExamples.v ===== *)
(** * Runs of the IO threads

    Concrete runs of [IOThreads]: the theorems at work, and a reservation that is
    never given back. *)
From stdpp Require Import prelude list.
From Stdlib Require Import ZArith Lia.
From S2P Require Import Prelude ElasticPool IOPool IOLevel IOThreads IOAcct IOEvents IOTune.
Open Scope Z_scope.

Fixpoint run (es : list event) (w : World) : World :=
  match es with
  | [] => w
  | e :: es => match step e w with Some w' => run es w' | None => w end
  end.
Lemma run_reaches es w0 w : reaches w0 w -> reaches w0 (run es w).
Proof.
  revert w. induction es as [|e es IH]; intros w Hr; [done|]. cbn. destruct (step e w) as [w'|] eqn:E; [|done]. apply IH. by eapply reaches_step.
Qed.

(** Two loops with a connection each. *)
Definition accepted : World := run [EPick; EPost 0; EPick; EPost 1; ERun 0; ERun 1] (startWorld 2).
(** The first is retired, its connection moves to the second, and one tick has passed. *)
Definition drained : World := run [EShrink 1; ERun 0; EFinish 0; ERun 1; EReap] accepted.

Lemma connections_kept_witness :
  sumOf (fun t => occ 0%nat (conns t)) (ioThreads_ (srv drained)) + sumOf (fun t => occ (MAttach 0) (mail t)) (ioThreads_ (srv drained)) = 1.
Proof.
  apply (proj1 (connections_kept 2 drained ltac:(lia) (run_reaches _ _ _ (run_reaches _ _ _ (reaches_refl _)))) 0%nat (mkConn false false None (Some 1%nat))); vm_compute; reflexivity.
Defined.
Lemma stopped_loop_unused_witness : (lid <$> ioThreads_ (srv drained)) = [0; 1]%nat /\ (lid <$> ioThreads_ (ReapIO (srv drained))) = [1]%nat /\
  forall t, findLoop 0 (srv drained) = Some t -> conns t = [].
Proof.
  split; [vm_compute; reflexivity|]. split; [vm_compute; reflexivity|]. intros t Ht. destruct (findLoop_lid _ _ _ Ht) as [El Hin].
  apply (stopped_loop_unused 2 drained (onSrv ReapIO drained) t (run_reaches _ _ _ (run_reaches _ _ _ (reaches_refl _))) eq_refl Hin).
  rewrite El. vm_compute. intros H. repeat (inversion H as [|? ? ? H1]; subst; clear H; rename H1 into H).
Defined.

(** Six connections on the first of three loops. *)
Definition crowded : Server :=
  srv (run [EPick; EPost 0; EPick; EPost 0; EPick; EPost 0; EPick; EPost 0; EPick; EPost 0; EPick; EPost 0] (startWorld 1)).
Definition widened : Server := Nat.iter 2 addIOThread crowded.
Lemma rebalance_levels_witness : (loadOf widened <$> live widened) = [6; 0; 0] /\ (afterMoves widened <$> live widened) = [2; 2; 2] /\
  afterMoves widened 0 - afterMoves widened 2 <= 1.
Proof.
  split; [vm_compute; reflexivity|]. split; [vm_compute; reflexivity|]. apply rebalance_levels.
  - apply (addIOThreads_ok 2 crowded). split; [|vm_compute; repeat constructor]. vm_compute. repeat constructor. by intros ?%elem_of_nil.
  - vm_compute. left.
  - vm_compute. right. right. left.
Defined.

