(* ===== verification/Tuner.v ===== *)
(** * The thread tuner (tuner.h, tuner.cc)

    [ThreadTuner] changes one pool at a time, measures, and keeps or undoes the
    change.  [decide] is one decision window with its throughput; [sample] is one
    sampling tick.  Left out: [run]'s clock and thread, and what is only printed
    ([lastAction], the log lines, [ToJson]).  Window counters are not wrapped. *)
From stdpp Require Import prelude list.
From Stdlib Require Import ZArith Lia.
From coqutil Require Import Datatypes.RecordSettersUsingExistingGetters.
From S2P Require Import Prelude Double ElasticPool.
Open Scope Z_scope.

Record TunerConfig := mkTunerConfig {
  samplesPerDecision : Z;
  highBusy : double;
  minGain : double;
  maxLoss : double;
  growFloor : double;
  shrinkFloor : double;
  peggedBusy : double;
  idleBusy : double;
  rampBusy : double;
  rampAfterKept : Z;
  settleWindows : Z;
  measureWindows : Z;
  smallStepMeasureWindows : Z;
  maxSettleWindows : Z;
  firstBackoffWindows : Z;
  maxBackoffWindows : Z;
  loadChangeTput : double;
  loadChangeBusy : double;
}.
Definition defaultTunerConfig : TunerConfig :=
  mkTunerConfig 8 (lit 80 2) (lit 1 2) (lit 5 3) (lit 6 3) (lit 3 3) (lit 95 2) (lit 2 2) (lit 90 2) 2 1 2 4 15 8 256 (lit 10 2) (lit 15 2).

Record Bounds := mkBounds { bmin : Z; bmax : Z }.
Inductive Trial := TrialNone | TrialGrow | TrialShrink.
#[global] Instance Trial_eq_dec : EqDecision Trial.
Proof. solve_decision. Defined.

Record Direction := mkDirection {
  cap : Z;
  backoff : Z;
  nextBackoff : Z;
  tputAtFail : double;
  busyAtFail : double;
  keptStreak : Z;
  lastGained : bool;
  streakRef : double;
}.
Definition newDirection : Direction := mkDirection 0 0 0 d0 d0 0 false d0.

Record PoolState (P : Type) := mkPoolState {
  pool : P;
  bounds : Bounds;
  busySum : double;
  busyMaxSeen : double;
  batchSum : double;
  waitSum : double;
  samples : Z;
  lastS : PoolSample;
  trial : Trial;
  sizeBefore : Z;
  refTput : double;
  refSlope : double;
  refSpan : Z;
  busyBefore : double;
  shrinkScale : double;
  lastTrialGrew : bool;
  measure : Z;
  noise : double;
  tputWindows : list double;
  windowsSinceChange : Z;
  settledWindows : Z;
  grow : Direction;
  shrink : Direction;
  changes : Z;
  reverts : Z;
}.
Arguments mkPoolState {P}. Arguments pool {P}. Arguments bounds {P}. Arguments busySum {P}. Arguments busyMaxSeen {P}.
Arguments batchSum {P}. Arguments waitSum {P}. Arguments samples {P}. Arguments lastS {P}. Arguments trial {P}.
Arguments sizeBefore {P}. Arguments refTput {P}. Arguments refSlope {P}. Arguments refSpan {P}. Arguments busyBefore {P}.
Arguments shrinkScale {P}. Arguments lastTrialGrew {P}. Arguments measure {P}. Arguments noise {P}. Arguments tputWindows {P}.
Arguments windowsSinceChange {P}. Arguments settledWindows {P}. Arguments grow {P}. Arguments shrink {P}.
Arguments changes {P}. Arguments reverts {P}.

Record ThreadTuner (P : Type) := mkThreadTuner {
  pools_ : list (PoolState P);
  nextPool_ : Z;
  lastTput_ : double;
  steadyRecent_ : list double;
  steadyBest_ : double;
  steadyLowDecisions_ : Z;
  stepLow_ : Z;
  measuredNoise_ : double;
  steadySinceChange_ : Z;
}.
Arguments mkThreadTuner {P}. Arguments pools_ {P}. Arguments nextPool_ {P}. Arguments lastTput_ {P}. Arguments steadyRecent_ {P}.
Arguments steadyBest_ {P}. Arguments steadyLowDecisions_ {P}. Arguments stepLow_ {P}. Arguments measuredNoise_ {P}. Arguments steadySinceChange_ {P}.

Definition kSteadyHistory : nat := 16.
Definition kLevelWindows : Z := 4.

Section tuner.
Context {P : Type} `{EP : ElasticPool P} (cfg : TunerConfig).
(** What converting a double to [size_t] gives outside its range. *)
Context (junk : double -> Z).
Abbreviation tuner := (ThreadTuner P).
Abbreviation pstate := (PoolState P).

Definition newTuner : tuner := mkThreadTuner [] 0 d0 [] d0 0 0 (lit (-1) 0) 0.
Definition AddPool (t : tuner) (p : P) (b : Bounds) : tuner :=
  { t with pools_ := pools_ t ++ [mkPoolState p b d0 d0 d0 d0 0 noSample TrialNone 0 d0 d0 0 d0 d1 false 0 d0 [] 0 0 newDirection newDirection 0 0] }.

(** ** Sampling *)
Definition sampleOnePool (wallSec : double) (ps : pstate) : pstate :=
  let '(p, s) := Sample (Reap (pool ps)) wallSec in
  { ps with pool := p; busySum := (busySum ps + busyMean s)%D; busyMaxSeen := d_max (busyMaxSeen ps) (busyMax s);
            batchSum := (batchSum ps + avgBatch s)%D; waitSum := (waitSum ps + waitUs s)%D; samples := samples ps + 1;
            lastS := { lastS ps with ps_size := ps_size s } }.
Definition sample (t : tuner) (wallSec : double) : tuner := { t with pools_ := sampleOnePool wallSec <$> pools_ t }.

(** ** Estimates *)
Definition roundToStep (n step : Z) : Z := if 0 <? step then n / step * step else n.

Definition steadyLevel (t : tuner) (n : Z) : double :=
  match steadyRecent_ t with
  | [] => lastTput_ t
  | w => let k := Nat.min (Z.to_nat (Z.max n 1)) (length w) in median (drop (length w - k) w)
  end.

(** One point of the least-squares sums, at [x]. *)
Definition slopeAdd (acc : double * double * double * double * Z) (y : double) : double * double * double * double * Z :=
  let '(sx, sy, sxx, sxy, i) := acc in
  let x := dZ i in (sx + x, sy + y, sxx + x * x, sxy + x * y, (i + 1)%Z)%D.
Definition steadySlope (t : tuner) (n0 : Z) : double :=
  let n := Z.min (Z.min n0 (Z.of_nat (length (steadyRecent_ t)))) (steadySinceChange_ t) in
  if n <? 4 then d0
  else
    let w := drop (length (steadyRecent_ t) - Z.to_nat n) (steadyRecent_ t) in
    let '(sx, sy, sxx, sxy, _) := foldl slopeAdd (d0, d0, d0, d0, 0) w in
    let den := (dZ n * sxx - sx * sx)%D in
    let mean := (sy / dZ n)%D in
    if d_le den d0 || d_le mean d0 then d0 else ((dZ n * sxy - sx * sy) / den / mean)%D.

Definition cv (w : list double) : double :=
  if (length w <? 3)%nat then d0
  else
    let n := dZ (Z.of_nat (length w)) in
    let mean := (d_sum w / n)%D in
    if d_le mean d0 then d0
    else let var := foldl (fun v x => v + (x - mean) * (x - mean))%D d0 w in (d_sqrt (var / n) / mean)%D.

Definition steadyNoise (t : tuner) : double :=
  if d_le d0 (measuredNoise_ t) then measuredNoise_ t else cv (steadyRecent_ t).

Definition tolerance (ps : pstate) : double :=
  let n := if 0 <? measure ps then dZ (measure ps) else d1 in (noise ps / d_sqrt n)%D.

Definition hasMomentum (ps : pstate) : bool :=
  match trial ps with
  | TrialNone =>
      let size := Size (pool ps) in
      if lastTrialGrew ps
      then lastGained (grow ps) && (backoff (grow ps) =? 0) && (size <? bmax (bounds ps))
      else lastGained (shrink ps) && (backoff (shrink ps) =? 0) && (bmin (bounds ps) <? size)
  | _ => false
  end.
Definition rampingUp (t : tuner) : bool :=
  existsb (fun ps => (bool_decide (trial ps = TrialNone) && (backoff (grow ps) =? 0) && (rampAfterKept cfg <=? keptStreak (grow ps)) &&
                      d_le (rampBusy cfg) (busyMean (lastS ps)) && (Size (pool ps) <? bmax (bounds ps))) || hasMomentum ps) (pools_ t).

(** ** The steady history *)
Definition noteSteady (t : tuner) (tput : double) : tuner :=
  let deep := bool_decide (steadyRecent_ t <> []) && d_lt tput (lit 5 1 * steadyLevel t kLevelWindows)%D in
  let low := if deep then stepLow_ t + 1 else 0 in
  let forget := d_le tput d0 || (2 <=? low) in
  let recent := if forget then [] else steadyRecent_ t in
  let '(recent', since) := if d_lt d0 tput then (recent ++ [tput], steadySinceChange_ t + 1) else (recent, steadySinceChange_ t) in
  let recent'' := if (kSteadyHistory <? length recent')%nat then drop 1 recent' else recent' in
  let t1 := { t with steadyRecent_ := recent''; stepLow_ := if forget then 0 else low; steadySinceChange_ := since } in
  if (Z.to_nat kLevelWindows <=? length recent'')%nat then
    let level := steadyLevel t1 kLevelWindows in
    if d_lt (steadyBest_ t1) level then { t1 with steadyBest_ := level; steadyLowDecisions_ := 0 }
    else if d_lt level (steadyBest_ t1 * (d1 - dZ 2 * minGain cfg))%D then
      if 3 <=? steadyLowDecisions_ t1 + 1 then { t1 with steadyBest_ := level; steadyLowDecisions_ := 0 }
      else { t1 with steadyLowDecisions_ := steadyLowDecisions_ t1 + 1 }
    else t1
  else t1.

(** ** Closing a window *)
Definition countDown (ps : pstate) (tput : double) (steady : bool) (d : Direction) : Direction :=
  if backoff d =? 0 then d
  else
    let moved := (d_lt d0 (tputAtFail d) && d_lt (loadChangeTput cfg) (d_abs (tput - tputAtFail d) / tputAtFail d)%D) ||
                 d_lt (loadChangeBusy cfg) (d_abs (busyMean (lastS ps) - busyAtFail d))%D in
    if steady && (2 <=? windowsSinceChange ps) && moved then { d with backoff := 0; nextBackoff := 0 }
    else { d with backoff := backoff d - 1 }.
(** The window's averages, and its accumulators reset. *)
Definition windowAverages (ps : pstate) : PoolSample :=
  let n := dZ (samples ps) in
  if 0 <? samples ps
  then { lastS ps with busyMean := (busySum ps / n)%D; busyMax := busyMaxSeen ps; avgBatch := (batchSum ps / n)%D; waitUs := (waitSum ps / n)%D }
  else lastS ps.
Definition endSamples (ps : pstate) : pstate :=
  { ps with lastS := windowAverages ps; busySum := d0; busyMaxSeen := d0; batchSum := d0; waitSum := d0; samples := 0;
            windowsSinceChange := windowsSinceChange ps + 1 }.
Definition closeWindow (tput : double) (steady : bool) (ps0 : pstate) : pstate :=
  let ps := endSamples ps0 in
  { ps with grow := countDown ps tput steady (grow ps); shrink := countDown ps tput steady (shrink ps) }.

(** ** Starting a trial *)
Definition probeShrink (ps : pstate) (size : Z) (busy : double) : bool :=
  d_lt (highBusy cfg) busy && lastTrialGrew ps && negb (lastGained (grow ps)) && (backoff (shrink ps) =? 0) && (bmin (bounds ps) <? size).
Definition wantGrow (ps : pstate) (size : Z) (busy : double) : bool :=
  negb (probeShrink ps size busy) && d_lt (highBusy cfg) busy && (backoff (grow ps) =? 0) && (size <? bmax (bounds ps)).
Definition wantShrink (ps : pstate) (size : Z) (busy : double) : bool :=
  negb (wantGrow ps size busy) && (backoff (shrink ps) =? 0) && (bmin (bounds ps) <? size) &&
  (d_le busy (highBusy cfg) || (0 <? backoff (grow ps)) || probeShrink ps size busy).

(** A quarter of the pool, more for a pool that keeps every step, at most the cap. *)
Definition stepSize (dir : Direction) (growing : bool) (size step : Z) (busy : double) : Z :=
  let n := Z.max step (roundToStep (size / 4) step) in
  let n := if (rampAfterKept cfg <=? keptStreak dir) && (if growing then d_le (rampBusy cfg) busy else lastGained dir)
           then let mult := if growing && (rampAfterKept cfg + 1 <=? keptStreak dir) then 4 else 2 in
                Z.max n (roundToStep (size / 4 * mult) step)
           else n in
  if 0 <? cap dir then Z.min n (cap dir) else n.

(** Whether a shrink by [n] is projected to ask for threads again. *)
Definition tooBusy (b : double) (size n : Z) : bool := d_le (highBusy cfg) (b * dZ size / dZ (u64 (size - n)))%D.
Fixpoint shrinkFit (fuel : nat) (b : double) (size step n : Z) : Z :=
  match fuel with
  | O => n
  | S k => if (step <? n) && tooBusy b size n then shrinkFit k b size step (n - step) else n
  end.

(** The change a pool is offered: its direction and size. *)
Definition offer (ps : pstate) : option (bool * Z) :=
  let size := Size (pool ps) in
  let step := stepOf (pool ps) in
  let busy := busyMean (lastS ps) in
  if wantGrow ps size busy then
    let n := Z.min (stepSize (grow ps) true size step busy) (bmax (bounds ps) - size) in
    if n =? 0 then None else Some (true, n)
  else if wantShrink ps size busy then
    let dir := shrink ps in
    let n := Z.min (stepSize dir false size step busy) (size - bmin (bounds ps)) in
    let n := if d_le (peggedBusy cfg) busy && negb (lastGained dir) then Z.min n (roundToStep (size / 4) step) else n in
    if (backoff (grow ps) =? 0) && negb (lastGained dir) && negb (probeShrink ps size busy) then
      let b := (busy * shrinkScale ps)%D in
      let n := shrinkFit (Z.to_nat n) b size step n in
      if tooBusy b size n then None else if n =? 0 then None else Some (false, n)
    else if n =? 0 then None else Some (false, n)
  else None.

Definition measureFor (noise : double) (n size : Z) : Z :=
  let m := if d_lt (dZ n / dZ size)%D (dZ 2 * minGain cfg)%D then smallStepMeasureWindows cfg else measureWindows cfg in
  if d_lt (minGain cfg) noise then
    let q := (noise / minGain cfg)%D in
    Z.min 8 (Z.max m (castTo 0 (2 ^ 64 - 1) (u64 (junk q)) (d_ceil q)))
  else m.

Definition startTrial (t : tuner) (ps : pstate) : option pstate :=
  match offer ps with
  | None => None
  | Some (growing, n) =>
      let size := Size (pool ps) in
      let noise' := steadyNoise t in
      let m := measureFor noise' n size in
      let span := Z.max m kLevelWindows in
      Some { ps with trial := if growing then TrialGrow else TrialShrink; sizeBefore := size; noise := noise'; measure := m;
                     refSlope := steadySlope t (Z.max span (2 * kLevelWindows)); refSpan := span; refTput := steadyLevel t span;
                     busyBefore := busyMean (lastS ps); tputWindows := []; windowsSinceChange := 0; settledWindows := 0;
                     changes := changes ps + 1; pool := if growing then Grow (pool ps) n else Shrink (pool ps) n }
  end.

(** ** The verdict *)
Definition gainMargin (ps : pstate) : double := d_max (growFloor cfg) (dZ 2 * d_sqrt (dZ 2) * tolerance ps)%D.
Definition expectedTput (ps : pstate) : double :=
  let offset := (dZ (refSpan ps) / dZ 2 + dZ (windowsSinceChange ps) - dZ (Z.of_nat (length (tputWindows ps))) / dZ 2)%D in
  (refTput ps * d_clamp (d1 + refSlope ps * offset) (lit 8 1) (lit 12 1))%D.
Definition verdictRatio (ps : pstate) (tput : double) : double :=
  let expected := expectedTput ps in if d_lt d0 expected then (tput / expected)%D else d1.
Definition keepTrial (ps : pstate) (grew : bool) (tput : double) : bool :=
  let ratio := verdictRatio ps tput in
  let ref := streakRef (if grew then grow ps else shrink ps) in
  let streakRatio := if d_lt d0 ref then (tput / ref)%D else d1 in
  if d_eq (refTput ps) d0 then negb grew
  else if negb grew && d_lt (busyBefore ps) (idleBusy cfg) then true
  else if grew then d_le (d1 + gainMargin ps)%D ratio
  else
    let allow := d_max (shrinkFloor cfg) (d_min (d_sqrt (dZ 2) * tolerance ps)%D (lit 2 2)) in
    d_le (d1 - allow)%D ratio && d_le (d1 - allow)%D streakRatio.

(** The direction's retry state after a verdict on a change by [delta]. *)
Definition keptDir (ps : pstate) (gained : bool) (d : Direction) : Direction :=
  { d with lastGained := gained; cap := 0; nextBackoff := 0; streakRef := (if keptStreak d =? 0 then refTput ps else streakRef d); keptStreak := keptStreak d + 1 }.
Definition failedDir (ps : pstate) (delta step : Z) (d : Direction) : Direction :=
  let d := { d with lastGained := false; keptStreak := 0; streakRef := d0 } in
  if step <? delta then { d with cap := Z.max step (roundToStep (delta / 2) step) }
  else
    let nb := if nextBackoff d =? 0 then firstBackoffWindows cfg else nextBackoff d in
    { d with cap := step; backoff := nb; nextBackoff := Z.min (nb * 2) (maxBackoffWindows cfg); tputAtFail := refTput ps; busyAtFail := busyBefore ps }.

Definition setDir (ps : pstate) (grew : bool) (d : Direction) : pstate := if grew then { ps with grow := d } else { ps with shrink := d }.
Definition learnScale (ps : pstate) (size : Z) (keep grew : bool) : double :=
  let projected := (busyBefore ps * dZ (sizeBefore ps) / dZ size)%D in
  if keep && negb grew && d_le (idleBusy cfg) (busyBefore ps) && (0 <? size) && d_lt d0 projected
  then (lit 5 1 * shrinkScale ps + lit 5 1 * d_clamp (busyMean (lastS ps) / projected) (lit 1 1) d1)%D else shrinkScale ps.
(** The change of the pool in trial, undone. *)
Definition undo (ps : pstate) : P :=
  let size := Size (pool ps) in
  match trial ps with
  | TrialGrow => Shrink (pool ps) (u64 (size - sizeBefore ps))
  | _ => Grow (pool ps) (u64 (sizeBefore ps - size))
  end.
Definition judgePool (ps : pstate) (tput : double) : pstate :=
  let size := Size (pool ps) in
  let step := stepOf (pool ps) in
  let grew := bool_decide (trial ps = TrialGrow) in
  let delta := u64 (if grew then size - sizeBefore ps else sizeBefore ps - size) in
  let keep := keepTrial ps grew tput in
  let dir := if grew then grow ps else shrink ps in
  let ps' := { setDir ps grew (if keep then keptDir ps (d_le (d1 + gainMargin ps)%D (verdictRatio ps tput)) dir else failedDir ps delta step dir)
               with shrinkScale := learnScale ps size keep grew; lastTrialGrew := grew; trial := TrialNone; windowsSinceChange := 0 } in
  if keep then ps' else { ps' with reverts := reverts ps + 1; pool := undo ps }.

Definition putPool (t : tuner) (i : nat) (ps : pstate) : tuner := { t with pools_ := <[i := ps]> (pools_ t) }.
Definition judge (t : tuner) (i : nat) (ps : pstate) (tput : double) : tuner :=
  let t' := putPool t i (judgePool ps tput) in
  { t' with measuredNoise_ := (if (3 <=? length (tputWindows ps))%nat then cv (tputWindows ps) else measuredNoise_ t); steadySinceChange_ := 0 }.

(** ** One decision window *)
Definition trialWindow (t : tuner) (i : nat) (ps : pstate) (tput : double) : tuner :=
  if (settledWindows ps =? 0) && negb (Settled (pool ps)) && (windowsSinceChange ps <? maxSettleWindows cfg) then t
  else if d_le tput d0 then
    let ps0 := { ps with tputWindows := []; settledWindows := 0 } in
    if maxSettleWindows cfg <? windowsSinceChange ps
    then putPool t i { ps0 with pool := undo ps; trial := TrialNone; windowsSinceChange := 0 }
    else putPool t i ps0
  else
    let ps1 := { ps with settledWindows := settledWindows ps + 1 } in
    if settleWindows cfg <? settledWindows ps1 then
      let ps2 := { ps1 with tputWindows := tputWindows ps ++ [tput] } in
      if measure ps <=? Z.of_nat (length (tputWindows ps2)) then judge t i ps2 (median (tputWindows ps2))
      else putPool t i ps2
    else putPool t i ps1.

(** Whether throughput is steady enough for a reference. *)
Definition baseline (t : tuner) : bool :=
  let w := steadyRecent_ t in
  if (length w <? Z.to_nat kLevelWindows)%nat then false
  else
    let a := nth (length w - 1) w d0 in
    let b := nth (length w - 2) w d0 in
    if d_lt d0 a && d_lt (d_max (minGain cfg) (steadyNoise t)) (d_abs (a - b) / a)%D then d_lt b a && rampingUp t else true.

(** The first pool in [order] that may and does start a trial. *)
Fixpoint firstStart (t : tuner) (may : pstate -> bool) (order : list nat) : option (nat * pstate) :=
  match order with
  | [] => None
  | i :: order =>
      match pools_ t !! i ≫= (fun ps => if may ps then startTrial t ps else None) with
      | Some ps' => Some (i, ps')
      | None => firstStart t may order
      end
  end.
Definition startPass (t : tuner) : tuner :=
  let n := length (pools_ t) in
  let turns := (fun i => (Z.to_nat (nextPool_ t) + i) mod n)%nat <$> seq 0 n in
  match firstStart t (fun ps => hasMomentum ps && (1 <=? windowsSinceChange ps)) (seq 0 n) with
  | Some (i, ps') => putPool t i ps'
  | None =>
      match firstStart t (fun ps => 2 <=? windowsSinceChange ps) turns with
      | Some (i, ps') => { putPool t i ps' with nextPool_ := Z.of_nat (S i mod n) }
      | None => t
      end
  end.

(** The steady history and every pool's averages, brought up to the window. *)
Definition isSteady (t : tuner) : bool := forallb (fun ps => bool_decide (trial ps = TrialNone)) (pools_ t).
Definition closeWindows (t : tuner) (tput : double) : tuner :=
  let steady := isSteady t in
  let t1 := if steady then noteSteady t tput else t in
  { t1 with pools_ := closeWindow tput steady <$> pools_ t1 }.
Definition decide_ (t : tuner) (tput : double) : tuner :=
  let t2 := closeWindows t tput in
  match list_find (fun ps => trial ps <> TrialNone) (pools_ t2) with
  | Some (i, ps) => trialWindow t2 i ps tput
  | None => if baseline t2 then startPass t2 else t2
  end.

(** The end of a window in [run]: [ops] operations in [sec] seconds. *)
Definition endWindow (t : tuner) (ops : Z) (sec : double) : tuner :=
  let tput := if d_lt d0 sec then (dZ (u64 ops) / sec)%D else d0 in
  decide_ { t with lastTput_ := tput } tput.
End tuner.
