(* ===== verification/TunerInv.v ===== *)
(** * What the thread tuner keeps (tuner.h, tuner.cc)

    For pools that satisfy [ElasticPoolLaws] and bounds in whole steps: sizes stay
    within their bounds, at most one trial is in flight, a window changes at most
    one pool, an undone trial restores the size it started from, and a trial ends
    within [trialWindows] windows whatever the load and the pools do. *)
From stdpp Require Import prelude list.
From Stdlib Require Import ZArith Lia.
From coqutil Require Import Datatypes.RecordSettersUsingExistingGetters.
From S2P Require Import Prelude Double ElasticPool Tuner.
Open Scope Z_scope.

Create HintDb steps.
Lemma divide_min d a b : (d | a) -> (d | b) -> (d | Z.min a b).
Proof. by destruct (Z.min_spec a b) as [[_ ->]|[_ ->]]. Qed.
Lemma divide_max d a b : (d | a) -> (d | b) -> (d | Z.max a b).
Proof. by destruct (Z.max_spec a b) as [[_ ->]|[_ ->]]. Qed.
Lemma divide_round d n : 0 < d -> (d | roundToStep n d).
Proof. intros Hd. unfold roundToStep. destruct (Z.ltb_spec 0 d); [apply Z.divide_factor_r|lia]. Qed.
Lemma roundToStep_bound n d : 0 < d -> 0 <= n -> 0 <= roundToStep n d <= n.
Proof. intros Hd Hn. unfold roundToStep. destruct (Z.ltb_spec 0 d); [|lia]. pose proof (Z.mul_div_le n d). pose proof (Z.div_pos n d). nia. Qed.
Lemma divide_if d (b : bool) x y : (d | x) -> (d | y) -> (d | if b then x else y).
Proof. by destruct b. Qed.
#[export] Hint Resolve divide_min divide_max divide_round divide_if Z.divide_add_r Z.divide_sub_r Z.divide_refl Z.divide_0_r : steps.

Section inv.
Context {P : Type} `{EL : ElasticPoolLaws P} (cfg : TunerConfig) (junk : double -> Z).
Abbreviation tuner := (ThreadTuner P).
Abbreviation pstate := (PoolState P).

Definition maxMeasure : Z := Z.max 8 (Z.max (smallStepMeasureWindows cfg) (measureWindows cfg)).
Definition trialWindows : Z := maxSettleWindows cfg + settleWindows cfg + maxMeasure.
Definition cfg_ok : Prop :=
  0 < measureWindows cfg /\ 0 < smallStepMeasureWindows cfg /\ 0 <= settleWindows cfg /\ 0 <= maxSettleWindows cfg /\
  0 < firstBackoffWindows cfg <= maxBackoffWindows cfg.

Record dir_ok (step : Z) (d : Direction) : Prop := {
  do_cap : 0 <= cap d /\ (step | cap d);
  do_backoff : 0 <= backoff d <= maxBackoffWindows cfg;
  do_next : 0 <= nextBackoff d <= maxBackoffWindows cfg;
}.
(** A pool whose size is a whole number of steps within its bounds. *)
Record sized (p : P) (b : Bounds) : Prop := {
  sz_inv : pool_inv p;
  sz_bounds : 0 < bmin b <= Size p /\ Size p <= bmax b < 2 ^ 64;
  sz_step : (stepOf p | Size p) /\ (stepOf p | bmin b) /\ (stepOf p | bmax b);
}.
(** The trial in flight: where it started, and how far it is; [k] is 1 between
    the end of a window and the trial's turn in it, and 2 while it is judged. *)
Record in_trial (k : Z) (ps : pstate) : Prop := {
  it_before : (stepOf (pool ps) | sizeBefore ps) /\
              match trial ps with
              | TrialGrow => bmin (bounds ps) <= sizeBefore ps < Size (pool ps)
              | _ => Size (pool ps) < sizeBefore ps <= bmax (bounds ps)
              end;
  it_windows : 0 <= settledWindows ps /\ 0 <= windowsSinceChange ps <= maxSettleWindows cfg + settledWindows ps + k;
  it_measure : Z.of_nat (length (tputWindows ps)) = Z.max 0 (settledWindows ps - settleWindows cfg) /\
               Z.of_nat (length (tputWindows ps)) < measure ps + Z.max 0 (k - 1) /\ measure ps <= maxMeasure;
}.
Record pool_ok (k : Z) (ps : pstate) : Prop := {
  po_sized : sized (pool ps) (bounds ps);
  po_grow : dir_ok (stepOf (pool ps)) (grow ps);
  po_shrink : dir_ok (stepOf (pool ps)) (shrink ps);
  po_trial : trial ps <> TrialNone -> in_trial k ps;
}.
Definition one_trial (l : list pstate) : Prop :=
  forall i j ps ps', l !! i = Some ps -> l !! j = Some ps' -> trial ps <> TrialNone -> trial ps' <> TrialNone -> i = j.
Record tuner_ok (t : tuner) : Prop := {
  to_pools : Forall (pool_ok 0) (pools_ t);
  to_one : one_trial (pools_ t);
  to_history : (length (steadyRecent_ t) <= kSteadyHistory)%nat /\ Forall (fun w => d_lt d0 w = true) (steadyRecent_ t);
  to_next : 0 <= nextPool_ t <= Z.of_nat (length (pools_ t));
}.

(** ** What [k] windows, at most one, may do to a pool *)
Definition moved (k : Z) (ps ps' : pstate) : Prop :=
  bounds ps' = bounds ps /\ Step (pool ps') = Step (pool ps) /\
  match trial ps, trial ps' with
  | TrialNone, TrialNone => pool ps' = pool ps
  | TrialNone, TrialGrow => sizeBefore ps' = Size (pool ps) /\ Size (pool ps) < Size (pool ps')
  | TrialNone, TrialShrink => sizeBefore ps' = Size (pool ps) /\ Size (pool ps') < Size (pool ps)
  | d, TrialNone => pool ps' = pool ps \/ Size (pool ps') = sizeBefore ps
  | d, d' => d' = d /\ pool ps' = pool ps /\ sizeBefore ps' = sizeBefore ps /\ windowsSinceChange ps' = windowsSinceChange ps + k
  end.
(** Only pool [i] moves. *)
Definition only_moves (i : nat) (l l' : list pstate) : Prop :=
  length l' = length l /\
  forall j ps ps', l !! j = Some ps -> l' !! j = Some ps' -> moved 1 ps ps' /\ (j <> i -> pool ps' = pool ps /\ trial ps' = trial ps).

(** ** Steps *)
Lemma stepOf_pos (p : P) : 0 < stepOf p.
Proof. unfold stepOf. lia. Qed.
Hint Resolve stepOf_pos : steps.

Lemma stepSize_ok d g size step busy : 0 < step -> 0 <= size -> dir_ok step d ->
  0 <= stepSize cfg d g size step busy /\ (step | stepSize cfg d g size step busy).
Proof.
  intros Hs Hz [[Hc0 Hc] _ _]. unfold stepSize. split; [|auto 10 with steps].
  repeat match goal with |- context [if ?b then _ else _] => destruct b end; lia.
Qed.
Lemma shrinkFit_ok fuel b size step n : 0 < step -> 0 <= n -> (step | n) ->
  0 <= shrinkFit cfg fuel b size step n <= n /\ (step | shrinkFit cfg fuel b size step n).
Proof.
  revert n. induction fuel as [|fuel IH]; intros n Hs Hn Hd; cbn; [split; [lia|done]|].
  destruct (Z.ltb_spec step n); cbn; [|split; [lia|done]]. destruct (tooBusy _ _ _ _); [|split; [lia|done]].
  destruct (IH (n - step)) as [? ?]; auto with steps; [lia|]. split; [lia|done].
Qed.
(** The guard's loop has run to its end: the step is the smallest, or fits. *)
Lemma shrinkFit_done fuel b size step n : 0 < step -> n <= Z.of_nat fuel ->
  let m := shrinkFit cfg fuel b size step n in m <= step \/ tooBusy cfg b size m = false.
Proof.
  revert n. induction fuel as [|fuel IH]; intros n Hs Hn; cbn -[Z.of_nat]; [lia|].
  destruct (Z.ltb_spec step n); cbn -[Z.of_nat]; [|lia]. destruct (tooBusy cfg b size n) eqn:E; [|auto].
  apply IH; lia.
Qed.

Lemma offer_ok k ps g n : pool_ok k ps -> offer cfg ps = Some (g, n) ->
  0 < n /\ (stepOf (pool ps) | n) /\ (if g then Size (pool ps) + n <= bmax (bounds ps) else bmin (bounds ps) <= Size (pool ps) - n).
Proof.
  intros [[_ Hb (Hs1 & Hs2 & Hs3)] Hg Hsh _]. unfold offer. pose proof (stepOf_pos (pool ps)) as Hp.
  assert (Hz : 0 <= Size (pool ps)) by lia. pose proof (fun d gr b => stepSize_ok d gr (Size (pool ps)) _ b Hp Hz) as Hss.
  destruct (wantGrow _ _ _ _) eqn:Eg.
  { unfold wantGrow in Eg. apply andb_prop in Eg as [_ Eg%Z.ltb_lt]. destruct (Z.eqb_spec (Z.min (stepSize cfg (grow ps) true (Size (pool ps)) (stepOf (pool ps)) (busyMean (lastS ps))) (bmax (bounds ps) - Size (pool ps))) 0); [done|].
    intros [= <- <-]. destruct (Hss (grow ps) true (busyMean (lastS ps)) Hg). split; [lia|]. split; [auto with steps|lia]. }
  destruct (wantShrink _ _ _ _) eqn:Es; [|done].
  set (n0 := Z.min (stepSize cfg (shrink ps) false _ _ _) _). 
  set (n1 := if d_le _ _ && _ then _ else _).
  assert (H1 : 0 <= n1 <= Size (pool ps) - bmin (bounds ps) /\ (stepOf (pool ps) | n1)).
  { destruct (Hss (shrink ps) false (busyMean (lastS ps)) Hsh). subst n1 n0. split; [|auto 10 with steps].
    pose proof (roundToStep_bound (Size (pool ps) / 4) _ Hp ltac:(apply Z.div_pos; lia)). destruct (_ && _); lia. }
  destruct (_ && negb (probeShrink _ _ _ _)).
  - destruct (shrinkFit_ok (Z.to_nat n1) (busyMean (lastS ps) * shrinkScale ps)%D (Size (pool ps)) _ n1 Hp ltac:(lia) ltac:(tauto)) as [? ?].
    destruct (tooBusy _ _ _ _); [done|]. destruct (Z.eqb_spec (shrinkFit cfg (Z.to_nat n1) (busyMean (lastS ps) * shrinkScale ps)%D (Size (pool ps)) (stepOf (pool ps)) n1) 0); [done|].
    intros [= <- <-]. split; [lia|]. split; [done|lia].
  - destruct (Z.eqb_spec n1 0); [done|]. intros [= <- <-]. split; [lia|]. split; [tauto|lia].
Qed.
(** ** A trial starts *)
Lemma measureFor_ok ns n size : cfg_ok -> 0 < measureFor cfg junk ns n size <= maxMeasure.
Proof.
  intros (H1 & H2 & _). unfold measureFor, maxMeasure. destruct (d_lt (dZ n / dZ size) _)%D; destruct (d_lt _ ns); lia.
Qed.
Lemma stepOf_step (p q : P) : Step p = Step q -> stepOf p = stepOf q.
Proof. unfold stepOf. by intros ->. Qed.
Lemma resize_sized p b g n : sized p b -> 0 < n -> (stepOf p | n) -> (if g : bool then Size p + n <= bmax b else bmin b <= Size p - n) ->
  let p' := if g then Grow p n else Shrink p n in
  sized p' b /\ Step p' = Step p /\ Size p' = (if g then Size p + n else Size p - n).
Proof.
  intros [Hi Hb (Hs1 & Hs2 & Hs3)] Hn Hd Hr. destruct g; cbn.
  - destruct (grow_step p n Hi Hn Hd) as [Hi' Hst]. pose proof (grow_size p n Hi Hn Hd) as Hz. split; [|done].
    split; rewrite ?Hz, ?(stepOf_step _ _ Hst); [done|lia|]. auto with steps.
  - assert (Hn' : 0 < n < Size p) by lia. destruct (shrink_step p n Hi Hn' Hd) as [Hi' Hst]. pose proof (shrink_size p n Hi Hn' Hd) as Hz. split; [|done].
    split; rewrite ?Hz, ?(stepOf_step _ _ Hst); [done|lia|]. auto with steps.
Qed.
Lemma startTrial_ok t k ps ps' : cfg_ok -> pool_ok k ps -> trial ps = TrialNone -> startTrial cfg junk t ps = Some ps' ->
  pool_ok 0 ps' /\ moved 0 ps ps' /\ trial ps' <> TrialNone.
Proof.
  intros Hc Hok Ht. unfold startTrial. destruct (offer cfg ps) as [[g n]|] eqn:Eo; [|done].
  destruct (offer_ok _ _ _ _ Hok Eo) as (Hn & Hd & Hr). destruct Hok as [Hsz Hg Hs _].
  destruct (resize_sized _ _ g n Hsz Hn Hd Hr) as (Hsz' & Hst & Hz). pose proof (measureFor_ok (steadyNoise t) n (Size (pool ps)) Hc) as Hm.
  destruct Hc as (_ & _ & Hc1 & Hc2 & _). destruct (sz_step _ _ Hsz) as (Hd1 & _). destruct (sz_bounds _ _ Hsz) as [Hb1 Hb2].
  intros [= <-]. split; [|split].
  - split; cbn -[Z.mul]; unfold const; rewrite ?(stepOf_step _ _ Hst); [done..|]. intros _.
    split; cbn -[Z.mul Z.of_nat]; unfold const; rewrite ?(stepOf_step _ _ Hst), ?Hz; [|lia|cbn; lia]. split; [done|]. destruct g; lia.
  - unfold moved. cbn. unfold const. rewrite Ht. split; [done|]. split; [done|]. rewrite Hz. destruct g; split; (done || lia).
  - cbn. unfold const. by destruct g.
Qed.

(** ** A trial ends *)
Lemma undo_ok k ps : pool_ok k ps -> trial ps <> TrialNone ->
  sized (undo ps) (bounds ps) /\ Step (undo ps) = Step (pool ps) /\ Size (undo ps) = sizeBefore ps.
Proof.
  intros [Hsz _ _ Ht] Hn. destruct (Ht Hn) as [[Hd Hb] _ _]. destruct (sz_step _ _ Hsz) as (Hd1 & _). destruct (sz_bounds _ _ Hsz) as [Hb1 Hb2].
  unfold undo. destruct (trial ps) eqn:Et; [done| |].
  - rewrite u64_small by lia. edestruct (resize_sized _ _ false (Size (pool ps) - sizeBefore ps) Hsz) as (? & ? & Hz); [lia|auto with steps|cbn; lia|].
    split; [done|]. split; [done|]. rewrite Hz. lia.
  - rewrite u64_small by lia. edestruct (resize_sized _ _ true (sizeBefore ps - Size (pool ps)) Hsz) as (? & ? & Hz); [lia|auto with steps|cbn; lia|].
    split; [done|]. split; [done|]. rewrite Hz. lia.
Qed.
Lemma keptDir_ok step (ps : pstate) g d : 0 <= maxBackoffWindows cfg -> dir_ok step d -> dir_ok step (keptDir ps g d).
Proof. intros Hm [_ Hb _]. split; cbn; unfold const; [split; [lia|apply Z.divide_0_r]|done|lia]. Qed.
Lemma failedDir_ok step (ps : pstate) delta d : cfg_ok -> 0 < step -> dir_ok step d -> dir_ok step (failedDir cfg ps delta step d).
Proof.
  intros (_ & _ & _ & _ & Hf) Hs [_ Hb Hn]. unfold failedDir. destruct (step <? delta).
  - split; cbn; unfold const; [|done..]. split; [lia|auto with steps].
  - split; cbn -[Z.mul Z.min]; unfold const; [split; [lia|auto with steps]|..]; destruct (Z.eqb_spec (nextBackoff d) 0); lia.
Qed.
Lemma judgePool_ok k ps tput : cfg_ok -> pool_ok k ps -> trial ps <> TrialNone ->
  pool_ok 0 (judgePool cfg ps tput) /\ moved 0 ps (judgePool cfg ps tput).
Proof.
  intros Hc Hok Ht. destruct (undo_ok _ _ Hok Ht) as (Hu1 & Hu2 & Hu3). destruct Hok as [Hsz Hg Hs _].
  pose proof (stepOf_pos (pool ps)) as Hp. assert (Hm : 0 <= maxBackoffWindows cfg) by (destruct Hc as (_ & _ & _ & _ & ?); lia).
  unfold judgePool, setDir, moved. destruct (bool_decide _); destruct (keepTrial _ _ _ _); cbn; unfold const;
    (split; [split; cbn; unfold const; rewrite ?(stepOf_step _ _ Hu2); auto using keptDir_ok, failedDir_ok; done|
             split; [done|]; split; [done|]; destruct (trial ps); auto; done]).
Qed.
(** ** A window *)
Lemma countDown_ok (ps : pstate) tput st step d : dir_ok step d -> dir_ok step (countDown cfg ps tput st d).
Proof.
  intros [Hc Hb Hn]. unfold countDown. destruct (Z.eqb_spec (backoff d) 0); [done|].
  destruct (_ && _); split; cbn -[Z.sub]; unfold const; (done || lia).
Qed.
(** What closing a window leaves alone. *)
Record same_trial (k : Z) (ps ps' : pstate) : Prop := {
  st_pool : pool ps' = pool ps;
  st_bounds : bounds ps' = bounds ps;
  st_trial : trial ps' = trial ps;
  st_before : sizeBefore ps' = sizeBefore ps;
  st_since : windowsSinceChange ps' = windowsSinceChange ps + k;
  st_settled : settledWindows ps' = settledWindows ps;
  st_tput : tputWindows ps' = tputWindows ps;
  st_measure : measure ps' = measure ps;
}.
Lemma endSamples_same ps : same_trial 1 ps (endSamples ps) /\ grow (endSamples ps) = grow ps /\ shrink (endSamples ps) = shrink ps.
Proof. split; [split|]; cbn; done. Qed.
Lemma closeWindow_same tput st ps : same_trial 1 ps (closeWindow cfg tput st ps).
Proof. split; reflexivity. Qed.
Lemma closeWindow_ok tput st ps : pool_ok 0 ps -> pool_ok 1 (closeWindow cfg tput st ps).
Proof.
  intros [Hsz Hg Hs Ht]. destruct (closeWindow_same tput st ps) as [E1 E2 E3 E4 E5 E6 E7 E8].
  assert (E9 : grow (closeWindow cfg tput st ps) = countDown cfg (endSamples ps) tput st (grow (endSamples ps))) by reflexivity.
  assert (E10 : shrink (closeWindow cfg tput st ps) = countDown cfg (endSamples ps) tput st (shrink (endSamples ps))) by reflexivity.
  destruct (endSamples_same ps) as (_ & E11 & E12). rewrite E11 in E9. rewrite E12 in E10.
  set (ps' := closeWindow cfg tput st ps) in *. clearbody ps'. split; rewrite ?E1, ?E2, ?E3, ?E9, ?E10; auto using countDown_ok.
  intros [Hb Hw Hm]%Ht. split; rewrite ?E1, ?E2, ?E3, ?E4, ?E5, ?E6, ?E7, ?E8; (done || lia).
Qed.
Lemma same_trial_moved k ps q ps' : same_trial k ps q -> moved 0 q ps' -> moved k ps ps'.
Proof.
  intros [E1 E2 E3 E4 E5 _ _ _]. unfold moved. rewrite E1, E2, E3, E4, E5. intros (? & ? & Hm). split; [done|]. split; [done|].
  destruct (trial ps), (trial ps'); try done; destruct Hm as (? & ? & ? & ?); (done || (repeat split; (done || lia))).
Qed.
Lemma moved_refl ps : moved 0 ps ps.
Proof. unfold moved. split; [done|]. split; [done|]. destruct (trial ps); repeat split; (done || lia). Qed.

Lemma trialWindow_ok t i ps tput : cfg_ok -> pools_ t !! i = Some ps -> pool_ok 1 ps -> trial ps <> TrialNone ->
  let t' := trialWindow cfg t i ps tput in
  (exists ps', pools_ t' = <[i := ps']> (pools_ t) /\ pool_ok 0 ps' /\ moved 0 ps ps') /\
  steadyRecent_ t' = steadyRecent_ t /\ nextPool_ t' = nextPool_ t.
Proof.
  intros Hc Hi Hok Ht. destruct (undo_ok _ _ Hok Ht) as (Hu1 & Hu2 & Hu3). pose proof Hok as [Hsz Hg Hs Hin]. destruct (Hin Ht) as [Hb Hw Hm].
  assert (Hin0 : forall ps', in_trial 0 ps' -> pool ps' = pool ps -> bounds ps' = bounds ps -> grow ps' = grow ps -> shrink ps' = shrink ps ->
    trial ps' = trial ps -> sizeBefore ps' = sizeBefore ps -> windowsSinceChange ps' = windowsSinceChange ps -> pool_ok 0 ps' /\ moved 0 ps ps').
  { intros ps' ? E1 E2 E3 E4 E5 E6 E7. split; [by split; rewrite ?E1, ?E2, ?E3, ?E4|]. unfold moved. rewrite E1, E2, E5, E6, E7. destruct (trial ps); repeat split; (done || lia). }
  unfold trialWindow. destruct ((settledWindows ps =? 0) && _ && _) eqn:Ew; [|destruct (d_le tput d0)].
  - split; [|split; reflexivity]. exists ps. split; [by rewrite list_insert_id|]. apply Hin0; try done.
    apply andb_prop in Ew as [Ew ?%Z.ltb_lt]. split; [done|lia|lia].
  - destruct (Z.ltb_spec (maxSettleWindows cfg) (windowsSinceChange ps)).
    + split; [|split; reflexivity]. eexists. split; [reflexivity|]. split; [split; cbn; unfold const; rewrite ?(stepOf_step _ _ Hu2); done|].
      unfold moved. cbn. unfold const. split; [done|]. split; [done|]. destruct (trial ps); auto; done.
    + split; [|split; reflexivity]. eexists. split; [reflexivity|]. apply Hin0; try done. split; cbn; unfold const; [done|lia|].
      destruct Hc as (_ & _ & ? & _). lia.
  - cbn -[Z.add Z.of_nat]; unfold const. destruct (Z.ltb_spec (settleWindows cfg) (settledWindows ps + 1)).
    + rewrite length_app. cbn [length]. destruct (Z.leb_spec (measure ps) (Z.of_nat (length (tputWindows ps) + 1))).
      * split; [|split; reflexivity]. eexists. split; [reflexivity|]. edestruct (judgePool_ok 2) as [Hj1 Hj2]; [done| | |split; [exact Hj1|exact Hj2]]; [|done].
        split; cbn; unfold const; try done. intros _. split; cbn -[Z.add Z.of_nat]; unfold const; [done|lia|]. rewrite length_app. cbn [length]. lia.
      * split; [|split; reflexivity]. eexists. split; [reflexivity|]. apply Hin0; try done. split; cbn -[Z.add Z.of_nat]; unfold const; [done|lia|]. rewrite length_app. cbn [length]. lia.
    + split; [|split; reflexivity]. eexists. split; [reflexivity|]. apply Hin0; try done. split; cbn -[Z.add Z.of_nat]; unfold const; [done|lia|lia].
Qed.
(** ** The pools in a window *)
Definition quiet_except (i : nat) (l : list pstate) : Prop := forall j ps, l !! j = Some ps -> j <> i -> trial ps = TrialNone.
Lemma quiet_one_trial i l : quiet_except i l -> one_trial l.
Proof.
  intros Hq j k ps ps' Hj Hk Ht Ht'. destruct (decide (j = i)) as [->|Hji]; [|by destruct Ht; eapply Hq].
  destruct (decide (k = i)) as [->|Hki]; [done|]. by destruct Ht'; eapply Hq.
Qed.
Lemma one_trial_quiet i l ps : one_trial l -> l !! i = Some ps -> trial ps <> TrialNone -> quiet_except i l.
Proof. intros H1 Hi Ht j ps' Hj Hji. destruct (decide (trial ps' = TrialNone)); [done|]. destruct Hji. eauto. Qed.
Lemma pool_ok_quiet k k' ps : pool_ok k ps -> trial ps = TrialNone -> pool_ok k' ps.
Proof. intros [H1 H2 H3 _] Ht. by split. Qed.

(** The pools after a window in which only pool [i] had a turn. *)
Lemma turn_ok tput st i l ps' : Forall (pool_ok 0) l -> quiet_except i l -> pool_ok 0 ps' ->
  (forall ps, l !! i = Some ps -> moved 0 (closeWindow cfg tput st ps) ps') ->
  let l' := <[i := ps']> (closeWindow cfg tput st <$> l) in
  Forall (pool_ok 0) l' /\ one_trial l' /\ only_moves i l l'.
Proof.
  intros Hl Hq Hok Hmv l'. pose proof (fun j ps => proj1 (Forall_lookup _ _) Hl j ps) as Hl'.
  assert (Hj : forall j q, l' !! j = Some q -> j <> i -> exists ps, l !! j = Some ps /\ q = closeWindow cfg tput st ps).
  { intros j q. subst l'. intros Hlk Hji. rewrite list_lookup_insert_ne, list_lookup_fmap in Hlk by done. destruct (l !! j); simplify_eq/=. eauto. }
  split; [|split; [|split]].
  - apply Forall_lookup. intros j q Hlk. destruct (decide (j = i)) as [->|Hji].
    + subst l'. by apply list_lookup_insert_Some in Hlk as [(_ & <- & _)|[? _]].
    + destruct (Hj j q Hlk Hji) as (ps & Hps & ->). apply (pool_ok_quiet 1); [apply closeWindow_ok; by eapply Hl'|].
      rewrite (st_trial _ _ _ (closeWindow_same tput st ps)). by eapply Hq.
  - apply (quiet_one_trial i). intros j q Hlk Hji. destruct (Hj j q Hlk Hji) as (ps & Hps & ->).
    rewrite (st_trial _ _ _ (closeWindow_same tput st ps)). by eapply Hq.
  - subst l'. by rewrite length_insert, length_fmap.
  - intros j ps q Hps Hlk. destruct (decide (j = i)) as [->|Hji].
    + split; [|done]. subst l'. apply list_lookup_insert_Some in Hlk as [(_ & <- & _)|[? _]]; [|done].
      eapply same_trial_moved; [apply closeWindow_same|by apply Hmv].
    + destruct (Hj j q Hlk Hji) as (ps2 & Hps2 & ->). simplify_eq. pose proof (closeWindow_same tput st ps) as Hs.
      split; [exact (same_trial_moved _ _ _ _ Hs (moved_refl _))|]. intros _. by destruct Hs.
Qed.

Lemma noteSteady_ok t tput : tuner_ok t ->
  let t' := noteSteady cfg t tput in
  (length (steadyRecent_ t') <= kSteadyHistory)%nat /\ Forall (fun w => d_lt d0 w = true) (steadyRecent_ t') /\
  pools_ t' = pools_ t /\ nextPool_ t' = nextPool_ t.
Proof.
  intros [_ _ [Hl Hf] _]. unfold noteSteady.
  set (recent := if _ || _ then [] else steadyRecent_ t).
  assert (Hr : (length recent <= kSteadyHistory)%nat /\ Forall (fun w => d_lt d0 w = true) recent).
  { subst recent. destruct (_ || _); [split; [cbn; lia|constructor]|done]. }
  clearbody recent. set (low := if _ && _ then _ else _). clearbody low.
  destruct (if d_lt d0 tput then (recent ++ [tput], steadySinceChange_ t + 1) else (recent, steadySinceChange_ t)) as [recent' since] eqn:E.
  assert (Hr' : (length recent' <= S kSteadyHistory)%nat /\ Forall (fun w => d_lt d0 w = true) recent').
  { destruct (d_lt d0 tput) eqn:Et; simplify_eq; [|split; [lia|tauto]]. rewrite length_app. cbn [length]. split; [lia|].
    apply Forall_app. split; [tauto|]. by constructor. }
  set (r2 := if (_ <? _)%nat then drop 1 recent' else recent').
  assert (Hr2 : (length r2 <= kSteadyHistory)%nat /\ Forall (fun w => d_lt d0 w = true) r2).
  { subst r2. destruct (Nat.ltb_spec kSteadyHistory (length recent')); [|split; [lia|tauto]]. rewrite length_drop. split; [lia|]. apply Forall_drop; tauto. }
  clearbody r2. repeat match goal with |- context [if ?b then _ else _] => destruct b end; cbn; tauto.
Qed.
(** ** Starting the next trial *)
Lemma firstStart_ok t may order i ps' : cfg_ok -> Forall (pool_ok 1) (pools_ t) -> Forall (fun ps => trial ps = TrialNone) (pools_ t) ->
  firstStart cfg junk t may order = Some (i, ps') -> (i ∈ order) /\ exists ps, pools_ t !! i = Some ps /\ pool_ok 0 ps' /\ moved 0 ps ps'.
Proof.
  intros Hc Hok Hq. induction order as [|k order IH]; [done|]. cbn -[startTrial].
  destruct (pools_ t !! k) as [ps|] eqn:Ek; cbn -[startTrial]; [|intros [? ?]%IH; split; [by right|done]].
  destruct (may ps); [|intros [? ?]%IH; split; [by right|done]].
  destruct (startTrial cfg junk t ps) as [ps1|] eqn:Es; [|intros [? ?]%IH; split; [by right|done]].
  intros [= <- <-]. split; [by left|]. exists ps. split; [done|].
  edestruct startTrial_ok as (? & ? & _); [done|eapply Forall_lookup; [exact Hok|exact Ek]|eapply (proj1 (Forall_lookup _ _) Hq), Ek|exact Es|done].
Qed.
Lemma startPass_ok t : cfg_ok -> Forall (pool_ok 1) (pools_ t) -> Forall (fun ps => trial ps = TrialNone) (pools_ t) ->
  let t' := startPass cfg junk t in
  (t' = t \/ exists i ps ps', pools_ t !! i = Some ps /\ pools_ t' = <[i := ps']> (pools_ t) /\ pool_ok 0 ps' /\ moved 0 ps ps') /\
  steadyRecent_ t' = steadyRecent_ t /\ (nextPool_ t' = nextPool_ t \/ 0 <= nextPool_ t' <= Z.of_nat (length (pools_ t))).
Proof.
  intros Hc Hok Hq. unfold startPass.
  destruct (firstStart cfg junk t _ (seq 0 _)) as [[i ps']|] eqn:E1.
  { destruct (firstStart_ok _ _ _ _ _ Hc Hok Hq E1) as (_ & ps & ? & ? & ?). split; [right; exists i, ps, ps'; done|]. split; [done|by left]. }
  destruct (firstStart cfg junk t _ (_ <$> _)) as [[i ps']|] eqn:E2; [|split; [by left|split; [done|by left]]].
  destruct (firstStart_ok _ _ _ _ _ Hc Hok Hq E2) as (_ & ps & Hi & ? & ?). split; [right; exists i, ps, ps'; done|]. split; [done|right].
  cbn -[Nat.modulo]. unfold const. apply lookup_lt_Some in Hi. pose proof (Nat.mod_upper_bound (S i) (length (pools_ t))). lia.
Qed.

Lemma closeWindows_ok t tput : tuner_ok t ->
  let t2 := closeWindows cfg t tput in
  ((length (steadyRecent_ t2) <= kSteadyHistory)%nat /\ Forall (fun w => d_lt d0 w = true) (steadyRecent_ t2)) /\
  pools_ t2 = closeWindow cfg tput (isSteady t) <$> pools_ t /\ nextPool_ t2 = nextPool_ t.
Proof.
  intros Hok. pose proof (noteSteady_ok t tput Hok) as (? & ? & Ep & ?). destruct Hok as [_ _ ? _].
  unfold closeWindows. destruct (isSteady t); cbn -[noteSteady]; unfold const; rewrite ?Ep; done.
Qed.
(** A window: what it is to the pools, to be given the one with a turn. *)
Lemma window_ok t tput t' i ps' : tuner_ok t -> quiet_except i (pools_ t) -> pool_ok 0 ps' ->
  (forall ps, pools_ t !! i = Some ps -> moved 0 (closeWindow cfg tput (isSteady t) ps) ps') ->
  let t2 := closeWindows cfg t tput in
  pools_ t' = <[i := ps']> (pools_ t2) -> steadyRecent_ t' = steadyRecent_ t2 ->
  (nextPool_ t' = nextPool_ t2 \/ 0 <= nextPool_ t' <= Z.of_nat (length (pools_ t2))) ->
  tuner_ok t' /\ exists i, only_moves i (pools_ t) (pools_ t').
Proof.
  intros Hok Hq Hps Hmv t2 Ep Eh En. destruct (closeWindows_ok t tput Hok) as (Hh & Ep2 & En2). fold t2 in Hh, Ep2, En2. clearbody t2.
  destruct Hok as [Hp _ _ Hn]. rewrite Ep2 in Ep, En. destruct (turn_ok tput (isSteady t) i _ ps' Hp Hq Hps Hmv) as (H1 & H2 & H3). rewrite <- Ep in *.
  split; [|by exists i]. destruct H3 as [H3 _]. rewrite length_fmap in En. split; rewrite ?Eh, ?H3; [done..|lia].
Qed.
Lemma quiet_closed t tput : tuner_ok t -> Forall (fun ps => trial ps = TrialNone) (pools_ (closeWindows cfg t tput)) ->
  Forall (pool_ok 1) (pools_ (closeWindows cfg t tput)) /\ forall i, quiet_except i (pools_ t).
Proof.
  intros Hok. destruct (closeWindows_ok t tput Hok) as (_ & -> & _). pose proof (to_pools _ Hok) as Hp. rewrite !Forall_fmap. intros Hq. split.
  - eapply Forall_impl; [exact Hp|]. intros ps. apply closeWindow_ok.
  - intros i j ps Hj _. eapply Forall_lookup in Hq; [|exact Hj]. rewrite <- (st_trial _ _ _ (closeWindow_same tput (isSteady t) ps)). exact Hq.
Qed.
(** A window in which no pool has a turn. *)
Lemma idle_ok t tput : tuner_ok t -> Forall (fun ps => trial ps = TrialNone) (pools_ (closeWindows cfg t tput)) ->
  tuner_ok (closeWindows cfg t tput) /\ exists i, only_moves i (pools_ t) (pools_ (closeWindows cfg t tput)).
Proof.
  intros Hok Hq. destruct (quiet_closed t tput Hok Hq) as [Hp1 Hq1]. destruct (closeWindows_ok t tput Hok) as (Hh & Ep & En).
  destruct (pools_ t) as [|ps l] eqn:El.
  - set (t2 := closeWindows cfg t tput) in *. clearbody t2. cbn in Ep. split; [|exists 0%nat; rewrite Ep; split; [done|by intros ? ? ? ?]].
    destruct Hok as [_ _ _ Hn]. split; rewrite ?Ep, ?En; [done|intros ? ? ? ? ?; done|done|]. by rewrite El in Hn.
  - rewrite <- El in *. set (q := closeWindow cfg tput (isSteady t) ps). assert (Hl : pools_ (closeWindows cfg t tput) !! 0%nat = Some q) by (rewrite Ep, El; done).
    apply (window_ok t tput _ 0 q Hok); [done| | | |done|by left].
    + apply (pool_ok_quiet 1); [eapply Forall_lookup; [exact Hp1|exact Hl]|eapply (proj1 (Forall_lookup _ _) Hq), Hl].
    + intros ps' Hps. rewrite El in Hps. injection Hps as <-. apply moved_refl.
    + by rewrite list_insert_id.
Qed.
Lemma decide_ok t tput : cfg_ok -> tuner_ok t ->
  tuner_ok (decide_ cfg junk t tput) /\ exists i, only_moves i (pools_ t) (pools_ (decide_ cfg junk t tput)).
Proof.
  intros Hc Hok. unfold decide_. destruct (closeWindows_ok t tput Hok) as (_ & Ep2 & _).
  pose proof (to_pools _ Hok) as Hp. pose proof (fun i ps => proj1 (Forall_lookup _ _) Hp i ps) as Hp'.
  set (t2 := closeWindows cfg t tput) in *. destruct (list_find _ _) as [[i q]|] eqn:Ef.
  - apply list_find_Some in Ef as (Hi & Ht & _). pose proof Hi as Hi2. rewrite Ep2, list_lookup_fmap in Hi. destruct (pools_ t !! i) as [ps|] eqn:Eps; simplify_eq/=.
    pose proof (closeWindow_ok tput (isSteady t) ps (Hp' _ _ Eps)) as Hq. destruct (trialWindow_ok t2 i _ tput Hc Hi2 Hq Ht) as ((ps' & E1 & E2 & E3) & E4 & E5).
    apply (window_ok t tput _ i ps' Hok); [|done|intros; simplify_eq; done|done..|by left].
    eapply one_trial_quiet; [apply Hok|exact Eps|]. by rewrite <- (st_trial _ _ _ (closeWindow_same tput (isSteady t) ps)).
  - apply list_find_None in Ef. assert (Hq : Forall (fun ps => trial ps = TrialNone) (pools_ t2)).
    { eapply Forall_impl; [exact Ef|]. intros ps Hps. by destruct (decide (trial ps = TrialNone)). }
    destruct (quiet_closed t tput Hok Hq) as [Hp1 Hq1]. destruct (baseline cfg t2); [|by apply idle_ok].
    destruct (startPass_ok t2 Hc Hp1 Hq) as ([->|(i & q & ps' & Hi & E1 & E2 & E3)] & E4 & E5); [by apply idle_ok|].
    apply (window_ok t tput _ i ps' Hok); [done|done| |done..]. intros ps Hps. rewrite Ep2, list_lookup_fmap, Hps in Hi. by injection Hi as <-.
Qed.
(** ** Runs *)
(** What sampling and the pools' own threads may do to a pool. *)
Record refreshed (ps ps' : pstate) : Prop := {
  rf_pool : pool_inv (pool ps) -> pool_inv (pool ps') /\ Size (pool ps') = Size (pool ps) /\ Step (pool ps') = Step (pool ps);
  rf_trial : (trial ps', sizeBefore ps', windowsSinceChange ps', settledWindows ps', tputWindows ps', measure ps') =
             (trial ps, sizeBefore ps, windowsSinceChange ps, settledWindows ps, tputWindows ps, measure ps);
  rf_static : (bounds ps', grow ps', shrink ps') = (bounds ps, grow ps, shrink ps);
}.
Lemma sampleOnePool_refreshed wall ps : refreshed ps (sampleOnePool wall ps).
Proof.
  unfold sampleOnePool. destruct (Sample (Reap (pool ps)) wall) as [p s] eqn:E. split; [|done..]. intros Hi. destruct (reap_same _ Hi) as (H1 & H2 & H3).
  destruct (sample_same _ wall H1) as (H4 & H5 & H6). rewrite E in H4, H5, H6. cbn in *. unfold const. split; [done|]. split; congruence.
Qed.
Lemma refreshed_ok ps ps' : pool_ok 0 ps -> refreshed ps ps' -> pool_ok 0 ps'.
Proof.
  intros [[Hi Hb Hs] Hg Hsh Ht] [Hp E1 E2]. destruct (Hp Hi) as (Hi' & Ez & Est). apply stepOf_step in Est.
  injection E1 as T1 T2 T3 T4 T5 T6. injection E2 as B1 B2 B3.
  split; rewrite ?Est, ?B1, ?B2, ?B3, ?T1; [by split; rewrite ?Ez, ?Est|done..|]. intros [? ? ?]%Ht.
  split; by rewrite ?Ez, ?Est, ?T1, ?T2, ?T3, ?T4, ?T5, ?T6, ?B1.
Qed.

(** One tick: a sample, the end of a window (counted), or the pools' threads. *)
Inductive tuner_step : nat -> tuner -> tuner -> Prop :=
| TSample t wall : tuner_step 0 t (sample t wall)
| TWindow t ops sec : tuner_step 1 t (endWindow cfg junk t ops sec)
| TPools t l : Forall2 (fun ps ps' => exists p, (pool_inv (pool ps) -> pool_inv p) /\ Size p = Size (pool ps) /\ Step p = Step (pool ps) /\
                          ps' = { ps with pool := p }) (pools_ t) l ->
    tuner_step 0 t { t with pools_ := l }.
Inductive runs : nat -> tuner -> tuner -> Prop :=
| runs_nil t : runs 0 t t
| runs_step k n t t1 t2 : tuner_step k t t1 -> runs n t1 t2 -> runs (k + n) t t2.

Lemma tick_refreshed t t' : tuner_step 0 t t' ->
  Forall2 refreshed (pools_ t) (pools_ t') /\ steadyRecent_ t' = steadyRecent_ t /\ nextPool_ t' = nextPool_ t.
Proof.
  inversion_clear 1 as [? wall| |? l Hl]; (split; [|done]).
  - cbn. unfold const. apply Forall2_fmap_r, Forall_Forall2_diag, Forall_forall. intros ps _. apply sampleOnePool_refreshed.
  - cbn. unfold const. eapply Forall2_impl; [exact Hl|]. intros ps ps' (p & H1 & H2 & H3 & ->). split; [|done..]. cbn. unfold const. auto.
Qed.
Lemma tick_ok t t' : tuner_ok t -> tuner_step 0 t t' -> tuner_ok t'.
Proof.
  intros [Hp H1 Hh Hn] Hst. destruct (tick_refreshed _ _ Hst) as (Hr & Eh & En). split; rewrite ?Eh, ?En, <- ?(Forall2_length _ _ _ Hr); [|  |done..].
  - apply Forall_lookup. intros i q Hi. destruct (Forall2_lookup_r _ _ _ _ _ Hr Hi) as (ps & Hps & Hq). eapply refreshed_ok; [|exact Hq]. by eapply Forall_lookup in Hp.
  - intros i j p q Hi Hj Hti Htj. destruct (Forall2_lookup_r _ _ _ _ _ Hr Hi) as (p' & Hp' & [_ E1 _]). destruct (Forall2_lookup_r _ _ _ _ _ Hr Hj) as (q' & Hq' & [_ E2 _]).
    apply (H1 i j p' q'); congruence.
Qed.
Lemma endWindow_ok t ops sec : cfg_ok -> tuner_ok t ->
  tuner_ok (endWindow cfg junk t ops sec) /\ exists i, only_moves i (pools_ t) (pools_ (endWindow cfg junk t ops sec)).
Proof. 
  intros Hc Hok. unfold endWindow. set (tput := if d_lt d0 sec then _ else _).
  destruct (decide_ok { t with lastTput_ := tput } tput Hc) as [H1 [i H2]]; [by destruct Hok; split|]. split; [exact H1|]. exists i. exact H2.
Qed.
Lemma tuner_step_ok k t t' : cfg_ok -> tuner_ok t -> tuner_step k t t' -> tuner_ok t'.
Proof.
  intros Hc Hok Hst. destruct k as [|k]; [by eapply tick_ok|]. inversion Hst; subst. by apply endWindow_ok.
Qed.
Lemma runs_ok n t t' : cfg_ok -> tuner_ok t -> runs n t t' -> tuner_ok t'.
Proof. intros Hc Hok Hr. induction Hr; eauto using tuner_step_ok. Qed.

(** The tuner as it is started, with its pools. *)
Definition withPools (l : list (P * Bounds)) : tuner := foldl (fun t pb => AddPool t pb.1 pb.2) newTuner l.
Lemma newDirection_ok step : 0 <= maxBackoffWindows cfg -> dir_ok step newDirection.
Proof. split; cbn; [split; [lia|apply Z.divide_0_r]|lia..]. Qed.
Lemma withPools_ok l : cfg_ok -> Forall (fun pb => sized pb.1 pb.2) l -> tuner_ok (withPools l).
Proof.
  intros Hc Hl. assert (Hm : 0 <= maxBackoffWindows cfg) by (destruct Hc as (_ & _ & _ & _ & ?); lia). unfold withPools.
  assert (H0 : tuner_ok newTuner /\ forall i : nat, quiet_except i (pools_ (newTuner (P := P)))).
  { split; [split; cbn; [done|by intros ? ? ? ? ?|split; [unfold kSteadyHistory; lia|done]|lia]|by intros ? ? ? ?]. }
  revert H0. generalize (newTuner (P := P)). induction Hl as [|[p b] l Hpb _ IH]; intros t [Ht Hq]; [done|]. cbn [foldl]. apply IH.
  assert (Hq' : forall i, quiet_except i (pools_ (AddPool t p b))).
  { intros i j ps. cbn. unfold const. intros [Hj|[_ Hj]]%lookup_app_Some Hji; [by eapply (Hq i)|]. by apply list_lookup_singleton_Some in Hj as [_ <-]. }
  split; [|done]. destruct Ht as [Hp _ Hh Hn]. split; cbn; unfold const; [|exact (quiet_one_trial 0 _ (Hq' 0%nat))|done|rewrite length_app; cbn; lia].
  apply Forall_app. split; [done|]. constructor; [|done]. split; cbn; auto using newDirection_ok. done.
Qed.
Lemma in_flight_bound ps : in_trial 0 ps -> windowsSinceChange ps < trialWindows.
Proof. intros [_ [? ?] [? ?]]. unfold trialWindows. lia. Qed.
(** A pool in flight through [n] windows, or not to the end. *)
Lemma flight_ends n t t' i ps : cfg_ok -> tuner_ok t -> runs n t t' -> pools_ t !! i = Some ps -> trial ps <> TrialNone ->
  (exists a b tm q, runs a t tm /\ runs b tm t' /\ Z.of_nat a + windowsSinceChange ps <= trialWindows /\ pools_ tm !! i = Some q /\ trial q = TrialNone) \/
  Z.of_nat n + windowsSinceChange ps < trialWindows.
Proof.
  intros Hc Hok Hr. revert ps. induction Hr as [t|k n t t1 t2 Hst Hr IH]; intros ps Hi Ht.
  { right. destruct Hok as [Hp _ _ _]. eapply Forall_lookup in Hp; [|exact Hi]. pose proof (in_flight_bound ps (po_trial _ _ Hp Ht)). lia. }
  pose proof (tuner_step_ok _ _ _ Hc Hok Hst) as Hok1. assert (Hb : windowsSinceChange ps < trialWindows).
  { destruct Hok as [Hp _ _ _]. eapply Forall_lookup in Hp; [|exact Hi]. apply in_flight_bound, (po_trial _ _ Hp Ht). }
  assert (Hq : exists q, pools_ t1 !! i = Some q /\ (trial q <> TrialNone -> windowsSinceChange q = windowsSinceChange ps + Z.of_nat k) /\ (k <= 1)%nat /\ (trial q = TrialNone -> k = 1%nat)).
  { destruct k as [|k].
    - destruct (tick_refreshed _ _ Hst) as [Hf _]. destruct (Forall2_lookup_l _ _ _ _ _ Hf Hi) as (q & Hq & [_ E _]). injection E as E1 E2 E3 E4 E5 E6.
      exists q. rewrite E1, E3. split; [done|]. split; [lia|]. split; [lia|done].
    - inversion Hst; subst. destruct (endWindow_ok t ops sec Hc Hok) as [_ [j [Hl Hm]]].
      destruct (lookup_lt_is_Some_2 (pools_ (endWindow cfg junk t ops sec)) i) as [q Hq]; [rewrite Hl; by eapply lookup_lt_Some|].
      exists q. split; [done|]. destruct (Hm i ps q Hi Hq) as [(_ & _ & Hmv) _]. split; [|split; [lia|done]]. intros Hn.
      destruct (trial ps), (trial q); try done; destruct Hmv as (_ & _ & _ & ->); lia. }
  destruct Hq as (q & Hq & Hw & Hk1 & Hk). destruct (decide (trial q = TrialNone)) as [Hn|Hn].
  - left. exists k, n, t1, q. split; [rewrite <- (Nat.add_0_r k); econstructor; [exact Hst|constructor]|]. split; [done|]. split; [lia|done].
  - destruct (IH Hok1 q Hq Hn) as [(a & b & tm & q' & H1 & H2 & H3 & H4)|H1]; [left|right; rewrite (Hw Hn) in H1; lia].
    exists (k + a)%nat, b, tm, q'. split; [by econstructor|]. split; [done|]. split; [rewrite (Hw Hn) in H3; lia|done].
Qed.


(** The end of a window changes the size of at most one pool.  A pool with no
    trial may start one, which records the size it had; a trial in flight keeps its
    size until it ends, and then the pool has the tried size or exactly the size the
    trial started from. *)
Theorem window_changes_one_pool l n t ops sec : cfg_ok -> Forall (fun pb => sized pb.1 pb.2) l -> runs n (withPools l) t ->
  exists i, only_moves i (pools_ t) (pools_ (endWindow cfg junk t ops sec)).
Proof. intros Hc Hl Hr. apply (endWindow_ok t ops sec Hc), (runs_ok _ _ _ Hc (withPools_ok _ Hc Hl) Hr). Qed.

(** C22: A trial ends: in any run of [trialWindows] windows (24 by default) or more
    from a state with a trial in flight there is a state, at most that many windows
    on, in which its pool has none, whatever throughput the windows had and whether
    or not the pool ever reports that the change has settled. *)
Theorem trials_end l n t m t' i ps : cfg_ok -> Forall (fun pb => sized pb.1 pb.2) l -> runs n (withPools l) t ->
  pools_ t !! i = Some ps -> trial ps <> TrialNone -> runs m t t' -> trialWindows <= Z.of_nat m ->
  exists a b tm q, runs a t tm /\ runs b tm t' /\ Z.of_nat a <= trialWindows /\ pools_ tm !! i = Some q /\ trial q = TrialNone.
Proof.
  intros Hc Hl Hr Hi Ht Hm Hle. pose proof (runs_ok _ _ _ Hc (withPools_ok _ Hc Hl) Hr) as Hok.
  assert (Hw : 0 <= windowsSinceChange ps).
  { destruct Hok as [Hp _ _ _]. eapply Forall_lookup in Hp; [|exact Hi]. destruct (po_trial _ _ Hp Ht) as [_ ? _]. lia. }
  destruct (flight_ends _ _ _ _ _ Hc Hok Hm Hi Ht) as [(a & b & tm & q & H1 & H2 & H3 & H4)|]; [|lia].
  exists a, b, tm, q. split; [done|]. split; [done|]. split; [lia|done].
Qed.
End inv.
