(* ===== verification/TunerExamples.v ===== *)
(** * Runs of the thread tuner

    Concrete runs of [Tuner] over the readers of four shards: the theorems of
    [TunerInv] at work on an even group, and what happens to an uneven one. *)
From stdpp Require Import prelude list.
From Stdlib Require Import ZArith Lia.
From S2P Require Import Prelude Double ElasticPool Tuner TunerInv.
Open Scope Z_scope.

Definition noJunk (_ : double) : Z := 0.
(** Windows of one second with the same number of operations. *)
Definition windows (k : nat) (ops : Z) (t : ThreadTuner Group) : ThreadTuner Group :=
  Nat.iter k (fun t => endWindow defaultTunerConfig noJunk t ops d1) t.
Lemma runs_windows k ops t : runs defaultTunerConfig noJunk k t (windows k ops t).
Proof.
  assert (H : forall t, runs defaultTunerConfig noJunk k t (Nat.iter k (fun t => endWindow defaultTunerConfig noJunk t ops d1) t)); [|apply H].
  induction k as [|k IH]; intros t'; [constructor|]. rewrite Nat.iter_succ_r. change (S k) with (1 + k)%nat. econstructor; [constructor|apply IH].
Qed.
Lemma default_ok : cfg_ok defaultTunerConfig.
Proof. unfold cfg_ok. cbn. lia. Qed.

(** Eight readers over four shards, four to sixty-four allowed. *)
Definition evenPools : list (Group * Bounds) := [(newGroup Readers 8 4, mkBounds 4 64)].
Lemma even_sized : Forall (fun pb => sized pb.1 pb.2) evenPools.
Proof.
  constructor; [|constructor]. split; [|vm_compute; intuition discriminate|].
  - split; [done|]. exists 2. split; [lia|]. repeat constructor.
  - split; [by exists 2|]. split; [by exists 1|by exists 16].
Qed.
(** After four idle windows a shrink is on trial. *)
Definition shrinking : ThreadTuner Group := windows 4 100 (withPools evenPools).
Definition sizesOf (t : ThreadTuner Group) : list (list Z * Trial) := map (fun ps => (map live_ (pool ps), trial ps)) (pools_ t).

Lemma window_changes_one_pool_witness : exists i, only_moves i (pools_ shrinking) (pools_ (endWindow defaultTunerConfig noJunk shrinking 100 d1)).
Proof. exact (window_changes_one_pool defaultTunerConfig noJunk evenPools 4 shrinking 100 d1 default_ok even_sized (runs_windows 4 100 _)). Defined.
Lemma trials_end_witness : exists a b tm q,
  runs defaultTunerConfig noJunk a shrinking tm /\ runs defaultTunerConfig noJunk b tm (windows 24 0 shrinking) /\ Z.of_nat a <= 24 /\
  pools_ tm !! 0%nat = Some q /\ trial q = TrialNone.
Proof.
  destruct (pools_ shrinking) as [|ps l] eqn:E; [vm_compute in E; discriminate E|].
  apply (trials_end defaultTunerConfig noJunk evenPools 4 shrinking 24 (windows 24 0 shrinking) 0 ps default_ok even_sized (runs_windows 4 100 _)).
  - rewrite E. reflexivity.
  - assert (Ht : map trial (pools_ shrinking) = [TrialShrink]) by (vm_compute; reflexivity). rewrite E in Ht. injection Ht as Ht _. rewrite Ht. discriminate.
  - apply runs_windows.
  - vm_compute. discriminate.
Defined.

