(* ===== verification/Rounding.v ===== *)
(** * What rounding keeps

    Facts about [SpecFloat] at 53 bits: a rounded result has the sign of the exact one,
    fits the mantissa, and does not pass a representable bound; so a share of an integer,
    converted back, lies between 0 and that integer. *)
From stdpp Require Import prelude.
From Stdlib Require Import ZArith Lia SpecFloat.
From S2P Require Import Prelude Double.
Open Scope Z_scope.

(** ** Shifting right *)
Definition lost (r : shr_record) : bool := shr_r r || shr_s r.
Lemma shr_1_spec r : 0 <= shr_m r ->
  shr_m (shr_1 r) = shr_m r / 2 /\ (lost (shr_1 r) = false <-> shr_m r = shr_m r / 2 * 2 /\ lost r = false).
Proof.
  destruct r as [m r s]. cbn [shr_m]. intros Hm. unfold lost. destruct m as [|[p|p|]|p]; cbn -[Z.div Z.mul]; try lia.
  - split; [done|]. tauto.
  - rewrite Pos2Z.inj_xI, (Z.mul_comm 2), Z.div_add_l by lia. change (1 / 2) with 0. split; [lia|]. split; [done|]. lia.
  - rewrite Pos2Z.inj_xO, (Z.mul_comm 2), Z.div_mul by lia. split; [done|]. tauto.
  - split; [done|]. split; [done|]. change (1 / 2) with 0. lia.
Qed.
Lemma shr_iter k r : 0 <= shr_m r ->
  shr_m (Nat.iter k shr_1 r) = shr_m r / 2 ^ Z.of_nat k /\
  (lost (Nat.iter k shr_1 r) = false <-> shr_m r = shr_m r / 2 ^ Z.of_nat k * 2 ^ Z.of_nat k /\ lost r = false).
Proof.
  intros Hr. induction k as [|k [IH1 IH2]]; [cbn -[Z.div Z.mul]; rewrite Z.div_1_r; split; [done|]; rewrite Z.mul_1_r; tauto|].
  rewrite Nat.iter_succ. assert (Hp : 0 <= shr_m (Nat.iter k shr_1 r)) by (rewrite IH1; apply Z.div_pos; lia).
  destruct (shr_1_spec _ Hp) as [H1 H2]. rewrite Nat2Z.inj_succ, Z.pow_succ_r, (Z.mul_comm 2) by lia.
  set (q := 2 ^ Z.of_nat k) in *. assert (Hq : 0 < q) by (subst q; lia). rewrite <- Z.div_div by lia. split; [by rewrite H1, IH1|].
  rewrite H2, IH2, IH1. pose proof (Z.mul_div_le (shr_m r) q Hq). pose proof (Z.mul_div_le (shr_m r / q) 2). split.
  - intros (E1 & E2 & E3). split; [nia|done].
  - intros (E1 & E2). split; [|split; [|done]]; nia.
Qed.
Lemma iter_pos_nat {A} (f : A -> A) p x : SpecFloat.iter_pos f p x = Nat.iter (Pos.to_nat p) f x.
Proof.
  revert x. induction p as [p IH|p IH|]; intros x; cbn [SpecFloat.iter_pos]; rewrite ?IH; [|rewrite <- Nat.iter_add; f_equal; lia|done].
  replace (Pos.to_nat p~1) with (Pos.to_nat p + Pos.to_nat p + 1)%nat by lia. by rewrite !Nat.iter_add.
Qed.
Abbreviation fexp64 := (fexp 53 1024).
Lemma shr_fexp_spec m e l : 0 <= m ->
  let '(r, e') := shr_fexp 53 1024 m e l in
  e' = Z.max e (fexp64 (Zdigits2 m + e)) /\ shr_m r = m / 2 ^ (e' - e) /\
  (lost r = false <-> m = shr_m r * 2 ^ (e' - e) /\ l = loc_Exact).
Proof.
  intros Hm. unfold shr_fexp, shr. set (n := fexp64 (Zdigits2 m + e) - e). set (r0 := shr_record_of_loc m l).
  assert (H0 : shr_m r0 = m /\ (lost r0 = false <-> l = loc_Exact)) by (subst r0; destruct l as [|[]]; done). destruct H0 as [Em El].
  destruct n as [|p|p] eqn:En; try (split; [lia|]; rewrite Z.sub_diag, Em, Z.div_1_r, El, Z.mul_1_r; split; [done|tauto]).
  rewrite iter_pos_nat. destruct (shr_iter (Pos.to_nat p) r0) as [H1 H2]; [lia|]. rewrite Em, positive_nat_Z in *.
  split; [lia|]. replace (e + Z.pos p - e) with (Z.pos p) by lia. split; [done|]. by rewrite H2, H1, El.
Qed.

(** ** Digits *)
Lemma digits_pos p : 2 ^ (Z.pos (digits2_pos p) - 1) <= Z.pos p < 2 ^ Z.pos (digits2_pos p).
Proof.
  induction p as [p IH|p IH|]; cbn [digits2_pos]; [| |done].
  all: rewrite Pos2Z.inj_succ, Z.pow_succ_r by lia; replace (Z.succ (Z.pos (digits2_pos p)) - 1) with (Z.succ (Z.pos (digits2_pos p) - 1)) by lia;
    rewrite Z.pow_succ_r by lia; lia.
Qed.
Lemma digits_lt m : 0 <= m -> m < 2 ^ Zdigits2 m.
Proof. destruct m as [|p|p]; [cbn; lia| |lia]. intros _. apply digits_pos. Qed.
Lemma digits_le m k : 0 <= m -> 0 <= k -> m < 2 ^ k -> Zdigits2 m <= k.
Proof.
  destruct m as [|p|p]; [done| |lia]. intros _ Hk Hp. pose proof (digits_pos p) as [Hd _]. cbn [Zdigits2].
  assert (2 ^ (Z.pos (digits2_pos p) - 1) < 2 ^ k) as H%Z.pow_lt_mono_r_iff by lia; lia.
Qed.

(** ** Rounding *)
Definition rounded (m e : Z) (l : location) : Z * Z :=
  let '(r, e') := shr_fexp 53 1024 m e l in (round_nearest_even (shr_m r) (loc_of_shr_record r), e').
Lemma round_even_bounds m l : m <= round_nearest_even m l <= m + 1.
Proof. unfold round_nearest_even. destruct l as [|[]]; [lia|destruct (Z.even m)|..]; lia. Qed.
Lemma rounded_nonneg m e l : 0 <= m -> 0 <= (rounded m e l).1.
Proof.
  intros Hm. unfold rounded. pose proof (shr_fexp_spec m e l Hm) as Hs. destruct (shr_fexp 53 1024 m e l) as [r e']. destruct Hs as (He & Hr & _). cbn [fst].
  pose proof (round_even_bounds (shr_m r) (loc_of_shr_record r)). assert (0 <= shr_m r) by (rewrite Hr; apply Z.div_pos; lia). lia.
Qed.
(** Rounding does not pass a point of the grid. *)
Lemma rounded_le m e x : 0 <= m -> m <= x * 2 ^ ((rounded m e loc_Exact).2 - e) -> (rounded m e loc_Exact).1 <= x.
Proof.
  intros Hm. unfold rounded. pose proof (shr_fexp_spec m e loc_Exact Hm) as Hs. destruct (shr_fexp 53 1024 m e loc_Exact) as [r e']. destruct Hs as (He & Hr & Hl). cbn [fst snd].
  intros Hx. assert (Hp : 0 < 2 ^ (e' - e)) by (apply Z.pow_pos_nonneg; lia). assert (Hle : shr_m r <= x) by (rewrite Hr; apply Z.div_le_upper_bound; lia).
  destruct (lost r) eqn:E.
  - pose proof (round_even_bounds (shr_m r) (loc_of_shr_record r)). destruct (decide (shr_m r = x)) as [Ex|]; [|lia]. exfalso.
    assert (true = false); [|done]. apply Hl. split; [|done]. pose proof (Z.mul_div_le m _ Hp). rewrite Hr in *. nia.
  - unfold lost in E. destruct r as [m' r' s']. cbn in E. apply orb_false_elim in E as [-> ->]. exact Hle.
Qed.

(** A result of rounding: no NaN, of the given sign, with a mantissa of 53 bits. *)
Definition rounds (sx : bool) (x : double) : Prop :=
  match x with
  | S754_nan => False
  | S754_zero s | S754_infinity s => s = sx
  | S754_finite s m _ => s = sx /\ Z.pos m < 2 ^ 53
  end.
Lemma round_aux_spec sx m e l : 0 <= m ->
  rounds sx (binary_round_aux 53 1024 sx m e l) /\
  let '(n, e') := rounded m e l in
  exists k, 0 <= k /\ e' + k = Z.max e' (fexp64 (Zdigits2 n + e')) /\
    (e' + k <= 971 -> binary_round_aux 53 1024 sx m e l = match n / 2 ^ k with Z.pos q => S754_finite sx q (e' + k) | _ => S754_zero sx end).
Proof.
  intros Hm. unfold binary_round_aux. pose proof (rounded_nonneg m e l Hm) as Hn. unfold rounded in *. destruct (shr_fexp 53 1024 m e l) as [r e']. cbn [fst] in Hn.
  set (n := round_nearest_even _ _) in *. clearbody n. pose proof (shr_fexp_spec n e' loc_Exact Hn) as Hs. destruct (shr_fexp 53 1024 n e' loc_Exact) as [r2 e2].
  destruct Hs as (He & Hr & _). assert (Hb : 0 <= shr_m r2 < 2 ^ 53).
  { rewrite Hr. split; [apply Z.div_pos; lia|]. apply Z.div_lt_upper_bound; [lia|]. rewrite <- Z.pow_add_r by lia. pose proof (digits_lt n Hn).
    eapply Z.lt_le_trans; [eassumption|]. apply Z.pow_le_mono_r; [lia|]. unfold fexp in He. lia. }
  split.
  - destruct (shr_m r2) as [|q|q]; [done| |lia]. destruct (_ <=? _); [split; [done|lia]|done].
  - exists (e2 - e'). split; [lia|]. replace (e' + (e2 - e')) with e2 by lia. split; [done|]. intros Hle. rewrite <- Hr.
    destruct (shr_m r2) as [|q|q]; [done| |lia]. change (1024 - 53) with 971. by destruct (Z.leb_spec e2 971); [|lia].
Qed.
Lemma fexp_small d : d <= 53 -> fexp64 d <= 0.
Proof. unfold fexp, emin. lia. Qed.
Lemma shiftl_floor q k : 0 <= k -> Z.shiftl q (- k) = q / 2 ^ k.
Proof. intros Hk. rewrite Z.shiftl_opp_r, Z.shiftr_div_pow2 by done. done. Qed.

(** ** A share of an integer *)
(** The double that is exactly the integer [M], and one that is at most 1. *)
Definition exactly (M : Z) (x : double) : Prop :=
  match x with S754_finite false m e => e <= 0 /\ Z.pos m = M * 2 ^ (- e) | _ => False end.
Definition atMostOne (x : double) : Prop :=
  match x with S754_zero _ => True | S754_finite false m e => e <= 0 /\ Z.pos m <= 2 ^ (- e) | _ => False end.
Lemma mul_share M x c : 0 < M < 2 ^ 53 -> exactly M x -> atMostOne c -> exists v, d_trunc (x * c)%D = Some v /\ 0 <= v <= M.
Proof.
  intros HM. destruct x as [| | |[|] m e]; try done. intros [He Hm]. destruct c as [s| | |[|] mc ec]; try done; [exists 0; cbn; split; [done|lia]|].
  intros [Hec Hmc]. unfold d_mul, SFmul. cbn [xorb]. rewrite Pos2Z.inj_mul. remember (e + ec) as E eqn:EE. remember (Z.pos m * Z.pos mc) as P eqn:EP.
  assert (Hprod : 0 <= P <= M * 2 ^ (- E)).
  { split; [lia|]. replace (- E) with (- e + - ec) by lia. rewrite Z.pow_add_r by lia. rewrite EP, Hm. nia. }
  assert (HE : M * 2 ^ (- E) < 2 ^ (53 - E)) by (replace (53 - E) with (53 + - E) by lia; rewrite Z.pow_add_r by lia; nia).
  destruct (round_aux_spec false P E loc_Exact) as [_ Hr]; [lia|]. pose proof (rounded_le P E) as Hle. pose proof (rounded_nonneg P E loc_Exact) as Hn0.
  assert (He' : E <= (rounded P E loc_Exact).2 <= 0).
  { pose proof (shr_fexp_spec P E loc_Exact) as Hs. unfold rounded. destruct (shr_fexp 53 1024 P E loc_Exact) as [r e2]. destruct Hs as [-> _]; [lia|]. cbn [snd].
    assert (Zdigits2 P <= 53 - E) by (apply digits_le; lia). pose proof (fexp_small (Zdigits2 P + E)). lia. }
  destruct (rounded P E loc_Exact) as [n e']. cbn [fst snd] in *. destruct Hr as (k & Hk & Hek & Hres).
  assert (Hn : 0 <= n <= M * 2 ^ (- e')).
  { split; [apply Hn0; lia|]. apply Hle; [lia|]. rewrite <- Z.mul_assoc, <- Z.pow_add_r by lia. replace (- e' + (e' - E)) with (- E) by lia. lia. }
  assert (Hk0 : e' + k <= 0).
  { rewrite Hek. assert (Hd : Zdigits2 n <= 53 - e').
    { apply digits_le; [lia..|]. replace (53 - e') with (53 + - e') by lia. rewrite Z.pow_add_r by lia. nia. }
    pose proof (fexp_small (Zdigits2 n + e')). lia. }
  rewrite Hres by lia. assert (Hq : 0 <= n / 2 ^ k <= M * 2 ^ (- (e' + k))).
  { split; [apply Z.div_pos; lia|]. apply Z.div_le_upper_bound; [lia|]. rewrite (Z.mul_comm (2 ^ k)), <- Z.mul_assoc, <- Z.pow_add_r by lia. replace (- (e' + k) + k) with (- e') by lia. lia. }
  destruct (n / 2 ^ k) as [|q|q]; [exists 0; split; [done|lia]| |lia]. eexists. split; [reflexivity|].
  replace (e' + k) with (- - (e' + k)) by lia. rewrite shiftl_floor by lia. split; [apply Z.div_pos; lia|]. apply Z.div_le_upper_bound; lia.
Qed.

(** ** Integers as doubles *)
Lemma iter_xO p d : Z.pos (Pos.iter xO p d) = Z.pos p * 2 ^ Z.pos d.
Proof.
  induction d as [|d IH] using Pos.peano_ind; [cbn; lia|]. rewrite Pos.iter_succ, Pos2Z.inj_xO, IH, Pos2Z.inj_succ, Z.pow_succ_r by lia. lia.
Qed.
Lemma dZ_exact M : 0 < M < 2 ^ 53 -> exactly M (dZ M).
Proof.
  intros HM. destruct M as [|p|p]; try lia. unfold dZ, binary_normalize, binary_round. rewrite Z.add_0_r.
  assert (Hd : 0 < Z.pos (digits2_pos p) <= 53) by (split; [lia|]; apply (digits_le (Z.pos p)); lia).
  assert (Ef : fexp64 (Z.pos (digits2_pos p)) = Z.pos (digits2_pos p) - 53) by (unfold fexp, emin; lia). rewrite Ef. unfold shl_align. rewrite Z.sub_0_r.
  (* the mantissa is aligned to 53 digits, so nothing is shifted out *)
  set (d := Z.pos (digits2_pos p) - 53) in *. assert (Hal : exists m, match d with Z.neg d0 => (Pos.iter xO p d0, d) | _ => (p, 0) end = (m, d) /\ Z.pos m = Z.pos p * 2 ^ (- d)).
  { destruct d as [|q|q] eqn:Eq; [exists p; split; [done|cbn; lia]|lia|]. exists (Pos.iter xO p q). split; [done|]. by rewrite iter_xO. }
  destruct Hal as (m & -> & Em). pose proof (digits_pos p) as Hp.
  assert (Hm : Zdigits2 (Z.pos m) = 53).
  { assert (Z.pos m < 2 ^ 53). { rewrite Em. replace 53 with (Z.pos (digits2_pos p) + - d) by lia. rewrite Z.pow_add_r by lia. nia. }
    assert (2 ^ 52 <= Z.pos m). { rewrite Em. replace 52 with (Z.pos (digits2_pos p) - 1 + - d) by lia. rewrite Z.pow_add_r by lia. nia. }
    pose proof (digits_le (Z.pos m) 53). pose proof (digits_lt (Z.pos m)). assert (52 < Zdigits2 (Z.pos m)); [|lia].
    apply (Z.pow_lt_mono_r_iff 2); [lia|cbn; lia|lia]. }
  assert (Hfix : fexp64 (53 + d) = d) by (unfold fexp, emin; lia). assert (Hr : rounded (Z.pos m) d loc_Exact = (Z.pos m, d)).
  { unfold rounded, shr_fexp. rewrite Hm, Hfix, Z.sub_diag. done. }
  destruct (round_aux_spec false (Z.pos m) d loc_Exact) as [_ Hs]; [lia|]. rewrite Hr in Hs. destruct Hs as (k & Hk & Hek & Hres).
  rewrite Hm, Hfix, Z.max_id in Hek. assert (k = 0) as -> by lia. rewrite Z.add_0_r, Z.div_1_r in Hres. rewrite Hres by lia. split; [lia|done].
Qed.

(** ** Signs *)
(** Neither NaN nor below zero. *)
Definition nonneg (x : double) : Prop :=
  match x with S754_nan => False | S754_zero _ => True | S754_infinity s | S754_finite s _ _ => s = false end.
Definition isNum (x : double) : Prop := match x with S754_nan => False | _ => True end.
(** Not NaN, with a mantissa of 53 bits. *)
Definition fits (x : double) : Prop := exists sx, rounds sx x.
Lemma binary_round_rounds sx m e : rounds sx (binary_round 53 1024 sx m e).
Proof. unfold binary_round. destruct (shl_align _ _ _) as [mz ez]. by apply round_aux_spec. Qed.
Lemma normalize_fits m e s : fits (binary_normalize 53 1024 m e s).
Proof. destruct m; eexists; [done|apply binary_round_rounds..]. Qed.
Lemma normalize_nonneg m e s : 0 <= m -> nonneg (binary_normalize 53 1024 m e s).
Proof.
  destruct m as [|p|p]; [done| |lia]. intros _. cbn. pose proof (binary_round_rounds false p e) as H. by destruct (binary_round _ _ _ _ _); cbn in *; [..|destruct H].
Qed.
Lemma dZ_nonneg z : 0 <= z -> nonneg (dZ z).
Proof. apply normalize_nonneg. Qed.
Lemma nonneg_isNum x : nonneg x -> isNum x.
Proof. by destruct x. Qed.
Lemma fits_isNum x : fits x -> isNum x.
Proof. intros [sx H]. by destruct x. Qed.
Lemma max_nonneg x y : nonneg x -> nonneg y -> nonneg (d_max x y).
Proof. unfold d_max. by destruct (d_lt x y). Qed.
Lemma add_nonneg x y : nonneg x -> nonneg y -> nonneg (x + y)%D.
Proof.
  destruct x as [sx|sx| |sx mx ex], y as [sy|sy| |sy my ey]; intros Hx Hy; try done; cbn in Hx, Hy; subst; try done.
  - by destruct sx, sy.
  - unfold d_add, SFadd. apply normalize_nonneg. cbn. lia.
Qed.
(** A positive finite double. *)
Definition positive_ (x : double) : Prop := match x with S754_finite false _ _ => True | _ => False end.
Lemma mul_nonneg x y : positive_ x -> nonneg y -> nonneg (x * y)%D.
Proof.
  destruct x as [sx|sx| |[|] mx ex]; try done. intros _. destruct y as [sy|sy| |sy my ey]; intros Hy; try done; cbn in Hy; subst; try done.
  unfold d_mul, SFmul. cbn [xorb]. destruct (round_aux_spec false (Z.pos (mx * my)) (ex + ey) loc_Exact) as [H _]; [lia|].
  by destruct (binary_round_aux _ _ _ _ _ _); cbn in *; [..|destruct H].
Qed.
Lemma d_mul_comm x y : (x * y)%D = (y * x)%D.
Proof.
  unfold d_mul, SFmul. destruct x, y; rewrite ?(xorb_comm _ s); try done. by rewrite xorb_comm, Pos.mul_comm, Z.add_comm.
Qed.
Lemma div_rounds sx mx ex my ey : rounds sx (S754_finite sx mx ex / S754_finite false my ey)%D.
Proof.
  unfold d_div, SFdiv. destruct (SFdiv_core_binary _ _ _ _ _ _) as [[mz ez] lz] eqn:E. rewrite xorb_false_r. apply round_aux_spec.
  unfold SFdiv_core_binary in E. destruct (Z.div_eucl _ _) as [q r] eqn:Eq. injection E as <- <- <-.
  rewrite (surjective_pairing (Z.div_eucl _ _)) in Eq. injection Eq as <- _.
  match goal with |- 0 <= (Z.div_eucl ?a ?b).1 => change (0 <= a / b) end. apply Z.div_pos; [|lia].
  destruct (_ - _) eqn:?; try lia. apply Z.shiftl_nonneg; lia.
Qed.
Lemma div_isNum x y : isNum x -> positive_ y -> isNum (x / y)%D.
Proof.
  destruct y as [sy|sy| |[|] my ey]; try done. intros Hx _. destruct x as [sx|sx| |sx mx ex]; try done.
  apply fits_isNum. eexists. apply div_rounds.
Qed.
Lemma rounds_nonneg x : rounds false x -> nonneg x.
Proof. destruct x; cbn; tauto. Qed.
Lemma div_nonneg x y : nonneg x -> positive_ y -> nonneg (x / y)%D.
Proof.
  destruct y as [sy|sy| |[|] my ey]; try done. intros Hx _. destruct x as [sx|sx| |sx mx ex]; try done; cbn in Hx; subst; [done|].
  apply rounds_nonneg, div_rounds.
Qed.
Lemma one_minus_fits q : isNum q -> fits (d1 - q)%D.
Proof.
  destruct q as [sq|sq| |sq mq eq]; intros Hq; try done; [by exists false|by exists (negb sq)|]. apply normalize_fits.
Qed.
Lemma clamp_one v : fits v -> atMostOne (d_clamp v d0 d1).
Proof.
  intros [sx Hv]. unfold d_clamp, d_lt, SFltb. change d0 with (S754_zero false). change d1 with (S754_finite false 4503599627370496 (-52)).
  destruct v as [s|s| |[|] m e]; try done; [by destruct s|]. destruct Hv as [_ Hm]. cbn -[Z.compare Pos.compare].
  destruct (Z.compare_spec (-52) e) as [<-|H|H].
  - change (Pos.compare_cont Eq) with Pos.compare. destruct (Pos.compare_spec 4503599627370496 m) as [<-|H|H]; [done..|]. split; [done|]. change (2 ^ (- -52)) with 4503599627370496. by apply Z.lt_le_incl, Pos2Z.pos_lt_pos.
  - cbn. lia.
  - cbn. split; [lia|]. apply Z.lt_le_incl. eapply Z.lt_le_trans; [exact Hm|]. apply Z.pow_le_mono_r; lia.
Qed.
Lemma exactly_positive M x : exactly M x -> positive_ x.
Proof. by destruct x as [| | |[|]]. Qed.

(** ** Order *)
Lemma compare_flip x y : isNum x -> isNum y -> SFcompare y x = option_map CompOpp (SFcompare x y).
Proof.
  destruct x as [[]|[]| |[] mx ex], y as [[]|[]| |[] my ey]; intros Hx Hy; try done; cbn -[Z.compare Pos.compare_cont].
  all: rewrite (Z.compare_antisym ex ey); destruct (ex ?= ey); try done; cbn -[Pos.compare_cont]; rewrite (Pos.compare_cont_antisym mx my Eq); done.
Qed.
Lemma compare_num x y : isNum x -> isNum y -> SFcompare x y <> None.
Proof. destruct x as [[]|[]| |[] mx ex], y as [[]|[]| |[] my ey]; intros Hx Hy; try done; cbn; by destruct (_ ?= _). Qed.
Lemma d_lt_le x y : d_lt x y = true -> d_le x y = true.
Proof. unfold d_lt, d_le, SFltb, SFleb. by destruct (SFcompare x y) as [[]|]. Qed.
Lemma d_not_lt x y : isNum x -> isNum y -> d_lt x y = false -> d_le y x = true.
Proof.
  intros Hx Hy. unfold d_lt, d_le, SFltb, SFleb. rewrite (compare_flip x y Hx Hy). pose proof (compare_num x y Hx Hy). by destruct (SFcompare x y) as [[]|].
Qed.
Lemma d_le_num x y : d_le x y = true -> isNum y.
Proof. by destruct x as [[]|[]| |[]], y. Qed.
Lemma max_ge k x : d_le k k = true -> d_le k (d_max k x) = true.
Proof. intros Hk. unfold d_max. destruct (d_lt k x) eqn:E; [by apply d_lt_le|done]. Qed.
Lemma min_ge k x y : d_le k x = true -> d_le k y = true -> d_le k (d_min x y) = true.
Proof. intros Hx Hy. unfold d_min. by destruct (d_lt y x). Qed.
Lemma clamp_ge v lo hi : isNum v -> d_le lo lo = true -> d_le lo hi = true -> d_le lo (d_clamp v lo hi) = true.
Proof.
  intros Hv Hl Hh. unfold d_clamp. destruct (d_lt v lo) eqn:E; [done|]. destruct (d_lt hi v); [done|]. apply d_not_lt; [done|by eapply d_le_num|done].
Qed.
