(* ===== verification/Governor.v ===== *)
(** * The governors (main.cc, engine.h)

    The threads of [main] that hold memory and disk use within their budgets, each as
    its state and one tick: the seqno-index budget, the memory governor, the compaction
    rate limit, the space governor with the write tokens it fills, and the round of
    kvstore syncs.  What a tick reads (clocks, resident memory, disk use, operation
    counts, the results of magma) is its input and what it sets in the cache, magma and
    the bucket its output.  [None] in the memory governor is a conversion whose result C++
    does not define; elsewhere such a conversion gives an arbitrary [junk]. *)
From stdpp Require Import prelude list option.
From Stdlib Require Import ZArith Lia.
From coqutil Require Import Datatypes.RecordSettersUsingExistingGetters.
From S2P Require Import Prelude Double.
Open Scope Z_scope.

(** A double converted to [int64_t]. *)
Definition toI64 (x : double) : option Z := v ← d_trunc x; if (- 2 ^ 63 <=? v) && (v <? 2 ^ 63) then Some v else None.

(** ** Charging the seqno index *)
Module SeqIndexBudget.
Section budget.
Context (cacheSize writeQueueMem : Z).
Definition docFloor : Z := Z.min cacheSize (Z.max (cacheSize ÷ 8) writeQueueMem).
Definition step : Z := 64 * 1024 * 1024.
Record state := mkState { docBudget : Z; charged : Z }.
Definition start : state := mkState cacheSize 0.
(** One tick with an index of [idx] bytes: the cache budget and the block cache reserve
    it sets, if any. *)
Definition tick (idx : Z) (s : state) : state * option Z * option Z :=
  let fromCache := Z.min idx (cacheSize - docFloor) in
  let doc := cacheSize - fromCache in
  let over := idx - fromCache in
  let setDoc := (step <=? docBudget s - doc) || ((doc =? docFloor) && negb (docBudget s =? doc)) in
  let charge := step <=? over - charged s in
  (mkState (if setDoc then doc else docBudget s) (if charge then over else charged s),
   if setDoc then Some doc else None, if charge then Some over else None).
End budget.
End SeqIndexBudget.

(** ** The memory governor *)
Module Boost.
Record Params := mkParams {
  base : Z;                    (* memQuota / shards *)
  maxExtra : Z;
  shards : Z;
  rssLimit : Z;
  rssHard : Z;
  idleNs : Z;
  writeCache : Z;
  readBoostWriteRate : Z;
  dataCacheMaxWriteRate : Z;
}.
Definition mb : Z := 1024 * 1024.
Definition params (memQuota shards readBoostMB readBoostMaxRssMB memHardRssMB readBoostIdleMs writeCache rate dataRate : Z) : Params :=
  mkParams (memQuota / shards) (readBoostMB * mb ÷ shards) shards (readBoostMaxRssMB * mb)
    (if 0 <? memHardRssMB then memHardRssMB * mb else readBoostMaxRssMB * mb + 550 * mb) (readBoostIdleMs * 1000000) writeCache rate dataRate.
Record state := mkState {
  extra : Z;
  last : Z;
  lastWrite : Z;
  lastGrow : Z;
  writeRate : double;
  purged : bool;
  dataCachePaused : bool;
}.
Definition start (now : Z) : state := mkState 0 0 now now d0 false false.
(** What a tick sets: the quota of every shard (and whether it evicts at once), whether
    data blocks are cached, and a purge of the allocator alone. *)
Inductive action := SetMemoryQuota (quota : Z) (shrink : bool) | SetDataBlockCachingPaused (p : bool) | Purge.

Section governor.
Context (p : Params).
Definition minExtra : Z := - base p ÷ 2.
Definition bstep : Z := Z.max (maxExtra p ÷ 16) mb.
Definition rssLow : Z := if 128 * mb <? rssLimit p then rssLimit p - 128 * mb else 0.
Definition apply (e : Z) (shrink : bool) (s : state) : state * list action :=
  ({ s with extra := e }, [SetMemoryQuota (u64 (base p + e)) shrink]).
(** What the write rate leaves of the boost. *)
Definition scaledCap (rate : double) : option Z :=
  if readBoostWriteRate p =? 0 then Some 0
  else toI64 (dZ (maxExtra p) * d_clamp (d1 - rate / dZ (readBoostWriteRate p)) d0 d1)%D.
(** The quota part of a tick, at [now] with [r] bytes resident. *)
Definition decide_ (wrote resumed : bool) (cap now r : Z) (s : state) : state * list action :=
  if (0 <? rssLimit p) && (rssHard p <? r) && (minExtra <? extra s) then
    apply (Z.max minExtra (extra s - Z.max bstep (2 * ((r - rssHard p) ÷ shards p)))) true s
  else if (0 <? rssLimit p) && (rssLimit p <? r) && (0 <? extra s) then
    apply (Z.max 0 (extra s - Z.max bstep (2 * ((r - rssLimit p) ÷ shards p)))) true s
  else if (extra s <? 0) && (r <? rssHard p - 256 * mb) && (1000000000 <=? now - lastGrow s) then
    apply (Z.min 0 (extra s + bstep)) false { s with lastGrow := now }
  else if resumed && (0 <? extra s) && (cap <? extra s) then
    let wc := if 0 <? writeCache p then writeCache p else base p ÷ 2 in
    apply (Z.max minExtra (Z.min 0 cap - wc)) true s
  else if (cap <? extra s) && ((cap =? 0) || (bstep ÷ 2 <=? extra s - cap)) then apply cap true s
  else if negb wrote && (now - lastWrite s <? idleNs p) then (s, [])
  else if negb wrote && negb (purged s) then ({ s with purged := true }, [Purge])
  else if ((rssLimit p =? 0) || (r <? rssLow)) && (bstep ÷ 2 <=? cap - extra s) && (1000000000 <=? now - lastGrow s) then
    apply (Z.min cap (extra s + bstep)) false { s with lastGrow := now }
  else (s, []).
(** Pausing data blocks in the cache shrinks the quota to its floor. *)
Definition pauseData (pause : bool) (now : Z) (s : state) : state * list action :=
  if Bool.eqb pause (dataCachePaused s) then (s, [])
  else if pause then
    let '(s', a) := apply minExtra true { s with dataCachePaused := true } in ({ s' with lastGrow := now }, SetDataBlockCachingPaused true :: a)
  else ({ s with dataCachePaused := false }, [SetDataBlockCachingPaused false]).
Definition tickRate (n : Z) (s : state) : double := if last s =? 0 then d0 else (dZ (u64 (n - last s)) * dZ 10)%D.
(** A tick: [n] is the sum of the shards' sequence numbers. *)
Definition tick (n now r : Z) (s : state) : option (state * list action) :=
  let rate := (lit 7 1 * writeRate s + lit 3 1 * tickRate n s)%D in
  let wrote := negb (last s =? 0) && negb (n =? last s) in
  let pause := (0 <? dataCacheMaxWriteRate p) && d_lt (dZ (dataCacheMaxWriteRate p)) rate in
  let '(s2, a1) := pauseData pause now { s with writeRate := rate; last := n } in
  let resumed := wrote && (idleNs p <=? now - lastWrite s2) in
  cap ← (if wrote then scaledCap (d_max rate (tickRate n s)) else Some (maxExtra p));
  let s3 := if wrote then { s2 with lastWrite := now; purged := false } else s2 in
  let '(s4, a2) := decide_ wrote resumed cap now r s3 in
  Some (s4, a1 ++ a2).
End governor.
End Boost.

(** ** The compaction rate limit *)
Module CompactionLimit.
Record state := mkState { last : Z; lastSets : Z; setRate : double; applied : Z }.
Definition start : state := mkState 0 0 d0 0.
Section limit.
Context (junk compactionRateLimitMB compactionRatePerSet compactionLimitMinGets : Z).
Definition floorBytes : double := (dZ compactionRateLimitMB * dZ 1024 * dZ 1024)%D.
(** A tick with [n] GETs answered and [sets] SETs so far: the limit it sets, if any. *)
Definition tick (n sets : Z) (s : state) : state * option Z :=
  let rate := if last s =? 0 then d0 else (dZ (u64 (n - last s)) * dZ 2)%D in
  let tickSets := if lastSets s =? 0 then d0 else (dZ (u64 (sets - lastSets s)) * dZ 2)%D in
  let setRate' := d_max tickSets (lit 9 1 * setRate s + lit 1 1 * tickSets)%D in
  let limit := if d_le (dZ compactionLimitMinGets) rate
               then castTo 0 (2 ^ 64 - 1) junk (d_trunc (d_max floorBytes (setRate' * dZ compactionRatePerSet)%D)) else 0 in
  let changed := negb (Bool.eqb (limit =? 0) (applied s =? 0)) ||
                 ((0 <? limit) && ((u64 (applied s * 11) / 10 <? limit) || (limit <? u64 (applied s * 9) / 10))) in
  (mkState n sets setRate' (if changed then limit else applied s), if changed then Some limit else None).
End limit.
End CompactionLimit.

(** ** Write tokens *)
Module WriteTokens.
Record state := mkState { writeLimited_ : bool; writeTokens_ : Z }.
Definition TakeWriteToken (s : state) : bool * state :=
  if writeLimited_ s then (0 <? writeTokens_ s, { s with writeTokens_ := writeTokens_ s - 1 }) else (true, s).
Definition HasWriteTokens (s : state) : bool := negb (writeLimited_ s) || (0 <? writeTokens_ s).
Definition RefillWriteTokens (n cap : Z) (s : state) : state := { s with writeTokens_ := Z.min (writeTokens_ s + n) cap }.
Definition SetWriteLimited (v : bool) (s : state) : state := { s with writeLimited_ := v }.
End WriteTokens.

(** ** The space governor *)
Module Space.
Import WriteTokens.
Definition kMinRate : double := dZ 30000.
Definition kBytesPerSet : double := dZ 1100.
Definition kApproachSec : double := dZ 60.
Definition kGain : double := lit 1 1.
Definition kCheckTicks : Z := 100.
Definition kFragMin : double := lit 25 2.
Definition kFragStep : double := lit 1 2.
Definition kFragTicks : Z := 500.
Definition kFragStagger : double := lit 6 2.
Record state := mkState {
  frag : double;
  rate : double;
  ema : double;
  lastSets : Z;
  tickNo : Z;
  bucket : WriteTokens.state;
  ratios : list double;         (* the fragmentation ratio each shard was given *)
}.
Section governor.
Context (junk diskLimitBytes shards : Z) (diskPaceAt diskFragHigh diskFragLow fragMax : double).
Definition budget : double := dZ diskLimitBytes.
Definition target : double := ((diskPaceAt + lit 15 3) * budget)%D.
Definition engage : double := (diskPaceAt * budget)%D.
Definition release : double := ((diskPaceAt - lit 5 2) * budget)%D.
Definition ceiling : double := (d_min (lit 99 2) (diskPaceAt + lit 35 3) * budget)%D.
Definition fragHigh : double := (diskFragHigh * budget)%D.
Definition fragLow : double := (diskFragLow * budget)%D.
Definition applyFrag (f : double) : list double :=
  map (fun i => d_max kFragMin (f - (if (1 <? shards)%Z then kFragStagger * dZ i / dZ (shards - 1) else d0))%D) (Z.of_nat <$> seq 0 (Z.to_nat shards)).
Definition start (disk sets : Z) (w : WriteTokens.state) : state := mkState fragMax d0 (dZ disk) sets 0 w (applyFrag fragMax).

(** The GC ratio's turn in a check. *)
Definition stepFrag (s : state) : state :=
  if d_lt d0 fragHigh && ((tickNo s mod kFragTicks =? 0) || (d_lt d0 (rate s) && d_lt fragHigh (ema s))) then
    let f := if d_lt fragHigh (ema s) then d_max kFragMin (frag s - kFragStep)%D
             else if d_lt (ema s) fragLow then d_min fragMax (frag s + kFragStep)%D else frag s in
    if d_eq f (frag s) then { s with frag := f } else { s with frag := f; ratios := applyFrag f }
  else s.
(** The write rate's turn: [slope] is the growth since the last check. *)
Definition paceWrites (disk setRate slope : double) (s : state) : state :=
  if d_eq (rate s) d0 then
    if d_lt engage (ema s) || d_lt engage (ema s + dZ 10 * slope)%D then
      let r := d_clamp (d_max d0 (target - ema s) / kApproachSec / kBytesPerSet)%D kMinRate (d_max kMinRate setRate) in
      { s with rate := r; bucket := SetWriteLimited true (RefillWriteTokens 0 0 (bucket s)) }
    else s
  else
    let want := ((target - ema s) / kApproachSec)%D in
    let r := d_max kMinRate (rate s + kGain * (want - slope) / kBytesPerSet)%D in
    let r := if d_lt ceiling disk then kMinRate else r in
    let r := d_min r (d_max kMinRate (lit 15 1 * setRate)%D) in
    if d_lt (ema s) release && d_lt setRate (r * lit 75 2)%D
    then { s with rate := d0; bucket := SetWriteLimited false (bucket s) }
    else { s with rate := r }.
(** One tick of 10 ms, with [disk] bytes in use and [sets] SETs so far. *)
Definition refill (s : state) : state :=
  if d_lt d0 (rate s) then
    let to x := castTo (- 2 ^ 63) (2 ^ 63 - 1) junk (d_trunc x) in
    { s with bucket := RefillWriteTokens (to (rate s / dZ 100)%D) (to (rate s / dZ 20)%D) (bucket s) }
  else s.
Definition tick (disk sets : Z) (s : state) : state :=
  let s1 := refill s in
  let s2 := { s1 with tickNo := tickNo s1 + 1 } in
  if negb (tickNo s2 mod kCheckTicks =? 0) then s2
  else
    let setRate := dZ (u64 (sets - lastSets s2)) in
    let d := dZ disk in
    let e := (ema s2 + lit 3 1 * (d - ema s2))%D in
    let slope := (e - ema s2)%D in
    paceWrites d setRate slope (stepFrag { s2 with lastSets := sets; ema := e }).
End governor.
End Space.

(** ** Syncing kvstores in turn *)
Module SyncRound.
Record state := mkState { vb : Z; synced : list Z }.
Definition start (vbuckets : Z) : state := mkState 0 (replicate (Z.to_nat vbuckets) 0).
(** One turn: the kvstore's newest sequence number, if magma gives it, and whether a
    sync of it succeeds; the vbucket synced, if any. *)
Definition turn (vbuckets : Z) (maxSeqno : option Z) (syncOk : bool) (s : state) : state * option Z :=
  let i := Z.to_nat (vb s) in
  let call := match maxSeqno with Some q => negb (q =? nth i (synced s) 0) | None => false end in
  let done := match maxSeqno with Some q => if call && syncOk then <[i := q]> (synced s) else synced s | None => synced s end in
  (mkState (u16 ((vb s + 1) mod vbuckets)) done, if call then Some (vb s) else None).
End SyncRound.
