(* ===== verification/GovernorSpec.v ===== *)
(** * What the governors keep

    The memory governor's quota stays between half the base quota and the base plus the
    boost, whatever it reads, and falls to its floor while resident memory is over the
    hard limit; the seqno index is charged in full but for two steps; the space governor
    limits writes exactly while its rate is set, never below the least rate, and no more
    writes pass than tokens were given; a round of syncs visits every vbucket. *)
From stdpp Require Import prelude list option.
From Stdlib Require Import ZArith Lia SpecFloat.
From coqutil Require Import Datatypes.RecordSettersUsingExistingGetters.
From S2P Require Import Prelude Double Rounding Governor.
Open Scope Z_scope.

Module BoostSpec.
Import Boost.
(** The options of the memory governor, as [main] has them after parsing: counts that
    fit their types, with products that do not overflow. *)
Record Opts := mkOpts { memQuota : Z; nShards : Z; boostMB : Z; maxRssMB : Z; hardRssMB : Z; idleMs : Z; wCache : Z; writeRateCap : Z; dataRate : Z }.
Definition opts_ok (o : Opts) : Prop :=
  0 <= memQuota o < 2 ^ 62 /\ 0 < nShards o < 2 ^ 16 /\ 0 < boostMB o < 2 ^ 33 /\ 0 <= maxRssMB o < 2 ^ 42 /\ 0 <= hardRssMB o < 2 ^ 42 /\
  0 <= writeRateCap o < 2 ^ 53.
Definition ofOpts (o : Opts) : Params :=
  params (memQuota o) (nShards o) (boostMB o) (maxRssMB o) (hardRssMB o) (idleMs o) (wCache o) (writeRateCap o) (dataRate o).
Definition params_ok (p : Params) : Prop :=
  0 <= base p < 2 ^ 62 /\ 0 < maxExtra p < 2 ^ 53 /\ 0 < shards p /\ 0 <= readBoostWriteRate p < 2 ^ 53.
Lemma ofOpts_ok o : opts_ok o -> params_ok (ofOpts o).
Proof.
  intros (Hq & Hs & Hb & _ & _ & Hw). unfold params_ok, ofOpts, params, mb. cbn [base maxExtra shards readBoostWriteRate].
  repeat split; try lia; [apply Z.div_pos; lia|apply Z.div_lt_upper_bound; nia| |].
  - rewrite Z.quot_div_nonneg by lia. apply Z.div_str_pos. lia.
  - rewrite Z.quot_div_nonneg by lia. apply Z.div_lt_upper_bound; nia.
Qed.

Section boost.
Context (p : Params) (Hp : params_ok p).
Lemma scaledCap_bound rate : nonneg rate -> exists c, scaledCap p rate = Some c /\ 0 <= c <= maxExtra p.
Proof using Hp.
  destruct Hp as (_ & Hm & _ & Hw). intros Hr. unfold scaledCap. destruct (Z.eqb_spec (readBoostWriteRate p) 0); [exists 0; split; [done|lia]|].
  assert (Hq : positive_ (dZ (readBoostWriteRate p))) by (eapply exactly_positive, dZ_exact; lia).
  assert (Hc : atMostOne (d_clamp (d1 - rate / dZ (readBoostWriteRate p)) d0 d1)%D) by (apply clamp_one, one_minus_fits, div_isNum; [by apply nonneg_isNum|done]).
  destruct (mul_share (maxExtra p) _ _ Hm (dZ_exact _ Hm) Hc) as (v & Ev & Hv). exists v. split; [|done].
  unfold toI64. rewrite Ev. cbn [mbind option_bind]. destruct (Z.leb_spec (- 2 ^ 63) v), (Z.ltb_spec v (2 ^ 63)); cbn [andb]; (done || lia).
Qed.

Definition extra_ok (s : state) : Prop := minExtra p <= extra s <= maxExtra p.
Definition action_ok (a : action) : Prop :=
  match a with SetMemoryQuota q _ => base p - base p ÷ 2 <= q <= base p + maxExtra p | _ => True end.
Lemma minExtra_eq : minExtra p = - (base p ÷ 2).
Proof using Type. unfold minExtra. by rewrite Z.quot_opp_l. Qed.
Lemma half_base : 0 <= base p ÷ 2 <= base p.
Proof using Hp. destruct Hp as (Hb & _). rewrite Z.quot_div_nonneg by lia. split; [apply Z.div_pos|apply Z.div_le_upper_bound]; lia. Qed.
Lemma bstep_pos : 0 < bstep p.
Proof using Type. unfold bstep, mb. lia. Qed.
Definition res_ok (x : state * list action) : Prop := extra_ok x.1 /\ Forall action_ok x.2.
Lemma apply_ok e sh s : minExtra p <= e <= maxExtra p -> res_ok (apply p e sh s).
Proof using Hp.
  intros He. split; [exact He|]. pose proof half_base. rewrite minExtra_eq in He. destruct Hp as (Hb & Hm & _).
  repeat constructor; rewrite u64_small; lia.
Qed.
Lemma nothing_ok s : extra_ok s -> res_ok (s, []).
Proof using Type. by split. Qed.
Lemma decide_within wrote resumed cap now r s : 0 <= cap <= maxExtra p -> extra_ok s -> res_ok (decide_ p wrote resumed cap now r s).
Proof using Hp.
  intros Hc Hs. pose proof half_base as Hh. pose proof minExtra_eq as Hmin. pose proof bstep_pos as Hst. assert (Hm : 0 < maxExtra p) by (destruct Hp; lia). unfold decide_.
  repeat case_match; first [by apply nothing_ok|by split; [|repeat constructor]|apply apply_ok; unfold extra_ok in Hs; lia].
Qed.
Lemma pauseData_ok pause now s : extra_ok s -> res_ok (pauseData p pause now s) /\ writeRate (pauseData p pause now s).1 = writeRate s.
Proof using Hp.
  intros Hs. unfold pauseData. destruct (Bool.eqb _ _); [done|]. destruct pause; [|split; [split; [done|repeat constructor]|done]].
  pose proof (apply_ok (minExtra p) true { s with dataCachePaused := true }) as [H1 H2]; [split; [done|]; destruct Hp as (_ & Hm & _); pose proof half_base; rewrite minExtra_eq; lia|].
  split; [split; [exact H1|by constructor]|done].
Qed.
Lemma tickRate_nonneg n s : nonneg (tickRate n s).
Proof using Type.
  unfold tickRate. destruct (_ =? _); [done|]. rewrite d_mul_comm. apply mul_nonneg; [done|]. apply dZ_nonneg, u64_range.
Qed.
Definition good (s : state) : Prop := extra_ok s /\ nonneg (writeRate s).
Lemma decide_rate wrote resumed cap now r s : writeRate (decide_ p wrote resumed cap now r s).1 = writeRate s.
Proof using Type. unfold decide_. by repeat case_match. Qed.
Lemma tick_within n now r s : good s -> exists s' l, tick p n now r s = Some (s', l) /\ good s' /\ Forall action_ok l.
Proof using Hp.
  intros [Hs Hr]. unfold tick. set (rate := (_ + _)%D). assert (Hrate : nonneg rate) by (apply add_nonneg; apply mul_nonneg; auto using tickRate_nonneg; done).
  clearbody rate. set (s1 := { s with writeRate := rate; last := n }).
  destruct (pauseData_ok ((0 <? dataCacheMaxWriteRate p) && (d_lt (dZ (dataCacheMaxWriteRate p)) rate)) now s1 Hs) as [[H1 H2] H3].
  destruct (pauseData p _ now s1) as [s2 a1]. cbn [fst snd] in *. set (wrote := negb _ && negb _).
  assert (Hcap : exists c, (if wrote then scaledCap p (d_max rate (tickRate n s)) else Some (maxExtra p)) = Some c /\ 0 <= c <= maxExtra p).
  { destruct wrote; [apply scaledCap_bound, max_nonneg; [done|apply tickRate_nonneg]|]. destruct Hp as (_ & Hm & _). exists (maxExtra p). split; [done|lia]. }
  destruct Hcap as (cap & -> & Hcap). cbn [mbind option_bind]. set (s3 := if wrote then _ else _). assert (H4 : extra_ok s3 /\ writeRate s3 = rate) by (subst s3; destruct wrote; done).
  clearbody s3. set (resumed := wrote && _). clearbody resumed wrote. pose proof (decide_within wrote resumed cap now r s3 Hcap (proj1 H4)) as [H5 H6].
  pose proof (decide_rate wrote resumed cap now r s3) as H7. destruct (decide_ p _ _ _ _ _ _) as [s4 a2]. cbn [fst snd] in *.
  eexists _, _. split; [reflexivity|]. split; [split; [done|]|by apply Forall_app]. by rewrite H7, (proj2 H4).
Qed.
(** The ticks, each with the sequence numbers, the time and the resident memory it reads. *)
Fixpoint run (ins : list (Z * Z * Z)) (s : state) : option (state * list action) :=
  match ins with
  | [] => Some (s, [])
  | (n, now, r) :: rest => '(s', a) ← tick p n now r s; '(s2, l) ← run rest s'; Some (s2, a ++ l)
  end.
Lemma run_app a b s : run (a ++ b) s = '(s1, l1) ← run a s; '(s2, l2) ← run b s1; Some (s2, l1 ++ l2).
Proof using Type.
  revert s. induction a as [|[[n now] r] a IH]; intros s; cbn; [by destruct (run b s) as [[]|]|]. destruct (tick p n now r s) as [[s1 l1]|]; [|done]. cbn.
  rewrite IH. destruct (run a s1) as [[s2 l2]|]; [|done]. cbn. destruct (run b s2) as [[s3 l3]|]; [|done]. cbn. by rewrite app_assoc.
Qed.
Lemma run_ok ins : forall s, good s -> exists s' l, run ins s = Some (s', l) /\ good s' /\ Forall action_ok l.
Proof using Hp.
  induction ins as [|[[n now] r] ins IH]; intros s Hs; [by exists s, []|]. cbn [run]. destruct (tick_within n now r s Hs) as (s1 & l1 & -> & H1 & H2). cbn.
  destruct (IH s1 H1) as (s2 & l2 & -> & H3 & H4). cbn. eexists _, _. split; [done|]. split; [done|by apply Forall_app].
Qed.
Lemma start_good now : good (start now).
Proof using Hp. pose proof half_base. split; [|done]. unfold extra_ok. rewrite minExtra_eq. destruct Hp as (_ & Hm & _). cbn. lia. Qed.

(** Over the hard limit every tick gives a step back, or is at the floor. *)
Lemma decide_sheds wrote resumed cap now r s : 0 < rssLimit p <= rssHard p -> rssHard p < r -> 0 <= cap -> extra_ok s ->
  extra (decide_ p wrote resumed cap now r s).1 <= Z.max (minExtra p) (extra s - bstep p).
Proof using Hp.
  intros Hl Hr Hc Hs. pose proof half_base as Hh. pose proof minExtra_eq as Hmin. pose proof bstep_pos as Hst. unfold decide_, apply, extra_ok in *.
  assert (Hlow : rssLow p <= rssLimit p) by (unfold rssLow, mb; destruct (_ <? _); lia). assert (0 < mb) by (unfold mb; lia).
  repeat case_match; cbn; unfold const; lia.
Qed.
Lemma tick_sheds n now r s s' l : 0 < rssLimit p <= rssHard p -> rssHard p < r -> good s -> tick p n now r s = Some (s', l) ->
  extra s' <= Z.max (minExtra p) (extra s - bstep p).
Proof using Hp.
  intros Hl Hr [Hs Hn]. unfold tick. set (s1 := { s with writeRate := _; last := n }).
  match goal with |- context [pauseData p ?b now s1] => set (pause := b); pose proof (pauseData_ok pause now s1 Hs) as [[H1 _] _]; assert (H2 : extra (pauseData p pause now s1).1 <= extra s) end.
  { unfold pauseData, apply. destruct (Bool.eqb _ _), pause; cbn; unfold const; destruct Hs; lia. }
  destruct (pauseData p pause now s1) as [s2 a1]. cbn [fst] in H1, H2. set (wrote := negb _ && negb _).
  match goal with |- mbind _ ?c = _ -> _ => destruct c as [cap|] eqn:Ec end; [|done]. cbn [mbind option_bind]. set (s3 := if wrote then { s2 with lastWrite := now; purged := false } else s2).
  assert (H4 : extra_ok s3 /\ extra s3 = extra s2) by (subst s3; destruct wrote; done). 
  assert (Hcap : 0 <= cap).
  { destruct wrote; [|injection Ec as <-; destruct Hp as (_ & Hm & _); lia]. edestruct scaledCap_bound as (c & Ec' & Hc'); [|rewrite Ec in Ec'; injection Ec' as ->; lia].
    apply max_nonneg; [apply add_nonneg; apply mul_nonneg; auto using tickRate_nonneg; done|apply tickRate_nonneg]. }
  pose proof (decide_sheds wrote (wrote && (idleNs p <=? now - lastWrite s2)) cap now r s3 Hl Hr Hcap (proj1 H4)) as H5. destruct (decide_ p _ _ _ _ _ _) as [s4 a2]. intros [= <- _]. cbn [fst] in H5. lia.
Qed.
Lemma run_sheds ins : forall s s' l, 0 < rssLimit p <= rssHard p -> Forall (fun '(_, _, r) => rssHard p < r) ins -> good s ->
  run ins s = Some (s', l) -> extra s' <= Z.max (minExtra p) (extra s - Z.of_nat (length ins) * bstep p).
Proof using Hp.
  induction ins as [|[[n now] r] ins IH]; intros s s' l Hl Hr Hs; cbn [run]; [intros [= <- _]; cbn; lia|]. inversion Hr as [|? ? Hr1 Hr2]; subst.
  destruct (tick_within n now r s Hs) as (s1 & l1 & E1 & H1 & _). rewrite E1. cbn. destruct (run ins s1) as [[s2 l2]|] eqn:E2; [|done]. intros [= <- _].
  pose proof (IH s1 s2 l2 Hl Hr2 H1 E2). pose proof (tick_sheds n now r s s1 l1 Hl Hr1 Hs E1). pose proof bstep_pos. cbn [length]. nia.
Qed.
End boost.

(** C23: the memory governor stays within its limits: whatever sequence numbers, times and
    resident memory its ticks read, every tick is defined (the cap is a conversion of a
    double in range), and each quota it gives a shard lies between the base quota less half of
    it and the base quota plus the boost, without wrapping. *)
Theorem memory_governor_bounded o t0 ins : opts_ok o ->
  let p := ofOpts o in
  exists s l, run p ins (start t0) = Some (s, l) /\ minExtra p <= extra s <= maxExtra p /\
    forall q sh, SetMemoryQuota q sh ∈ l -> base p - base p ÷ 2 <= q <= base p + maxExtra p.
Proof.
  intros Ho p. pose proof (ofOpts_ok o Ho) as Hp. destruct (run_ok p Hp ins _ (start_good p Hp t0)) as (s & l & E & [Hs _] & Hl). exists s, l. split; [done|]. split; [done|].
  intros q sh Hin. apply list_elem_of_In in Hin. by pose proof (proj1 (Forall_forall _ _) Hl _ Hin).
Qed.

(** C24: the memory governor sheds memory: with a hard limit at or above the boost's limit,
    once every tick of a stretch reads more resident memory than the hard limit, the quota
    is at its floor after as many ticks as the whole range has steps, whatever
    the governor did before and however many writes arrive. *)
Theorem memory_governor_sheds o t0 before ins : opts_ok o ->
  let p := ofOpts o in
  0 < rssLimit p <= rssHard p -> Forall (fun '(_, _, r) => rssHard p < r) ins ->
  maxExtra p - minExtra p <= Z.of_nat (length ins) * bstep p ->
  exists s l, run p (before ++ ins) (start t0) = Some (s, l) /\ extra s = minExtra p.
Proof.
  intros Ho p Hl Hr Hk. pose proof (ofOpts_ok o Ho) as Hp. destruct (run_ok p Hp before _ (start_good p Hp t0)) as (s1 & l1 & E1 & H1 & _).
  destruct (run_ok p Hp ins s1 H1) as (s2 & l2 & E2 & [H2 _] & _). exists s2, (l1 ++ l2). split; [by rewrite run_app, E1; cbn; rewrite E2|].
  pose proof (run_sheds p Hp ins s1 s2 l2 Hl Hr H1 E2). destruct H1 as [H1 _]. unfold extra_ok in *. lia.
Qed.
End BoostSpec.

Module SeqIndexSpec.
Import SeqIndexBudget.
Section index.
Context (cacheSize writeQueueMem : Z) (Hc : 0 <= cacheSize).
Abbreviation floor := (docFloor cacheSize writeQueueMem).
Definition ticks (idxs : list Z) : state := foldl (fun s idx => (tick cacheSize writeQueueMem idx s).1.1) (start cacheSize) idxs.
Definition budget_ok (s : state) : Prop := floor <= docBudget s <= cacheSize /\ 0 <= charged s.
Lemma floor_range : floor <= cacheSize.
Proof using Type. unfold docFloor. lia. Qed.
Lemma tick_budget idx s : 0 <= idx -> budget_ok s ->
  let s' := (tick cacheSize writeQueueMem idx s).1.1 in
  budget_ok s' /\ docBudget s' <= docBudget s /\ charged s <= charged s' /\ idx - (cacheSize - docBudget s' + charged s') < 2 * step.
Proof using Hc.
  intros Hi [Hd Hch]. pose proof floor_range. assert (Hs : 0 < step) by done. unfold tick, budget_ok. cbn [fst docBudget charged].
  repeat case_match; lia.
Qed.
End index.
(** The seqno index is paid for: with any non-negative sizes read, the document cache
    keeps at least its floor (never below the write queue's size or an eighth of the cache, as far as
    the cache has them) and at most its size, both charges only grow, and after each tick the
    index read exceeds what was taken from the cache and the block cache by less than two
    steps. *)
Theorem index_charged cacheSize writeQueueMem idxs idx : 0 <= cacheSize -> Forall (Z.le 0) (idxs ++ [idx]) ->
  let s := ticks cacheSize writeQueueMem idxs in
  let s' := ticks cacheSize writeQueueMem (idxs ++ [idx]) in
  docFloor cacheSize writeQueueMem <= docBudget s' <= docBudget s /\ docBudget s <= cacheSize /\ 0 <= charged s <= charged s' /\
  idx - (cacheSize - docBudget s' + charged s') < 2 * step.
Proof.
  intros Hc Hi s s'. apply Forall_app in Hi as [Hi H1]. apply Forall_inv in H1.
  assert (Hs : budget_ok cacheSize writeQueueMem s).
  { subst s s'. unfold ticks. assert (H0 : budget_ok cacheSize writeQueueMem (start cacheSize)) by (split; [|done]; cbn; pose proof (floor_range cacheSize writeQueueMem); lia).
    revert H0. generalize (start cacheSize). induction Hi as [|i l Hi0 Hl IH]; intros s0 H0; [done|]. cbn. apply IH. by apply tick_budget. }
  assert (E : s' = (tick cacheSize writeQueueMem idx s).1.1) by (subst s' s; unfold ticks; by rewrite foldl_snoc).
  destruct (tick_budget cacheSize writeQueueMem Hc idx s H1 Hs) as (H2 & H3 & H4 & H5). rewrite <- E in *. destruct Hs, H2. lia.
Qed.
End SeqIndexSpec.

Module TokenSpec.
Import WriteTokens.
Inductive op := Take | Refill (n cap : Z).
(** Operations in the order the atomics serialise them; the SETs admitted. *)
Fixpoint admitted (ops : list op) (s : state) : nat * state :=
  match ops with
  | [] => (O, s)
  | Take :: rest => let '(ok, s') := TakeWriteToken s in let '(k, s2) := admitted rest s' in (if ok then S k else k, s2)
  | Refill n cap :: rest => admitted rest (RefillWriteTokens n cap s)
  end.
Definition given (ops : list op) : Z := foldr (fun o a => match o with Take => a | Refill n _ => n + a end) 0 ops.
Lemma admitted_bound ops : forall s, writeLimited_ s = true -> Forall (fun o => match o with Refill n _ => 0 <= n | Take => True end) ops ->
  Z.of_nat (admitted ops s).1 + Z.max 0 (writeTokens_ (admitted ops s).2) <= Z.max 0 (writeTokens_ s) + given ops.
Proof.
  induction ops as [|o ops IH]; intros s Hl Ho; cbn; [lia|]. inversion Ho as [|? ? H1 H2]; subst. destruct o as [|n cap].
  - unfold TakeWriteToken. rewrite Hl. set (s1 := { s with writeTokens_ := writeTokens_ s - 1 }). change (foldr _ 0 ops) with (given ops).
    specialize (IH s1 Hl H2). assert (E : writeTokens_ s1 = writeTokens_ s - 1) by done. rewrite E in IH.
    destruct (admitted ops s1) as [k s2]. cbn [fst snd] in *. destruct (Z.ltb_spec 0 (writeTokens_ s)); cbn [fst snd]; lia.
  - change (foldr _ 0 ops) with (given ops). specialize (IH (RefillWriteTokens n cap s) Hl H2).
    assert (E : writeTokens_ (RefillWriteTokens n cap s) = Z.min (writeTokens_ s + n) cap) by done. lia.
Qed.
End TokenSpec.

Module SpaceSpec.
Import WriteTokens Space.
Section space.
Context (junk diskLimitBytes shards : Z) (diskPaceAt diskFragHigh diskFragLow fragMax : double).
Abbreviation tick := (Space.tick junk diskLimitBytes shards diskPaceAt diskFragHigh diskFragLow fragMax).
Abbreviation paceWrites := (Space.paceWrites diskLimitBytes diskPaceAt).
Abbreviation stepFrag := (Space.stepFrag diskLimitBytes shards diskFragHigh diskFragLow fragMax).
Abbreviation target := (Space.target diskLimitBytes diskPaceAt).
(** Either no limit, or a limit with a rate that is not below the least. *)
Definition paced (s : state) : Prop :=
  (rate s = d0 /\ writeLimited_ (bucket s) = false) \/ (d_le kMinRate (rate s) = true /\ writeLimited_ (bucket s) = true).
Definition ratios_ok (s : state) : Prop :=
  length (ratios s) = Z.to_nat shards /\ Forall (fun x => d_le kFragMin x = true) (ratios s).
Lemma min_refl : d_le kMinRate kMinRate = true.
Proof using Type. by vm_compute. Qed.
Lemma rate_set r : d_le kMinRate r = true -> d_eq r d0 = false.
Proof using Type. destruct r as [[]|[]| |[] m e]; intros H; try done; by vm_compute in H. Qed.
Lemma applyFrag_ok f : length (applyFrag shards f) = Z.to_nat shards /\ Forall (fun x => d_le kFragMin x = true) (applyFrag shards f).
Proof using Type.
  unfold applyFrag. rewrite length_map, length_fmap, length_seq. split; [done|]. apply Forall_map, list.Forall_true. intros x. apply max_ge. by vm_compute.
Qed.
Lemma stepFrag_ok s : ratios_ok s -> ratios_ok (stepFrag s) /\ rate (stepFrag s) = rate s /\ bucket (stepFrag s) = bucket s.
Proof using Type.
  intros Hs. unfold Space.stepFrag. destruct (_ && _); [|done]. cbv zeta. destruct (d_eq _ (frag s)); [done|]. split; [apply applyFrag_ok|done].
Qed.
(** Engaging starts at a rate that is a number, not below the least. *)
Lemma engage_rate e setRate : d_le kMinRate (d_clamp (d_max d0 (target - e) / kApproachSec / kBytesPerSet)%D kMinRate (d_max kMinRate setRate)) = true.
Proof using Type.
  apply clamp_ge; [|apply min_refl|apply max_ge, min_refl]. apply nonneg_isNum, div_nonneg; [|by vm_compute]. apply div_nonneg; [|by vm_compute].
  unfold d_max. destruct (d_lt d0 (target - e)%D) eqn:E; [|done]. by destruct (target - e)%D as [|[]| |[]].
Qed.
Lemma paceWrites_ok disk setRate slope s : paced s -> paced (paceWrites disk setRate slope s) /\ ratios (paceWrites disk setRate slope s) = ratios s.
Proof using Type.
  intros [[Hr Hb]|[Hr Hb]]; unfold Space.paceWrites.
  - rewrite Hr. change (d_eq d0 d0) with true. cbn match. destruct (_ || _); [|split; [by left|done]]. split; [right; split; [apply engage_rate|done]|done].
  - rewrite (rate_set _ Hr). cbv zeta. set (r0 := d_min _ _).
    assert (Hr0 : d_le kMinRate r0 = true).
    { subst r0. apply min_ge; [|apply max_ge, min_refl]. destruct (d_lt _ disk); [apply min_refl|apply max_ge, min_refl]. }
    clearbody r0. destruct (_ && _); (split; [|done]); [by left|by right].
Qed.
Lemma refill_ok s : paced s -> ratios_ok s -> paced (refill junk s) /\ ratios_ok (refill junk s).
Proof using Type. intros Hp Hr. unfold refill. by destruct (d_lt d0 (rate s)). Qed.
Lemma tick_paced disk sets s : paced s -> ratios_ok s -> paced (tick disk sets s) /\ ratios_ok (tick disk sets s).
Proof using Type.
  intros Hp Hr. destruct (refill_ok s Hp Hr) as [H1 H2]. unfold Space.tick. set (s1 := refill junk s) in *. clearbody s1. cbv zeta. destruct (negb _); [done|].
  match goal with |- context [paceWrites ?d ?sr ?sl (stepFrag ?x)] => set (s3 := x); destruct (stepFrag_ok s3 H2) as (H3 & H4 & H5); destruct (paceWrites_ok d sr sl (stepFrag s3)) as [H6 H7] end.
  - unfold paced. rewrite H4, H5. exact H1.
  - split; [done|]. unfold ratios_ok. rewrite H7. exact H3.
Qed.
(** The governor's ticks and the connections' takes, in the order they happen. *)
Inductive event := Tick (disk sets : Z) | Take.
Definition step (e : event) (s : state) : state :=
  match e with Tick disk sets => tick disk sets s | Take => { s with bucket := (TakeWriteToken (bucket s)).2 } end.
Definition run (l : list event) (s : state) : state := foldl (fun s e => step e s) s l.
Lemma step_paced e s : paced s -> ratios_ok s -> paced (step e s) /\ ratios_ok (step e s).
Proof using Type.
  destruct e as [disk sets|]; [apply tick_paced|]. intros Hp Hr. split; [|exact Hr]. unfold paced, step, TakeWriteToken in *. cbn [bucket rate].
  destruct (writeLimited_ (bucket s)) eqn:E; destruct Hp as [[H1 ?]|[H1 ?]]; try done; [right|left]; split; [exact H1|exact E|exact H1|exact E].
Qed.
(** C25: the space governor paces writes: through any ticks (whatever disk use and SET
    counts they read, whatever a conversion out of range gives) and any SETs taking
    tokens in between, either its rate is zero and SETs pass freely, or SETs need tokens and its
    rate is a number of at least 30,000 a second; and every shard has a fragmentation ratio of
    at least 0.25. *)
Theorem space_governor_paces l disk sets w : writeLimited_ w = false ->
  let s := run l (Space.start shards fragMax disk sets w) in
  ((rate s = d0 /\ writeLimited_ (bucket s) = false) \/ (d_le kMinRate (rate s) = true /\ writeLimited_ (bucket s) = true)) /\
  length (ratios s) = Z.to_nat shards /\ Forall (fun x => d_le kFragMin x = true) (ratios s).
Proof using Type.
  intros Hw s. change (paced s /\ ratios_ok s). subst s. unfold run.
  assert (H0 : paced (Space.start shards fragMax disk sets w) /\ ratios_ok (Space.start shards fragMax disk sets w)) by (split; [by left|apply applyFrag_ok]).
  revert H0. generalize (Space.start shards fragMax disk sets w). induction l as [|e l IH]; intros s0 [H1 H2]; [done|]. cbn. apply IH. by apply step_paced.
Qed.
End space.
End SpaceSpec.

Module SyncSpec.
Import SyncRound.
Section sync.
Context (vbuckets : Z) (Hv : 0 < vbuckets < 2 ^ 16).
(** Turns in a row: what magma gives each, and the vbuckets it is asked to sync. *)
Fixpoint turns (ins : list (option Z * bool)) (s : state) : state * list Z :=
  match ins with
  | [] => (s, [])
  | (q, ok) :: rest => let '(s', c) := turn vbuckets q ok s in let '(s2, l) := turns rest s' in (s2, option_list c ++ l)
  end.
(** What a turn leaves as the synced sequence number of its vbucket, and whether it asks
    for a sync. *)
Definition after (i : option Z * bool) (o : Z) : Z := match i.1 with Some x => if negb (x =? o) && i.2 then x else o | None => o end.
Definition asked (i : option Z * bool) (o : Z) : bool := match i.1 with Some x => negb (x =? o) | None => false end.
Fixpoint asks (k : nat) (ins : list (option Z * bool)) (olds : list Z) : list Z :=
  match ins, olds with
  | i :: ins, o :: olds => (if asked i o then [Z.of_nat k] else []) ++ asks (S k) ins olds
  | _, _ => []
  end.
Lemma asks_elem ins : forall k olds x, x ∈ asks k ins olds <-> exists j i o, x = Z.of_nat (k + j) /\ ins !! j = Some i /\ olds !! j = Some o /\ asked i o = true.
Proof using Type.
  induction ins as [|i ins IH]; intros k [|o olds] x; cbn [asks]; try (split; [intros []%not_elem_of_nil|intros ([] & ? & ? & ? & ? & ? & ?); done]).
  rewrite elem_of_app, IH. split.
  - intros [H|(j & i' & o' & -> & H1 & H2 & H3)]; [|exists (S j), i', o'; split; [lia|done]]. destruct (asked i o) eqn:E; [|by apply not_elem_of_nil in H].
    apply list_elem_of_singleton in H as ->. exists O, i, o. split; [lia|done].
  - intros ([|j] & i' & o' & -> & H1 & H2 & H3); [left|right; exists j, i', o'; split; [lia|done]]. injection H1 as <-. injection H2 as <-. rewrite H3. apply list_elem_of_singleton. lia.
Qed.
Lemma turn_spec i pre o olds : Z.of_nat (length pre) < vbuckets ->
  turn vbuckets i.1 i.2 (mkState (Z.of_nat (length pre)) (pre ++ o :: olds)) =
  (mkState (if Z.of_nat (length pre) + 1 =? vbuckets then 0 else Z.of_nat (length pre) + 1) (pre ++ after i o :: olds),
   if asked i o then Some (Z.of_nat (length pre)) else None).
Proof using Hv.
  intros Hs. unfold turn, after, asked. cbn [vb synced]. rewrite Nat2Z.id, app_nth2, Nat.sub_diag by lia. cbn [nth]. f_equal. f_equal.
  - rewrite u16_small; [|pose proof (Z.mod_pos_bound (Z.of_nat (length pre) + 1) vbuckets); lia].
    destruct (Z.eqb_spec (Z.of_nat (length pre) + 1) vbuckets) as [->|]; [apply Z.mod_same; lia|apply Z.mod_small; lia].
  - destruct i as [[x|] ok]; [|done]. cbn [fst snd]. destruct (negb (x =? o) && ok); [|done]. by rewrite insert_app_r_alt, Nat.sub_diag by lia.
Qed.
Lemma turns_spec ins : forall pre olds, ins <> [] -> length olds = length ins -> Z.of_nat (length pre + length ins) = vbuckets ->
  turns ins (mkState (Z.of_nat (length pre)) (pre ++ olds)) = (mkState 0 (pre ++ zip_with after ins olds), asks (length pre) ins olds).
Proof using Hv.
  induction ins as [|[q ok] ins IH]; intros pre [|o olds] Hne Ho Hlen; try done. cbn [length] in *. cbn [turns asks zip_with].
  pose proof (turn_spec (q, ok) pre o olds) as E. cbn [fst snd] in E. rewrite E by lia. destruct (decide (ins = [])) as [->|Hn].
  - rewrite (proj2 (Z.eqb_eq _ _)) by (cbn in Hlen; lia). destruct olds; [|done]. cbn. by destruct (asked (q, ok) o).
  - assert (length ins <> O) by (by destruct ins). rewrite (proj2 (Z.eqb_neq _ _)) by lia. specialize (IH (pre ++ [after (q, ok) o]) olds Hn).
    rewrite length_app in IH. cbn [length] in IH. replace (Z.of_nat (length pre + 1)) with (Z.of_nat (length pre) + 1) in IH by lia. rewrite <- !app_assoc in IH. cbn [app] in IH.
    rewrite IH by lia. replace (length pre + 1)%nat with (S (length pre)) by lia. by destruct (asked (q, ok) o).
Qed.
End sync.
(** A round of the sync thread covers every vbucket: whatever magma answers, a round of as many
    turns as vbuckets comes back to vbucket 0; it asks for a sync of exactly the vbuckets
    whose newest sequence number differs from the one synced last, and those it syncs, and only
    those, take the new number. *)
Theorem sync_round_covers vbuckets ins s : 0 < vbuckets < 2 ^ 16 -> vb s = 0 -> length (synced s) = Z.to_nat vbuckets -> length ins = Z.to_nat vbuckets ->
  let '(s', l) := turns vbuckets ins s in
  vb s' = 0 /\ length (synced s') = Z.to_nat vbuckets /\
  forall k q (ok : bool) o, ins !! k = Some (q, ok) -> synced s !! k = Some o ->
    (Z.of_nat k ∈ l <-> exists x, q = Some x /\ x <> o) /\
    synced s' !! k = Some (match q with Some x => if ok then x else o | None => o end).
Proof.
  intros Hv Hs Hl Hi. destruct s as [v olds]. cbn in Hs, Hl. subst v. pose proof (turns_spec vbuckets Hv ins [] olds) as E. change (Z.of_nat (length [])) with 0 in E. cbn [app length] in E.
  rewrite E by (try lia; intros ->; cbn in Hi; lia). cbn [vb synced]. split; [done|]. split; [rewrite length_zip_with; lia|]. intros k q ok o Hk Ho. split.
  - rewrite asks_elem. split.
    + intros (j & i & o' & Ej & H1 & H2 & H3). assert (j = k) as -> by lia. simplify_eq. destruct q as [x|]; [|done]. exists x. split; [done|]. cbn in H3. by destruct (Z.eqb_spec x o).
    + intros (x & -> & Hx). exists k, (Some x, ok), o. split; [lia|]. split; [done|]. split; [done|]. cbn. by destruct (Z.eqb_spec x o).
  - rewrite lookup_zip_with, Hk, Ho. cbn. f_equal. destruct q as [x|]; [|done]. cbn. destruct (Z.eqb_spec x o) as [->|]; [by destruct ok|by destruct ok].
Qed.
End SyncSpec.

(** ** Witnesses *)
Module GovernorWitness.
Import Boost BoostSpec.
(** 4 GB of quota on 4 shards, a boost of 2 GB, limits of 6 and 7 GB resident. *)
Definition opts : Opts := mkOpts (4 * 1024 * mb) 4 2048 (6 * 1024) (7 * 1024) 3000 0 100000 50000.
Lemma opts_good : opts_ok opts.
Proof. unfold opts_ok, opts, mb. cbn [memQuota nShards boostMB maxRssMB hardRssMB writeRateCap]. lia. Qed.
(** An idle stretch that boosts, writes that cap the boost, then too much memory. *)
Definition inputs : list (Z * Z * Z) :=
  [(10, 4 * 10 ^ 9, 0); (10, 5 * 10 ^ 9, 0); (10, 6 * 10 ^ 9, 0); (10, 7 * 10 ^ 9, 0); (5010, 8 * 10 ^ 9, 0); (10010, 9 * 10 ^ 9, 8 * 1024 * mb)].
Lemma memory_governor_bounded_witness :
  match run (ofOpts opts) inputs (start 0) with Some (s, l) => extra s = - 384 * mb /\ length l = 6%nat | None => False end /\
  exists s l, run (ofOpts opts) inputs (start 0) = Some (s, l) /\ minExtra (ofOpts opts) <= extra s <= maxExtra (ofOpts opts) /\
    forall q sh, SetMemoryQuota q sh ∈ l -> base (ofOpts opts) - base (ofOpts opts) ÷ 2 <= q <= base (ofOpts opts) + maxExtra (ofOpts opts).
Proof. split; [vm_compute; split; reflexivity|]. exact (memory_governor_bounded opts 0 inputs opts_good). Defined.
(** After the boost, 32 ticks with 8 GB resident. *)
Definition overload : list (Z * Z * Z) := replicate 32 (10, 10 ^ 10, 8 * 1024 * mb).
Lemma memory_governor_sheds_witness :
  match run (ofOpts opts) (take 4 inputs) (start 0) with Some (s, _) => 0 < extra s | None => False end /\
  exists s l, run (ofOpts opts) (take 4 inputs ++ overload) (start 0) = Some (s, l) /\ extra s = minExtra (ofOpts opts).
Proof.
  split; [vm_compute; reflexivity|]. apply (memory_governor_sheds opts 0 (take 4 inputs) overload opts_good).
  - vm_compute. split; [reflexivity|discriminate].
  - apply Forall_replicate. vm_compute. reflexivity.
  - vm_compute. discriminate.
Defined.
Lemma index_charged_witness :
  let s := SeqIndexSpec.ticks (1024 * mb) (256 * mb) [100 * mb] in
  let s' := SeqIndexSpec.ticks (1024 * mb) (256 * mb) ([100 * mb] ++ [900 * mb]) in
  SeqIndexBudget.docFloor (1024 * mb) (256 * mb) <= SeqIndexBudget.docBudget s' <= SeqIndexBudget.docBudget s /\ SeqIndexBudget.docBudget s <= 1024 * mb /\
  0 <= SeqIndexBudget.charged s <= SeqIndexBudget.charged s' /\ 900 * mb - (1024 * mb - SeqIndexBudget.docBudget s' + SeqIndexBudget.charged s') < 2 * SeqIndexBudget.step.
Proof. apply (SeqIndexSpec.index_charged (1024 * mb) (256 * mb) [100 * mb] (900 * mb)); [vm_compute; discriminate|]. repeat constructor; vm_compute; discriminate. Defined.
(** 98 GB of a 100 GB limit with a burst of SETs: the limit engages at the first check. *)
Definition spaceEvents : list SpaceSpec.event := replicate 100 (SpaceSpec.Tick (98 * 10 ^ 9) 500000) ++ [SpaceSpec.Take; SpaceSpec.Tick (98 * 10 ^ 9) 500000].
Lemma space_governor_paces_witness :
  let w := WriteTokens.mkState false 0 in
  let s := SpaceSpec.run 0 (10 ^ 11) 4 (lit 95 2) (lit 9 1) (lit 8 1) (lit 5 1) spaceEvents (Space.start 4 (lit 5 1) (96 * 10 ^ 9) 0 w) in
  WriteTokens.writeLimited_ (Space.bucket s) = true /\
  (((Space.rate s = d0 /\ WriteTokens.writeLimited_ (Space.bucket s) = false) \/ (d_le Space.kMinRate (Space.rate s) = true /\ WriteTokens.writeLimited_ (Space.bucket s) = true)) /\
   length (Space.ratios s) = Z.to_nat 4 /\ Forall (fun x => d_le Space.kFragMin x = true) (Space.ratios s)).
Proof.
  split; [vm_compute; reflexivity|]. exact (SpaceSpec.space_governor_paces 0 (10 ^ 11) 4 (lit 95 2) (lit 9 1) (lit 8 1) (lit 5 1) spaceEvents (96 * 10 ^ 9) 0 (WriteTokens.mkState false 0) eq_refl).
Defined.
Lemma sync_round_covers_witness :
  let '(s', l) := SyncSpec.turns 3 [(Some 5, true); (None, true); (Some 7, false)] (SyncRound.start 3) in
  SyncRound.vb s' = 0 /\ length (SyncRound.synced s') = Z.to_nat 3 /\
  forall k q (ok : bool) o, [(Some 5, true); (None, true); (Some 7, false)] !! k = Some (q, ok) -> SyncRound.synced (SyncRound.start 3) !! k = Some o ->
    (Z.of_nat k ∈ l <-> exists x, q = Some x /\ x <> o) /\
    SyncRound.synced s' !! k = Some (match q with Some x => if ok then x else o | None => o end).
Proof. apply (SyncSpec.sync_round_covers 3 [(Some 5, true); (None, true); (Some 7, false)] (SyncRound.start 3)); [lia|reflexivity..]. Defined.
End GovernorWitness.
