(* ===== verification/Options.v ===== *)
(** * The command line (main.cc)

    [parseArgs] over glibc's [getopt_long]: the struct [Config] with its defaults, the
    table of options, the switch that stores each one, and what ends the program
    instead.  The C library's readers of integers are written out; its readers of
    floating-point numbers ([strtod], [sscanf]'s [%lf]) are inputs, and every theorem holds
    for any of them.  [POSIXLY_CORRECT] is taken as not set. *)
From stdpp Require Import prelude list strings.
From Stdlib Require Import ZArith Lia Ascii String.
From coqutil Require Import Datatypes.RecordSettersUsingExistingGetters.
From S2P Require Import Prelude Double.
Open Scope string_scope.
Open Scope Z_scope.

Record Config := mkConfig {
  port : Z;
  dataDir : string;
  bucket : string;
  hostname : string;
  shards : Z;
  ioThreads : Z;
  writers : Z;
  readers : Z;
  memQuota : Z;
  flushers : Z;
  compactors : Z;
  vbuckets : Z;
  statsPort : Z;
  durable : bool;
  writeQueueMem : Z;
  echoGetSize : Z;
  ioQueueDepth : Z;
  maxReadBatch : Z;
  maxReadOwners : Z;
  cacheDecompressed : bool;
  compressIndexCache : bool;
  dataBlockAutoTune : bool;
  indexBlockAutoTune : bool;
  align512 : bool;
  noHotStats : bool;
  asyncReads : bool;
  magmaReaders : Z;
  noBlockCache : bool;
  noCompression : bool;
  indexCompressionLZ4 : bool;
  noValuePtrRead : bool;
  noValuePtrWrite : bool;
  learnedSeqLocator : bool;
  compactMeta : Z;
  bottomBloomAccuracy : double;
  blockWritesRatio : double;
  dataBlockSize : Z;
  cacheSize : Z;
  cacheShards : Z;
  cachePolicy : string;
  cacheSeqnoIndex : bool;
  cacheSeqnoIndexMax : Z;
  cacheFillDoorkeeper : bool;
  cacheValuePtr : bool;
  streamReaders : bool;
  directSend : bool;
  autoTune : bool;
  maxIoThreads : Z;
  maxReaders : Z;
  maxWriters : Z;
  sharedWalPrewrite : Z;
  sharedWalSegmentSize : Z;
  writeCache : Z;
  sharedWal : bool;
  sharedWalPath : string;
  sharedWalFlushers : Z;
  sharedWalChunks : Z;
  sharedWalChunkSize : Z;
  sharedWalFlushUs : Z;
  sharedWalSyncCommit : Z;
  blindWrites : bool;
  writeCoalesceUs : Z;
  writeSlowdownAtPct : Z;
  writeSlowdownUsPerMB : double;
  minWriteBatch : Z;
  batchSort : string;
  sortDupThreshold : double;
  lsmSSTableSize : Z;
  sstableDynamicRatio : double;
  checkpointThreshold : double;
  maxCheckpoints : Z;
  lsmBaseLevelSize : Z;
  lsdFragRatio : double;
  keyLevelMultiplier : Z;
  keyWarmNewTables : bool;
  sstableWriteBuffer : Z;
  keyBlockSize : Z;
  lsdLevels : Z;
  lsdTieredL0 : bool;
  memLwmRatio : double;
  writeCacheRatio : double;
  tuneWritersOnly : bool;
  tunePools : string;
  blockCachePolicy : string;
  readAhead : Z;
  noIndexCompression : bool;
  lsmLevel0Tables : Z;
  lsmMinCompactSize : Z;
  lsmLevelMultiplier : Z;
  noWal : bool;
  syncIntervalMs : Z;
  readBoostMB : Z;
  readBoostIdleMs : Z;
  readBoostMaxRssMB : Z;
  readBoostWriteRate : Z;
  memHardRssMB : Z;
  compactionRateLimitMB : Z;
  compactionLimitMinGets : Z;
  compactionRatePerSet : Z;
  diskLimitBytes : Z;
  diskFragLow : double;
  diskFragHigh : double;
  diskPaceAt : double;
  dataCacheMaxWriteRate : Z;
  asyncDurable : bool;
}.
Definition defaultConfig : Config :=
  mkConfig 11210 "./data" "default" "127.0.0.1" 4 16 8 64 (1024 * 1024 * 1024) 16 16 16 80 false (1024 * 1024 * 1024) 0 16 256 1 false
    false false false false false false 0 false false false false true true (-1) (lit 99 2) (dZ 32) 0 0 256 "s3fifo" false 0
    false false false false false 0 0 0 (-1) (Z.shiftl 256 20) 0 false EmptyString 2 8 (Z.shiftl 8 20) 200 (-1) false (-1) (-1)
    (dZ (-1)) 64 "always" (lit 5 2) 0 (dZ 0) (dZ 0) (-1) (32 * 1024 * 1024) (lit 5 1) 3 false 0 0 0 false (dZ 0) (dZ 0) false
    EmptyString EmptyString 0 false 0 0 0 false 0 0 3000 0 0 0 0 20000 0 0 (dZ 0) (dZ 0) (lit 95 2) 0 false.

(** The globals of engine.cc that options set, beside the struct. *)
Record Settings := mkSettings {
  config : Config;
  gDispatchBatch : Z;
  gDurableSpinIters : Z;
  gTraceLatency : bool;
  gCompletionSlice : Z;
}.
Definition defaultSettings : Settings := mkSettings defaultConfig 16 4000 false 512.
Definition onConfig (f : Config -> Config) (s : Settings) : Settings := { s with config := f (config s) }.

(** ** Reading integers *)
Definition isspace (c : ascii) : bool := let n := Z.of_nat (nat_of_ascii c) in (n =? 32) || ((9 <=? n) && (n <=? 13)).
Definition digitOf (c : ascii) : option Z := let n := Z.of_nat (nat_of_ascii c) - 48 in if (0 <=? n) && (n <=? 9) then Some n else None.
Fixpoint skipSpace (s : string) : string :=
  match s with String c s' => if isspace c then skipSpace s' else s | EmptyString => s end.
Fixpoint readDigits (s : string) (acc : Z) : Z :=
  match s with
  | String c s' => match digitOf c with Some d => readDigits s' (10 * acc + d) | None => acc end
  | EmptyString => acc
  end.
(** The sign and the magnitude; 0 where there are no digits. *)
Definition readInt (s : string) : bool * Z :=
  match skipSpace s with
  | String c s' => if (c =? "-")%char then (true, readDigits s' 0) else if (c =? "+")%char then (false, readDigits s' 0) else (false, readDigits (String c s') 0)
  | EmptyString => (false, 0)
  end.
Definition strtoll (s : string) : Z :=
  let '(neg, m) := readInt s in Z.max (- 2 ^ 63) (Z.min (2 ^ 63 - 1) (if neg then - m else m)).
Definition strtoull (s : string) : Z :=
  let '(neg, m) := readInt s in if 2 ^ 64 <=? m then 2 ^ 64 - 1 else if neg then u64 (- m) else m.
Definition atoi (s : string) : Z := swrap 32 (strtoll s).

(** ** The switch *)
Inductive Outcome := Parsed (s : Settings) | Exited (code : Z) | Aborted.
Section parse.
(** [strtod]: the value, whether anything was converted, and whether it was out of
    range; [%lf]: the value and the rest of the input. *)
Context (strtod : string -> double * bool * bool) (scanDouble : string -> option (double * string)).

Definition Action := string -> Settings -> Outcome.
Definition putU16 (put : Z -> Config -> Config) : Action := fun optarg s => Parsed (onConfig (put (u16 (atoi optarg))) s).
Definition putU32 (put : Z -> Config -> Config) : Action := fun optarg s => Parsed (onConfig (put (u32 (strtoull optarg))) s).
Definition putSize (put : Z -> Config -> Config) : Action := fun optarg s => Parsed (onConfig (put (strtoull optarg)) s).
Definition putInt (put : Z -> Config -> Config) : Action := fun optarg s => Parsed (onConfig (put (atoi optarg)) s).
Definition putLong (put : Z -> Config -> Config) : Action := fun optarg s => Parsed (onConfig (put (strtoll optarg)) s).
Definition putString (put : string -> Config -> Config) : Action := fun optarg s => Parsed (onConfig (put optarg) s).
Definition flag (f : Config -> Config) : Action := fun _ s => Parsed (onConfig f s).
(** [strtod] and [atof] store what was read; [std::stod] throws. *)
Definition putDouble (put : double -> Config -> Config) : Action := fun optarg s => Parsed (onConfig (put (strtod optarg).1.1) s).
Definition putStod (put : double -> Config -> Config) : Action := fun optarg s =>
  let '(v, converted, range) := strtod optarg in if converted && negb range then Parsed (onConfig (put v) s) else Aborted.
Definition putGcBand : Action := fun optarg s =>
  match scanDouble optarg with
  | Some (lo, String c r) =>
      if (c =? ":")%char then
        match scanDouble r with
        | Some (hi, _) => if d_le hi lo then Exited 1 else Parsed (onConfig (fun c => { c with diskFragLow := lo; diskFragHigh := hi }) s)
        | None => Exited 1
        end
      else Exited 1
  | _ => Exited 1
  end.

Definition switchServer : list (Z * Action) :=
  [ (112, putU16 (fun v c => { c with port := v }));
    (100, putString (fun v c => { c with dataDir := v }));
    (98, putString (fun v c => { c with bucket := v }));
    (72, putString (fun v c => { c with hostname := v }));
    (115, putU16 (fun v c => { c with shards := v }));
    (105, putU16 (fun v c => { c with ioThreads := v }));
    (119, putU16 (fun v c => { c with writers := v }));
    (114, putU16 (fun v c => { c with readers := v }));
    (109, putSize (fun v c => { c with memQuota := v }));
    (102, putU16 (fun v c => { c with flushers := v }));
    (99, putU16 (fun v c => { c with compactors := v }));
    (118, putU16 (fun v c => { c with vbuckets := v }));
    (83, putU16 (fun v c => { c with statsPort := v }));
    (68, flag (fun c => { c with durable := true }));
    (81, putSize (fun v c => { c with writeQueueMem := v }));
    (69, putSize (fun v c => { c with echoGetSize := v })) ].
Definition switchReads : list (Z * Action) :=
  [ (1001, putSize (fun v c => { c with ioQueueDepth := v }));
    (1002, putSize (fun v c => { c with maxReadBatch := v }));
    (1085, putU32 (fun v c => { c with maxReadOwners := v }));
    (1003, flag (fun c => { c with cacheDecompressed := true }));
    (1009, flag (fun c => { c with compressIndexCache := true }));
    (1010, flag (fun c => { c with dataBlockAutoTune := true }));
    (1011, flag (fun c => { c with indexBlockAutoTune := true }));
    (1004, flag (fun c => { c with align512 := true }));
    (1005, flag (fun c => { c with noHotStats := true }));
    (1006, flag (fun c => { c with noBlockCache := true }));
    (1007, flag (fun c => { c with noCompression := true }));
    (1012, flag (fun c => { c with indexCompressionLZ4 := true }));
    (1013, flag (fun c => { c with noValuePtrRead := true }));
    (1100, flag (fun c => { c with learnedSeqLocator := true }));
    (1400, flag (fun c => { c with asyncReads := true }));
    (1401, putSize (fun v c => { c with magmaReaders := v }));
    (1101, flag (fun c => { c with compactMeta := 1 }));
    (1107, flag (fun c => { c with compactMeta := 0 }));
    (1102, flag (fun c => { c with noValuePtrWrite := true }));
    (1103, flag (fun c => { c with noValuePtrWrite := false }));
    (1104, flag (fun c => { c with learnedSeqLocator := false }));
    (1105, putStod (fun v c => { c with bottomBloomAccuracy := v }));
    (1106, putStod (fun v c => { c with blockWritesRatio := v }));
    (1008, putSize (fun v c => { c with dataBlockSize := v }));
    (1018, fun optarg s => Parsed { s with gDispatchBatch := strtoull optarg }) ].
Definition switchCache : list (Z * Action) :=
  [ (1020, putSize (fun v c => { c with cacheSize := v }));
    (1021, putSize (fun v c => { c with cacheShards := v }));
    (1022, putString (fun v c => { c with cachePolicy := v }));
    (1301, flag (fun c => { c with cacheSeqnoIndex := true }));
    (1302, flag (fun c => { c with cacheFillDoorkeeper := true }));
    (1308, flag (fun c => { c with directSend := true }));
    (1307, flag (fun c => { c with streamReaders := true }));
    (1303, flag (fun c => { c with cacheValuePtr := true }));
    (1309, putSize (fun v c => { c with cacheSeqnoIndexMax := v }));
    (1030, flag (fun c => { c with autoTune := true }));
    (1031, putSize (fun v c => { c with maxIoThreads := v }));
    (1032, putSize (fun v c => { c with maxReaders := v }));
    (1060, putSize (fun v c => { c with maxWriters := v }));
    (1061, fun optarg s => Parsed { s with gDurableSpinIters := atoi optarg });
    (1062, fun _ s => Parsed { s with gTraceLatency := true }) ].
Definition switchWrites : list (Z * Action) :=
  [ (1063, putInt (fun v c => { c with sharedWalPrewrite := v }));
    (1064, putSize (fun v c => { c with sharedWalSegmentSize := v }));
    (1065, fun optarg s => Parsed { s with gCompletionSlice := strtoull optarg });
    (1045, putSize (fun v c => { c with writeCache := v }));
    (1040, flag (fun c => { c with sharedWal := true }));
    (1041, putString (fun v c => { c with sharedWalPath := v }));
    (1042, putSize (fun v c => { c with sharedWalFlushers := v }));
    (1043, putSize (fun v c => { c with sharedWalChunks := v }));
    (1044, putSize (fun v c => { c with sharedWalChunkSize := v }));
    (1050, putSize (fun v c => { c with sharedWalFlushUs := v }));
    (1046, putInt (fun v c => { c with sharedWalSyncCommit := if v =? 0 then 0 else 1 }));
    (1047, flag (fun c => { c with blindWrites := true }));
    (1048, putLong (fun v c => { c with writeCoalesceUs := v }));
    (1049, putSize (fun v c => { c with minWriteBatch := v }));
    (1051, putString (fun v c => { c with batchSort := v }));
    (1052, putDouble (fun v c => { c with sortDupThreshold := v }));
    (1053, putSize (fun v c => { c with lsmSSTableSize := v }));
    (1054, putSize (fun v c => { c with lsmBaseLevelSize := v })) ].
Definition switchStorage : list (Z * Action) :=
  [ (1066, putDouble (fun v c => { c with lsdFragRatio := v }));
    (1201, putDouble (fun v c => { c with sstableDynamicRatio := v }));
    (1202, putDouble (fun v c => { c with checkpointThreshold := v }));
    (1203, putInt (fun v c => { c with maxCheckpoints := v }));
    (1204, putInt (fun v c => { c with syncIntervalMs := v }));
    (1205, putSize (fun v c => { c with readBoostMB := v }));
    (1206, putInt (fun v c => { c with readBoostIdleMs := v }));
    (1207, putSize (fun v c => { c with readBoostMaxRssMB := v }));
    (1208, putSize (fun v c => { c with readBoostWriteRate := v }));
    (1209, putSize (fun v c => { c with memHardRssMB := v }));
    (1210, putSize (fun v c => { c with compactionRateLimitMB := v }));
    (1211, putSize (fun v c => { c with compactionLimitMinGets := v }));
    (1212, putSize (fun v c => { c with diskLimitBytes := v }));
    (1213, putSize (fun v c => { c with dataCacheMaxWriteRate := v }));
    (1214, putGcBand) ].
Definition switchRest : list (Z * Action) :=
  [ (1215, putDouble (fun v c => { c with diskPaceAt := v }));
    (1216, putSize (fun v c => { c with compactionRatePerSet := v }));
    (1217, putInt (fun v c => { c with writeSlowdownAtPct := v }));
    (1218, putStod (fun v c => { c with writeSlowdownUsPerMB := v }));
    (1067, putInt (fun v c => { c with keyLevelMultiplier := v }));
    (1072, flag (fun c => { c with keyWarmNewTables := true }));
    (1074, putSize (fun v c => { c with sstableWriteBuffer := v }));
    (1075, putSize (fun v c => { c with keyBlockSize := v }));
    (1077, putInt (fun v c => { c with lsdLevels := v }));
    (1078, flag (fun c => { c with lsdTieredL0 := true }));
    (1099, putStod (fun v c => { c with writeCacheRatio := v }));
    (1079, putStod (fun v c => { c with memLwmRatio := v }));
    (1080, flag (fun c => { c with tuneWritersOnly := true }));
    (1081, putSize (fun v c => { c with readAhead := v }));
    (1082, flag (fun c => { c with noIndexCompression := true }));
    (1083, putString (fun v c => { c with tunePools := v }));
    (1084, putString (fun v c => { c with blockCachePolicy := v }));
    (1055, putSize (fun v c => { c with lsmLevel0Tables := v }));
    (1056, putSize (fun v c => { c with lsmMinCompactSize := v }));
    (1057, putInt (fun v c => { c with lsmLevelMultiplier := v }));
    (1058, flag (fun c => { c with noWal := true }));
    (1059, flag (fun c => { c with asyncDurable := true })) ].
Definition switch : list (Z * Action) := switchServer ++ switchReads ++ switchCache ++ switchWrites ++ switchStorage ++ switchRest.
(** One option; what no case takes prints the usage and exits. *)
Definition setOption (opt : Z) (optarg : string) (s : Settings) : Outcome :=
  match List.find (fun ca => ca.1 =? opt) switch with
  | Some ca => ca.2 optarg s
  | None => Exited (if opt =? 104 then 0 else 1)
  end.

(** ** [getopt_long] *)
Inductive HasArg := no_argument | required_argument.
Definition longOpts : list (string * HasArg * Z) :=
  [ ("port", required_argument, 112);
    ("data-dir", required_argument, 100);
    ("bucket", required_argument, 98);
    ("hostname", required_argument, 72);
    ("shards", required_argument, 115);
    ("io-threads", required_argument, 105);
    ("writers", required_argument, 119);
    ("readers", required_argument, 114);
    ("mem-quota", required_argument, 109);
    ("flushers", required_argument, 102);
    ("compactors", required_argument, 99);
    ("vbuckets", required_argument, 118);
    ("stats-port", required_argument, 83);
    ("durable", no_argument, 68);
    ("write-queue-mem", required_argument, 81);
    ("echo-get", required_argument, 69);
    ("io-queue-depth", required_argument, 1001);
    ("max-read-batch", required_argument, 1002);
    ("max-read-owners", required_argument, 1085);
    ("cache-decompressed-data", no_argument, 1003);
    ("compress-index-cache", no_argument, 1009);
    ("enable-data-block-autotuning", no_argument, 1010);
    ("enable-index-block-autotuning", no_argument, 1011);
    ("align-512", no_argument, 1004);
    ("no-hot-stats", no_argument, 1005);
    ("async-reads", no_argument, 1400);
    ("magma-readers", required_argument, 1401);
    ("no-block-cache", no_argument, 1006);
    ("no-compression", no_argument, 1007);
    ("index-compression-lz4", no_argument, 1012);
    ("no-value-ptr-read", no_argument, 1013);
    ("learned-seq-locator", no_argument, 1100);
    ("compact-meta", no_argument, 1101);
    ("no-compact-meta", no_argument, 1107);
    ("no-value-ptr-write", no_argument, 1102);
    ("value-ptr-write", no_argument, 1103);
    ("no-learned-seq-locator", no_argument, 1104);
    ("bottom-bloom-accuracy", required_argument, 1105);
    ("block-writes-ratio", required_argument, 1106);
    ("data-block-size", required_argument, 1008);
    ("dispatch-batch", required_argument, 1018);
    ("cache-size", required_argument, 1020);
    ("cache-shards", required_argument, 1021);
    ("cache-policy", required_argument, 1022);
    ("cache-seqno-index", no_argument, 1301);
    ("cache-fill-doorkeeper", no_argument, 1302);
    ("cache-value-ptr", no_argument, 1303);
    ("cache-seqno-index-max", required_argument, 1309);
    ("stream-readers", no_argument, 1307);
    ("direct-send", no_argument, 1308);
    ("auto-tune", no_argument, 1030);
    ("max-io-threads", required_argument, 1031);
    ("max-readers", required_argument, 1032);
    ("max-writers", required_argument, 1060);
    ("durable-spin", required_argument, 1061);
    ("trace-latency", no_argument, 1062);
    ("shared-wal-prewrite", required_argument, 1063);
    ("shared-wal-segment-size", required_argument, 1064);
    ("completion-slice", required_argument, 1065);
    ("write-cache", required_argument, 1045);
    ("shared-wal", no_argument, 1040);
    ("shared-wal-path", required_argument, 1041);
    ("shared-wal-flushers", required_argument, 1042);
    ("shared-wal-chunks", required_argument, 1043);
    ("shared-wal-chunk-size", required_argument, 1044);
    ("shared-wal-sync-commit", required_argument, 1046);
    ("shared-wal-flush-us", required_argument, 1050);
    ("blind-writes", no_argument, 1047);
    ("write-coalesce-us", required_argument, 1048);
    ("min-write-batch", required_argument, 1049);
    ("batch-sort", required_argument, 1051);
    ("sort-dup-threshold", required_argument, 1052);
    ("lsm-sstable-size", required_argument, 1053);
    ("lsm-base-level-size", required_argument, 1054);
    ("lsd-frag-ratio", required_argument, 1066);
    ("sstable-dynamic-ratio", required_argument, 1201);
    ("checkpoint-threshold", required_argument, 1202);
    ("max-checkpoints", required_argument, 1203);
    ("key-level-multiplier", required_argument, 1067);
    ("key-warm-new-tables", no_argument, 1072);
    ("sstable-write-buffer", required_argument, 1074);
    ("key-block-size", required_argument, 1075);
    ("lsd-levels", required_argument, 1077);
    ("lsd-tiered-l0", no_argument, 1078);
    ("mem-lwm-ratio", required_argument, 1079);
    ("tune-writers-only", no_argument, 1080);
    ("read-ahead", required_argument, 1081);
    ("tune-pools", required_argument, 1083);
    ("block-cache-policy", required_argument, 1084);
    ("write-cache-ratio", required_argument, 1099);
    ("no-index-compression", no_argument, 1082);
    ("lsm-level0-tables", required_argument, 1055);
    ("lsm-min-compact-size", required_argument, 1056);
    ("lsm-level-multiplier", required_argument, 1057);
    ("no-wal", no_argument, 1058);
    ("sync-interval-ms", required_argument, 1204);
    ("read-boost-mb", required_argument, 1205);
    ("read-boost-idle-ms", required_argument, 1206);
    ("read-boost-max-rss-mb", required_argument, 1207);
    ("read-boost-write-rate", required_argument, 1208);
    ("mem-hard-rss-mb", required_argument, 1209);
    ("compaction-rate-limit-mb", required_argument, 1210);
    ("compaction-limit-min-gets", required_argument, 1211);
    ("compaction-rate-per-set", required_argument, 1216);
    ("disk-limit-bytes", required_argument, 1212);
    ("data-cache-max-write-rate", required_argument, 1213);
    ("disk-gc-band", required_argument, 1214);
    ("disk-pace-at", required_argument, 1215);
    ("write-slowdown-at", required_argument, 1217);
    ("write-slowdown-us-per-mb", required_argument, 1218);
    ("async-durable", no_argument, 1059);
    ("help", no_argument, 104) ].
Definition shortOpts : string := "p:d:b:H:s:i:w:r:m:f:c:v:S:DQ:E:h".
Fixpoint shortArg (c : ascii) (opts : string) : option HasArg :=
  match opts with
  | String o opts' =>
      if (o =? ":")%char then shortArg c opts'
      else if (o =? c)%char then Some match opts' with String o' _ => if (o' =? ":")%char then required_argument else no_argument | EmptyString => no_argument end
      else shortArg c opts'
  | EmptyString => None
  end.
(** The name before the first [=], and the value after it. *)
Fixpoint splitEq (s : string) : string * option string :=
  match s with
  | String c s' => if (c =? "=")%char then (EmptyString, Some s') else let '(n, v) := splitEq s' in (String c n, v)
  | EmptyString => (EmptyString, None)
  end.
(** The option with this name, or else the only one whose name starts with it. *)
Definition matchLong (name : string) : option (HasArg * Z) :=
  match List.find (fun o => (o.1.1 =? name)%string) longOpts with
  | Some o => Some (o.1.2, o.2)
  | None => match List.filter (fun o => String.prefix name o.1.1) longOpts with
            | [o] => Some (o.1.2, o.2)
            | _ => None
            end
  end.
(** What [getopt_long] returns for an option it does not know, an ambiguous one, a
    value missing or not wanted: the question mark. *)
Definition badOption (s : Settings) : Outcome := setOption 63 EmptyString s.
(** The letters of one argument, and whether the last took the next argument. *)
Fixpoint cluster (letters : string) (next : option string) (s : Settings) : Outcome * bool :=
  match letters with
  | EmptyString => (Parsed s, false)
  | String c rest =>
      let opt := Z.of_nat (nat_of_ascii c) in
      match shortArg c shortOpts with
      | None => (badOption s, false)
      | Some no_argument => match setOption opt EmptyString s with Parsed s' => cluster rest next s' | o => (o, false) end
      | Some required_argument =>
          match rest, next with
          | String _ _, _ => (setOption opt rest s, false)
          | EmptyString, Some v => (setOption opt v s, true)
          | EmptyString, None => (badOption s, false)
          end
      end
  end.
(** What an argument is: not an option, the end of the options, a long option or letters. *)
Inductive Arg := Word | Stop | Long (body : string) | Short (letters : string).
Definition classify (a : string) : Arg :=
  match a with
  | String c (String c2 r) =>
      if (c =? "-")%char then
        if (c2 =? "-")%char then match r with EmptyString => Stop | _ => Long r end else Short (String c2 r)
      else Word
  | _ => Word
  end.
Fixpoint parseFrom (args : list string) (s : Settings) : Outcome :=
  match args with
  | [] => Parsed s
  | a :: rest =>
      match classify a with
      | Word => parseFrom rest s
      | Stop => Parsed s
      | Long body =>
          let '(name, eq) := splitEq body in
          match matchLong name, eq with
          | Some (no_argument, opt), None => match setOption opt EmptyString s with Parsed s' => parseFrom rest s' | o => o end
          | Some (required_argument, opt), Some v => match setOption opt v s with Parsed s' => parseFrom rest s' | o => o end
          | Some (required_argument, opt), None =>
              match rest with
              | v :: rest' => match setOption opt v s with Parsed s' => parseFrom rest' s' | o => o end
              | [] => badOption s
              end
          | _, _ => badOption s
          end
      | Short letters =>
          match cluster letters (head rest) s, rest with
          | (Parsed s', true), _ :: rest' => parseFrom rest' s'
          | (Parsed s', _), _ => parseFrom rest s'
          | (o, _), _ => o
          end
      end
  end.
Definition parseArgs (argv : list string) : Outcome := parseFrom (tail argv) defaultSettings.

(** ** What the types hold *)
Definition is_int (w x : Z) : Prop := - 2 ^ (w - 1) <= x < 2 ^ (w - 1).
Definition u16Fields (c : Config) : list Z :=
  [port c; shards c; ioThreads c; writers c; readers c; flushers c; compactors c; vbuckets c; statsPort c].
Definition u32Fields (c : Config) : list Z :=
  [maxReadOwners c].
Definition sizeFields (c : Config) : list Z :=
  [memQuota c; writeQueueMem c; echoGetSize c; ioQueueDepth c; maxReadBatch c; magmaReaders c; dataBlockSize c; cacheSize c; cacheShards c; cacheSeqnoIndexMax c; maxIoThreads c; maxReaders c; maxWriters c; sharedWalSegmentSize c; writeCache c; sharedWalFlushers c; sharedWalChunks c; sharedWalChunkSize c; sharedWalFlushUs c; minWriteBatch c; lsmSSTableSize c; lsmBaseLevelSize c; sstableWriteBuffer c; keyBlockSize c; readAhead c; lsmLevel0Tables c; lsmMinCompactSize c; readBoostMB c; readBoostMaxRssMB c; readBoostWriteRate c; memHardRssMB c; compactionRateLimitMB c; compactionLimitMinGets c; compactionRatePerSet c; diskLimitBytes c; dataCacheMaxWriteRate c].
Definition intFields (c : Config) : list Z :=
  [compactMeta c; sharedWalPrewrite c; sharedWalSyncCommit c; writeSlowdownAtPct c; maxCheckpoints c; keyLevelMultiplier c; lsdLevels c; lsmLevelMultiplier c; syncIntervalMs c; readBoostIdleMs c].
Definition longFields (c : Config) : list Z :=
  [writeCoalesceUs c].
Record typed (s : Settings) : Prop := {
  ty_u16 : Forall (is_uint 16) (u16Fields (config s));
  ty_u32 : Forall (is_uint 32) (u32Fields (config s));
  ty_size : Forall (is_uint 64) (sizeFields (config s) ++ [gDispatchBatch s; gCompletionSlice s]);
  ty_int : Forall (is_int 32) (intFields (config s) ++ [gDurableSpinIters s]);
  ty_long : Forall (is_int 64) (longFields (config s));
}.
End parse.
