(* ===== verification/ClientKeys.v ===== *)
(** * The client's keys (client/fluxbench.cc)

    The benchmark client turns a key index into a key, a value size and a
    vbucket.  Modelled: the table-driven CRC-32 and the vbucket mapping, the
    index scrambling, both key formats and the per-key value sizes.  Shown: the
    CRC equals the bit-by-bit division, vbuckets are in range, scrambling is a
    bijection on 39-bit indices, and distinct indices give distinct keys, so a
    load over an index range writes each key of the data set once. *)
From stdpp Require Import prelude list strings pretty.
From Stdlib Require Import ZArith Lia String.
From S2P Require Import Prelude.
Open Scope Z_scope.

(** ** CRC-32 *)
Definition crcStep (c : Z) : Z :=
  if Z.land c 1 =? 0 then Z.shiftr c 1 else Z.lxor 0xEDB88320 (Z.shiftr c 1).
Definition crcTable : list Z := (fun i => Nat.iter 8 crcStep (Z.of_nat i)) <$> seq 0 256.

Definition crcByte (c b : Z) : Z :=
  Z.lxor (default 0 (crcTable !! Z.to_nat (Z.land (Z.lxor c b) 0xFF))) (Z.shiftr c 8).
Definition crc32 (data : list Z) : Z :=
  Z.lxor (foldl crcByte 0xFFFFFFFF data) 0xFFFFFFFF.

(** The reference: one division step per bit of the message. *)
Definition crc32_bitwise (data : list Z) : Z :=
  Z.lxor (foldl (fun c b => Nat.iter 8 crcStep (Z.lxor c b)) 0xFFFFFFFF data) 0xFFFFFFFF.

Definition vbucketFor (key : list Z) (vbuckets : Z) : Z :=
  u16 (Z.land (Z.shiftr (crc32 key) 16) 0x7FFF mod vbuckets).

(** ** Keys *)
Definition kMask : Z := Z.shiftl 1 39 - 1.
Definition scrambleIndex (x : Z) : Z :=
  let x := Z.land (u64 (x * 0x9E3779B97F4A7C15)) kMask in
  let x := Z.lxor x (Z.shiftr x 19) in
  let x := Z.land (u64 (x * 0xBF58476D1CE4E5B9)) kMask in
  Z.lxor x (Z.shiftr x 17).


(** The loop that writes the decimal digits backwards into [k]. *)
Fixpoint fixedLoop (i : nat) (index : Z) (k : list Z) : list Z :=
  match i with
  | O => k
  | S i' => if 0 <? index then fixedLoop i' (index / 10) (<[i' := 48 + index mod 10]> k) else k
  end.

Section keys.
Context (gKeyLen : nat) (gStartKey : Z) (gScramble : bool).

Definition keyFor (index : Z) : list Z :=
  let index := u64 (index + gStartKey) in
  let index := if gScramble then scrambleIndex index else index in
  if decide (gKeyLen = 0%nat) then chars "key_" ++ to_string index
  else fixedLoop gKeyLen index (replicate gKeyLen 48).
End keys.

(** ** Value sizes.  [isLarge x] is the comparison of [x]'s top 53 bits as a
    fraction with [valLargeFrac]. *)
Inductive ValDist := DistNone | DistUniform | DistBimodal.
Definition splitmix (keyIndex : Z) : Z :=
  let x := u64 (keyIndex + 0x9E3779B97F4A7C15) in
  let x := u64 (Z.lxor x (Z.shiftr x 30) * 0xBF58476D1CE4E5B9) in
  let x := u64 (Z.lxor x (Z.shiftr x 27) * 0x94D049BB133111EB) in
  Z.lxor x (Z.shiftr x 31).
Definition valueLenFor (valdist : ValDist) (valsize valMin valMax : Z) (isLarge : Z -> bool) (keyIndex : Z) : Z :=
  match valdist with
  | DistNone => valsize
  | DistUniform => u64 (valMin + splitmix keyIndex mod u64 (valMax - valMin + 1))
  | DistBimodal => if isLarge (Z.shiftr (splitmix keyIndex) 11) then valMax else valMin
  end.

(** Equations of exclusive ors, bit by bit. *)
Ltac xor_cases :=
  apply Z.bits_inj'; intros ? ?; rewrite ?Z.lxor_spec, ?Z.land_spec, ?Z.lxor_spec, ?Z.bits_0;
  repeat match goal with |- context [Z.testbit ?a ?n] => destruct (Z.testbit a n) end; done.

(** ** Dividing by the polynomial is linear *)
Lemma land_1_lxor a b : Z.land (Z.lxor a b) 1 = Z.lxor (Z.land a 1) (Z.land b 1).
Proof. xor_cases. Qed.

Lemma land_1_cases a : Z.land a 1 = 0 \/ Z.land a 1 = 1.
Proof. change 1 with (Z.ones 1) at 1 2. rewrite Z.land_ones by lia. pose proof (Z.mod_pos_bound a (2 ^ 1)). lia. Qed.

Lemma crcStep_lxor a b : crcStep (Z.lxor a b) = Z.lxor (crcStep a) (crcStep b).
Proof.
  unfold crcStep. rewrite land_1_lxor, Z.shiftr_lxor.
  destruct (land_1_cases a) as [-> | ->], (land_1_cases b) as [-> | ->]; simpl Z.lxor; simpl Z.eqb; cbv iota;
    xor_cases.
Qed.

Lemma crcSteps_lxor n a b : Nat.iter n crcStep (Z.lxor a b) = Z.lxor (Nat.iter n crcStep a) (Nat.iter n crcStep b).
Proof. induction n as [|n IH]; [done|]. rewrite !Nat.iter_succ, IH. apply crcStep_lxor. Qed.

(** Steps over zero bits only shift. *)
Lemma crcSteps_shift n a : Nat.iter n crcStep (Z.shiftl a (Z.of_nat n)) = a.
Proof.
  induction n as [|n IH]; [apply Z.shiftl_0_r|].
  rewrite Nat.iter_succ_r. unfold crcStep at 2.
  assert (E : Z.land (Z.shiftl a (Z.of_nat (S n))) 1 = 0).
  { apply Z.bits_inj'. intros i Hi. rewrite Z.land_spec, Z.bits_0. destruct (decide (i = 0)) as [->|Hne].
    - by rewrite Z.shiftl_spec_low by lia.
    - rewrite (Z.bits_above_log2 1 i), andb_false_r by (simpl; lia). done. }
  rewrite E, Z.eqb_refl, Z.shiftr_shiftl_l by lia. by replace (Z.of_nat (S n) - 1) with (Z.of_nat n) by lia.
Qed.

Lemma split_low n a : 0 <= n -> a = Z.lxor (Z.land a (Z.ones n)) (Z.shiftl (Z.shiftr a n) n).
Proof.
  intros Hn. apply Z.bits_inj'. intros i Hi. rewrite Z.lxor_spec, Z.land_spec, Z.testbit_ones_nonneg by lia.
  destruct (Z.ltb_spec i n).
  - by rewrite Z.shiftl_spec_low, andb_true_r, xorb_false_r by lia.
  - by rewrite Z.shiftl_spec_high, Z.shiftr_spec, Z.sub_add, andb_false_r by lia.
Qed.

Lemma crcTable_lookup x : 0 <= x < 256 -> crcTable !! Z.to_nat x = Some (Nat.iter 8 crcStep x).
Proof.
  intros Hx. unfold crcTable. rewrite list_lookup_fmap, lookup_seq_lt by lia. simpl fmap. by rewrite Z2Nat.id by lia.
Qed.

Lemma crcByte_steps c b : byte_ok b -> crcByte c b = Nat.iter 8 crcStep (Z.lxor c b).
Proof.
  intros Hb. unfold crcByte. change 0xFF with (Z.ones 8).
  assert (Hr : 0 <= Z.land (Z.lxor c b) (Z.ones 8) < 256).
  { rewrite Z.land_ones by lia. apply Z.mod_pos_bound. done. }
  rewrite (crcTable_lookup _ Hr). simpl default. rewrite (split_low 8 (Z.lxor c b)) at 2 by lia.
  rewrite crcSteps_lxor. f_equal. change 8 with (Z.of_nat 8) at 3. rewrite crcSteps_shift.
  rewrite Z.shiftr_lxor. rewrite (Z.shiftr_div_pow2 b) by lia. rewrite Z.div_small; [|exact Hb]. by rewrite Z.lxor_0_r.
Qed.

Lemma foldl_crcByte l c : bytes_ok l ->
  foldl crcByte c l = foldl (fun c b => Nat.iter 8 crcStep (Z.lxor c b)) c l.
Proof.
  intros H. revert c. induction H as [|b l Hb _ IH]; intros c; [done|]. cbn [foldl]. by rewrite crcByte_steps, IH.
Qed.

(** The client's table-driven CRC-32 is the bit-by-bit division of the
    message by the polynomial, and the vbucket it picks for a key is one of the
    server's. *)
Theorem vbucket_mapping (key : list Z) (vbuckets : Z) : bytes_ok key -> 0 < vbuckets < 2 ^ 16 ->
  crc32 key = crc32_bitwise key /\ 0 <= vbucketFor key vbuckets < vbuckets.
Proof.
  intros Hk Hv. split; [unfold crc32, crc32_bitwise; by rewrite foldl_crcByte|].
  unfold vbucketFor. set (x := Z.land _ _). pose proof (Z.mod_pos_bound x vbuckets ltac:(lia)).
  rewrite u16_small; lia.
Qed.

(** The check value of CRC-32: the digits 1 to 9. *)
Lemma vbucket_mapping_witness :
  let key := [49; 50; 51; 52; 53; 54; 55; 56; 57] in
  crc32 key = 0xCBF43926 /\ crc32 key = crc32_bitwise key /\ 0 <= vbucketFor key 1024 < 1024.
Proof.
  split; [vm_compute; reflexivity|]. apply vbucket_mapping; [|lia]. repeat constructor; lia.
Defined.

(** ** Scrambling can be undone *)
Definition mulMod (c x : Z) : Z := (x * c) mod 2 ^ 39.
Definition xorShift (s x : Z) : Z := Z.lxor x (Z.shiftr x s).
Definition unShift (s y : Z) : Z := Z.lxor y (Z.lxor (Z.shiftr y s) (Z.shiftr y (2 * s))).
Definition unscrambleIndex (y : Z) : Z :=
  mulMod 0x619937733D (unShift 19 (mulMod 0x173F119089 (unShift 17 y))).

Lemma scrambleIndex_steps x :
  scrambleIndex x = xorShift 17 (mulMod 0xBF58476D1CE4E5B9 (xorShift 19 (mulMod 0x9E3779B97F4A7C15 x))).
Proof.
  assert (Hm : forall a, Z.land (u64 a) kMask = a mod 2 ^ 39).
  { intros a. change kMask with (Z.ones 39). rewrite Z.land_ones by lia. unfold u64, uwrap.
    apply Z.mod_mod_divide. exists (2 ^ 25). reflexivity. }
  unfold scrambleIndex. cbv zeta. rewrite !Hm. done.
Qed.

Lemma mulMod_inverse c d x : (c * d) mod 2 ^ 39 = 1 -> is_uint 39 x -> mulMod d (mulMod c x) = x.
Proof.
  intros Hcd Hx. unfold mulMod. rewrite Z.mul_mod_idemp_l, <- Z.mul_assoc, <- Z.mul_mod_idemp_r, Hcd, Z.mul_1_r by done.
  by apply Z.mod_small.
Qed.

Lemma mulMod_range c x : is_uint 39 (mulMod c x).
Proof. apply Z.mod_pos_bound. done. Qed.

Lemma lxor_range w a b : 0 <= w -> is_uint w a -> is_uint w b -> is_uint w (Z.lxor a b).
Proof.
  intros Hw Ha Hb. assert (E : Z.lxor a b = Z.land (Z.lxor a b) (Z.ones w)).
  { apply Z.bits_inj'. intros i Hi. rewrite Z.land_spec, Z.testbit_ones_nonneg, Z.lxor_spec by lia.
    destruct (Z.ltb_spec i w); [by rewrite andb_true_r|]. rewrite andb_false_r.
    rewrite <- (Z.mod_small a (2 ^ w)), <- (Z.mod_small b (2 ^ w)) by done. by rewrite !Z.mod_pow2_bits_high by lia. }
  rewrite E, Z.land_ones by done. apply Z.mod_pos_bound. lia.
Qed.

Lemma shiftr_range w s a : 0 <= s -> is_uint w a -> is_uint w (Z.shiftr a s).
Proof.
  intros Hs [Ha Hb]. unfold is_uint. rewrite Z.shiftr_div_pow2 by done. pose proof (Z.pow_pos_nonneg 2 s).
  split; [apply Z.div_pos; lia|]. eapply Z.le_lt_trans; [|exact Hb]. apply Z.div_le_upper_bound; nia.
Qed.

Lemma xorShift_range s x : 0 <= s -> is_uint 39 x -> is_uint 39 (xorShift s x).
Proof. intros. apply lxor_range; [lia|done|]. by apply shiftr_range. Qed.
Lemma unShift_range s x : 0 <= s -> is_uint 39 x -> is_uint 39 (unShift s x).
Proof. intros. apply lxor_range; [lia|done|]. apply lxor_range; [lia|..]; apply shiftr_range; (done || lia). Qed.

Lemma shiftr_gone s x : 39 <= s -> is_uint 39 x -> Z.shiftr x s = 0.
Proof.
  intros Hs [Hx Hb]. rewrite Z.shiftr_div_pow2 by lia. apply Z.div_small. split; [done|].
  eapply Z.lt_le_trans; [exact Hb|]. apply Z.pow_le_mono_r; lia.
Qed.

Lemma unShift_inverse s x : 13 <= s -> is_uint 39 x -> unShift s (xorShift s x) = x /\ xorShift s (unShift s x) = x.
Proof.
  intros Hs Hx. pose proof (shiftr_gone (s + s + s) x ltac:(lia) Hx) as H3.
  unfold unShift, xorShift. rewrite !Z.shiftr_lxor, !Z.shiftr_shiftr by lia.
  replace (2 * s) with (s + s) by lia. rewrite !Z.add_assoc, H3, !Z.lxor_0_r. split; xor_cases.
Qed.

Lemma scramble_left x : is_uint 39 x ->
  is_uint 39 (scrambleIndex x) /\ unscrambleIndex (scrambleIndex x) = x.
Proof.
  intros Hx. rewrite !scrambleIndex_steps. unfold unscrambleIndex.
  pose proof (mulMod_range 0x9E3779B97F4A7C15 x) as H1. pose proof (xorShift_range 19 _ ltac:(lia) H1) as H2.
  split; [apply xorShift_range; [lia|apply mulMod_range]|].
  rewrite (proj1 (unShift_inverse 17 _ ltac:(lia) (mulMod_range _ _))), mulMod_inverse by done.
  rewrite (proj1 (unShift_inverse 19 _ ltac:(lia) H1)). by apply mulMod_inverse.
Qed.

Lemma scramble_right x : is_uint 39 x ->
  is_uint 39 (unscrambleIndex x) /\ scrambleIndex (unscrambleIndex x) = x.
Proof.
  intros Hx. rewrite !scrambleIndex_steps. unfold unscrambleIndex.
  pose proof (unShift_range 17 x ltac:(lia) Hx) as H3. pose proof (mulMod_range 0x173F119089 (unShift 17 x)) as H4.
  pose proof (unShift_range 19 _ ltac:(lia) H4) as H5. split; [apply mulMod_range|].
  rewrite mulMod_inverse, (proj2 (unShift_inverse 19 _ ltac:(lia) H4)), mulMod_inverse by done.
  by apply unShift_inverse.
Qed.

(** Scrambling is a permutation of the 39-bit key indices: it stays in
    range and is undone, on both sides, by the inverse steps in reverse. *)
Theorem scrambleIndex_bijective x : is_uint 39 x ->
  is_uint 39 (scrambleIndex x) /\ unscrambleIndex (scrambleIndex x) = x /\
  is_uint 39 (unscrambleIndex x) /\ scrambleIndex (unscrambleIndex x) = x.
Proof. intros Hx. destruct (scramble_left x Hx), (scramble_right x Hx). done. Qed.

Lemma scrambleIndex_bijective_witness :
  scrambleIndex 12345 = 192165743281 /\ unscrambleIndex (scrambleIndex 12345) = 12345.
Proof. split; [vm_compute; reflexivity|]. apply (scrambleIndex_bijective 12345). split; vm_compute; congruence. Defined.

(** ** Distinct indices, distinct keys *)
Fixpoint digits (n : nat) (x : Z) : list Z :=
  match n with
  | O => []
  | S n' => digits n' (x / 10) ++ [48 + x mod 10]
  end.
Definition undigits (l : list Z) : Z := foldl (fun acc d => 10 * acc + (d - 48)) 0 l.

Lemma digits_0 n : digits n 0 = replicate n 48.
Proof.
  induction n as [|n IH]; [done|]. cbn [digits]. rewrite Z.div_0_l, IH by done.
  by rewrite replicate_S_end.
Qed.

Lemma fixedLoop_digits n x r : 0 <= x -> fixedLoop n x (replicate n 48 ++ r) = digits n x ++ r.
Proof.
  revert x r. induction n as [|n IH]; intros x r Hx; [done|]. cbn [fixedLoop digits]. destruct (Z.ltb_spec 0 x).
  - rewrite replicate_S_end, <- app_assoc. rewrite insert_app_r_alt by (rewrite length_replicate; lia).
    rewrite length_replicate, Nat.sub_diag. cbn [app insert list_insert]. rewrite IH by (apply Z.div_pos; lia).
    by rewrite <- app_assoc.
  - replace x with 0 by lia. rewrite Z.div_0_l by done. change (48 + 0 mod 10) with 48.
    rewrite digits_0, <- replicate_S_end. done.
Qed.

Lemma undigits_digits n x : 0 <= x < 10 ^ Z.of_nat n -> undigits (digits n x) = x.
Proof.
  revert x. induction n as [|n IH]; intros x Hx; [change (10 ^ Z.of_nat 0) with 1 in Hx; cbn; lia|]. cbn [digits].
  unfold undigits in *. rewrite foldl_app. rewrite IH.
  - cbn [foldl]. pose proof (Z.div_mod x 10). lia.
  - rewrite Nat2Z.inj_succ, Z.pow_succ_r in Hx by lia.
    split; [apply Z.div_pos; lia|apply Z.div_lt_upper_bound; lia].
Qed.

Lemma chars_inj s s' : chars s = chars s' -> s = s'.
Proof.
  intros H. rewrite <- (String.string_of_list_ascii_of_string s), <- (String.string_of_list_ascii_of_string s').
  f_equal. eapply list_fmap_eq_inj; [|exact H]. intros c c' Hc%N2Z.inj.
  rewrite <- (Ascii.ascii_N_embedding c), Hc. apply Ascii.ascii_N_embedding.
Qed.

Lemma to_string_inj x y : 0 <= x -> 0 <= y -> to_string x = to_string y -> x = y.
Proof. intros Hx Hy H%chars_inj%(inj pretty). lia. Qed.

(** How many different keys the key format has room for. *)
Definition key_room (gKeyLen : nat) (bound : Z) : Prop := gKeyLen = 0%nat \/ bound <= 10 ^ Z.of_nat gKeyLen.

Lemma key_of_index_inj gKeyLen bound x y : key_room gKeyLen bound -> 0 <= x < bound -> 0 <= y < bound ->
  (if decide (gKeyLen = 0%nat) then chars "key_" ++ to_string x else fixedLoop gKeyLen x (replicate gKeyLen 48)) =
  (if decide (gKeyLen = 0%nat) then chars "key_" ++ to_string y else fixedLoop gKeyLen y (replicate gKeyLen 48)) ->
  x = y.
Proof.
  intros Hr Hx Hy. destruct (decide (gKeyLen = 0%nat)) as [|Hn].
  - intros H%(inj (chars "key_" ++.)). apply to_string_inj; (done || lia).
  - rewrite <- (app_nil_r (replicate _ _)), !fixedLoop_digits, !app_nil_r by lia. intros H.
    destruct Hr as [|Hr]; [done|]. rewrite <- (undigits_digits gKeyLen x), <- (undigits_digits gKeyLen y) by lia.
    by rewrite H.
Qed.

(** Distinct key indices have distinct keys, with or without scrambling and
    in both key formats, as long as the indices fit the range scrambling permutes
    and the key width holds them. *)
Theorem keys_distinct (gKeyLen : nat) (gStartKey : Z) (gScramble : bool) (n i j : Z) :
  let bound := if gScramble then 2 ^ 39 else gStartKey + n in
  0 <= gStartKey -> gStartKey + n <= 2 ^ 64 -> (gScramble = true -> gStartKey + n <= 2 ^ 39) ->
  key_room gKeyLen bound -> 0 <= i < n -> 0 <= j < n ->
  keyFor gKeyLen gStartKey gScramble i = keyFor gKeyLen gStartKey gScramble j -> i = j.
Proof.
  intros bound H0 Hw Hs Hr Hi Hj. unfold keyFor. cbv zeta. rewrite !u64_small by lia.
  intros H%(key_of_index_inj gKeyLen bound); [|done|..].
  - destruct gScramble; [|lia]. specialize (Hs eq_refl).
    destruct (scramble_left (i + gStartKey)) as [_ E1]; [unfold is_uint; lia|].
    destruct (scramble_left (j + gStartKey)) as [_ E2]; [unfold is_uint; lia|]. rewrite H in E1. lia.
  - unfold bound. destruct gScramble; [apply scramble_left; unfold is_uint; specialize (Hs eq_refl); lia|lia].
  - unfold bound. destruct gScramble; [apply scramble_left; unfold is_uint; specialize (Hs eq_refl); lia|lia].
Qed.

(** Twelve-digit scrambled keys of a billion indices. *)
Lemma keys_distinct_witness :
  keyFor 12 0 true 7 <> keyFor 12 0 true 8 /\ keyFor 12 0 true 7 = [50; 51; 56; 52; 53; 51; 54; 53; 49; 56; 54; 51].
Proof.
  split; [|vm_compute; reflexivity]. intros H.
  assert (7 = 8); [|lia]. apply (keys_distinct 12 0 true (10 ^ 9) 7 8); try lia; try exact H.
  right. vm_compute. congruence.
Defined.
