(* ===== verification/LatencyHist.v ===== *)
(** * The client's latency histogram (client/fluxbench.cc, [LatencyHist])

    Samples in microseconds are counted in buckets of 64 sub-steps per power of
    two; the histograms of all connections are merged and percentiles read off
    the buckets.  Shown: a percentile of the merged histogram is at least the
    exact order statistic of all samples and at most one part in 64 above it. *)
From stdpp Require Import prelude list sorting.
From Stdlib Require Import ZArith Lia.
From S2P Require Import Prelude.
Open Scope Z_scope.

Definition kSub : Z := 64.
Definition kBuckets : Z := 31 * kSub.

Record LatencyHist := mkLatencyHist { counts : list Z; total : Z }.
Definition emptyHist : LatencyHist := mkLatencyHist (replicate (Z.to_nat kBuckets) 0) 0.

(** [31 - __builtin_clz(us)] is the binary logarithm of a non-zero [uint32_t]. *)
Definition bucket (us : Z) : Z :=
  let us := if us <? 1 then 1 else us in
  let lg := Z.log2 us in
  let sub := if 6 <=? lg then Z.land (Z.shiftr us (lg - 6)) (kSub - 1)
             else Z.land (u32 (Z.shiftl us (6 - lg))) (kSub - 1) in
  let b := lg * kSub + sub in
  if b <? kBuckets then b else kBuckets - 1.

Definition upper (b : Z) : Z :=
  let lg := b / kSub in
  let sub := b mod kSub + 1 in
  if 6 <=? lg then u32 (u32 (Z.shiftl 1 lg) + u32 (Z.shiftl sub (lg - 6)))
  else u32 (u32 (Z.shiftl 1 lg) + Z.shiftr sub (6 - lg)).

Definition hist_add (h : LatencyHist) (us : Z) : LatencyHist :=
  mkLatencyHist (alter (fun c => u64 (c + 1)) (Z.to_nat (bucket us)) (counts h)) (u64 (total h + 1)).
Definition hist_merge (h o : LatencyHist) : LatencyHist :=
  mkLatencyHist (zip_with (fun a b => u64 (a + b)) (counts h) (counts o)) (u64 (total h + total o)).

Fixpoint maxLoop (i : nat) (cs : list Z) : Z :=
  match i with
  | O => 0
  | S i' => if default 0 (cs !! i') =? 0 then maxLoop i' cs else upper (Z.of_nat i')
  end.
Definition hist_max (h : LatencyHist) : Z := maxLoop (Z.to_nat kBuckets) (counts h).

(** [scale n] is the double [p * n] truncated. *)
Fixpoint percentileLoop (cs : list Z) (i seen want : Z) : Z :=
  match cs with
  | [] => upper (kBuckets - 1)
  | c :: cs' =>
      let seen := u64 (seen + c) in
      if want <? seen then upper i else percentileLoop cs' (i + 1) seen want
  end.
Definition percentile (scale : Z -> Z) (h : LatencyHist) : Z :=
  if total h =? 0 then 0 else
  let want := if total h <=? scale (total h) then total h - 1 else scale (total h) in
  percentileLoop (counts h) 0 0 want.

(** ** Buckets *)
Lemma sub_step us : 1 <= us < 2 ^ 32 ->
  let lg := Z.log2 us in
  (if 6 <=? lg then Z.land (Z.shiftr us (lg - 6)) (kSub - 1)
   else Z.land (u32 (Z.shiftl us (6 - lg))) (kSub - 1)) = us * 64 / 2 ^ lg - 64 /\
  64 <= us * 64 / 2 ^ lg < 128.
Proof.
  intros Hus lg. destruct (Z.log2_spec us) as [Hl Hu]; [lia|]. fold lg in Hl, Hu.
  pose proof (Z.log2_nonneg us) as Hlg. fold lg in Hlg. rewrite Z.pow_succ_r in Hu by done.
  assert (Hr : 64 <= us * 64 / 2 ^ lg < 128).
  { split; [apply Z.div_le_lower_bound; lia|apply Z.div_lt_upper_bound; lia]. }
  split; [|done]. change (kSub - 1) with (Z.ones 6). destruct (Z.leb_spec 6 lg) as [H6|H6].
  - rewrite Z.land_ones, Z.shiftr_div_pow2 by lia.
    assert (E : us * 64 / 2 ^ lg = us / 2 ^ (lg - 6)).
    { replace lg with (lg - 6 + 6) at 1 by lia. rewrite Z.pow_add_r by lia. apply Z.div_mul_cancel_r; lia. }
    rewrite E in *. change (2 ^ 6) with 64. pose proof (Z.div_mod (us / 2 ^ (lg - 6)) 64).
    pose proof (Z.mod_pos_bound (us / 2 ^ (lg - 6)) 64). lia.
  - rewrite Z.land_ones, Z.shiftl_mul_pow2 by lia.
    assert (E : us * 64 / 2 ^ lg = us * 2 ^ (6 - lg)).
    { change 64 with (2 ^ 6). replace 6 with (6 - lg + lg) at 1 by lia. rewrite Z.pow_add_r, Z.mul_assoc by lia.
      apply Z.div_mul. lia. }
    rewrite E in *. rewrite u32_small by lia. change (2 ^ 6) with 64. pose proof (Z.div_mod (us * 2 ^ (6 - lg)) 64).
    pose proof (Z.mod_pos_bound (us * 2 ^ (6 - lg)) 64). lia.
Qed.

(** The bucket of a sample, as a formula. *)
Definition rawBucket (us : Z) : Z := Z.log2 us * 64 + (us * 64 / 2 ^ Z.log2 us - 64).

Lemma bucket_raw us : 0 <= us < 2 ^ 32 -> bucket us = Z.min (rawBucket (Z.max us 1)) (kBuckets - 1).
Proof.
  intros Hus. unfold bucket. assert (E : (if us <? 1 then 1 else us) = Z.max us 1).
  { destruct (Z.ltb_spec us 1); lia. }
  rewrite E. destruct (sub_step (Z.max us 1)) as [-> _]; [lia|]. fold (rawBucket (Z.max us 1)).
  cbv zeta. change kSub with 64. fold (rawBucket (Z.max us 1)). destruct (Z.ltb_spec (rawBucket (Z.max us 1)) kBuckets); lia.
Qed.

Lemma rawBucket_mono x y : 1 <= x <= y -> y < 2 ^ 32 -> rawBucket x <= rawBucket y.
Proof.
  intros Hx Hy. unfold rawBucket. destruct (sub_step x) as [_ Hrx]; [lia|]. destruct (sub_step y) as [_ Hry]; [lia|].
  cbv zeta in Hrx, Hry. pose proof (Z.log2_le_mono x y ltac:(lia)). destruct (decide (Z.log2 x = Z.log2 y)) as [E|].
  - rewrite E. pose proof (Z.div_le_mono (x * 64) (y * 64) (2 ^ Z.log2 y)). pose proof (Z.log2_nonneg y).
    pose proof (Z.pow_pos_nonneg 2 (Z.log2 y)). lia.
  - lia.
Qed.

Lemma bucket_mono x y : 0 <= x <= y -> y < 2 ^ 32 -> bucket x <= bucket y.
Proof.
  intros. rewrite !bucket_raw by lia. pose proof (rawBucket_mono (Z.max x 1) (Z.max y 1)). lia.
Qed.

Lemma bucket_range us : 0 <= us < 2 ^ 32 -> 0 <= bucket us < kBuckets.
Proof.
  intros. rewrite bucket_raw by lia. unfold rawBucket. destruct (sub_step (Z.max us 1)) as [_ Hr]; [lia|].
  pose proof (Z.log2_nonneg (Z.max us 1)). cbv zeta in Hr. unfold kBuckets, kSub in *. lia.
Qed.

Lemma upper_bucket us : 1 <= us < 2 ^ 31 -> us <= upper (bucket us) <= us + us / 64.
Proof.
  intros Hus. rewrite bucket_raw, Z.max_l by lia. destruct (sub_step us) as [_ Hr]; [lia|]. cbv zeta in Hr.
  destruct (Z.log2_spec us) as [Hl Hu]; [lia|]. pose proof (Z.log2_nonneg us) as Hlg.
  assert (Hlg2 : Z.log2 us <= 30). { apply Z.lt_succ_r. apply Z.log2_lt_pow2; lia. }
  unfold rawBucket. set (lg := Z.log2 us) in *. set (q := us * 64 / 2 ^ lg) in *.
  rewrite Z.min_l by (unfold kBuckets, kSub; lia). unfold upper, kSub.
  replace (lg * 64 + (q - 64)) with ((q - 64) + lg * 64) by lia. rewrite Z.div_add, Z.mod_add by lia.
  rewrite (Z.div_small (q - 64)), (Z.mod_small (q - 64)) by lia. rewrite Z.add_0_l.
  rewrite Z.shiftl_1_l. assert (2 ^ lg <= 2 ^ 30) by (apply Z.pow_le_mono_r; lia).
  rewrite Z.pow_succ_r in Hu by done. rewrite (u32_small (2 ^ lg)) by lia.
  destruct (Z.leb_spec 6 lg) as [H6|H6].
  - rewrite Z.shiftl_mul_pow2 by lia. assert (Ep : 2 ^ lg = 2 ^ (lg - 6) * 64).
    { change 64 with (2 ^ 6). rewrite <- Z.pow_add_r by lia. f_equal. lia. }
    assert (Eq : q = us / 2 ^ (lg - 6)). { unfold q. rewrite Ep. apply Z.div_mul_cancel_r; lia. }
    assert (Hp : 0 < 2 ^ (lg - 6)) by (apply Z.pow_pos_nonneg; lia).
    pose proof (Z.div_mod us (2 ^ (lg - 6)) ltac:(lia)) as Hd. rewrite <- Eq in Hd.
    pose proof (Z.mod_pos_bound us (2 ^ (lg - 6)) Hp). assert (2 ^ (lg - 6) <= us / 64) by (apply Z.div_le_lower_bound; lia).
    rewrite (u32_small ((q - 64 + 1) * _)) by nia. rewrite u32_small by nia. nia.
  - rewrite Z.shiftr_div_pow2 by lia. assert (Eq : q = us * 2 ^ (6 - lg)).
    { unfold q. change 64 with (2 ^ 6). replace 6 with (6 - lg + lg) at 1 by lia.
      rewrite Z.pow_add_r, Z.mul_assoc by lia. apply Z.div_mul. lia. }
    assert (E64 : 2 ^ lg * 2 ^ (6 - lg) = 64). { rewrite <- Z.pow_add_r by lia. by replace (lg + (6 - lg)) with 6 by lia. }
    assert (Hp : 2 <= 2 ^ (6 - lg)). { change 2 with (2 ^ 1) at 1. apply Z.pow_le_mono_r; lia. }
    assert (E : (q - 64 + 1) / 2 ^ (6 - lg) = us - 2 ^ lg).
    { rewrite Eq, <- E64. replace (us * 2 ^ (6 - lg) - 2 ^ lg * 2 ^ (6 - lg) + 1) with (1 + (us - 2 ^ lg) * 2 ^ (6 - lg)) by lia.
      rewrite Z.div_add, Z.div_small by lia. lia. }
    rewrite E, u32_small by lia. pose proof (Z.div_pos us 64). lia.
Qed.

(** ** Histograms count samples *)
Definition sample_ok (us : Z) : Prop := 0 <= us < 2 ^ 32.
Definition inBucket (l : list Z) (j : nat) : list Z := filter (fun x => bucket x = Z.of_nat j) l.
Definition below (l : list Z) (b : Z) : list Z := filter (fun x => bucket x < b) l.

Record hist_rep (h : LatencyHist) (l : list Z) : Prop := mkHistRep {
  hr_len : length (counts h) = Z.to_nat kBuckets;
  hr_counts : forall j c, counts h !! j = Some c -> c = Z.of_nat (length (inBucket l j));
  hr_total : total h = Z.of_nat (length l);
  hr_ok : Forall sample_ok l;
  hr_fits : Z.of_nat (length l) < 2 ^ 64;
}.

Lemma emptyHist_rep : hist_rep emptyHist [].
Proof.
  split; [reflexivity| |reflexivity|done|done]. intros j c [-> _]%lookup_replicate. done.
Qed.

Lemma hist_add_rep h l x : hist_rep h l -> sample_ok x -> Z.of_nat (length l) + 1 < 2 ^ 64 ->
  hist_rep (hist_add h x) (l ++ [x]).
Proof.
  intros [Hl Hc Ht Ho Hf] Hx Hn. unfold hist_add. split; cbn [counts total].
  - by rewrite length_alter.
  - intros j c. unfold inBucket. rewrite filter_app. destruct (decide (j = Z.to_nat (bucket x))) as [->|Hne].
    + rewrite list_lookup_alter_eq. intros (c0 & Hc0 & ->)%fmap_Some_1.
      rewrite (filter_cons_True _ _ []) by (pose proof (bucket_range x Hx); lia). rewrite length_app.
      rewrite (Hc _ _ Hc0). fold (inBucket l (Z.to_nat (bucket x))).
      pose proof (length_filter (fun x0 => bucket x0 = Z.of_nat (Z.to_nat (bucket x))) l) as Hle. fold (inBucket l (Z.to_nat (bucket x))) in Hle.
      cbn [length filter list_filter]. rewrite u64_small; lia.
    + rewrite list_lookup_alter_ne by done. intros Hj. rewrite (filter_cons_False _ _ []) by (pose proof (bucket_range x Hx); lia).
      cbn [filter list_filter]. rewrite app_nil_r. by apply Hc.
  - rewrite Ht, length_app. simpl length. rewrite u64_small; lia.
  - apply Forall_app. by split; [|constructor].
  - rewrite length_app. simpl length. lia.
Qed.

Lemma hist_merge_rep h o l k : hist_rep h l -> hist_rep o k -> Z.of_nat (length l + length k) < 2 ^ 64 ->
  hist_rep (hist_merge h o) (l ++ k).
Proof.
  intros [Hl Hc Ht Ho Hf] [Hl' Hc' Ht' Ho' Hf'] Hn. unfold hist_merge. split; cbn [counts total].
  - rewrite length_zip_with. lia.
  - intros j c. rewrite lookup_zip_with. intros (a & Ha & (b & Hb & [= <-])%bind_Some)%bind_Some.
    rewrite (Hc _ _ Ha), (Hc' _ _ Hb). unfold inBucket. rewrite filter_app, length_app.
    pose proof (length_filter (fun x => bucket x = Z.of_nat j) l). pose proof (length_filter (fun x => bucket x = Z.of_nat j) k).
    rewrite u64_small; lia.
  - rewrite Ht, Ht', length_app, u64_small; lia.
  - by apply Forall_app.
  - rewrite length_app. lia.
Qed.

(** ** Reading off a percentile *)
Lemma below_next l j : Forall sample_ok l ->
  length (below l (Z.of_nat j + 1)) = (length (below l (Z.of_nat j)) + length (inBucket l j))%nat.
Proof.
  intros H. induction H as [|x l Hx _ IH]; [done|]. unfold below, inBucket in *. rewrite !filter_cons.
  repeat case_decide; try lia; cbn [length]; lia.
Qed.

Lemma below_0 l : Forall sample_ok l -> below l 0 = [].
Proof.
  intros H. induction H as [|x l Hx _ IH]; [done|]. unfold below in *. rewrite filter_cons_False, IH; [done|].
  pose proof (bucket_range x Hx). lia.
Qed.

Lemma below_all l : Forall sample_ok l -> below l kBuckets = l.
Proof.
  intros H. induction H as [|x l Hx _ IH]; [done|]. unfold below in *. rewrite filter_cons_True, IH; [done|].
  apply bucket_range, Hx.
Qed.

Lemma percentileLoop_spec l cs j want : Forall sample_ok l -> Z.of_nat (length l) < 2 ^ 64 ->
  (forall m c, cs !! m = Some c -> c = Z.of_nat (length (inBucket l (j + m)))) ->
  (length cs + j = Z.to_nat kBuckets)%nat ->
  Z.of_nat (length (below l (Z.of_nat j))) <= want < Z.of_nat (length l) ->
  exists b, percentileLoop cs (Z.of_nat j) (Z.of_nat (length (below l (Z.of_nat j)))) want = upper b /\
    Z.of_nat (length (below l b)) <= want < Z.of_nat (length (below l (b + 1))).
Proof.
  intros Ho Hf. revert j. induction cs as [|c cs IH]; intros j Hc Hl Hw.
  - exfalso. assert (E : Z.of_nat j = kBuckets).
    { rewrite <- (Z2Nat.id kBuckets) by (vm_compute; congruence). cbn [length] in Hl. lia. }
    rewrite E, below_all in Hw by done. lia.
  - cbn [percentileLoop]. rewrite (Hc 0%nat c eq_refl), Nat.add_0_r. pose proof (below_next l j Ho) as Hn.
    pose proof (length_filter (fun x => bucket x < Z.of_nat j + 1) l) as Hle.
    fold (below l (Z.of_nat j + 1)) in Hle. rewrite <- Nat2Z.inj_add, <- Hn, u64_small by lia.
    destruct (Z.ltb_spec want (Z.of_nat (length (below l (Z.of_nat j + 1))))); [exists (Z.of_nat j); split; [done|lia]|].
    replace (Z.of_nat j + 1) with (Z.of_nat (S j)) in * by lia. apply IH.
    + intros m c' Hm. rewrite (Hc (S m) c' Hm). do 3 f_equal. lia.
    + simpl in Hl. lia.
    + lia.
Qed.

(** In a sorted list, the elements of a downward closed property come first. *)
Lemma sorted_prefix (P : Z -> Prop) `{!forall x, Decision (P x)} s w : StronglySorted Z.le s ->
  (forall x y, x ∈ s -> y ∈ s -> x <= y -> P y -> P x) ->
  (w < length (filter P s))%nat <-> exists x, s !! w = Some x /\ P x.
Proof.
  intros Hs. revert w. induction Hs as [|a s Hs IH Ha]; intros w Hdown.
  - simpl. split; [lia|]. by intros (x & Hx & _).
  - rewrite Forall_forall in Ha. destruct (decide (P a)) as [HP|HP].
    + rewrite filter_cons_True by done. destruct w as [|w]; cbn [length].
      * split; [|lia]. intros _. by exists a.
      * rewrite <- Nat.succ_lt_mono. change ((a :: s) !! S w) with (s !! w). apply IH.
        intros x y Hx Hy. apply Hdown; by right.
    + assert (Hno : forall y, y ∈ a :: s -> ~ P y).
      { intros y Hy Py. apply HP. apply (Hdown a y); [by left|done| |done].
        apply elem_of_cons in Hy as [->|Hy]; [lia|]. by apply Ha. }
      split; [|intros (x & Hx%list_elem_of_lookup_2 & Hp); by destruct (Hno x Hx)].
      intros Hw. apply lookup_lt_is_Some in Hw as [x [Hp Hx]%list_elem_of_lookup_2%list_elem_of_filter].
      by destruct (Hno x Hx).
Qed.

Lemma bucket_of_rank s w b : StronglySorted Z.le s -> Forall sample_ok s ->
  (length (below s b) <= w < length (below s (b + 1)))%nat ->
  exists x, s !! w = Some x /\ bucket x = b.
Proof.
  intros Hs Ho [Hlo Hhi]. rewrite Forall_forall in Ho.
  assert (Hdown : forall c x y, x ∈ s -> y ∈ s -> x <= y -> bucket y < c -> bucket x < c).
  { intros c x y Hx%Ho Hy%Ho Hle Hb. pose proof (bucket_mono x y). unfold sample_ok in *. lia. }
  apply (sorted_prefix (fun x => bucket x < b + 1)) in Hhi as (x & Hx & Hb); [|done|apply Hdown].
  exists x. split; [done|]. destruct (decide (bucket x < b)) as [Hlt|]; [|lia].
  assert (w < length (below s b))%nat; [|lia].
  apply (sorted_prefix (fun x => bucket x < b)); [done|apply Hdown|]. by exists x.
Qed.

(** ** The client's report *)
Definition histOf (l : list Z) : LatencyHist := foldl hist_add emptyHist l.
Definition mergeAll (hs : list LatencyHist) : LatencyHist := foldl hist_merge emptyHist hs.

Lemma hist_adds_rep l h k : hist_rep h k -> Forall sample_ok l -> Z.of_nat (length k + length l) < 2 ^ 64 ->
  hist_rep (foldl hist_add h l) (k ++ l).
Proof.
  revert h k. induction l as [|x l IH]; intros h k Hr Ho Hn; [by rewrite app_nil_r|].
  apply Forall_cons in Ho as [Hx Ho]. simpl in Hn. cbn [foldl].
  replace (k ++ x :: l) with ((k ++ [x]) ++ l) by by rewrite <- app_assoc.
  apply IH; [apply hist_add_rep; [done|done|lia]|done|rewrite length_app; simpl length; lia].
Qed.

Lemma mergeAll_rep ls h k : hist_rep h k -> Forall (Forall sample_ok) ls ->
  Z.of_nat (length k + length (concat ls)) < 2 ^ 64 ->
  hist_rep (foldl hist_merge h (histOf <$> ls)) (k ++ concat ls).
Proof.
  revert h k. induction ls as [|l ls IH]; intros h k Hr Ho Hn; [by rewrite app_nil_r|].
  apply Forall_cons in Ho as [Hl Ho]. cbn [concat] in *. rewrite length_app in Hn. cbn [fmap list_fmap foldl].
  rewrite assoc_L by apply _. apply IH; [|done|rewrite length_app; lia].
  apply hist_merge_rep; [done| |lia]. apply (hist_adds_rep l emptyHist []); [apply emptyHist_rep|done|simpl; lia].
Qed.

(** C32: the percentile reported for samples collected by several connections
    is read from the bucket of the exact order statistic of all of them: it is
    at least that sample and exceeds it by at most one part in 64. *)
Theorem percentile_accurate (scale : Z -> Z) (ls : list (list Z)) :
  let l := concat ls in let n := Z.of_nat (length l) in
  Forall (Forall (fun us => 1 <= us < 2 ^ 31)) ls -> n < 2 ^ 64 -> l <> [] -> 0 <= scale n ->
  exists x, merge_sort Z.le l !! Z.to_nat (Z.min (scale n) (n - 1)) = Some x /\
    x <= percentile scale (mergeAll (histOf <$> ls)) <= x + x / 64.
Proof.
  intros l n Hok Hn Hne Hsc.
  assert (Ho : Forall (Forall sample_ok) ls).
  { eapply Forall_impl; [exact Hok|]. intros k Hk. eapply Forall_impl; [exact Hk|]. unfold sample_ok. lia. }
  destruct (mergeAll_rep ls emptyHist [] emptyHist_rep Ho) as [Hl Hc Ht Hso _]; [exact Hn|].
  cbn [app] in *. fold l in Hc, Ht, Hso. fold (mergeAll (histOf <$> ls)) in *. set (h := mergeAll (histOf <$> ls)) in *.
  assert (0 < n). { unfold n. destruct l; [done|]. simpl length. lia. }
  unfold percentile. rewrite Ht. fold n. destruct (Z.eqb_spec n 0); [lia|].
  set (want := if n <=? scale n then n - 1 else scale n).
  assert (Hw : want = Z.min (scale n) (n - 1)). { unfold want. destruct (Z.leb_spec n (scale n)); lia. }
  destruct (percentileLoop_spec l (counts h) 0 want Hso Hn) as (b & Hp & Hb).
  { intros m c Hm. by apply Hc. } { lia. } { rewrite below_0 by done. simpl. unfold n in *. lia. }
  change (Z.of_nat 0) with 0 in Hp. rewrite below_0 in Hp by done. change (Z.of_nat (length [])) with 0 in Hp. rewrite Hp.
  pose proof (merge_sort_Permutation Z.le l) as HP.
  assert (Hb' : forall c, length (below (merge_sort Z.le l) c) = length (below l c)).
  { intros c. apply Permutation_length. unfold below. by rewrite HP. }
  destruct (bucket_of_rank (merge_sort Z.le l) (Z.to_nat want) b) as (x & Hx & <-).
  { apply StronglySorted_merge_sort; apply _. } { by rewrite HP. } { rewrite !Hb'. lia. }
  exists x. rewrite <- Hw. split; [done|]. apply upper_bucket.
  apply list_elem_of_lookup_2 in Hx. rewrite HP in Hx. apply Forall_concat in Hok.
  rewrite Forall_forall in Hok. by apply Hok.
Qed.

(** Two connections; the 90th percentile of five samples is the largest. *)
Lemma percentile_accurate_witness :
  let ls := [[100; 7]; [250; 90000; 33]] in
  let p := percentile (fun n => n * 9 / 10) (mergeAll (histOf <$> ls)) in
  p = 90112 /\ 90000 <= p <= 90000 + 90000 / 64.
Proof.
  split; [vm_compute; reflexivity|].
  destruct (percentile_accurate (fun n => n * 9 / 10) [[100; 7]; [250; 90000; 33]]) as (x & Hx & Hp).
  - repeat constructor; lia.
  - vm_compute. reflexivity.
  - discriminate.
  - vm_compute. congruence.
  - vm_compute in Hx. injection Hx as <-. exact Hp.
Defined.
