(* ===== verification/ClientWire.v ===== *)
(** * The client's wire format (client/fluxbench.cc)

    Requests the client appends to its send buffer and the streaming counter it
    runs over whatever chunks of the response stream [recv] hands back.  Shown:
    however the stream of a connection's coalesced responses is cut into chunks,
    the counter counts every response once under its status and stops on a
    message boundary. *)
From stdpp Require Import prelude gmap list.
From Stdlib Require Import ZArith Lia.
From S2P Require Import Prelude Protocol.
Open Scope Z_scope.

Definition kAltRequestMagic : Z := 0x08.
Definition kAltResponseMagic : Z := 0x18.

Definition putU16 (h : list Z) (off : nat) (v : Z) : list Z := memcpy h off (le_bytes 2 (bswap 2 v)).
Definition putU32 (h : list Z) (off : nat) (v : Z) : list Z := memcpy h off (le_bytes 4 (bswap 4 v)).
Definition getU16 (p : list Z) (off : nat) : Z := bswap 2 (le_value (slice off 2 p)).
Definition getU32 (p : list Z) (off : nat) : Z := bswap 4 (le_value (slice off 4 p)).

(** [durability] is [gOpts.durability].  [None]: the value is shorter than
    [valueLen]. *)
Definition appendRequest (durability : Z) (out : list Z) (opcode : Z) (key : list Z) (vbucket opaque : Z)
    (value : option (list Z)) (valueLen : nat) : option (list Z) :=
  let isSet := opcode =? opcode_value OpSet in
  let extrasLen := (if isSet then 8 else 0)%nat in
  let durable := isSet && negb (durability =? 0) in
  let frame := if durable then [0x11; durability] else [] in
  let valueLen := match value with
                  | Some v => if (valueLen =? 0)%nat then length v else valueLen
                  | None => 0%nat
                  end in
  let bodyLen := (length frame + extrasLen + length key + valueLen)%nat in
  let h := replicate kHeaderSize 0 in
  let h := <[0%nat := if durable then kAltRequestMagic else kRequestMagic]> h in
  let h := <[1%nat := opcode]> h in
  let h := if durable then <[3%nat := u8 (Z.of_nat (length key))]> (<[2%nat := u8 (Z.of_nat (length frame))]> h)
           else putU16 h 2 (u16 (Z.of_nat (length key))) in
  let h := <[4%nat := u8 (Z.of_nat extrasLen)]> h in
  let h := putU16 h 6 vbucket in
  let h := putU32 h 8 (u32 (Z.of_nat bodyLen)) in
  let h := putU32 h 12 opaque in
  let out := out ++ h ++ frame ++ replicate extrasLen 0 ++ key in
  match value with
  | None => Some out
  | Some v => if (valueLen <=? length v)%nat then Some (out ++ take valueLen v) else None
  end.

Definition isResponse (magic : Z) : bool := (magic =? kResponseMagic) || (magic =? kAltResponseMagic).

(** ** The streaming counter *)
Record Result := mkResult { ops : Z; errors : Z; statusCounts : gmap Z Z }.
Record ResponseCounter := mkResponseCounter {
  header_ : list Z;
  haveHeader_ : nat;
  bodyRemaining_ : nat;
  completed_ : Z;
}.
Definition newCounter (junk : list Z) : ResponseCounter := mkResponseCounter junk 0 0 0.
Definition noResult : Result := mkResult 0 0 ∅.

Definition countStatus (status : Z) (r : Result) : Result :=
  let m := <[status := u64 (default 0 (statusCounts r !! status) + 1)]> (statusCounts r) in
  if status =? 0 then mkResult (u64 (ops r + 1)) (errors r) m else mkResult (ops r) (u64 (errors r + 1)) m.

(** A complete header: a desync is [None]. *)
Definition headerDone (header : list Z) (completed : Z) (r : Result) : option (ResponseCounter * Result) :=
  if negb (isResponse (default 0 (header !! 0%nat))) then None
  else Some (mkResponseCounter header 0 (Z.to_nat (getU32 header 8)) (u64 (completed + 1)),
             countStatus (getU16 header 6) r).

(** [Feed]; the loop ends when the chunk is used up.  [None] is [false]. *)
Fixpoint feedLoop (fuel : nat) (c : ResponseCounter) (p : list Z) (r : Result) : option (ResponseCounter * Result) :=
  match p, fuel with
  | [], _ => Some (c, r)
  | _, O => None
  | _, S fuel' =>
      if (0 <? bodyRemaining_ c)%nat then
        let k := Nat.min (length p) (bodyRemaining_ c) in
        feedLoop fuel' (mkResponseCounter (header_ c) (haveHeader_ c) (bodyRemaining_ c - k) (completed_ c)) (drop k p) r
      else
        let k := Nat.min (length p) (kHeaderSize - haveHeader_ c) in
        let header := memcpy (header_ c) (haveHeader_ c) (take k p) in
        let have := (haveHeader_ c + k)%nat in
        if (have <? kHeaderSize)%nat then Some (mkResponseCounter header have (bodyRemaining_ c) (completed_ c), r)
        else
          '(c', r') ← headerDone header (completed_ c) r;
          feedLoop fuel' c' (drop k p) r'
  end.
Definition Feed (c : ResponseCounter) (p : list Z) (r : Result) : option (ResponseCounter * Result) :=
  feedLoop (length p) c p r.

Definition TakeCompleted (c : ResponseCounter) : ResponseCounter * Z :=
  (mkResponseCounter (header_ c) (haveHeader_ c) (bodyRemaining_ c) 0, completed_ c).

(** ** The counter one byte at a time *)
Definition feedByte (s : option (ResponseCounter * Result)) (b : Z) : option (ResponseCounter * Result) :=
  '(c, r) ← s;
  if (0 <? bodyRemaining_ c)%nat then
    Some (mkResponseCounter (header_ c) (haveHeader_ c) (bodyRemaining_ c - 1) (completed_ c), r)
  else
    let header := <[haveHeader_ c := b]> (header_ c) in
    let have := S (haveHeader_ c) in
    if (have <? kHeaderSize)%nat then Some (mkResponseCounter header have 0 (completed_ c), r)
    else headerDone header (completed_ c) r.

Definition counter_ok (c : ResponseCounter) : Prop :=
  length (header_ c) = kHeaderSize /\ (haveHeader_ c < kHeaderSize)%nat.

Lemma feedByte_None l : foldl feedByte None l = None.
Proof. induction l; done. Qed.

Lemma foldl_body p h hv n cm r : (length p <= n)%nat ->
  foldl feedByte (Some (mkResponseCounter h hv n cm, r)) p = Some (mkResponseCounter h hv (n - length p) cm, r).
Proof.
  revert n. induction p as [|b p IH]; intros n Hn; cbn [foldl length]; [by rewrite Nat.sub_0_r|].
  simpl in Hn. unfold feedByte at 2. cbn [mbind option_bind bodyRemaining_ header_ haveHeader_ completed_].
  destruct n as [|n]; [lia|]. cbn [Nat.ltb Nat.leb]. rewrite IH by lia. do 3 f_equal. lia.
Qed.

Lemma memcpy_cons h n b p : (n < length h)%nat -> memcpy (<[n := b]> h) (S n) p = memcpy h n (b :: p).
Proof.
  intros Hn. unfold memcpy. rewrite drop_insert_lt by lia. rewrite (take_S_r _ n b) by (by apply list_lookup_insert_eq).
  rewrite take_insert_ge by lia. cbn [length]. rewrite <- app_assoc, Nat.add_succ_r.
  reflexivity.
Qed.

Lemma length_memcpy h n p : (n + length p <= length h)%nat -> length (memcpy h n p) = length h.
Proof. intros. unfold memcpy. rewrite !length_app, length_take, length_drop. lia. Qed.

(** Bytes of a header that stays incomplete, and those that complete it. *)
Lemma foldl_header p h hv cm r : length h = kHeaderSize -> (hv + length p < kHeaderSize)%nat ->
  foldl feedByte (Some (mkResponseCounter h hv 0 cm, r)) p = Some (mkResponseCounter (memcpy h hv p) (hv + length p) 0 cm, r).
Proof.
  revert h hv. induction p as [|b p IH]; intros h hv Hh Hp; cbn [foldl].
  - unfold memcpy. cbn [length app]. by rewrite Nat.add_0_r, take_drop.
  - cbn [length] in Hp. unfold feedByte at 2. cbn [mbind option_bind bodyRemaining_ header_ haveHeader_ completed_].
    change (0 <? 0)%nat with false. cbv iota zeta. destruct (Nat.ltb_spec (S hv) kHeaderSize); [|lia].
    rewrite IH by (rewrite ?length_insert; lia). rewrite memcpy_cons by lia. do 3 f_equal. cbn [length]. lia.
Qed.

Lemma foldl_header_done p h hv cm r : length h = kHeaderSize -> (0 < length p)%nat -> (hv + length p = kHeaderSize)%nat ->
  foldl feedByte (Some (mkResponseCounter h hv 0 cm, r)) p = headerDone (memcpy h hv p) cm r.
Proof.
  intros Hh H0 Hp. destruct p as [|b q _] using rev_ind; [simpl in H0; lia|].
  rewrite length_app in Hp. simpl length in Hp. rewrite foldl_app, foldl_header by (done || lia). cbn [foldl].
  unfold feedByte. cbn [mbind option_bind bodyRemaining_ header_ haveHeader_ completed_]. change (0 <? 0)%nat with false. cbv iota zeta.
  destruct (Nat.ltb_spec (S (hv + length q)) kHeaderSize); [lia|]. f_equal. unfold memcpy.
  rewrite length_app. simpl length. rewrite insert_app_r_alt by (rewrite length_take; lia).
  rewrite length_take, Nat.min_l by lia. rewrite insert_app_r_alt by lia.
  replace (hv + length q - hv - length q)%nat with 0%nat by lia. rewrite <- app_assoc. do 2 f_equal.
  rewrite (drop_ge _ (hv + (length q + 1))) by lia. destruct (drop (hv + length q) h) as [|x l] eqn:E.
  - apply (f_equal length) in E. rewrite length_drop in E. simpl in E. lia.
  - apply (f_equal length) in E. rewrite length_drop in E. simpl in E. destruct l; [done|simpl in E; lia].
Qed.

Lemma headerDone_ok h cm r c' r' : length h = kHeaderSize -> headerDone h cm r = Some (c', r') -> counter_ok c'.
Proof. intros Hh. unfold headerDone. destruct (negb _); [done|]. intros [= <- _]. split; [done|]. simpl. unfold kHeaderSize. lia. Qed.

(** Reading in chunks is reading byte by byte. *)
Lemma feedLoop_bytes fuel c p r : counter_ok c -> (length p <= fuel)%nat ->
  feedLoop fuel c p r = foldl feedByte (Some (c, r)) p.
Proof.
  revert c p r. induction fuel as [|fuel IH]; intros [h hv n cm] p r [Hh Hv] Hp; cbn [header_ haveHeader_] in Hh, Hv.
  { destruct p; [done|simpl in Hp; lia]. }
  destruct p as [|b p0] eqn:Ep; [done|]. rewrite <- Ep in Hp |- *. cbn [feedLoop]. rewrite Ep. rewrite <- Ep.
  assert (Hlp : (0 < length p)%nat) by (rewrite Ep; simpl; lia). clear Ep.
  cbn [bodyRemaining_ header_ haveHeader_ completed_]. destruct (Nat.ltb_spec 0 n) as [Hn|Hn].
  - set (k := Nat.min (length p) n). rewrite IH by (split || rewrite length_drop; (done || lia)).
    rewrite <- (take_drop k p) at 2. rewrite foldl_app, (foldl_body (take k p)) by (rewrite length_take; lia).
    rewrite length_take. by replace (Nat.min k (length p)) with k by lia.
  - replace n with 0%nat by lia. set (k := Nat.min (length p) (kHeaderSize - hv)).
    assert (Hk : length (take k p) = k) by (rewrite length_take; lia).
    destruct (Nat.ltb_spec (hv + k) kHeaderSize) as [Hlt|Hge].
    + rewrite <- (take_ge p k) at 2 by lia. rewrite (foldl_header (take k p)), Hk by lia. done.
    + trans (foldl feedByte (Some (mkResponseCounter h hv 0 cm, r)) (take k p ++ drop k p)); [|by rewrite take_drop].
      rewrite foldl_app, (foldl_header_done (take k p)) by lia.
      destruct (headerDone (memcpy h hv (take k p)) cm r) as [[c' r']|] eqn:E; [|by rewrite feedByte_None].
      cbn [mbind option_bind]. apply IH; [|rewrite length_drop; lia].
      eapply headerDone_ok; [|exact E]. rewrite length_memcpy; lia.
Qed.

Lemma feedByte_ok c r b c' r' : counter_ok c -> feedByte (Some (c, r)) b = Some (c', r') -> counter_ok c'.
Proof.
  intros [Hh Hv]. unfold feedByte. cbn [mbind option_bind]. destruct (0 <? bodyRemaining_ c)%nat; [by intros [= <- _]|].
  cbv zeta. destruct (Nat.ltb_spec (S (haveHeader_ c)) kHeaderSize).
  - intros [= <- _]. split; simpl; [by rewrite length_insert|lia].
  - apply headerDone_ok. by rewrite length_insert.
Qed.

Lemma feedBytes_ok p c r c' r' : counter_ok c -> foldl feedByte (Some (c, r)) p = Some (c', r') -> counter_ok c'.
Proof.
  revert c r. induction p as [|b p IH]; intros c r Hc; [by intros [= <- _]|]. cbn [foldl].
  destruct (feedByte (Some (c, r)) b) as [[c1 r1]|] eqn:E; [|by rewrite feedByte_None].
  apply IH. by eapply feedByte_ok.
Qed.

(** [recv] hands back one chunk after the other. *)
Fixpoint feedChunks (c : ResponseCounter) (ps : list (list Z)) (r : Result) : option (ResponseCounter * Result) :=
  match ps with
  | [] => Some (c, r)
  | p :: ps' => '(c', r') ← Feed c p r; feedChunks c' ps' r'
  end.

Lemma feedChunks_bytes ps c r : counter_ok c -> feedChunks c ps r = foldl feedByte (Some (c, r)) (concat ps).
Proof.
  revert c r. induction ps as [|p ps IH]; intros c r Hc; [done|]. cbn [feedChunks concat].
  rewrite foldl_app. unfold Feed. rewrite feedLoop_bytes by (done || lia).
  destruct (foldl feedByte (Some (c, r)) p) as [[c' r']|] eqn:E; [|by rewrite feedByte_None].
  cbn [mbind option_bind]. apply IH. by eapply feedBytes_ok.
Qed.

(** ** Counting a stream of responses *)
Definition statusOf (r : reply) : Z :=
  match r with GetReply _ _ _ _ _ => status_value StSuccess | EmptyReply _ st _ _ => status_value st end.

Lemma headerDone_hdr h cm r : McbpHeader_wf h -> isResponse (magic h) = true ->
  headerDone (hdr_bytes (hton h)) cm r =
  Some (mkResponseCounter (hdr_bytes (hton h)) 0 (Z.to_nat (bodyLen h)) (u64 (cm + 1)), countStatus (specific h) r).
Proof.
  intros Hwf Hm. pose proof (hdr_of_hdr_bytes (hton h) (hton_wf h Hwf)) as Hd. pose proof (ntoh_hton h Hwf) as Hn.
  unfold headerDone. assert (E : default 0 (hdr_bytes (hton h) !! 0%nat) = magic h).
  { unfold hdr_bytes. cbn. apply Z.mod_small. apply Hwf. }
  rewrite E, Hm. cbn [negb]. rewrite <- Hd in Hn at 1. do 3 f_equal.
  - change (getU32 (hdr_bytes (hton h)) 8) with (bodyLen (ntoh (hdr_of_bytes (hdr_bytes (hton h))))). by rewrite Hn.
  - change (getU16 (hdr_bytes (hton h)) 6) with (specific (ntoh (hdr_of_bytes (hdr_bytes (hton h))))). by rewrite Hn.
Qed.

Lemma feed_wire h body c r : counter_ok c -> haveHeader_ c = 0%nat -> bodyRemaining_ c = 0%nat ->
  McbpHeader_wf h -> isResponse (magic h) = true -> bodyLen h = Z.of_nat (length body) ->
  foldl feedByte (Some (c, r)) (hdr_bytes (hton h) ++ body) =
  Some (mkResponseCounter (hdr_bytes (hton h)) 0 0 (u64 (completed_ c + 1)), countStatus (specific h) r).
Proof.
  destruct c as [hd hv n cm]. intros [Hl _] Hv Hn Hwf Hm Hb. cbn [header_ haveHeader_ bodyRemaining_ completed_] in *. subst hv n.
  pose proof (length_hdr_bytes (hton h)) as Hh. rewrite foldl_app, foldl_header_done by (unfold kHeaderSize in *; lia).
  assert (E : memcpy hd 0 (hdr_bytes (hton h)) = hdr_bytes (hton h)).
  { unfold memcpy. rewrite drop_ge by lia. by rewrite app_nil_r. }
  rewrite E, headerDone_hdr, Hb, Nat2Z.id, foldl_body, Nat.sub_diag by done. done.
Qed.

(** The wire image of a reply as header and body. *)
Lemma replyBytes_wire r : reply_ok r -> exists h body,
  replyBytes r = hdr_bytes (hton h) ++ body /\ McbpHeader_wf h /\ isResponse (magic h) = true /\
  bodyLen h = Z.of_nat (length body) /\ specific h = statusOf r.
Proof.
  destruct r as [opq cas flags dt value|op status opq cas]; cbn [reply_ok replyBytes statusOf]; unfold frame.
  - intros (Ho & Hc & Hd & Hl). eexists _, _. split; [reflexivity|]. cbn [magic bodyLen specific].
    rewrite !length_app, length_le_bytes. simpl length. rewrite Nat.add_0_r.
    split; [unfold McbpHeader_wf, is_uint, kResponseMagic in *; cbn -[Z.of_nat Z.pow]; lia|]. split_and!; (done || lia).
  - intros (Hop & Ho & Hc). eexists _, _. split; [reflexivity|]. cbn [magic bodyLen specific].
    pose proof (status_value_range status). split; [unfold McbpHeader_wf, is_uint, kResponseMagic in *; cbn -[Z.of_nat Z.pow status_value]; lia|done].
Qed.

Lemma feed_replies rs c r : counter_ok c -> haveHeader_ c = 0%nat -> bodyRemaining_ c = 0%nat -> Forall reply_ok rs ->
  exists hd, length hd = kHeaderSize /\ foldl feedByte (Some (c, r)) (concat (map replyBytes rs)) =
    Some (mkResponseCounter hd 0 0 (Nat.iter (length rs) (fun n => u64 (n + 1)) (completed_ c)),
          foldl (fun r s => countStatus s r) r (statusOf <$> rs)).
Proof.
  intros Hc Hv Hn Hrs. revert c r Hc Hv Hn. induction Hrs as [|rp rs Hr _ IH]; intros c r Hc Hv Hn.
  - exists (header_ c). split; [apply Hc|]. destruct c. cbn in *. by subst.
  - cbn [map concat]. destruct (replyBytes_wire rp Hr) as (h & body & -> & Hwf & Hm & Hb & Hs).
    rewrite foldl_app, feed_wire by done. rewrite Hs.
    destruct (IH (mkResponseCounter (hdr_bytes (hton h)) 0 0 (u64 (completed_ c + 1))) (countStatus (statusOf rp) r)) as (hd & Hl & E);
      [split; [apply length_hdr_bytes|simpl; unfold kHeaderSize; lia]|done|done|].
    exists hd. split; [done|]. rewrite E. cbn [length completed_]. by rewrite Nat.iter_succ_r.
Qed.

Lemma iter_count n x : 0 <= x -> x + Z.of_nat n < 2 ^ 64 -> Nat.iter n (fun k => u64 (k + 1)) x = x + Z.of_nat n.
Proof. induction n as [|n IH]; intros H0 H; [simpl; lia|]. rewrite Nat.iter_succ, IH, u64_small by lia. lia. Qed.

(** How many replies have the status. *)
Definition ofStatus (s : Z) (rs : list reply) : Z := Z.of_nat (length (filter (fun r => statusOf r = s) rs)).

Lemma countStatus_all rs r : is_uint 64 (ops r + Z.of_nat (length rs)) -> is_uint 64 (errors r + Z.of_nat (length rs)) ->
  0 <= ops r -> 0 <= errors r ->
  (forall s, 0 <= default 0 (statusCounts r !! s) /\ default 0 (statusCounts r !! s) + Z.of_nat (length rs) < 2 ^ 64) ->
  let r' := foldl (fun r s => countStatus s r) r (statusOf <$> rs) in
  ops r' = ops r + ofStatus 0 rs /\ errors r' = errors r + (Z.of_nat (length rs) - ofStatus 0 rs) /\
  forall s, default 0 (statusCounts r' !! s) = default 0 (statusCounts r !! s) + ofStatus s rs.
Proof.
  unfold ofStatus, is_uint. revert r. induction rs as [|rp rs IH]; intros r Ho He Ho0 He0 Hs; [simpl; split_and!; intros; lia|].
  cbn [length] in *. cbn [fmap list_fmap foldl]. set (st := statusOf rp). set (r1 := countStatus st r).
  assert (H1 : ops r1 = (if st =? 0 then ops r + 1 else ops r) /\ errors r1 = (if st =? 0 then errors r else errors r + 1)).
  { unfold r1, countStatus. destruct (st =? 0); simpl; rewrite u64_small by lia; done. }
  assert (H2 : forall s, default 0 (statusCounts r1 !! s) = default 0 (statusCounts r !! s) + (if decide (s = st) then 1 else 0)).
  { intros s. assert (E : statusCounts r1 = <[st := u64 (default 0 (statusCounts r !! st) + 1)]> (statusCounts r)).
    { unfold r1, countStatus. by destruct (st =? 0). }
    rewrite E. specialize (Hs st). case_decide; [subst s; rewrite lookup_insert_eq; simpl; rewrite u64_small; lia|].
    rewrite lookup_insert_ne by done. lia. }
  destruct H1 as [Ho1 He1]. assert (Hrange : 0 <= ops r1 <= ops r + 1 /\ 0 <= errors r1 <= errors r + 1).
  { rewrite Ho1, He1. destruct (st =? 0); lia. }
  destruct (IH r1) as (Ho' & He' & Hs'); [lia..|intros s; rewrite H2; specialize (Hs s); case_decide; lia|].
  rewrite Ho', He', Ho1, He1. rewrite (filter_cons _ rp). fold st.
  split; [|split].
  - destruct (Z.eqb_spec st 0); case_decide; cbn [length]; lia.
  - destruct (Z.eqb_spec st 0); case_decide; cbn [length]; lia.
  - intros s. rewrite Hs', H2. rewrite (filter_cons _ rp). fold st. repeat case_decide; cbn [length]; (congruence || lia).
Qed.

(** The client counts what the server sends.  Whatever chunks the stream of
    a connection's coalesced responses arrives in, the counter accepts all of
    them, counts each response once under its status, and ends on a message
    boundary. *)
Theorem counter_counts_responses (junk : list Z) (rs : list reply) (chunks : list (list Z)) :
  length junk = kHeaderSize -> Forall reply_ok rs -> Z.of_nat (length rs) < 2 ^ 64 ->
  concat chunks = foldl appendReply [] rs ->
  exists c r, feedChunks (newCounter junk) chunks noResult = Some (c, r) /\
    haveHeader_ c = 0%nat /\ bodyRemaining_ c = 0%nat /\ completed_ c = Z.of_nat (length rs) /\
    ops r = ofStatus 0 rs /\ errors r = Z.of_nat (length rs) - ofStatus 0 rs /\
    forall s, default 0 (statusCounts r !! s) = ofStatus s rs.
Proof.
  intros Hj Hrs Hn Hch. assert (Hc : counter_ok (newCounter junk)) by (split; [done|simpl; unfold kHeaderSize; lia]).
  rewrite feedChunks_bytes, Hch, foldl_appendReply by done. cbn [app].
  destruct (feed_replies rs (newCounter junk) noResult Hc) as (hd & _ & ->); [done..|].
  destruct (countStatus_all rs noResult) as (Ho & He & Hs); cbn [noResult ops errors statusCounts] in *;
    [unfold is_uint; lia..|intros s; rewrite lookup_empty; simpl; lia|].
  eexists _, _. split; [reflexivity|]. cbn [haveHeader_ bodyRemaining_ completed_ newCounter]. rewrite iter_count by lia.
  split_and!; try done; try lia.
Qed.

(** Three responses, cut inside a header and inside a body. *)
Lemma counter_counts_responses_witness :
  let rs := [GetReply 1 2 3 0 [9; 9; 9]; EmptyReply 1 StTmpFail 5 0; EmptyReply 0 StSuccess 6 0] in
  let s := foldl appendReply [] rs in
  exists c r, feedChunks (newCounter (replicate 24 0)) [take 10 s; slice 10 19 s; drop 29 s] noResult = Some (c, r) /\
    completed_ c = 3 /\ ops r = 2 /\ errors r = 1.
Proof.
  intros rs s. destruct (counter_counts_responses (replicate 24 0) rs [take 10 s; slice 10 19 s; drop 29 s])
    as (c & r & H & _ & _ & H1 & H2 & H3 & _).
  - reflexivity.
  - repeat constructor; done.
  - reflexivity.
  - vm_compute. reflexivity.
  - exists c, r. split; [exact H|]. split; [exact H1|]. split; [exact H2|exact H3].
Defined.
