(* ===== verification/ClientRun.v ===== *)
(** * The client's load loop (client/fluxbench.cc, [runConnection])

    One connection sends a batch of requests, waits for all their responses and
    repeats.  A SET run without random keys is a load: connection [t] of [conns]
    walks the key indices [t], [t + conns], ... and resends keys the server
    refused with TmpFail.  Shown: when every request is answered, the
    connections of a finished load have had every key index of the key space
    answered exactly once. *)
From stdpp Require Import prelude list.
From Stdlib Require Import ZArith Lia.
From S2P Require Import Prelude Protocol ClientKeys ClientWire.
Open Scope Z_scope.

Record LoadState := mkLoadState { setCursor : Z; retry : list Z }.

Section load.
Context (keys conns pipeline : Z) (strideLoad : bool).

Definition remaining (cursor : Z) : Z :=
  if keys <=? cursor then 0 else u64 (keys - cursor + conns - 1) / conns.

(** The size of the next batch; [None] is the [break] of a finished load. *)
Definition roundSize (st : LoadState) : option Z :=
  if strideLoad then
    if (keys <=? setCursor st) && bool_decide (retry st = []) then None
    else Some (Z.min pipeline (u64 (remaining (setCursor st) + Z.of_nat (length (retry st)))))
  else Some pipeline.

(** The key of the next request; [pick] is [pickKey] where the run is random. *)
Definition nextKey (pick : Z) (st : LoadState) : Z * LoadState :=
  if strideLoad then
    match last (retry st) with
    | Some k => (k, mkLoadState (setCursor st) (take (length (retry st) - 1) (retry st)))
    | None => (setCursor st, mkLoadState (u64 (setCursor st + conns)) (retry st))
    end
  else (pick, st).

(** [keyOfSlot] of the batch, slot by slot. *)
Fixpoint pickBatch (picks : list Z) (st : LoadState) : list Z * LoadState :=
  match picks with
  | [] => ([], st)
  | p :: picks' =>
      let '(k, st1) := nextKey p st in
      let '(ks, st2) := pickBatch picks' st1 in (k :: ks, st2)
  end.

(** The requests of the batch, each with its slot as opaque. *)
Fixpoint sendBatch (durability op : Z) (keyFor : Z -> list Z) (vbuckets : Z) (value : option (list Z))
    (valueLen : Z -> nat) (out : list Z) (slot : Z) (ks : list Z) : option (list Z) :=
  match ks with
  | [] => Some out
  | k :: ks' =>
      out' ← appendRequest durability out op (keyFor k) (vbucketFor (keyFor k) vbuckets) (u32 slot) value (valueLen k);
      sendBatch durability op keyFor vbuckets value valueLen out' (slot + 1) ks'
  end.

(** A response, by its opaque and status: answered, or to be resent.  [i] is its
    position among the batch's responses. *)
Definition onResponse (keyOfSlot : list Z) (acc : list (Z * Z) * list Z) (i : Z) (resp : Z * Z)
    : option (list (Z * Z) * list Z) :=
  let '(opaque, status) := resp in
  let slot := if opaque <? Z.of_nat (length keyOfSlot) then opaque else i in
  k ← keyOfSlot !! Z.to_nat slot;
  Some (if (negb (status =? 0)) && strideLoad && (status =? status_value StTmpFail)
        then (acc.1, acc.2 ++ [k]) else (acc.1 ++ [(k, status)], acc.2)).

Fixpoint recvBatch (keyOfSlot : list Z) (acc : list (Z * Z) * list Z) (i : Z) (resps : list (Z * Z))
    : option (list (Z * Z) * list Z) :=
  match resps with
  | [] => Some acc
  | r :: resps' => acc' ← onResponse keyOfSlot acc i r; recvBatch keyOfSlot acc' (i + 1) resps'
  end.

(** One iteration: [answered] are the keys and statuses seen so far. *)
Definition oneRound (picks : list Z) (resps : list (Z * Z)) (st : LoadState) (answered : list (Z * Z))
    : option (LoadState * list (Z * Z)) :=
  let '(ks, st1) := pickBatch picks st in
  '(ans, rt) ← recvBatch ks (answered, retry st1) 0 resps;
  Some (mkLoadState (setCursor st1) rt, ans).

(** Iterations in which the server answers every request once, in any order. *)
Inductive load_run (t : Z) : LoadState -> list (Z * Z) -> Prop :=
  | load_start : load_run t (mkLoadState t []) []
  | load_round st ans picks resps st' ans' n : load_run t st ans -> roundSize st = Some n ->
      Z.of_nat (length picks) = n -> resps.*1 ≡ₚ seqZ 0 n -> oneRound picks resps st ans = Some (st', ans') ->
      load_run t st' ans'.
End load.

(** ** The share of one connection *)
Section share.
Context (keys conns pipeline : Z).
Hypothesis Hconns : 0 < conns.
Hypothesis Hkeys : 0 <= keys.
Hypothesis Hfit : keys + conns < 2 ^ 64.
Hypothesis Hpipe : 0 <= pipeline.

Definition stride (c : Z) : list Z := (fun i => c + i * conns) <$> seqZ 0 (remaining keys conns c).

Lemma remaining_eq c : 0 <= c -> remaining keys conns c = if keys <=? c then 0 else (keys - c + conns - 1) / conns.
Proof using Hconns Hkeys Hfit.
  intros Hc. unfold remaining. destruct (Z.leb_spec keys c); [done|]. rewrite u64_small; [done|lia].
Qed.

Lemma remaining_nonneg c : 0 <= c -> 0 <= remaining keys conns c.
Proof using Hconns Hkeys Hfit.
  intros Hc. rewrite remaining_eq by done. destruct (Z.leb_spec keys c); [lia|]. apply Z.div_pos; lia.
Qed.

Lemma remaining_next c : 0 <= c < keys -> remaining keys conns c = remaining keys conns (c + conns) + 1.
Proof using Hconns Hkeys Hfit.
  intros Hc. rewrite !remaining_eq by lia. destruct (Z.leb_spec keys c); [lia|]. destruct (Z.leb_spec keys (c + conns)).
  - symmetry. apply Z.div_unique with (keys - c - 1); lia.
  - replace (keys - c + conns - 1) with (keys - (c + conns) + conns - 1 + 1 * conns) by lia. rewrite Z.div_add; lia.
Qed.

Lemma stride_done c : keys <= c -> stride c = [].
Proof. intros H. unfold stride, remaining. destruct (Z.leb_spec keys c); [done|lia]. Qed.

Lemma stride_next c : 0 <= c < keys -> stride c = c :: stride (c + conns).
Proof using Hconns Hkeys Hfit.
  intros Hc. unfold stride. rewrite remaining_next by done. pose proof (remaining_nonneg (c + conns)).
  rewrite seqZ_cons by lia. cbn [fmap list_fmap]. f_equal; [lia|].
  replace (Z.pred (remaining keys conns (c + conns) + 1)) with (remaining keys conns (c + conns)) by lia.
  rewrite <- (fmap_add_seqZ 1 0), <- list_fmap_compose. apply list_fmap_ext. intros i x _. simpl. lia.
Qed.

Lemma length_stride c : 0 <= c -> Z.of_nat (length (stride c)) = remaining keys conns c.
Proof using Hconns Hkeys Hfit.
  intros Hc. unfold stride. rewrite length_fmap, length_seqZ, Z2Nat.id; [done|]. by apply remaining_nonneg.
Qed.

Lemma pickBatch_perm picks st ks st' : 0 <= setCursor st <= keys + conns ->
  (length picks <= length (retry st) + length (stride (setCursor st)))%nat ->
  pickBatch conns true picks st = (ks, st') ->
  ks ++ retry st' ++ stride (setCursor st') ≡ₚ retry st ++ stride (setCursor st) /\
  length ks = length picks /\ 0 <= setCursor st' <= keys + conns.
Proof using Hconns Hkeys Hfit.
  revert st ks. induction picks as [|p picks IH]; intros st ks Hc Hl; cbn [pickBatch]; [by intros [= <- <-]|].
  unfold nextKey. destruct (last (retry st)) as [k|] eqn:El.
  - apply last_Some in El as [l El]. rewrite El, length_app, Nat.add_sub in *. simpl length in Hl.
    rewrite take_app_length. destruct (pickBatch conns true picks _) as [ks1 st1] eqn:E. intros [= <- <-].
    apply IH in E as (HP & Hlen & Hc'); [|done|cbn [retry setCursor] in *; lia]. cbn [retry setCursor] in HP.
    split; [|cbn [length]; split; [lia|done]]. cbn [app]. rewrite HP. solve_Permutation.
  - apply last_None in El. rewrite El in Hl. simpl in Hl.
    assert (Hlt : setCursor st < keys). { destruct (decide (setCursor st < keys)); [done|]. rewrite stride_done in Hl by lia. simpl in Hl. lia. }
    rewrite stride_next in Hl by lia. simpl in Hl. rewrite u64_small by lia.
    destruct (pickBatch conns true picks _) as [ks1 st1] eqn:E. intros [= <- <-].
    apply IH in E as (HP & Hlen & Hc'); [|cbn [setCursor]; lia|cbn [setCursor retry]; rewrite El; simpl; lia].
    cbn [setCursor retry] in HP. rewrite El in *. split; [|cbn [length]; split; [lia|done]].
    cbn [app] in *. rewrite (stride_next (setCursor st)) by lia. by rewrite HP.
Qed.

(** Answers move the keys of their slots out of the batch. *)
Lemma recvBatch_perm (ks : list Z) acc i (resps : list (Z * Z)) : Forall (fun o => 0 <= o < Z.of_nat (length ks)) resps.*1 ->
  exists (acc' : list (Z * Z) * list Z) (ks' : list Z), recvBatch true ks acc i resps = Some acc' /\
    mapM (fun o => ks !! Z.to_nat o) resps.*1 = Some ks' /\ acc'.1.*1 ++ acc'.2 ≡ₚ acc.1.*1 ++ acc.2 ++ ks'.
Proof.
  revert acc i. induction resps as [|[o s] resps IH]; intros acc i Ho; cbn [recvBatch fmap list_fmap].
  - exists acc, []. by rewrite app_nil_r.
  - cbn [fmap list_fmap] in Ho. apply Forall_cons in Ho as [Ho1 Ho]. cbn [fst] in Ho1.
    destruct (lookup_lt_is_Some_2 ks (Z.to_nat o)) as [k Hk]; [lia|].
    unfold onResponse. destruct (Z.ltb_spec o (Z.of_nat (length ks))); [|lia]. rewrite Hk. cbn [mbind option_bind].
    match goal with |- context [recvBatch true ks ?a (i + 1) resps] => set (acc1 := a) end. destruct (IH acc1 (i + 1) Ho) as (acc' & ks' & E & Em & HP).
    exists acc', (k :: ks'). rewrite E. split; [done|]. split; [apply mapM_Some; constructor; [done|by apply mapM_Some]|].
    rewrite HP. unfold acc1. case_match; simpl; rewrite ?fmap_app; simpl; solve_Permutation.
Qed.

Lemma mapM_slots (ks os : list Z) : os ≡ₚ seqZ 0 (Z.of_nat (length ks)) ->
  forall ks', mapM (fun o => ks !! Z.to_nat o) os = Some ks' -> ks' ≡ₚ ks.
Proof.
  intros HP ks' Hm. apply mapM_Some in Hm. assert (E : ks' = (fun o => default 0 (ks !! Z.to_nat o)) <$> os).
  { clear HP. induction Hm as [|o k os' ks'' Hk _ IH]; [done|]. cbn [fmap list_fmap]. by rewrite Hk, IH. }
  rewrite E, HP. apply reflexive_eq. apply list_eq. intros j. rewrite list_lookup_fmap.
  destruct (decide (j < length ks)%nat) as [Hj|Hj].
  - rewrite lookup_seqZ_lt by lia. cbn [fmap option_fmap option_map]. rewrite Z.add_0_l, Nat2Z.id. by destruct (lookup_lt_is_Some_2 ks j Hj) as [x ->].
  - rewrite lookup_seqZ_ge by lia. simpl. symmetry. apply lookup_ge_None_2. lia.
Qed.

Lemma load_run_inv t st ans : 0 <= t <= keys + conns -> load_run keys conns pipeline true t st ans ->
  ans.*1 ++ retry st ++ stride (setCursor st) ≡ₚ stride t /\ 0 <= setCursor st <= keys + conns.
Proof using Hconns Hkeys Hfit Hpipe.
  intros Ht H. induction H as [|st ans picks resps st' ans' n _ [IH Hc] Hn Hp Hr Hround]; [done|].
  unfold roundSize in Hn. destruct (_ && _) in Hn; [done|]. injection Hn as Hn.
  pose proof (length_stride (setCursor st) ltac:(lia)) as Hls. pose proof (remaining_nonneg (setCursor st) ltac:(lia)).
  assert (Hfits : Z.of_nat (length (retry st)) + remaining keys conns (setCursor st) <= keys + conns).
  { apply Permutation_length in IH. rewrite !length_app in IH. pose proof (length_stride t ltac:(lia)) as Hlt.
    rewrite remaining_eq in Hlt by lia. destruct (Z.leb_spec keys t); [lia|].
    pose proof (Z.div_le_upper_bound (keys - t + conns - 1) conns (keys + conns)). nia. }
  rewrite u64_small in Hn by lia. unfold oneRound in Hround. destruct (pickBatch conns true picks st) as [ks st1] eqn:Ep.
  apply pickBatch_perm in Ep as (HP & Hlen & Hc1); [|done|lia].
  rewrite <- Hp in Hr. rewrite <- Hlen in Hr.
  destruct (recvBatch_perm ks (ans, retry st1) 0 resps) as ([ans1 rt1] & ks' & E & Em & HP').
  { rewrite Hr. apply Forall_forall. intros o Ho%elem_of_seqZ. lia. }
  rewrite E in Hround. injection Hround as <- <-. cbn [retry setCursor fst snd] in *. split; [|done].
  rewrite (mapM_slots ks _ Hr ks' Em) in HP'. rewrite assoc_L by apply _. rewrite HP'. rewrite <- IH, <- HP. solve_Permutation.
Qed.

Lemma load_done_share t st ans : 0 <= t <= keys + conns -> load_run keys conns pipeline true t st ans ->
  roundSize keys conns pipeline true st = None -> ans.*1 ≡ₚ stride t.
Proof using Hconns Hkeys Hfit Hpipe.
  intros Ht Hr Hd. apply load_run_inv in Hr as [HP Hc]; [|done]. unfold roundSize in Hd.
  destruct (Z.leb_spec keys (setCursor st)); simpl in Hd; [|done]. case_bool_decide as E; [|done].
  rewrite E, stride_done, !app_nil_r in HP by done. done.
Qed.

(** The shares of the connections are the key space. *)
Lemma elem_of_stride t x : 0 <= t -> x ∈ stride t <-> t <= x < keys /\ (x - t) mod conns = 0.
Proof using Hconns Hkeys Hfit.
  intros Ht. unfold stride. rewrite list_elem_of_fmap. setoid_rewrite elem_of_seqZ. rewrite remaining_eq by done.
  destruct (Z.leb_spec keys t); [split; [intros (i & _ & Hi); lia|lia]|]. split.
  - intros (i & -> & Hi). pose proof (Z.mul_div_le (keys - t + conns - 1) conns Hconns). split; [nia|].
    replace (t + i * conns - t) with (i * conns) by lia. by apply Z.mod_mul, Z.neq_sym, Z.lt_neq.
  - intros [Hx Hm]. apply Z.mod_divide in Hm as [i Hi]; [|lia]. exists i. split; [lia|]. split; [nia|].
    rewrite Z.add_0_l. apply Z.lt_le_trans with (i + 1); [lia|]. apply Z.div_le_lower_bound; nia.
Qed.

Lemma shares_cover : seqZ 0 conns ≫= stride ≡ₚ seqZ 0 keys.
Proof using Hconns Hkeys Hfit.
  apply NoDup_Permutation.
  - apply NoDup_bind; [|intros t _; apply NoDup_fmap_2; [intros i j; nia|apply NoDup_seqZ]|apply NoDup_seqZ].
    intros t u x Ht%elem_of_seqZ Hu%elem_of_seqZ. rewrite !elem_of_stride by lia. intros [_ H1] [_ H2].
    apply Z.mod_divide in H1 as [i Hi], H2 as [j Hj]; [|lia..].
    assert (t - u = 0); [|lia]. apply (mod_zero_window conns); [lia..|]. replace (t - u) with ((j - i) * conns) by lia. apply Z.mod_mul. lia.
  - apply NoDup_seqZ.
  - intros x. rewrite list_elem_of_bind, elem_of_seqZ. split.
    + intros (t & Hx & Ht%elem_of_seqZ). apply elem_of_stride in Hx; lia.
    + intros Hx. pose proof (Z.mod_pos_bound x conns Hconns). exists (x mod conns). rewrite elem_of_seqZ, elem_of_stride by lia.
      split; [|lia]. split; [pose proof (Z.mod_le x conns); lia|].
      replace (x - x mod conns) with (x / conns * conns) by (pose proof (Z.div_mod x conns); lia). apply Z.mod_mul. lia.
Qed.
End share.


